(* ===== verification/_CoqProject ===== *)
-Q . S2P
Prelude.v
HeapProp.v
Memory.v
Platform.v
Logic.v
StdString.v
BlockHeader.v
SystemMemory.v
SizeClassTable.v
Prog.v
Interleaving.v
ProgLogic.v
FreeList.v
PoolAllocator.v
ThreadCache.v
LargeAllocator.v
StatisticsCollector.v
SegmentHeap.v
SegmentTags.v
SegmentModel.v
SegmentList.v
SegmentBins.v
SegmentBlocks.v
SegmentProofs.v
SegmentAlloc.v
SegmentFree.v
SegmentStats.v
Config.v
DebugLayer.v
Tiers.v
AllocatorImpl.v
SmallTier.v
RawAlloc.v
AllocatorInv.v
SharedInv.v
SharedStats.v
SharedRaw.v
Allocate.v
Deallocate.v
SharedAlloc.v
Allocator.v
Facade.v
StlAllocator.v
StdVector.v
MemoryResource.v
PmrMap.v
Client.v
Serving.v
Adapters.v
Runner.v
ExampleLoops.v
ExamplePrograms.v
StlIntegration.v
SharedHandle.v
History.v
Usage.v
Mappings.v
Windows.v
Lifetime.v
TestRules.v
UnitTests.v
TestSuite.v
Concurrent.v
ThreadSafety.v
RunnerThreads.v
StateTypes.v
Liveness.v
SharedMappings.v
Components.v
Correctness.v
Findings.v
