(* ===== verification/Prelude.v ===== *)
(** * m-alloc, verified: a model of the allocator and the theorems that make it correct

    m-alloc is a general-purpose memory allocator in C++.  A handle ([ma::Allocator])
    owns an [AllocatorImpl]; a request is served by one of three tiers according to
    its size (small: size classes behind per-thread caches; medium: boundary-tagged
    blocks in 4 MiB segments; large: one mapping each).  Every block carries a
    16-byte header; guards and alignment put a second header (a shim) in front of
    the user pointer.  Counters and, when configured, tables of live and freed
    pointers are kept on the side.  All the memory comes from [mmap].

    ** The model

    Memory is bytes ([Memory]): mapped pages and the bytes written to them; an access
    outside a mapping or a misaligned word is a [Fault], [std::abort] is [Aborted], a
    loop that exhausts its fuel is [OutOfFuel].  [mmap] and the page size are the class
    [OS]; what POSIX documents of them is the class [OSLaws]; [Platform] has instances.
    A command ([cmd]) is a function of memory; headers, list links and boundary tags are
    read and written where the code reads and writes them.  A program ([Prog.prog])
    is a tree of atomic actions on a component's state and memory - a critical
    section, one atomic access, one system call, one access to memory the thread owns -
    in the order of the code.  Machine integers are [Z] with explicit wrap-around.

    [HeapProp] and [Logic] are the program logic: assertions over byte heaplets with
    the Iris proof mode, and a weakest precondition for total correctness - a command
    that has one neither faults, nor aborts, nor runs out of fuel, whatever other memory
    there is ([hoare], [Prog.phoare]: triples with every frame).

    ** Files, and the code they model

    - [SystemMemory]: SystemMemory.hpp/.cpp ([map], [unmap], [MappedRegion]); [Windows]: the
      other branch of its conditional compilation, as one more [OS].
    - [BlockHeader]: BlockHeader.hpp.  [SizeClassTable]: SizeClassTable.hpp, the lookup table computed.
    - [FreeList]: FreeList.hpp.  [PoolAllocator]: PoolAllocator.hpp/.cpp.
      [ThreadCache]: ThreadCache.hpp/.cpp with its destructor.
    - [SegmentHeap]: SegmentHeap.hpp/.cpp; its proof is in [SegmentTags] (tag words),
      [SegmentModel] (the abstract block map), [SegmentList] and [SegmentBins] (free
      lists), [SegmentBlocks], [SegmentProofs], [SegmentAlloc], [SegmentFree], [SegmentStats].
    - [LargeAllocator]: LargeAllocator.hpp/.cpp.  [StatisticsCollector]: StatisticsCollector.hpp,
      Statistics.hpp.  [DebugLayer]: DebugLayer.hpp.  [Config]: Error.hpp, Config.hpp, Version.hpp.
    - [AllocatorImpl]: AllocatorImpl.hpp/.cpp and CentralState.hpp.  [Tiers] is the interface
      (a class with laws) between it and the two tiers that hand out payloads by
      address; [SmallTier], [RawAlloc] (the tier dispatch refines one allocator of
      blocks), [AllocatorInv] (the invariant), [Allocate], [Deallocate] prove its operations.
    - [Allocator]: Allocator.hpp/.cpp, the handle and its moved-from state; [Facade]: its contracts.
      [StlAllocator], [MemoryResource]: the adapters of those names.
    - [Client]: the abstract specification ([spec_step]) and the refinement; [Usage] and
      [History]: what the counters mean.  [Mappings]: the account of the mapped pages, and
      the destructors ([*_destroy], next to the other operations of each component).
    - Concurrency: [Interleaving] (what a thread must guarantee and may rely on between
      its actions), [SharedInv] (what is true of the shared state between actions),
      [SharedStats], [SharedRaw], [SharedAlloc] (the operations against it), [Concurrent]
      (threads that call the allocator and pass blocks on), [ThreadSafety] (its theorems),
      [StateTypes], [Liveness] and [SharedMappings] (what else holds of every execution).
    - Programs that use the library.  [ProgLogic] is the interface of the two logics of
      programs (alone, and among other threads); [Serving] and [SharedHandle] are the
      handle as such programs see it.  [Adapters]: benchmarks/Adapters.hpp/.cpp, the
      abstract adapter as a class of operations, its contract as a class of laws, and the
      adapter of this library, which keeps them in both logics.  [Runner] and
      [RunnerThreads]: benchmarks/Runner.cpp, proved against the contract.
      [ExampleLoops]: statistics_example.cpp, benchmark_example.cpp and the end of
      benchmarks/main.cpp; [ExamplePrograms]: basic_allocation.cpp, custom_allocator.cpp,
      placement_new.cpp; [StlIntegration]: stl_integration.cpp, over [StdVector] (a vector
      on [StlAllocator], its growth policy a class with laws), [PmrMap] (a map on
      [MemoryResource]: its nodes, in order, on the heap) and [StdString] (strings as a
      class with laws).  [Lifetime]: these programs from the construction of their
      allocator to the end of its scope.
    - Tests.  [TestRules]: a test is a program that answers the conjunction of its checks;
      [UnitTests]: src/tests, the tests of single calls; [TestSuite]: all of them pass.
    - [Components] and [Correctness]: the theorems about the tiers and about the
      allocator, each with an instance; [Findings]: where the code and its
      documentation differ, as closed runs.

    ** The theorems

    - Refinement: whatever the operating system answers, a client that keeps its
      obligations gets only answers the specification allows, in every configuration
      ([Correctness.client_refines]; one step: [client_step]).
    - Every operation on every branch, errors included ([allocate_correct],
      [alignedAllocate_correct], [deallocate_correct], [reallocate_correct],
      [allocationSize_correct], [statistics_exact], [leak_message_correct], and the
      error theorems: double frees, wild pointers, corrupted guards, [abortOnError]).
    - No mapping is lost, and destroying the allocator gives every one back
      ([Mappings.destroy_gives_all_back]); the counters are the history of allocations and
      frees, the peak included ([History.statistics_history]).
    - Concurrency, in every configuration: at every moment of every interleaving of any
      number of threads no call can fault, every answer is one the specification allows,
      blocks are disjoint and keep their bytes ([ThreadSafety.thread_safe]); the counters are
      exact when no call runs ([quiescent_statistics]); calls end under every schedule
      ([calls_terminate]) and every call that is given turns is answered, whatever the
      others do ([Liveness.calls_answered]); the state keeps its types
      ([StateTypes.state_well_typed]); no mapping is lost, and destruction gives all back
      ([SharedMappings.concurrent_destroy]).  With tracking on a free races with the next
      owner of the block ([Findings.freed_between_actions_refused]): there a call about the
      caller's own block may be refused, the block staying as it was, and a refused
      [reallocate] may leave a block to nobody; the theorems say so and nothing more.
    - The benchmarks, over any adapter: they give back what they take and count what they do
      ([Runner.benchmarks_correct]), and their threads, interleaved in any way, leave the
      books balanced ([RunnerThreads.measureMultiThreaded_correct]).  The examples run to their
      end on every system and print what they should ([ExampleLoops.statistics_loop_correct],
      [ExamplePrograms], [Lifetime.stl_integration_correct]; one growth step of a vector is
      [StdVector.push_back_correct]), and their allocators give every mapping back
      ([Lifetime.examples_give_all_back]).  Thirty unit tests pass on every system that
      grants memory ([TestSuite.tests_pass]).
    - The Windows branch maps and unmaps as the POSIX one does, for the regions the allocator
      keeps ([Windows.windows_branch_equivalent]).
    - The tiers: pools, caches, the segment heap's invariant, coalescing, first fit,
      round trips ([Components]); size classes, alignment and page arithmetic at 64 bits.

    ** Bounds and fuel

    [SegmentHeap]'s loops over free lists and segments run on [while_fuel], which allows
    2^64 turns; the proofs give a variant, so the bound is never met.  The
    compare-exchange loop of the peak takes its fuel as an argument: a thread that runs
    alone needs one turn, and under interleaving 2^64 turns are enough, because the peak
    grows with every failed exchange (a [compare_exchange_weak] that fails spuriously is
    not modelled).  [Client.client_run] takes the number of operations.

    ** Not modelled

    - What the live count and the leak report are when frees have raced under tracking:
      any number ([Concurrent.refused]).
    - The allocation failures of the standard containers other than the two the code
      catches ([tlsCaches], the debug tables): [PoolAllocator::runs_], [SegmentHeap::segments_]
      and [LargeAllocator::regions_] grow in [noexcept] functions and would terminate.
    - The error handler's own effects (its calls are recorded), the text written to
      stderr, and the rounding of [double] in the two ratios (exact rationals here).
    - Weak memory: a relaxed atomic access is one atomic action.
    - The clock, the resident set size, the random generators (the sizes they draw are
      arguments) and the adapters of other allocators in the benchmarks, and the time of
      std::malloc that benchmark_example.cpp compares with.
    - Inside the containers: the links and colours of the map's tree (their bytes are part of
      a node), copies and moves of a container and the traits its allocator gives it.
    - The tests about statistics, random and concurrent workloads and containers (their
      operations are under the theorems on histories, interleavings and examples), and the
      one that expects the next small block to be the one just freed; umbrella header.

    This file: machine integers, notations, automation and the lemmas on lists, options
    and integers that the components share. *)

From stdpp Require Export base tactics numbers list gmap sets.
From Stdlib Require Export ZArith Lia.

#[global] Open Scope Z_scope.

(** ** Machine integers

    [std::size_t], [std::uint64_t] and [std::uintptr_t] are 64 bits wide on the
    platforms the program supports; a value is a [Z] in [0, 2^64) and every
    operation that may leave that range is wrapped explicitly. *)

Definition W64 : Z := 2 ^ 64.
Definition wrap64 (x : Z) : Z := x mod W64.
Definition in64 (x : Z) : Prop := 0 ≤ x < W64.
Definition size_max : Z := W64 - 1.

Definition add64 (x y : Z) : Z := wrap64 (x + y).
Definition sub64 (x y : Z) : Z := wrap64 (x - y).
Definition mul64 (x y : Z) : Z := wrap64 (x * y).
(** [~x] on 64 bits. *)
Definition not64 (x : Z) : Z := wrap64 (Z.lnot x).

Infix "+₆₄" := add64 (at level 50, left associativity) : Z_scope.
Infix "-₆₄" := sub64 (at level 50, left associativity) : Z_scope.
Infix "*₆₄" := mul64 (at level 40, left associativity) : Z_scope.

Lemma W64_eq : W64 = 18446744073709551616.
Proof. reflexivity. Qed.

(** [word_lia] unfolds the machine operations and the literal [2^64] and calls
    [lia]; it needs the range facts of the operands in the context. *)
Ltac unfold_words :=
  unfold add64, sub64, mul64, wrap64, in64, size_max in *; rewrite ?W64_eq in *.
Ltac word_lia := unfold_words; lia.

(** [align_lia] proves alignment facts: residues modulo literals. *)
Ltac align_lia := Z.to_euclidean_division_equations; lia.

Lemma wrap64_small x : in64 x → wrap64 x = x.
Proof. intros. unfold wrap64. apply Z.mod_small. done. Qed.
Lemma wrap64_range x : in64 (wrap64 x).
Proof. unfold wrap64, in64. apply Z.mod_pos_bound. done. Qed.
Lemma add64_small x y : in64 (x + y) → add64 x y = x + y.
Proof. apply wrap64_small. Qed.
Lemma sub64_small x y : in64 (x - y) → sub64 x y = x - y.
Proof. apply wrap64_small. Qed.
Lemma mul64_small x y : in64 (x * y) → mul64 x y = x * y.
Proof. apply wrap64_small. Qed.
Lemma not64_small x : in64 x → not64 x = W64 - 1 - x.
Proof.
  intros [??]. unfold not64, wrap64, Z.lnot.
  rewrite <-(Z.mod_add _ 1) by done. rewrite Z.mod_small; lia.
Qed.

Create HintDb words.
#[export] Hint Rewrite wrap64_small add64_small sub64_small mul64_small using (word_lia) : words.
#[export] Hint Resolve wrap64_range : words.
Ltac simpl_words := autorewrite with words.

(** Clearing the low [k] bits of a 64-bit value, as [x & ~(2^k - 1)] does. *)
Lemma land_not64_mask x k :
  in64 x → 0 ≤ k < 64 → Z.land x (not64 (2 ^ k - 1)) = x - x mod 2 ^ k.
Proof.
  intros [Hx0 Hx1] Hk.
  assert (Hp : 0 < 2 ^ k) by lia.
  assert (Hpk : 2 ^ k < W64) by (unfold W64; apply Z.pow_lt_mono_r; lia).
  assert (E : Z.land x (not64 (2 ^ k - 1)) = Z.ldiff x (Z.ones k)).
  { apply Z.bits_inj'. intros i Hi.
    rewrite Z.land_spec, Z.ldiff_spec. unfold not64, wrap64, W64.
    rewrite Z.ones_equiv, <-Z.sub_1_r.
    destruct (decide (i < 64)) as [Hlt|Hge].
    - rewrite Z.mod_pow2_bits_low by lia. by rewrite Z.lnot_spec by lia.
    - rewrite Z.mod_pow2_bits_high by lia.
      rewrite (Z.bits_above_log2 x i); [done|lia|].
      destruct (decide (x = 0)) as [->|]; [simpl; lia|].
      apply Z.log2_lt_pow2; [lia|]. eapply Z.lt_le_trans; [done|].
      unfold W64. apply Z.pow_le_mono_r; lia. }
  rewrite E, Z.ldiff_ones_r by lia.
  rewrite Z.shiftl_mul_pow2, Z.shiftr_div_pow2 by lia.
  pose proof (Z.div_mod x (2 ^ k)). lia.
Qed.

(** [v & mask] tests one bit when [mask] is a power of two. *)
Lemma land_pow2_testbit x k : 0 ≤ k → (Z.land x (2 ^ k) =? 0) = negb (Z.testbit x k).
Proof.
  intros Hk. destruct (Z.testbit x k) eqn:E; simpl.
  - apply Z.eqb_neq. intros H0.
    assert (Z.testbit (Z.land x (2 ^ k)) k = true) as H1.
    { by rewrite Z.land_spec, E, Z.pow2_bits_true by lia. }
    by rewrite H0, Z.bits_0 in H1.
  - apply Z.eqb_eq. apply Z.bits_inj'. intros i Hi. rewrite Z.land_spec, Z.bits_0.
    destruct (decide (i = k)) as [->|]; [by rewrite E|].
    rewrite Z.pow2_bits_false by lia. apply andb_false_r.
Qed.

(** ** Integer ranges as lists *)

Fixpoint zseq (n : nat) (a : Z) : list Z :=
  match n with
  | O => []
  | S n => a :: zseq n (a + 1)
  end.

Lemma elem_of_zseq n a x : x ∈ zseq n a ↔ a ≤ x < a + Z.of_nat n.
Proof.
  revert a. induction n as [|n IH]; intros a; cbn [zseq].
  - split; [by intros ?%not_elem_of_nil|lia].
  - rewrite elem_of_cons, IH. lia.
Qed.
Lemma length_zseq n a : length (zseq n a) = n.
Proof. revert a; induction n; intros; cbn; auto. Qed.

(** Distinct integers of a range are at most as many as the range has. *)
Lemma nodup_range_length l a n :
  NoDup l → (∀ x, x ∈ l → a ≤ x < a + n) → 0 ≤ n → Z.of_nat (length l) ≤ n.
Proof.
  intros Hnd Hl Hn.
  assert (l ⊆+ zseq (Z.to_nat n) a) as Hsub%submseteq_length.
  { apply NoDup_submseteq; [done|]. intros x Hx. apply elem_of_zseq. rewrite Z2Nat.id by done. auto. }
  rewrite length_zseq in Hsub. lia.
Qed.

(** A multiple of a power of two is one of every smaller power. *)
Lemma mod_pow2_le x j k : 0 ≤ j ≤ k → x mod 2 ^ k = 0 → x mod 2 ^ j = 0.
Proof.
  intros Hjk Hx. apply Z.div_exact in Hx; [|lia]. rewrite Hx.
  assert (E : 2 ^ k = 2 ^ (k - j) * 2 ^ j) by (rewrite <-Z.pow_add_r by lia; f_equal; lia).
  rewrite E at 1. rewrite (Z.mul_comm (2 ^ (k - j))), <-Z.mul_assoc, Z.mul_comm. apply Z.mod_mul. lia.
Qed.
