(* ===== verification/HeapProp.v ===== *)
(** The assertion logic of the development: predicates over finite byte
    heaplets, closed under extension, as an affine logic of bunched
    implications.  The Iris proof mode then works on every specification of the
    allocator.  A heaplet maps an address to the byte stored there; [P ∗ Q]
    says that [P] and [Q] hold of two disjoint heaplets, so it states that the
    memory described by [P] does not overlap the memory described by [Q].

    Nothing here is about the program; the points-to assertions and the
    weakest preconditions that give the connectives their meaning on the
    modelled memory are in [Memory]. *)

From stdpp Require Import gmap.
From iris.proofmode Require Import proofmode.
From Stdlib Require Import Init.Byte.

(** A finite fragment of the byte memory. *)
Notation heaplet := (gmap Z Byte.byte).

Record heapProp := HeapProp {
  heapProp_holds : heaplet → Prop;
  heapProp_mono h1 h2 : heapProp_holds h1 → h1 ⊆ h2 → heapProp_holds h2
}.
Global Arguments heapProp_holds _ _ : simpl never.
Add Printing Constructor heapProp.
Local Coercion heapProp_holds : heapProp >-> Funclass.
Bind Scope bi_scope with heapProp.

Inductive heapProp_entails (P Q : heapProp) : Prop :=
  { heapProp_in_entails : ∀ h, P h → Q h }.

Section ofe.
Inductive heapProp_equiv' (P Q : heapProp) : Prop :=
  { heapProp_in_equiv : ∀ h, P h ↔ Q h }.
#[local] Instance heapProp_equiv : Equiv heapProp := heapProp_equiv'.
#[local] Instance heapProp_equivalence : Equivalence (≡@{heapProp}).
Proof.
  split.
  - by intros P; constructor.
  - intros P Q [HPQ]; constructor=> h. by rewrite HPQ.
  - intros P Q R [HPQ] [HQR]; constructor=> h. by rewrite HPQ HQR.
Qed.
Canonical Structure heapPropO : ofe := discreteO heapProp.
End ofe.

(** The connectives, sealed so that type-class search never unfolds them. *)
Local Program Definition heapProp_pure_def (φ : Prop) : heapProp :=
  {| heapProp_holds _ := φ |}.
Solve Obligations with done.
Local Definition heapProp_pure_aux : seal (@heapProp_pure_def). Proof. by eexists. Qed.
Definition heapProp_pure := heapProp_pure_aux.(unseal).

Local Program Definition heapProp_and_def (P Q : heapProp) : heapProp :=
  {| heapProp_holds h := P h ∧ Q h |}.
Next Obligation. intros P Q h1 h2 [??] ?; simpl; eauto using heapProp_mono. Qed.
Local Definition heapProp_and_aux : seal (@heapProp_and_def). Proof. by eexists. Qed.
Definition heapProp_and := heapProp_and_aux.(unseal).

Local Program Definition heapProp_or_def (P Q : heapProp) : heapProp :=
  {| heapProp_holds h := P h ∨ Q h |}.
Next Obligation. intros P Q h1 h2 [?|?] ?; simpl; eauto using heapProp_mono. Qed.
Local Definition heapProp_or_aux : seal (@heapProp_or_def). Proof. by eexists. Qed.
Definition heapProp_or := heapProp_or_aux.(unseal).

Local Program Definition heapProp_impl_def (P Q : heapProp) : heapProp :=
  {| heapProp_holds h := ∀ h', h ⊆ h' → P h' → Q h' |}.
Next Obligation. intros P Q h1 h2 HPQ ? h' ? ?; simpl in *. apply HPQ; [by etrans|done]. Qed.
Local Definition heapProp_impl_aux : seal (@heapProp_impl_def). Proof. by eexists. Qed.
Definition heapProp_impl := heapProp_impl_aux.(unseal).

Local Program Definition heapProp_forall_def A (Ψ : A → heapProp) : heapProp :=
  {| heapProp_holds h := ∀ a, Ψ a h |}.
Next Obligation. intros A Ψ h1 h2 HΨ ? a; simpl in *. eauto using heapProp_mono. Qed.
Local Definition heapProp_forall_aux : seal (@heapProp_forall_def). Proof. by eexists. Qed.
Definition heapProp_forall {A} := heapProp_forall_aux.(unseal) A.

Local Program Definition heapProp_exist_def A (Ψ : A → heapProp) : heapProp :=
  {| heapProp_holds h := ∃ a, Ψ a h |}.
Next Obligation. intros A Ψ h1 h2 [a ?] ?; simpl in *. exists a. eauto using heapProp_mono. Qed.
Local Definition heapProp_exist_aux : seal (@heapProp_exist_def). Proof. by eexists. Qed.
Definition heapProp_exist {A} := heapProp_exist_aux.(unseal) A.

Local Program Definition heapProp_sep_def (P Q : heapProp) : heapProp :=
  {| heapProp_holds h := ∃ h1 h2, h1 ∪ h2 ⊆ h ∧ h1 ##ₘ h2 ∧ P h1 ∧ Q h2 |}.
Next Obligation.
  intros P Q h h' (h1&h2&?&?&?&?) ?; simpl. exists h1, h2. split_and!; try done. by etrans.
Qed.
Local Definition heapProp_sep_aux : seal (@heapProp_sep_def). Proof. by eexists. Qed.
Definition heapProp_sep := heapProp_sep_aux.(unseal).

Local Program Definition heapProp_wand_def (P Q : heapProp) : heapProp :=
  {| heapProp_holds h := ∀ h', h ##ₘ h' → P h' → Q (h ∪ h') |}.
Next Obligation.
  intros P Q h1 h2 HPQ Hsub h' Hdisj HP; simpl in *.
  assert (h1 ##ₘ h') by (by eapply map_disjoint_weaken_l).
  eapply heapProp_mono; [by apply HPQ|]. by apply map_union_mono_r.
Qed.
Local Definition heapProp_wand_aux : seal (@heapProp_wand_def). Proof. by eexists. Qed.
Definition heapProp_wand := heapProp_wand_aux.(unseal).

Local Definition heapProp_pure_unseal : @heapProp_pure = @heapProp_pure_def := seal_eq heapProp_pure_aux.
Local Definition heapProp_and_unseal : @heapProp_and = @heapProp_and_def := seal_eq heapProp_and_aux.
Local Definition heapProp_or_unseal : @heapProp_or = @heapProp_or_def := seal_eq heapProp_or_aux.
Local Definition heapProp_impl_unseal : @heapProp_impl = @heapProp_impl_def := seal_eq heapProp_impl_aux.
Local Definition heapProp_forall_unseal : @heapProp_forall = @heapProp_forall_def.
Proof. unfold heapProp_forall. by rewrite (seal_eq heapProp_forall_aux). Qed.
Local Definition heapProp_exist_unseal : @heapProp_exist = @heapProp_exist_def.
Proof. unfold heapProp_exist. by rewrite (seal_eq heapProp_exist_aux). Qed.
Local Definition heapProp_sep_unseal : @heapProp_sep = @heapProp_sep_def := seal_eq heapProp_sep_aux.
Local Definition heapProp_wand_unseal : @heapProp_wand = @heapProp_wand_def := seal_eq heapProp_wand_aux.

Local Definition heapProp_unseal :=
  (heapProp_pure_unseal, heapProp_and_unseal, heapProp_or_unseal, heapProp_impl_unseal,
   heapProp_forall_unseal, heapProp_exist_unseal, heapProp_sep_unseal, heapProp_wand_unseal).
Ltac unseal_heapProp := rewrite !heapProp_unseal /=.

(** [emp] is [True]: the logic is affine. *)
Definition heapProp_emp : heapProp := heapProp_pure True.
Definition heapProp_persistently (P : heapProp) : heapProp :=
  heapProp_pure (heapProp_entails heapProp_emp P).
Definition heapProp_later (P : heapProp) : heapProp := P.

Section mixins.
#[local] Existing Instance heapProp_equiv.

Lemma heapProp_bi_mixin :
  BiMixin heapProp_entails heapProp_emp heapProp_pure heapProp_and heapProp_or heapProp_impl
    (@heapProp_forall) (@heapProp_exist) heapProp_sep heapProp_wand.
Proof.
  unfold heapProp_emp. unseal_heapProp. split.
  - split; [by constructor|]. intros P Q R [HPQ] [HQR]. constructor=> h ?. by apply HQR, HPQ.
  - intros P Q; split.
    + intros [HPQ]. split; constructor=> h; apply HPQ.
    + intros [[HPQ] [HQP]]. constructor=> h. split; [apply HPQ|apply HQP].
  - intros n φ1 φ2 Hφ. by constructor.
  - intros n P P' [HP] Q Q' [HQ]. constructor=> h. rewrite /heapProp_holds /=. by rewrite HP HQ.
  - intros n P P' [HP] Q Q' [HQ]. constructor=> h. rewrite /heapProp_holds /=. by rewrite HP HQ.
  - intros n P P' [HP] Q Q' [HQ]. constructor=> h. rewrite /heapProp_holds /=.
    split; intros H h' ??; apply HQ, H; try done; by apply HP.
  - intros A n Φ Ψ HΦ. constructor=> h. rewrite /heapProp_holds /=.
    split; intros H a; destruct (HΦ a) as [Ha]; by apply Ha.
  - intros A n Φ Ψ HΦ. constructor=> h. rewrite /heapProp_holds /=.
    split; intros [a H]; exists a; destruct (HΦ a) as [Ha]; by apply Ha.
  - intros n P P' [HP] Q Q' [HQ]. constructor=> h. rewrite /heapProp_holds /=.
    split; intros (h1&h2&?&?&?&?); exists h1, h2; split_and!; try done; first [by apply HP|by apply HQ].
  - intros n P P' [HP] Q Q' [HQ]. constructor=> h. rewrite /heapProp_holds /=.
    split; intros H h' ??; apply HQ, H; try done; by apply HP.
  - intros φ P ?. by constructor.
  - intros φ P HP. constructor=> h ?. by apply HP.
  - intros P Q. by constructor=> h [??].
  - intros P Q. by constructor=> h [??].
  - intros P Q R [HQ] [HR]. constructor=> h ?. split; [by apply HQ|by apply HR].
  - intros P Q. constructor=> h ?. by left.
  - intros P Q. constructor=> h ?. by right.
  - intros P Q R [HP] [HQ]. constructor=> h [?|?]; [by apply HP|by apply HQ].
  - intros P Q R [HPQ]. constructor=> h ? h' ??. apply HPQ. split; [|done]. by eapply heapProp_mono.
  - intros P Q R [HPQ]. constructor=> h [HP HQ]. by eapply HPQ.
  - intros A P Ψ HPΨ. constructor=> h ? a. by apply HPΨ.
  - intros A Ψ a. by constructor=> h.
  - intros A Ψ a. constructor=> h ?. by exists a.
  - intros A Φ Q HΦ. constructor=> h [a ?]. by eapply HΦ.
  - intros P P' Q Q' [HP] [HQ]. constructor; intros h (h1&h2&?&?&?&?).
    exists h1, h2. split_and!; try done; [by apply HP|by apply HQ].
  - intros P. constructor=> h HP. exists ∅, h. split_and!; try done.
    + by rewrite left_id_L.
    + by apply map_disjoint_empty_l.
  - intros P. constructor; intros h (h1&h2&?&?&?&?). eapply heapProp_mono; [done|].
    etrans; [|done]. by apply map_union_subseteq_r.
  - intros P Q. constructor; intros h (h1&h2&?&?&?&?). exists h2, h1. split_and!; try done.
    by rewrite map_union_comm.
  - intros P Q R. constructor; intros h (h12&h3&Hsub&Hdisj&(h1&h2&Hsub12&?&?&?)&?).
    assert (h1 ∪ h2 ##ₘ h3) as [??]%map_disjoint_union_l by (by eapply map_disjoint_weaken_l).
    exists h1, (h2 ∪ h3). split_and!; try done.
    + etrans; [|done]. rewrite assoc_L. by apply map_union_mono_r.
    + by apply map_disjoint_union_r.
    + exists h2, h3. split_and!; done.
  - intros P Q R [HPQ]. constructor=> h ? h' ??. apply HPQ. exists h, h'. by split_and!.
  - intros P Q R [HPQ]. constructor; intros h (h1&h2&?&?&?&?).
    eapply heapProp_mono; [|done]. by apply HPQ.
Qed.

Lemma heapProp_bi_persistently_mixin :
  BiPersistentlyMixin heapProp_entails heapProp_emp heapProp_and
    (@heapProp_exist) heapProp_sep heapProp_persistently.
Proof.
  eapply bi_persistently_mixin_discrete, heapProp_bi_mixin.
  - intros n P Q ?. done.
  - unfold heapProp_emp. unseal_heapProp. intros A Φ [H].
    destruct (H ∅) as [x ?]; [done|]. exists x. constructor=> h _.
    eapply heapProp_mono; [done|]. by apply map_empty_subseteq.
  - done.
Qed.

Lemma heapProp_bi_later_mixin :
  BiLaterMixin heapProp_entails heapProp_pure heapProp_or heapProp_impl
    (@heapProp_forall) (@heapProp_exist) heapProp_sep heapProp_persistently heapProp_later.
Proof. eapply bi_later_mixin_id; [done|]. apply heapProp_bi_mixin. Qed.
End mixins.

Canonical Structure heapPropI : bi :=
  {| bi_ofe_mixin := ofe_mixin_of heapProp;
     bi_bi_mixin := heapProp_bi_mixin;
     bi_bi_persistently_mixin := heapProp_bi_persistently_mixin;
     bi_bi_later_mixin := heapProp_bi_later_mixin |}.

#[global] Instance heapProp_affine : BiAffine heapPropI | 0.
Proof. intros P. constructor=> h. unfold bi_emp; simpl. unfold heapProp_emp. by unseal_heapProp. Qed.
#[global] Instance heapProp_pure_forall : BiPureForall heapPropI.
Proof. intros A φ. constructor=> h /=. unfold bi_forall, bi_pure; simpl. by unseal_heapProp. Qed.

(** Reading the connectives back at a heaplet. *)
Section unfold_lemmas.
Implicit Types P Q : heapPropI.
Implicit Types h : heaplet.

Lemma heapProp_entails_unfold P Q : (P ⊢ Q) ↔ ∀ h, P h → Q h.
Proof. split; [by intros [?]|by constructor]. Qed.
Lemma heapProp_pure_unfold (φ : Prop) h : heapProp_holds (⌜φ⌝%I : heapPropI) h ↔ φ.
Proof. unfold bi_pure; simpl. by unseal_heapProp. Qed.
Lemma heapProp_sep_unfold P Q h :
  heapProp_holds (P ∗ Q)%I h ↔ ∃ h1 h2, h1 ∪ h2 ⊆ h ∧ h1 ##ₘ h2 ∧ P h1 ∧ Q h2.
Proof. unfold bi_sep; simpl. by unseal_heapProp. Qed.
Lemma heapProp_exist_unfold {A} (Φ : A → heapPropI) h :
  heapProp_holds (∃ x, Φ x)%I h ↔ ∃ x, Φ x h.
Proof. unfold bi_exist; simpl. by unseal_heapProp. Qed.
Lemma heapProp_wand_unfold P Q h :
  heapProp_holds (P -∗ Q)%I h ↔ ∀ h', h ##ₘ h' → P h' → Q (h ∪ h').
Proof. unfold bi_wand; simpl. by unseal_heapProp. Qed.
Lemma heapProp_emp_valid_unfold P : (⊢ P) ↔ ∀ h, P h.
Proof.
  unfold bi_emp_valid. rewrite heapProp_entails_unfold. split; intros H h; [apply H|intros _; apply H].
  unfold bi_emp; simpl. unfold heapProp_emp. by unseal_heapProp.
Qed.
End unfold_lemmas.
