(* ===== verification/Memory.v ===== *)
(** The byte memory the allocator runs on, the operating-system interface, the
    command monad, and the weakest preconditions that connect them to the
    assertions of [HeapProp]. *)

From stdpp Require Import gmap.
From iris.proofmode Require Import proofmode.
From coqutil Require Import Byte Word.LittleEndianList.
From S2P Require Import Prelude.
From S2P Require Import HeapProp.

#[global] Open Scope Z_scope.
Notation byte := Corelib.Init.Byte.byte.
#[global] Instance byte_eq_dec : EqDecision byte := Byte.byte_eq_dec.

(** ** The operating system

    [mmap] and [sysconf(_SC_PAGESIZE)] are calls into the platform, so they are
    parameters of the model.  [os_mmap n vmas size] is the answer to the
    [n]-th call when [vmas] is the list of mappings: the call number lets an
    instance answer differently each time, so a theorem over every [OS] covers
    every sequence of answers.  A mapping [(lo, hi)] holds the pages
    [lo <= p < hi]. *)
Definition page_in (vmas : list (Z * Z)) (p : Z) : Prop :=
  Exists (λ v, v.1 ≤ p < v.2) vmas.
#[global] Instance page_in_dec vmas p : Decision (page_in vmas p).
Proof. unfold page_in. apply _. Defined.

Class OS := {
  os_page : Z;
  os_mmap : nat → list (Z * Z) → Z → option Z
}.

(** What POSIX documents of the two calls: the page size is a power of two (at
    least the 16 bytes of the default alignment), a mapping starts at a non-null page
    boundary inside the address space, it overlaps no mapped page, and a
    zero-length request fails (EINVAL). *)
Class OSLaws `{!OS} := {
  os_page_pow : ∃ k, 4 ≤ k ≤ 40 ∧ os_page = 2 ^ k;
  os_mmap_zero n vmas : os_mmap n vmas 0 = None;
  os_mmap_base n vmas size b :
    os_mmap n vmas size = Some b → b mod os_page = 0 ∧ 0 < b ∧ b + size ≤ W64;
  os_mmap_fresh n vmas size b p :
    os_mmap n vmas size = Some b → b / os_page ≤ p < (b + size) / os_page → ¬ page_in vmas p
}.

(** The operating system refuses some non-empty request: the only reason the
    allocator has to report that it is out of memory. *)
Definition os_refused `{!OS} : Prop := ∃ n vmas size, 0 < size ∧ os_mmap n vmas size = None.

(** ** Memory: the mappings and the bytes written so far (a byte of a
    mapped page that was never written is zero). *)
Record mem := Mem {
  pages : list (Z * Z);
  cells : gmap Z byte;
  syscalls : nat
}.

Definition mem_init : mem := Mem [] ∅ 0.

(** The outcome of a command: a value and the memory; an access that is
    undefined behaviour; [std::abort]; or a loop that ran out of fuel. *)
Inductive res (A : Type) :=
  | Ok (a : A) (m : mem)
  | Fault
  | Aborted
  | OutOfFuel.
Global Arguments Ok {A} _ _.
Global Arguments Fault {A}.
Global Arguments Aborted {A}.
Global Arguments OutOfFuel {A}.

Definition cmd (A : Type) := mem → res A.

#[global] Instance cmd_ret : MRet cmd := λ A a m, Ok a m.
#[global] Instance cmd_bind : MBind cmd := λ A B f c m,
  match c m with
  | Ok a m' => f a m'
  | Fault => Fault
  | Aborted => Aborted
  | OutOfFuel => OutOfFuel
  end.
Definition fault {A} : cmd A := λ _, Fault.
Definition diverge {A} : cmd A := λ _, OutOfFuel.
(** An array element that must exist ([a[i]] with [i] out of range is undefined). *)
Definition expect {A} (o : option A) : cmd A :=
  match o with Some a => mret a | None => fault end.

Section memory.
Context `{HOS : !OS}.

Definition mapped (m : mem) (a : Z) : bool := bool_decide (page_in (pages m) (a / os_page)).
Definition load8 (m : mem) (a : Z) : option byte :=
  if mapped m a then Some (default Byte.x00 (cells m !! a)) else None.
Definition store8 (m : mem) (a : Z) (b : byte) : option mem :=
  if mapped m a then Some (Mem (pages m) (<[a := b]> (cells m)) (syscalls m)) else None.

Fixpoint load_bytes (m : mem) (a : Z) (n : nat) : option (list byte) :=
  match n with
  | O => Some []
  | S n => b ← load8 m a; bs ← load_bytes m (a + 1) n; Some (b :: bs)
  end.
Fixpoint store_bytes (m : mem) (a : Z) (bs : list byte) : option mem :=
  match bs with
  | [] => Some m
  | b :: bs => m' ← store8 m a b; store_bytes m' (a + 1) bs
  end.

(** An [n]-byte little-endian scalar access; a misaligned one is undefined. *)
Definition load (n : nat) (a : Z) : cmd Z := λ m,
  if bool_decide (a mod Z.of_nat n = 0) then
    match load_bytes m a n with Some bs => Ok (le_combine bs) m | None => Fault end
  else Fault.
Definition store (n : nat) (a v : Z) : cmd () := λ m,
  if bool_decide (a mod Z.of_nat n = 0) then
    match store_bytes m a (le_split n v) with Some m' => Ok () m' | None => Fault end
  else Fault.
Definition load_byte (a : Z) : cmd byte := λ m,
  match load8 m a with Some b => Ok b m | None => Fault end.

(** [std::memset(a, b, n)] and [std::memcpy(dst, src, n)]; overlapping copies
    are undefined. *)
Definition memset (a : Z) (b : byte) (n : Z) : cmd () := λ m,
  match store_bytes m a (replicate (Z.to_nat n) b) with Some m' => Ok () m' | None => Fault end.
Definition memcpy (dst src n : Z) : cmd () := λ m,
  if bool_decide (dst < src + n ∧ src < dst + n) then Fault else
  match load_bytes m src (Z.to_nat n) with
  | Some bs => match store_bytes m dst bs with Some m' => Ok () m' | None => Fault end
  | None => Fault
  end.

(** The pages of [base, base + len), as a mapping; unmapping cuts a range of
    pages out of every mapping it meets. *)
Definition vma_of (base len : Z) : Z * Z := (base / os_page, base / os_page + len / os_page).
Definition vma_cut (cut v : Z * Z) : list (Z * Z) :=
  filter (λ w, w.1 < w.2) [(v.1, Z.min v.2 cut.1); (Z.max v.1 cut.2, v.2)].
Definition vmas_remove (cut : Z * Z) (vmas : list (Z * Z)) : list (Z * Z) :=
  v ← vmas; vma_cut cut v.
Definition outside (base len : Z) (a : Z) : Prop := a < base ∨ base + len ≤ a.
#[global] Instance outside_dec base len a : Decision (outside base len a).
Proof. unfold outside. apply _. Defined.

(** [mmap(nullptr, size, PROT_READ | PROT_WRITE, MAP_PRIVATE | MAP_ANONYMOUS, -1, 0)]:
    the new pages read as zero.  [munmap] needs a page-aligned address. *)
Definition mmap (size : Z) : cmd (option Z) := λ m,
  match os_mmap (syscalls m) (pages m) size with
  | None => Ok None (Mem (pages m) (cells m) (S (syscalls m)))
  | Some b =>
      Ok (Some b) (Mem (vma_of b size :: pages m)
                       (filter (λ '(a, _), outside b size a) (cells m)) (S (syscalls m)))
  end.
Definition munmap (base size : Z) : cmd () := λ m,
  if bool_decide (base mod os_page = 0) then
    Ok () (Mem (vmas_remove (vma_of base size) (pages m)) (cells m) (syscalls m))
  else Fault.
End memory.

(** ** Loops over linked structures

    [ploop step p s] runs [step] at most [p] times, [p] in binary so that a bound
    of 2^64 is usable: the recursion stops at the first [inr].  [while_fuel] takes
    2^64 turns as the bound - more than there are distinct addresses, so a walk
    along distinct nodes always ends within it - and reports [OutOfFuel] after. *)
Fixpoint ploop {S A} (step : S → cmd (S + A)) (p : positive) (s : S) : cmd (S + A) :=
  match p with
  | xH => step s
  | xO p =>
      r ← ploop step p s;
      match r with inl s => ploop step p s | inr a => mret (inr a) end
  | xI p =>
      r ← step s;
      match r with
      | inl s =>
          r ← ploop step p s;
          match r with inl s => ploop step p s | inr a => mret (inr a) end
      | inr a => mret (inr a)
      end
  end.
Definition while_fuel {S A} (step : S → cmd (S + A)) (s : S) : cmd A :=
  r ← ploop step (2 ^ 64)%positive s;
  match r with inl _ => diverge | inr a => mret a end.
