(* ===== verification/Platform.v ===== *)
(** Concrete operating systems that satisfy the documented laws: they place every
    mapping after the ones that exist, and refuse every request from the [k]-th
    call on.  The witnesses of the theorems run on them. *)

From S2P Require Import Prelude.
From S2P Require Import Memory.

Definition first_page (vmas : list (Z * Z)) : Z := foldr (λ v p, Z.max v.2 p) 16 vmas.

#[local] Instance bump_os (k : nat) : OS := {|
  os_page := 4096;
  os_mmap n vmas size :=
    let p := first_page vmas in
    if (n <? k)%nat && (0 <? size) && (p * 4096 + size <=? W64) then Some (p * 4096) else None
|}.

Lemma first_page_ge vmas : 16 ≤ first_page vmas.
Proof. induction vmas as [|v vmas IH]; cbn [first_page foldr] in *; [done|]. unfold first_page in *. lia. Qed.
Lemma first_page_above vmas p : page_in vmas p → p < first_page vmas.
Proof.
  unfold page_in. induction 1 as [v vmas Hv|v vmas _ IH]; cbn [first_page foldr]; [lia|].
  unfold first_page in *. lia.
Qed.
#[local] Instance bump_laws k : @OSLaws (bump_os k).
Proof.
  split.
  - exists 12. split; [lia|reflexivity].
  - intros n vmas. cbn. by rewrite andb_false_r.
  - intros n vmas size b. cbn. destruct (_ && _) eqn:E; [|done]. intros [= <-].
    rewrite !andb_true_iff, Z.leb_le, Z.ltb_lt in E. pose proof (first_page_ge vmas).
    split_and!; [apply Z.mod_mul; lia|lia|lia].
  - intros n vmas size b p. cbn. destruct (_ && _) eqn:E; [|done]. intros [= <-].
    rewrite Z.div_mul by lia. intros [H _] Hp%first_page_above. lia.
Qed.
