(* ===== verification/Logic.v ===== *)
(** The program logic: points-to assertions over [Memory]'s memory, weakest
    preconditions of commands (total correctness: a command described by [wp]
    neither faults nor runs out of fuel), and the rules the component proofs use. *)

From stdpp Require Import gmap.
From iris.proofmode Require Import proofmode.
From coqutil Require Import Byte Word.LittleEndianList.
From S2P Require Import Prelude.
From S2P Require Import HeapProp.
From S2P Require Import Memory.

(** ** Points-to assertions *)

(** [byte_at a b] owns the byte at [a]; every owned address is a non-null 64-bit one. *)
Program Definition byte_at_def (a : Z) (b : byte) : heapPropI :=
  HeapProp (λ h, h !! a = Some b ∧ 0 < a < W64) _.
Next Obligation. intros a b h1 h2 [??] ?; simpl. split; [by eapply lookup_weaken|done]. Qed.
Definition byte_at_aux : seal (@byte_at_def). Proof. by eexists. Qed.
Definition byte_at := byte_at_aux.(unseal).
Lemma byte_at_unseal : byte_at = byte_at_def. Proof. apply seal_eq. Qed.

(** Consecutive bytes. *)
Definition bytes_at (a : Z) (bs : list byte) : heapPropI :=
  [∗ list] i ↦ b ∈ bs, byte_at (a + Z.of_nat i) b.
(** An aligned [n]-byte scalar. *)
Definition word (n : nat) (a v : Z) : heapPropI :=
  ⌜0 ≤ v < 2 ^ (Z.of_nat n * 8) ∧ a mod Z.of_nat n = 0⌝ ∗ bytes_at a (le_split n v).
(** [n] bytes of unknown contents. *)
Definition raw (a n : Z) : heapPropI :=
  ∃ bs, ⌜Z.of_nat (length bs) = n⌝ ∗ bytes_at a bs.

Notation "a ↦64 v" := (word 8 a v) (at level 20) : bi_scope.
Notation "a ↦32 v" := (word 4 a v) (at level 20) : bi_scope.
Notation "a ↦16 v" := (word 2 a v) (at level 20) : bi_scope.
Notation "a ↦∗ bs" := (bytes_at a bs) (at level 20) : bi_scope.

Section points_to.
Implicit Types a v : Z.

Lemma byte_at_range a b : byte_at a b ⊢ ⌜0 < a < W64⌝.
Proof.
  rewrite byte_at_unseal. apply heapProp_entails_unfold. intros h [_ ?].
  by apply heapProp_pure_unfold.
Qed.
Lemma byte_at_ne a1 b1 a2 b2 : byte_at a1 b1 ∗ byte_at a2 b2 ⊢ ⌜a1 ≠ a2⌝.
Proof.
  rewrite byte_at_unseal. apply heapProp_entails_unfold. intros h.
  rewrite heapProp_sep_unfold. intros (h1&h2&_&Hd&[H1 _]&[H2 _]).
  apply heapProp_pure_unfold. intros ->. by eapply map_disjoint_spec.
Qed.
Lemma bytes_at_nil a : ⊢ a ↦∗ [].
Proof. unfold bytes_at. by rewrite big_sepL_nil. Qed.
Lemma bytes_at_app a bs1 bs2 :
  a ↦∗ (bs1 ++ bs2) ⊣⊢ a ↦∗ bs1 ∗ (a + Z.of_nat (length bs1)) ↦∗ bs2.
Proof.
  unfold bytes_at. rewrite big_sepL_app. f_equiv.
  apply big_sepL_proper. intros i b _.
  by replace (a + Z.of_nat (length bs1 + i)%nat) with (a + Z.of_nat (length bs1) + Z.of_nat i) by lia.
Qed.
Lemma bytes_at_cons a b bs : a ↦∗ (b :: bs) ⊣⊢ byte_at a b ∗ (a + 1) ↦∗ bs.
Proof.
  change (b :: bs) with ([b] ++ bs). rewrite bytes_at_app.
  change (Z.of_nat (length [b])) with 1. apply bi.sep_proper; [|done].
  unfold bytes_at. rewrite big_sepL_singleton. by rewrite Z.add_0_r.
Qed.
Lemma bytes_at_range a bs :
  (0 < length bs)%nat → a ↦∗ bs ⊢ ⌜0 < a ∧ a + Z.of_nat (length bs) ≤ W64⌝.
Proof.
  induction bs as [|b bs _] using rev_ind; [simpl; lia|]. intros _.
  rewrite bytes_at_app length_app /=. destruct bs as [|b' bs]; simpl.
  - iIntros "[_ H]". rewrite bytes_at_cons. iDestruct "H" as "[H _]".
    iDestruct (byte_at_range with "H") as %?. iPureIntro. lia.
  - rewrite !bytes_at_cons. iIntros "[[H1 _] [H2 _]]".
    iDestruct (byte_at_range with "H1") as %?. iDestruct (byte_at_range with "H2") as %?.
    iPureIntro. lia.
Qed.
Lemma bytes_at_lookup_acc a bs i b :
  bs !! i = Some b → a ↦∗ bs ⊢ byte_at (a + Z.of_nat i) b.
Proof. intros Hi. unfold bytes_at. by rewrite (big_sepL_lookup _ bs i b Hi). Qed.
Lemma bytes_at_disjoint a1 bs1 a2 bs2 :
  (0 < length bs1)%nat → (0 < length bs2)%nat →
  a1 ↦∗ bs1 ∗ a2 ↦∗ bs2 ⊢
  ⌜a1 + Z.of_nat (length bs1) ≤ a2 ∨ a2 + Z.of_nat (length bs2) ≤ a1⌝.
Proof.
  intros H1 H2. iIntros "[Ha Hb]".
  destruct (decide (a1 + Z.of_nat (length bs1) ≤ a2 ∨ a2 + Z.of_nat (length bs2) ≤ a1)) as [?|Hov];
    [done|].
  set (x := Z.max a1 a2).
  destruct (lookup_lt_is_Some_2 bs1 (Z.to_nat (x - a1))) as [b1 Hb1]; [lia|].
  destruct (lookup_lt_is_Some_2 bs2 (Z.to_nat (x - a2))) as [b2 Hb2]; [lia|].
  rewrite (bytes_at_lookup_acc a1 _ _ _ Hb1) (bytes_at_lookup_acc a2 _ _ _ Hb2).
  iDestruct (byte_at_ne with "[$Ha $Hb]") as %Hne. lia.
Qed.

(** *** Uninitialised ranges *)
Lemma raw_intro a bs : a ↦∗ bs ⊢ raw a (Z.of_nat (length bs)).
Proof. iIntros "H". iExists bs. by iFrame. Qed.
Lemma raw_split a n m : 0 ≤ n → 0 ≤ m → raw a (n + m) ⊣⊢ raw a n ∗ raw (a + n) m.
Proof.
  intros Hn Hm. iSplit.
  - iIntros "(%bs & %Hlen & H)". rewrite -(take_drop (Z.to_nat n) bs) bytes_at_app.
    iDestruct "H" as "[H1 H2]". rewrite length_take.
    iSplitL "H1"; iExists _; iSplit; try iExact "H1"; [iPureIntro; rewrite length_take; lia| |].
    2: { replace (Z.of_nat (Z.to_nat n `min` length bs)) with n by lia. iExact "H2". }
    iPureIntro. rewrite length_drop. lia.
  - iIntros "[(%bs1 & %H1 & Hb1) (%bs2 & %H2 & Hb2)]". iExists (bs1 ++ bs2).
    rewrite bytes_at_app length_app -H1. iFrame. iPureIntro. lia.
Qed.
Lemma raw_take a n m : 0 ≤ n ≤ m → raw a m ⊣⊢ raw a n ∗ raw (a + n) (m - n).
Proof. intros. rewrite -raw_split; [|lia..]. by replace (n + (m - n)) with m by lia. Qed.
Lemma raw_0 a : ⊢ raw a 0.
Proof. iExists []. iSplit; [done|]. iApply bytes_at_nil. Qed.
Lemma raw_nonneg a n : raw a n ⊢ ⌜0 ≤ n⌝.
Proof. iIntros "(%bs & %Hlen & H)". iPureIntro. lia. Qed.
Lemma raw_range a n : 0 < n → raw a n ⊢ ⌜0 < a ∧ a + n ≤ W64⌝.
Proof.
  intros Hn. iIntros "(%bs & <- & H)". iApply (bytes_at_range with "H"). lia.
Qed.
Lemma raw_disjoint a n b m :
  0 < n → 0 < m → raw a n ∗ raw b m ⊢ ⌜a + n ≤ b ∨ b + m ≤ a⌝.
Proof.
  intros Hn Hm. iIntros "[(%bs1 & <- & H1) (%bs2 & <- & H2)]".
  iApply bytes_at_disjoint; [lia|lia|iFrame].
Qed.
Lemma raw_disjoint_strict a n b m :
  0 < n → 0 < m → raw a n ∗ raw b m ⊢ ⌜a ≠ b⌝.
Proof. intros. rewrite raw_disjoint //. iPureIntro. lia. Qed.

(** *** Scalars *)
Lemma word_raw n a v : word n a v ⊢ raw a (Z.of_nat n).
Proof.
  iIntros "[_ H]". iDestruct (raw_intro with "H") as "H". by rewrite length_le_split.
Qed.
Lemma raw_word n a : a mod Z.of_nat n = 0 → raw a (Z.of_nat n) ⊢ ∃ v, word n a v.
Proof.
  intros Ha. iIntros "(%bs & %Hlen & H)". iExists (le_combine bs).
  iSplit.
  - iPureIntro. split; [|done]. pose proof (le_combine_bound bs) as Hb.
    rewrite -Hlen Z.mul_comm. exact Hb.
  - by rewrite split_le_combine'; [|lia].
Qed.
Lemma raw_word64 a : a mod 8 = 0 → raw a 8 ⊢ ∃ v, a ↦64 v.
Proof. apply (raw_word 8). Qed.
Lemma raw_word32 a : a mod 4 = 0 → raw a 4 ⊢ ∃ v, a ↦32 v.
Proof. apply (raw_word 4). Qed.
Lemma raw_word16 a : a mod 2 = 0 → raw a 2 ⊢ ∃ v, a ↦16 v.
Proof. apply (raw_word 2). Qed.
Lemma word64_raw a v : a ↦64 v ⊢ raw a 8.
Proof. apply (word_raw 8). Qed.
Lemma word_pure n a v : word n a v ⊢ ⌜0 ≤ v < 2 ^ (Z.of_nat n * 8) ∧ a mod Z.of_nat n = 0⌝.
Proof. by iIntros "[% _]". Qed.
Lemma word_range n a v : (0 < n)%nat → word n a v ⊢ ⌜0 < a ∧ a + Z.of_nat n ≤ W64⌝.
Proof. intros. rewrite word_raw. apply raw_range. lia. Qed.
Lemma word_disjoint n a v m b w :
  (0 < n)%nat → (0 < m)%nat → word n a v ∗ word m b w ⊢ ⌜a ≠ b⌝.
Proof. intros. rewrite !word_raw. apply raw_disjoint_strict; lia. Qed.
Lemma word_excl n a v w : (0 < n)%nat → word n a v ∗ word n a w ⊢ False.
Proof. intros. rewrite word_disjoint //. iIntros "%". done. Qed.
End points_to.

(** ** Weakest preconditions *)
Section wp.
Context `{HOS : !OS}.

(** The bytes of [h] are mapped in [m] and have these contents. *)
Definition heap_in (h : heaplet) (m : mem) : Prop := ∀ a b, h !! a = Some b → load8 m a = Some b.

Lemma heap_in_sub h1 h2 m : h1 ⊆ h2 → heap_in h2 m → heap_in h1 m.
Proof. intros Hs H a b Ha. apply H. by eapply lookup_weaken. Qed.
Lemma heap_in_union h1 h2 m : heap_in h1 m → heap_in h2 m → heap_in (h1 ∪ h2) m.
Proof. intros H1 H2 a b [?|[_ ?]]%lookup_union_Some_raw; auto. Qed.

Program Definition wp_def {A} (c : cmd A) (Q : A → heapPropI) : heapPropI :=
  HeapProp (λ h, ∀ hf m, h ##ₘ hf → heap_in (h ∪ hf) m →
    ∃ a m' h', c m = Ok a m' ∧ h' ##ₘ hf ∧ heap_in (h' ∪ hf) m' ∧ heapProp_holds (Q a) h') _.
Next Obligation.
  intros A c Q h1 h2 Hwp Hsub hf m Hd Hin; simpl in *.
  assert (h2 = h1 ∪ (h2 ∖ h1)) as Heq by (symmetry; by apply map_difference_union).
  assert (h1 ##ₘ h2 ∖ h1) as Hd12 by (by apply map_disjoint_difference_r1).
  rewrite Heq in Hd, Hin. apply map_disjoint_union_l in Hd as [Hd1 Hd2].
  destruct (Hwp ((h2 ∖ h1) ∪ hf) m) as (a&m'&h'&?&[??]%map_disjoint_union_r&?&?).
  - by apply map_disjoint_union_r.
  - by rewrite assoc_L.
  - exists a, m', (h' ∪ (h2 ∖ h1)). split_and!; try done.
    + by apply map_disjoint_union_l.
    + by rewrite -assoc_L.
    + eapply heapProp_mono; [done|]. apply map_union_subseteq_l.
Qed.
Definition wp_aux : seal (@wp_def). Proof. by eexists. Qed.
Definition wp {A} := wp_aux.(unseal) A.
Lemma wp_unseal {A} : @wp A = @wp_def A.
Proof. unfold wp. by rewrite (seal_eq wp_aux). Qed.

Lemma wp_ret {A} (a : A) Q : Q a ⊢ wp (mret a) Q.
Proof.
  rewrite wp_unseal. apply heapProp_entails_unfold. intros h HQ hf m ??. by exists a, m, h.
Qed.
Lemma wp_bind {A B} (c : cmd A) (f : A → cmd B) Q :
  wp c (λ a, wp (f a) Q) ⊢ wp (c ≫= f) Q.
Proof.
  rewrite !wp_unseal. apply heapProp_entails_unfold. intros h Hc hf m Hd Hin.
  destruct (Hc hf m Hd Hin) as (a&m1&h1&E1&Hd1&Hin1&H1).
  destruct (H1 hf m1 Hd1 Hin1) as (b&m2&h2&E2&?&?&?).
  exists b, m2, h2. split_and!; try done. unfold mbind, cmd_bind. by rewrite E1.
Qed.
Lemma wp_wand {A} (c : cmd A) Q R : wp c Q ⊢ (∀ a, Q a -∗ R a) -∗ wp c R.
Proof.
  rewrite !wp_unseal. apply heapProp_entails_unfold. intros h Hc.
  apply heapProp_wand_unfold. intros h' Hd HQR hf m [Hdf Hdf']%map_disjoint_union_l Hin.
  destruct (Hc (h' ∪ hf) m) as (a&m1&h1&E1&[Hd1 Hd2]%map_disjoint_union_r&Hin1&H1).
  - by apply map_disjoint_union_r.
  - by rewrite assoc_L.
  - exists a, m1, (h1 ∪ h'). split_and!; [done|by apply map_disjoint_union_l|by rewrite -assoc_L|].
    assert (heapProp_holds (Q a -∗ R a)%I h') as HQRa.
    { exact (proj1 (heapProp_entails_unfold _ _)
               (bi.forall_elim (Ψ := λ a, (Q a -∗ R a)%I) a) _ HQR). }
    rewrite map_union_comm //. by eapply heapProp_wand_unfold.
Qed.
Lemma wp_expect {A} (o : option A) a Q : o = Some a → Q a ⊢ wp (expect o) Q.
Proof. intros ->. apply wp_ret. Qed.

(** Adequacy: a command whose weakest precondition holds of part of the memory
    runs to completion, keeps the rest of the memory, and ends in a memory
    where the postcondition holds. *)
Lemma wp_adequate {A} (P : heapPropI) (c : cmd A) Q h hf m :
  (P ⊢ wp c Q) → heapProp_holds P h → h ##ₘ hf → heap_in (h ∪ hf) m →
  ∃ a m' h', c m = Ok a m' ∧ h' ##ₘ hf ∧ heap_in (h' ∪ hf) m' ∧ heapProp_holds (Q a) h'.
Proof.
  intros Hwp HP. rewrite wp_unseal in Hwp.
  exact (proj1 (heapProp_entails_unfold _ _) Hwp h HP hf m).
Qed.

(** [sat P m]: part of the memory [m] is described by [P]. *)
Definition sat (P : heapPropI) (m : mem) : Prop := ∃ h, heap_in h m ∧ heapProp_holds P h.

Lemma sat_wp {A} (P : heapPropI) (c : cmd A) Q m :
  (P ⊢ wp c Q) → sat P m → ∃ a m', c m = Ok a m' ∧ sat (Q a) m'.
Proof.
  intros Hwp (h&Hin&HP).
  destruct (wp_adequate P c Q h ∅ m) as (a&m'&h'&?&_&Hin'&?);
    [done|done|by apply map_disjoint_empty_r|by rewrite right_id_L|].
  exists a, m'. split; [done|]. exists h'. split; [by rewrite right_id_L in Hin'|done].
Qed.
Lemma sat_mono P Q m : (P ⊢ Q) → sat P m → sat Q m.
Proof. intros HPQ (h&?&?). exists h. split; [done|]. by eapply (proj1 (heapProp_entails_unfold P Q)). Qed.
Lemma sat_pure φ m : sat ⌜φ⌝ m → φ.
Proof. intros (h&_&Hφ). by apply heapProp_pure_unfold in Hφ. Qed.
(** Total-correctness triples, with every frame: a command run in a memory that
    [P] describes part of completes, and leaves the rest as it was. *)
Definition hoare {A} (P : heapPropI) (c : cmd A) (Q : A → heapPropI) : Prop :=
  ∀ F m, sat (P ∗ F) m → ∃ a m', c m = Ok a m' ∧ sat (Q a ∗ F) m'.
Lemma hoare_wp {A} P (c : cmd A) Q : (∀ R, P ∗ (∀ a, Q a -∗ R a) ⊢ wp c R) → hoare P c Q.
Proof.
  intros Hwp F m. apply (sat_wp (P ∗ F) c (λ a, Q a ∗ F)%I). iIntros "[HP HF]".
  iApply Hwp. iFrame "HP". iIntros (a) "$". done.
Qed.
Lemma sat_emp m : sat emp m.
Proof.
  exists ∅. split; [intros ??; by rewrite lookup_empty|].
  assert (⊢@{heapPropI} emp) as He by done. exact (proj1 (heapProp_emp_valid_unfold _) He ∅).
Qed.
Lemma sat_start P m : (⊢ P) → sat P m.
Proof. intros HP. eapply sat_mono; [|apply sat_emp]. by iIntros "_". Qed.
Lemma sat_exist {A} (P : A → heapPropI) m : sat (∃ x, P x) m → ∃ x, sat (P x) m.
Proof. intros (h&?&[x HP]%heapProp_exist_unfold). exists x, h. by split. Qed.
Lemma sat_pure_l φ P m : sat (⌜φ⌝ ∗ P) m → φ ∧ sat P m.
Proof.
  intros HP. split.
  - apply (sat_pure φ m). eapply sat_mono; [|done]. by iIntros "[$ _]".
  - eapply sat_mono; [|done]. by iIntros "[_ $]".
Qed.
End wp.

(** ** Rules of the memory commands *)
Section memory_rules.
Context `{HOS : !OS}.
Implicit Types (a v : Z) (m : mem).

Lemma wp_ext {A} (c1 c2 : cmd A) Q : (∀ m, c1 m = c2 m) → wp c1 Q ⊢ wp c2 Q.
Proof.
  intros Hc. rewrite !wp_unseal. apply heapProp_entails_unfold. intros h Hwp hf m ??.
  rewrite -Hc. by apply Hwp.
Qed.

Definition opt_cmd {A} (f : mem → option (A * mem)) : cmd A := λ m,
  match f m with Some (x, m') => Ok x m' | None => Fault end.

Lemma heap_in_lookup h hf m a b : h !! a = Some b → heap_in (h ∪ hf) m → load8 m a = Some b.
Proof. intros Ha Hin. apply Hin. by apply lookup_union_Some_l. Qed.

Lemma wp_load_byte a b Q : byte_at a b ∗ (byte_at a b -∗ Q b) ⊢ wp (load_byte a) Q.
Proof.
  rewrite wp_unseal byte_at_unseal. apply heapProp_entails_unfold. intros h.
  rewrite heapProp_sep_unfold. intros (h1&h2&Hsub&Hd&[Ha ?]&HQ) hf m Hdf Hin.
  exists b, m, h. split_and!; [|done|done|].
  - unfold load_byte. rewrite (heap_in_lookup h hf m a b) //. eapply lookup_weaken; [done|].
    etrans; [apply map_union_subseteq_l|done].
  - eapply heapProp_mono; [|done]. rewrite map_union_comm //.
    eapply heapProp_wand_unfold; [done|done|]. by split.
Qed.

Lemma mapped_load8 m a b : load8 m a = Some b → mapped m a = true.
Proof. unfold load8. by destruct (mapped m a). Qed.

Lemma heap_in_store8 h m a b b0 :
  h !! a = Some b0 → heap_in h m →
  ∃ m', store8 m a b = Some m' ∧ heap_in (<[a := b]> h) m'.
Proof.
  intros Ha Hin. specialize (Hin a b0 Ha) as Hl. apply mapped_load8 in Hl as Hm.
  unfold store8. rewrite Hm. eexists; split; [done|].
  intros x y. destruct (decide (x = a)) as [->|Hne].
  - rewrite lookup_insert_eq. intros [= ->]. unfold load8, mapped in *; simpl.
    by rewrite Hm lookup_insert_eq.
  - rewrite lookup_insert_ne //. intros Hx%Hin. unfold load8, mapped in *; simpl.
    by rewrite lookup_insert_ne.
Qed.

Definition store_byte a (b : byte) : cmd () := λ m,
  match store8 m a b with Some m' => Ok () m' | None => Fault end.

Lemma wp_store_byte a b0 b Q : byte_at a b0 ∗ (byte_at a b -∗ Q ()) ⊢ wp (store_byte a b) Q.
Proof.
  rewrite wp_unseal byte_at_unseal. apply heapProp_entails_unfold. intros h.
  rewrite heapProp_sep_unfold. intros (h1&h2&Hsub&Hd&[Ha ?]&HQ) hf m Hdf Hin.
  assert (h !! a = Some b0) as Hha.
  { eapply lookup_weaken; [|done]. by apply lookup_union_Some_l. }
  destruct (heap_in_store8 (h ∪ hf) m a b b0) as (m'&Hm'&Hin').
  { by apply lookup_union_Some_l. } { done. }
  exists tt, m', (<[a:=b]> h). split_and!.
  - unfold store_byte. by rewrite Hm'.
  - apply map_disjoint_insert_l_2; [|done]. by eapply map_disjoint_Some_l.
  - by rewrite -insert_union_l.
  - assert (heapProp_holds (Q ()) (h2 ∪ <[a:=b]> h1)) as HQ'.
    { eapply heapProp_wand_unfold; [done| |].
      - apply map_disjoint_insert_r_2; [|done]. by eapply map_disjoint_Some_l.
      - split; [by rewrite lookup_insert_eq|done]. }
    eapply heapProp_mono; [done|]. rewrite map_union_comm.
    + rewrite -insert_union_l. by apply insert_mono.
    + apply map_disjoint_insert_r_2; [|done]. by eapply map_disjoint_Some_l.
Qed.

Definition store_list a (bs : list byte) : cmd () := λ m,
  match store_bytes m a bs with Some m' => Ok () m' | None => Fault end.
Definition load_list a (n : nat) : cmd (list byte) := λ m,
  match load_bytes m a n with Some bs => Ok bs m | None => Fault end.

Lemma store_list_cons a b bs m : store_list a (b :: bs) m = (store_byte a b;; store_list (a + 1) bs) m.
Proof.
  unfold store_list, store_byte, mbind, cmd_bind. simpl.
  destruct (store8 m a b) as [m'|]; simpl; [|done]. by destruct (store_bytes m' (a + 1) bs).
Qed.
Lemma load_list_S a n m :
  load_list a (S n) m = (b ← load_byte a; bs ← load_list (a + 1) n; mret (b :: bs)) m.
Proof.
  unfold load_list, load_byte, mbind, cmd_bind. simpl.
  destruct (load8 m a) as [b|]; simpl; [|done]. by destruct (load_bytes m (a + 1) n).
Qed.

Lemma wp_store_list a bs0 bs Q :
  length bs0 = length bs → a ↦∗ bs0 ∗ (a ↦∗ bs -∗ Q ()) ⊢ wp (store_list a bs) Q.
Proof.
  revert a bs0 Q. induction bs as [|b bs IH]; intros a [|b0 bs0] Q Hlen; try done.
  - iIntros "[H HQ]". iApply (wp_ext (mret ())); [done|]. iApply wp_ret. by iApply "HQ".
  - rewrite !bytes_at_cons. iIntros "[[Hb H] HQ]".
    iApply wp_ext; [intros m; symmetry; apply store_list_cons|].
    iApply wp_bind. iApply wp_store_byte. iFrame "Hb". iIntros "Hb".
    iApply (IH _ bs0); [by simplify_eq/=|]. iFrame "H". iIntros "H". iApply "HQ". iFrame.
Qed.
Lemma wp_load_list a bs Q :
  a ↦∗ bs ∗ (a ↦∗ bs -∗ Q bs) ⊢ wp (load_list a (length bs)) Q.
Proof.
  revert a Q. induction bs as [|b bs IH]; intros a Q.
  - iIntros "[H HQ]". iApply (wp_ext (mret [])); [done|]. iApply wp_ret. by iApply "HQ".
  - rewrite !bytes_at_cons. iIntros "[[Hb H] HQ]". simpl length.
    iApply wp_ext; [intros m; symmetry; apply load_list_S|].
    iApply wp_bind. iApply wp_load_byte. iFrame "Hb". iIntros "Hb".
    iApply wp_bind. iApply IH. iFrame "H". iIntros "H". iApply wp_ret. iApply "HQ". iFrame.
Qed.

Lemma wp_load n a v Q : word n a v ∗ (word n a v -∗ Q v) ⊢ wp (load n a) Q.
Proof.
  iIntros "[[%Hv H] HQ]". destruct Hv as [Hv Ha].
  iApply (wp_ext (bs ← load_list a (length (le_split n v)); mret (le_combine bs))).
  { intros m. unfold load, load_list, mbind, cmd_bind. rewrite length_le_split.
    rewrite bool_decide_eq_true_2 //. by destruct (load_bytes m a n). }
  iApply wp_bind. iApply wp_load_list. iFrame "H". iIntros "H". iApply wp_ret.
  rewrite le_combine_split Z.mod_small //. iApply "HQ". by iFrame.
Qed.
Lemma wp_store n a v0 v Q :
  0 ≤ v < 2 ^ (Z.of_nat n * 8) → word n a v0 ∗ (word n a v -∗ Q ()) ⊢ wp (store n a v) Q.
Proof.
  intros Hv. iIntros "[[%Hv0 H] HQ]". destruct Hv0 as [Hv0 Ha].
  iApply (wp_ext (store_list a (le_split n v))).
  { intros m. unfold store, store_list. by rewrite bool_decide_eq_true_2. }
  iApply (wp_store_list _ (le_split n v0)); [by rewrite !length_le_split|].
  iFrame "H". iIntros "H". iApply "HQ". by iFrame.
Qed.
Lemma wp_store_raw n a v Q :
  0 ≤ v < 2 ^ (Z.of_nat n * 8) → a mod Z.of_nat n = 0 →
  raw a (Z.of_nat n) ∗ (word n a v -∗ Q ()) ⊢ wp (store n a v) Q.
Proof.
  intros Hv Ha. rewrite (raw_word n a Ha). iIntros "[(%w & H) HQ]".
  iApply wp_store; [done|]. iFrame.
Qed.

Lemma wp_memset a bs (b : byte) n Q :
  Z.of_nat (length bs) = n →
  a ↦∗ bs ∗ (a ↦∗ replicate (Z.to_nat n) b -∗ Q ()) ⊢ wp (memset a b n) Q.
Proof.
  intros <-. iIntros "[H HQ]". iApply (wp_ext (store_list a (replicate (Z.to_nat (Z.of_nat (length bs))) b))).
  { done. }
  iApply (wp_store_list _ bs); [rewrite length_replicate; lia|]. iFrame.
Qed.
Lemma wp_memset_raw a (b : byte) n Q :
  raw a n ∗ (a ↦∗ replicate (Z.to_nat n) b -∗ Q ()) ⊢ wp (memset a b n) Q.
Proof. iIntros "[(%bs & %Hlen & H) HQ]". iApply wp_memset; [done|]. iFrame. Qed.
Lemma wp_memcpy dst src bs0 bs n Q :
  0 < n → Z.of_nat (length bs0) = n → Z.of_nat (length bs) = n →
  dst ↦∗ bs0 ∗ src ↦∗ bs ∗ (dst ↦∗ bs -∗ src ↦∗ bs -∗ Q ()) ⊢ wp (memcpy dst src n) Q.
Proof.
  intros Hn H0 H1. iIntros "(Hd & Hs & HQ)".
  iDestruct (bytes_at_disjoint with "[$Hd $Hs]") as %Hdisj; [lia|lia|].
  iApply (wp_ext (bs ← load_list src (length bs); store_list dst bs)).
  { intros m. unfold memcpy, load_list, store_list, mbind, cmd_bind.
    rewrite bool_decide_eq_false_2; [|lia]. rewrite -H1 Nat2Z.id.
    by destruct (load_bytes m src (length bs)). }
  iApply wp_bind. iApply wp_load_list. iFrame "Hs". iIntros "Hs".
  iApply (wp_store_list _ bs0); [lia|]. iFrame "Hd". iIntros "Hd". iApply ("HQ" with "Hd Hs").
Qed.
End memory_rules.

(** ** Rules of the system calls *)
Section syscall_rules.
Context `{HOS : !OS, HL : !OSLaws}.

Fixpoint hbytes (a : Z) (bs : list byte) : heaplet :=
  match bs with [] => ∅ | b :: bs => <[a := b]> (hbytes (a + 1) bs) end.

Lemma lookup_hbytes a bs x c :
  hbytes a bs !! x = Some c ↔ a ≤ x ∧ bs !! Z.to_nat (x - a) = Some c.
Proof.
  revert a. induction bs as [|b bs IH]; intros a; simpl hbytes.
  - rewrite lookup_empty lookup_nil. split; [done|by intros []].
  - destruct (decide (x = a)) as [->|Hne].
    + rewrite lookup_insert_eq Z.sub_diag /=. split; [intros; split; [lia|done]|by intros []].
    + rewrite lookup_insert_ne // IH. split; intros [Hx Hl].
      * split; [lia|]. replace (Z.to_nat (x - a)) with (S (Z.to_nat (x - (a + 1)))) by lia. done.
      * split; [lia|].
        by replace (Z.to_nat (x - a)) with (S (Z.to_nat (x - (a + 1)))) in Hl by lia.
Qed.
Lemma lookup_hbytes_range a bs x c :
  hbytes a bs !! x = Some c → a ≤ x < a + Z.of_nat (length bs).
Proof. rewrite lookup_hbytes. intros [? ?%lookup_lt_Some]. lia. Qed.

Lemma bytes_at_hbytes a bs :
  0 < a → a + Z.of_nat (length bs) ≤ W64 → heapProp_holds (a ↦∗ bs)%I (hbytes a bs).
Proof.
  revert a. induction bs as [|b bs IH]; intros a Ha Hb.
  - exact (proj1 (heapProp_emp_valid_unfold _) (bytes_at_nil a) ∅).
  - apply (proj1 (heapProp_entails_unfold (byte_at a b ∗ (a + 1) ↦∗ bs) _)).
    { by rewrite bytes_at_cons. }
    apply heapProp_sep_unfold. exists {[a := b]}, (hbytes (a + 1) bs).
    simpl in Hb. split_and!; simpl.
    + by rewrite insert_union_singleton_l.
    + apply map_disjoint_singleton_l_2. destruct (hbytes (a + 1) bs !! a) eqn:E; [|done].
      apply lookup_hbytes_range in E. lia.
    + rewrite byte_at_unseal. split; [by rewrite lookup_singleton_eq|]. lia.
    + apply IH; lia.
Qed.
Lemma bytes_at_holds a bs h i b :
  heapProp_holds (a ↦∗ bs)%I h → bs !! i = Some b → h !! (a + Z.of_nat i) = Some b.
Proof.
  intros Hh Hi. apply (proj1 (heapProp_entails_unfold _ _) (bytes_at_lookup_acc a bs i b Hi)) in Hh.
  rewrite byte_at_unseal in Hh. by destruct Hh.
Qed.

Lemma os_page_pos : 0 < os_page.
Proof. destruct os_page_pow as (k&?&->). lia. Qed.
Lemma page_in_range base len a :
  base mod os_page = 0 → len mod os_page = 0 →
  (vma_of base len).1 ≤ a / os_page < (vma_of base len).2 ↔ base ≤ a < base + len.
Proof.
  intros Hb Hl. unfold vma_of; simpl. pose proof os_page_pos.
  pose proof (Z.div_mod base os_page). pose proof (Z.div_mod len os_page).
  pose proof (Z.div_mod a os_page). pose proof (Z.mod_pos_bound a os_page). nia.
Qed.
Lemma page_in_cons v vmas p : page_in (v :: vmas) p ↔ v.1 ≤ p < v.2 ∨ page_in vmas p.
Proof. apply Exists_cons. Qed.
Lemma page_in_remove cut vmas p :
  cut.1 ≤ cut.2 → page_in (vmas_remove cut vmas) p ↔ page_in vmas p ∧ ¬ (cut.1 ≤ p < cut.2).
Proof.
  intros Hcut. unfold page_in. rewrite !Exists_exists. unfold vmas_remove. split.
  - intros (w & Hw & Hp). apply list_elem_of_bind in Hw as (v & Hw & Hv).
    unfold vma_cut in Hw. apply list_elem_of_filter in Hw as [_ Hw].
    rewrite !elem_of_cons elem_of_nil in Hw. destruct Hw as [->|[->|[]]]; simpl in Hp;
      (split; [exists v; split; [done|lia]|lia]).
  - intros [(v & Hv & Hp) Hn].
    set (w := if decide (p < cut.1) then (v.1, Z.min v.2 cut.1) else (Z.max v.1 cut.2, v.2)).
    exists w. split.
    + apply list_elem_of_bind. exists v. split; [|done]. apply list_elem_of_filter.
      rewrite !elem_of_cons. unfold w. case_decide; (split; [simpl; lia|auto]).
    + unfold w. case_decide; simpl; lia.
Qed.

Lemma lookup_cells_filter base len (c : gmap Z byte) a :
  default Byte.x00 (filter (λ '(a, _), outside base len a) c !! a) =
  if decide (outside base len a) then default Byte.x00 (c !! a) else Byte.x00.
Proof.
  rewrite map_lookup_filter. destruct (c !! a) as [x|]; simpl; [|by case_decide].
  case_decide as Hd; [by rewrite option_guard_True|by rewrite option_guard_False].
Qed.
Lemma load8_mmap pg c n c' n' b size a :
  load8 (Mem pg c n) a = Some c' → outside b size a →
  load8 (Mem (vma_of b size :: pg) (filter (λ '(a, _), outside b size a) c) n') a = Some c'.
Proof.
  unfold load8, mapped; simpl. case_bool_decide; [|done].
  rewrite bool_decide_eq_true_2; [|apply page_in_cons; by right].
  rewrite lookup_cells_filter. intros ??. by rewrite decide_True.
Qed.
Lemma load8_mmap_fresh pg c n b size a :
  size mod os_page = 0 → b mod os_page = 0 → b ≤ a < b + size →
  load8 (Mem (vma_of b size :: pg) (filter (λ '(a, _), outside b size a) c) n) a = Some Byte.x00.
Proof.
  intros ???. unfold load8, mapped; simpl.
  rewrite bool_decide_eq_true_2; [|apply page_in_cons; left; by apply page_in_range].
  rewrite lookup_cells_filter decide_False //. unfold outside. lia.
Qed.
Lemma os_mmap_outside m size b a c :
  size mod os_page = 0 →
  os_mmap (syscalls m) (pages m) size = Some b → load8 m a = Some c → outside b size a.
Proof.
  intros Hmod Em Ha%mapped_load8. unfold mapped in Ha. apply bool_decide_eq_true_1 in Ha.
  destruct (os_mmap_base _ _ _ _ Em) as (Hb0&_&_).
  destruct (decide (outside b size a)) as [?|Hno]; [done|]. exfalso.
  eapply (os_mmap_fresh _ _ _ _ (a / os_page) Em); [|done]. unfold outside in Hno.
  assert ((vma_of b size).1 ≤ a / os_page < (vma_of b size).2) as Hp
    by (apply page_in_range; try done; lia).
  unfold vma_of in Hp. simpl in Hp.
  pose proof os_page_pos. pose proof (Z.div_mod size os_page).
  assert ((b + size) / os_page = b / os_page + size / os_page) as ->; [|lia].
  rewrite {1}(_ : size = size / os_page * os_page); [|lia]. by rewrite Z.div_add; [|lia].
Qed.

Lemma wp_mmap size Q :
  0 ≤ size → size mod os_page = 0 →
  (∀ r, match r with
        | None => ⌜0 < size → os_refused⌝
        | Some b => ⌜b mod os_page = 0 ∧ 0 < b ∧ b + size ≤ W64⌝ ∗
                    b ↦∗ replicate (Z.to_nat size) Byte.x00
        end -∗ Q r) ⊢ wp (mmap size) Q.
Proof.
  intros Hsz Hmod. rewrite wp_unseal. apply heapProp_entails_unfold. intros h HQ hf m Hd Hin.
  unfold mmap. destruct (os_mmap (syscalls m) (pages m) size) as [b|] eqn:Em.
  - destruct (os_mmap_base _ _ _ _ Em) as (Hb0&Hb1&Hb2).
    set (bs := replicate (Z.to_nat size) Byte.x00).
    assert (Hout : ∀ a c, (h ∪ hf) !! a = Some c → outside b size a).
    { intros a c Ha%Hin. by eapply os_mmap_outside. }
    assert (h ∪ hf ##ₘ hbytes b bs) as [Hdb Hdfb]%map_disjoint_union_l.
    { apply map_disjoint_spec. intros a c1 c2 H1%Hout H2%lookup_hbytes_range.
      unfold bs in H2. rewrite length_replicate in H2. unfold outside in H1. lia. }
    eexists (Some b), _, (h ∪ hbytes b bs). split_and!; [done| | |].
    + by apply map_disjoint_union_l.
    + intros a c Ha. destruct m as [pg cl n].
      assert ((h ∪ hf) !! a = Some c ∨ hbytes b bs !! a = Some c) as [Ho|Hn].
      { apply lookup_union_Some_raw in Ha as [[?|[_ ?]]%lookup_union_Some_raw|[_ ?]]; auto;
          left; [by apply lookup_union_Some_l|by apply lookup_union_Some_r]. }
      * eapply load8_mmap; try done; [by apply Hin|by eapply Hout].
      * specialize (lookup_hbytes_range _ _ _ _ Hn) as Hr. apply lookup_hbytes in Hn as [_ Hc].
        unfold bs in *. rewrite length_replicate in Hr. apply lookup_replicate in Hc as [-> _].
        eapply load8_mmap_fresh; try done; lia.
    + pose proof (proj1 (heapProp_entails_unfold _ _) (bi.forall_elim (Some b)) h HQ) as HQb.
      eapply heapProp_wand_unfold; [exact HQb|done|].
      apply (proj1 (heapProp_entails_unfold (b ↦∗ bs) _)).
      { iIntros "$". by iPureIntro. }
      apply bytes_at_hbytes; [done|]. unfold bs. rewrite length_replicate. lia.
  - eexists None, _, h. split_and!; [done|done|done|].
    pose proof (proj1 (heapProp_entails_unfold _ _) (bi.forall_elim None) h HQ) as HQb.
    assert ((⌜0 < size → os_refused⌝ -∗ Q None) ⊢ Q None) as He.
    { iIntros "H". iApply "H". iPureIntro. intros ?. by exists (syscalls m), (pages m), size. }
    by apply (proj1 (heapProp_entails_unfold _ _) He).
Qed.

Lemma wp_munmap base size Q :
  0 ≤ size → base mod os_page = 0 → size mod os_page = 0 →
  raw base size ∗ Q () ⊢ wp (munmap base size) Q.
Proof.
  intros Hsz Hb Hm. rewrite wp_unseal. apply heapProp_entails_unfold. intros h.
  rewrite heapProp_sep_unfold. intros (h1&h2&Hsub&Hd12&Hraw&HQ) hf m Hd Hin.
  assert (h1 ∪ h2 ##ₘ hf) as [Hd1 Hd2]%map_disjoint_union_l by (by eapply map_disjoint_weaken_l).
  apply heapProp_exist_unfold in Hraw as [bs Hraw].
  apply heapProp_sep_unfold in Hraw as (h3&h4&Hsub1&Hd34&Hlen%heapProp_pure_unfold&Hbs).
  exists tt, (Mem (vmas_remove (vma_of base size) (pages m)) (cells m) (syscalls m)), h2.
  split_and!; [|done| |done].
  { unfold munmap. by rewrite bool_decide_eq_true_2. }
  intros a c Ha.
  assert (load8 m a = Some c) as Hl.
  { apply Hin. apply lookup_union_Some_raw in Ha as [?|[_ ?]];
      [apply lookup_union_Some_l|by apply lookup_union_Some_r].
    eapply lookup_weaken; [|done]. by apply lookup_union_Some_r. }
  unfold load8, mapped in *; simpl. case_bool_decide as Hp; [|done].
  rewrite bool_decide_eq_true_2; [done|]. apply page_in_remove.
  { unfold vma_of; simpl. pose proof os_page_pos. pose proof (Z.div_pos size os_page). lia. }
  split; [done|]. rewrite page_in_range //. intros Hr.
  assert (is_Some (h1 !! a)) as [c' Hc'].
  { destruct (lookup_lt_is_Some_2 bs (Z.to_nat (a - base))) as [x Hx]; [lia|].
    exists x. eapply lookup_weaken; [|etrans; [apply map_union_subseteq_r|exact Hsub1]]; [|done].
    replace a with (base + Z.of_nat (Z.to_nat (a - base))) by lia. by eapply bytes_at_holds. }
  apply lookup_union_Some_raw in Ha as [Ha|[_ Ha]];
    [exact (proj1 (map_disjoint_spec _ _) Hd12 a c' c Hc' Ha)
    |exact (proj1 (map_disjoint_spec _ _) Hd1 a c' c Hc' Ha)].
Qed.
End syscall_rules.

(** ** The loop rule: a natural-number variant that decreases with every turn *)
Section loop_rule.
Context `{HOS : !OS} {S A : Type}.

Lemma wp_ploop (step : S → cmd (S + A)) (I : nat → S → heapPropI) Q p n s :
  (∀ n s, I n s ⊢ wp (step s) (λ r, match r with
                                     | inl s' => ∃ n', ⌜(n' < n)%nat⌝ ∗ I n' s'
                                     | inr a => Q a end)) →
  I n s ⊢ wp (ploop step p s) (λ r, match r with
                                    | inl s' => ∃ n', ⌜(n' + Pos.to_nat p ≤ n)%nat⌝ ∗ I n' s'
                                    | inr a => Q a end).
Proof.
  intros Hstep. revert n s. induction p as [p IH|p IH|]; intros n s; simpl.
  - iIntros "H". iApply wp_bind. iApply (wp_wand with "[H]"); [by iApply Hstep|].
    iIntros ([s1|a]) "H"; [|by iApply wp_ret]. iDestruct "H" as "(%n1 & %H1 & H)".
    iApply wp_bind. iApply (wp_wand with "[H]"); [by iApply IH|].
    iIntros ([s2|a]) "H"; [|by iApply wp_ret]. iDestruct "H" as "(%n2 & %H2 & H)".
    iApply (wp_wand with "[H]"); [by iApply IH|]. iIntros ([s3|a]) "H"; [|done].
    iDestruct "H" as "(%n3 & %H3 & H)". iExists n3. iFrame. iPureIntro. lia.
  - iIntros "H". iApply wp_bind. iApply (wp_wand with "[H]"); [by iApply IH|].
    iIntros ([s1|a]) "H"; [|by iApply wp_ret]. iDestruct "H" as "(%n1 & %H1 & H)".
    iApply (wp_wand with "[H]"); [by iApply IH|]. iIntros ([s2|a]) "H"; [|done].
    iDestruct "H" as "(%n2 & %H2 & H)". iExists n2. iFrame. iPureIntro. lia.
  - rewrite {1}Hstep. iIntros "H". iApply (wp_wand with "H"). iIntros ([s1|a]) "H"; [|done].
    iDestruct "H" as "(%n1 & %H1 & H)". iExists n1. iFrame. iPureIntro. lia.
Qed.

Lemma wp_while (step : S → cmd (S + A)) (I : nat → S → heapPropI) Q n s :
  Z.of_nat n < W64 →
  (∀ n s, I n s ⊢ wp (step s) (λ r, match r with
                                     | inl s' => ∃ n', ⌜(n' < n)%nat⌝ ∗ I n' s'
                                     | inr a => Q a end)) →
  I n s ⊢ wp (while_fuel step s) Q.
Proof.
  intros Hn Hstep. iIntros "H". iApply wp_bind.
  iApply (wp_wand with "[H]"); [by iApply wp_ploop|].
  iIntros ([s'|a]) "H"; [|by iApply wp_ret]. iDestruct "H" as "(%n' & %Hn' & _)".
  exfalso. rewrite W64_eq in Hn.
  assert (Z.pos (2 ^ 64) = 18446744073709551616) as Hp by reflexivity. lia.
Qed.
End loop_rule.
