(* ===== verification/StdString.v ===== *)
(** [std::string] for the programs that use it: a class of operations, what the standard
    documents of them for a literal, and an implementation that stores short strings
    in the object, on which the witnesses run. *)

From Stdlib Require Import Strings.String.
From iris.proofmode Require Import proofmode.
From S2P Require Import Prelude.
From S2P Require Import HeapProp.
From S2P Require Import Memory.
From S2P Require Import Platform.
From S2P Require Import Logic.

Open Scope Z_scope.

(** An object of [string_size] bytes, aligned to eight, that is built, read and
    destroyed in place. *)
Class StdString `{!OS} := {
  string_size : Z;
  string_construct : Z → string → cmd ();
  string_read : Z → cmd string;
  string_destroy : Z → cmd ();
  string_at : Z → string → heapPropI
}.
(** What the library documents, for a literal that a program uses. *)
Class StdStringLaws `{!OS} `{!StdString} (literal : string) := {
  string_size_ok : 0 < string_size < 2 ^ 32 ∧ string_size mod 8 = 0;
  wp_string_construct p Q : p mod 8 = 0 →
    raw p string_size ∗ (string_at p literal -∗ Q ()) ⊢ wp (string_construct p literal) Q;
  wp_string_read p Q : string_at p literal ∗ (string_at p literal -∗ Q literal) ⊢ wp (string_read p) Q;
  wp_string_destroy p Q : string_at p literal ∗ (raw p string_size -∗ Q ()) ⊢ wp (string_destroy p) Q
}.

(** ** Short strings in the object: the length, and room for sixteen characters *)
Section short.
Context `{HOS : !OS}.
Definition chars (s : string) : list byte := list_byte_of_string s.
Notation len s := (Z.of_nat (length (chars s))).

#[local] Instance short_string : StdString := {|
  string_size := 24;
  string_construct p s := store 8 p (len s);; store_list (p + 8) (chars s);
  string_read p := n ← load 8 p; bs ← load_list (p + 8) (Z.to_nat n); mret (string_of_list_byte bs);
  string_destroy p := mret ();
  string_at p s := (p ↦64 len s ∗ (p + 8)%Z ↦∗ chars s ∗ raw (p + 8 + len s) (16 - len s))%I
|}.
Lemma short_string_laws s : len s ≤ 16 → StdStringLaws s.
Proof.
  intros Hs. split.
  - done.
  - intros p Q Hp. iIntros "[Hp HQ]". cbn [string_size string_construct string_at short_string].
    change 24 with (8 + 16). rewrite raw_split; [|lia..]. iDestruct "Hp" as "[Hn Hc]".
    rewrite (raw_take (p + 8) (len s) 16); [|lia]. iDestruct "Hc" as "[Hc Hrest]".
    iApply wp_bind. iApply wp_store_raw; [cbn; lia|done|]. iFrame "Hn". iIntros "Hn".
    iDestruct "Hc" as (bs Hbs) "Hc". iApply (wp_store_list _ bs); [lia|]. iFrame "Hc". iIntros "Hc". iApply "HQ". iFrame.
  - intros p Q. iIntros "[(Hn & Hc & Hrest) HQ]". iApply wp_bind. iApply wp_load. iFrame "Hn". iIntros "Hn".
    rewrite Nat2Z.id. iApply wp_bind. iApply wp_load_list. iFrame "Hc". iIntros "Hc". iApply wp_ret.
    unfold chars at 2. rewrite string_of_list_byte_of_string. iApply "HQ". iFrame.
  - intros p Q. iIntros "[(Hn & Hc & Hrest) HQ]". iApply wp_ret. iApply "HQ". cbn [string_size short_string].
    change 24 with (8 + 16). rewrite raw_split; [|lia..]. iSplitL "Hn"; [by iApply word64_raw|].
    rewrite (raw_take (p + 8) (len s) 16); [|lia]. iFrame "Hrest". by iApply raw_intro.
Qed.
End short.
