(* ===== verification/BlockHeader.v ===== *)
(** src/src/BlockHeader.hpp: the 16-byte header in front of every user pointer,
    the size constants, and the two alignment helpers. *)

From iris.proofmode Require Import proofmode.
From S2P Require Import Prelude.
From S2P Require Import HeapProp.
From S2P Require Import Memory.
From S2P Require Import Logic.

(** ** Constants *)
Definition kHeaderSize : Z := 16.
Definition kDefaultAlignment : Z := 16.
Definition kSmallMax : Z := 4096.
Definition kMediumMax : Z := 256 * 1024.
Definition kStateAllocated : Z := 0xA11C.
Definition kStateFreed : Z := 0xF4EE.

(** ** [enum class Tier : std::uint16_t] *)
Inductive Tier := Small | Medium | Large | AlignedShim | DebugShim.
#[global] Instance Tier_eq_dec : EqDecision Tier.
Proof. solve_decision. Defined.

Definition tier_code (t : Tier) : Z :=
  match t with
  | Small => 0x51 | Medium => 0x52 | Large => 0x53 | AlignedShim => 0x54 | DebugShim => 0x55
  end.
(** [static_cast<Tier>(tier)]; a value that names no enumerator takes the
    [default] branch of every switch of the program. *)
Definition tierValue (tier : Z) : option Tier :=
  if decide (tier = 0x51) then Some Small
  else if decide (tier = 0x52) then Some Medium
  else if decide (tier = 0x53) then Some Large
  else if decide (tier = 0x54) then Some AlignedShim
  else if decide (tier = 0x55) then Some DebugShim
  else None.
Definition hasValidTier (tier : Z) : bool :=
  (tier_code Small <=? tier) && (tier <=? tier_code DebugShim).

(** ** The header's address and its fields *)
Definition headerOf (userPtr : Z) : Z := userPtr - kHeaderSize.
Definition userPointerOf (blockStart : Z) : Z := blockStart + kHeaderSize.

Section fields.
Context `{HOS : !OS}.
Definition load_payloadSize (h : Z) : cmd Z := load 8 h.
Definition load_tier (h : Z) : cmd Z := load 2 (h + 8).
Definition load_state (h : Z) : cmd Z := load 2 (h + 10).
Definition load_offset (h : Z) : cmd Z := load 4 (h + 12).
Definition store_payloadSize (h v : Z) : cmd () := store 8 h v.
Definition store_tier (h v : Z) : cmd () := store 2 (h + 8) v.
Definition store_state (h v : Z) : cmd () := store 2 (h + 10) v.
Definition store_offset (h v : Z) : cmd () := store 4 (h + 12) v.
End fields.

(** ** Alignment helpers *)
Definition alignUp (value alignment : Z) : Z :=
  Z.land (value +₆₄ alignment -₆₄ 1) (not64 (alignment -₆₄ 1)).
Definition isPowerOfTwo (value : Z) : bool :=
  negb (value =? 0) && (Z.land value (value -₆₄ 1) =? 0).

(** ** Alignment: correctness *)

Lemma pow2_bounds k : 0 ≤ k < 64 → 0 < 2 ^ k < W64.
Proof. intros Hk. split; [lia|]. unfold W64. apply Z.pow_lt_mono_r; lia. Qed.

Lemma land_pred_pow2 v : 0 < v → Z.land v (v - 1) = 0 ↔ v = 2 ^ Z.log2 v.
Proof.
  intros Hv. pose proof (Z.log2_nonneg v). pose proof (Z.log2_spec v Hv) as [H1 H2].
  split.
  - intros Hl. destruct (decide (v = 2 ^ Z.log2 v)) as [?|Hne]; [done|exfalso].
    assert (Z.log2 (v - 1) = Z.log2 v) as Hlog by (apply Z.log2_unique; lia).
    assert (Z.testbit (Z.land v (v - 1)) (Z.log2 v) = true) as Ht.
    { rewrite Z.land_spec Z.bit_log2 //= -{1}Hlog Z.bit_log2; lia. }
    by rewrite Hl Z.bits_0 in Ht.
  - intros Heq. rewrite {1 2}Heq Z.sub_1_r -Z.ones_equiv Z.land_ones //.
    rewrite Z.mod_same //. lia.
Qed.

Lemma isPowerOfTwo_true v : in64 v → isPowerOfTwo v = true ↔ ∃ k, 0 ≤ k < 64 ∧ v = 2 ^ k.
Proof.
  intros Hv. unfold isPowerOfTwo. rewrite andb_true_iff negb_true_iff Z.eqb_neq Z.eqb_eq.
  split.
  - intros [Hnz Hl]. unfold in64 in Hv. rewrite sub64_small in Hl; [|word_lia].
    apply land_pred_pow2 in Hl; [|lia]. exists (Z.log2 v). split; [|done].
    split; [apply Z.log2_nonneg|]. apply Z.log2_lt_pow2; [lia|]. apply Hv.
  - intros (k & Hk & ->). pose proof (pow2_bounds k Hk). split; [lia|].
    rewrite sub64_small; [|unfold in64; lia]. apply land_pred_pow2; [lia|].
    by rewrite Z.log2_pow2; [|lia].
Qed.

(** [alignUp] on a power of two is the smallest multiple that is not below [v]. *)
Lemma alignUp_pow2 v k :
  0 ≤ k < 64 → 0 ≤ v → v + 2 ^ k - 1 < W64 →
  alignUp v (2 ^ k) = (v + 2 ^ k - 1) / 2 ^ k * 2 ^ k.
Proof.
  intros Hk Hv Hlt. pose proof (pow2_bounds k Hk). unfold alignUp.
  assert (v +₆₄ 2 ^ k -₆₄ 1 = v + 2 ^ k - 1) as ->.
  { unfold sub64, add64, wrap64. rewrite Zminus_mod_idemp_l. apply Z.mod_small. lia. }
  rewrite (sub64_small (2 ^ k)); [|unfold in64; lia].
  rewrite land_not64_mask //; [|unfold in64; lia].
  pose proof (Z.div_mod (v + 2 ^ k - 1) (2 ^ k)). lia.
Qed.
Lemma alignUp_bounds v k :
  0 ≤ k < 64 → 0 ≤ v → v + 2 ^ k - 1 < W64 →
  v ≤ alignUp v (2 ^ k) < v + 2 ^ k ∧ alignUp v (2 ^ k) mod 2 ^ k = 0.
Proof.
  intros Hk Hv Hlt. pose proof (pow2_bounds k Hk). rewrite alignUp_pow2 //.
  rewrite Z.mod_mul; [|lia].
  pose proof (Z.div_mod (v + 2 ^ k - 1) (2 ^ k)).
  pose proof (Z.mod_pos_bound (v + 2 ^ k - 1) (2 ^ k)). lia.
Qed.
Lemma alignUp_16 v : 0 ≤ v → v + 15 < W64 → alignUp v 16 = (v + 15) / 16 * 16.
Proof.
  intros. change 16 with (2 ^ 4) at 1. rewrite alignUp_pow2; [|lia|done|lia].
  change (2 ^ 4) with 16. f_equal. f_equal. lia.
Qed.

(** ** Ownership of a header *)

(** The four fields of a header at address [h]. *)
Definition header_at (h sz tier state off : Z) : heapPropI :=
  ⌜h mod 16 = 0⌝ ∗ h ↦64 sz ∗ (h + 8) ↦16 tier ∗ (h + 10) ↦16 state ∗ (h + 12) ↦32 off.

Section header_rules.
Context `{HOS : !OS}.

Lemma header_raw h sz tier state off : header_at h sz tier state off ⊢ raw h 16.
Proof.
  iIntros "(%Ha & H1 & H2 & H3 & H4)". rewrite !word_raw.
  iApply (raw_take h 8 16); [lia|]. iFrame "H1". change (16 - 8) with 8.
  iApply (raw_take (h + 8) 2 8); [lia|]. iFrame "H2".
  replace (h + 8 + 2) with (h + 10) by lia. change (8 - 2) with 6.
  iApply (raw_take (h + 10) 2 6); [lia|]. iFrame "H3".
  replace (h + 10 + 2) with (h + 12) by lia. iFrame.
Qed.
Lemma raw_header h : h mod 16 = 0 → raw h 16 ⊢ ∃ sz tier state off, header_at h sz tier state off.
Proof.
  intros Ha. rewrite (raw_take h 8 16); [|lia].
  rewrite (raw_take (h + 8) 2 (16 - 8)); [|lia].
  rewrite (raw_take (h + 8 + 2) 2 (16 - 8 - 2)); [|lia].
  replace (h + 8 + 2) with (h + 10) by lia. replace (h + 10 + 2) with (h + 12) by lia.
  rewrite (raw_word64 h); [|align_lia]. rewrite (raw_word16 (h + 8)); [|align_lia].
  rewrite (raw_word16 (h + 10)); [|align_lia].
  change (16 - 8 - 2 - 2) with 4. rewrite (raw_word32 (h + 12)); [|align_lia].
  iIntros "((%sz & H1) & (%t & H2) & (%s & H3) & (%o & H4))".
  iExists sz, t, s, o. by iFrame.
Qed.
Lemma header_range h sz tier state off :
  header_at h sz tier state off ⊢ ⌜0 < h ∧ h + 16 ≤ W64⌝.
Proof. rewrite header_raw. apply raw_range. lia. Qed.
Lemma header_fields h sz tier state off :
  header_at h sz tier state off ⊢
  ⌜h mod 16 = 0 ∧ in64 sz ∧ 0 ≤ tier < 2 ^ 16 ∧ 0 ≤ state < 2 ^ 16 ∧ 0 ≤ off < 2 ^ 32⌝.
Proof.
  iIntros "(%Ha & H1 & H2 & H3 & H4)". rewrite !word_pure.
  iDestruct "H1" as %[??]. iDestruct "H2" as %[??]. iDestruct "H3" as %[??].
  iDestruct "H4" as %[??]. done.
Qed.

Lemma wp_load_payloadSize h sz t s o Q :
  header_at h sz t s o ∗ (header_at h sz t s o -∗ Q sz) ⊢ wp (load_payloadSize h) Q.
Proof.
  iIntros "[(%&H1&H2) HQ]". iApply wp_load. iFrame "H1". iIntros "H1". iApply "HQ". by iFrame.
Qed.
Lemma wp_load_tier h sz t s o Q :
  header_at h sz t s o ∗ (header_at h sz t s o -∗ Q t) ⊢ wp (load_tier h) Q.
Proof.
  iIntros "[(%&H1&H2&H3) HQ]". iApply wp_load. iFrame "H2". iIntros "H2". iApply "HQ". by iFrame.
Qed.
Lemma wp_load_state h sz t s o Q :
  header_at h sz t s o ∗ (header_at h sz t s o -∗ Q s) ⊢ wp (load_state h) Q.
Proof.
  iIntros "[(%&H1&H2&H3&H4) HQ]". iApply wp_load. iFrame "H3". iIntros "H3". iApply "HQ". by iFrame.
Qed.
Lemma wp_load_offset h sz t s o Q :
  header_at h sz t s o ∗ (header_at h sz t s o -∗ Q o) ⊢ wp (load_offset h) Q.
Proof.
  iIntros "[(%&H1&H2&H3&H4) HQ]". iApply wp_load. iFrame "H4". iIntros "H4". iApply "HQ". by iFrame.
Qed.
Lemma wp_store_payloadSize h sz t s o v Q :
  in64 v → header_at h sz t s o ∗ (header_at h v t s o -∗ Q ()) ⊢ wp (store_payloadSize h v) Q.
Proof.
  intros Hv. iIntros "[(%&H1&H2) HQ]". iApply wp_store; [exact Hv|]. iFrame "H1".
  iIntros "H1". iApply "HQ". by iFrame.
Qed.
Lemma wp_store_tier h sz t s o v Q :
  0 ≤ v < 2 ^ 16 → header_at h sz t s o ∗ (header_at h sz v s o -∗ Q ()) ⊢ wp (store_tier h v) Q.
Proof.
  intros Hv. iIntros "[(%&H1&H2&H3) HQ]". iApply wp_store; [exact Hv|]. iFrame "H2".
  iIntros "H2". iApply "HQ". by iFrame.
Qed.
Lemma wp_store_state h sz t s o v Q :
  0 ≤ v < 2 ^ 16 → header_at h sz t s o ∗ (header_at h sz t v o -∗ Q ()) ⊢ wp (store_state h v) Q.
Proof.
  intros Hv. iIntros "[(%&H1&H2&H3&H4) HQ]". iApply wp_store; [exact Hv|]. iFrame "H3".
  iIntros "H3". iApply "HQ". by iFrame.
Qed.
Lemma wp_store_offset h sz t s o v Q :
  0 ≤ v < 2 ^ 32 → header_at h sz t s o ∗ (header_at h sz t s v -∗ Q ()) ⊢ wp (store_offset h v) Q.
Proof.
  intros Hv. iIntros "[(%&H1&H2&H3&H4) HQ]". iApply wp_store; [exact Hv|]. iFrame "H4".
  iIntros "H4". iApply "HQ". by iFrame.
Qed.
End header_rules.

(** ** Properties *)

(** [alignUp v a], for a power of two [a] and no wrap-around, is the least
    multiple of [a] that is at least [v]. *)
Theorem alignUp_least_multiple v k m :
  0 ≤ k < 64 → 0 ≤ v → v + 2 ^ k - 1 < W64 → m mod 2 ^ k = 0 → v ≤ m →
  v ≤ alignUp v (2 ^ k) ≤ m ∧ alignUp v (2 ^ k) mod 2 ^ k = 0.
Proof.
  intros Hk Hv Hlt Hm Hvm. destruct (alignUp_bounds v k Hk Hv Hlt) as [Hb Hmod].
  split_and!; [lia| |done].
  pose proof (pow2_bounds k Hk).
  apply Z.div_exact in Hm; [|lia]. apply Z.div_exact in Hmod; [|lia].
  assert (alignUp v (2 ^ k) / 2 ^ k < m / 2 ^ k + 1); nia.
Qed.
Lemma alignUp_least_multiple_witness :
  40 ≤ alignUp 40 (2 ^ 4) ≤ 64 ∧ alignUp 40 (2 ^ 4) mod 2 ^ 4 = 0.
Proof. apply (alignUp_least_multiple 40 4 64); vm_compute; intuition congruence. Defined.

(** [isPowerOfTwo] accepts exactly the powers of two of [std::size_t]. *)
Theorem isPowerOfTwo_correct v :
  in64 v → isPowerOfTwo v = true ↔ ∃ k, 0 ≤ k < 64 ∧ v = 2 ^ k.
Proof. apply isPowerOfTwo_true. Qed.
Lemma isPowerOfTwo_correct_witness :
  isPowerOfTwo 4096 = true ↔ ∃ k, 0 ≤ k < 64 ∧ 4096 = 2 ^ k.
Proof. apply (isPowerOfTwo_correct 4096). vm_compute. intuition congruence. Defined.
