(* ===== verification/SystemMemory.v ===== *)
(** src/src/SystemMemory.hpp and SystemMemory.cpp: the operating-system layer
    and the RAII wrapper of a mapping. *)

From iris.proofmode Require Import proofmode.
From S2P Require Import Prelude.
From S2P Require Import HeapProp.
From S2P Require Import Memory.
From S2P Require Import Platform.
From S2P Require Import Logic.

(** [std::span<std::byte>]; the empty span has no data. *)
Record span := Span { data : Z; size : Z }.
Definition empty_span : span := Span 0 0.
#[global] Instance span_eq_dec : EqDecision span.
Proof. solve_decision. Defined.

Section SystemMemory.
Context `{HOS : !OS}.

Definition pageSize : Z := os_page.
Definition roundToPages (size : Z) : Z :=
  let page := pageSize in (size +₆₄ page -₆₄ 1) / page *₆₄ page.

Definition map (size : Z) : cmd span :=
  if size =? 0 then mret empty_span else
  let rounded := roundToPages size in
  ptr ← mmap rounded;
  match ptr with
  | None => mret empty_span
  | Some ptr => mret (Span ptr rounded)
  end.

Definition unmap (region : span) : cmd () :=
  if size region =? 0 then mret () else munmap (data region) (size region).

(** [class MappedRegion]: its only member is the span [region_]. *)
Record MappedRegion := Mapped { region_ : span }.
Definition MappedRegion_make (size : Z) : cmd MappedRegion := r ← map size; mret (Mapped r).
Definition valid (r : MappedRegion) : bool := negb (size (region_ r) =? 0).
(** [release] returns the span and leaves the object empty. *)
Definition release (r : MappedRegion) : span * MappedRegion := (region_ r, Mapped empty_span).
(** [reset], also the destructor. *)
Definition reset (r : MappedRegion) : cmd MappedRegion :=
  if size (region_ r) =? 0 then mret r
  else unmap (region_ r);; mret (Mapped empty_span).
(** The move constructor, and move assignment between distinct objects: the new
    values of the target and of the source. *)
Definition move_construct (other : MappedRegion) : MappedRegion * MappedRegion :=
  let '(s, other') := release other in (Mapped s, other').
Definition move_assign (self other : MappedRegion) : cmd (MappedRegion * MappedRegion) :=
  reset self;; let '(s, other') := release other in mret (Mapped s, other').
(** The destructor of a container of regions. *)
Fixpoint reset_all (rs : list MappedRegion) : cmd () :=
  match rs with
  | [] => mret ()
  | r :: rs => reset r;; reset_all rs
  end.
Definition region_data (r : MappedRegion) : Z := data (region_ r).
Definition region_size (r : MappedRegion) : Z := size (region_ r).
End SystemMemory.

Section proofs.
Context `{HOS : !OS, HL : !OSLaws}.

(** A mapping of the process: page-aligned, inside the address space. *)
Definition region_ok (r : span) : Prop :=
  0 < data r ∧ data r mod os_page = 0 ∧ 0 < size r ∧ size r mod os_page = 0 ∧
  data r + size r ≤ W64.

Lemma os_page_bounds : 16 ≤ os_page < 2 ^ 41 ∧ os_page mod 16 = 0.
Proof.
  destruct os_page_pow as (k&Hk&->).
  assert (2 ^ k = 2 ^ (k - 4) * 16) as Hp.
  { change 16 with (2 ^ 4). rewrite -Z.pow_add_r; [|lia..]. f_equal. lia. }
  split; [split|].
  - pose proof (Z.pow_pos_nonneg 2 (k - 4)). lia.
  - apply Z.pow_lt_mono_r; lia.
  - rewrite Hp. apply Z.mod_mul. lia.
Qed.

Lemma page_mod_16 a : a mod os_page = 0 → a mod 16 = 0.
Proof.
  pose proof os_page_bounds as [? Hp]. intros Ha.
  apply Z.div_exact in Ha; [|lia]. apply Z.div_exact in Hp; [|lia].
  rewrite Ha Hp. rewrite (Z.mul_comm 16) Z.mul_comm Z.mul_assoc. apply Z.mod_mul. lia.
Qed.

Lemma roundToPages_eq size :
  0 ≤ size → size + os_page - 1 < W64 →
  roundToPages size = (size + os_page - 1) / os_page * os_page.
Proof.
  intros Hs Hlt. pose proof os_page_bounds as [? _]. unfold roundToPages, pageSize.
  assert (size +₆₄ os_page -₆₄ 1 = size + os_page - 1) as ->.
  { unfold sub64, add64, wrap64. rewrite Zminus_mod_idemp_l. apply Z.mod_small. lia. }
  apply mul64_small. pose proof (Z.div_mod (size + os_page - 1) os_page).
  pose proof (Z.mod_pos_bound (size + os_page - 1) os_page). unfold in64. nia.
Qed.
Lemma roundToPages_bounds size :
  0 ≤ size → size + os_page - 1 < W64 →
  size ≤ roundToPages size < size + os_page ∧ roundToPages size mod os_page = 0.
Proof.
  intros Hs Hlt. pose proof os_page_bounds as [? _]. rewrite roundToPages_eq //.
  rewrite Z.mod_mul; [|lia]. pose proof (Z.div_mod (size + os_page - 1) os_page).
  pose proof (Z.mod_pos_bound (size + os_page - 1) os_page). nia.
Qed.
(** Rounding a size in the last page of the address space wraps to zero. *)
Lemma roundToPages_wrap size :
  in64 size → W64 ≤ size + os_page - 1 → roundToPages size = 0.
Proof.
  intros [Hs0 Hs1] Hge. pose proof os_page_bounds as [? _]. unfold roundToPages, pageSize.
  assert (size +₆₄ os_page -₆₄ 1 = size + os_page - 1 - W64) as ->.
  { unfold sub64, add64, wrap64. rewrite Zminus_mod_idemp_l.
    rewrite -(Z.mod_add (size + os_page - 1) (-1) W64) //.
    rewrite Z.mod_small; rewrite W64_eq in Hs1 Hge |- *; lia. }
  rewrite Z.div_small; [|lia]. reflexivity.
Qed.

(** [map] either reports failure with the empty span, or hands over a fresh
    zero-filled mapping of the size rounded to pages. *)
Lemma wp_map sz Q :
  0 < sz → sz + os_page - 1 < W64 →
  (∀ r, (⌜r = empty_span ∧ os_refused⌝ ∨
         ⌜region_ok r ∧ size r = roundToPages sz⌝ ∗
         data r ↦∗ replicate (Z.to_nat (size r)) Byte.x00) -∗ Q r) ⊢ wp (map sz) Q.
Proof.
  intros Hsz Hlt. iIntros "HQ". unfold map. rewrite (proj2 (Z.eqb_neq sz 0)); [|lia].
  destruct (roundToPages_bounds sz) as [Hb Hm]; [lia|done|].
  iApply wp_bind. iApply wp_mmap; [lia|done|]. iIntros ([b|]) "H".
  - iApply wp_ret. iApply "HQ". iRight. iDestruct "H" as "[%Hr $]". iPureIntro.
    destruct Hr as (?&?&?). split; [|done]. split_and!; simpl; try done; lia.
  - iApply wp_ret. iApply "HQ". iLeft. iDestruct "H" as %Hr. iPureIntro. split; [done|].
    apply Hr. lia.
Qed.

Lemma wp_reset r Q :
  region_ok (region_ r) →
  raw (data (region_ r)) (size (region_ r)) ∗ Q (Mapped empty_span) ⊢ wp (reset r) Q.
Proof.
  intros (?&?&?&?&?). unfold reset, unmap. rewrite (proj2 (Z.eqb_neq _ 0)); [|lia].
  iIntros "[H HQ]". iApply wp_bind. iApply wp_munmap; [lia|done|done|]. iFrame "H".
  by iApply wp_ret.
Qed.
End proofs.

(** ** Properties *)
Section properties.
Context `{HOS : !OS, HL : !OSLaws}.

(** C40: rounding to pages never shrinks a request that fits in the address
    space, and wraps to zero - which [map] then reports as a failure, never as
    a short mapping - for every other request. *)
Theorem map_rounds_or_fails sz m :
  in64 sz →
  (sz + os_page - 1 < W64 →
     sz ≤ roundToPages sz < sz + os_page ∧ roundToPages sz mod os_page = 0) ∧
  (W64 ≤ sz + os_page - 1 → ∃ m', map sz m = Ok empty_span m').
Proof.
  intros Hs. split.
  - intros. apply roundToPages_bounds; [apply Hs|done].
  - intros Hge. unfold map. destruct (sz =? 0) eqn:E.
    + by exists m.
    + rewrite roundToPages_wrap //. unfold mbind, cmd_bind, mmap. rewrite os_mmap_zero. by eexists.
Qed.
End properties.
Lemma map_rounds_or_fails_witness :
  (5000 + 4096 - 1 < W64 →
     5000 ≤ @roundToPages (bump_os 9) 5000 < 5000 + 4096 ∧ @roundToPages (bump_os 9) 5000 mod 4096 = 0) ∧
  (W64 ≤ 5000 + 4096 - 1 → ∃ m', @map (bump_os 9) 5000 mem_init = Ok empty_span m').
Proof.
  apply (map_rounds_or_fails (HOS := bump_os 9) (HL := bump_laws 9) 5000 mem_init). by vm_compute.
Defined.

(** A memory with a page to work on, for the instances of theorems about memory. *)
Lemma demo_page :
  ∃ m r, region_ok (HOS := bump_os 9) r ∧ 4096 ≤ size r ∧ sat (HOS := bump_os 9) (raw (data r) (size r)) m.
Proof.
  destruct (sat_wp (HOS := bump_os 9) emp%I (@map (bump_os 9) 4096) (λ r, ⌜r = empty_span⌝ ∨
    ⌜region_ok (HOS := bump_os 9) r ∧ 4096 ≤ size r⌝ ∗ raw (data r) (size r))%I mem_init) as (r&m&Hrun&Hsat).
  - iIntros "_". iApply (wp_map (HL := bump_laws 9)); [done|by vm_compute|].
    iIntros (r) "[[% _]|[[% %Hsz] H]]"; [by iLeft|iRight]. iSplit.
    + iPureIntro. split; [done|]. rewrite Hsz. by vm_compute.
    + rewrite raw_intro length_replicate Z2Nat.id; [done|]. rewrite Hsz. by vm_compute.
  - apply sat_emp.
  - assert (r ≠ empty_span) as Hne by (intros ->; vm_compute in Hrun; discriminate).
    eapply (sat_mono _ (⌜region_ok (HOS := bump_os 9) r ∧ 4096 ≤ size r⌝ ∗ raw (data r) (size r))%I) in Hsat;
      [|iIntros "[%|$]"; contradiction].
    apply sat_pure_l in Hsat as [[? ?] ?]. by exists m, r.
Qed.
