(* ===== verification/SizeClassTable.v ===== *)
(** src/src/SizeClassTable.hpp: the 30 size classes and the lookup table that
    maps a request of at most 4096 bytes to its class. *)

From S2P Require Import Prelude.
From S2P Require Import BlockHeader.

Definition kClassCount : Z := 30.
Definition kClassSizes : list Z :=
  [8; 16; 24; 32; 48; 64; 80; 96; 112; 128; 160; 192; 224; 256; 320;
   384; 448; 512; 640; 768; 896; 1024; 1280; 1536; 1792; 2048; 2560; 3072; 3584; 4096].
Definition kGranularity : Z := 8.
Definition kLookupSize : Z := kSmallMax / kGranularity + 1.

(** [while (kClassSizes[classIdx] < size) ++classIdx;] - each turn moves on by one
    entry, so the number of entries is enough fuel; [None] is an index past the
    end of the array. *)
Fixpoint advance (fuel : nat) (classIdx : nat) (size : Z) : option nat :=
  match fuel with
  | O => None
  | S fuel =>
      match kClassSizes !! classIdx with
      | None => None
      | Some c => if c <? size then advance fuel (S classIdx) size else Some classIdx
      end
  end.

(** The initialiser of [kLookup]: one entry per slot, the class index carried on. *)
Fixpoint fill_table (slots : list Z) (classIdx : nat) : option (list Z) :=
  match slots with
  | [] => Some []
  | slot :: slots =>
      classIdx' ← advance (S (length kClassSizes)) classIdx (slot * kGranularity);
      rest ← fill_table slots classIdx';
      Some (Z.of_nat classIdx' mod 2 ^ 8 :: rest)
  end.
Definition kLookup : list Z :=
  Eval vm_compute in default [] (fill_table (zseq (Z.to_nat kLookupSize) 0) 0).

(** [classIndex] indexes [kLookup] and [classSize] indexes [kClassSizes]; [None] is
    an index out of range. *)
Definition classIndex (size : Z) : option Z :=
  kLookup !! Z.to_nat ((size +₆₄ kGranularity -₆₄ 1) / kGranularity).
Definition classSize (index : Z) : option Z := kClassSizes !! Z.to_nat index.
(** What the compiler checks. *)
Definition static_asserts : bool :=
  bool_decide (classIndex 1 = Some 0 ∧ classIndex 8 = Some 0 ∧ classIndex 9 = Some 1 ∧
    classIndex 4096 = Some (kClassCount - 1)).

(** ** The specification: the first class that is large enough *)
Fixpoint first_fit_class (classes : list Z) (i : Z) (size : Z) : option Z :=
  match classes with
  | [] => None
  | c :: classes => if size <=? c then Some i else first_fit_class classes (i + 1) size
  end.

(** ** Facts about the table *)
Lemma static_asserts_hold : static_asserts = true.
Proof. by vm_compute. Qed.

Lemma kLookup_filled :
  fill_table (zseq (Z.to_nat kLookupSize) 0) 0 = Some kLookup.
Proof. vm_compute. reflexivity. Qed.
Lemma kLookup_length : length kLookup = Z.to_nat kLookupSize.
Proof. reflexivity. Qed.

(** A finite check over an initial segment of [Z], for facts about tables. *)
Definition forall_below (n : nat) (f : Z → bool) : bool := forallb f (zseq n 0).
Lemma forall_below_spec n f x :
  forall_below n f = true → 0 ≤ x < Z.of_nat n → f x = true.
Proof.
  unfold forall_below. rewrite forallb_forall. intros Hf Hx. apply Hf.
  apply list_elem_of_In, elem_of_zseq. lia.
Qed.

Definition class_ok (size : Z) : bool :=
  match classIndex size, first_fit_class kClassSizes 0 size with
  | Some i, Some j =>
      (i =? j) && (0 <=? i) && (i <? kClassCount) &&
      match classSize i with
      | Some c => (size <=? c) && (c <=? 4096) && (c mod 8 =? 0) && ((c - size <? 16) || (5 * (c - size) <? c))
      | None => false
      end
  | _, _ => false
  end.
Lemma class_ok_all : forall_below 4097 class_ok = true.
Proof. vm_compute. reflexivity. Qed.

Lemma classIndex_spec size :
  0 ≤ size ≤ kSmallMax →
  ∃ i c, classIndex size = Some i ∧ classSize i = Some c ∧
         first_fit_class kClassSizes 0 size = Some i ∧
         0 ≤ i < kClassCount ∧ size ≤ c ≤ 4096 ∧ c mod 8 = 0 ∧ (c - size < 16 ∨ 5 * (c - size) < c).
Proof.
  unfold kSmallMax. intros Hs.
  pose proof (forall_below_spec 4097 class_ok size class_ok_all ltac:(lia)) as H.
  unfold class_ok in H.
  destruct (classIndex size) as [i|]; [|done].
  destruct (first_fit_class kClassSizes 0 size) as [j|]; [|done].
  destruct (classSize i) as [c|] eqn:Hc; [|by rewrite andb_false_r in H].
  rewrite !andb_true_iff, orb_true_iff, !Z.leb_le, !Z.eqb_eq, !Z.ltb_lt in H.
  destruct H as (((?&?)&?)&(((?&?)&?)&?)). subst j. exists i, c. split_and!; try done; lia.
Qed.

(** ** Properties *)

(** C38: for every request the small tier accepts, [classIndex] is inside the lookup
    table and inside the class array, and it is the class a linear search of
    [kClassSizes] for the first class that is large enough would find. *)
Theorem classIndex_first_fit size :
  0 ≤ size ≤ kSmallMax →
  ∃ i c, classIndex size = Some i ∧ first_fit_class kClassSizes 0 size = Some i ∧
         0 ≤ i < kClassCount ∧ classSize i = Some c ∧ size ≤ c ≤ kSmallMax.
Proof.
  intros Hs. destruct (classIndex_spec size Hs) as (i&c&?&?&?&?&?&?&?). unfold kSmallMax in *.
  exists i, c. split_and!; try done; lia.
Qed.
Lemma classIndex_first_fit_witness :
  ∃ i c, classIndex 1025 = Some i ∧ first_fit_class kClassSizes 0 1025 = Some i ∧
         0 ≤ i < kClassCount ∧ classSize i = Some c ∧ 1025 ≤ c ≤ kSmallMax.
Proof. apply (classIndex_first_fit 1025). vm_compute; intuition congruence. Defined.

(** C39: the padding a size class adds is under 16 bytes or under a fifth of the
    block; a fifth is the bound the table attains (1025 bytes take a 1280-byte
    block), above the 12 percent docs/architecture.md gives. *)
Theorem class_internal_fragmentation size i c :
  0 ≤ size ≤ kSmallMax → classIndex size = Some i → classSize i = Some c →
  (c - size < 16 ∨ 5 * (c - size) < c) ∧
  (classIndex 1025 = Some 22 ∧ classSize 22 = Some 1280 ∧ 12 * 1280 < 100 * (1280 - 1025)).
Proof.
  intros Hs Hi Hc. split; [|by vm_compute].
  destruct (classIndex_spec size Hs) as (i'&c'&?&?&?&?&?&?&?). by simplify_eq.
Qed.
Lemma class_internal_fragmentation_witness :
  (160 - 129 < 16 ∨ 5 * (160 - 129) < 160) ∧
  (classIndex 1025 = Some 22 ∧ classSize 22 = Some 1280 ∧ 12 * 1280 < 100 * (1280 - 1025)).
Proof.
  apply (class_internal_fragmentation 129 10); [vm_compute; intuition congruence|reflexivity..].
Defined.
