(* ===== verification/Prog.v ===== *)
(** Programs as sequences of atomic actions on a state.  An action is what the
    program does without another thread being able to interfere: a critical
    section, one atomic read-modify-write, one system call, or an access to
    memory the thread owns.  [run] executes a program alone; [Interleaving]
    gives the step relation of several threads over the same definitions. *)

From iris.proofmode Require Import proofmode.
From S2P Require Import Prelude.
From S2P Require Import HeapProp.
From S2P Require Import Memory.
From S2P Require Import Logic.

Inductive prog (S A : Type) : Type :=
  | Ret (a : A)
  | Act (X : Type) (f : S → cmd (X * S)) (k : X → prog S A).
Global Arguments Ret {S A} _.
Global Arguments Act {S A X} _ _.

#[global] Instance prog_ret {S} : MRet (prog S) := λ A a, Ret a.
Fixpoint prog_bind_def {S A B} (f : A → prog S B) (p : prog S A) : prog S B :=
  match p with
  | Ret a => f a
  | Act g k => Act g (λ x, prog_bind_def f (k x))
  end.
#[global] Instance prog_bind {S} : MBind (prog S) := @prog_bind_def S.

Section prog.
Context {S : Type}.

Fixpoint run {A} (p : prog S A) (s : S) : cmd (A * S) :=
  match p with
  | Ret a => mret (a, s)
  | Act f k => r ← f s; run (k r.1) r.2
  end.

(** An action of its own; an action that only reads, only updates, or only
    touches memory. *)
Definition act {X} (f : S → cmd (X * S)) : prog S X := Act f Ret.
Definition gets {X} (f : S → X) : prog S X := act (λ s, mret (f s, s)).
Definition modify (f : S → S) : prog S () := act (λ s, mret ((), f s)).
Definition io {X} (c : cmd X) : prog S X := act (λ s, x ← c; mret (x, s)).

(** Running a program of a component inside a larger state. *)
Fixpoint zoom {S' A} (get : S' → S) (set : S' → S → S') (p : prog S A) : prog S' A :=
  match p with
  | Ret a => Ret a
  | Act f k => Act (λ s', r ← f (get s'); mret (r.1, set s' r.2)) (λ x, zoom get set (k x))
  end.
End prog.

(** A lens: the laws a record field and its update satisfy. *)
Class Lens {S S'} (get : S' → S) (set : S' → S → S') := {
  lens_get_set s x : get (set s x) = x;
  lens_set_get s : set s (get s) = s;
  lens_set_set s x y : set (set s x) y = set s y
}.

Section prog_rules.
Context `{HOS : !OS} {S : Type}.
Implicit Types s : S.

Definition wpp {A} (p : prog S A) s (Φ : A → S → heapPropI) : heapPropI :=
  wp (run p s) (λ r, Φ r.1 r.2).

Lemma wpp_ret {A} (a : A) s Φ : Φ a s ⊢ wpp (mret a) s Φ.
Proof. iIntros "H". by iApply (wp_ret (a, s) (λ r, Φ r.1 r.2)). Qed.
Lemma wpp_act {X A} (f : S → cmd (X * S)) (k : X → prog S A) s Φ :
  wp (f s) (λ r, wpp (k r.1) r.2 Φ) ⊢ wpp (Act f k) s Φ.
Proof. iIntros "H". by iApply (wp_bind (f s) (λ r, run (k r.1) r.2) (λ r, Φ r.1 r.2)). Qed.
Lemma run_bind {A B} (p : prog S A) (f : A → prog S B) s m :
  run (p ≫= f) s m = (r ← run p s; run (f r.1) r.2) m.
Proof.
  revert s m. induction p as [a|X g k IH]; intros s m; [done|].
  unfold mbind in *. unfold cmd_bind in *. simpl. unfold mbind, cmd_bind in *.
  by destruct (g s m) as [r m'| | |].
Qed.
Lemma wpp_bind {A B} (p : prog S A) (f : A → prog S B) s Φ :
  wpp p s (λ a s', wpp (f a) s' Φ) ⊢ wpp (p ≫= f) s Φ.
Proof.
  iIntros "H". iApply wp_ext; [intros m; symmetry; apply run_bind|]. by iApply wp_bind.
Qed.
Lemma wpp_wand {A} (p : prog S A) s Φ Ψ :
  wpp p s Φ ⊢ (∀ a s', Φ a s' -∗ Ψ a s') -∗ wpp p s Ψ.
Proof.
  iIntros "H HΦ". iApply (wp_wand with "H"). iIntros ([a s']) "H". by iApply "HΦ".
Qed.

Lemma wpp_act1 {X} (f : S → cmd (X * S)) s Φ : wp (f s) (λ r, Φ r.1 r.2) ⊢ wpp (act f) s Φ.
Proof.
  iIntros "H". iApply wpp_act. iApply (wp_wand with "H"). iIntros ([x s']) "H".
  by iApply wpp_ret.
Qed.
Lemma wpp_gets {X} (f : S → X) s Φ : Φ (f s) s ⊢ wpp (gets f) s Φ.
Proof. iIntros "H". iApply wpp_act1. by iApply (wp_ret (f s, s) (λ r, Φ r.1 r.2)). Qed.
Lemma wpp_modify (f : S → S) s Φ : Φ () (f s) ⊢ wpp (modify f) s Φ.
Proof. iIntros "H". iApply wpp_act1. by iApply (wp_ret ((), f s) (λ r, Φ r.1 r.2)). Qed.
Lemma wpp_io {X} (c : cmd X) s Φ : wp c (λ x, Φ x s) ⊢ wpp (io c) s Φ.
Proof.
  iIntros "H". iApply wpp_act1. iApply wp_bind. iApply (wp_wand with "H"). iIntros (x) "H".
  by iApply wp_ret.
Qed.

Lemma run_zoom {S' A} (get : S' → S) (set : S' → S → S') `{!Lens get set} (p : prog S A) (s' : S') m :
  run (zoom get set p) s' m = (r ← run p (get s'); mret (r.1, set s' r.2)) m.
Proof.
  revert s' m. induction p as [a|X g k IH]; intros s' m.
  - unfold mbind, cmd_bind, mret, cmd_ret. simpl. unfold mret, cmd_ret. by rewrite lens_set_get.
  - unfold mbind, cmd_bind in *. simpl. unfold mbind, cmd_bind.
    destruct (g (get s') m) as [r m'| | |]; try done. simpl. rewrite IH lens_get_set.
    unfold mbind, cmd_bind. destruct (run (k r.1) r.2 m') as [r2 m''| | |]; try done.
    by rewrite lens_set_set.
Qed.
Lemma wpp_zoom {S' A} (get : S' → S) (set : S' → S → S') `{!Lens get set} (p : prog S A) (s' : S')
    (Φ : A → S' → heapPropI) :
  wpp p (get s') (λ a s, Φ a (set s' s)) ⊢ wp (run (zoom get set p) s') (λ r, Φ r.1 r.2).
Proof.
  iIntros "H". iApply wp_ext; [intros m; symmetry; by apply run_zoom|]. iApply wp_bind.
  iApply (wp_wand with "H"). iIntros ([a s]) "H". by iApply wp_ret.
Qed.

(** Triples for programs that run alone. *)
Definition phoare {A} (P : heapPropI) (p : prog S A) s (Q : A → S → heapPropI) : Prop :=
  hoare P (run p s) (λ r, Q r.1 r.2).
Lemma phoare_wpp {A} P (p : prog S A) s Q :
  (∀ R, P ∗ (∀ a s', Q a s' -∗ R a s') ⊢ wpp p s R) → phoare P p s Q.
Proof.
  intros Hwp. apply hoare_wp. intros R. iIntros "[HP HR]".
  iApply (wp_wand _ (λ r, R (r.1, r.2)) with "[HP HR]"); [|by iIntros ([a s']) "H"].
  iApply (Hwp (λ a s', R (a, s'))). iFrame "HP". iIntros (a s') "H". by iApply ("HR" $! (a, s')).
Qed.
Lemma sat_wpp {A} P (p : prog S A) s Q m :
  (P ⊢ wpp p s Q) → sat P m → ∃ a s' m', run p s m = Ok (a, s') m' ∧ sat (Q a s') m'.
Proof.
  intros Hwp Hm. destruct (sat_wp P (run p s) (λ r, Q r.1 r.2) m Hwp Hm) as ([a s']&m'&?&?).
  by exists a, s', m'.
Qed.
End prog_rules.
