(* ===== verification/Interleaving.v ===== *)
(** Threads that interleave.  A [Protocol] says what the threads keep true of the
    shared state between any two actions, and what each may rely on while the others
    run; [cwp] is the proof obligation of one thread - every action, from every state
    the others may have produced, re-establishes the protocol - and [threads_act]
    that obligations met one by one hold of the threads together. *)

From stdpp Require Import gmap.
From iris.proofmode Require Import proofmode.
From S2P Require Import Prelude.
From S2P Require Import HeapProp.
From S2P Require Import Memory.
From S2P Require Import Logic.
From S2P Require Import Prog.

(** Who contributes to the shared state: a thread, or a pointer. *)
Notation holder := (Z + Z)%type.

(** [shared s H]: the invariant of state [s] when every holder contributes its entry of
    [H]; [rely tid s s']: how the state may change while thread [tid] does nothing. *)
Class Protocol (S I : Type) := {
  rely : Z → S → S → Prop;
  rely_pre tid : PreOrder (rely tid);
  shared : S → gmap holder I → heapPropI
}.
#[global] Existing Instance rely_pre.

Section cwp.
Context `{HOS : !OS} {S I : Type} `{HP : !Protocol S I}.
Implicit Types (s : S) (it : I) (H : gmap holder I) (tid : Z).

(** What thread [tid] must respect: the others' [rely]. *)
Definition guar tid s s' : Prop := ∀ t, t ≠ tid → rely t s s'.
#[global] Instance guar_pre tid : PreOrder (guar tid).
Proof.
  split; [by intros s t _|]. intros s1 s2 s3 H1 H2 t Ht. etrans; [by apply H1|by apply H2].
Qed.

(** Thread [tid] runs [p]; it last saw the state [s0], and its entry is [it]. *)
Fixpoint cwp {A} tid (p : prog S A) (s0 : S) (it : I) (Φ : A → S → I → heapPropI) : heapPropI :=
  match p with
  | Ret a => Φ a s0 it
  | Act f k => ∀ s H, ⌜rely tid s0 s ∧ H !! inl tid = Some it⌝ -∗ shared s H -∗
      wp (f s) (λ r, ∃ it', ⌜guar tid s r.2⌝ ∗ shared r.2 (<[inl tid := it']> H) ∗
                            cwp tid (k r.1) r.2 it' Φ)
  end.

Lemma cwp_ret {A} tid (a : A) s it Φ : Φ a s it ⊢ cwp tid (mret a) s it Φ.
Proof. done. Qed.
Lemma cwp_wand {A} tid (p : prog S A) s it Φ Ψ :
  cwp tid p s it Φ ⊢ (∀ a s' it', Φ a s' it' -∗ Ψ a s' it') -∗ cwp tid p s it Ψ.
Proof.
  revert s it. induction p as [a|X f k IH]; intros s it; simpl; iIntros "Hp HΦ"; [by iApply "HΦ"|].
  iIntros (s1 H) "Hpure Hs". iApply (wp_wand with "(Hp Hpure Hs)").
  iIntros (r) "(%it' & Hg & Hs & Hp)". iExists it'. iFrame. by iApply (IH with "Hp").
Qed.
Lemma cwp_bind {A B} tid (p : prog S A) (f : A → prog S B) s it Φ :
  cwp tid p s it (λ a s' it', cwp tid (f a) s' it' Φ) ⊢ cwp tid (p ≫= f) s it Φ.
Proof.
  revert s it. induction p as [a|X g k IH]; intros s it; [done|]. unfold mbind in *. simpl.
  iIntros "Hp" (s1 H) "Hpure Hs". iApply (wp_wand with "(Hp Hpure Hs)").
  iIntros (r) "(%it' & Hg & Hs & Hp)". iExists it'. iFrame. by iApply IH.
Qed.

(** A program of one action, as it stands or inside a larger state. *)
Class Atomic {A} (p : prog S A) := atomic : ∃ f, p = act f.
#[global] Instance atomic_act {A} (f : S → cmd (A * S)) : Atomic (act f).
Proof. by exists f. Qed.
Lemma wp_run_act {A} (f : S → cmd (A * S)) s Q : wpp (act f) s Q ⊢ wp (f s) (λ r, Q r.1 r.2).
Proof.
  iIntros "H". iApply (wp_ext (run (act f) s)); [|done]. intros m. simpl.
  unfold mbind, cmd_bind, mret, cmd_ret. destruct (f s m) as [[]| | |]; done.
Qed.
Lemma cwp_atomic {A} tid (p : prog S A) `{!Atomic p} s0 it Φ :
  (∀ s H, ⌜rely tid s0 s ∧ H !! inl tid = Some it⌝ -∗ shared s H -∗
     wpp p s (λ a s', ∃ it', ⌜guar tid s s'⌝ ∗ shared s' (<[inl tid := it']> H) ∗ Φ a s' it')) ⊢
  cwp tid p s0 it Φ.
Proof.
  destruct (atomic (p := p)) as [f ->]. iIntros "H" (s H) "Hpure Hs".
  iApply (wp_run_act f s (λ a s', ∃ it', ⌜guar tid s s'⌝ ∗ shared s' (<[inl tid := it']> H) ∗ Φ a s' it')%I).
  by iApply ("H" with "Hpure Hs").
Qed.
(** An access to memory the thread owns. *)
Lemma cwp_io {X} tid (c : cmd X) s0 it Φ :
  wp c (λ x, ∀ s, ⌜rely tid s0 s⌝ -∗ Φ x s it) ⊢ cwp tid (io c) s0 it Φ.
Proof.
  iIntros "Hc" (s H) "[%Hr %HH] Hs". iApply wp_bind. iApply (wp_wand with "Hc"). iIntros (x) "HΦ".
  iApply wp_ret. iExists it. iSplit; [done|]. rewrite insert_id //. iFrame. by iApply "HΦ".
Qed.
(** Reading the state. *)
Lemma cwp_gets {X} tid (f : S → X) s0 it Φ :
  (∀ s H, ⌜rely tid s0 s ∧ H !! inl tid = Some it⌝ -∗ shared s H -∗ shared s H ∗ Φ (f s) s it) ⊢
  cwp tid (gets f) s0 it Φ.
Proof.
  iIntros "Hf" (s H) "[%Hr %HH] Hs". iApply wp_ret. iExists it. iSplit; [done|]. rewrite insert_id //.
  by iApply ("Hf" with "[//] Hs").
Qed.
(** A component's program inside a larger state, piece by piece. *)
Lemma cwp_zoom_bind {C A B} (get : S → C) (set : S → C → S) tid (p : prog C A) (f : A → prog C B) s it Φ :
  cwp tid (zoom get set p) s it (λ a s' it', cwp tid (zoom get set (f a)) s' it' Φ) ⊢
  cwp tid (zoom get set (p ≫= f)) s it Φ.
Proof.
  revert s it. induction p as [a|X g k IH]; intros s it; [done|]. unfold mbind in *. simpl.
  iIntros "Hp" (s1 H) "Hpure Hs". iApply (wp_wand with "(Hp Hpure Hs)").
  iIntros (r) "(%it' & Hg & Hs & Hp)". iExists it'. iFrame. by iApply IH.
Qed.
(** The obligation of a thread that has not acted since is that of a later state. *)
Lemma cwp_later {A} tid (p : prog S A) s0 s it Φ :
  rely tid s0 s → (∀ a, Φ a s0 it ⊢ Φ a s it) → cwp tid p s0 it Φ ⊢ cwp tid p s it Φ.
Proof.
  intros Hr HΦ. destruct p as [a|X f k]; simpl; [apply HΦ|].
  iIntros "Hp" (s1 H) "[%Hr1 %HH] Hs". iApply ("Hp" with "[%] Hs"). split; [by etrans|done].
Qed.

(** ** Threads together: each runs a program for a task of type [T]. *)
Section threads.
Context {T A : Type} (Φ : Z → T → A → S → I → heapPropI).
Implicit Types ts : gmap Z (T * prog S A).

Definition threads ts s H : heapPropI :=
  [∗ map] tid ↦ t ∈ ts, ∃ s0 it, ⌜rely tid s0 s ∧ H !! inl tid = Some it⌝ ∗ cwp tid t.2 s0 it (Φ tid t.1).

Lemma threads_empty s H : ⊢ threads ∅ s H.
Proof. unfold threads. by rewrite big_sepM_empty. Qed.
(** The other threads' obligations survive an action of [tid], and whatever happens
    to the entries of pointers. *)
Lemma threads_frame ts s s' H H' :
  (∀ tid t, ts !! tid = Some t → rely tid s s' ∧ H' !! inl tid = H !! inl tid) →
  threads ts s H ⊢ threads ts s' H'.
Proof.
  intros Hts. apply big_sepM_mono. intros tid t Ht. destruct (Hts tid t Ht) as [Hr HH].
  iIntros "(%s0 & %it & [%Hr0 %Hit] & H)". iExists s0, it. iFrame. iPureIntro. split; [by etrans|by rewrite HH].
Qed.

(** A thread takes its next action: it succeeds, and the protocol holds again. *)
Lemma threads_act ts s H tid t X (f : S → cmd (X * S)) k :
  ts !! tid = Some (t, Act f k) →
  shared s H ∗ threads ts s H ⊢
  wp (f s) (λ r, ∃ it, shared r.2 (<[inl tid := it]> H) ∗
                       threads (<[tid := (t, k r.1)]> ts) r.2 (<[inl tid := it]> H)).
Proof.
  intros Ht. iIntros "[Hs Hts]". unfold threads at 1. rewrite big_sepM_delete //.
  iDestruct "Hts" as "[(%s0 & %it & %Hpure & Hp) Hts]". fold (threads (delete tid ts) s H).
  cbn [snd cwp]. iApply (wp_wand with "(Hp [//] Hs)"). iIntros (r) "(%it' & %Hg & Hs & Hp)".
  iExists it'. iFrame "Hs". iApply big_sepM_insert_delete. iSplitL "Hp".
  - iExists r.2, it'. iFrame. iPureIntro. split; [done|apply lookup_insert_eq].
  - iApply (threads_frame with "Hts"). intros tid' t' [Hne _]%lookup_delete_Some.
    split; [by apply Hg|]. rewrite lookup_insert_ne //. congruence.
Qed.
Lemma threads_start ts s H tid t p it :
  ts !! tid = None → H !! inl tid = Some it →
  threads ts s H ∗ cwp tid p s it (Φ tid t) ⊢ threads (<[tid := (t, p)]> ts) s H.
Proof.
  intros Ht HH. iIntros "[Hts Hp]". unfold threads. rewrite big_sepM_insert //. iFrame "Hts".
  iExists s, it. by iFrame.
Qed.
Lemma threads_end ts s H tid t a :
  ts !! tid = Some (t, Ret a) →
  threads ts s H ⊢ threads (delete tid ts) s H ∗
    ∃ s0 it, ⌜rely tid s0 s ∧ H !! inl tid = Some it⌝ ∗ Φ tid t a s0 it.
Proof.
  intros Ht. iIntros "Hts". unfold threads. rewrite big_sepM_delete //. by iDestruct "Hts" as "[$ $]".
Qed.
End threads.
End cwp.

#[export] Hint Extern 0 (Atomic _) => (eexists; reflexivity) : typeclass_instances.

(** ** No thread acts for ever *)
Section termination.
Context {S A : Type}.

(** [p'] is what is left of [p] after its next action. *)
Definition rest_of (p' p : prog S A) : Prop :=
  match p with Ret _ => False | Act f k => ∃ x, p' = k x end.
Lemma rest_wf : well_founded rest_of.
Proof. intros p. induction p as [a|X f k IH]; constructor; [done|]. by intros p' [x ->]. Qed.

(** One of several threads acts. *)
Definition acts {T} (ts' ts : gmap Z (T * prog S A)) : Prop :=
  ∃ tid t p p', ts !! tid = Some (t, p) ∧ rest_of p' p ∧ ts' = <[tid := (t, p')]> ts.
Lemma acts_wf {T} : well_founded (acts (T := T)).
Proof.
  intros ts. induction ts as [|i [t p] ts Hi IH] using map_ind.
  { constructor. intros ts' (tid&t&p&p'&Ht&_). by rewrite lookup_empty in Ht. }
  revert p. induction IH as [ts _ IHts]. intros p. induction (rest_wf p) as [p _ IHp].
  constructor. intros ts' (tid&t'&q&q'&Hq&Hrest&->). destruct (decide (tid = i)) as [->|Hne].
  - rewrite lookup_insert_eq in Hq. simplify_eq. rewrite insert_insert_eq. by apply IHp.
  - apply lookup_insert_Some in Hq as [[? _]|[_ Hq]]; [congruence|].
    rewrite insert_insert_ne; [|exact Hne]. apply IHts.
    + exists tid, t', q, q'. split; [exact Hq|split; [exact Hrest|reflexivity]].
    + rewrite lookup_insert_ne; [exact Hi|exact Hne].
Qed.
(** One of several threads acts, or is done. *)
Definition advances {T} (ts' ts : gmap Z (T * prog S A)) : Prop :=
  acts ts' ts ∨ ∃ tid t a, ts !! tid = Some (t, Ret a) ∧ ts' = delete tid ts.
Lemma advances_wf {T} : well_founded (advances (T := T)).
Proof.
  intros ts. remember (size ts) as n eqn:Hn. revert ts Hn.
  induction (lt_wf n) as [n _ IHn]. intros ts. induction (acts_wf ts) as [ts _ IHts]. intros Hn.
  constructor. intros ts' [Hacts|(tid&t&a&Ht&->)].
  - apply IHts; [exact Hacts|]. destruct Hacts as (tid&t&p&p'&Ht&_&->).
    rewrite map_size_insert_Some; [exact Hn|]. by exists (t, p).
  - apply (IHn (size (delete tid ts))); [|done]. rewrite Hn (map_size_delete_Some tid ts); [|by exists (t, Ret a)].
    assert (size ts ≠ 0%nat); [|lia]. intros ->%map_size_empty_iff. by rewrite lookup_empty in Ht.
Qed.
End termination.
