(* ===== verification/ProgLogic.v ===== *)
(** What the logics of programs have in common: a program that runs alone and a thread
    among others are reasoned about with the same rules for values and sequencing.  A
    proof against this interface holds in both. *)

From iris.proofmode Require Import proofmode.
From S2P Require Import Prelude.
From S2P Require Import HeapProp.
From S2P Require Import Memory.
From S2P Require Import Logic.
From S2P Require Import Prog.
From S2P Require Import Interleaving.

(** [St] is what a program's contract speaks of: the state, or what a thread knows of it. *)
Class ProgLogic (S St : Type) := {
  holds_after {A} : prog S A → St → (A → St → heapPropI) → heapPropI;
  after_ret {A} (a : A) s Φ : Φ a s ⊢ holds_after (mret a) s Φ;
  after_bind {A B} (p : prog S A) (f : A → prog S B) s Φ :
    holds_after p s (λ a s', holds_after (f a) s' Φ) ⊢ holds_after (p ≫= f) s Φ
}.

(** A program that runs alone. *)
#[export] Program Instance alone `{!OS} {S} : ProgLogic S S := {| holds_after A p s Φ := wpp p s Φ |}.
Next Obligation. intros. by iApply wpp_ret. Qed.
Next Obligation. intros. by iApply wpp_bind. Qed.

(** Thread [tid] among others: the state it last saw, and its share. *)
#[export] Program Instance among `{HOS : !OS} {S I} `{HS : !Protocol S I} (tid : Z) : ProgLogic S (S * I) := {|
  holds_after A p s Φ := cwp tid p s.1 s.2 (λ a s' it, Φ a (s', it))
|}.
Next Obligation. intros. destruct s. by iApply cwp_ret. Qed.
Next Obligation. intros. by iApply cwp_bind. Qed.
