(* ===== verification/FreeList.v ===== *)
(** src/src/FreeList.hpp: the intrusive singly linked list of free blocks; the
    link of a block is its first eight bytes. *)

From iris.proofmode Require Import proofmode.
From S2P Require Import Prelude.
From S2P Require Import HeapProp.
From S2P Require Import Memory.
From S2P Require Import Platform.
From S2P Require Import Logic.
From S2P Require Import SystemMemory.

(** [head_] is a [Node*] (0 is the null pointer), [size_] a [std::size_t]. *)
Record FreeList := MkFreeList { head_ : Z; size_ : Z }.
Definition FreeList_init : FreeList := MkFreeList 0 0.

Section FreeList.
Context `{HOS : !OS}.

(** [std::construct_at(static_cast<Node*>(block), Node{head_})] writes the link. *)
Definition push (l : FreeList) (block : Z) : cmd FreeList :=
  store 8 block (head_ l);;
  mret (MkFreeList block (size_ l +₆₄ 1)).

(** The popped block (0 when the list is empty) and the new list. *)
Definition pop (l : FreeList) : cmd (Z * FreeList) :=
  if head_ l =? 0 then mret (0, l) else
  next ← load 8 (head_ l);
  mret (head_ l, MkFreeList next (size_ l -₆₄ 1)).

(** [popBatch(out)] with [n = out.size()]: the blocks written to [out], in order. *)
Fixpoint popBatch (l : FreeList) (n : nat) : cmd (list Z * FreeList) :=
  match n with
  | O => mret ([], l)
  | S n =>
      r ← pop l;
      let '(block, l) := (r : Z * FreeList) in
      if block =? 0 then mret ([], l) else
      r ← popBatch l n;
      let '(out, l) := (r : list Z * FreeList) in
      mret (block :: out, l)
  end.

Definition empty (l : FreeList) : bool := head_ l =? 0.
Definition size (l : FreeList) : Z := size_ l.

(** Pushing a sequence of blocks, as the loops over a batch do. *)
Fixpoint push_all (l : FreeList) (blocks : list Z) : cmd FreeList :=
  match blocks with
  | [] => mret l
  | b :: blocks => l ← push l b; push_all l blocks
  end.
End FreeList.

(** ** The list it represents *)

(** The chain of links that starts at [p] goes through [blocks] and ends in null. *)
Fixpoint chain (p : Z) (blocks : list Z) : heapPropI :=
  match blocks with
  | [] => ⌜p = 0⌝
  | b :: blocks => ⌜p = b⌝ ∗ ∃ next, b ↦64 next ∗ chain next blocks
  end.
Definition free_list (l : FreeList) (blocks : list Z) : heapPropI :=
  ⌜size_ l = wrap64 (Z.of_nat (length blocks))⌝ ∗ chain (head_ l) blocks.

Section proofs.
Context `{HOS : !OS}.

Lemma free_list_init : ⊢ free_list FreeList_init [].
Proof. by iSplit; iPureIntro. Qed.

Lemma chain_head p blocks : chain p blocks ⊢ ⌜in64 p ∧ (p = 0 ↔ blocks = [])⌝.
Proof.
  destruct blocks as [|b blocks]; simpl.
  - iIntros (->). iPureIntro. split; [by vm_compute|done].
  - iIntros "(-> & %next & Hb & _)". iDestruct (word_range with "Hb") as %[??]; [lia|].
    iPureIntro. unfold in64. split; [lia|]. split; [lia|done].
Qed.

Lemma wp_push l blocks b v Q :
  free_list l blocks ∗ b ↦64 v ∗ (∀ l', free_list l' (b :: blocks) -∗ Q l') ⊢ wp (push l b) Q.
Proof.
  iIntros "([%Hsz Hc] & Hb & HQ)". iDestruct (chain_head with "Hc") as %[Hin _].
  iApply wp_bind. iApply wp_store; [exact Hin|]. iFrame "Hb". iIntros "Hb". iApply wp_ret.
  iApply "HQ". iSplit.
  - iPureIntro. simpl. rewrite Hsz. unfold add64, wrap64. rewrite Zplus_mod_idemp_l. f_equal. lia.
  - simpl. iSplit; [done|]. iExists _. iFrame.
Qed.

Lemma wp_pop l blocks Q :
  free_list l blocks ∗
  (∀ b l', match blocks with
           | [] => ⌜b = 0 ∧ l' = l⌝ ∗ free_list l []
           | b' :: blocks' => ⌜b = b' ∧ b ≠ 0⌝ ∗ free_list l' blocks' ∗ ∃ v, b ↦64 v
           end -∗ Q (b, l')) ⊢ wp (pop l) Q.
Proof.
  iIntros "([%Hsz Hc] & HQ)". iDestruct (chain_head with "Hc") as %[Hin Hnil].
  unfold pop. destruct blocks as [|b blocks].
  - rewrite (proj2 (Z.eqb_eq _ _)); [|by apply Hnil]. iApply wp_ret. iApply "HQ".
    iSplit; [done|]. by iFrame.
  - rewrite (proj2 (Z.eqb_neq _ _)); [|by intros ?%Hnil]. simpl.
    iDestruct "Hc" as "(%Hp & %next & Hb & Hc)". rewrite Hp. iApply wp_bind. iApply wp_load. iFrame "Hb".
    iIntros "Hb". iApply wp_ret. iApply "HQ". iSplit.
    { iPureIntro. split; [done|]. rewrite -Hp. by intros ?%Hnil. }
    iSplitR "Hb"; [|by iExists _]. iFrame. iPureIntro. simpl. rewrite Hsz.
    unfold sub64, wrap64. rewrite Zminus_mod_idemp_l. f_equal. simpl. lia.
Qed.

Lemma wp_push_all l blocks bs Q :
  free_list l blocks ∗ ([∗ list] b ∈ bs, ∃ v, b ↦64 v) ∗
  (∀ l', free_list l' (rev bs ++ blocks) -∗ Q l') ⊢ wp (push_all l bs) Q.
Proof.
  revert l blocks. induction bs as [|b bs IH]; intros l blocks; simpl.
  - iIntros "(H & _ & HQ)". iApply wp_ret. by iApply "HQ".
  - iIntros "(H & [(%v & Hb) Hbs] & HQ)". iApply wp_bind. iApply wp_push. iFrame "H Hb".
    iIntros (l') "H". iApply IH. iFrame "H Hbs". rewrite -app_assoc. iExact "HQ".
Qed.

Lemma wp_popBatch l blocks n Q :
  free_list l blocks ∗
  (∀ l', free_list l' (drop n blocks) ∗ ([∗ list] b ∈ take n blocks, ∃ v, b ↦64 v) -∗
         Q (take n blocks, l')) ⊢ wp (popBatch l n) Q.
Proof.
  revert l blocks Q. induction n as [|n IH]; intros l blocks Q; simpl.
  - iIntros "[H HQ]". iApply wp_ret. iApply "HQ". by iFrame.
  - iIntros "[H HQ]". iApply wp_bind. iApply wp_pop. iFrame "H". iIntros (b l') "H".
    destruct blocks as [|b' blocks].
    + iDestruct "H" as "[[-> ->] H]". iApply wp_ret. iApply "HQ". by iFrame.
    + iDestruct "H" as "([-> %Hne] & H & Hb)". rewrite (proj2 (Z.eqb_neq _ _) Hne).
      iApply wp_bind. iApply IH. iFrame "H". iIntros (l'') "[H Hbs]". iApply wp_ret. iApply "HQ".
      iFrame.
Qed.
End proofs.

(** ** Properties *)
Section properties.
Context `{HOS : !OS}.

(** C37: the intrusive list refines a stack.  In any memory where part [F] is
    untouched, pushing a block onto a list that represents [blocks] and popping
    again returns that block and a list that represents [blocks], and popping an
    empty list returns null and changes nothing. *)
Theorem push_pop_lifo F l blocks b v m :
  sat (free_list l blocks ∗ b ↦64 v ∗ F) m →
  (∃ l' m', (l1 ← push l b; pop l1) m = Ok (b, l') m' ∧
            size_ l' = wrap64 (Z.of_nat (length blocks)) ∧
            sat (free_list l' blocks ∗ (∃ w, b ↦64 w) ∗ F) m') ∧
  (blocks = [] → pop l m = Ok (0, l) m).
Proof.
  intros Hsat. split.
  - eapply (sat_wp _ _ (λ r, ⌜r.1 = b⌝ ∗ free_list r.2 blocks ∗ (∃ w, b ↦64 w) ∗ F)%I) in Hsat
      as ([b' l']&m'&Hrun&Hpost); [|].
    + exists l', m'. assert (b' = b) as ->.
      { apply (sat_pure _ m'). eapply sat_mono; [|exact Hpost]. iIntros "[% _]". done. }
      split_and!; [done| |].
      * apply (sat_pure _ m'). eapply sat_mono; [|exact Hpost]. iIntros "(_ & [% _] & _)". done.
      * eapply sat_mono; [|exact Hpost]. by iIntros "(_ & $)".
    + iIntros "(H & Hb & HF)". iApply wp_bind. iApply wp_push. iFrame "H Hb". iIntros (l1) "H".
      iApply wp_pop. iFrame "H". iIntros (b1 l') "([-> _] & H & Hb)". by iFrame.
  - intros ->. assert (head_ l = 0) as H0.
    { apply (sat_pure _ m). eapply sat_mono; [|exact Hsat]. iIntros "([_ %] & _)". done. }
    unfold pop. by rewrite H0.
Qed.
End properties.
Lemma push_pop_lifo_witness :
  ∃ m b l' m', (l1 ← push (HOS := bump_os 9) FreeList_init b; pop (HOS := bump_os 9) l1) m = Ok (b, l') m' ∧ size_ l' = 0.
Proof.
  destruct demo_page as (m&r&(Hb&Hm&_)&Hsz&Hsat).
  assert (∃ v, sat (HOS := bump_os 9) (free_list FreeList_init [] ∗ data r ↦64 v ∗ emp)%I m) as [v Hv].
  { apply sat_exist. eapply sat_mono; [|exact Hsat]. iIntros "H". rewrite (raw_take _ 8); [|lia].
    iDestruct "H" as "[H _]". iDestruct (raw_word64 with "H") as (v) "H".
    { change (@os_page (bump_os 9)) with 4096 in Hm. align_lia. }
    iExists v. iFrame "H". iApply free_list_init. }
  destruct (push_pop_lifo (HOS := bump_os 9) emp%I FreeList_init [] (data r) v m Hv) as [(l'&m'&Hrun&Hl&_) _].
  exists m, (data r), l', m'. split; [exact Hrun|exact Hl].
Defined.
