(* ===== verification/PoolAllocator.v ===== *)
(** src/src/PoolAllocator.hpp and PoolAllocator.cpp: the small tier.  Each size
    class is a shard with a free list and a bump region inside 64 KiB runs.  A
    public operation holds the shard's mutex for its whole body, so it is one
    atomic command. *)

From iris.proofmode Require Import proofmode.
From S2P Require Import Prelude.
From S2P Require Import HeapProp.
From S2P Require Import Memory.
From S2P Require Import Logic.
From S2P Require Import BlockHeader.
From S2P Require Import SystemMemory.
From S2P Require Import SizeClassTable.
From S2P Require Import FreeList.

Definition kRunSize : Z := 64 * 1024.

Definition blockStride (classIndex : Z) : option Z :=
  c ← classSize classIndex; Some (alignUp (kHeaderSize +₆₄ c) kDefaultAlignment).

Record Shard := MkShard {
  freeList : FreeList;
  bumpCursor : Z;
  bumpEnd : Z;
  runs : list MappedRegion
}.
Record PoolAllocator := MkPool { shards_ : list Shard }.

Definition Shard_init : Shard := MkShard FreeList_init 0 0 [].
Definition PoolAllocator_init : PoolAllocator :=
  MkPool (replicate (Z.to_nat kClassCount) Shard_init).

Definition set_freeList (s : Shard) (l : FreeList) : Shard :=
  MkShard l (bumpCursor s) (bumpEnd s) (runs s).
Definition set_shard (p : PoolAllocator) (c : Z) (s : Shard) : PoolAllocator :=
  MkPool (<[Z.to_nat c := s]> (shards_ p)).
Definition get_shard (p : PoolAllocator) (c : Z) : cmd Shard := expect (shards_ p !! Z.to_nat c).

Section PoolAllocator.
Context `{HOS : !OS}.

Definition refill (s : Shard) : cmd (bool * Shard) :=
  run ← MappedRegion_make kRunSize;
  if negb (valid run) then mret (false, s) else
  let cursor := region_data run in
  mret (true, MkShard (freeList s) cursor (cursor + region_size run) (runs s ++ [run])).

(** Carving one block off the bump region. *)
Definition bump (s : Shard) (stride : Z) : Z * Shard :=
  (bumpCursor s, MkShard (freeList s) (bumpCursor s + stride) (bumpEnd s) (runs s)).

Definition takeBlock (s : Shard) (stride : Z) : cmd (Z * Shard) :=
  r ← pop (freeList s);
  let '(block, l) := (r : Z * FreeList) in
  let s := set_freeList s l in
  if negb (block =? 0) then mret (block, s) else
  if (bumpCursor s =? 0) || (wrap64 (bumpEnd s - bumpCursor s) <? stride) then
    r ← refill s;
    let '(ok, s) := (r : bool * Shard) in
    if negb ok then mret (0, s) else mret (bump s stride)
  else mret (bump s stride).

Definition allocateBlock (p : PoolAllocator) (c : Z) : cmd (Z * PoolAllocator) :=
  s ← get_shard p c;
  stride ← expect (blockStride c);
  r ← takeBlock s stride;
  let '(block, s) := (r : Z * Shard) in
  mret (block, set_shard p c s).

Definition freeBlock (p : PoolAllocator) (c : Z) (block : Z) : cmd PoolAllocator :=
  s ← get_shard p c;
  l ← push (freeList s) block;
  mret (set_shard p c (set_freeList s l)).

(** The loop of [allocateBatch]: the blocks written to [out], in order. *)
Fixpoint take_batch (s : Shard) (stride : Z) (n : nat) : cmd (list Z * Shard) :=
  match n with
  | O => mret ([], s)
  | S n =>
      r ← takeBlock s stride;
      let '(block, s) := (r : Z * Shard) in
      if block =? 0 then mret ([], s) else
      r ← take_batch s stride n;
      let '(out, s) := (r : list Z * Shard) in
      mret (block :: out, s)
  end.
Definition allocateBatch (p : PoolAllocator) (c : Z) (n : nat) : cmd (list Z * PoolAllocator) :=
  s ← get_shard p c;
  stride ← expect (blockStride c);
  r ← take_batch s stride n;
  let '(out, s) := (r : list Z * Shard) in
  mret (out, set_shard p c s).

Definition freeBatch (p : PoolAllocator) (c : Z) (blocks : list Z) : cmd PoolAllocator :=
  s ← get_shard p c;
  l ← push_all (freeList s) blocks;
  mret (set_shard p c (set_freeList s l)).

(** [~PoolAllocator]: the shards go in reverse order, each with its runs. *)
Definition PoolAllocator_destroy (p : PoolAllocator) : cmd () :=
  reset_all (concat (runs <$> rev (shards_ p))).
End PoolAllocator.

(** ** Invariant *)

(** A block of the class: aligned, and all of its bytes are owned. *)
Definition block_res (stride b : Z) : heapPropI := ⌜b mod 16 = 0⌝ ∗ raw b stride.
(** A block on a free list: its first word belongs to the list. *)
Definition free_body (stride b : Z) : heapPropI := ⌜b mod 16 = 0⌝ ∗ raw (b + 8) (stride - 8).
(** The bytes between the bump cursor and the end of the current run. *)
Definition bump_res (s : Shard) : heapPropI :=
  ⌜bumpCursor s = 0⌝ ∨
  ⌜0 < bumpCursor s ≤ bumpEnd s ∧ bumpEnd s ≤ W64 ∧ bumpCursor s mod 16 = 0⌝ ∗
  raw (bumpCursor s) (bumpEnd s - bumpCursor s).
(** [blocks] are the free blocks of the shard, the next one to be handed out first. *)
Definition shard_inv (stride : Z) (s : Shard) (blocks : list Z) : heapPropI :=
  free_list (freeList s) blocks ∗ ([∗ list] b ∈ blocks, free_body stride b) ∗ bump_res s.
(** [A] gives the free blocks of every shard. *)
Definition pools_inv (p : PoolAllocator) (A : list (list Z)) : heapPropI :=
  ⌜length (shards_ p) = Z.to_nat kClassCount⌝ ∗
  [∗ list] c ↦ s; blocks ∈ shards_ p; A,
    ∃ stride, ⌜blockStride (Z.of_nat c) = Some stride⌝ ∗ shard_inv stride s blocks.
(** The free blocks of class [c] after a change. *)
Definition set_free (A : list (list Z)) (c : Z) (blocks : list Z) : list (list Z) :=
  <[Z.to_nat c := blocks]> A.

Section proofs.
Context `{HOS : !OS, HL : !OSLaws}.

Lemma blockStride_spec c :
  0 ≤ c < kClassCount →
  ∃ stride sz, blockStride c = Some stride ∧ classSize c = Some sz ∧ 0 < sz ≤ 4096 ∧
    stride mod 16 = 0 ∧ 16 + sz ≤ stride ≤ 4112.
Proof.
  intros Hc.
  assert (forall_below 30 (λ c, match blockStride c, classSize c with
    | Some st, Some sz => (0 <? sz) && (sz <=? 4096) && (st mod 16 =? 0) && (16 + sz <=? st) && (st <=? 4112)
    | _, _ => false end) = true) as Hall by (vm_compute; reflexivity).
  pose proof (forall_below_spec _ _ c Hall Hc) as H. cbv beta in H.
  destruct (blockStride c) as [st|]; [|done]. destruct (classSize c) as [sz|]; [|done].
  clear Hall. rewrite !andb_true_iff !Z.leb_le Z.ltb_lt Z.eqb_eq in H. exists st, sz. split_and!; try done; lia.
Qed.

Lemma block_res_split stride b :
  8 ≤ stride → block_res stride b ⊣⊢ (∃ v, b ↦64 v) ∗ free_body stride b.
Proof.
  intros Hs. unfold block_res, free_body. iSplit.
  - iIntros "[%Ha H]". rewrite (raw_take b 8); [|lia]. iDestruct "H" as "[H $]".
    iSplit; [|done]. iApply raw_word64; [align_lia|done].
  - iIntros "((%v & Hb) & $ & H)". iApply (raw_take b 8); [lia|]. rewrite word64_raw. iFrame.
Qed.

Lemma pools_inv_init : ⊢ pools_inv PoolAllocator_init (replicate (Z.to_nat kClassCount) []).
Proof.
  iSplit; [iPureIntro; by rewrite length_replicate|]. cbn [shards_ PoolAllocator_init].
  iApply big_sepL2_intro; [by rewrite !length_replicate|].
  iIntros "!>" (c s bl Hs Hbl). apply lookup_replicate in Hs as [-> Hc].
  apply lookup_replicate in Hbl as [-> _].
  destruct (blockStride_spec (Z.of_nat c)) as (st&sz&Hst&_); [unfold kClassCount in *; lia|].
  iExists st. iSplit; [done|]. iSplitL; [iApply free_list_init|]. iSplit; [done|]. by iLeft.
Qed.

Lemma wp_refill s Q :
  (∀ ok s', (if ok : bool then
               ⌜freeList s' = freeList s ∧ kRunSize ≤ bumpEnd s' - bumpCursor s' ∧ bumpCursor s' ≠ 0⌝ ∗ bump_res s'
             else ⌜s' = s ∧ os_refused⌝) -∗ Q (ok, s')) ⊢ wp (refill s) Q.
Proof.
  pose proof os_page_bounds as [Hp _]. iIntros "HQ".
  assert (kRunSize + os_page - 1 < W64) by (rewrite W64_eq; unfold kRunSize; lia).
  destruct (roundToPages_bounds kRunSize) as [? _]; [done|done|].
  iApply wp_bind. iApply wp_bind. iApply wp_map; [done|done|]. iIntros (r) "H". iApply wp_ret.
  iDestruct "H" as "[[-> %Href]|[%Hr H]]".
  - simpl. iApply wp_ret. by iApply ("HQ" $! false).
  - destruct Hr as [(?&?&?&?&?) ?]. unfold valid; simpl.
    rewrite (proj2 (Z.eqb_neq _ 0)); [|lia]. simpl. iApply wp_ret. iApply ("HQ" $! true).
    unfold region_data, region_size, bump_res. cbn [region_ bumpCursor bumpEnd freeList].
    iSplit; [iPureIntro; split_and!; [done|lia|lia]|]. iRight.
    iSplit; [iPureIntro; split_and!; try lia; by apply page_mod_16|].
    rewrite raw_intro length_replicate. 
    by replace (data r + SystemMemory.size r - data r) with (Z.of_nat (Z.to_nat (SystemMemory.size r))) by lia.
Qed.

Lemma bump_res_take stride s :
  0 < stride → stride mod 16 = 0 → bumpCursor s ≠ 0 → stride ≤ bumpEnd s - bumpCursor s →
  bump_res s ⊢ block_res stride (bump s stride).1 ∗ bump_res (bump s stride).2.
Proof.
  intros Hs Hm Hn Hfit. iIntros "[%|[%Hb H]]"; [done|]. simpl.
  rewrite (raw_take (bumpCursor s) stride); [|lia]. iDestruct "H" as "[H1 H2]".
  iFrame "H1". iSplit; [iPureIntro; lia|]. iRight. simpl. iSplit.
  - iPureIntro. split_and!; try lia. rewrite -Zplus_mod_idemp_r Hm. align_lia.
  - by replace (bumpEnd s - (bumpCursor s + stride)) with (bumpEnd s - bumpCursor s - stride) by lia.
Qed.

(** The outcome of taking one block from a shard whose free blocks are [blocks]:
    the head of the free list if there is one, else a fresh block or null. *)
Definition take_post `{!OS} (stride : Z) (blocks : list Z) (b : Z) (s' : Shard) : heapPropI :=
  shard_inv stride s' (drop 1 blocks) ∗
  match blocks with
  | b' :: _ => ⌜b = b' ∧ b ≠ 0⌝ ∗ block_res stride b
  | [] => ⌜b = 0 ∧ os_refused⌝ ∨ ⌜b ≠ 0⌝ ∗ block_res stride b
  end.

Lemma wp_takeBlock stride s blocks Q :
  8 ≤ stride ≤ kRunSize → stride mod 16 = 0 →
  shard_inv stride s blocks ∗ (∀ b s', take_post stride blocks b s' -∗ Q (b, s')) ⊢
  wp (takeBlock s stride) Q.
Proof.
  intros Hst Hm. iIntros "[(Hl & Hbs & Hbump) HQ]". iApply wp_bind. iApply wp_pop. iFrame "Hl".
  iIntros (b l') "H". destruct blocks as [|b' blocks].
  - iDestruct "H" as "[[-> ->] Hl]". simpl (negb _).
    assert (set_freeList s (freeList s) = s) as -> by (by destruct s). cbv iota.
    destruct ((bumpCursor s =? 0) || (wrap64 (bumpEnd s - bumpCursor s) <? stride)) eqn:E.
    + iApply wp_bind. iApply wp_refill. iIntros ([] s') "H".
      * iDestruct "H" as "[(%Hl & %Hfit & %Hn) Hb]". simpl. iApply wp_ret.
        rewrite (bump_res_take stride s'); [|lia|done|done|lia]. iDestruct "Hb" as "[Hb Hb']".
        iDestruct "Hb" as "[% Hb]". iDestruct (raw_range with "Hb") as %?; [lia|].
        iApply "HQ". iSplitR "Hb"; [|iRight; iSplit; [iPureIntro; lia|by iFrame]].
        iFrame. simpl. by rewrite Hl.
      * iDestruct "H" as %[-> ?]. simpl. iApply wp_ret. iApply "HQ". iSplitL; [|by iLeft]. iFrame.
    + apply orb_false_iff in E as [E1%Z.eqb_neq E2%Z.ltb_ge]. iApply wp_ret.
      iAssert (⌜stride ≤ bumpEnd s - bumpCursor s⌝)%I as %Hfit.
      { iDestruct "Hbump" as "[%|[%Hb _]]"; [done|]. iPureIntro.
        rewrite wrap64_small in E2; [done|]. unfold in64. lia. }
      rewrite (bump_res_take stride s); [|lia|done|done|lia]. iDestruct "Hbump" as "[Hb Hb']".
      iDestruct "Hb" as "[% Hb]". iDestruct (raw_range with "Hb") as %?; [lia|].
      iApply "HQ". iSplitR "Hb"; [|iRight; iSplit; [iPureIntro; lia|by iFrame]]. iFrame.
  - iDestruct "H" as "([-> %Hne] & Hl & Hb)". rewrite (proj2 (Z.eqb_neq _ _) Hne). simpl.
    iApply wp_ret. iApply "HQ". simpl. iDestruct "Hbs" as "[Hb' Hbs]".
    iSplitR "Hb Hb'"; [iFrame|]. iSplit; [done|].
    iApply block_res_split; [lia|]. iFrame.
Qed.

Lemma wp_take_batch stride n s blocks Q :
  8 ≤ stride ≤ kRunSize → stride mod 16 = 0 →
  shard_inv stride s blocks ∗
  (∀ out s', ⌜length out ≤ n ∧ (out = [] → n = O ∨ os_refused)⌝%nat -∗
             ⌜take (length out) blocks = take (length blocks) out⌝ -∗
             shard_inv stride s' (drop n blocks) -∗
             ([∗ list] b ∈ out, ⌜b ≠ 0⌝ ∗ block_res stride b) -∗ Q (out, s')) ⊢
  wp (take_batch s stride n) Q.
Proof.
  intros Hst Hm. revert s blocks Q. induction n as [|n IH]; intros s blocks Q; simpl.
  - iIntros "[H HQ]". iApply wp_ret. iApply ("HQ" with "[] [] H [//]"); iPureIntro; [split; auto|].
    simpl. by rewrite take_nil.
  - iIntros "[H HQ]". iApply wp_bind. iApply wp_takeBlock; [done|done|]. iFrame "H".
    iIntros (b s') "[Hs Hb]". destruct blocks as [|b' blocks]; simpl.
    + iDestruct "Hb" as "[[-> %Href]|[%Hne Hb]]".
      * simpl. iApply wp_ret. iApply ("HQ" with "[] [] Hs [//]"); iPureIntro; [split; [simpl; lia|auto]|done].
      * rewrite (proj2 (Z.eqb_neq _ _) Hne). iApply wp_bind. iApply IH. iFrame "Hs".
        iIntros (out s'') "%H1 %H2 Hs Hout". iApply wp_ret.
        iApply ("HQ" with "[] [] [Hs] [Hb Hout]"); simpl.
        { iPureIntro. split; [lia|done]. } { done. } { by rewrite drop_nil. } { by iFrame. }
    + iDestruct "Hb" as "[[-> %Hne] Hb]". rewrite (proj2 (Z.eqb_neq _ _) Hne).
      iApply wp_bind. iApply IH. iFrame "Hs". iIntros (out s'') "%H1 %H2 Hs Hout". iApply wp_ret.
      iApply ("HQ" with "[] [] Hs [Hb Hout]"); simpl.
      { iPureIntro. split; [lia|done]. } { iPureIntro. by f_equal. } { by iFrame. }
Qed.

Lemma pools_inv_acc p A c :
  0 ≤ c < kClassCount →
  pools_inv p A ⊢ ∃ s blocks stride,
    ⌜shards_ p !! Z.to_nat c = Some s ∧ A !! Z.to_nat c = Some blocks ∧
     blockStride c = Some stride⌝ ∗
    shard_inv stride s blocks ∗
    (∀ s' blocks', shard_inv stride s' blocks' -∗ pools_inv (set_shard p c s') (set_free A c blocks')).
Proof.
  intros Hc. iIntros "[%Hlen H]". iDestruct (big_sepL2_length with "H") as %HlenA.
  unfold kClassCount in *.
  destruct (lookup_lt_is_Some_2 (shards_ p) (Z.to_nat c)) as [s Hs]; [lia|].
  destruct (lookup_lt_is_Some_2 A (Z.to_nat c)) as [blocks Hbl]; [lia|].
  iDestruct (big_sepL2_insert_acc with "H") as "[(%st & %Hst & Hs) Hclose]"; [done..|].
  rewrite Z2Nat.id in Hst; [|lia].
  iExists s, blocks, st. iSplit; [done|]. iFrame "Hs". iIntros (s' blocks') "Hs".
  iSplit; [iPureIntro; simpl; by rewrite length_insert|]. iApply "Hclose". iExists st.
  iFrame. by rewrite Z2Nat.id; [|lia].
Qed.

(** What an allocation from class [c] returns: null, or a block of the class. *)
Definition pool_block (c b : Z) : heapPropI :=
  ⌜b = 0 ∧ os_refused⌝ ∨ ∃ stride, ⌜b ≠ 0 ∧ blockStride c = Some stride⌝ ∗ block_res stride b.

Lemma wp_get_shard p c s Q : shards_ p !! Z.to_nat c = Some s → Q s ⊢ wp (get_shard p c) Q.
Proof. intros Hs. by apply wp_expect. Qed.

Lemma stride_ok c stride :
  0 ≤ c < kClassCount → blockStride c = Some stride → 8 ≤ stride ≤ kRunSize ∧ stride mod 16 = 0.
Proof.
  intros Hc Hst. destruct (blockStride_spec c Hc) as (st&sz&?&?&?&?&?). simplify_eq.
  unfold kRunSize. lia.
Qed.

Lemma wp_allocateBlock p A c Q :
  0 ≤ c < kClassCount →
  pools_inv p A ∗
  (∀ b p' blocks, ⌜A !! Z.to_nat c = Some blocks ∧ (blocks ≠ [] → head blocks = Some b)⌝ -∗
     pools_inv p' (set_free A c (drop 1 blocks)) -∗ pool_block c b -∗ Q (b, p')) ⊢
  wp (allocateBlock p c) Q.
Proof.
  intros Hc. iIntros "[H HQ]".
  iDestruct (pools_inv_acc with "H") as (s blocks stride (Hs&HA&Hst)) "[Hs Hclose]"; [done|].
  destruct (stride_ok c stride Hc Hst) as [??].
  iApply wp_bind. iApply wp_get_shard; [done|]. iApply wp_bind. iApply wp_expect; [done|].
  iApply wp_bind. iApply wp_takeBlock; [done|done|]. iFrame "Hs". iIntros (b s') "[Hs Hb]".
  iAssert (⌜blocks ≠ [] → head blocks = Some b⌝)%I as %Hhd.
  { destruct blocks as [|b' blocks]; [by iPureIntro|]. by iDestruct "Hb" as "[[-> _] _]". }
  iApply wp_ret. iApply ("HQ" with "[//] [Hs Hclose] [Hb]").
  - by iApply "Hclose".
  - destruct blocks as [|b' blocks].
    + iDestruct "Hb" as "[[-> %Href]|[%Hne Hb]]"; [by iLeft|]. iRight. iExists stride. by iFrame.
    + iDestruct "Hb" as "[[-> %Hne] Hb]". iRight. iExists stride. by iFrame.
Qed.

(** Freeing needs only the first word of the block; the rest of it can be handed
    over afterwards, so that a caller may go on reading the block's header. *)
Lemma wp_freeBlock_hole p A c stride b v Q :
  0 ≤ c < kClassCount → blockStride c = Some stride →
  pools_inv p A ∗ b ↦64 v ∗
  (∀ p' blocks, ⌜A !! Z.to_nat c = Some blocks⌝ -∗
     (free_body stride b -∗ pools_inv p' (set_free A c (b :: blocks))) -∗ Q p') ⊢
  wp (freeBlock p c b) Q.
Proof.
  intros Hc Hst. iIntros "(H & Hb & HQ)".
  iDestruct (pools_inv_acc with "H") as (s blocks stride' (Hs&HA&Hst')) "[(Hl & Hbs & Hbump) Hclose]";
    [done|]. simplify_eq.
  iApply wp_bind. iApply wp_get_shard; [done|]. iApply wp_bind. iApply wp_push. iFrame "Hl Hb".
  iIntros (l') "Hl". iApply wp_ret. iApply "HQ"; [done|]. iIntros "Hb". iApply "Hclose". by iFrame.
Qed.

Lemma wp_freeBlock p A c stride b Q :
  0 ≤ c < kClassCount → blockStride c = Some stride →
  pools_inv p A ∗ block_res stride b ∗
  (∀ p' blocks, ⌜A !! Z.to_nat c = Some blocks⌝ -∗ pools_inv p' (set_free A c (b :: blocks)) -∗ Q p') ⊢
  wp (freeBlock p c b) Q.
Proof.
  intros Hc Hst. destruct (stride_ok c stride Hc Hst) as [??].
  rewrite block_res_split; [|lia]. iIntros "(H & [(%v & Hb) Hbody] & HQ)".
  iApply wp_freeBlock_hole; [done|done|]. iFrame "H Hb". iIntros (p' blocks HA) "Hp".
  iApply "HQ"; [done|]. by iApply "Hp".
Qed.

Lemma wp_allocateBatch p A c stride n Q :
  0 ≤ c < kClassCount → blockStride c = Some stride →
  pools_inv p A ∗
  (∀ out p' blocks, ⌜A !! Z.to_nat c = Some blocks⌝ -∗
     ⌜length out ≤ n ∧ (out = [] → n = O ∨ os_refused)⌝%nat -∗
     ⌜take (length out) blocks = take (length blocks) out⌝ -∗
     pools_inv p' (set_free A c (drop n blocks)) -∗
     ([∗ list] b ∈ out, ⌜b ≠ 0⌝ ∗ block_res stride b) -∗ Q (out, p')) ⊢
  wp (allocateBatch p c n) Q.
Proof.
  intros Hc Hst. destruct (stride_ok c stride Hc Hst) as [??]. iIntros "[H HQ]".
  iDestruct (pools_inv_acc with "H") as (s blocks stride' (Hs&HA&Hst')) "[Hs Hclose]"; [done|].
  simplify_eq.
  iApply wp_bind. iApply wp_get_shard; [done|]. iApply wp_bind. iApply wp_expect; [done|].
  iApply wp_bind. iApply wp_take_batch; [done|done|]. iFrame "Hs". iIntros (out s') "%H1 %H2 Hs Hout".
  iApply wp_ret. iApply ("HQ" with "[//] [//] [//] [Hs Hclose] Hout"). by iApply "Hclose".
Qed.

Lemma wp_freeBatch p A c stride bs Q :
  0 ≤ c < kClassCount → blockStride c = Some stride →
  pools_inv p A ∗ ([∗ list] b ∈ bs, block_res stride b) ∗
  (∀ p' blocks, ⌜A !! Z.to_nat c = Some blocks⌝ -∗
     pools_inv p' (set_free A c (rev bs ++ blocks)) -∗ Q p') ⊢
  wp (freeBatch p c bs) Q.
Proof.
  intros Hc Hst. destruct (stride_ok c stride Hc Hst) as [??]. iIntros "(H & Hbs & HQ)".
  iDestruct (pools_inv_acc with "H") as (s blocks stride' (Hs&HA&Hst')) "[(Hl & Hfr & Hbump) Hclose]";
    [done|]. simplify_eq.
  iAssert (([∗ list] b ∈ bs, ∃ v, b ↦64 v) ∗ [∗ list] b ∈ rev bs, free_body stride b)%I
    with "[Hbs]" as "[Hw Hbody]".
  { rewrite -(Permutation_rev bs) -big_sepL_sep. iApply (big_sepL_impl with "Hbs").
    iIntros "!>" (k b _) "Hb". rewrite block_res_split; [done|lia]. }
  iApply wp_bind. iApply wp_get_shard; [done|]. iApply wp_bind. iApply wp_push_all.
  iFrame "Hl Hw". iIntros (l') "Hl". iApply wp_ret. iApply "HQ"; [done|]. iApply "Hclose".
  iFrame.
Qed.
End proofs.
