(* ===== verification/ThreadCache.v ===== *)
(** src/src/ThreadCache.hpp and ThreadCache.cpp: the per-thread cache of free
    blocks in front of the shared pools, refilled and flushed in batches. *)

From iris.proofmode Require Import proofmode.
From S2P Require Import Prelude.
From S2P Require Import HeapProp.
From S2P Require Import Memory.
From S2P Require Import Logic.
From S2P Require Import SystemMemory.
From S2P Require Import SizeClassTable.
From S2P Require Import PoolAllocator.

Definition kCapacity : Z := 64.
Definition kBatchSize : Z := 16.

(** [struct ClassCache]: the array of slots and the number in use. *)
Record ClassCache := MkClassCache { slots : list Z; count : Z }.
(** [central_] is the identity of the [CentralState] the [weak_ptr] refers to. *)
Record ThreadCache := MkThreadCache { central_ : Z; caches_ : list ClassCache }.

Definition ClassCache_init : ClassCache := MkClassCache (replicate (Z.to_nat kCapacity) 0) 0.
Definition ThreadCache_init (central : Z) : ThreadCache :=
  MkThreadCache central (replicate (Z.to_nat kClassCount) ClassCache_init).

Definition get_cache (t : ThreadCache) (c : Z) : cmd ClassCache := expect (caches_ t !! Z.to_nat c).
Definition set_cache (t : ThreadCache) (c : Z) (cc : ClassCache) : ThreadCache :=
  MkThreadCache (central_ t) (<[Z.to_nat c := cc]> (caches_ t)).
(** [slots[i] = b]; past the end of the array it is undefined. *)
Definition set_slot (cc : ClassCache) (i b : Z) : cmd (list Z) :=
  if bool_decide (Z.to_nat i < length (slots cc))%nat then mret (<[Z.to_nat i := b]> (slots cc)) else fault.

Section ThreadCache.
Context `{HOS : !OS}.

(** The block (0 when the pools are exhausted), the cache and the pools. *)
Definition allocateBlock (t : ThreadCache) (c : Z) (pools : PoolAllocator) :
    cmd (Z * ThreadCache * PoolAllocator) :=
  cache ← get_cache t c;
  r ← (if count cache =? 0 then
         r ← allocateBatch pools c (Z.to_nat kBatchSize);
         let '(out, pools) := (r : list Z * PoolAllocator) in
         mret (MkClassCache (out ++ drop (length out) (slots cache)) (Z.of_nat (length out)), pools)
       else mret (cache, pools));
  let '(cache, pools) := (r : ClassCache * PoolAllocator) in
  if count cache =? 0 then mret (0, set_cache t c cache, pools) else
  let cache := MkClassCache (slots cache) (count cache - 1) in
  block ← expect (slots cache !! Z.to_nat (count cache));
  mret (block, set_cache t c cache, pools).

Definition freeBlock (t : ThreadCache) (c block : Z) (pools : PoolAllocator) :
    cmd (ThreadCache * PoolAllocator) :=
  cache ← get_cache t c;
  r ← (if count cache =? kCapacity then
         let keep := kCapacity - kBatchSize in
         pools ← freeBatch pools c (take (Z.to_nat kBatchSize) (drop (Z.to_nat keep) (slots cache)));
         mret (MkClassCache (slots cache) keep, pools)
       else mret (cache, pools));
  let '(cache, pools) := (r : ClassCache * PoolAllocator) in
  sl ← set_slot cache (count cache) block;
  mret (set_cache t c (MkClassCache sl (count cache + 1)), pools).

(** The destructor: [central] is the result of [central_.lock()]. *)
Fixpoint flush_all (c : Z) (caches : list ClassCache) (pools : PoolAllocator) :
    cmd (list ClassCache * PoolAllocator) :=
  match caches with
  | [] => mret ([], pools)
  | cache :: caches =>
      r ← (if 0 <? count cache then
             pools ← freeBatch pools c (take (Z.to_nat (count cache)) (slots cache));
             mret (MkClassCache (slots cache) 0, pools)
           else mret (cache, pools));
      let '(cache, pools) := (r : ClassCache * PoolAllocator) in
      r ← flush_all (c + 1) caches pools;
      let '(caches, pools) := (r : list ClassCache * PoolAllocator) in
      mret (cache :: caches, pools)
  end.
Definition destroy (t : ThreadCache) (central : option PoolAllocator) :
    cmd (ThreadCache * option PoolAllocator) :=
  match central with
  | None => mret (t, None)
  | Some pools =>
      r ← flush_all 0 (caches_ t) pools;
      let '(caches, pools) := (r : list ClassCache * PoolAllocator) in
      mret (MkThreadCache (central_ t) caches, Some pools)
  end.
End ThreadCache.

(** ** Invariant *)

(** The blocks a class cache holds, bottom first. *)
Definition cached (cc : ClassCache) : list Z := take (Z.to_nat (count cc)) (slots cc).
Definition class_cache_ok (cc : ClassCache) : Prop :=
  length (slots cc) = Z.to_nat kCapacity ∧ 0 ≤ count cc ≤ kCapacity.
Definition class_cache_inv (c : Z) (cc : ClassCache) : heapPropI :=
  ⌜class_cache_ok cc⌝ ∗
  ∃ stride, ⌜blockStride c = Some stride⌝ ∗ [∗ list] b ∈ cached cc, ⌜b ≠ 0⌝ ∗ block_res stride b.
Definition cache_inv (t : ThreadCache) : heapPropI :=
  ⌜length (caches_ t) = Z.to_nat kClassCount⌝ ∗
  [∗ list] c ↦ cc ∈ caches_ t, class_cache_inv (Z.of_nat c) cc.
(** The cached blocks of class [c]. *)
Definition cached_in (t : ThreadCache) (c : Z) : list Z :=
  default [] (cached <$> caches_ t !! Z.to_nat c).

Section proofs.
Context `{HOS : !OS, HL : !OSLaws}.

Lemma cache_inv_init central : ⊢ cache_inv (ThreadCache_init central).
Proof.
  iSplit; [iPureIntro; apply length_replicate|]. cbn [caches_ ThreadCache_init].
  iApply big_sepL_intro. iIntros "!>" (c cc Hcc). apply lookup_replicate in Hcc as [-> Hc].
  destruct (blockStride_spec (Z.of_nat c)) as (st&sz&Hst&_); [unfold kClassCount in *; lia|].
  iSplit; [iPureIntro; split; [apply length_replicate|by vm_compute]|]. iExists st.
  iSplit; [done|]. by iApply big_sepL_nil.
Qed.

Lemma cache_inv_acc t c :
  0 ≤ c < kClassCount →
  cache_inv t ⊢ ∃ cc, ⌜caches_ t !! Z.to_nat c = Some cc⌝ ∗ class_cache_inv c cc ∗
    (∀ cc', class_cache_inv c cc' -∗ cache_inv (set_cache t c cc')).
Proof.
  intros Hc. iIntros "[%Hlen H]". unfold kClassCount in *.
  destruct (lookup_lt_is_Some_2 (caches_ t) (Z.to_nat c)) as [cc Hcc]; [lia|].
  iDestruct (big_sepL_insert_acc with "H") as "[Hc Hclose]"; [done|].
  rewrite Z2Nat.id; [|lia]. iExists cc. iSplit; [done|]. iFrame "Hc". iIntros (cc') "Hc".
  iSplit; [iPureIntro; simpl; by rewrite length_insert|]. by iApply "Hclose".
Qed.

Lemma cached_in_set t c cc :
  is_Some (caches_ t !! Z.to_nat c) → cached_in (set_cache t c cc) c = cached cc.
Proof.
  intros [cc0 Hcc]. unfold cached_in. simpl. rewrite list_lookup_insert_eq //.
  by eapply lookup_lt_Some.
Qed.

(** Taking the top of a non-empty class cache. *)
Lemma class_cache_pop cc :
  class_cache_ok cc → count cc ≠ 0 →
  ∃ b, slots cc !! Z.to_nat (count cc - 1) = Some b ∧
       cached cc = cached (MkClassCache (slots cc) (count cc - 1)) ++ [b] ∧
       class_cache_ok (MkClassCache (slots cc) (count cc - 1)).
Proof.
  intros [Hlen Hcount] Hne. unfold class_cache_ok, cached, kCapacity in *. simpl.
  destruct (lookup_lt_is_Some_2 (slots cc) (Z.to_nat (count cc - 1))) as [b Hb]; [lia|].
  exists b. split_and!; try done; try lia.
  replace (Z.to_nat (count cc)) with (S (Z.to_nat (count cc - 1))) by lia. by apply take_S_r.
Qed.

Lemma wp_cache_allocateBlock t p A c Q :
  0 ≤ c < kClassCount →
  cache_inv t ∗ pools_inv p A ∗
  (∀ b t' p' A', ⌜(∀ l b', cached_in t c = l ++ [b'] → b = b' ∧ cached_in t' c = l ∧ p' = p) ∧
                  central_ t' = central_ t⌝ -∗
     cache_inv t' -∗ pools_inv p' A' -∗ pool_block c b -∗ Q (b, t', p')) ⊢
  wp (allocateBlock t c p) Q.
Proof.
  intros Hc. iIntros "(Ht & Hp & HQ)".
  iDestruct (cache_inv_acc with "Ht") as (cc Hcc) "[(%Hok & %stride & %Hst & Hbs) Hclose]"; [done|].
  assert (cached_in t c = cached cc) as Hin by (unfold cached_in; by rewrite Hcc).
  rewrite Hin. iApply wp_bind. iApply wp_expect; [done|]. iApply wp_bind.
  set (Ψ := (λ r : ClassCache * PoolAllocator,
    ∃ A', ⌜class_cache_ok r.1 ∧ (count cc ≠ 0 → r.1 = cc ∧ r.2 = p) ∧ (count r.1 = 0 → os_refused)⌝ ∗ pools_inv r.2 A' ∗
    [∗ list] b ∈ cached r.1, ⌜b ≠ 0⌝ ∗ block_res stride b)%I).
  iApply (wp_wand _ Ψ with "[Hp Hbs]").
  { destruct (Z.eqb_spec (count cc) 0) as [Hz|Hnz].
    - iApply wp_bind. iApply wp_allocateBatch; [done|done|]. iFrame "Hp".
      iIntros (out p' blocks) "_ [%Hout %Href] _ Hp Hout". iApply wp_ret. iExists _.
      destruct Hok as [Hlen _]. unfold kBatchSize, kCapacity in *.
      iSplit; [iPureIntro; split|].
      { split; unfold kCapacity; simpl; [rewrite length_app length_drop; lia|lia]. }
      { split; [done|]. simpl. intros Hz'. destruct out; [|done].
        destruct Href as [|]; [done|lia|done]. }
      iFrame "Hp". unfold cached. simpl. by rewrite Nat2Z.id take_app_length.
    - iApply wp_ret. iExists A. iFrame. iPureIntro. by split_and!. }
  iIntros ([cc' p']) "(%A' & (%Hok' & %Hsame & %Href) & Hp & Hbs)". simpl in *.
  destruct (Z.eqb_spec (count cc') 0) as [Hz|Hnz].
  - iApply wp_ret. iApply ("HQ" with "[] [Hclose Hbs] Hp"); [|iApply "Hclose"|iLeft; iPureIntro; auto].
    + iPureIntro. split; [|done]. intros l b' Hl. exfalso.
      destruct (decide (count cc = 0)) as [H0|H0].
      * unfold cached in Hl. rewrite H0 in Hl. by destruct l.
      * destruct (Hsame H0) as [-> _]. done.
    + iSplit; [done|]. iExists stride. by iFrame.
  - destruct (class_cache_pop cc' Hok' Hnz) as (b&Hb&Hcached&Hok''). rewrite Hcached.
    iDestruct (big_sepL_snoc with "Hbs") as "[Hbs [%Hbn Hb]]".
    iApply wp_bind. iApply wp_expect; [done|]. iApply wp_ret.
    iApply ("HQ" with "[] [Hclose Hbs] Hp").
    + iPureIntro. split; [|done]. intros l b' Hl.
      assert (count cc ≠ 0) as H0.
      { intros H0. unfold cached in Hl. rewrite H0 in Hl. by destruct l. }
      destruct (Hsame H0) as [-> ->]. rewrite Hcached in Hl.
      apply app_inj_tail in Hl as [? ?]. split_and!; [done| |done].
      rewrite cached_in_set //.
    + iApply "Hclose". iSplit; [done|]. iExists stride. by iFrame.
    + iRight. iExists stride. by iFrame.
Qed.

(** As for the pools, the block itself may be handed over after the call. *)
Lemma wp_cache_freeBlock_hole t p A c stride b Q :
  0 ≤ c < kClassCount → blockStride c = Some stride → b ≠ 0 →
  cache_inv t ∗ pools_inv p A ∗
  (∀ t' p' A', ⌜(∃ l, cached_in t' c = l ++ [b]) ∧ central_ t' = central_ t⌝ -∗ (block_res stride b -∗ cache_inv t') -∗
     pools_inv p' A' -∗ Q (t', p')) ⊢
  wp (freeBlock t c b p) Q.
Proof.
  intros Hc Hst Hb. iIntros "(Ht & Hp & HQ)".
  iDestruct (cache_inv_acc with "Ht") as (cc Hcc) "[(%Hok & %stride' & %Hst' & Hbs) Hclose]"; [done|].
  simplify_eq. iApply wp_bind. iApply wp_expect; [done|]. iApply wp_bind.
  set (Ψ := (λ r : ClassCache * PoolAllocator,
    ∃ A', ⌜class_cache_ok r.1 ∧ count r.1 < kCapacity⌝ ∗ pools_inv r.2 A' ∗
    [∗ list] b ∈ cached r.1, ⌜b ≠ 0⌝ ∗ block_res stride b)%I).
  iApply (wp_wand _ Ψ with "[Hp Hbs]").
  { destruct Hok as [Hlen Hcount]. unfold kBatchSize, kCapacity in *.
    destruct (Z.eqb_spec (count cc) 64) as [Hz|Hnz].
    - unfold cached. rewrite Hz take_ge; [|lia].
      rewrite -{1}(take_drop (Z.to_nat (64 - 16)) (slots cc)).
      iDestruct (big_sepL_app with "Hbs") as "[H1 H2]". iApply wp_bind.
      iApply wp_freeBatch; [done|done|]. iFrame "Hp". iSplitL "H2".
      { rewrite take_ge; [|rewrite length_drop; lia].
        iApply (big_sepL_impl with "H2"). by iIntros "!>" (k x _) "[_ $]". }
      iIntros (p' blocks) "_ Hp". iApply wp_ret. iExists _. iFrame "Hp". simpl.
      unfold class_cache_ok, cached, kCapacity. simpl. iSplit; [iPureIntro; lia|]. iFrame.
    - iApply wp_ret. iExists A. iFrame. iPureIntro. unfold class_cache_ok, kCapacity. simpl. lia. }
  iIntros ([cc' p']) "(%A' & [%Hok' %Hroom] & Hp & Hbs)". simpl in *. clear Ψ.
  destruct Hok' as [Hlen' Hcount']. unfold kCapacity in *.
  iApply wp_bind. unfold set_slot. rewrite bool_decide_eq_true_2; [|lia]. iApply wp_ret.
  assert (cached (MkClassCache (<[Z.to_nat (count cc'):=b]> (slots cc')) (count cc' + 1)) =
          cached cc' ++ [b]) as Hcached.
  { unfold cached. simpl. replace (Z.to_nat (count cc' + 1)) with (S (Z.to_nat (count cc'))) by lia.
    rewrite (take_S_r _ _ b); [|rewrite list_lookup_insert_eq //; lia].
    by rewrite take_insert_ge. }
  iApply wp_ret. iApply ("HQ" with "[] [Hclose Hbs] Hp").
  { iPureIntro. split; [|done]. exists (cached cc'). by rewrite cached_in_set. }
  iIntros "Hb". iApply "Hclose". iSplit.
  { iPureIntro. split; simpl; [by rewrite length_insert|unfold kCapacity; lia]. }
  iExists stride. iSplit; [done|]. rewrite Hcached. iApply big_sepL_snoc. by iFrame.
Qed.

Lemma wp_flush_all caches c p A Q :
  0 ≤ c → c + Z.of_nat (length caches) ≤ kClassCount →
  ([∗ list] i ↦ cc ∈ caches, class_cache_inv (c + Z.of_nat i) cc) ∗ pools_inv p A ∗
  (∀ caches' p' A', ⌜length caches' = length caches ∧ Forall (λ cc, count cc = 0) caches'⌝ -∗
     ([∗ list] i ↦ cc ∈ caches', class_cache_inv (c + Z.of_nat i) cc) -∗
     pools_inv p' A' -∗ Q (caches', p')) ⊢
  wp (flush_all c caches p) Q.
Proof.
  revert c p A Q. induction caches as [|cc caches IH]; intros c p A Q Hc Hlen; simpl.
  - iIntros "(H & Hp & HQ)". iApply wp_ret. iApply ("HQ" $! [] with "[] [//] Hp").
    by iPureIntro.
  - iIntros "([(%Hok & %stride & %Hst & Hbs) H] & Hp & HQ)". rewrite Z.add_0_r in Hst |- *.
    simpl in Hlen. iApply wp_bind.
    set (Ψ := (λ r : ClassCache * PoolAllocator, ∃ A',
      ⌜class_cache_ok r.1 ∧ count r.1 = 0⌝ ∗ pools_inv r.2 A')%I).
    iApply (wp_wand _ Ψ with "[Hp Hbs]").
    { destruct Hok as [Hl Hcount]. destruct (Z.ltb_spec 0 (count cc)) as [Hz|Hnz].
      - iApply wp_bind. iApply wp_freeBatch; [lia|done|]. iFrame "Hp". iSplitL "Hbs".
        { iApply (big_sepL_impl with "Hbs"). by iIntros "!>" (k x _) "[_ $]". }
        iIntros (p' blocks) "_ Hp". iApply wp_ret. iExists _. iFrame "Hp". iPureIntro.
        unfold class_cache_ok. simpl. unfold kCapacity in *. split_and!; try done; lia.
      - iApply wp_ret. iExists A. iFrame "Hp". iPureIntro. split; [done|]. simpl. lia. }
    iIntros ([cc' p']) "(%A' & [%Hok' %H0] & Hp)". simpl in *.
    iApply wp_bind. iApply (IH (c + 1) p' A'); [lia|lia|]. iFrame "Hp". iSplitL "H".
    { iApply (big_sepL_impl with "H"). iIntros "!>" (k x _) "H".
      by replace (c + 1 + Z.of_nat k) with (c + Z.of_nat (S k)) by lia. }
    iIntros (caches' p'' A'') "[%Hl %Hall] H Hp". iApply wp_ret.
    iApply ("HQ" with "[] [H] Hp"); [iPureIntro; split; simpl; [lia|by constructor]|]. simpl.
    iSplitR.
    + iSplit; [done|]. iExists stride. iSplit; [by rewrite Z.add_0_r|]. unfold cached. rewrite H0.
      by iApply big_sepL_nil.
    + iApply (big_sepL_impl with "H"). iIntros "!>" (k x _) "H".
      by replace (c + 1 + Z.of_nat k) with (c + Z.of_nat (S k)) by lia.
Qed.

Lemma wp_destroy t p A Q :
  cache_inv t ∗ pools_inv p A ∗
  (∀ t' p' A', ⌜Forall (λ cc, count cc = 0) (caches_ t')⌝ -∗ cache_inv t' -∗ pools_inv p' A' -∗
     Q (t', Some p')) ⊢
  wp (destroy t (Some p)) Q.
Proof.
  iIntros "([%Hlen Ht] & Hp & HQ)". iApply wp_bind.
  iApply (wp_flush_all _ 0 p A); [lia|unfold kClassCount in *; lia|]. iFrame "Hp". iSplitL "Ht".
  { iApply (big_sepL_impl with "Ht"). iIntros "!>" (k x _) "H". by rewrite Z.add_0_l. }
  iIntros (caches' p' A') "[%Hl %Hall] H Hp". iApply wp_ret. iApply ("HQ" with "[%] [H] Hp"); [done|].
  iSplit; [iPureIntro; simpl; lia|]. simpl. iApply (big_sepL_impl with "H").
  iIntros "!>" (k x _) "H". by rewrite Z.add_0_l.
Qed.
End proofs.
