(* ===== verification/LargeAllocator.v ===== *)
(** src/src/LargeAllocator.hpp and LargeAllocator.cpp: one mapping per large
    allocation, registered under the payload address.  Mapping the region and
    registering it are two atomic actions: the mutex is taken in between. *)

From stdpp Require Import gmap.
From iris.proofmode Require Import proofmode.
From S2P Require Import Prelude.
From S2P Require Import HeapProp.
From S2P Require Import Memory.
From S2P Require Import Logic.
From S2P Require Import SystemMemory.
From S2P Require Import Prog.

Definition kPayloadOffset : Z := 16.

(** [std::unordered_map<const void*, MappedRegion> regions_]. *)
Record LargeAllocator := MkLarge { regions_ : gmap Z MappedRegion }.
Definition LargeAllocator_init : LargeAllocator := MkLarge ∅.

Section LargeAllocator.
Context `{HOS : !OS}.

(** [regions_.emplace(payload, std::move(region))]: an existing entry stays, and the
    node built for the new one is destroyed. *)
Definition emplace (payload : Z) (region : MappedRegion) (l : LargeAllocator) :
    cmd (() * LargeAllocator) :=
  match regions_ l !! payload with
  | None => mret ((), MkLarge (<[payload := region]> (regions_ l)))
  | Some _ => _ ← reset region; mret ((), l)
  end.

Definition allocate (bytes : Z) : prog LargeAllocator Z :=
  region ← io (MappedRegion_make (bytes +₆₄ kPayloadOffset));
  if negb (valid region) then mret 0 else
  let payload := region_data region + kPayloadOffset in
  _ ← act (emplace payload region);
  mret payload.

(** [regions_.erase(payload) > 0]; erasing runs the region's destructor. *)
Definition erase (payload : Z) (l : LargeAllocator) : cmd (bool * LargeAllocator) :=
  match regions_ l !! payload with
  | None => mret (false, l)
  | Some region => _ ← reset region; mret (true, MkLarge (delete payload (regions_ l)))
  end.
Definition deallocate (payload : Z) : prog LargeAllocator bool := act (erase payload).

Definition contains (payload : Z) : prog LargeAllocator bool :=
  gets (λ l, bool_decide (is_Some (regions_ l !! payload))).

Definition payloadCapacity (payload : Z) : prog LargeAllocator Z :=
  gets (λ l, match regions_ l !! payload with
             | None => 0
             | Some region => region_size region -₆₄ kPayloadOffset
             end).

(** [~LargeAllocator]: the table goes with its regions. *)
Definition LargeAllocator_destroy (l : LargeAllocator) : cmd () :=
  reset_all ((map_to_list (regions_ l)).*2).
End LargeAllocator.

(** ** Invariant: the allocator keeps the sixteen reserved bytes of each region;
    the rest belongs to the client. *)
Definition large_entry `{!OS} (p : Z) (r : MappedRegion) : heapPropI :=
  ⌜region_ok (region_ r) ∧ p = (region_data r + kPayloadOffset)%Z ∧ kPayloadOffset ≤ region_size r⌝ ∗
  raw (region_data r) kPayloadOffset.
Definition large_inv `{!OS} (l : LargeAllocator) : heapPropI :=
  [∗ map] p ↦ r ∈ regions_ l, large_entry p r.

Section proofs.
Context `{HOS : !OS, HL : !OSLaws}.
Implicit Types l : LargeAllocator.

Lemma large_inv_init : ⊢ large_inv LargeAllocator_init.
Proof. unfold large_inv. by rewrite big_sepM_empty. Qed.

Lemma large_inv_fresh l r :
  large_inv l ∗ raw (region_data r) kPayloadOffset ⊢
  ⌜regions_ l !! (region_data r + kPayloadOffset)%Z = None⌝.
Proof.
  iIntros "[H Hr]".
  destruct (regions_ l !! (region_data r + kPayloadOffset)) as [r'|] eqn:E; [|done].
  iDestruct (big_sepM_lookup with "H") as "[(_ & %Heq & _) Hr']"; [done|].
  iDestruct (raw_disjoint_strict with "[$Hr $Hr']") as %Hne; [done|done|].
  iPureIntro. exfalso. apply Hne. lia.
Qed.

Lemma wpp_large_allocate bytes l Φ :
  0 ≤ bytes → bytes + 16 + os_page - 1 < W64 →
  large_inv l ∗
  (∀ p l', large_inv l' -∗
     (⌜p = 0 ∧ l' = l ∧ os_refused⌝ ∨
      ∃ r, ⌜p ≠ 0 ∧ p mod 16 = 0 ∧ regions_ l !! p = None ∧ l' = MkLarge (<[p := r]> (regions_ l)) ∧
            region_ok (region_ r) ∧ p = (region_data r + 16)%Z ∧ bytes + 16 ≤ region_size r⌝ ∗
           raw p (region_size r - 16)) -∗ Φ p l') ⊢
  wpp (allocate bytes) l Φ.
Proof.
  intros Hb Hlt. pose proof os_page_bounds as [? _]. iIntros "[Hl HΦ]". iApply wpp_bind.
  iApply wpp_io. unfold kPayloadOffset. rewrite add64_small; [|unfold in64; lia].
  iApply wp_bind. iApply wp_map; [lia|lia|]. iIntros (r) "H". iApply wp_ret.
  destruct (roundToPages_bounds (bytes + 16)) as [? _]; [lia|lia|].
  iDestruct "H" as "[[-> %Href]|[[%Hr %Hsz] H]]".
  - iApply wpp_ret. iApply ("HΦ" with "Hl"). by iLeft.
  - pose proof Hr as (?&?&?&?&?). unfold valid. cbn [region_]. rewrite (proj2 (Z.eqb_neq _ 0)); [|lia].
    cbn [negb].
    rewrite raw_intro length_replicate Z2Nat.id; [|lia].
    rewrite (raw_take (data r) 16 (size r)); [|lia]. iDestruct "H" as "[Hres H]".
    iDestruct (large_inv_fresh l (Mapped r) with "[$Hl $Hres]") as %Hfresh.
    unfold region_data, kPayloadOffset in Hfresh. simpl in Hfresh.
    iApply wpp_bind. iApply wpp_act1. unfold emplace, region_data. simpl. rewrite Hfresh.
    iApply wp_ret. simpl. iApply wpp_ret. iApply ("HΦ" with "[Hl Hres]").
    + unfold large_inv. simpl. rewrite big_sepM_insert //. iFrame "Hl".
      iSplit; [|iExact "Hres"]. iPureIntro. unfold region_data, region_size, kPayloadOffset. simpl.
      split_and!; [done|done|lia].
    + iRight. iExists (Mapped r). unfold region_data, region_size. simpl. iFrame "H". iPureIntro.
      split_and!; try done; try lia.
      rewrite -Zplus_mod_idemp_l (page_mod_16 (data r)) //.
Qed.

Lemma wpp_large_deallocate l p r Φ :
  regions_ l !! p = Some r →
  large_inv l ∗ raw p (region_size r - 16) ∗
  (large_inv (MkLarge (delete p (regions_ l))) -∗ Φ true (MkLarge (delete p (regions_ l)))) ⊢
  wpp (deallocate p) l Φ.
Proof.
  intros Hr. iIntros "(Hl & Hp & HΦ)". iApply wpp_act1. unfold erase. rewrite Hr.
  iDestruct (big_sepM_delete with "Hl") as "[[(%Hok & %Hp & %Hsz) Hres] Hl]"; [done|].
  unfold kPayloadOffset in *. iApply wp_bind. iApply wp_reset; [done|].
  iSplitL "Hp Hres".
  - change (data (region_ r)) with (region_data r). change (size (region_ r)) with (region_size r).
    iApply (raw_take _ 16); [lia|]. rewrite -Hp. iFrame.
  - iApply wp_ret. simpl. by iApply "HΦ".
Qed.
Lemma wpp_large_deallocate_unknown l p Φ :
  regions_ l !! p = None → Φ false l ⊢ wpp (deallocate p) l Φ.
Proof. intros Hr. iIntros "HΦ". iApply wpp_act1. unfold erase. rewrite Hr. by iApply wp_ret. Qed.
Lemma wpp_large_payloadCapacity l p r Φ :
  regions_ l !! p = Some r →
  large_inv l ∗ (large_inv l -∗ Φ (region_size r - 16) l) ⊢ wpp (payloadCapacity p) l Φ.
Proof.
  intros Hr. iIntros "[Hl HΦ]". iApply wpp_gets. rewrite Hr.
  iAssert ⌜region_ok (region_ r) ∧ kPayloadOffset ≤ region_size r⌝%I as %[(?&?&?&?&?) ?].
  { by iDestruct (big_sepM_lookup with "Hl") as "[(% & % & %) _]". }
  unfold kPayloadOffset in *. rewrite sub64_small; [by iApply "HΦ"|].
  unfold region_data, region_size, in64 in *. lia.
Qed.
End proofs.
