(* ===== verification/StatisticsCollector.v ===== *)
(** src/include/MAlloc/Statistics.hpp and src/src/StatisticsCollector.hpp: eight
    relaxed atomic counters.  Every [fetch_add], [fetch_sub], [load] and
    compare-exchange is an action of its own. *)

From iris.proofmode Require Import proofmode.
From Stdlib Require Import QArith.QArith.
From S2P Require Import Prelude.
From S2P Require Import HeapProp.
From S2P Require Import Memory.
From S2P Require Import Logic.
From S2P Require Import Prog.

Open Scope Z_scope.

Record StatisticsCollector := MkStats {
  allocationCount_ : Z;
  freeCount_ : Z;
  activeAllocations_ : Z;
  liveRequested_ : Z;
  liveReserved_ : Z;
  peakUsage_ : Z;
  allocatedBytes_ : Z;
  freedBytes_ : Z
}.
Definition StatisticsCollector_init : StatisticsCollector := MkStats 0 0 0 0 0 0 0 0.

(** The counters, by name, and their access. *)
Inductive counter :=
  | AllocationCount | FreeCount | ActiveAllocations | LiveRequested | LiveReserved
  | PeakUsage | AllocatedBytes | FreedBytes.
#[global] Instance counter_eq_dec : EqDecision counter.
Proof. solve_decision. Defined.
Definition get_counter (c : counter) (s : StatisticsCollector) : Z :=
  match c with
  | AllocationCount => allocationCount_ s
  | FreeCount => freeCount_ s
  | ActiveAllocations => activeAllocations_ s
  | LiveRequested => liveRequested_ s
  | LiveReserved => liveReserved_ s
  | PeakUsage => peakUsage_ s
  | AllocatedBytes => allocatedBytes_ s
  | FreedBytes => freedBytes_ s
  end.
Definition set_counter (c : counter) (v : Z) (s : StatisticsCollector) : StatisticsCollector :=
  let 'MkStats a b d e f g h i := s in
  match c with
  | AllocationCount => MkStats v b d e f g h i
  | FreeCount => MkStats a v d e f g h i
  | ActiveAllocations => MkStats a b v e f g h i
  | LiveRequested => MkStats a b d v f g h i
  | LiveReserved => MkStats a b d e v g h i
  | PeakUsage => MkStats a b d e f v h i
  | AllocatedBytes => MkStats a b d e f g v i
  | FreedBytes => MkStats a b d e f g h v
  end.

Definition fetch_add (c : counter) (v : Z) : prog StatisticsCollector () :=
  modify (λ s, set_counter c (get_counter c s +₆₄ v) s).
Definition fetch_sub (c : counter) (v : Z) : prog StatisticsCollector () :=
  modify (λ s, set_counter c (get_counter c s -₆₄ v) s).
Definition atomic_load (c : counter) : prog StatisticsCollector Z := gets (get_counter c).
(** [compare_exchange_weak(expected, desired)]: whether it stored, and the new
    value of [expected].  A spurious failure leaves both the counter and
    [expected] as they were, so the loop below only repeats the same test. *)
Definition compare_exchange (c : counter) (expected desired : Z) :
    prog StatisticsCollector (bool * Z) :=
  act (λ s, if get_counter c s =? expected
            then mret ((true, expected), set_counter c desired s)
            else mret ((false, get_counter c s), s)).

(** [while (current > peak && !compare_exchange_weak(peak, current)) {}]: [fuel]
    bounds the number of compare-exchanges; a thread that runs alone needs one. *)
Fixpoint updatePeak_loop (fuel : nat) (current peak : Z) : prog StatisticsCollector () :=
  if peak <? current then
    match fuel with
    | O => io diverge
    | S fuel =>
        r ← compare_exchange PeakUsage peak current;
        if r.1 : bool then mret () else updatePeak_loop fuel current r.2
    end
  else mret ().
Definition updatePeak (fuel : nat) (current : Z) : prog StatisticsCollector () :=
  peak ← atomic_load PeakUsage;
  updatePeak_loop fuel current peak.

Definition recordAllocation (fuel : nat) (requested reserved : Z) : prog StatisticsCollector () :=
  _ ← fetch_add AllocationCount 1;
  _ ← fetch_add AllocatedBytes requested;
  _ ← fetch_add LiveRequested requested;
  _ ← fetch_add LiveReserved reserved;
  _ ← fetch_add ActiveAllocations 1;
  current ← atomic_load LiveRequested;
  updatePeak fuel current.

Definition recordFree (requested reserved : Z) : prog StatisticsCollector () :=
  _ ← fetch_add FreeCount 1;
  _ ← fetch_add FreedBytes requested;
  _ ← fetch_sub LiveRequested requested;
  _ ← fetch_sub LiveReserved reserved;
  fetch_sub ActiveAllocations 1.

(** [struct StatisticsSnapshot]; the two ratios are exact rationals here (the
    rounding of [double] is not modelled). *)
Record StatisticsSnapshot := MkSnapshot {
  allocationCount : Z;
  freeCount : Z;
  activeAllocations : Z;
  currentUsage : Z;
  peakUsage : Z;
  allocatedBytes : Z;
  freedBytes : Z;
  reservedBytes : Z;
  internalFragmentation : Q;
  externalFragmentation : Q
}.
Definition StatisticsSnapshot_init : StatisticsSnapshot := MkSnapshot 0 0 0 0 0 0 0 0 0 0.

Definition internal_ratio (reserved requested : Z) : Q :=
  if 0 <? reserved then ((inject_Z reserved - inject_Z requested) / inject_Z reserved)%Q else 0%Q.

Definition snapshot (external : Q) : prog StatisticsCollector StatisticsSnapshot :=
  ac ← atomic_load AllocationCount;
  fc ← atomic_load FreeCount;
  aa ← atomic_load ActiveAllocations;
  cu ← atomic_load LiveRequested;
  pk ← atomic_load PeakUsage;
  ab ← atomic_load AllocatedBytes;
  fb ← atomic_load FreedBytes;
  rb ← atomic_load LiveReserved;
  mret (MkSnapshot ac fc aa cu pk ab fb rb (internal_ratio rb cu) external).

(** ** What the operations do when they run alone *)

Definition stats_alloc (requested reserved : Z) (s : StatisticsCollector) : StatisticsCollector :=
  let live := liveRequested_ s +₆₄ requested in
  MkStats (allocationCount_ s +₆₄ 1) (freeCount_ s) (activeAllocations_ s +₆₄ 1)
    live (liveReserved_ s +₆₄ reserved) (Z.max (peakUsage_ s) live)
    (allocatedBytes_ s +₆₄ requested) (freedBytes_ s).
Definition stats_free (requested reserved : Z) (s : StatisticsCollector) : StatisticsCollector :=
  MkStats (allocationCount_ s) (freeCount_ s +₆₄ 1) (activeAllocations_ s -₆₄ 1)
    (liveRequested_ s -₆₄ requested) (liveReserved_ s -₆₄ reserved) (peakUsage_ s)
    (allocatedBytes_ s) (freedBytes_ s +₆₄ requested).
Definition stats_snapshot (external : Q) (s : StatisticsCollector) : StatisticsSnapshot :=
  MkSnapshot (allocationCount_ s) (freeCount_ s) (activeAllocations_ s) (liveRequested_ s)
    (peakUsage_ s) (allocatedBytes_ s) (freedBytes_ s) (liveReserved_ s)
    (internal_ratio (liveReserved_ s) (liveRequested_ s)) external.

Lemma run_updatePeak fuel current s m :
  run (updatePeak (S fuel) current) s m =
  Ok ((), set_counter PeakUsage (Z.max (peakUsage_ s) current) s) m.
Proof.
  unfold updatePeak. rewrite run_bind. destruct s as [a b d e f g h i].
  cbv [mbind cmd_bind]. cbn -[updatePeak_loop Z.max]. cbv [mbind cmd_bind mret cmd_ret].
  cbn -[Z.ltb Z.eqb Z.max]. destruct (Z.ltb_spec g current).
  - cbv [mbind cmd_bind prog_bind]. cbn -[Z.eqb Z.max]. cbv [mbind cmd_bind mret cmd_ret].
    rewrite Z.eqb_refl. cbn -[Z.max]. by rewrite Z.max_r; [|lia].
  - cbn -[Z.max]. by rewrite Z.max_l; [|lia].
Qed.
Lemma run_recordAllocation fuel requested reserved s m :
  run (recordAllocation (S fuel) requested reserved) s m =
  Ok ((), stats_alloc requested reserved s) m.
Proof.
  set (live := liveRequested_ s +₆₄ requested).
  set (s' := MkStats (allocationCount_ s +₆₄ 1) (freeCount_ s) (activeAllocations_ s +₆₄ 1)
               live (liveReserved_ s +₆₄ reserved) (peakUsage_ s)
               (allocatedBytes_ s +₆₄ requested) (freedBytes_ s)).
  transitivity (run (updatePeak (S fuel) live) s' m); [by destruct s|].
  by rewrite run_updatePeak.
Qed.
Lemma run_recordFree requested reserved s m :
  run (recordFree requested reserved) s m = Ok ((), stats_free requested reserved s) m.
Proof. by destruct s. Qed.
Lemma run_snapshot external s m :
  run (snapshot external) s m = Ok (stats_snapshot external s, s) m.
Proof. by destruct s. Qed.

(** Between nothing requested and everything requested. *)
Lemma internal_ratio_range reserved requested :
  0 ≤ requested ≤ reserved → (requested = 0 → reserved = 0) →
  (0 <= internal_ratio reserved requested < 1)%Q.
Proof.
  intros Hr Hz. unfold internal_ratio. destruct (Z.ltb_spec 0 reserved); [|split; by vm_compute].
  assert (0 < inject_Z reserved)%Q as Hp by (rewrite -Zlt_Qlt //).
  split.
  - apply Qle_shift_div_l; [done|]. rewrite Qmult_0_l. rewrite -Qle_minus_iff -Zle_Qle. lia.
  - apply Qlt_shift_div_r; [done|]. rewrite Qmult_1_l /Qminus. rewrite -{2}(Qplus_0_r (inject_Z reserved)).
    apply Qplus_lt_r. rewrite -inject_Z_opp. change 0%Q with (inject_Z 0). rewrite -Zlt_Qlt. lia.
Qed.
