(* ===== verification/SegmentHeap.v ===== *)
(** src/src/SegmentHeap.hpp and SegmentHeap.cpp: the medium tier.  4 MiB segments
    are tiled by boundary-tagged blocks; the free ones are linked in 18 bins.
    This file holds the operations; [SegmentProofs] has the invariant and the
    specifications.  Every public operation holds the heap's mutex for its whole
    body, so it is one atomic command. *)

From iris.proofmode Require Import proofmode.
From Stdlib Require Import QArith.QArith.
From S2P Require Import Prelude.
From S2P Require Import Memory.
From S2P Require Import BlockHeader.
From S2P Require Import SystemMemory.

Open Scope Z_scope.

(** ** Constants *)
Definition kFreeFlag : Z := 1.
Definition kFirstFlag : Z := 2.
Definition kLastFlag : Z := 4.
Definition kFlagMask : Z := 15.
Definition kSegmentSize : Z := 4 * 1024 * 1024.
Definition kBlockHeaderSize : Z := 16.
Definition kNodeOffset : Z := 32.
Definition kMinBlockSize : Z := 48.
Definition kBinCount : Z := 18.

(** [bins_] holds the first [FreeNode*] of each bin (0 is null). *)
Record SegmentHeap := MkSegmentHeap {
  bins_ : list Z;
  segments_ : list MappedRegion
}.
Definition SegmentHeap_init : SegmentHeap := MkSegmentHeap (replicate (Z.to_nat kBinCount) 0) [].

(** ** Address arithmetic *)

(** [std::bit_width]. *)
Definition bit_width (x : Z) : Z := if x =? 0 then 0 else Z.log2 x + 1.
Definition binIndex (size : Z) : Z :=
  let width := bit_width size in
  let raw := if 6 <? width then width - 6 else 0 in
  Z.min raw (kBinCount - 1).

Definition blockOf (payload : Z) : Z := payload - kBlockHeaderSize.
Definition payloadOf (block : Z) : Z := block + kBlockHeaderSize.
Definition nodeOf (block : Z) : Z := block + kNodeOffset.
Definition blockOfNode (node : Z) : Z := node - kNodeOffset.

Section SegmentHeap.
Context `{HOS : !OS}.

(** ** [struct MediumBlock]: [sizeAndFlags] at offset 0, [prevSize] at offset 8 *)
Definition load_sizeAndFlags (b : Z) : cmd Z := load 8 b.
Definition store_sizeAndFlags (b v : Z) : cmd () := store 8 b v.
Definition load_prevSize (b : Z) : cmd Z := load 8 (b + 8).
Definition store_prevSize (b v : Z) : cmd () := store 8 (b + 8) v.

Definition size (b : Z) : cmd Z :=
  w ← load_sizeAndFlags b; mret (Z.land w (not64 kFlagMask)).
Definition setSize (b sz : Z) : cmd () :=
  w ← load_sizeAndFlags b; store_sizeAndFlags b (Z.lor (Z.land w kFlagMask) sz).
Definition hasFlag (flag b : Z) : cmd bool :=
  w ← load_sizeAndFlags b; mret (negb (Z.land w flag =? 0)).
Definition isFree (b : Z) : cmd bool := hasFlag kFreeFlag b.
Definition isFirst (b : Z) : cmd bool := hasFlag kFirstFlag b.
Definition isLast (b : Z) : cmd bool := hasFlag kLastFlag b.
Definition setFlag (b flag : Z) (value : bool) : cmd () :=
  w ← load_sizeAndFlags b;
  store_sizeAndFlags b (if value then Z.lor w flag else Z.land w (not64 flag)).

Definition nextBlock (b : Z) : cmd Z := sz ← size b; mret (b + sz).
Definition prevBlock (b : Z) : cmd Z := sz ← load_prevSize b; mret (b - sz).

(** ** [struct FreeNode]: [prev] at offset 0, [next] at offset 8 *)
Definition load_prev (n : Z) : cmd Z := load 8 n.
Definition load_next (n : Z) : cmd Z := load 8 (n + 8).
Definition store_prev (n v : Z) : cmd () := store 8 n v.
Definition store_next (n v : Z) : cmd () := store 8 (n + 8) v.

(** [bins_[index]]; past the end of the array it is undefined. *)
Definition get_bin (h : SegmentHeap) (index : Z) : cmd Z := expect (bins_ h !! Z.to_nat index).
Definition set_bin (h : SegmentHeap) (index v : Z) : SegmentHeap :=
  MkSegmentHeap (<[Z.to_nat index := v]> (bins_ h)) (segments_ h).

Definition insertFree (h : SegmentHeap) (b : Z) : cmd SegmentHeap :=
  sz ← size b;
  let index := binIndex sz in
  let node := nodeOf b in
  head ← get_bin h index;
  _ ← store_prev node 0;
  _ ← store_next node head;
  next ← load_next node;
  _ ← (if negb (next =? 0) then store_prev next node else mret ());
  _ ← setFlag b kFreeFlag true;
  mret (set_bin h index node).

Definition removeFree (h : SegmentHeap) (b : Z) : cmd SegmentHeap :=
  let node := nodeOf b in
  prev ← load_prev node;
  h ← (if negb (prev =? 0) then
         next ← load_next node;
         _ ← store_next prev next;
         mret h
       else
         sz ← size b;
         _ ← get_bin h (binIndex sz);
         next ← load_next node;
         mret (set_bin h (binIndex sz) next));
  next ← load_next node;
  _ ← (if negb (next =? 0) then
         prev ← load_prev node;
         store_prev next prev
       else mret ());
  _ ← setFlag b kFreeFlag false;
  mret (h : SegmentHeap).

(** One turn of the inner loop of [findFit]: the block, or null at the list's end. *)
Definition findFit_step (totalSize : Z) (node : Z) : cmd (Z + Z) :=
  if node =? 0 then mret (inr 0) else
  let block := blockOfNode node in
  sz ← size block;
  if totalSize <=? sz then mret (inr block) else
  next ← load_next node;
  mret (inl next).
Fixpoint findFit_bins (h : SegmentHeap) (totalSize index : Z) (n : nat) : cmd Z :=
  match n with
  | O => mret 0
  | S n =>
      node ← get_bin h index;
      block ← while_fuel (findFit_step totalSize) node;
      if block =? 0 then findFit_bins h totalSize (index + 1) n else mret block
  end.
Definition findFit (h : SegmentHeap) (totalSize : Z) : cmd Z :=
  let index := binIndex totalSize in
  findFit_bins h totalSize index (Z.to_nat (kBinCount - index)).

Definition addSegment (h : SegmentHeap) : cmd (bool * SegmentHeap) :=
  segment ← MappedRegion_make kSegmentSize;
  if negb (valid segment) then mret (false, h) else
  let block := region_data segment in
  _ ← store_sizeAndFlags block 0;
  _ ← setSize block (region_size segment);
  _ ← setFlag block kFirstFlag true;
  _ ← setFlag block kLastFlag true;
  _ ← store_prevSize block 0;
  h ← insertFree h block;
  mret (true, MkSegmentHeap (bins_ h) (segments_ h ++ [segment])).

Definition splitBlock (h : SegmentHeap) (b totalSize : Z) : cmd SegmentHeap :=
  sz ← size b;
  let remainder := sz -₆₄ totalSize in
  if remainder <? kMinBlockSize then mret h else
  let rest := b + totalSize in
  _ ← store_sizeAndFlags rest 0;
  _ ← setSize rest remainder;
  last ← isLast b;
  _ ← setFlag rest kLastFlag last;
  _ ← store_prevSize rest totalSize;
  _ ← setSize b totalSize;
  _ ← setFlag b kLastFlag false;
  last ← isLast rest;
  _ ← (if negb last then next ← nextBlock rest; store_prevSize next remainder else mret ());
  insertFree h rest.

(** The search of [releaseSegment] through [segments_] for the mapping at [base]:
    erasing the entry unmaps it. *)
Fixpoint erase_segment (base : Z) (segs : list MappedRegion) : cmd (option (list MappedRegion)) :=
  match segs with
  | [] => mret None
  | s :: segs =>
      if region_data s =? base then _ ← reset s; mret (Some segs) else
      r ← erase_segment base segs;
      mret (match r with Some segs => Some (s :: segs) | None => None end)
  end.
Definition releaseSegment (h : SegmentHeap) (b : Z) : cmd SegmentHeap :=
  if (length (segments_ h) <=? 1)%nat then insertFree h b else
  r ← erase_segment b (segments_ h);
  match r with
  | Some segs => mret (MkSegmentHeap (bins_ h) segs)
  | None => insertFree h b
  end.

(** ** The public operations *)

(** The end of [allocate], once a block has been found. *)
Definition allocate_from (h : SegmentHeap) (b total : Z) : cmd (Z * SegmentHeap) :=
  h ← removeFree h b;
  h ← splitBlock h b total;
  mret (payloadOf b, h).
Definition allocate (h : SegmentHeap) (bytes : Z) : cmd (Z * SegmentHeap) :=
  let total := Z.max (alignUp bytes kDefaultAlignment +₆₄ kBlockHeaderSize) kMinBlockSize in
  if kSegmentSize <? total then mret (0, h) else
  block ← findFit h total;
  if block =? 0 then
    r ← addSegment h;
    let '(ok, h) := (r : bool * SegmentHeap) in
    if negb ok then mret (0, h) else
    block ← findFit h total;
    if block =? 0 then mret (0, h) else allocate_from h block total
  else allocate_from h block total.

(** The three parts of [deallocate]: merging the next block, merging into the
    previous block (the result is the block that remains), and finishing. *)
Definition coalesce_next (h : SegmentHeap) (b : Z) : cmd SegmentHeap :=
  last ← isLast b;
  if negb last then
    next ← nextBlock b;
    free ← isFree next;
    if free : bool then
      h ← removeFree h next;
      sz ← size b;
      nsz ← size next;
      _ ← setSize b (sz +₆₄ nsz);
      nlast ← isLast next;
      _ ← setFlag b kLastFlag nlast;
      mret h
    else mret h
  else mret h.
Definition coalesce_prev (h : SegmentHeap) (b : Z) : cmd (Z * SegmentHeap) :=
  first ← isFirst b;
  if negb first then
    prev ← prevBlock b;
    free ← isFree prev;
    if free : bool then
      h ← removeFree h prev;
      psz ← size prev;
      sz ← size b;
      _ ← setSize prev (psz +₆₄ sz);
      last ← isLast b;
      _ ← setFlag prev kLastFlag last;
      mret (prev, h)
    else mret (b, h)
  else mret (b, h).
Definition deallocate (h : SegmentHeap) (payload : Z) : cmd SegmentHeap :=
  let b := blockOf payload in
  h ← coalesce_next h b;
  r ← coalesce_prev h b;
  let '(b, h) := (r : Z * SegmentHeap) in
  last ← isLast b;
  _ ← (if negb last then next ← nextBlock b; sz ← size b; store_prevSize next sz else mret ());
  first ← isFirst b;
  both ← (if first : bool then isLast b else mret false);
  if both : bool then releaseSegment h b else insertFree h b.

Definition payloadCapacity (payload : Z) : cmd Z :=
  sz ← size (blockOf payload); mret (sz -₆₄ kBlockHeaderSize).

(** [externalFragmentation]: the walk over every bin, with the running totals. *)
Definition tally_step (s : Z * Z * Z) : cmd ((Z * Z * Z) + (Z * Z)) :=
  let '(node, totalFree, largestFree) := s in
  if node =? 0 then mret (inr (totalFree, largestFree)) else
  sz ← size (blockOfNode node);
  next ← load_next node;
  mret (inl (next, totalFree +₆₄ sz, Z.max largestFree sz)).
Fixpoint tally_bins (bins : list Z) (acc : Z * Z) : cmd (Z * Z) :=
  match bins with
  | [] => mret acc
  | node :: bins =>
      acc ← while_fuel tally_step (node, acc.1, acc.2);
      tally_bins bins acc
  end.
(** The ratio is an exact rational here (the rounding of [double] is not modelled). *)
Definition externalFragmentation (h : SegmentHeap) : cmd Q :=
  acc ← tally_bins (bins_ h) (0, 0);
  let '(totalFree, largestFree) := (acc : Z * Z) in
  mret (if totalFree =? 0 then 0%Q else (1 - inject_Z largestFree / inject_Z totalFree)%Q).

(** [~SegmentHeap]. *)
Definition SegmentHeap_destroy (h : SegmentHeap) : cmd () := reset_all (segments_ h).
End SegmentHeap.
