(* ===== verification/SegmentTags.v ===== *)
(** The boundary tags of the segment heap: the packed [sizeAndFlags] word, the
    ownership of a block's two tag words, and the rules of the [MediumBlock]
    accessors of [SegmentHeap]. *)

From iris.proofmode Require Import proofmode.
From S2P Require Import Prelude.
From S2P Require Import HeapProp.
From S2P Require Import Memory.
From S2P Require Import Logic.
From S2P Require Import SegmentHeap.

(** ** The packed word *)

Definition flag_bits (free first last : bool) : Z :=
  Z.b2z free * kFreeFlag + Z.b2z first * kFirstFlag + Z.b2z last * kLastFlag.
Definition tag_word (sz : Z) (free first last : bool) : Z := Z.lor sz (flag_bits free first last).

Definition size_ok (sz : Z) : Prop := 0 ≤ sz < W64 ∧ sz mod 16 = 0.

Lemma flag_bits_range free first last : 0 ≤ flag_bits free first last < 16.
Proof. by destruct free, first, last. Qed.

Lemma aligned_bits sz i : sz mod 16 = 0 → i < 4 → Z.testbit sz i = false.
Proof.
  intros Hm Hi. destruct (decide (0 ≤ i)); [|apply Z.testbit_neg_r; lia].
  assert (sz = Z.shiftl (sz / 16) 4) as ->.
  { rewrite Z.shiftl_mul_pow2; [|lia]. apply Z.div_exact in Hm; [|lia]. change (2 ^ 4) with 16. lia. }
  by apply Z.shiftl_spec_low.
Qed.
Lemma small_bits f i : 0 ≤ f < 16 → 4 ≤ i → Z.testbit f i = false.
Proof.
  intros Hf Hi. destruct (decide (f = 0)) as [->|]; [apply Z.bits_0|].
  apply Z.bits_above_log2; [lia|]. apply Z.log2_lt_pow2; [lia|].
  eapply Z.lt_le_trans; [apply Hf|]. change 16 with (2 ^ 4). apply Z.pow_le_mono_r; lia.
Qed.
Lemma high_bits sz i : 0 ≤ sz < W64 → 64 ≤ i → Z.testbit sz i = false.
Proof.
  intros Hs Hi. destruct (decide (sz = 0)) as [->|]; [apply Z.bits_0|].
  apply Z.bits_above_log2; [lia|]. apply Z.log2_lt_pow2; [lia|].
  eapply Z.lt_le_trans; [apply Hs|]. unfold W64. apply Z.pow_le_mono_r; lia.
Qed.
Lemma not64_bits f i : 0 ≤ i < 64 → Z.testbit (not64 f) i = negb (Z.testbit f i).
Proof.
  intros Hi. unfold not64, wrap64, W64. rewrite Z.mod_pow2_bits_low; [|lia].
  apply Z.lnot_spec. lia.
Qed.

Lemma land_aligned_small sz f : sz mod 16 = 0 → 0 ≤ f < 16 → Z.land sz f = 0.
Proof.
  intros Hs Hf. apply Z.bits_inj'. intros i Hi. rewrite Z.land_spec Z.bits_0.
  destruct (decide (i < 4)); [by rewrite aligned_bits|].
  rewrite (small_bits f) //; [|lia]. apply andb_false_r.
Qed.
Lemma land_aligned_not sz f : size_ok sz → 0 ≤ f < 16 → Z.land sz (not64 f) = sz.
Proof.
  intros [Hr Hs] Hf. apply Z.bits_inj'. intros i Hi. rewrite Z.land_spec.
  destruct (decide (i < 4)); [by rewrite aligned_bits|].
  destruct (decide (i < 64)).
  - rewrite not64_bits; [|lia]. rewrite (small_bits f) //; [|lia]. apply andb_true_r.
  - rewrite high_bits //. lia.
Qed.
Lemma lor_aligned_add sz f : sz mod 16 = 0 → 0 ≤ f < 16 → Z.lor sz f = sz + f.
Proof.
  intros Hs Hf. rewrite -Z.add_lor_land land_aligned_small //. lia.
Qed.

Section tags.
Context (sz : Z) (Hsz : size_ok sz).
Implicit Types free first last : bool.

Lemma tag_word_range free first last : 0 ≤ tag_word sz free first last < 2 ^ 64.
Proof.
  destruct Hsz as [Hr Hm]. pose proof (flag_bits_range free first last).
  unfold tag_word. rewrite lor_aligned_add //. change (2 ^ 64) with W64.
  assert (sz ≤ W64 - 16); [|lia].
  assert (W64 mod 16 = 0) by reflexivity. align_lia.
Qed.
Lemma tag_word_size free first last :
  Z.land (tag_word sz free first last) (not64 kFlagMask) = sz.
Proof.
  unfold tag_word. rewrite Z.land_lor_distr_l land_aligned_not //.
  assert (Z.land (flag_bits free first last) (not64 kFlagMask) = 0) as ->
    by (by destruct free, first, last).
  apply Z.lor_0_r.
Qed.
Lemma tag_word_mask free first last :
  Z.land (tag_word sz free first last) kFlagMask = flag_bits free first last.
Proof.
  unfold tag_word. rewrite Z.land_lor_distr_l land_aligned_small; [|apply Hsz|done].
  by destruct free, first, last.
Qed.
Lemma tag_word_setSize free first last sz' :
  Z.lor (Z.land (tag_word sz free first last) kFlagMask) sz' = tag_word sz' free first last.
Proof. rewrite tag_word_mask. apply Z.lor_comm. Qed.
Lemma tag_word_flag free first last flag :
  0 ≤ flag < 16 →
  Z.land (tag_word sz free first last) flag = Z.land (flag_bits free first last) flag.
Proof.
  intros. unfold tag_word. by rewrite Z.land_lor_distr_l land_aligned_small; [|apply Hsz|].
Qed.
Lemma tag_word_free free first last :
  negb (Z.land (tag_word sz free first last) kFreeFlag =? 0) = free.
Proof. rewrite tag_word_flag //. by destruct free, first, last. Qed.
Lemma tag_word_first free first last :
  negb (Z.land (tag_word sz free first last) kFirstFlag =? 0) = first.
Proof. rewrite tag_word_flag //. by destruct free, first, last. Qed.
Lemma tag_word_last free first last :
  negb (Z.land (tag_word sz free first last) kLastFlag =? 0) = last.
Proof. rewrite tag_word_flag //. by destruct free, first, last. Qed.

Definition set_bit (w flag : Z) (v : bool) : Z := if v then Z.lor w flag else Z.land w (not64 flag).
Lemma tag_word_set free first last flag v f' :
  0 ≤ flag < 16 → set_bit (flag_bits free first last) flag v = f' →
  set_bit (tag_word sz free first last) flag v = Z.lor sz f'.
Proof.
  intros Hf <-. unfold tag_word, set_bit. destruct v; [by rewrite Z.lor_assoc|].
  by rewrite Z.land_lor_distr_l land_aligned_not.
Qed.
Lemma tag_word_setFree free first last v :
  set_bit (tag_word sz free first last) kFreeFlag v = tag_word sz v first last.
Proof. apply tag_word_set; [done|]. by destruct v, free, first, last. Qed.
Lemma tag_word_setFirst free first last v :
  set_bit (tag_word sz free first last) kFirstFlag v = tag_word sz free v last.
Proof. apply tag_word_set; [done|]. by destruct v, free, first, last. Qed.
Lemma tag_word_setLast free first last v :
  set_bit (tag_word sz free first last) kLastFlag v = tag_word sz free first v.
Proof. apply tag_word_set; [done|]. by destruct v, free, first, last. Qed.
End tags.

(** ** Ownership of the [sizeAndFlags] word *)

Definition tag (b sz : Z) (free first last : bool) : heapPropI :=
  ⌜size_ok sz⌝ ∗ b ↦64 tag_word sz free first last.

Section tag_rules.
Context `{HOS : !OS}.
Implicit Types (b sz : Z) (free first last v : bool).

Lemma tag_raw b sz free first last : tag b sz free first last ⊢ raw b 8.
Proof. iIntros "[_ H]". by rewrite word64_raw. Qed.
Lemma tag_size_ok b sz free first last : tag b sz free first last ⊢ ⌜size_ok sz⌝.
Proof. by iIntros "[% _]". Qed.

(** Turning eight raw bytes into a tag: store 0, then set the size. *)
Lemma wp_tag_init b Q :
  b mod 8 = 0 → raw b 8 ∗ (tag b 0 false false false -∗ Q ()) ⊢ wp (store_sizeAndFlags b 0) Q.
Proof.
  intros Hb. iIntros "[H HQ]". iApply (wp_store_raw 8); [done|done|]. iFrame "H". iIntros "H".
  iApply "HQ". iSplit; [by iPureIntro|]. done.
Qed.
Lemma wp_size b sz free first last Q :
  tag b sz free first last ∗ (tag b sz free first last -∗ Q sz) ⊢ wp (size b) Q.
Proof.
  iIntros "[[%Hs H] HQ]". iApply wp_bind. iApply wp_load. iFrame "H". iIntros "H". iApply wp_ret.
  rewrite tag_word_size //. iApply "HQ". by iFrame.
Qed.
Lemma wp_setSize b sz free first last sz' Q :
  size_ok sz' → tag b sz free first last ∗ (tag b sz' free first last -∗ Q ()) ⊢
  wp (setSize b sz') Q.
Proof.
  intros Hs'. iIntros "[[%Hs H] HQ]". iApply wp_bind. iApply wp_load. iFrame "H". iIntros "H".
  rewrite tag_word_setSize //. iApply wp_store; [by apply tag_word_range|]. iFrame "H".
  iIntros "H". iApply "HQ". by iFrame.
Qed.
Lemma wp_isFree b sz free first last Q :
  tag b sz free first last ∗ (tag b sz free first last -∗ Q free) ⊢ wp (isFree b) Q.
Proof.
  iIntros "[[%Hs H] HQ]". iApply wp_bind. iApply wp_load. iFrame "H". iIntros "H". iApply wp_ret.
  rewrite tag_word_free //. iApply "HQ". by iFrame.
Qed.
Lemma wp_isFirst b sz free first last Q :
  tag b sz free first last ∗ (tag b sz free first last -∗ Q first) ⊢ wp (isFirst b) Q.
Proof.
  iIntros "[[%Hs H] HQ]". iApply wp_bind. iApply wp_load. iFrame "H". iIntros "H". iApply wp_ret.
  rewrite tag_word_first //. iApply "HQ". by iFrame.
Qed.
Lemma wp_isLast b sz free first last Q :
  tag b sz free first last ∗ (tag b sz free first last -∗ Q last) ⊢ wp (isLast b) Q.
Proof.
  iIntros "[[%Hs H] HQ]". iApply wp_bind. iApply wp_load. iFrame "H". iIntros "H". iApply wp_ret.
  rewrite tag_word_last //. iApply "HQ". by iFrame.
Qed.
Lemma wp_setFree b sz free first last v Q :
  tag b sz free first last ∗ (tag b sz v first last -∗ Q ()) ⊢ wp (setFlag b kFreeFlag v) Q.
Proof.
  iIntros "[[%Hs H] HQ]". iApply wp_bind. iApply wp_load. iFrame "H". iIntros "H".
  fold (set_bit (tag_word sz free first last) kFreeFlag v). rewrite tag_word_setFree //.
  iApply wp_store; [by apply tag_word_range|]. iFrame "H". iIntros "H". iApply "HQ". by iFrame.
Qed.
Lemma wp_setFirst b sz free first last v Q :
  tag b sz free first last ∗ (tag b sz free v last -∗ Q ()) ⊢ wp (setFlag b kFirstFlag v) Q.
Proof.
  iIntros "[[%Hs H] HQ]". iApply wp_bind. iApply wp_load. iFrame "H". iIntros "H".
  fold (set_bit (tag_word sz free first last) kFirstFlag v). rewrite tag_word_setFirst //.
  iApply wp_store; [by apply tag_word_range|]. iFrame "H". iIntros "H". iApply "HQ". by iFrame.
Qed.
Lemma wp_setLast b sz free first last v Q :
  tag b sz free first last ∗ (tag b sz free first v -∗ Q ()) ⊢ wp (setFlag b kLastFlag v) Q.
Proof.
  iIntros "[[%Hs H] HQ]". iApply wp_bind. iApply wp_load. iFrame "H". iIntros "H".
  fold (set_bit (tag_word sz free first last) kLastFlag v). rewrite tag_word_setLast //.
  iApply wp_store; [by apply tag_word_range|]. iFrame "H". iIntros "H". iApply "HQ". by iFrame.
Qed.
End tag_rules.
