(* ===== verification/SegmentModel.v ===== *)
(** The abstract state of the segment heap: a finite map from block addresses to
    the contents of their tags, the well-formedness of that map (the blocks tile
    their segments and the two links of every boundary agree), and what the
    heap's steps - flagging, merging, splitting, adding and releasing segments -
    do to it.  Everything here is pure. *)

From stdpp Require Import gmap.
From S2P Require Import Prelude.
From S2P Require Import SegmentHeap.

Record blk := Blk {
  bsize : Z;      (* total size, header included *)
  bprev : Z;      (* prevSize: the size of the block before it *)
  bfree : bool;
  bfirst : bool;
  blast : bool;
  bseg : Z        (* base address of the segment it lies in *)
}.

Definition with_free (v : bool) (b : blk) : blk :=
  Blk (bsize b) (bprev b) v (bfirst b) (blast b) (bseg b).
Definition with_prev (v : Z) (b : blk) : blk :=
  Blk (bsize b) v (bfree b) (bfirst b) (blast b) (bseg b).

(** [G] maps the base of each segment to its size. *)
Definition in_segment (G : gmap Z Z) (a : Z) (b : blk) : Prop :=
  ∃ sz, G !! bseg b = Some sz ∧ bseg b ≤ a ∧ a + bsize b ≤ bseg b + sz ∧
        (bfirst b = true → a = bseg b) ∧ (blast b = true → a + bsize b = bseg b + sz).
Definition prev_link (M : gmap Z blk) (a : Z) (b : blk) : Prop :=
  bfirst b = false → ∃ p, M !! (a - bprev b) = Some p ∧ bsize p = bprev b ∧
                          blast p = false ∧ bseg p = bseg b.
Definition next_link (M : gmap Z blk) (a : Z) (b : blk) : Prop :=
  blast b = false → ∃ n, M !! (a + bsize b) = Some n ∧ bprev n = bsize b ∧
                         bfirst n = false ∧ bseg n = bseg b.
Definition blk_ok (G : gmap Z Z) (M : gmap Z blk) (a : Z) (b : blk) : Prop :=
  (a mod 16 = 0 ∧ kMinBlockSize ≤ bsize b ∧ bsize b mod 16 = 0 ∧ in64 (bprev b)) ∧
  in_segment G a b ∧ prev_link M a b ∧ next_link M a b.
Definition heap_ok (G : gmap Z Z) (M : gmap Z blk) : Prop :=
  (∀ a b, M !! a = Some b → blk_ok G M a b) ∧
  (∀ s sz, G !! s = Some sz → ∃ b, M !! s = Some b ∧ bfirst b = true ∧ bseg b = s).

(** Immediate coalescing: no two neighbours are both free. *)
Definition coalesced (M : gmap Z blk) : Prop :=
  ∀ a b n, M !! a = Some b → blast b = false → M !! (a + bsize b) = Some n →
           bfree b = true → bfree n = true → False.
Definition next_used (M : gmap Z blk) (a : Z) : Prop :=
  ∀ b n, M !! a = Some b → blast b = false → M !! (a + bsize b) = Some n → bfree n = false.
Definition prev_used (M : gmap Z blk) (a : Z) : Prop :=
  ∀ b p, M !! a = Some b → bfirst b = false → M !! (a - bprev b) = Some p → bfree p = false.

(** The two views of the map the rest of the allocator needs: the size of each
    free block, and the capacity of each block in use, under its address. *)
Definition free_sizes (M : gmap Z blk) : gmap Z Z :=
  omap (λ b, if bfree b then Some (bsize b) else None) M.
Definition used_caps (M : gmap Z blk) : gmap Z Z :=
  omap (λ b, if bfree b then None else Some (bsize b - kBlockHeaderSize)) M.

(** The steps. *)
Definition set_free (a : Z) (v : bool) (M : gmap Z blk) : gmap Z blk := alter (with_free v) a M.
Definition fix_prev (last : bool) (a v : Z) (M : gmap Z blk) : gmap Z blk :=
  if last then M else alter (with_prev v) a M.
Definition merged (ba bn : blk) : blk :=
  Blk (bsize ba + bsize bn) (bprev ba) (bfree ba) (bfirst ba) (blast bn) (bseg ba).
Definition merge (a : Z) (ba bn : blk) (M : gmap Z blk) : gmap Z blk :=
  fix_prev (blast bn) (a + bsize ba + bsize bn) (bsize ba + bsize bn)
    (<[a := merged ba bn]> (delete (a + bsize ba) M)).
Definition front (ba : blk) (t : Z) : blk :=
  Blk t (bprev ba) (bfree ba) (bfirst ba) false (bseg ba).
Definition rest_of (ba : blk) (t : Z) : blk :=
  Blk (bsize ba - t) t false false (blast ba) (bseg ba).
Definition split (a : Z) (ba : blk) (t : Z) (M : gmap Z blk) : gmap Z blk :=
  fix_prev (blast ba) (a + bsize ba) (bsize ba - t)
    (<[a + t := rest_of ba t]> (<[a := front ba t]> M)).
Definition segment_blk (s sz : Z) (free : bool) : blk := Blk sz 0 free true true s.

(** ** Setting the free flag *)
Lemma lookup_set_free a v M x :
  set_free a v M !! x = if decide (x = a) then with_free v <$> M !! a else M !! x.
Proof.
  unfold set_free. case_decide as H; [subst; apply lookup_alter_eq|by apply lookup_alter_ne].
Qed.

Lemma set_free_lookup_fields a v M x b :
  set_free a v M !! x = Some b → ∃ b0, M !! x = Some b0 ∧ b = with_free (bfree b) b0 ∧
    (x ≠ a → b = b0) ∧ (x = a → b = with_free v b0).
Proof.
  rewrite lookup_set_free. case_decide as H; subst.
  - intros (b0 & -> & ?)%fmap_Some. exists b0. subst. by destruct b0.
  - intros Hb. exists b. split_and!; try done. by destruct b.
Qed.
Lemma set_free_lookup_Some a v M x b0 :
  M !! x = Some b0 → ∃ v', set_free a v M !! x = Some (with_free v' b0).
Proof.
  intros Hx. rewrite lookup_set_free. case_decide; subst.
  - rewrite Hx. by exists v.
  - exists (bfree b0). rewrite Hx. by destruct b0.
Qed.

Lemma heap_ok_set_free G M a v : heap_ok G M → heap_ok G (set_free a v M).
Proof.
  intros [Hblk Hseg]. split.
  - intros x b (b0&Hx&->&_&_)%set_free_lookup_fields. destruct (Hblk x b0 Hx) as (?&?&Hp&Hn).
    split; [done|split; [done|split]].
    + intros Hf. destruct (Hp Hf) as (p&Hlp&?&?&?).
      destruct (set_free_lookup_Some a v M _ _ Hlp) as [v' ?]. by exists (with_free v' p).
    + intros Hl. destruct (Hn Hl) as (n&Hln&?&?&?).
      destruct (set_free_lookup_Some a v M _ _ Hln) as [v' ?]. by exists (with_free v' n).
  - intros s sz Hs. destruct (Hseg s sz Hs) as (b&Hb&?&?).
    destruct (set_free_lookup_Some a v M _ _ Hb) as [v' ?]. by exists (with_free v' b).
Qed.

Lemma coalesced_clear M a : coalesced M → coalesced (set_free a false M).
Proof.
  intros HM x b n (b0&Hx&Hb&Hne&Heq)%set_free_lookup_fields Hl
    (n0&Hn&Hn'&Hnne&Hneq)%set_free_lookup_fields Hfb Hfn.
  destruct (decide (x = a)) as [->|Hxa]; [by rewrite Heq in Hfb|].
  destruct (decide (x + bsize b = a)) as [E|Hna]; [specialize (Hneq E); subst n; discriminate|].
  specialize (Hne Hxa). specialize (Hnne Hna). subst b n. exact (HM x b0 n0 Hx Hl Hn Hfb Hfn).
Qed.
Lemma coalesced_set G M a :
  heap_ok G M → coalesced M → next_used M a → prev_used M a → coalesced (set_free a true M).
Proof.
  intros [Hblk _] HM Hnu Hpu x b n (b0&Hx&Hb&Hne&Heq)%set_free_lookup_fields Hl
    (n0&Hn&Hn'&Hnne&Hneq)%set_free_lookup_fields Hfb Hfn.
  assert (bsize b = bsize b0 ∧ blast b = blast b0) as [Es El] by (rewrite Hb; done).
  rewrite Es in *. rewrite El in *.
  destruct (Hblk x b0 Hx) as (Hb0&_&_&Hnl).
  destruct (Hnl Hl) as (n1&Hn1&Hpn&Hfn1&_). assert (n1 = n0) as -> by congruence.
  destruct (decide (x = a)) as [->|Hxa].
  - rewrite Hnne in Hfn by (unfold kMinBlockSize in *; lia).
    by rewrite (Hnu b0 n0) in Hfn.
  - rewrite Hne in Hfb by done.
    destruct (decide (x + bsize b0 = a)) as [E|Hna].
    + subst a. specialize (Hpu n0 b0 Hn Hfn1). rewrite Hpn in Hpu.
      replace (x + bsize b0 - bsize b0) with x in Hpu by lia. by rewrite Hpu in Hfb.
    + rewrite Hnne in Hfn by done. by eapply (HM x b0 n0).
Qed.

Lemma free_sizes_set M a b :
  M !! a = Some b → free_sizes (set_free a true M) = <[a := bsize b]> (free_sizes M).
Proof.
  intros Ha. apply map_eq. intros x. unfold free_sizes. rewrite lookup_insert.
  rewrite !lookup_omap, lookup_set_free. destruct (decide (a = x)) as [->|].
  - rewrite decide_True by done. by rewrite Ha.
  - by rewrite decide_False.
Qed.
Lemma free_sizes_clear M a :
  free_sizes (set_free a false M) = delete a (free_sizes M).
Proof.
  apply map_eq. intros x. unfold free_sizes. rewrite lookup_delete.
  rewrite !lookup_omap, lookup_set_free. destruct (decide (a = x)) as [->|].
  - rewrite decide_True by done. by destruct (M !! x).
  - by rewrite decide_False.
Qed.
Lemma used_caps_set M a : used_caps (set_free a true M) = delete a (used_caps M).
Proof.
  apply map_eq. intros x. unfold used_caps. rewrite lookup_delete.
  rewrite !lookup_omap, lookup_set_free. destruct (decide (a = x)) as [->|].
  - rewrite decide_True by done. by destruct (M !! x).
  - by rewrite decide_False.
Qed.
Lemma used_caps_clear M a b :
  M !! a = Some b →
  used_caps (set_free a false M) = <[a := bsize b - kBlockHeaderSize]> (used_caps M).
Proof.
  intros Ha. apply map_eq. intros x. unfold used_caps. rewrite lookup_insert.
  rewrite !lookup_omap, lookup_set_free. destruct (decide (a = x)) as [->|].
  - rewrite decide_True by done. by rewrite Ha.
  - by rewrite decide_False.
Qed.

(** ** Merging a block with the one after it, and splitting a block *)
Lemma lookup_fix_prev last a v M x :
  fix_prev last a v M !! x =
    if decide (last = false ∧ x = a) then with_prev v <$> M !! x else M !! x.
Proof.
  unfold fix_prev. destruct last; [by rewrite decide_False by naive_solver|].
  case_decide as H; [destruct H as [_ ->]; apply lookup_alter_eq|].
  apply lookup_alter_ne. naive_solver.
Qed.

(** [M'] has the blocks of [M] outside [xs], up to a new [prevSize] for the one at [nn]
    (if there is one: [last] says there is none). *)
Definition kept (xs : list Z) (last : bool) (nn v : Z) (M M' : gmap Z blk) : Prop :=
  ∀ x, x ∉ xs →
    M' !! x = if decide (last = false ∧ x = nn) then with_prev v <$> M !! x else M !! x.
(** What [kept] leaves of a block. *)
Definition same_but_prev (last : bool) (nn v x : Z) (b b' : blk) : Prop :=
  bsize b' = bsize b ∧ bfree b' = bfree b ∧ bfirst b' = bfirst b ∧ blast b' = blast b ∧
  bseg b' = bseg b ∧ bprev b' = if decide (last = false ∧ x = nn) then v else bprev b.

Lemma kept_lookup xs last nn v M M' x b :
  kept xs last nn v M M' → x ∉ xs → M !! x = Some b →
  ∃ b', M' !! x = Some b' ∧ same_but_prev last nn v x b b'.
Proof.
  intros HM Hx Hb. unfold same_but_prev. rewrite (HM x Hx), Hb.
  case_decide; [exists (with_prev v b)|exists b]; by split_and!.
Qed.
Lemma kept_inv xs last nn v M M' x b' :
  kept xs last nn v M M' → x ∉ xs → M' !! x = Some b' →
  ∃ b, M !! x = Some b ∧ same_but_prev last nn v x b b'.
Proof.
  intros HM Hx Hb. unfold same_but_prev. rewrite (HM x Hx) in Hb. case_decide.
  - apply fmap_Some in Hb as (b&?&->). exists b. by split_and!.
  - exists b'. by split_and!.
Qed.

Section merge.
Context (G : gmap Z Z) (M : gmap Z blk) (a : Z) (ba bn : blk).
Context (HM : heap_ok G M) (Ha : M !! a = Some ba) (Hlast : blast ba = false)
        (Hn : M !! (a + bsize ba) = Some bn).

Lemma merge_facts :
  bprev bn = bsize ba ∧ bfirst bn = false ∧ bseg bn = bseg ba ∧ 48 ≤ bsize ba ∧ 48 ≤ bsize bn.
Proof using All.
  destruct (proj1 HM a ba Ha) as ((_&Hs&_)&_&_&Hnl). destruct (Hnl Hlast) as (n&Hn'&?&?&?).
  destruct (proj1 HM _ _ Hn) as ((_&Hs'&_)&_). unfold kMinBlockSize in *.
  assert (n = bn) as -> by congruence. done.
Qed.
Lemma merge_lookup_a : merge a ba bn M !! a = Some (merged ba bn).
Proof using All.
  destruct merge_facts as (?&?&?&?&?). unfold merge. rewrite lookup_fix_prev.
  rewrite decide_False by lia. apply lookup_insert_eq.
Qed.
Lemma merge_lookup_n : merge a ba bn M !! (a + bsize ba) = None.
Proof using All.
  destruct merge_facts as (?&?&?&?&?). unfold merge. rewrite lookup_fix_prev.
  rewrite decide_False by lia. rewrite lookup_insert_ne by lia. apply lookup_delete_eq.
Qed.
Lemma merge_kept :
  kept [a; a + bsize ba] (blast bn) (a + bsize ba + bsize bn) (bsize ba + bsize bn)
    M (merge a ba bn M).
Proof using All.
  intros x Hx. unfold merge. rewrite lookup_fix_prev.
  rewrite lookup_insert_ne, lookup_delete_ne by set_solver. done.
Qed.

Lemma merge_keep x b :
  x ≠ a → x ≠ a + bsize ba → M !! x = Some b →
  ∃ b', merge a ba bn M !! x = Some b' ∧
    same_but_prev (blast bn) (a + bsize ba + bsize bn) (bsize ba + bsize bn) x b b'.
Proof using All. intros ??. eapply kept_lookup; [apply merge_kept|]. set_solver. Qed.

Lemma heap_ok_merge : in64 (bsize ba + bsize bn) → heap_ok G (merge a ba bn M).
Proof using All.
  intros Hin. destruct merge_facts as (Hpn&Hfn&Hsn&?&?). destruct HM as [Hblk Hseg].
  destruct (Hblk a ba Ha) as (Hoka&(sz&Hsz&Hsa&Hea&Hfa&_)&Hpa&_).
  destruct (Hblk _ bn Hn) as (Hokn&(sz'&Hsz'&_&Hen&_&Hln)&_&Hnn).
  rewrite Hsn in Hsz', Hln, Hen. assert (sz' = sz) as -> by congruence.
  pose proof merge_kept as HK. pose proof merge_keep as Hkeep. pose proof merge_lookup_a as HLa. pose proof merge_lookup_n as HLn.
  set (M' := merge a ba bn M) in *. set (nn := a + bsize ba + bsize bn) in *.
  split.
  - intros x b Hx. destruct (decide (x = a)) as [->|Hxa]; [|destruct (decide (x = a + bsize ba)) as [->|Hxn]].
    + assert (b = merged ba bn) as -> by congruence. unfold merged. split; [|split; [|split]]; simpl.
      * unfold kMinBlockSize in *. split_and!; [apply Hoka|lia| |apply Hoka].
        rewrite Z.add_mod by done. by replace (bsize ba mod 16) with 0 by naive_solver;
        replace (bsize bn mod 16) with 0 by naive_solver.
      * exists sz. simpl. split_and!; try done; [lia|]. intros ?. rewrite Z.add_assoc. by apply Hln.
      * intros Hf. destruct (Hpa Hf) as (p&Hp&Hps&Hpl&?).
        destruct (Hblk _ _ Hp) as ((_&?&_)&_). unfold kMinBlockSize in *. simpl in *.
        destruct (Hkeep (a - bprev ba) p) as (p'&Hp'&S1&S2&S3&S4&S5&S6); [lia|lia|done|].
        exists p'. split_and!; congruence.
      * intros Hl. destruct (Hnn Hl) as (n2&Hn2&?&?&?). fold nn in Hn2. simpl in *.
        destruct (Hkeep nn n2) as (n'&Hn'&S1&S2&S3&S4&S5&S6); [lia|lia|done|].
        rewrite decide_True in S6 by done. exists n'. rewrite Z.add_assoc. split_and!; [exact Hn'|congruence..].
    + congruence.
    + assert (x ∉ [a; a + bsize ba]) as Hxs by set_solver.
      destruct (kept_inv _ _ _ _ _ _ _ _ HK Hxs Hx) as (b0&Hb0&S1&S2&S3&S4&S5&S6).
      destruct (Hblk x b0 Hb0) as ((?&?&?&?)&(szx&?)&Hpx&Hnx). split; [|split; [|split]].
      * rewrite S1, S6. split_and!; try done; case_decide; done.
      * exists szx. by rewrite S1, S3, S4, S5.
      * intros Hf. rewrite S3 in Hf. destruct (Hpx Hf) as (p&Hp&?&?&?). rewrite S5, S6.
        case_decide as Hd.
        -- destruct Hd as [Hl ->]. exists (merged ba bn).
           destruct (Hnn Hl) as (n2&Hn2&?&?&?). fold nn in Hn2. assert (n2 = b0) as -> by congruence.
           replace (nn - (bsize ba + bsize bn)) with a by lia. split_and!; simpl; congruence.
        -- destruct (decide (x - bprev b0 = a)) as [E|].
           { exfalso. assert (p = ba) as -> by congruence. apply Hxn. lia. }
           destruct (decide (x - bprev b0 = a + bsize ba)) as [E|].
           { exfalso. assert (p = bn) as -> by congruence. apply Hd. split; [done|lia]. }
           destruct (Hkeep (x - bprev b0) p) as (p'&Hp'&T1&T2&T3&T4&T5&T6); [done|done|done|]. exists p'. split_and!; congruence.
      * intros Hl. rewrite S4 in Hl. destruct (Hnx Hl) as (n2&Hn2&?&?&?). rewrite S1, S5.
        destruct (decide (x + bsize b0 = a)) as [E|].
        { rewrite E in *. exists (merged ba bn). split_and!; simpl; congruence. }
        destruct (decide (x + bsize b0 = a + bsize ba)) as [E|].
        { exfalso. rewrite E in *. apply Hxa. assert (n2 = bn) as -> by congruence. lia. }
        destruct (Hkeep (x + bsize b0) n2) as (n'&Hn'&T1&T2&T3&T4&T5&T6); [done|done|done|]. exists n'. split_and!; try congruence. rewrite T6.
        case_decide as Hd; [|congruence]. exfalso. destruct Hd as [Hlb E].
        destruct (Hnn Hlb) as (n3&Hn3&?&?&?). fold nn in Hn3. rewrite E in *. assert (n3 = n2) as -> by congruence.
        apply Hxn. lia.
  - intros s szs Hs. destruct (Hseg s szs Hs) as (b&Hb&Hbf&Hbs).
    destruct (decide (s = a)) as [->|Hsa'].
    { exists (merged ba bn). split_and!; simpl; congruence. }
    destruct (decide (s = a + bsize ba)) as [->|]; [congruence|].
    destruct (Hkeep s b) as (b'&Hb'&T1&T2&T3&T4&T5&T6); [done|done|done|]. exists b'. split_and!; congruence.
Qed.

Lemma merge_keep_inv x b' :
  merge a ba bn M !! x = Some b' →
  (x = a ∧ b' = merged ba bn) ∨
  (x ≠ a ∧ x ≠ a + bsize ba ∧ ∃ b, M !! x = Some b ∧
   same_but_prev (blast bn) (a + bsize ba + bsize bn) (bsize ba + bsize bn) x b b').
Proof using All.
  intros Hx. pose proof merge_lookup_a. pose proof merge_lookup_n.
  destruct (decide (x = a)) as [->|]; [left; split; congruence|right].
  destruct (decide (x = a + bsize ba)) as [->|]; [congruence|]. split_and!; [done|done|].
  eapply kept_inv; [apply merge_kept|set_solver|done].
Qed.

Lemma coalesced_merge : bfree ba = false → coalesced M → coalesced (merge a ba bn M).
Proof using All.
  intros Hu HC x b n Hx Hl Hxn Hfb Hfn.
  apply merge_keep_inv in Hx as [[-> ->]|(?&?&b0&Hb0&S1&S2&S3&S4&S5&S6)];
    [simpl in *; congruence|].
  apply merge_keep_inv in Hxn as [[? ->]|(?&?&n0&Hn0&T1&T2&T3&T4&T5&T6)];
    [simpl in *; congruence|].
  rewrite S1 in Hn0. apply (HC x b0 n0); congruence.
Qed.
Lemma next_used_merge : next_used M (a + bsize ba) → next_used (merge a ba bn M) a.
Proof using All.
  intros HU b n Hx Hl Hxn. destruct merge_facts as (?&?&?&?&?).
  rewrite merge_lookup_a in Hx. simplify_eq. simpl in *.
  apply merge_keep_inv in Hxn as [[? _]|(?&?&n0&Hn0&T1&T2&T3&T4&T5&T6)]; [lia|].
  rewrite Z.add_assoc in Hn0. rewrite T2. by apply (HU bn n0).
Qed.
Lemma prev_used_merge : prev_used M a → prev_used (merge a ba bn M) a.
Proof using All.
  intros HU b p Hx Hf Hxp. destruct merge_facts as (?&?&?&?&?).
  rewrite merge_lookup_a in Hx. simplify_eq. simpl in *.
  apply merge_keep_inv in Hxp as [[E ->]|(?&?&n0&Hn0&T1&T2&T3&T4&T5&T6)].
  - simpl. apply (HU ba ba Ha Hf). by rewrite E.
  - rewrite T2. by apply (HU ba n0).
Qed.
Lemma free_sizes_merge :
  bfree ba = false → bfree bn = false → free_sizes (merge a ba bn M) = free_sizes M.
Proof using All.
  intros Hfa Hfn. destruct merge_facts as (?&?&?&?&?).
  apply map_eq. intros x. unfold free_sizes. rewrite !lookup_omap. unfold merge. rewrite lookup_fix_prev.
  rewrite lookup_insert, lookup_delete.
  destruct (decide (a = x)) as [<-|]; [rewrite decide_False, Ha by lia; simpl; by rewrite Hfa|].
  destruct (decide (a + bsize ba = x)) as [<-|].
  { rewrite decide_False, Hn by lia. simpl. by rewrite Hfn. }
  case_decide; [|done]. by destruct (M !! x).
Qed.
Lemma used_caps_merge :
  bfree ba = false →
  used_caps (merge a ba bn M) =
    <[a := bsize ba + bsize bn - kBlockHeaderSize]> (delete (a + bsize ba) (used_caps M)).
Proof using All.
  intros Hfa. destruct merge_facts as (?&?&?&?&?).
  apply map_eq. intros x. rewrite lookup_insert, lookup_delete.
  unfold used_caps. rewrite !lookup_omap. unfold merge. rewrite lookup_fix_prev.
  rewrite lookup_insert, lookup_delete.
  destruct (decide (a = x)) as [<-|]; [rewrite decide_False by lia; simpl; by rewrite Hfa|].
  destruct (decide (a + bsize ba = x)) as [<-|]; [by rewrite decide_False by lia|].
  case_decide; [|done]. by destruct (M !! x).
Qed.
End merge.

Section split.
Context (G : gmap Z Z) (M : gmap Z blk) (a t : Z) (ba : blk).
Context (HM : heap_ok G M) (Ha : M !! a = Some ba) (Ht : 48 ≤ t) (Htm : t mod 16 = 0)
        (Hr : 48 ≤ bsize ba - t) (Hin : in64 t) (Hfresh : M !! (a + t) = None).

Lemma split_lookup_a : split a ba t M !! a = Some (front ba t).
Proof using All.
  unfold split. rewrite lookup_fix_prev, decide_False by lia.
  rewrite lookup_insert_ne by lia. apply lookup_insert_eq.
Qed.
Lemma split_lookup_rest : split a ba t M !! (a + t) = Some (rest_of ba t).
Proof using All.
  unfold split. rewrite lookup_fix_prev, decide_False by lia. apply lookup_insert_eq.
Qed.
Lemma split_kept : kept [a; a + t] (blast ba) (a + bsize ba) (bsize ba - t) M (split a ba t M).
Proof using All.
  intros x Hx. unfold split. rewrite lookup_fix_prev.
  rewrite !lookup_insert_ne by set_solver. done.
Qed.
Lemma split_keep x b :
  x ≠ a → M !! x = Some b →
  ∃ b', split a ba t M !! x = Some b' ∧
    same_but_prev (blast ba) (a + bsize ba) (bsize ba - t) x b b'.
Proof using All.
  intros ? Hx. eapply kept_lookup; [apply split_kept| |done].
  assert (x ≠ a + t) by congruence. set_solver.
Qed.
Lemma split_keep_inv x b' :
  split a ba t M !! x = Some b' →
  (x = a ∧ b' = front ba t) ∨ (x = a + t ∧ b' = rest_of ba t) ∨
  (x ≠ a ∧ x ≠ a + t ∧ ∃ b, M !! x = Some b ∧
   same_but_prev (blast ba) (a + bsize ba) (bsize ba - t) x b b').
Proof using All.
  intros Hx. pose proof split_lookup_a. pose proof split_lookup_rest.
  destruct (decide (x = a)) as [->|]; [left; split; congruence|right].
  destruct (decide (x = a + t)) as [->|]; [left; split; congruence|right]. split_and!; [done|done|].
  eapply kept_inv; [apply split_kept|set_solver|done].
Qed.

Lemma heap_ok_split : heap_ok G (split a ba t M).
Proof using All.
  destruct HM as [Hblk Hseg].
  destruct (Hblk a ba Ha) as (Hoka&(sz&Hsz&Hsa&Hea&Hfa&Hla)&Hpa&Hna).
  pose proof split_keep as Hkeep. pose proof split_lookup_a as HLa. pose proof split_lookup_rest as HLr.
  split.
  - intros x b [[-> ->]|[[-> ->]|(Hxa&Hxt&b0&Hb0&S1&S2&S3&S4&S5&S6)]]%split_keep_inv.
    + split; [|split; [|split]].
      * unfold front, kMinBlockSize; simpl. split_and!; [apply Hoka|lia|done|apply Hoka].
      * exists sz. unfold front; simpl. split_and!; try done. lia.
      * intros Hf. destruct (Hpa Hf) as (p&Hp&?&?&?). destruct (Hblk _ _ Hp) as ((_&?&_)&_).
        unfold kMinBlockSize in *. simpl in *.
        destruct (Hkeep (a - bprev ba) p) as (p'&Hp'&T1&T2&T3&T4&T5&T6); [lia|done|].
        exists p'. split_and!; congruence.
      * intros _. exists (rest_of ba t). by split_and!.
    + split; [|split; [|split]].
      * unfold rest_of, kMinBlockSize; simpl. split_and!; [|lia| |done]; align_lia.
      * exists sz. unfold rest_of; simpl. split_and!; try done; try lia. intros Hl. specialize (Hla Hl). lia.
      * intros _. exists (front ba t). simpl. split_and!; [|done..].
        by replace (a + t - t) with a by lia.
      * intros Hl. simpl in *. destruct (Hna Hl) as (n&Hn&?&?&?).
        destruct (Hkeep (a + bsize ba) n) as (n'&Hn'&T1&T2&T3&T4&T5&T6); [lia|done|].
        rewrite decide_True in T6 by done. exists n'.
        replace (a + t + (bsize ba - t)) with (a + bsize ba) by lia. split_and!; congruence.
    + destruct (Hblk x b0 Hb0) as ((?&?&?&?)&(szx&?)&Hpx&Hnx). split; [|split; [|split]].
      * rewrite S1, S6. split_and!; try done. case_decide as Hd; [|done].
        destruct Hd as [Hl ->]. destruct (Hna Hl) as (n&Hn&Hpn&?&?).
        assert (n = b0) as -> by congruence. unfold in64 in *. lia.
      * exists szx. by rewrite S1, S3, S4, S5.
      * intros Hf. rewrite S3 in Hf. destruct (Hpx Hf) as (p&Hp&?&?&?). rewrite S5, S6.
        case_decide as Hd.
        -- destruct Hd as [Hl ->]. destruct (Hna Hl) as (n&Hn&?&?&?). assert (n = b0) as -> by congruence.
           exists (rest_of ba t). replace (a + bsize ba - (bsize ba - t)) with (a + t) by lia.
           split_and!; simpl; congruence.
        -- destruct (decide (x - bprev b0 = a)) as [E|].
           { exfalso. assert (p = ba) as -> by congruence. apply Hd. split; [done|lia]. }
           destruct (Hkeep (x - bprev b0) p) as (p'&Hp'&T1&T2&T3&T4&T5&T6); [done|done|].
           exists p'. split_and!; congruence.
      * intros Hl. rewrite S4 in Hl. destruct (Hnx Hl) as (n2&Hn2&?&?&?). rewrite S1, S5.
        destruct (decide (x + bsize b0 = a)) as [E|].
        { rewrite E in *. exists (front ba t). split_and!; simpl; congruence. }
        destruct (Hkeep (x + bsize b0) n2) as (n'&Hn'&T1&T2&T3&T4&T5&T6); [done|done|].
        exists n'. split_and!; try congruence. rewrite T6.
        case_decide as Hd; [|congruence]. exfalso. destruct Hd as [Hlb E].
        destruct (Hna Hlb) as (n3&Hn3&?&?&?). rewrite E in *. assert (n3 = n2) as -> by congruence.
        apply Hxa. lia.
  - intros s szs Hs. destruct (Hseg s szs Hs) as (b&Hb&Hbf&Hbs).
    destruct (decide (s = a)) as [->|Hsa'].
    { exists (front ba t). split_and!; simpl; congruence. }
    destruct (Hkeep s b) as (b'&Hb'&T1&T2&T3&T4&T5&T6); [done|done|].
    exists b'. split_and!; congruence.
Qed.

Lemma coalesced_split : bfree ba = false → coalesced M → coalesced (split a ba t M).
Proof using All.
  intros Hu HC x b n Hx Hl Hxn Hfb Hfn.
  apply split_keep_inv in Hx as [[-> ->]|[[-> ->]|(?&?&b0&Hb0&S1&S2&S3&S4&S5&S6)]];
    [simpl in *; congruence|done|].
  apply split_keep_inv in Hxn as [[? ->]|[[? ->]|(?&?&n0&Hn0&T1&T2&T3&T4&T5&T6)]];
    [simpl in *; congruence|done|].
  rewrite S1 in Hn0. apply (HC x b0 n0); congruence.
Qed.
Lemma next_used_split : next_used M a → next_used (split a ba t M) (a + t).
Proof using All.
  intros HU b n Hx Hl Hxn. rewrite split_lookup_rest in Hx. simplify_eq. simpl in *.
  replace (a + t + (bsize ba - t)) with (a + bsize ba) in Hxn by lia.
  apply split_keep_inv in Hxn as [[? ->]|[[? ->]|(?&?&n0&Hn0&T1&T2&T3&T4&T5&T6)]]; [lia|done|].
  rewrite T2. by apply (HU ba n0).
Qed.
Lemma prev_used_split : bfree ba = false → prev_used (split a ba t M) (a + t).
Proof using All.
  intros Hu b p Hx Hf Hxp. rewrite split_lookup_rest in Hx. simplify_eq. simpl in *.
  replace (a + t - t) with a in Hxp by lia. rewrite split_lookup_a in Hxp. by simplify_eq.
Qed.
Lemma free_sizes_split : bfree ba = false → free_sizes (split a ba t M) = free_sizes M.
Proof using All.
  intros Hfa. apply map_eq. intros x. unfold free_sizes. rewrite !lookup_omap. unfold split.
  rewrite lookup_fix_prev, !lookup_insert.
  destruct (decide (a + t = x)) as [<-|]; [rewrite decide_False, Hfresh by lia; done|].
  destruct (decide (a = x)) as [<-|]; [rewrite decide_False, Ha by lia; simpl; by rewrite Hfa|].
  case_decide; [|done]. by destruct (M !! x).
Qed.
Lemma used_caps_split :
  bfree ba = false →
  used_caps (split a ba t M) =
    <[a + t := bsize ba - t - kBlockHeaderSize]> (<[a := t - kBlockHeaderSize]> (used_caps M)).
Proof using All.
  intros Hfa. apply map_eq. intros x. rewrite !lookup_insert. unfold used_caps.
  rewrite !lookup_omap. unfold split. rewrite lookup_fix_prev, !lookup_insert.
  destruct (decide (a + t = x)) as [<-|]; [by rewrite decide_False by lia|].
  destruct (decide (a = x)) as [<-|]; [rewrite decide_False by lia; simpl; by rewrite Hfa|].
  case_decide; [|done]. by destruct (M !! x).
Qed.
End split.

(** ** Adding and releasing a segment *)
Section add_segment.
Context (G : gmap Z Z) (M : gmap Z blk) (s sz : Z).
Context (HM : heap_ok G M) (Hs : M !! s = None) (HGs : G !! s = None).

Lemma heap_ok_add :
  s mod 16 = 0 → sz mod 16 = 0 → 48 ≤ sz →
  heap_ok (<[s := sz]> G) (<[s := segment_blk s sz false]> M).
Proof using All.
  intros Hsm Hzm Hz. destruct HM as [Hblk Hseg].
  assert (Hkeep : ∀ x b, M !! x = Some b → <[s := segment_blk s sz false]> M !! x = Some b).
  { intros x b Hx. rewrite lookup_insert_ne by congruence. done. }
  split.
  - intros x b Hx. destruct (decide (x = s)) as [->|].
    + rewrite lookup_insert_eq in Hx. simplify_eq. split; [|split; [|split]]; simpl; try done.
      exists sz. simpl. rewrite lookup_insert_eq. split_and!; try done; lia.
    + rewrite lookup_insert_ne in Hx by done. destruct (Hblk x b Hx) as (?&(szx&Hsx&?)&Hp&Hn).
      split; [done|split; [|split]].
      * exists szx. by rewrite lookup_insert_ne by congruence.
      * intros Hf. destruct (Hp Hf) as (p&Hp'&?). exists p. split; [by apply Hkeep|done].
      * intros Hl. destruct (Hn Hl) as (n1&Hn'&?). exists n1. split; [by apply Hkeep|done].
  - intros s' sz'. destruct (decide (s = s')) as [<-|].
    + intros _. exists (segment_blk s sz false). by rewrite lookup_insert_eq.
    + rewrite lookup_insert_ne by done. intros Hs'. destruct (Hseg s' sz' Hs') as (b&Hb&?). exists b. split; [by apply Hkeep|done].
Qed.
Lemma coalesced_add : coalesced M → coalesced (<[s := segment_blk s sz false]> M).
Proof using.
  clear HM Hs HGs.
  intros HC x b n Hx Hl Hn Hfb Hfn. rewrite lookup_insert in Hx, Hn.
  case_decide; [by simplify_eq|]. case_decide; [by simplify_eq|]. exact (HC x b n Hx Hl Hn Hfb Hfn).
Qed.
Lemma add_next_used : next_used (<[s := segment_blk s sz false]> M) s.
Proof using.
  clear HM Hs HGs. intros b n Hb Hl. rewrite lookup_insert_eq in Hb. by simplify_eq. Qed.
Lemma add_prev_used : prev_used (<[s := segment_blk s sz false]> M) s.
Proof using.
  clear HM Hs HGs. intros b n Hb Hl. rewrite lookup_insert_eq in Hb. by simplify_eq. Qed.
Lemma free_sizes_add : free_sizes (<[s := segment_blk s sz false]> M) = free_sizes M.
Proof using Hs.
  clear HM HGs.
  apply map_eq. intros x. unfold free_sizes. rewrite !lookup_omap, lookup_insert.
  destruct (decide (s = x)) as [<-|]; [by rewrite Hs|done].
Qed.
Lemma used_caps_add :
  used_caps (<[s := segment_blk s sz false]> M) = <[s := sz - kBlockHeaderSize]> (used_caps M).
Proof using.
  clear HM Hs HGs.
  apply map_eq. intros x. rewrite lookup_insert. unfold used_caps. rewrite !lookup_omap, lookup_insert.
  by destruct (decide (s = x)).
Qed.
End add_segment.

Section release_segment.
Context (G : gmap Z Z) (M : gmap Z blk) (s : Z) (b : blk).
Context (HM : heap_ok G M) (Hs : M !! s = Some b) (Hf : bfirst b = true) (Hl : blast b = true).
Context (Honly : ∀ x bx, M !! x = Some bx → bseg bx = s → x = s).

Lemma heap_ok_release : heap_ok (delete s G) (delete s M).
Proof using All.
  destruct HM as [Hblk Hseg].
  split.
  - intros x bx [Hxs Hx]%lookup_delete_Some. destruct (Hblk x bx Hx) as (?&(szx&Hsx&?)&Hp&Hn).
    assert (bseg bx ≠ s) by (intros E; apply Hxs; symmetry; by eapply Honly).
    split; [done|split; [|split]].
    + exists szx. by rewrite lookup_delete_ne by done.
    + intros Hfx. destruct (Hp Hfx) as (p&Hlp&?&?&?). exists p.
      rewrite lookup_delete_ne by congruence. done.
    + intros Hlx. destruct (Hn Hlx) as (n&Hln&?&?&?). exists n.
      rewrite lookup_delete_ne by congruence. done.
  - intros s' sz' [Hne Hs']%lookup_delete_Some. destruct (Hseg s' sz' Hs') as (b'&?&?).
    exists b'. by rewrite lookup_delete_ne.
Qed.
Lemma coalesced_release : coalesced M → coalesced (delete s M).
Proof using.
  clear HM Hs Hf Hl Honly.
  intros HC x bx n [_ Hx]%lookup_delete_Some ? [_ Hn]%lookup_delete_Some. by eapply HC.
Qed.
Lemma free_sizes_release : bfree b = false → free_sizes (delete s M) = free_sizes M.
Proof using Hs.
  clear HM Hf Hl Honly.
  intros Hu. apply map_eq. intros x. unfold free_sizes. rewrite !lookup_omap, lookup_delete.
  destruct (decide (s = x)) as [<-|]; [rewrite Hs; simpl; by rewrite Hu|done].
Qed.
Lemma used_caps_release : used_caps (delete s M) = delete s (used_caps M).
Proof using.
  clear HM Hs Hf Hl Honly.
  apply map_eq. intros x. rewrite lookup_delete. unfold used_caps. rewrite !lookup_omap, lookup_delete.
  by destruct (decide (s = x)).
Qed.
End release_segment.

(** ** Neighbours in use *)
Lemma coalesced_next_used M a b :
  coalesced M → M !! a = Some b → bfree b = true → next_used M a.
Proof.
  intros HC Ha Hf b' n Hb Hl Hn. assert (b' = b) as -> by congruence.
  destruct (bfree n) eqn:E; [|done]. exfalso. by eapply (HC a b n).
Qed.
Lemma coalesced_prev_used G M a b :
  heap_ok G M → coalesced M → M !! a = Some b → bfree b = true → prev_used M a.
Proof.
  intros [Hblk _] HC Ha Hf b' p Hb Hfi Hp. assert (b' = b) as -> by congruence.
  destruct (bfree p) eqn:E; [|done]. exfalso.
  destruct (Hblk a b Ha) as (_&_&Hpl&_). destruct (Hpl Hfi) as (p'&Hp'&Hs&Hl&_).
  assert (p' = p) as -> by congruence.
  apply (HC _ p b Hp Hl); [|done|done]. rewrite <-Ha. f_equal. lia.
Qed.
Lemma next_used_clear M a x : next_used M x → next_used (set_free a false M) x.
Proof.
  intros HU b n (b0&Hb0&Hb&_&_)%set_free_lookup_fields Hl (n0&Hn0&_&Hne&He)%set_free_lookup_fields.
  rewrite Hb in *. simpl in *. destruct (decide (x + bsize b0 = a)) as [E|E].
  - rewrite (He E). done.
  - rewrite (Hne E). by apply (HU b0 n0).
Qed.
Lemma prev_used_clear M a x : prev_used M x → prev_used (set_free a false M) x.
Proof.
  intros HU b n (b0&Hb0&Hb&_&_)%set_free_lookup_fields Hl (n0&Hn0&_&Hne&He)%set_free_lookup_fields.
  rewrite Hb in *. simpl in *. destruct (decide (x - bprev b0 = a)) as [E|E].
  - rewrite (He E). done.
  - rewrite (Hne E). by apply (HU b0 n0).
Qed.
