(* ===== verification/SegmentList.v ===== *)
(** The doubly linked free lists of the segment heap: the ownership of the
    [FreeNode]s of a bin, and of the array of bins. *)

From iris.proofmode Require Import proofmode.
From S2P Require Import Prelude.
From S2P Require Import HeapProp.
From S2P Require Import Memory.
From S2P Require Import Logic.
From S2P Require Import SegmentHeap.

(** ** One list *)

(** The nodes of the blocks [l], linked from [head]; the node before the first is
    [prev] and the last points to [next]. *)
Fixpoint dls (prev head : Z) (l : list Z) (next : Z) : heapPropI :=
  match l with
  | [] => ⌜head = next⌝
  | b :: l => ⌜head = nodeOf b⌝ ∗ head ↦64 prev ∗ ∃ n, (head + 8)%Z ↦64 n ∗ dls head n l next
  end.
(** The last node of the segment: [prev] when it is empty. *)
Definition last_node (prev : Z) (l : list Z) : Z :=
  match last l with None => prev | Some b => nodeOf b end.
Definition bin_list (head : Z) (l : list Z) : heapPropI := dls 0 head l 0.
(** The sixteen bytes of a node. *)
Definition node_raw (b : Z) : heapPropI := raw (nodeOf b) 16.

Section list.
Implicit Types (p h n b : Z) (l : list Z).

Lemma dls_app p h l1 l2 n :
  dls p h (l1 ++ l2) n ⊣⊢ ∃ m, dls p h l1 m ∗ dls (last_node p l1) m l2 n.
Proof.
  revert p h. induction l1 as [|b l1 IH]; intros p h; simpl.
  - unfold last_node; simpl. iSplit; [iIntros "H"; iExists h; by iFrame|].
    by iIntros "(%m & -> & H)".
  - iSplit.
    + iIntros "(-> & Hp & %n1 & Hn & H)". rewrite IH. iDestruct "H" as "(%m & H1 & H2)".
      iExists m. iSplitR "H2"; [iSplit; [done|]; by iFrame|].
      unfold last_node. rewrite last_cons. by destruct (last l1).
    + iIntros "(%m & (-> & Hp & %n1 & Hn & H1) & H2)". iSplit; [done|]. iFrame. rewrite IH.
      iExists m. iFrame. unfold last_node. rewrite last_cons. by destruct (last l1).
Qed.
Lemma dls_cons_split p h b l n :
  dls p h (b :: l) n ⊣⊢ ⌜h = nodeOf b⌝ ∗ h ↦64 p ∗ ∃ m, (h + 8)%Z ↦64 m ∗ dls h m l n.
Proof. done. Qed.
Lemma dls_snoc p h l b n :
  dls p h (l ++ [b]) n ⊣⊢ dls p h l (nodeOf b) ∗ nodeOf b ↦64 last_node p l ∗ (nodeOf b + 8)%Z ↦64 n.
Proof.
  rewrite dls_app. simpl. iSplit.
  - by iIntros "(%m & H & -> & Hp & %n1 & Hn & ->)"; iFrame.
  - iIntros "(H & Hp & Hn)". iExists (nodeOf b). iFrame. iSplit; [done|]. by iFrame.
Qed.

(** The head of a list is a 64-bit value, null only when the list is empty. *)
Lemma bin_list_head h l : bin_list h l ⊢ ⌜in64 h ∧ (h = 0 ↔ l = [])⌝.
Proof.
  destruct l as [|b l]; unfold bin_list; simpl.
  - iIntros (->). iPureIntro. split; [by vm_compute|done].
  - iIntros "(-> & H & _)". iDestruct (word_range with "H") as %[??]; [lia|].
    iPureIntro. unfold in64. split; [lia|]. split; [lia|done].
Qed.
Lemma dls_head p h l n :
  dls p h l n ⊢ ⌜match l with [] => h = n | b :: _ => h = nodeOf b ∧ 0 < h ∧ in64 h end⌝.
Proof.
  destruct l as [|b l]; simpl; [done|].
  iIntros "(-> & H & _)". iDestruct (word_range with "H") as %[??]; [lia|]. iPureIntro.
  unfold in64. lia.
Qed.
Lemma node_join b p n : nodeOf b ↦64 p ∗ (nodeOf b + 8)%Z ↦64 n ⊢ node_raw b.
Proof. rewrite !word64_raw. unfold node_raw. rewrite (raw_take (nodeOf b) 8 16); [done|lia]. Qed.
Lemma node_split b :
  b mod 16 = 0 → node_raw b ⊢ ∃ p n, nodeOf b ↦64 p ∗ (nodeOf b + 8)%Z ↦64 n.
Proof.
  intros Hb. unfold node_raw. rewrite (raw_take (nodeOf b) 8 16); [|lia].
  unfold nodeOf, kNodeOffset. rewrite raw_word64; [|align_lia]. rewrite raw_word64; [|align_lia].
  iIntros "[(%p & $) (%n & $)]".
Qed.
(** The nodes are distinct, and distinct from any other node that is owned. *)
Lemma dls_fresh p h l n b : dls p h l n ∗ node_raw b ⊢ ⌜b ∉ l⌝.
Proof.
  iIntros "[H Hb]". destruct (decide (b ∈ l)) as [(l1&l2&->)%list_elem_of_split|]; [|done].
  rewrite dls_app. simpl. iDestruct "H" as "(%m & _ & -> & Hp & _)".
  rewrite word64_raw. by iDestruct (raw_disjoint_strict with "[$Hp $Hb]") as %?.
Qed.
Lemma dls_nodup p h l n : dls p h l n ⊢ ⌜NoDup l⌝.
Proof.
  revert p h. induction l as [|b l IH]; intros p h; simpl; [iIntros "_"; iPureIntro; constructor|].
  iIntros "(-> & Hp & %m & Hn & H)". iDestruct (IH with "H") as %?.
  iDestruct (node_join with "[$Hp $Hn]") as "Hb".
  iDestruct (dls_fresh with "[$H $Hb]") as %?. iPureIntro. by constructor.
Qed.
End list.

(** ** Changing a list *)
Section list_rules.
Context `{HOS : !OS}.

(** [if (next != nullptr) next->prev = v]. *)
Lemma wp_fix_next p h l v Q :
  in64 v → dls p h l 0 ∗ (dls v h l 0 -∗ Q ()) ⊢
  wp (if negb (h =? 0) then store_prev h v else mret ()) Q.
Proof.
  intros Hv. iIntros "[H HQ]". iDestruct (dls_head with "H") as %Hh. destruct l as [|b l]; simpl.
  - subst h. simpl. iApply wp_ret. by iApply "HQ".
  - destruct Hh as (Hh&?&?). rewrite (proj2 (Z.eqb_neq _ 0)); [|lia]. simpl.
    iDestruct "H" as "(_ & Hp & Hn)". iApply wp_store; [exact Hv|]. iFrame "Hp". iIntros "Hp".
    iApply "HQ". by iFrame.
Qed.
End list_rules.

(** ** The bins *)

(** [B] gives the blocks of every bin, in list order. *)
Definition bins_res (bins : list Z) (B : list (list Z)) : heapPropI :=
  [∗ list] h; l ∈ bins; B, bin_list h l.

Section bins.
Lemma bins_res_acc bins B i l :
  B !! i = Some l →
  bins_res bins B ⊢ ∃ h, ⌜bins !! i = Some h⌝ ∗ bin_list h l ∗
    (∀ h' l', bin_list h' l' -∗ bins_res (<[i := h']> bins) (<[i := l']> B)).
Proof.
  intros HB. iIntros "H". iDestruct (big_sepL2_length with "H") as %Hlen.
  destruct (lookup_lt_is_Some_2 bins i) as [h Hh]; [rewrite Hlen; by eapply lookup_lt_Some|].
  iExists h. iSplit; [done|]. iApply (big_sepL2_insert_acc with "H"); done.
Qed.
Lemma bins_res_fresh bins B b i l :
  B !! i = Some l → bins_res bins B ∗ node_raw b ⊢ ⌜b ∉ l⌝.
Proof.
  intros HB. iIntros "[H Hb]".
  iDestruct (bins_res_acc _ _ _ _ HB with "H") as (h) "(_ & H & _)".
  by iDestruct (dls_fresh with "[$H $Hb]") as %?.
Qed.
Lemma bins_res_nodup bins B i l : B !! i = Some l → bins_res bins B ⊢ ⌜NoDup l⌝.
Proof.
  intros HB. iIntros "H".
  iDestruct (bins_res_acc _ _ _ _ HB with "H") as (h) "(_ & H & _)". iApply (dls_nodup with "H").
Qed.
End bins.
