(* ===== verification/SegmentBins.v ===== *)
(** The bins of the segment heap: the correspondence between the bins and the
    free blocks, and the rules of [insertFree], [removeFree] and [findFit]. *)

From iris.proofmode Require Import proofmode.
From S2P Require Import Prelude.
From S2P Require Import HeapProp.
From S2P Require Import Memory.
From S2P Require Import Logic.
From S2P Require Import SegmentHeap.
From S2P Require Import SegmentTags.
From S2P Require Import SegmentList.

(** ** Bin indices *)
Lemma binIndex_range sz : 0 ≤ binIndex sz < kBinCount.
Proof.
  unfold binIndex, kBinCount, bit_width. pose proof (Z.log2_nonneg sz).
  destruct (sz =? 0); repeat case_match; lia.
Qed.
Lemma binIndex_mono s t : 0 ≤ s ≤ t → binIndex s ≤ binIndex t.
Proof.
  intros [H0 H]. unfold binIndex, kBinCount.
  assert (bit_width s ≤ bit_width t) as Hw.
  { unfold bit_width. pose proof (Z.log2_nonneg t). pose proof (Z.log2_le_mono s t H).
    destruct (Z.eqb_spec s 0), (Z.eqb_spec t 0); lia. }
  destruct (Z.ltb_spec 6 (bit_width s)), (Z.ltb_spec 6 (bit_width t)); lia.
Qed.

(** [B] lists exactly the free blocks, each in the bin of its size. *)
Definition bins_ok (B : list (list Z)) (F : gmap Z Z) : Prop :=
  length B = Z.to_nat kBinCount ∧
  (∀ i l, B !! i = Some l → NoDup l) ∧
  (∀ i l b, B !! i = Some l → b ∈ l → ∃ sz, F !! b = Some sz ∧ i = Z.to_nat (binIndex sz)) ∧
  (∀ b sz, F !! b = Some sz → ∃ l, B !! Z.to_nat (binIndex sz) = Some l ∧ b ∈ l).

Lemma bins_ok_init : bins_ok (replicate (Z.to_nat kBinCount) []) ∅.
Proof.
  split_and!; [done| | |by intros ??; rewrite lookup_empty].
  - intros i l [-> _]%lookup_replicate. constructor.
  - intros i l b [-> _]%lookup_replicate ?%not_elem_of_nil. done.
Qed.
Lemma bins_ok_lookup B F sz : bins_ok B F → ∃ l, B !! Z.to_nat (binIndex sz) = Some l.
Proof.
  intros (Hlen&_). apply lookup_lt_is_Some_2. pose proof (binIndex_range sz).
  unfold kBinCount in *. lia.
Qed.
Lemma bins_ok_insert B F b sz l :
  bins_ok B F → F !! b = None → B !! Z.to_nat (binIndex sz) = Some l →
  bins_ok (<[Z.to_nat (binIndex sz) := b :: l]> B) (<[b := sz]> F).
Proof.
  intros (Hlen&Hnd&Hin&Hall) Hb Hl. split_and!.
  - by rewrite length_insert.
  - intros i l' [(<-&<-&?)|[? Hl']]%list_lookup_insert_Some; [|by eapply Hnd].
    constructor; [|by eapply Hnd]. intros Hbl. destruct (Hin _ _ b Hl Hbl) as (?&?&_). congruence.
  - intros i l' b' [(<-&<-&?)|[? Hl']]%list_lookup_insert_Some Hb'.
    + apply elem_of_cons in Hb' as [->|Hb']; [exists sz; by rewrite lookup_insert_eq|].
      destruct (Hin _ _ b' Hl Hb') as (sz'&Hsz'&?). exists sz'. rewrite lookup_insert_ne //. congruence.
    + destruct (Hin _ _ b' Hl' Hb') as (sz'&Hsz'&?). exists sz'. rewrite lookup_insert_ne //. congruence.
  - intros b' sz' [[<- <-]|[Hne Hb']]%lookup_insert_Some.
    + exists (b :: l). split; [|by left]. apply list_lookup_insert_eq. by eapply lookup_lt_Some.
    + destruct (Hall b' sz' Hb') as (l'&Hl'&?).
      destruct (decide (Z.to_nat (binIndex sz) = Z.to_nat (binIndex sz'))) as [E|?].
      * exists (b :: l). rewrite E in Hl |- *. split; [|right; congruence].
        apply list_lookup_insert_eq. by eapply lookup_lt_Some.
      * exists l'. by rewrite list_lookup_insert_ne.
Qed.
Lemma bins_ok_split B F b sz :
  bins_ok B F → F !! b = Some sz → ∃ l1 l2, B !! Z.to_nat (binIndex sz) = Some (l1 ++ b :: l2).
Proof.
  intros (_&_&_&Hall) Hb. destruct (Hall b sz Hb) as (l&Hl&(l1&l2&->)%list_elem_of_split).
  by exists l1, l2.
Qed.
Lemma bins_ok_remove B F b sz l1 l2 :
  bins_ok B F → F !! b = Some sz → B !! Z.to_nat (binIndex sz) = Some (l1 ++ b :: l2) →
  bins_ok (<[Z.to_nat (binIndex sz) := l1 ++ l2]> B) (delete b F).
Proof.
  intros (Hlen&Hnd&Hin&Hall) Hb Hl. specialize (Hnd _ _ Hl) as Hndl.
  rewrite -Permutation_middle in Hndl. apply NoDup_cons in Hndl as [Hbn Hndl]. split_and!.
  - by rewrite length_insert.
  - intros i l' [(<-&<-&?)|[? Hl']]%list_lookup_insert_Some; [done|by eapply Hnd].
  - intros i l' b' [(<-&<-&?)|[? Hl']]%list_lookup_insert_Some Hb'.
    + destruct (Hin _ _ b' Hl) as (sz'&Hsz'&?); [set_solver|]. exists sz'.
      rewrite lookup_delete_ne //. by intros <-.
    + destruct (Hin _ _ b' Hl' Hb') as (sz'&Hsz'&E). exists sz'.
      rewrite lookup_delete_ne //. intros <-. by simplify_eq.
  - intros b' sz' [Hne Hb']%lookup_delete_Some. destruct (Hall b' sz' Hb') as (l'&Hl'&?).
    destruct (decide (Z.to_nat (binIndex sz) = Z.to_nat (binIndex sz'))) as [E|?].
    + exists (l1 ++ l2). rewrite E in Hl |- *. simplify_eq. split; [|set_solver].
      apply list_lookup_insert_eq. by eapply lookup_lt_Some.
    + exists l'. by rewrite list_lookup_insert_ne.
Qed.

(** ** insertFree and removeFree *)
Section rules.
Context `{HOS : !OS}.
Implicit Types (h : SegmentHeap) (b : Z).

Lemma wp_get_bin h i v Q : bins_ h !! Z.to_nat i = Some v → Q v ⊢ wp (get_bin h i) Q.
Proof. intros Hv. by apply wp_expect. Qed.

Lemma wp_insertFree h b sz free first last B l Q :
  b mod 16 = 0 → B !! Z.to_nat (binIndex sz) = Some l →
  tag b sz free first last ∗ node_raw b ∗ bins_res (bins_ h) B ∗
  (∀ h', ⌜segments_ h' = segments_ h⌝ -∗ tag b sz true first last -∗
     bins_res (bins_ h') (<[Z.to_nat (binIndex sz) := b :: l]> B) -∗ Q h') ⊢
  wp (insertFree h b) Q.
Proof.
  intros Hb HB. iIntros "(Ht & Hn & HB & HQ)".
  iDestruct (bins_res_acc _ _ _ _ HB with "HB") as (head Hhead) "[Hl HB]".
  iDestruct (bin_list_head with "Hl") as %[Hin _].
  rewrite node_split //. iDestruct "Hn" as (p n) "[Hp Hn]".
  iDestruct (word_range with "Hp") as %[??]; [lia|]. 
  iApply wp_bind. iApply wp_size. iFrame "Ht". iIntros "Ht".
  iApply wp_bind. iApply wp_get_bin; [done|].
  iApply wp_bind. iApply wp_store; [by vm_compute|]. iFrame "Hp". iIntros "Hp".
  iApply wp_bind. iApply wp_store; [exact Hin|]. iFrame "Hn". iIntros "Hn".
  iApply wp_bind. iApply wp_load. iFrame "Hn". iIntros "Hn".
  iApply wp_bind. iApply (wp_fix_next _ _ l); [unfold in64; lia|]. iFrame "Hl". iIntros "Hl".
  iApply wp_bind. iApply wp_setFree. iFrame "Ht". iIntros "Ht". iApply wp_ret.
  iApply ("HQ" $! (set_bin h _ _) with "[//] Ht"). iApply "HB". unfold bin_list. simpl. iSplit; [done|]. iFrame.
Qed.

Lemma wp_removeFree h b sz first last B l1 l2 Q :
  B !! Z.to_nat (binIndex sz) = Some (l1 ++ b :: l2) →
  tag b sz true first last ∗ bins_res (bins_ h) B ∗
  (∀ h', ⌜segments_ h' = segments_ h⌝ -∗ tag b sz false first last -∗ node_raw b -∗
     bins_res (bins_ h') (<[Z.to_nat (binIndex sz) := l1 ++ l2]> B) -∗ Q h') ⊢
  wp (removeFree h b) Q.
Proof.
  intros HB. iIntros "(Ht & HB & HQ)".
  iDestruct (bins_res_acc _ _ _ _ HB with "HB") as (head Hhead) "[Hl HB]".
  unfold bin_list at 1. rewrite dls_app. iDestruct "Hl" as (m) "(Hl1 & -> & Hp & %n & Hn & Hl2)".
  iDestruct (word_pure with "Hn") as %[Hn64 _].
  iDestruct (word_pure with "Hp") as %[Hp64 _].
  iApply wp_bind. iApply wp_load. iFrame "Hp". iIntros "Hp".
  iApply wp_bind.
  iApply (wp_wand _ (λ h', ⌜segments_ h' = segments_ h⌝ ∗ tag b sz true first last ∗
     nodeOf b ↦64 last_node 0 l1 ∗ (nodeOf b + 8)%Z ↦64 n ∗ dls (nodeOf b) n l2 0 ∗
     (dls (last_node 0 l1) n l2 0 -∗
        bins_res (bins_ h') (<[Z.to_nat (binIndex sz) := l1 ++ l2]> B)))%I
    with "[Ht HB Hl1 Hp Hn Hl2]").
  { destruct l1 as [|c l1 _] using rev_ind.
    - simpl. iDestruct "Hl1" as %->. iApply wp_bind. iApply wp_size. iFrame "Ht". iIntros "Ht".
      iApply wp_bind. iApply wp_get_bin; [done|].
      iApply wp_bind. iApply wp_load. iFrame "Hn". iIntros "Hn". iApply wp_ret. iFrame "Ht Hp Hn Hl2".
      iSplit; [done|]. iIntros "Hl". by iApply "HB".
    - assert (last_node 0 (l1 ++ [c]) = nodeOf c) as -> by (unfold last_node; by rewrite last_snoc).
      rewrite dls_snoc. iDestruct "Hl1" as "(Hl1 & Hcp & Hcn)".
      iDestruct (word_range with "Hcp") as %[??]; [lia|].
      rewrite (proj2 (Z.eqb_neq (nodeOf c) 0)); [|lia]. cbn [negb].
      iApply wp_bind. iApply wp_load. iFrame "Hn". iIntros "Hn".
      iApply wp_bind. iApply wp_store; [exact Hn64|]. iFrame "Hcn". iIntros "Hcn".
      iApply wp_ret. iFrame "Ht Hp Hn Hl2". iSplit; [done|]. iIntros "Hl2".
      iDestruct ("HB" $! head ((l1 ++ [c]) ++ l2) with "[Hl1 Hcp Hcn Hl2]") as "HB".
      + unfold bin_list. rewrite dls_app. iExists n. rewrite dls_snoc. iFrame "Hl1 Hcp Hcn".
        unfold last_node. by rewrite last_snoc.
      + by rewrite list_insert_id. }
  iIntros (h') "(%Hseg & Ht & Hp & Hn & Hl2 & HB)".
  iApply wp_bind. iApply wp_load. iFrame "Hn". iIntros "Hn". iApply wp_bind.
  iApply (wp_wand _ (λ _, nodeOf b ↦64 last_node 0 l1 ∗ dls (last_node 0 l1) n l2 0)%I with "[Hp Hl2]").
  { iDestruct (dls_head with "Hl2") as %Hh. destruct l2 as [|c l2].
    - subst n. iApply wp_ret. by iFrame.
    - destruct Hh as (Hh&?&?). rewrite (proj2 (Z.eqb_neq _ 0)); [|lia]. cbn [negb].
      iDestruct "Hl2" as "(_ & Hcp & Hcn)". iApply wp_bind. iApply wp_load. iFrame "Hp". iIntros "Hp".
      iApply wp_store; [exact Hp64|]. iFrame "Hcp". iIntros "Hcp". simpl. by iFrame. }
  iIntros (_) "[Hp Hl2]". iApply wp_bind. iApply wp_setFree. iFrame "Ht". iIntros "Ht".
  iApply wp_ret. iApply ("HQ" with "[//] Ht [Hp Hn]"); [iApply node_join; iFrame|by iApply "HB"].
Qed.
End rules.

(** ** findFit *)

(** A block that does not fit, and the block a first-fit search returns: the
    earlier ones of its bin do not fit, nor does any block of a lower bin the
    search looks into. *)
Definition too_small (F : gmap Z Z) (total b : Z) : Prop :=
  ∃ sz, F !! b = Some sz ∧ sz < total.
Definition first_fit (B : list (list Z)) (F : gmap Z Z) (total : Z) (lo : nat) (b : Z) : Prop :=
  ∃ i l1 l2 sz, B !! i = Some (l1 ++ b :: l2) ∧ (lo ≤ i)%nat ∧
    F !! b = Some sz ∧ total ≤ sz ∧ Forall (too_small F total) l1 ∧
    ∀ j l, (lo ≤ j < i)%nat → B !! j = Some l → Forall (too_small F total) l.

Section find.
Context `{HOS : !OS} (F : gmap Z Z) (T : heapPropI) (total : Z).
Context (HT : ∀ b sz, F !! b = Some sz →
  T ⊢ ∃ first last, tag b sz true first last ∗ (tag b sz true first last -∗ T)).

Lemma dls_range p h l n : dls p h l n ⊢ ⌜∀ b, b ∈ l → 0 < nodeOf b < W64⌝.
Proof using.
  revert p h. induction l as [|b l IH]; intros p h; simpl.
  - iIntros "_". iPureIntro. by intros b ?%not_elem_of_nil.
  - iIntros "(-> & Hp & %m & Hn & H)". iDestruct (IH with "H") as %Hl.
    iDestruct (word_range with "Hp") as %[??]; [lia|]. iPureIntro.
    intros b' [->|?]%elem_of_cons; [lia|auto].
Qed.
Lemma dls_length p h l n : dls p h l n ⊢ ⌜Z.of_nat (length l) < W64⌝.
Proof using.
  iIntros "H". iDestruct (dls_range with "H") as %Hr. iDestruct (dls_nodup with "H") as %Hnd.
  iPureIntro. assert (Z.of_nat (length l) ≤ W64 - 1); [|lia].
  apply (nodup_range_length l (1 - kNodeOffset)); [done| |by vm_compute].
  intros b Hb. specialize (Hr b Hb). unfold nodeOf in *. lia.
Qed.

Definition find_inv (head : Z) (l : list Z) (k : nat) (node : Z) : heapPropI :=
  ∃ l1 l2, ⌜l = l1 ++ l2 ∧ k = length l2 ∧ Forall (too_small F total) l1⌝ ∗
    dls 0 head l1 node ∗ dls (last_node 0 l1) node l2 0 ∗ T.
Definition find_post (l : list Z) (r : Z) : Prop :=
  (r = 0 ∧ Forall (too_small F total) l) ∨
  (r ≠ 0 ∧ ∃ l1 l2 sz, l = l1 ++ r :: l2 ∧ F !! r = Some sz ∧ total ≤ sz ∧
                       Forall (too_small F total) l1).

Lemma wp_find_step head l k node :
  (∀ b, b ∈ l → is_Some (F !! b)) →
  find_inv head l k node ⊢ wp (findFit_step total node) (λ r,
    match r with
    | inl node' => ∃ k', ⌜(k' < k)%nat⌝ ∗ find_inv head l k' node'
    | inr r => ⌜find_post l r⌝ ∗ bin_list head l ∗ T
    end).
Proof using HT.
  intros HF. iIntros "(%l1 & %l2 & (-> & -> & %Hsm) & H1 & H2 & HT)".
  iDestruct (dls_head with "H2") as %Hh. unfold findFit_step. destruct l2 as [|b l2].
  - subst node. simpl. iApply wp_ret. iFrame "HT". iSplit.
    + iPureIntro. left. by rewrite app_nil_r.
    + unfold bin_list. rewrite dls_app. iExists 0. iFrame.
  - destruct Hh as (->&?&?). rewrite (proj2 (Z.eqb_neq _ 0)); [|lia].
    assert (blockOfNode (nodeOf b) = b) as -> by (unfold blockOfNode, nodeOf; lia).
    destruct (HF b) as [sz Hsz]; [set_solver|].
    iDestruct (HT b sz Hsz with "HT") as (fi la) "[Ht HT]".
    iAssert ⌜b ≠ 0⌝%I as %Hb0.
    { iDestruct (tag_raw with "Ht") as "Ht". iDestruct (raw_range with "Ht") as %[??]; [done|].
      iPureIntro. lia. }
    iApply wp_bind. iApply wp_size. iFrame "Ht". iIntros "Ht". iDestruct ("HT" with "Ht") as "HT".
    destruct (Z.leb_spec total sz).
    + iApply wp_ret. iSplit; [iPureIntro; right; split; [done|]; by exists l1, l2, sz|]. iFrame "HT".
      unfold bin_list. rewrite dls_app. iExists (nodeOf b). iFrame.
    + simpl. iDestruct "H2" as "(_ & Hp & %n & Hn & H2)".
      iApply wp_bind. iApply wp_load. iFrame "Hn". iIntros "Hn". iApply wp_ret.
      iExists (length l2). iSplit; [iPureIntro; lia|]. iExists (l1 ++ [b]), l2. iSplit.
      * iPureIntro. rewrite -assoc_L. split_and!; [done|done|].
        apply Forall_app. split; [done|]. constructor; [|constructor]. by exists sz.
      * iFrame "HT". rewrite dls_snoc. iFrame. unfold last_node. rewrite last_snoc. iFrame.
Qed.

Lemma wp_find_bin head l Q :
  (∀ b, b ∈ l → is_Some (F !! b)) →
  bin_list head l ∗ T ∗ (∀ r, ⌜find_post l r⌝ -∗ bin_list head l -∗ T -∗ Q r) ⊢
  wp (while_fuel (findFit_step total) head) Q.
Proof using HT.
  intros HF. iIntros "(Hl & HT & HQ)". iDestruct (dls_length with "Hl") as %Hlen.
  iApply (wp_wand with "[Hl HT]").
  - iApply (wp_while _ (find_inv head l) (λ r, ⌜find_post l r⌝ ∗ bin_list head l ∗ T)%I (length l));
      [done|intros; by apply wp_find_step|].
    iExists [], l. iFrame. iPureIntro. by split_and!.
  - iIntros (r) "(% & Hl & HT)". by iApply ("HQ" with "[//] Hl HT").
Qed.

(** The outer loop, from bin [index] on. *)
Definition search_post (B : list (list Z)) (lo : nat) (r : Z) : Prop :=
  (r = 0 ∧ ∀ j l, (lo ≤ j)%nat → B !! j = Some l → Forall (too_small F total) l) ∨
  (r ≠ 0 ∧ first_fit B F total lo r).

Lemma search_post_step B lo l r :
  B !! lo = Some l → Forall (too_small F total) l → search_post B (S lo) r → search_post B lo r.
Proof using.
  assert (∀ j : nat, (lo ≤ j)%nat → j = lo ∨ (S lo ≤ j)%nat) as Hj by lia.
  intros Hl Hsm [[-> Hall]|[? (i&l1&l2&sz&?&?&?&?&?&Hall)]]; [left|right]; (split; [done|]).
  - intros j l' [->|?]%Hj Hl'; [by simplify_eq|by eapply Hall].
  - exists i, l1, l2, sz. split_and!; try done; [lia|].
    intros j l' [[->|?]%Hj ?] Hl'; [by simplify_eq|by eapply (Hall j)].
Qed.

Lemma wp_findFit_bins h B index n Q :
  bins_ok B F → 0 ≤ index → index + Z.of_nat n = kBinCount →
  bins_res (bins_ h) B ∗ T ∗
  (∀ r, ⌜search_post B (Z.to_nat index) r⌝ -∗ bins_res (bins_ h) B -∗ T -∗ Q r) ⊢
  wp (findFit_bins h total index n) Q.
Proof using HT.
  intros Hok. pose proof Hok as (Hlen&_&Hin&_). revert index Q.
  induction n as [|n IH]; intros index Q Hi Hn; simpl.
  - iIntros "(HB & HT & HQ)". iApply wp_ret. iApply ("HQ" with "[%] HB HT"). left. split; [done|].
    intros j l ? Hl%lookup_lt_Some. unfold kBinCount in *. lia.
  - iIntros "(HB & HT & HQ)". unfold kBinCount in *.
    destruct (lookup_lt_is_Some_2 B (Z.to_nat index)) as [l Hl]; [lia|].
    iDestruct (bins_res_acc _ _ _ _ Hl with "HB") as (head Hhead) "[Hl HB]".
    iApply wp_bind. iApply wp_get_bin; [done|]. iApply wp_bind. iApply wp_find_bin.
    { intros b Hb. destruct (Hin _ _ b Hl Hb) as (sz&?&_). by exists sz. }
    iFrame "Hl HT". iIntros (r Hr) "Hl HT". iDestruct ("HB" $! head l with "Hl") as "HB".
    rewrite !list_insert_id //. destruct Hr as [[-> Hsm]|[Hne (l1&l2&sz&->&?&?&?)]].
    + simpl. iApply IH; [lia|lia|]. iFrame "HB HT". iIntros (r) "%Hr". iApply "HQ". iPureIntro.
      eapply search_post_step; [done|done|]. by replace (S (Z.to_nat index)) with (Z.to_nat (index + 1)) by lia.
    + rewrite (proj2 (Z.eqb_neq r 0)) //. iApply wp_ret. iApply ("HQ" with "[%] HB HT"). right.
      split; [done|]. exists (Z.to_nat index), l1, l2, sz. split_and!; try done. intros j l' ? _. lia.
Qed.

(** [findFit]: a first fit, or null when no free block is large enough. *)
Lemma wp_findFit h B Q :
  bins_ok B F → 0 ≤ total →
  bins_res (bins_ h) B ∗ T ∗
  (∀ r, ⌜(r = 0 ∧ ∀ b sz, F !! b = Some sz → sz < total) ∨
         (r ≠ 0 ∧ first_fit B F total (Z.to_nat (binIndex total)) r)⌝ -∗
        bins_res (bins_ h) B -∗ T -∗ Q r) ⊢
  wp (findFit h total) Q.
Proof using HT.
  intros Hok Ht. iIntros "(HB & HT & HQ)". pose proof (binIndex_range total).
  iApply wp_findFit_bins; [done|lia|lia|]. iFrame "HB HT". iIntros (r [[-> Hsm]|Hr]); iApply "HQ".
  - iPureIntro. left. split; [done|]. intros b sz Hb. destruct (Z.lt_ge_cases sz total) as [|Hge]; [done|].
    destruct Hok as (_&_&_&Hall). destruct (Hall b sz Hb) as (l&Hl&Hbl).
    pose proof (binIndex_mono total sz).
    specialize (Hsm (Z.to_nat (binIndex sz)) l ltac:(lia) Hl).
    rewrite Forall_forall in Hsm. destruct (Hsm b Hbl) as (sz'&?&?). congruence.
  - by iRight.
Qed.
End find.
