(* ===== verification/SegmentBlocks.v ===== *)
(** The memory of the segment heap's blocks: the resource of the abstract map of
    [SegmentModel], and how it changes with the map. *)

From iris.proofmode Require Import proofmode.
From S2P Require Import Prelude.
From S2P Require Import HeapProp.
From S2P Require Import Memory.
From S2P Require Import Logic.
From S2P Require Import SegmentHeap.
From S2P Require Import SegmentTags.
From S2P Require Import SegmentModel.
From S2P Require Import SegmentList.
From S2P Require Import SegmentBins.

(** The bytes of a free block that are neither tag nor list node. *)
Definition free_rest (a : Z) (b : blk) : heapPropI := raw (a + 16) 16 ∗ raw (a + 48) (bsize b - 48).
(** The payload of a block: everything after its two tag words. *)
Definition payload (a : Z) (b : blk) : heapPropI := raw (payloadOf a) (bsize b - kBlockHeaderSize).
(** While a block is being merged the [prevSize] of the block after it is stale:
    [stale] is the address of the block whose [prevSize] does not count. *)
Definition prev_word (stale : option Z) (a : Z) (b : blk) : heapPropI :=
  (if decide (stale = Some a) then ∃ v, (a + 8)%Z ↦64 v else (a + 8)%Z ↦64 bprev b)%I.
Definition blk_res (stale : option Z) (a : Z) (b : blk) : heapPropI :=
  tag a (bsize b) (bfree b) (bfirst b) (blast b) ∗ prev_word stale a b ∗
  (if bfree b then free_rest a b else emp)%I.
Definition blocks (stale : option Z) (M : gmap Z blk) : heapPropI :=
  [∗ map] a ↦ b ∈ M, blk_res stale a b.
(** The block after [a], when there is one. *)
Definition after (a : Z) (b : blk) : option Z := if blast b then None else Some (a + bsize b).

Section blocks.
Implicit Types (a : Z) (b : blk) (M : gmap Z blk) (st : option Z).

Lemma payload_split a b :
  48 ≤ bsize b → payload a b ⊣⊢ node_raw a ∗ free_rest a b.
Proof.
  intros Hb. unfold payload, node_raw, free_rest, payloadOf, nodeOf, kBlockHeaderSize, kNodeOffset.
  rewrite (raw_take (a + 16) 16 (bsize b - 16)); [|lia].
  rewrite (raw_take (a + 16 + 16) 16 (bsize b - 16 - 16)); [|lia].
  replace (a + 16 + 16) with (a + 32) by lia. replace (a + 32 + 16) with (a + 48) by lia.
  replace (bsize b - 16 - 16 - 16) with (bsize b - 48) by lia.
  iSplit; [iIntros "($ & $ & $)"|iIntros "($ & $ & $)"].
Qed.
Lemma prev_word_any st a b : prev_word st a b ⊢ ∃ v, (a + 8)%Z ↦64 v.
Proof. unfold prev_word. case_decide; [done|]. iIntros "H". by iExists _. Qed.
Lemma prev_word_ne st a b : st ≠ Some a → prev_word st a b ⊣⊢ (a + 8)%Z ↦64 bprev b.
Proof. intros. unfold prev_word. by rewrite decide_False. Qed.
Lemma blk_res_ne st a b : st ≠ Some a → blk_res st a b ⊣⊢ blk_res None a b.
Proof. intros. unfold blk_res. by rewrite !prev_word_ne. Qed.
Lemma blk_res_range st a b : blk_res st a b ⊢ ⌜0 < a⌝.
Proof.
  iIntros "(H & _)". rewrite tag_raw. iDestruct (raw_range with "H") as %[??]; [done|done].
Qed.
Lemma blk_head_raw st a b sz free first last :
  tag a sz free first last ∗ prev_word st a b ⊢ raw a 16.
Proof.
  rewrite tag_raw prev_word_any. iIntros "[Ht (%v & Hp)]". rewrite word64_raw.
  rewrite (raw_take a 8 16); [|lia]. iFrame.
Qed.

Lemma blocks_lookup st M a b :
  M !! a = Some b → blocks st M ⊢ blk_res st a b ∗ (blk_res st a b -∗ blocks st M).
Proof. intros Ha. by apply big_sepM_lookup_acc. Qed.
Lemma blocks_delete st M a b :
  M !! a = Some b → blocks st M ⊣⊢ blk_res st a b ∗ blocks st (delete a M).
Proof. intros Ha. by apply big_sepM_delete. Qed.
Lemma blocks_insert st M a b :
  M !! a = None → blocks st (<[a := b]> M) ⊣⊢ blk_res st a b ∗ blocks st M.
Proof. intros Ha. by apply big_sepM_insert. Qed.
Lemma blocks_stale st M : blocks None M ⊢ blocks st M.
Proof.
  apply big_sepM_mono. intros a b _. unfold blk_res. iIntros "($ & Hp & $)".
  rewrite (prev_word_ne None) //. unfold prev_word. case_decide; [by iExists _|done].
Qed.
Lemma blocks_stale_gone x st M : M !! x = None → blocks (Some x) M ⊢ blocks st M.
Proof.
  intros Hx. etrans; [|apply blocks_stale]. apply big_sepM_mono. intros a b Ha.
  rewrite blk_res_ne; [done|]. intros [= ->]. congruence.
Qed.
Lemma blocks_fresh st M a n : 0 < n → blocks st M ∗ raw a n ⊢ ⌜M !! a = None⌝.
Proof.
  intros Hn. iIntros "[H Ha]". destruct (M !! a) as [b|] eqn:E; [|done].
  iDestruct (blocks_lookup _ _ _ _ E with "H") as "[(Ht & _) _]". rewrite tag_raw.
  by iDestruct (raw_disjoint_strict with "[$Ha $Ht]") as %?.
Qed.
Lemma blocks_disjoint st M x b a n :
  M !! x = Some b → 0 < n → blocks st M ∗ raw a n ⊢ ⌜x + 8 ≤ a ∨ a + n ≤ x⌝.
Proof.
  intros Hx Hn. iIntros "[H Ha]".
  iDestruct (blocks_lookup _ _ _ _ Hx with "H") as "[(Ht & _) _]". rewrite tag_raw.
  iDestruct (raw_disjoint with "[$Ha $Ht]") as %?; [done|done|]. iPureIntro. lia.
Qed.

(** The free flag. *)
Lemma blocks_set_free st M a b v :
  M !! a = Some b →
  blocks st M ⊢ tag a (bsize b) (bfree b) (bfirst b) (blast b) ∗
    (if bfree b then free_rest a b else emp) ∗
    (tag a (bsize b) v (bfirst b) (blast b) ∗ (if v then free_rest a b else emp) -∗
     blocks st (set_free a v M)).
Proof.
  intros Ha. rewrite (blocks_delete _ _ _ _ Ha). iIntros "((Ht & Hp & Hr) & H)". iFrame "Ht Hr".
  iIntros "[Ht Hr]". assert (set_free a v M = <[a := with_free v b]> (delete a M)) as ->.
  { apply map_eq. intros x. rewrite lookup_set_free lookup_insert lookup_delete Ha.
    destruct (decide (x = a)) as [->|]; [by rewrite decide_True|by rewrite !decide_False]. }
  rewrite blocks_insert; [|by rewrite lookup_delete_eq]. iFrame.
Qed.
Lemma blocks_fix_prev st M last a v :
  (last = false → st = Some a) → blocks st M ⊢ blocks st (fix_prev last a v M).
Proof.
  intros Hst. unfold fix_prev. destruct last; [done|]. rewrite (Hst eq_refl).
  destruct (M !! a) as [b|] eqn:E; [|rewrite alter_id //; intros y ?; congruence].
  assert (alter (with_prev v) a M = <[a := with_prev v b]> (delete a M)) as ->.
  { apply map_eq. intros x. rewrite lookup_insert lookup_delete.
    case_decide as Hd; [subst; by rewrite lookup_alter_eq E|by rewrite lookup_alter_ne]. }
  rewrite blocks_insert; [|by rewrite lookup_delete_eq]. rewrite (blocks_delete _ _ _ _ E).
  unfold blk_res, prev_word. simpl. by rewrite !decide_True.
Qed.

(** Merging two blocks in use. *)
Lemma blocks_merge st M a ba bn :
  M !! a = Some ba → M !! (a + bsize ba) = Some bn → 0 < bsize ba → 0 < bsize bn →
  bfree ba = false → bfree bn = false →
  st = Some (a + bsize ba) ∨ st = after (a + bsize ba) bn →
  blocks st M ⊢
    tag a (bsize ba) false (bfirst ba) (blast ba) ∗
    tag (a + bsize ba) (bsize bn) false (bfirst bn) (blast bn) ∗
    (∃ v, (a + bsize ba + 8)%Z ↦64 v) ∗
    (tag a (bsize ba + bsize bn) false (bfirst ba) (blast bn) -∗
     blocks (after a (merged ba bn)) (merge a ba bn M)).
Proof.
  intros Ha Hn Hsa Hsn Hfa Hfn Hst.
  assert (st ≠ Some a) as Hsta.
  { destruct Hst as [-> | ->]; [intros [=]; lia|]. unfold after. destruct (blast bn); [done|intros [=]; lia]. }
  rewrite (blocks_delete _ _ _ _ Ha).
  rewrite (blocks_delete _ (delete a M) (a + bsize ba) bn); [|rewrite lookup_delete_ne //; lia].
  unfold blk_res. rewrite Hfa Hfn (prev_word_ne _ a) //.
  iIntros "((Hta & Hpa & _) & (Htn & Hpn & _) & H)". iFrame "Hta Htn".
  rewrite prev_word_any. iFrame "Hpn". iIntros "Hta".
  iAssert (blocks (after a (merged ba bn)) (delete (a + bsize ba) (delete a M))) with "[H]" as "H".
  { destruct Hst as [-> | ->]; [iApply (blocks_stale_gone with "H"); apply lookup_delete_eq|].
    unfold after, merged; simpl. by rewrite Z.add_assoc. }
  unfold merge. iApply blocks_fix_prev.
  { intros Hl. unfold after, merged; simpl. rewrite Hl. f_equal. lia. }
  rewrite -(insert_delete_eq _ a). rewrite delete_delete. rewrite blocks_insert; [|by rewrite lookup_delete_eq].
  iFrame "H". unfold blk_res, merged; simpl. rewrite Hfa prev_word_ne; [by iFrame|].
  unfold after; simpl. destruct (blast bn); [done|intros [=]; lia].
Qed.

(** Splitting a block in use. *)
Lemma blocks_split M a t ba :
  M !! a = Some ba → M !! (a + t) = None → 0 < t → 0 < bsize ba - t → bfree ba = false →
  blocks None M ⊢
    tag a (bsize ba) false (bfirst ba) (blast ba) ∗
    (tag a t false (bfirst ba) false ∗
     tag (a + t) (bsize ba - t) false false (blast ba) ∗ (a + t + 8)%Z ↦64 t -∗
     blocks (after (a + t) (rest_of ba t)) (split a ba t M)).
Proof.
  intros Ha Hfresh Ht Hr Hfa.
  rewrite (blocks_delete _ _ _ _ Ha). iIntros "((Hta & Hpa & _) & H)". rewrite Hfa. iFrame "Hta".
  iIntros "(Hta & Htr & Hpr)". unfold split. iApply blocks_fix_prev.
  { intros Hl. unfold after, rest_of; simpl. rewrite Hl. f_equal. lia. }
  rewrite blocks_insert; [|rewrite lookup_insert_ne //; lia].
  rewrite -(insert_delete_eq _ a) blocks_insert; [|by rewrite lookup_delete_eq].
  rewrite (blocks_stale (after (a + t) (rest_of ba t))). iFrame "H".
  unfold blk_res, front, rest_of, after; simpl.
  rewrite Hfa !prev_word_ne; [by iFrame|destruct (blast ba); [done|intros [=]; lia]..].
Qed.

(** Writing the stale [prevSize]. *)
Lemma blocks_settle M x b :
  M !! x = Some b →
  blocks (Some x) M ⊢ (∃ v, (x + 8)%Z ↦64 v) ∗ ((x + 8)%Z ↦64 bprev b -∗ blocks None M).
Proof.
  intros Hx. rewrite (blocks_delete _ _ _ _ Hx). iIntros "((Ht & Hp & Hr) & H)".
  rewrite {1}/prev_word decide_True //. iFrame "Hp". iIntros "Hp".
  rewrite (blocks_delete _ _ _ _ Hx). iFrame "Ht Hr Hp". iApply (blocks_stale_gone with "H").
  apply lookup_delete_eq.
Qed.

(** The access [findFit] needs. *)
Lemma blocks_free_tag st M a sz :
  free_sizes M !! a = Some sz →
  blocks st M ⊢ ∃ first last, tag a sz true first last ∗ (tag a sz true first last -∗ blocks st M).
Proof.
  unfold free_sizes. rewrite lookup_omap_Some. intros (x&Hx&Hb).
  destruct (bfree x) eqn:Hf; [|done]. simplify_eq.
  iIntros "H". iDestruct (blocks_lookup _ _ _ _ Hb with "H") as "[(Ht & Hr) H]".
  unfold blk_res. rewrite Hf.
  iExists _, _. iFrame "Ht". iIntros "Ht". iApply "H". iFrame.
Qed.
End blocks.
