(* ===== verification/SegmentProofs.v ===== *)
(** The invariant of the segment heap and the specifications of its operations. *)

From iris.proofmode Require Import proofmode.
From S2P Require Import Prelude.
From S2P Require Import HeapProp.
From S2P Require Import Memory.
From S2P Require Import Logic.
From S2P Require Import BlockHeader.
From S2P Require Import SystemMemory.
From S2P Require Import SegmentHeap.
From S2P Require Import SegmentTags.
From S2P Require Import SegmentModel.
From S2P Require Import SegmentList.
From S2P Require Import SegmentBins.
From S2P Require Import SegmentBlocks.

(** ** The segments *)
Definition seg_ok `{!OS} (r : MappedRegion) : Prop :=
  region_ok (region_ r) ∧ kSegmentSize ≤ region_size r.
Definition segs_ok `{!OS} (segs : list MappedRegion) : Prop :=
  NoDup (region_data <$> segs) ∧ Forall seg_ok segs.
(** The base and the size of every segment. *)
Definition segs_map (segs : list MappedRegion) : gmap Z Z :=
  list_to_map ((λ r, (region_data r, region_size r)) <$> segs).

Section segments.
Context `{HOS : !OS, HL : !OSLaws}.
Implicit Types (segs : list MappedRegion) (r : MappedRegion).

Lemma segs_keys segs : ((λ r, (region_data r, region_size r)) <$> segs).*1 = region_data <$> segs.
Proof. rewrite -list_fmap_compose. done. Qed.
Lemma segs_map_lookup segs s sz :
  segs_ok segs → segs_map segs !! s = Some sz →
  ∃ r, r ∈ segs ∧ seg_ok r ∧ region_data r = s ∧ region_size r = sz.
Proof.
  intros [_ Hok] Hs. apply elem_of_list_to_map_2 in Hs.
  apply list_elem_of_fmap in Hs as (r&[= -> ->]&Hr). exists r. split_and!; try done.
  by eapply Forall_forall.
Qed.
Lemma segs_map_range segs s sz :
  segs_ok segs → segs_map segs !! s = Some sz →
  0 < s ∧ s + sz ≤ W64 ∧ s mod os_page = 0 ∧ sz mod os_page = 0 ∧ kSegmentSize ≤ sz.
Proof.
  intros Hok (r&_&((?&?&?&?&?)&?)&<-&<-)%segs_map_lookup; [|done].
  unfold region_data, region_size. done.
Qed.
Lemma segs_map_snoc segs r :
  region_data r ∉ region_data <$> segs →
  segs_map (segs ++ [r]) = <[region_data r := region_size r]> (segs_map segs).
Proof. intros Hr. unfold segs_map. rewrite fmap_app. simpl. apply list_to_map_snoc. by rewrite segs_keys. Qed.
Lemma segs_ok_snoc segs r :
  segs_ok segs → seg_ok r → region_data r ∉ region_data <$> segs → segs_ok (segs ++ [r]).
Proof.
  intros [Hnd Hok] Hr Hn. split; [|by apply Forall_app; split; [|constructor]].
  rewrite fmap_app. apply NoDup_app. split_and!; [done| |by apply NoDup_singleton].
  intros x Hx ->%list_elem_of_singleton. done.
Qed.
Lemma segs_remove segs1 r segs2 :
  segs_ok (segs1 ++ r :: segs2) →
  segs_ok (segs1 ++ segs2) ∧
  segs_map (segs1 ++ segs2) = delete (region_data r) (segs_map (segs1 ++ r :: segs2)).
Proof.
  intros [Hnd Hok]. assert (segs1 ++ r :: segs2 ≡ₚ r :: segs1 ++ segs2) as Hp
    by (symmetry; apply Permutation_middle).
  rewrite Hp in Hnd, Hok. apply NoDup_cons in Hnd as [Hr Hnd]. apply Forall_cons in Hok as [Hrok Hok].
  split; [done|]. unfold segs_map.
  rewrite (list_to_map_proper ((λ r, (region_data r, region_size r)) <$> segs1 ++ r :: segs2)
    ((λ r, (region_data r, region_size r)) <$> r :: segs1 ++ segs2)); [| |by rewrite Hp].
  - rewrite fmap_cons. simpl. rewrite delete_insert_id //. apply not_elem_of_list_to_map_1.
    by rewrite segs_keys.
  - rewrite segs_keys Hp. by constructor.
Qed.
Lemma segs_map_None segs s : segs_map segs !! s = None ↔ s ∉ region_data <$> segs.
Proof. unfold segs_map. rewrite -not_elem_of_list_to_map segs_keys. done. Qed.

(** Erasing the segment at [base] unmaps it. *)
Lemma wp_erase_segment base segs1 r segs2 Q :
  region_data r = base → base ∉ region_data <$> segs1 → seg_ok r →
  raw base (region_size r) ∗ Q (Some (segs1 ++ segs2)) ⊢
  wp (erase_segment base (segs1 ++ r :: segs2)) Q.
Proof.
  intros <- Hr [Hok _]. revert Q. induction segs1 as [|r1 segs1 IH]; intros Q; simpl.
  - iIntros "[Hr HQ]". rewrite Z.eqb_refl. iApply wp_bind. iApply wp_reset; [done|]. iFrame "Hr".
    by iApply wp_ret.
  - rewrite fmap_cons in Hr. apply not_elem_of_cons in Hr as [Hne Hr].
    iIntros "[Hr HQ]". rewrite (proj2 (Z.eqb_neq _ _)) //. iApply wp_bind. iApply IH; [done|].
    iFrame "Hr". by iApply wp_ret.
Qed.
End segments.

(** ** The heap *)
Definition heap_state `{!OS} (h : SegmentHeap) (M : gmap Z blk) (B : list (list Z)) : Prop :=
  segs_ok (segments_ h) ∧ heap_ok (segs_map (segments_ h)) M ∧ coalesced M ∧
  bins_ok B (free_sizes M).
(** [U] gives the capacity of every block in use, under its address. *)
Definition seg_inv `{!OS} (h : SegmentHeap) (U : gmap Z Z) : heapPropI :=
  ∃ M B, ⌜heap_state h M B ∧ used_caps M = U⌝ ∗ blocks None M ∗ bins_res (bins_ h) B.

Section proofs.
Context `{HOS : !OS, HL : !OSLaws}.
Implicit Types (h : SegmentHeap) (M : gmap Z blk) (B : list (list Z)) (a : Z) (b : blk).

Lemma seg_inv_init : ⊢ seg_inv SegmentHeap_init ∅.
Proof.
  iExists ∅, (replicate (Z.to_nat kBinCount) []). iSplit; [iPureIntro; split; [|done]|iSplitR].
  - split_and!; [| | |apply bins_ok_init].
    + split; [constructor|constructor].
    + split; intros ??; [by rewrite lookup_empty|by rewrite lookup_empty].
    + intros ???. by rewrite lookup_empty.
  - unfold blocks. by rewrite big_sepM_empty.
  - iApply big_sepL2_intro; [by rewrite !length_replicate|]. iIntros "!>" (k x y Hx Hy).
    apply lookup_replicate in Hx as [-> _]. apply lookup_replicate in Hy as [-> _]. done.
Qed.

Lemma heap_block_ok G M a b :
  heap_ok G M → M !! a = Some b → a mod 16 = 0 ∧ 48 ≤ bsize b ∧ bsize b mod 16 = 0 ∧ in64 (bprev b).
Proof. intros [Hblk _] Ha. by destruct (Hblk a b Ha) as (?&_). Qed.
Lemma heap_block_end h M B a b :
  heap_state h M B → M !! a = Some b → 0 < a ∧ a + bsize b ≤ W64.
Proof.
  intros (Hs&[Hblk _]&_&_) Ha. destruct (Hblk a b Ha) as (_&(sz&Hsz&?&?&_)&_).
  destruct (segs_map_range _ _ _ Hs Hsz) as (?&?&_). lia.
Qed.
Lemma free_sizes_None M a b : M !! a = Some b → bfree b = false → free_sizes M !! a = None.
Proof. intros Ha Hf. unfold free_sizes. by rewrite lookup_omap Ha /= Hf. Qed.
Lemma free_sizes_Some M a b : M !! a = Some b → bfree b = true → free_sizes M !! a = Some (bsize b).
Proof. intros Ha Hf. unfold free_sizes. by rewrite lookup_omap Ha /= Hf. Qed.
Lemma used_caps_None M a b : M !! a = Some b → bfree b = true → used_caps M !! a = None.
Proof. intros Ha Hf. unfold used_caps. by rewrite lookup_omap Ha /= Hf. Qed.
Lemma used_caps_Some M a cap :
  used_caps M !! a = Some cap →
  ∃ b, M !! a = Some b ∧ bfree b = false ∧ cap = bsize b - kBlockHeaderSize.
Proof.
  unfold used_caps. rewrite lookup_omap_Some. intros (b&Hb&Ha).
  destruct (bfree b) eqn:Hf; [done|]. simplify_eq. by exists b.
Qed.

(** *** removeFree and insertFree on the heap *)
Lemma wp_unlink st h M B a b Q :
  M !! a = Some b → bfree b = true → 48 ≤ bsize b → bins_ok B (free_sizes M) →
  blocks st M ∗ bins_res (bins_ h) B ∗
  (∀ h' B', ⌜segments_ h' = segments_ h ∧ bins_ok B' (free_sizes (set_free a false M))⌝ -∗
     blocks st (set_free a false M) -∗ bins_res (bins_ h') B' -∗ payload a b -∗ Q h') ⊢
  wp (removeFree h a) Q.
Proof.
  intros Ha Hf Hsz Hok. specialize (free_sizes_Some _ _ _ Ha Hf) as HF.
  destruct (bins_ok_split _ _ _ _ Hok HF) as (l1&l2&HB).
  rewrite (blocks_set_free _ _ _ _ false Ha) Hf. iIntros "((Ht & Hr & HM) & HB & HQ)".
  iApply wp_removeFree; [exact HB|]. iFrame "Ht HB". iIntros (h' Hseg) "Ht Hn HB".
  iApply ("HQ" with "[%] [HM Ht] HB").
  - split; [done|]. rewrite free_sizes_clear. by apply bins_ok_remove.
  - iApply "HM". by iFrame.
  - rewrite payload_split //. iFrame.
Qed.
Lemma wp_link st h M B a b Q :
  M !! a = Some b → bfree b = false → a mod 16 = 0 → bins_ok B (free_sizes M) →
  blocks st M ∗ bins_res (bins_ h) B ∗ node_raw a ∗
  (∀ h' B', ⌜segments_ h' = segments_ h ∧ bins_ok B' (free_sizes (set_free a true M))⌝ -∗
     (free_rest a b -∗ blocks st (set_free a true M)) -∗ bins_res (bins_ h') B' -∗ Q h') ⊢
  wp (insertFree h a) Q.
Proof.
  intros Ha Hf Hal Hok. specialize (free_sizes_None _ _ _ Ha Hf) as HF.
  destruct (bins_ok_lookup _ _ (bsize b) Hok) as (l&HB).
  rewrite (blocks_set_free _ _ _ _ true Ha) Hf. iIntros "((Ht & _ & HM) & HB & Hn & HQ)".
  iApply wp_insertFree; [done|exact HB|]. iFrame "Ht HB Hn". iIntros (h' Hseg) "Ht HB".
  iApply ("HQ" with "[%] [HM Ht] HB").
  - split; [done|]. rewrite (free_sizes_set _ _ _ Ha). by apply bins_ok_insert.
  - iIntros "Hr". iApply "HM". iFrame.
Qed.

(** *** The accessors on the heap *)
Lemma wp_blk_size st M a b Q :
  M !! a = Some b → blocks st M ∗ (blocks st M -∗ Q (bsize b)) ⊢ wp (size a) Q.
Proof.
  intros Ha. iIntros "[H HQ]". iDestruct (blocks_lookup _ _ _ _ Ha with "H") as "[(Ht & Hr) H]".
  iApply wp_size. iFrame "Ht". iIntros "Ht". iApply "HQ". iApply "H". iFrame.
Qed.
Lemma wp_blk_isFree st M a b Q :
  M !! a = Some b → blocks st M ∗ (blocks st M -∗ Q (bfree b)) ⊢ wp (isFree a) Q.
Proof.
  intros Ha. iIntros "[H HQ]". iDestruct (blocks_lookup _ _ _ _ Ha with "H") as "[(Ht & Hr) H]".
  iApply wp_isFree. iFrame "Ht". iIntros "Ht". iApply "HQ". iApply "H". iFrame.
Qed.
Lemma wp_blk_isFirst st M a b Q :
  M !! a = Some b → blocks st M ∗ (blocks st M -∗ Q (bfirst b)) ⊢ wp (isFirst a) Q.
Proof.
  intros Ha. iIntros "[H HQ]". iDestruct (blocks_lookup _ _ _ _ Ha with "H") as "[(Ht & Hr) H]".
  iApply wp_isFirst. iFrame "Ht". iIntros "Ht". iApply "HQ". iApply "H". iFrame.
Qed.
Lemma wp_blk_isLast st M a b Q :
  M !! a = Some b → blocks st M ∗ (blocks st M -∗ Q (blast b)) ⊢ wp (isLast a) Q.
Proof.
  intros Ha. iIntros "[H HQ]". iDestruct (blocks_lookup _ _ _ _ Ha with "H") as "[(Ht & Hr) H]".
  iApply wp_isLast. iFrame "Ht". iIntros "Ht". iApply "HQ". iApply "H". iFrame.
Qed.
Lemma wp_blk_nextBlock st M a b Q :
  M !! a = Some b → blocks st M ∗ (blocks st M -∗ Q (a + bsize b)) ⊢ wp (nextBlock a) Q.
Proof.
  intros Ha. iIntros "[H HQ]". iApply wp_bind. iApply wp_blk_size; [done|]. iFrame "H".
  iIntros "H". iApply wp_ret. by iApply "HQ".
Qed.
Lemma wp_blk_prevBlock st M a b Q :
  M !! a = Some b → st ≠ Some a →
  blocks st M ∗ (blocks st M -∗ Q (a - bprev b)) ⊢ wp (prevBlock a) Q.
Proof.
  intros Ha Hst. iIntros "[H HQ]". iApply wp_bind.
  iDestruct (blocks_lookup _ _ _ _ Ha with "H") as "[(Ht & Hp & Hr) H]".
  rewrite {1}prev_word_ne //. iApply wp_load. iFrame "Hp". iIntros "Hp". iApply wp_ret.
  iApply "HQ". iApply "H". iFrame "Ht Hr". by rewrite prev_word_ne.
Qed.
(** Bringing the block after [a] up to date. *)
Lemma wp_settle G M a b Q :
  heap_ok G M → M !! a = Some b → blast b = false → in64 (bsize b) →
  blocks (Some (a + bsize b)) M ∗ (blocks None M -∗ Q ()) ⊢
  wp (store_prevSize (a + bsize b) (bsize b)) Q.
Proof.
  intros [Hblk _] Ha Hl Hin. destruct (Hblk a b Ha) as (_&_&_&Hnl).
  destruct (Hnl Hl) as (n&Hn&Hpn&_). rewrite (blocks_settle _ _ _ Hn) Hpn.
  iIntros "[[(%v & Hp) H] HQ]". iApply wp_store; [exact Hin|]. iFrame "Hp". iIntros "Hp".
  iApply "HQ". by iApply "H".
Qed.
End proofs.
