(* ===== verification/SegmentAlloc.v ===== *)
(** The segment heap, allocation: [addSegment], [splitBlock] and [allocate]. *)

From iris.proofmode Require Import proofmode.
From S2P Require Import Prelude.
From S2P Require Import HeapProp.
From S2P Require Import Memory.
From S2P Require Import Logic.
From S2P Require Import BlockHeader.
From S2P Require Import SystemMemory.
From S2P Require Import SegmentHeap.
From S2P Require Import SegmentTags.
From S2P Require Import SegmentModel.
From S2P Require Import SegmentList.
From S2P Require Import SegmentBins.
From S2P Require Import SegmentBlocks.
From S2P Require Import SegmentProofs.

Section alloc.
Context `{HOS : !OS, HL : !OSLaws}.
Implicit Types (h : SegmentHeap) (M : gmap Z blk) (B : list (list Z)) (a : Z) (b : blk).

(** A region becomes a segment with one free block. *)
Lemma heap_state_add h M B B' h' r :
  heap_state h M B → seg_ok r → M !! region_data r = None →
  bins_ok B' (<[region_data r := region_size r]> (free_sizes M)) →
  segments_ h' = segments_ h ++ [r] →
  let M' := set_free (region_data r) true
              (<[region_data r := segment_blk (region_data r) (region_size r) false]> M) in
  heap_state h' M' B' ∧ used_caps M' = used_caps M.
Proof.
  intros (Hs&HM&HC&HB) Hr Hfr HB' Hseg M'. set (s := region_data r) in *.
  destruct Hr as [(?&Hpm&?&Hsm&?) Hk]. unfold region_size, kSegmentSize in *.
  assert (segs_map (segments_ h) !! s = None) as HG.
  { destruct (segs_map (segments_ h) !! s) eqn:E; [|done].
    destruct (proj2 HM _ _ E) as (b&?&_). congruence. }
  assert (heap_ok (segs_map (segments_ h')) (<[s := segment_blk s (SystemMemory.size (region_ r)) false]> M)) as HM1.
  { rewrite Hseg segs_map_snoc; [|by apply segs_map_None]. apply heap_ok_add; try done.
    - by apply page_mod_16.
    - by apply page_mod_16.
    - unfold region_size. lia. }
  split; [split_and!|].
  - rewrite Hseg. apply segs_ok_snoc; [done|by split_and!|by apply segs_map_None].
  - by apply heap_ok_set_free.
  - eapply coalesced_set; [done|by apply coalesced_add|by apply add_next_used|by apply add_prev_used].
  - unfold M'. erewrite free_sizes_set; [|apply lookup_insert_eq]. by rewrite free_sizes_add.
  - unfold M'. rewrite used_caps_set used_caps_add delete_insert_id //.
    unfold used_caps. by rewrite lookup_omap Hfr.
Qed.

Lemma segment_raw s sz :
  s mod 16 = 0 → 48 ≤ sz →
  raw s sz ⊢ raw s 8 ∗ (∃ v, (s + 8)%Z ↦64 v) ∗ node_raw s ∗ raw (s + 16) 16 ∗ raw (s + 48) (sz - 48).
Proof.
  intros Hs Hsz. rewrite (raw_take s 8); [|lia]. rewrite (raw_take (s + 8) 8 (sz - 8)); [|lia].
  rewrite (raw_word64 (s + 8)); [|align_lia].
  rewrite (raw_take (s + 8 + 8) 16 (sz - 8 - 8)); [|lia].
  rewrite (raw_take (s + 8 + 8 + 16) 16 (sz - 8 - 8 - 16)); [|lia].
  unfold node_raw, nodeOf, kNodeOffset. replace (s + 8 + 8 + 16 + 16) with (s + 48) by lia.
  replace (s + 8 + 8 + 16) with (s + 32) by lia. replace (s + 8 + 8) with (s + 16) by lia.
  replace (sz - 8 - 8 - 16 - 16) with (sz - 48) by lia. iIntros "($ & $ & $ & $ & $)".
Qed.

Definition added (ok : bool) (h h' : SegmentHeap) (M M' : gmap Z blk) : Prop :=
  if ok then ∃ a b, M' !! a = Some b ∧ bfree b = true ∧ kSegmentSize ≤ bsize b
  else segments_ h' = segments_ h ∧ M' = M ∧ os_refused.

Lemma wp_addSegment h M B Q :
  heap_state h M B →
  blocks None M ∗ bins_res (bins_ h) B ∗
  (∀ ok h' M' B', ⌜heap_state h' M' B' ∧ used_caps M' = used_caps M ∧ added ok h h' M M'⌝ -∗
     blocks None M' -∗ bins_res (bins_ h') B' -∗ Q (ok, h')) ⊢
  wp (addSegment h) Q.
Proof.
  intros Hst. pose proof os_page_bounds as [Hp _]. iIntros "(HM & HB & HQ)".
  assert (kSegmentSize + os_page - 1 < W64) by (rewrite W64_eq; unfold kSegmentSize; lia).
  destruct (roundToPages_bounds kSegmentSize) as [? _]; [done|done|].
  iApply wp_bind. iApply wp_bind. iApply wp_map; [done|done|]. iIntros (r) "H". iApply wp_ret.
  iDestruct "H" as "[[-> %Href]|[%Hr H]]".
  { simpl. iApply wp_ret. by iApply ("HQ" $! false h M B with "[] HM HB"). }
  destruct Hr as [Hrok Hrs]. pose proof Hrok as (?&?&?&?&?). unfold valid. cbn [region_].
  rewrite (proj2 (Z.eqb_neq _ 0)); [|lia]. cbn [negb].
  set (s := data r). set (sz := SystemMemory.size r).
  rewrite raw_intro length_replicate Z2Nat.id; [|lia].
  assert (seg_ok (Mapped r)) as Hsok by (split; [done|unfold region_size; simpl; lia]).
  assert (48 ≤ sz) by (unfold kSegmentSize in *; lia).
  assert (s mod 16 = 0) as Hs16 by (by apply page_mod_16).
  iDestruct (blocks_fresh _ _ s sz with "[$HM $H]") as %Hfresh; [lia|].
  rewrite (segment_raw s sz) //. iDestruct "H" as "(Ht & (%v & Hp) & Hn & Hr1 & Hr2)".
  change (region_data (Mapped r)) with s. change (region_size (Mapped r)) with sz.
  assert (size_ok sz) by (split; [unfold sz, W64 in *; lia|by apply page_mod_16]).
  iApply wp_bind. iApply wp_tag_init; [align_lia|]. iFrame "Ht". iIntros "Ht".
  iApply wp_bind. iApply wp_setSize; [done|]. iFrame "Ht". iIntros "Ht".
  iApply wp_bind. iApply wp_setFirst. iFrame "Ht". iIntros "Ht".
  iApply wp_bind. iApply wp_setLast. iFrame "Ht". iIntros "Ht".
  iApply wp_bind. iApply wp_store; [by vm_compute|]. iFrame "Hp". iIntros "Hp".
  iApply wp_bind. destruct (bins_ok_lookup B (free_sizes M) sz) as (l&HBl); [apply Hst|].
  iApply wp_insertFree; [done|exact HBl|]. iFrame "Ht HB Hn". iIntros (h' Hseg) "Ht HB". iApply wp_ret.
  set (h2 := MkSegmentHeap (bins_ h') (segments_ h' ++ [Mapped r])).
  destruct (heap_state_add h M B (<[Z.to_nat (binIndex sz) := s :: l]> B) h2 (Mapped r)) as [Hst' HU];
    [done|done|done| |by rewrite /h2 /= Hseg|].
  { apply bins_ok_insert; [apply Hst| |done]. unfold free_sizes. by rewrite lookup_omap Hfresh. }
  change (region_data (Mapped r)) with s in *. change (region_size (Mapped r)) with sz in *.
  iApply ("HQ" $! true h2 _ _ with "[%] [HM Ht Hp Hr1 Hr2] HB").
  - split_and!; [exact Hst'|exact HU|]. simpl. exists s, (segment_blk s sz true).
    rewrite lookup_set_free decide_True // lookup_insert_eq. split_and!; [done|done|simpl; lia].
  - assert (set_free s true (<[s := segment_blk s sz false]> M) = <[s := segment_blk s sz true]> M) as ->.
    { apply map_eq. intros x. rewrite lookup_set_free !lookup_insert.
      repeat case_decide; done. }
    rewrite blocks_insert //. iFrame "HM". unfold blk_res, free_rest; simpl. rewrite prev_word_ne //. iFrame.
Qed.

(** Cutting the tail off a block in use makes it a free block. *)
Lemma heap_state_split h h' M B B' a t ba :
  heap_state h M B → M !! a = Some ba → bfree ba = false → next_used M a →
  48 ≤ t → t mod 16 = 0 → 48 ≤ bsize ba - t → M !! (a + t) = None → segments_ h' = segments_ h →
  bins_ok B' (free_sizes (set_free (a + t) true (split a ba t M))) →
  let M' := set_free (a + t) true (split a ba t M) in
  heap_state h' M' B' ∧ M' !! a = Some (front ba t) ∧
  used_caps M' = <[a := t - kBlockHeaderSize]> (used_caps M).
Proof.
  intros Hst Ha Hu Hnu Ht Htm Hr Hfr Hseg HB' M'.
  destruct (heap_block_end _ _ _ _ _ Hst Ha) as [? ?].
  destruct Hst as (Hs&HM&HC&HB).
  assert (in64 t) by (unfold in64; lia).
  assert (heap_ok (segs_map (segments_ h')) (split a ba t M)) as HM1.
  { rewrite Hseg. by apply heap_ok_split. }
  split_and!.
  - split_and!; [by rewrite Hseg|by apply heap_ok_set_free| |done].
    eapply coalesced_set; [done|by eapply coalesced_split|by eapply next_used_split|by eapply prev_used_split].
  - unfold M'. rewrite lookup_set_free decide_False; [|lia]. by eapply split_lookup_a.
  - unfold M'. rewrite used_caps_set. erewrite used_caps_split; [|done..].
    rewrite delete_insert_id //. rewrite lookup_insert_ne; [|lia].
    unfold used_caps. by rewrite lookup_omap Hfr.
Qed.

Lemma payload_cut a t ba :
  48 ≤ t → 48 ≤ bsize ba - t → (a + t) mod 16 = 0 →
  payload a ba ⊢ payload a (front ba t) ∗ raw (a + t) 8 ∗ (∃ v, (a + t + 8)%Z ↦64 v) ∗
    node_raw (a + t) ∗ free_rest (a + t) (rest_of ba t).
Proof.
  intros Ht Hr Hm. unfold payload, payloadOf, kBlockHeaderSize, front; simpl.
  rewrite (raw_take (a + 16) (t - 16)); [|lia].
  replace (a + 16 + (t - 16)) with (a + t) by lia.
  replace (bsize ba - 16 - (t - 16)) with (bsize ba - t) by lia.
  rewrite (segment_raw (a + t)) //.
Qed.

(** What is left of a block after [splitBlock]. *)
Definition cut (h h' : SegmentHeap) (M M' : gmap Z blk) (B' : list (list Z)) (a t : Z) (b' : blk) : Prop :=
  heap_state h' M' B' ∧ M' !! a = Some b' ∧ bfree b' = false ∧ t ≤ bsize b' < t + kMinBlockSize ∧
  used_caps M' = <[a := bsize b' - kBlockHeaderSize]> (used_caps M).

Lemma wp_splitBlock h M B a t ba Q :
  heap_state h M B → M !! a = Some ba → bfree ba = false → next_used M a →
  48 ≤ t ≤ bsize ba → t mod 16 = 0 →
  blocks None M ∗ bins_res (bins_ h) B ∗ payload a ba ∗
  (∀ h' M' B' b', ⌜cut h h' M M' B' a t b'⌝ -∗
     blocks None M' -∗ bins_res (bins_ h') B' -∗ payload a b' -∗ Q h') ⊢
  wp (splitBlock h a t) Q.
Proof.
  intros Hst Ha Hu Hnu Ht Htm. iIntros "(HM & HB & Hpay & HQ)".
  destruct (heap_block_ok _ _ _ _ (proj1 (proj2 Hst)) Ha) as (Hal&Hbs&Hbm&_).
  destruct (heap_block_end _ _ _ _ _ Hst Ha) as [??].
  iApply wp_bind. iApply wp_blk_size; [done|]. iFrame "HM". iIntros "HM".
  rewrite sub64_small; [|unfold in64; lia].
  destruct (Z.ltb_spec (bsize ba - t) kMinBlockSize) as [Hlt|Hge].
  { iApply wp_ret. iApply ("HQ" $! h M B ba with "[%] HM HB Hpay").
    unfold cut, kMinBlockSize in *. split; [done|]. split_and!; [done|done|lia|lia|].
    rewrite insert_id //. unfold used_caps. by rewrite lookup_omap Ha /= Hu. }
  unfold kMinBlockSize in Hge.
  assert ((a + t) mod 16 = 0) by align_lia.
  rewrite (payload_cut a t ba); [|lia|lia|done]. iDestruct "Hpay" as "(Hpay & Ht & (%v & Hp) & Hn & Hrest)".
  iDestruct (blocks_fresh _ _ (a + t) 8 with "[$HM $Ht]") as %Hfresh; [done|].
  assert (size_ok (bsize ba - t)) by (split; [lia|align_lia]).
  assert (size_ok t) by (split; [lia|done]).
  iApply wp_bind. iApply wp_tag_init; [align_lia|]. iFrame "Ht". iIntros "Ht".
  iApply wp_bind. iApply wp_setSize; [done|]. iFrame "Ht". iIntros "Ht".
  iApply wp_bind. iApply wp_blk_isLast; [done|]. iFrame "HM". iIntros "HM".
  iApply wp_bind. iApply wp_setLast. iFrame "Ht". iIntros "Ht".
  iApply wp_bind. iApply wp_store; [change (2 ^ (Z.of_nat 8 * 8)) with W64; lia|]. iFrame "Hp". iIntros "Hp".
  rewrite (blocks_split M a t ba) //; [|lia|lia]. iDestruct "HM" as "[Hta HM]".
  iApply wp_bind. iApply wp_setSize; [done|]. iFrame "Hta". iIntros "Hta".
  iApply wp_bind. iApply wp_setLast. iFrame "Hta". iIntros "Hta".
  iDestruct ("HM" with "[$Hta $Ht $Hp]") as "HM".
  assert (heap_ok (segs_map (segments_ h)) (split a ba t M)) as HM1.
  { apply heap_ok_split; [apply Hst|done|lia|done|lia|unfold in64; lia|done]. }
  assert (split a ba t M !! (a + t) = Some (rest_of ba t)) as Hrest.
  { eapply split_lookup_rest; try done; [apply Hst|lia|unfold in64; lia]. }
  iApply wp_bind. iApply wp_blk_isLast; [done|]. iFrame "HM". iIntros "HM".
  iApply wp_bind. iApply (wp_wand _ (λ _, blocks None (split a ba t M)) with "[HM]").
  { unfold after. destruct (blast (rest_of ba t)) eqn:Hl; cbn [negb]; [by iApply wp_ret|].
    iApply wp_bind. iApply wp_blk_nextBlock; [done|]. iFrame "HM". iIntros "HM".
    iApply wp_settle; [done|done|done|unfold in64; simpl; lia|]. iFrame "HM". by iIntros "HM". }
  iIntros (_) "HM". iApply (wp_link _ _ _ B); [done|done|done| |].
  { erewrite free_sizes_split; [apply Hst|apply Hst|done|lia|done|lia|unfold in64; lia|done|done]. }
  iFrame "HM HB Hn". iIntros (h' B' [Hseg HB']) "HM HB". iDestruct ("HM" with "Hrest") as "HM".
  destruct (heap_state_split h h' M B B' a t ba) as (Hst'&Ha'&HU); try done; try lia.
  iApply ("HQ" $! h' _ B' (front ba t) with "[%] HM HB Hpay").
  split_and!; try done; simpl; unfold kMinBlockSize; lia.
Qed.

(** Taking a free block off its list. *)
Lemma heap_state_unlink h h' M B B' a b :
  heap_state h M B → M !! a = Some b → bfree b = true → segments_ h' = segments_ h →
  bins_ok B' (free_sizes (set_free a false M)) →
  heap_state h' (set_free a false M) B' ∧ set_free a false M !! a = Some (with_free false b) ∧
  next_used (set_free a false M) a ∧ prev_used (set_free a false M) a.
Proof.
  intros (Hs&HM&HC&HB) Ha Hf Hseg HB'. split_and!.
  - split_and!; [by rewrite Hseg|rewrite Hseg; by apply heap_ok_set_free|by apply coalesced_clear|done].
  - by rewrite lookup_set_free decide_True // Ha.
  - by eapply next_used_clear, coalesced_next_used.
  - by eapply prev_used_clear, coalesced_prev_used.
Qed.

Definition total_of (bytes : Z) : Z :=
  Z.max (alignUp bytes kDefaultAlignment +₆₄ kBlockHeaderSize) kMinBlockSize.
Lemma total_of_bounds bytes :
  0 ≤ bytes → bytes + 32 ≤ W64 →
  48 ≤ total_of bytes ∧ total_of bytes mod 16 = 0 ∧ bytes + 16 ≤ total_of bytes ∧
  total_of bytes ≤ Z.max (bytes + 31) 48.
Proof.
  intros Hb Hlt. unfold total_of, kDefaultAlignment, kBlockHeaderSize, kMinBlockSize.
  rewrite alignUp_16; [|done|lia].
  assert (bytes ≤ (bytes + 15) / 16 * 16 ≤ bytes + 15) by align_lia.
  rewrite add64_small; [|unfold in64; rewrite W64_eq in Hlt |- *; align_lia].
  split_and!; try lia. destruct (Z.max_spec ((bytes + 15) / 16 * 16 + 16) 48) as [[_ ->]|[_ ->]];
    [done|align_lia].
Qed.

Lemma wp_allocate_from h M B total a sz Q :
  heap_state h M B → free_sizes M !! a = Some sz → 48 ≤ total ≤ sz → total mod 16 = 0 →
  blocks None M ∗ bins_res (bins_ h) B ∗
  (∀ h' cap, ⌜used_caps M !! a = None ∧ total ≤ cap + kBlockHeaderSize < total + kMinBlockSize ∧
              0 < a ∧ a mod 16 = 0⌝ -∗
     seg_inv h' (<[a := cap]> (used_caps M)) -∗ raw (payloadOf a) cap -∗ Q (payloadOf a, h')) ⊢
  wp (allocate_from h a total) Q.
Proof.
  intros Hst HF Ht Htm. iIntros "(HM & HB & HQ)".
  assert (∃ b, M !! a = Some b ∧ bfree b = true ∧ sz = bsize b) as (b&Ha&Hf&->).
  { unfold free_sizes in HF. apply lookup_omap_Some in HF as (b&Hb&Ha). exists b.
    destruct (bfree b); [by simplify_eq|done]. }
  destruct (heap_block_ok _ _ _ _ (proj1 (proj2 Hst)) Ha) as (Hal&?&_&_).
  destruct (heap_block_end _ _ _ _ _ Hst Ha) as [??].
  iApply wp_bind. iApply wp_unlink; [done|done|lia|apply Hst|]. iFrame "HM HB".
  iIntros (h1 B1 [Hseg HB1]) "HM HB Hpay".
  destruct (heap_state_unlink h h1 M B B1 a b) as (Hst1&Ha1&Hnu&_); [done..|].
  iApply wp_bind. iApply (wp_splitBlock _ _ B1); [done|done|done|done|done|done|].
  iFrame "HM HB Hpay". iIntros (h2 M2 B2 b2 (Hst2&Ha2&Hu2&Hsz&HU)) "HM HB Hpay". iApply wp_ret.
  iApply ("HQ" $! h2 (bsize b2 - kBlockHeaderSize) with "[%] [HM HB] Hpay").
  - split_and!; [by eapply used_caps_None|lia|lia|done|done].
  - iExists M2, B2. iFrame. iPureIntro. split; [done|].
    by rewrite HU (used_caps_clear _ _ _ Ha) insert_insert_eq.
Qed.

(** What [allocate] returns: null - for a request above the segment size, or when
    the system refuses memory - or a payload of at least [bytes] bytes. *)
Lemma wp_allocate h U bytes Q :
  0 ≤ bytes → bytes + 32 ≤ W64 →
  seg_inv h U ∗
  (∀ p h', ((⌜p = 0 ∧ (kSegmentSize < total_of bytes ∨ os_refused)⌝ ∗ seg_inv h' U) ∨
            ∃ a cap, ⌜p = payloadOf a ∧ U !! a = None ∧ 0 < a ∧ a mod 16 = 0 ∧
                      total_of bytes ≤ cap + kBlockHeaderSize < total_of bytes + kMinBlockSize⌝ ∗
              seg_inv h' (<[a := cap]> U) ∗ raw p cap) -∗ Q (p, h')) ⊢
  wp (allocate h bytes) Q.
Proof.
  intros Hb Hlt. iIntros "[(%M & %B & [%Hst <-] & HM & HB) HQ]".
  destruct (total_of_bounds bytes Hb Hlt) as (Ht&Htm&_&_).
  unfold allocate. fold (total_of bytes). set (total := total_of bytes) in *.
  destruct (Z.ltb_spec kSegmentSize total) as [Hbig|Hfit].
  { iApply wp_ret. iApply "HQ". iLeft. iSplit; [iPureIntro; auto|]. iExists M, B. by iFrame. }
  iApply wp_bind.
  iApply (wp_findFit (free_sizes M) (blocks None M));
    [intros; by apply blocks_free_tag|apply Hst|lia|].
  iFrame "HM HB". iIntros (r) "%Hr HB HM". destruct Hr as [[-> Hnone]|[Hne (i&l1&l2&sz&_&_&HF&?&_)]].
  - simpl. iApply wp_bind. iApply wp_addSegment; [done|]. iFrame "HM HB".
    iIntros (ok h' M' B' (Hst'&HU&Hadd)) "HM HB". destruct ok; cbn [negb].
    + iApply wp_bind.
      iApply (wp_findFit (free_sizes M') (blocks None M'));
        [intros; by apply blocks_free_tag|apply Hst'|lia|].
      iFrame "HM HB". iIntros (r) "%Hr HB HM".
      destruct Hr as [[-> Hnone']|[Hne (i&l1&l2&sz&_&_&HF&?&_)]].
      * exfalso. destruct Hadd as (a&b&Ha&Hf&Hs). specialize (Hnone' a (bsize b)).
        rewrite (free_sizes_Some _ _ _ Ha Hf) in Hnone'. specialize (Hnone' eq_refl). lia.
      * rewrite (proj2 (Z.eqb_neq r 0)) //. iApply wp_allocate_from; [done|done|lia|done|].
        iFrame "HM HB". iIntros (h2 cap (?&?&?&?)) "HI Hp". iApply "HQ". iRight. iExists r, cap.
        rewrite -HU. iFrame. iPureIntro. done.
    + iApply wp_ret. iApply "HQ". iLeft. destruct Hadd as (Hseg&->&Href).
      iSplit; [iPureIntro; auto|]. iExists M, B'. by iFrame.
  - rewrite (proj2 (Z.eqb_neq r 0)) //. iApply wp_allocate_from; [done|done|lia|done|].
    iFrame "HM HB". iIntros (h2 cap (?&?&?&?)) "HI Hp". iApply "HQ". iRight. iExists r, cap.
    iFrame. iPureIntro. done.
Qed.
End alloc.
