(* ===== verification/SegmentFree.v ===== *)
(** The segment heap, deallocation: the two merges, [releaseSegment] and
    [deallocate]; and the read-only operations. *)

From iris.proofmode Require Import proofmode.
From S2P Require Import Prelude.
From S2P Require Import HeapProp.
From S2P Require Import Memory.
From S2P Require Import Logic.
From S2P Require Import BlockHeader.
From S2P Require Import SystemMemory.
From S2P Require Import SegmentHeap.
From S2P Require Import SegmentTags.
From S2P Require Import SegmentModel.
From S2P Require Import SegmentList.
From S2P Require Import SegmentBins.
From S2P Require Import SegmentBlocks.
From S2P Require Import SegmentProofs.
From S2P Require Import SegmentAlloc.

Section free.
Context `{HOS : !OS, HL : !OSLaws}.
Implicit Types (h : SegmentHeap) (M : gmap Z blk) (B : list (list Z)) (a : Z) (b : blk).

(** The facts about a merge of the block at [a] with the one after it, both in use. *)
Lemma heap_state_merge h M B a ba bn :
  heap_state h M B → M !! a = Some ba → blast ba = false → M !! (a + bsize ba) = Some bn →
  bfree ba = false → bfree bn = false →
  let M' := merge a ba bn M in
  size_ok (bsize ba + bsize bn) ∧ heap_state h M' B ∧ M' !! a = Some (merged ba bn) ∧
  used_caps M' = <[a := bsize ba + bsize bn - kBlockHeaderSize]> (delete (a + bsize ba) (used_caps M)).
Proof.
  intros Hst Ha Hl Hn Hfa Hfn M'.
  destruct (heap_block_end _ _ _ _ _ Hst Hn) as [? ?]. destruct (heap_block_end _ _ _ _ _ Hst Ha) as [? ?].
  destruct Hst as (Hs&HM&HC&HB).
  destruct (heap_block_ok _ _ _ _ HM Ha) as (?&?&?&_). destruct (heap_block_ok _ _ _ _ HM Hn) as (?&?&?&_).
  assert (size_ok (bsize ba + bsize bn)) as Hsz by (split; [lia|align_lia]).
  split; [done|split; [|split]].
  - split_and!; [done| |by eapply coalesced_merge|].
    + apply heap_ok_merge; try done. unfold in64. apply Hsz.
    + unfold M'. by erewrite free_sizes_merge.
  - by eapply merge_lookup_a.
  - by eapply used_caps_merge.
Qed.
(** A free block next to a block in use, once unlinked. *)
Lemma lookup_unlinked M a x b v : M !! x = Some b → x ≠ a → set_free a v M !! x = Some b.
Proof. intros. by rewrite lookup_set_free decide_False. Qed.

(** The tag words of a merged block join the payload. *)
Lemma absorbed a b :
  48 ≤ bsize b →
  (∃ first last, tag a (bsize b) false first last) ∗ (∃ v, (a + 8)%Z ↦64 v) ∗ payload a b ⊢
  raw a (bsize b).
Proof.
  intros Hb. iIntros "((%fi & %la & Ht) & (%v & Hp) & Hpay)". rewrite tag_raw word64_raw.
  unfold payload, payloadOf, kBlockHeaderSize.
  rewrite (raw_take a 16 (bsize b)); [|lia]. iFrame "Hpay".
  rewrite (raw_take a 8 16); [|lia]. iFrame.
Qed.

(** ** The block in use grows over the free block after it *)
Definition grown h h' M M' B' a (ba b' : blk) : Prop :=
  heap_state h' M' B' ∧ M' !! a = Some b' ∧ bfree b' = false ∧ bsize ba ≤ bsize b' ∧
  used_caps M' = <[a := bsize b' - kBlockHeaderSize]> (used_caps M) ∧ next_used M' a.

Lemma wp_coalesce_next h M B a ba Q :
  heap_state h M B → M !! a = Some ba → bfree ba = false →
  blocks (after a ba) M ∗ bins_res (bins_ h) B ∗
  (∀ h' M' B' b', ⌜grown h h' M M' B' a ba b'⌝ -∗ blocks (after a b') M' -∗ bins_res (bins_ h') B' -∗
     raw (a + bsize ba) (bsize b' - bsize ba) -∗ Q h') ⊢
  wp (coalesce_next h a) Q.
Proof.
  intros Hst Ha Hfa. pose proof Hst as (Hs&HM&HC&HBok).
  destruct (heap_block_ok _ _ _ _ HM Ha) as (Hal&Hbs&Hbm&_).
  assert (next_used M a → grown h h M M B a ba ba) as Hsame.
  { intros Hnu. split_and!; try done. rewrite insert_id //. unfold used_caps. by rewrite lookup_omap Ha /= Hfa. }
  iIntros "(HM & HB & HQ)". iApply wp_bind. iApply wp_blk_isLast; [done|]. iFrame "HM". iIntros "HM".
  destruct (blast ba) eqn:Hl; cbn [negb].
  { iApply wp_ret. iApply ("HQ" $! h M B ba with "[%] HM HB"); [|rewrite Z.sub_diag; iApply raw_0].
    apply Hsame. intros b n ??. congruence. }
  destruct (proj1 HM a ba Ha) as (_&_&_&Hnl). destruct (Hnl Hl) as (bn&Hn&Hpn&Hfn&Hsn).
  iApply wp_bind. iApply wp_blk_nextBlock; [done|]. iFrame "HM". iIntros "HM".
  iApply wp_bind. iApply wp_blk_isFree; [done|]. iFrame "HM". iIntros "HM".
  destruct (bfree bn) eqn:Hf.
  2: { iApply wp_ret. iApply ("HQ" $! h M B ba with "[%] HM HB"); [|rewrite Z.sub_diag; iApply raw_0].
       apply Hsame. intros b n ? _ ?. congruence. }
  destruct (heap_block_ok _ _ _ _ HM Hn) as (_&Hns&_&_).
  iApply wp_bind. iApply wp_unlink; [done|done|done|done|]. iFrame "HM HB".
  iIntros (h1 B1 [Hseg HB1]) "HM HB Hpay".
  destruct (heap_state_unlink h h1 M B B1 (a + bsize ba) bn) as (Hst1&Hn1&Hnu&_); [done..|].
  specialize (lookup_unlinked M (a + bsize ba) a ba false Ha ltac:(lia)) as Ha1.
  destruct (heap_state_merge _ _ _ a ba (with_free false bn) Hst1 Ha1) as (Hsz&Hst2&Ha2&HU); [done..|].
  assert (after a ba = Some (a + bsize ba)) as -> by (unfold after; by rewrite Hl).
  rewrite (blocks_merge _ _ a ba (with_free false bn)); [|done|done|lia|simpl; lia|done|done|by left].
  iDestruct "HM" as "(Hta & Htn & Hpn & HM)". simpl.
  iApply wp_bind. iApply wp_size. iFrame "Hta". iIntros "Hta".
  iApply wp_bind. iApply wp_size. iFrame "Htn". iIntros "Htn". rewrite add64_small; [|apply Hsz].
  iApply wp_bind. iApply wp_setSize; [exact Hsz|]. iFrame "Hta". iIntros "Hta".
  iApply wp_bind. iApply wp_isLast. iFrame "Htn". iIntros "Htn".
  iApply wp_bind. iApply wp_setLast. iFrame "Hta". iIntros "Hta". iApply wp_ret.
  iApply ("HQ" $! h1 _ B1 (merged ba (with_free false bn)) with "[%] [HM Hta] HB [Hpay Hpn Htn]").
  - split_and!; [apply Hst2..|done|done|simpl; lia| |].
    + rewrite HU (used_caps_clear _ _ _ Hn) delete_insert_id //. by eapply used_caps_None.
    + eapply next_used_merge; try done. apply Hst1.
  - by iApply "HM".
  - simpl. replace (bsize ba + bsize bn - bsize ba) with (bsize bn) by lia.
    iApply absorbed; [done|]. iFrame.
Qed.

(** ** A free block before the block in use grows over it *)
Definition joined h' M M' B' a (c : Z) (b' : blk) : Prop :=
  heap_state h' M' B' ∧ M' !! c = Some b' ∧ bfree b' = false ∧ next_used M' c ∧ prev_used M' c ∧
  used_caps M' = <[c := bsize b' - kBlockHeaderSize]> (delete a (used_caps M)) ∧
  (c = a ∨ used_caps M !! c = None).
(** The payload of the block that remains: the old one, or the node of the
    enclosing block and the rest of it once the old payload is handed over. *)
Definition joined_res a (ba : blk) (c : Z) (b' : blk) : heapPropI :=
  ⌜c = a ∧ b' = ba⌝ ∨ node_raw c ∗ (payload a ba -∗ free_rest c b').

Lemma free_rest_extend p bp n :
  48 ≤ bsize bp → 0 ≤ n →
  free_rest p bp ∗ raw (p + bsize bp) n ⊢ raw (p + 16) 16 ∗ raw (p + 48) (bsize bp + n - 48).
Proof.
  intros Hb Hn. unfold free_rest. rewrite (raw_take (p + 48) (bsize bp - 48) (bsize bp + n - 48)); [|lia].
  replace (p + 48 + (bsize bp - 48)) with (p + bsize bp) by lia.
  replace (bsize bp + n - 48 - (bsize bp - 48)) with n by lia. iIntros "[($ & $) $]".
Qed.

Lemma wp_coalesce_prev h M B a ba Q :
  heap_state h M B → M !! a = Some ba → bfree ba = false → next_used M a →
  blocks (after a ba) M ∗ bins_res (bins_ h) B ∗
  (∀ c h' M' B' b', ⌜joined h' M M' B' a c b'⌝ -∗ blocks (after c b') M' -∗
     bins_res (bins_ h') B' -∗ joined_res a ba c b' -∗ Q (c, h')) ⊢
  wp (coalesce_prev h a) Q.
Proof.
  intros Hst Ha Hfa Hnu. pose proof Hst as (Hs&HM&HC&HBok).
  destruct (heap_block_ok _ _ _ _ HM Ha) as (Hal&Hbs&Hbm&_).
  assert (used_caps M !! a = Some (bsize ba - kBlockHeaderSize)) as HUa.
  { unfold used_caps. by rewrite lookup_omap Ha /= Hfa. }
  assert (prev_used M a → joined h M M B a a ba) as Hsame.
  { intros Hpu. split_and!; try done; [|by left]. by rewrite insert_delete_eq insert_id. }
  iIntros "(HM & HB & HQ)". iApply wp_bind. iApply wp_blk_isFirst; [done|]. iFrame "HM". iIntros "HM".
  destruct (bfirst ba) eqn:Hf; cbn [negb].
  { iApply wp_ret. iApply ("HQ" $! a h M B ba with "[%] HM HB"); [|by iLeft].
    apply Hsame. intros b n ??. congruence. }
  destruct (proj1 HM a ba Ha) as (_&_&Hpl&_). destruct (Hpl Hf) as (bp&Hp&Hps&Hlp&Hsp).
  assert (after a ba ≠ Some a) as Hsta.
  { unfold after. destruct (blast ba); [done|intros [=]; lia]. }
  iApply wp_bind. iApply wp_blk_prevBlock; [done|done|]. iFrame "HM". iIntros "HM".
  set (p := a - bprev ba) in *. assert (p + bsize bp = a) as Hpa by lia.
  iApply wp_bind. iApply wp_blk_isFree; [done|]. iFrame "HM". iIntros "HM".
  destruct (bfree bp) eqn:Hfp.
  2: { iApply wp_ret. iApply ("HQ" $! a h M B ba with "[%] HM HB"); [|by iLeft].
       apply Hsame. intros b n Hb _ Hn'. assert (b = ba) as -> by congruence. fold p in Hn'. congruence. }
  destruct (heap_block_ok _ _ _ _ HM Hp) as (_&Hpsz&_&_).
  iApply wp_bind. iApply wp_unlink; [done|done|done|done|]. iFrame "HM HB".
  iIntros (h1 B1 [Hseg HB1]) "HM HB Hpay".
  destruct (heap_state_unlink h h1 M B B1 p bp) as (Hst1&Hp1&_&Hpu); [done..|].
  specialize (lookup_unlinked M p a ba false Ha ltac:(lia)) as Ha1. rewrite -Hpa in Ha1.
  destruct (heap_state_merge _ _ _ p (with_free false bp) ba Hst1 Hp1) as (Hsz&Hst2&Hp2&HU); [done..|].
  rewrite (blocks_merge _ _ p (with_free false bp) ba); [|done|done|simpl; lia|lia|done|done| ].
  2: { right. simpl. by rewrite Hpa. }
  iDestruct "HM" as "(Htp & Hta & Hpa & HM)". simpl. rewrite Hpa.
  iApply wp_bind. iApply wp_size. iFrame "Htp". iIntros "Htp".
  iApply wp_bind. iApply wp_size. iFrame "Hta". iIntros "Hta". rewrite add64_small; [|apply Hsz].
  iApply wp_bind. iApply wp_setSize; [exact Hsz|]. iFrame "Htp". iIntros "Htp".
  iApply wp_bind. iApply wp_isLast. iFrame "Hta". iIntros "Hta".
  iApply wp_bind. iApply wp_setLast. iFrame "Htp". iIntros "Htp". iApply wp_ret.
  rewrite payload_split //. iDestruct "Hpay" as "[Hn Hr]".
  iApply ("HQ" $! p h1 _ B1 (merged (with_free false bp) ba) with "[%] [HM Htp] HB [Hn Hr Hpa Hta]").
  - split_and!; [apply Hst2..|done|done| | | |by right; eapply used_caps_None].
    + eapply next_used_merge; try done; [apply Hst1|]. simpl. rewrite Hpa. by apply next_used_clear.
    + eapply prev_used_merge; try done. apply Hst1.
    + rewrite HU (used_caps_clear _ _ _ Hp). simpl. rewrite Hpa delete_insert_ne; [|lia].
      by rewrite insert_insert_eq.
  - by iApply "HM".
  - iRight. iFrame "Hn". iIntros "Hpay". iApply (free_rest_extend p bp (bsize ba)); [done|lia|].
    iFrame "Hr". rewrite Hpa. iApply absorbed; [done|]. iFrame.
Qed.

(** ** Putting the remaining block away *)

(** A segment that is one free block goes back to the system. *)
Lemma heap_state_release h M B s b segs1 r segs2 :
  heap_state h M B → M !! s = Some b → bfirst b = true → blast b = true → bfree b = false →
  (∀ x bx, M !! x = Some bx → bseg bx = s → x = s) →
  segments_ h = segs1 ++ r :: segs2 → region_data r = s →
  heap_state (MkSegmentHeap (bins_ h) (segs1 ++ segs2)) (delete s M) B.
Proof.
  intros (Hs&HM&HC&HB) Hsb Hf Hl Hu Honly Hsegs Hr. rewrite Hsegs in Hs HM.
  destruct (segs_remove _ _ _ Hs) as [Hs' HG]. split_and!; simpl.
  - done.
  - rewrite HG Hr. by eapply heap_ok_release.
  - by apply coalesced_release.
  - by rewrite (free_sizes_release M s b).
Qed.
Lemma split_at_base (segs : list MappedRegion) s :
  s ∈ region_data <$> segs →
  ∃ segs1 r segs2, segs = segs1 ++ r :: segs2 ∧ region_data r = s ∧ s ∉ region_data <$> segs1.
Proof.
  induction segs as [|r segs IH]; [by intros ?%not_elem_of_nil|]. rewrite fmap_cons.
  destruct (decide (region_data r = s)) as [Hr|Hr].
  - intros _. exists [], r, segs. split_and!; [done|done|apply not_elem_of_nil].
  - intros [?|Hin]%elem_of_cons; [done|]. destruct (IH Hin) as (s1&r'&s2&->&?&?).
    exists (r :: s1), r', s2. split_and!; [done|done|]. rewrite fmap_cons. set_solver.
Qed.

(** Putting the remaining block on a free list; [K] is what the caller hands over
    afterwards, up to the sixteen bytes after the tags. *)
Definition kept_or_released (U : gmap Z Z) h' (R hole : heapPropI) : heapPropI :=
  (R ∗ (hole -∗ seg_inv h' U)) ∨ seg_inv h' U.

Lemma wp_finish_link h M B a c b' R U Q :
  heap_state h M B → M !! c = Some b' → bfree b' = false → next_used M c → prev_used M c →
  delete c (used_caps M) = U →
  blocks None M ∗ bins_res (bins_ h) B ∗ node_raw c ∗ R ∗
  (raw (payloadOf a) 16 -∗ free_rest c b') ∗
  (∀ h', kept_or_released U h' R (raw (payloadOf a) 16) -∗ Q h') ⊢
  wp (insertFree h c) Q.
Proof.
  intros Hst Hc Hu Hnu Hpu HU. pose proof Hst as (Hs&HM&HC&HBok).
  destruct (heap_block_ok _ _ _ _ HM Hc) as (Hal&_).
  iIntros "(HM & HB & Hn & HR & Hrest & HQ)".
  iApply (wp_link _ _ M B); [done|done|done|done|]. iFrame "HM HB Hn".
  iIntros (h' B' [Hseg HB']) "HM HB". iApply "HQ". iLeft. iFrame "HR". iIntros "Hhole".
  iExists (set_free c true M), B'. iFrame "HB". iSplit.
  - iPureIntro. split; [|by rewrite used_caps_set]. split_and!; [by rewrite Hseg| | |done].
    + rewrite Hseg. by apply heap_ok_set_free.
    + by eapply coalesced_set.
  - iApply "HM". by iApply "Hrest".
Qed.

(** The only block of its segment covers it. *)
Lemma blocks_only G M s b :
  heap_ok G M → M !! s = Some b → bfirst b = true → blast b = true →
  blocks None M ∗ payload s b ⊢ ⌜∀ x bx, M !! x = Some bx → bseg bx = s → x = s⌝.
Proof.
  intros HM Hs Hf Hl. destruct (proj1 HM s b Hs) as ((?&?&?&_)&(sz&Hsz&_&_&Hfs&Hls)&_).
  iIntros "H". iIntros (x bx Hx Hseg).
  destruct (proj1 HM x bx Hx) as ((?&?&?&_)&(szx&Hszx&?&?&_)&_).
  unfold payload, payloadOf, kBlockHeaderSize, kMinBlockSize in *.
  iDestruct (blocks_disjoint None M x bx _ (bsize b - 16) Hx with "H") as %Hd; [lia|]. iPureIntro.
  specialize (Hfs Hf). specialize (Hls Hl). rewrite Hseg in Hszx. rewrite -Hfs in Hsz Hls.
  assert (szx = sz) as -> by congruence. rewrite ->Hseg in *. align_lia.
Qed.

Lemma wp_releaseSegment h M B a c b' R U Q :
  heap_state h M B → M !! c = Some b' → bfree b' = false → bfirst b' = true → blast b' = true →
  (R ⊢ raw (payloadOf a) 16) → delete c (used_caps M) = U →
  blocks None M ∗ bins_res (bins_ h) B ∗ node_raw c ∗ R ∗
  (raw (payloadOf a) 16 -∗ free_rest c b') ∗
  (∀ h', kept_or_released U h' R (raw (payloadOf a) 16) -∗ Q h') ⊢
  wp (releaseSegment h c) Q.
Proof.
  intros Hst Hc Hu Hf Hl HR HU. pose proof Hst as (Hs&HM&HC&HBok).
  assert (next_used M c) as Hnu by (intros b n ??; congruence).
  assert (prev_used M c) as Hpu by (intros b n ??; congruence).
  iIntros "(HM & HB & Hn & HR & Hrest & HQ)". unfold releaseSegment.
  destruct (Nat.leb_spec (length (segments_ h)) 1).
  { iApply wp_finish_link; [done..|]. iFrame. }
  destruct (proj1 HM c b' Hc) as ((?&?&?&_)&(sz&Hsz&_&_&Hfs&Hls)&_).
  specialize (Hfs Hf). specialize (Hls Hl). rewrite -Hfs in Hsz Hls.
  assert (sz = bsize b') as -> by lia.
  destruct (segs_map_lookup _ _ _ Hs Hsz) as (r&Hr&Hrok&Hrd&Hrs).
  destruct (split_at_base (segments_ h) c) as (segs1&r'&segs2&Hsegs&Hrd'&Hn1).
  { apply list_elem_of_fmap. by exists r. }
  assert (r' = r) as ->.
  { destruct Hs as [Hnd _]. rewrite Hsegs in Hnd, Hr. rewrite fmap_app fmap_cons in Hnd.
    apply elem_of_app in Hr as [Hr|[->|Hr]%elem_of_cons]; [|done|].
    - exfalso. apply Hn1, list_elem_of_fmap. by exists r.
    - exfalso. apply NoDup_app in Hnd as (_&_&[Hnr _]%NoDup_cons). apply Hnr.
      apply list_elem_of_fmap. exists r. split; [congruence|done]. }
  iDestruct (HR with "HR") as "HR". iDestruct ("Hrest" with "HR") as "Hrest".
  iDestruct (payload_split c b' with "[$Hn $Hrest]") as "Hpay"; [done|].
  iDestruct (blocks_only _ _ _ _ HM Hc Hf Hl with "[$HM $Hpay]") as %Honly.
  rewrite (blocks_delete _ _ _ _ Hc). iDestruct "HM" as "[(Ht & Hp & _) HM]".
  rewrite Hsegs. iApply wp_bind. iApply wp_erase_segment; [done|done|done|].
  rewrite Hu prev_word_any. rewrite Hrs. iSplitL "Ht Hp Hpay".
  { iApply absorbed; [done|]. iFrame. }
  iApply wp_ret. iApply "HQ". iRight. iExists (delete c M), B. iFrame. iPureIntro. split.
  - by eapply heap_state_release.
  - by rewrite used_caps_release.
Qed.

(** ** deallocate *)
(** [R] is any description of the first sixteen payload bytes: when the block
    stays in the heap, the caller may keep them (a freed block's header can then
    still be read); when its segment is unmapped they are gone. *)
Lemma wp_deallocate h U a cap R Q :
  U !! a = Some cap → (R ⊢ raw (payloadOf a) 16) →
  seg_inv h U ∗ R ∗ raw (payloadOf a + 16) (cap - 16) ∗
  (∀ h', kept_or_released (delete a U) h' R (raw (payloadOf a) 16) -∗ Q h') ⊢
  wp (deallocate h (payloadOf a)) Q.
Proof.
  intros Ha HR. iIntros "((%M & %B & [%Hst <-] & HM & HB) & HR & Hpay & HQ)".
  destruct (used_caps_Some _ _ _ Ha) as (ba&Hba&Hu&->).
  destruct (heap_block_ok _ _ _ _ (proj1 (proj2 Hst)) Hba) as (Hal&Hsz&_).
  assert (blockOf (payloadOf a) = a) as Hblk by (unfold blockOf, payloadOf; lia).
  unfold deallocate. rewrite Hblk. iApply wp_bind. iApply wp_coalesce_next; [done|done|done|].
  rewrite (blocks_stale (after a ba) M). iFrame "HM HB".
  iIntros (h1 M1 B1 b1 (Hst1&Ha1&Hu1&Hsz1&HU1&Hnu1)) "HM HB Hext".
  iApply wp_bind. iApply wp_coalesce_prev; [done|done|done|done|]. iFrame "HM HB".
  iIntros (c h2 M2 B2 b2 (Hst2&Hc2&Hu2&Hnu2&Hpu2&HU2&Hca)) "HM HB Hj".
  destruct (heap_block_ok _ _ _ _ (proj1 (proj2 Hst2)) Hc2) as (_&Hsz2&_).
  destruct (heap_block_end _ _ _ _ _ Hst2 Hc2) as [??].
  iAssert (node_raw c ∗ (raw (payloadOf a) 16 -∗ free_rest c b2))%I with "[Hpay Hext Hj]" as "[Hn Hrest]".
  { unfold payloadOf, kBlockHeaderSize in *.
    iAssert (raw (a + 16 + 16) (bsize b1 - 16 - 16)) with "[Hpay Hext]" as "Hpay".
    { rewrite (raw_take (a + 16 + 16) (bsize ba - 16 - 16) (bsize b1 - 16 - 16)); [|lia]. iFrame "Hpay".
      replace (a + 16 + 16 + (bsize ba - 16 - 16)) with (a + bsize ba) by lia.
      replace (bsize b1 - 16 - 16 - (bsize ba - 16 - 16)) with (bsize b1 - bsize ba) by lia. done. }
    iAssert (node_raw a ∗ raw (a + 48) (bsize b1 - 48))%I with "[Hpay]" as "[Hna Hra]".
    { unfold node_raw, nodeOf, kNodeOffset. replace (a + 16 + 16) with (a + 32) by lia.
      rewrite (raw_take (a + 32) 16); [|lia]. replace (a + 32 + 16) with (a + 48) by lia.
      by replace (bsize b1 - 16 - 16 - 16) with (bsize b1 - 48) by lia. }
    iDestruct "Hj" as "[[-> ->]|[$ Hj]]".
    - iFrame. iIntros "$".
    - iIntros "Hhole". iApply "Hj". iApply payload_split; [lia|]. iFrame. }
  iApply wp_bind. iApply wp_blk_isLast; [done|]. iFrame "HM". iIntros "HM".
  iApply wp_bind. iApply (wp_wand _ (λ _, blocks None M2) with "[HM]").
  { unfold after. destruct (blast b2) eqn:Hl; cbn [negb]; [by iApply wp_ret|].
    iApply wp_bind. iApply wp_blk_nextBlock; [done|]. iFrame "HM". iIntros "HM".
    iApply wp_bind. iApply wp_blk_size; [done|]. iFrame "HM". iIntros "HM".
    iApply wp_settle; [apply Hst2|done|done|unfold in64; lia|]. iFrame "HM". by iIntros "HM". }
  iIntros (_) "HM".
  assert (delete c (used_caps M2) = delete a (used_caps M)) as HU.
  { rewrite HU2 delete_insert_eq HU1 delete_insert_eq. apply map_eq. intros x.
    rewrite !lookup_delete. destruct (decide (c = x)) as [->|]; [|done]. case_decide; [done|].
    destruct Hca as [?|Hca]; [done|]. by rewrite HU1 lookup_insert_ne in Hca. }
  iApply wp_bind. iApply wp_blk_isFirst; [done|]. iFrame "HM". iIntros "HM".
  iApply wp_bind.
  iApply (wp_wand _ (λ both, ⌜both = bfirst b2 && blast b2⌝ ∗ blocks None M2)%I with "[HM]").
  { destruct (bfirst b2) eqn:Hf; [|by iApply wp_ret; iFrame]. iApply wp_blk_isLast; [done|].
    iFrame "HM". iIntros "$". done. }
  iIntros (both) "[-> HM]". destruct (bfirst b2 && blast b2) eqn:Hb.
  - apply andb_true_iff in Hb as [??]. iApply wp_releaseSegment; [done..|]. iFrame.
  - iApply wp_finish_link; [done..|]. iFrame.
Qed.
End free.
