(* ===== verification/SegmentStats.v ===== *)
(** The segment heap's read-only operations: [payloadCapacity] and
    [externalFragmentation]. *)

From iris.proofmode Require Import proofmode.
From Stdlib Require Import QArith.QArith.
From S2P Require Import Prelude.
From S2P Require Import HeapProp.
From S2P Require Import Memory.
From S2P Require Import Logic.
From S2P Require Import SegmentHeap.
From S2P Require Import SegmentTags.
From S2P Require Import SegmentModel.
From S2P Require Import SegmentList.
From S2P Require Import SegmentBins.
From S2P Require Import SegmentBlocks.
From S2P Require Import SegmentProofs.

Open Scope Z_scope.

(** ** Disjoint ranges fit in the address space *)
Section disjoint_ranges.
Lemma raw_bytes a n :
  raw a n ⊢ ⌜0 ≤ n⌝ ∗ [∗ list] x ∈ zseq (Z.to_nat n) a, ∃ v, byte_at x v.
Proof.
  iIntros "(%bs & <- & H)". iSplit; [iPureIntro; lia|]. rewrite Nat2Z.id.
  iInduction bs as [|b bs] "IH" forall (a); simpl; [done|].
  rewrite bytes_at_cons. iDestruct "H" as "[Hb H]". iSplitL "Hb"; [by iExists _|]. by iApply "IH".
Qed.
Lemma bytes_nodup xs : ([∗ list] x ∈ xs, ∃ v, byte_at x v) ⊢ ⌜NoDup xs ∧ ∀ x, x ∈ xs → 0 < x < W64⌝.
Proof.
  induction xs as [|x xs IH]; simpl.
  { iIntros "_". iPureIntro. split; [constructor|by intros ? ?%not_elem_of_nil]. }
  iIntros "[(%v & Hx) H]". iDestruct (byte_at_range with "Hx") as %Hr.
  iAssert ⌜x ∉ xs⌝%I as %Hn.
  { destruct (decide (x ∈ xs)) as [Hin|]; [|done]. apply list_elem_of_lookup in Hin as [i Hi].
    iDestruct (big_sepL_lookup with "H") as (w) "Hw"; [done|].
    by iDestruct (byte_at_ne with "[$Hx $Hw]") as %?. }
  iDestruct (IH with "H") as %[? Hxs]. iPureIntro. split; [by constructor|].
  by intros y [->|?]%elem_of_cons; [|auto].
Qed.

Definition total_size (l : list (Z * Z)) : Z := foldr (λ p acc, p.2 + acc) 0 l.
Lemma ranges_bound (l : list (Z * Z)) :
  ([∗ list] p ∈ l, raw p.1 p.2) ⊢ ⌜0 ≤ total_size l < W64⌝.
Proof.
  iIntros "H".
  iAssert (⌜Forall (λ p, 0 ≤ p.2) l⌝ ∗ [∗ list] x ∈ (p ← l; zseq (Z.to_nat p.2) p.1), ∃ v, byte_at x v)%I
    with "[H]" as "[%Hpos H]".
  { iInduction l as [|p l] "IH"; simpl; [by iSplit|]. rewrite raw_bytes.
    iDestruct "H" as "[[% Hp] H]". iDestruct ("IH" with "H") as "[% $]". iFrame. iPureIntro. by constructor. }
  iDestruct (bytes_nodup with "H") as %[Hnd Hr]. iPureIntro.
  assert (total_size l = Z.of_nat (length (p ← l; zseq (Z.to_nat p.2) p.1))) as ->.
  { clear Hnd Hr. induction Hpos as [|p l Hp _ IH]; [done|].
    change (total_size (p :: l)) with (p.2 + total_size l). cbn [mbind list_bind].
    rewrite length_app length_zseq IH. lia. }
  split; [lia|]. assert (Z.of_nat (length (p ← l; zseq (Z.to_nat p.2) p.1)) ≤ W64 - 1); [|lia].
  apply (nodup_range_length _ 1); [done| |by vm_compute]. intros x Hx. specialize (Hr x Hx). lia.
Qed.
End disjoint_ranges.

(** ** The walk over the bins *)
Section tally.
Context `{HOS : !OS} (F : gmap Z Z) (T : heapPropI).
Context (HT : ∀ b sz, F !! b = Some sz →
  T ⊢ ∃ first last, tag b sz true first last ∗ (tag b sz true first last -∗ T)).

Definition tally_one (acc : Z * Z) (b : Z) : Z * Z :=
  let sz := default 0 (F !! b) in (acc.1 +₆₄ sz, Z.max acc.2 sz).
Definition tally_all (acc : Z * Z) (l : list Z) : Z * Z := foldl tally_one acc l.

Definition tally_inv (head : Z) (l : list Z) (final : Z * Z) (k : nat) (s : Z * Z * Z) : heapPropI :=
  ∃ l1 l2, ⌜l = l1 ++ l2 ∧ k = length l2 ∧ tally_all (s.1.2, s.2) l2 = final⌝ ∗
    dls 0 head l1 s.1.1 ∗ dls (last_node 0 l1) s.1.1 l2 0 ∗ T.

Lemma wp_tally_step head l final k s :
  (∀ b, b ∈ l → is_Some (F !! b)) →
  tally_inv head l final k s ⊢ wp (tally_step s) (λ r,
    match r with
    | inl s' => ∃ k', ⌜(k' < k)%nat⌝ ∗ tally_inv head l final k' s'
    | inr r => ⌜r = final⌝ ∗ bin_list head l ∗ T
    end).
Proof using HT.
  intros HF. destruct s as [[node tot] lar].
  iIntros "(%l1 & %l2 & (-> & -> & %Hfin) & H1 & H2 & HT)". cbn [fst snd] in *.
  iDestruct (dls_head with "H2") as %Hh. unfold tally_step. destruct l2 as [|b l2].
  - subst node. simpl. iApply wp_ret. iFrame "HT". iSplit; [done|].
    unfold bin_list. rewrite dls_app. iExists 0. iFrame.
  - destruct Hh as (->&?&?). rewrite (proj2 (Z.eqb_neq _ 0)); [|lia].
    assert (blockOfNode (nodeOf b) = b) as -> by (unfold blockOfNode, nodeOf; lia).
    destruct (HF b) as [sz Hsz]; [set_solver|].
    iDestruct (HT b sz Hsz with "HT") as (fi la) "[Ht HT]".
    iApply wp_bind. iApply wp_size. iFrame "Ht". iIntros "Ht". iDestruct ("HT" with "Ht") as "HT".
    simpl. iDestruct "H2" as "(_ & Hp & %n & Hn & H2)".
    iApply wp_bind. iApply wp_load. iFrame "Hn". iIntros "Hn". iApply wp_ret.
    iExists (length l2). iSplit; [iPureIntro; lia|]. iExists (l1 ++ [b]), l2. cbn [fst snd]. iSplit.
    + iPureIntro. rewrite -assoc_L. split_and!; [done|done|]. rewrite -Hfin.
      change (tally_all (tot, lar) (b :: l2)) with (tally_all (tally_one (tot, lar) b) l2).
      unfold tally_one. by rewrite Hsz.
    + iFrame "HT". rewrite dls_snoc. iFrame. unfold last_node. rewrite last_snoc. iFrame.
Qed.

Lemma wp_tally_bins bins B acc Q :
  (∀ i l b, B !! i = Some l → b ∈ l → is_Some (F !! b)) →
  bins_res bins B ∗ T ∗ (bins_res bins B -∗ T -∗ Q (foldl tally_all acc B)) ⊢
  wp (tally_bins bins acc) Q.
Proof using HT.
  revert B acc Q. induction bins as [|head bins IH]; intros B acc Q HB; iIntros "(HB & HT & HQ)";
    iDestruct (big_sepL2_length with "HB") as %Hlen; destruct B as [|l B]; simpl in Hlen; try lia.
  { iApply wp_ret. by iApply ("HQ" with "HB HT"). }
  unfold bins_res. rewrite big_sepL2_cons. iDestruct "HB" as "[Hl HB]".
  iDestruct (dls_length with "Hl") as %Hll. iApply wp_bind.
  iApply (wp_wand with "[Hl HT]").
  - iApply (wp_while _ (tally_inv head l (tally_all acc l))
      (λ r, ⌜r = tally_all acc l⌝ ∗ bin_list head l ∗ T)%I (length l));
      [done|intros; apply wp_tally_step; intros; by eapply (HB O)|].
    iExists [], l. iFrame. iPureIntro. split_and!; try done. by destruct acc.
  - iIntros (r) "(-> & Hl & HT)". iApply IH; [intros i; apply (HB (S i))|]. iFrame "HB HT".
    iIntros "HB HT". iApply ("HQ" with "[$Hl $HB] HT").
Qed.
End tally.

(** The sizes of the free blocks in the order of the walk, and the ratio
    computed from their sum and maximum. *)
Definition sizes_in (F : gmap Z Z) (B : list (list Z)) : list Z :=
  (λ b, default 0 (F !! b)) <$> mjoin B.
Definition sum_sizes (l : list Z) : Z := foldr Z.add 0 l.
Definition max_size (l : list Z) : Z := foldr Z.max 0 l.
Definition fragmentation (l : list Z) : Q :=
  if sum_sizes l =? 0 then 0%Q else (1 - inject_Z (max_size l) / inject_Z (sum_sizes l))%Q.

Lemma sum_sizes_cons x l : sum_sizes (x :: l) = x + sum_sizes l.
Proof. done. Qed.
Lemma max_size_cons x l : max_size (x :: l) = Z.max x (max_size l).
Proof. done. Qed.
Lemma sum_sizes_nonneg l : Forall (λ x, 0 ≤ x) l → 0 ≤ sum_sizes l.
Proof. induction 1 as [|x l Hx _ IH]; [done|]. rewrite sum_sizes_cons. lia. Qed.

Lemma foldl_tally F tot lar l :
  0 ≤ tot → 0 ≤ lar → tot + sum_sizes ((λ b, default 0 (F !! b)) <$> l) < W64 →
  Forall (λ b, 0 ≤ default 0 (F !! b)) l →
  tally_all F (tot, lar) l =
    (tot + sum_sizes ((λ b, default 0 (F !! b)) <$> l),
     Z.max lar (max_size ((λ b, default 0 (F !! b)) <$> l))).
Proof.
  revert tot lar. induction l as [|b l IH]; intros tot lar Ht Hl Hs Hp.
  - simpl in *. f_equal; lia.
  - apply Forall_cons in Hp as [Hb Hp].
    assert (0 ≤ sum_sizes ((λ b, default 0 (F !! b)) <$> l))
      by (apply sum_sizes_nonneg; by apply Forall_fmap).
    change (tally_all F (tot, lar) (b :: l)) with (tally_all F (tally_one F (tot, lar) b) l).
    rewrite fmap_cons sum_sizes_cons in Hs. rewrite fmap_cons sum_sizes_cons max_size_cons.
    unfold tally_one. cbn [fst snd].
    rewrite add64_small; [|unfold in64; lia].
    rewrite IH; [|lia|lia|lia|done]. f_equal; lia.
Qed.
Lemma foldl_concat F acc B : foldl (tally_all F) acc B = tally_all F acc (mjoin B).
Proof.
  revert acc. induction B as [|l B IH]; intros acc; [done|]. simpl. rewrite IH.
  unfold tally_all. by rewrite foldl_app.
Qed.
Lemma max_size_bounds l :
  Forall (λ x, 0 < x) l → sum_sizes l = 0 ∨ 0 < max_size l ≤ sum_sizes l.
Proof.
  induction 1 as [|x l Hx Hl IH]; [by left|]. right. rewrite sum_sizes_cons max_size_cons.
  destruct IH as [E|]; [|lia]. destruct l as [|y l].
  - change (max_size []) with 0. lia.
  - apply Forall_cons in Hl as [Hy Hl]. rewrite sum_sizes_cons in E.
    assert (0 ≤ sum_sizes l); [|lia]. apply sum_sizes_nonneg. eapply Forall_impl; [done|]. simpl. lia.
Qed.

Section proofs.
Context `{HOS : !OS, HL : !OSLaws}.
Implicit Types (h : SegmentHeap) (M : gmap Z blk) (B : list (list Z)) (a : Z) (b : blk).

Lemma bins_members M B :
  bins_ok B (free_sizes M) → ∀ i l x, B !! i = Some l → x ∈ l → ∃ sz, free_sizes M !! x = Some sz.
Proof using. intros (_&_&Hin&_) i l x Hl Hx. destruct (Hin i l x Hl Hx) as (sz&?&_). by exists sz. Qed.

(** Every free block owns its whole range. *)
Lemma dls_nodes p head l n : dls p head l n ⊢ [∗ list] x ∈ l, node_raw x.
Proof using.
  revert p head. induction l as [|x l IH]; intros p head; simpl; [by iIntros "_"|].
  iIntros "(-> & Hp & %m & Hn & H)". iDestruct (IH with "H") as "$". iApply node_join. iFrame.
Qed.
Lemma bins_nodes bins B : bins_res bins B ⊢ [∗ list] x ∈ mjoin B, node_raw x.
Proof using.
  unfold bins_res. revert bins. induction B as [|l B IH]; intros [|head bins]; simpl; iIntros "H"; try done.
  iDestruct "H" as "[Hl H]". rewrite big_sepL_app. iDestruct (IH with "H") as "$".
  iApply (dls_nodes with "Hl").
Qed.
Lemma blocks_members M l :
  NoDup l → (∀ x, x ∈ l → is_Some (free_sizes M !! x)) →
  blocks None M ∗ ([∗ list] x ∈ l, node_raw x) ⊢
  [∗ list] x ∈ l, ∃ b, ⌜M !! x = Some b⌝ ∗ blk_res None x b ∗ node_raw x.
Proof using.
  intros Hnd. revert M. induction Hnd as [|x l Hx Hnd IH]; intros M Hl; simpl; [by iIntros "[_ _]"|].
  destruct (Hl x) as [sz Hsz]; [by left|]. unfold free_sizes in Hsz.
  apply lookup_omap_Some in Hsz as (b&_&Hb). rewrite (blocks_delete _ _ _ _ Hb).
  iIntros "[[Hb HM] [Hn Hns]]". iSplitL "Hb Hn"; [iExists b; by iFrame|].
  iDestruct (IH (delete x M) with "[$HM $Hns]") as "H".
  - intros y Hy. specialize (Hl y (list_elem_of_further _ _ _ Hy)). unfold free_sizes in *.
    rewrite lookup_omap lookup_delete_ne; [by rewrite lookup_omap in Hl|]. by intros ->.
  - iApply (big_sepL_impl with "H"). iIntros "!>" (k y Hy) "(%b' & %Hb' & $)".
    by apply lookup_delete_Some in Hb' as [_ ?].
Qed.

Lemma concat_nodup B F : bins_ok B F → NoDup (mjoin B).
Proof using.
  intros (_&Hnd&Hin&_). 
  assert (∀ k, (∀ i l, B !! i = Some l → NoDup l) →
    (∀ i l x, B !! i = Some l → x ∈ l → ∃ sz, F !! x = Some sz ∧ (k + i)%nat = Z.to_nat (binIndex sz)) →
    NoDup (mjoin B)) as Hgen; [|by apply (Hgen O)].
  clear Hnd Hin. induction B as [|l B IH]; intros k Hnd Hin; simpl; [constructor|].
  apply NoDup_app. split_and!; [by apply (Hnd O)| |].
  - intros x Hx (l'&Hxl'&Hl')%list_elem_of_join. apply list_elem_of_lookup in Hl' as [i Hi].
    destruct (Hin O l x eq_refl Hx) as (sz&Hsz&E). destruct (Hin (S i) l' x Hi Hxl') as (sz'&Hsz'&E').
    simplify_eq. lia.
  - apply (IH (S k)); [intros i; apply (Hnd (S i))|]. intros i l' b Hl Hb.
    destruct (Hin (S i) l' b Hl Hb) as (sz&?&E). exists sz. split; [done|lia].
Qed.

(** The free blocks are disjoint, so their sizes add up to less than 2^64. *)
Lemma free_bound G M B bins :
  heap_ok G M → bins_ok B (free_sizes M) →
  blocks None M ∗ bins_res bins B ⊢ ⌜sum_sizes (sizes_in (free_sizes M) B) < W64⌝.
Proof using.
  intros HM HB. rewrite bins_nodes blocks_members.
  - iIntros "H".
    iAssert ([∗ list] p ∈ ((λ x, (x, default 0 (free_sizes M !! x))) <$> mjoin B), raw p.1 p.2)%I
      with "[H]" as "H".
    { rewrite big_sepL_fmap. iApply (big_sepL_impl with "H"). iIntros "!>" (k x Hx) "(%b & %Hb & (Ht & Hp & Hr) & Hn)".
      simpl. destruct (heap_block_ok _ _ _ _ HM Hb) as (?&?&?&_).
      assert (x ∈ mjoin B) as (l&Hxl&Hl)%list_elem_of_join by (by eapply list_elem_of_lookup_2).
      apply list_elem_of_lookup in Hl as [i Hl].
      destruct (bins_members _ _ HB i l x Hl Hxl) as [sz Hsz]. rewrite Hsz. simpl.
      unfold free_sizes in Hsz. rewrite lookup_omap Hb /= in Hsz. destruct (bfree b); [|done]. simplify_eq.
      iDestruct (payload_split x b with "[$Hn $Hr]") as "Hpay"; [done|].
      iDestruct (blk_head_raw with "[$Ht $Hp]") as "Hh".
      iApply (raw_take x 16 (bsize b)); [lia|]. iFrame. }
    iDestruct (ranges_bound with "H") as %[_ Hb]. iPureIntro. eapply Z.le_lt_trans; [|exact Hb].
    unfold sizes_in. clear. induction (mjoin B) as [|x l IH]; [done|].
    rewrite !fmap_cons sum_sizes_cons. change (total_size (?p :: ?l)) with (p.2 + total_size l).
    cbn [total_size foldr snd]. fold (total_size ((λ x, (x, default 0 (free_sizes M !! x))) <$> l)). lia.
  - by eapply concat_nodup.
  - intros x (l&Hxl&Hl)%list_elem_of_join. apply list_elem_of_lookup in Hl as [i Hl].
    destruct (bins_members _ _ HB i l x Hl Hxl) as [sz Hsz]. by exists sz.
Qed.

Lemma wp_payloadCapacity h U a cap Q :
  U !! a = Some cap → seg_inv h U ∗ (seg_inv h U -∗ Q cap) ⊢ wp (payloadCapacity (payloadOf a)) Q.
Proof.
  intros Ha. iIntros "[(%M & %B & [%Hst <-] & HM & HB) HQ]".
  destruct (used_caps_Some _ _ _ Ha) as (b&Hb&Hu&->).
  assert (blockOf (payloadOf a) = a) as Hblk by (unfold blockOf, payloadOf; lia).
  destruct (heap_block_ok _ _ _ _ (proj1 (proj2 Hst)) Hb) as (_&?&_&_).
  destruct (heap_block_end _ _ _ _ _ Hst Hb) as [??].
  unfold payloadCapacity. rewrite Hblk. iApply wp_bind. iApply wp_blk_size; [done|]. iFrame "HM".
  iIntros "HM". iApply wp_ret. unfold kBlockHeaderSize in *. rewrite sub64_small; [|unfold in64; lia].
  iApply "HQ". iExists M, B. by iFrame.
Qed.

(** The ratio, in terms of the sizes of the free blocks. *)
Lemma wp_externalFragmentation h U Φ :
  seg_inv h U ∗ (∀ l, ⌜Forall (λ sz, kMinBlockSize ≤ sz) l⌝ -∗ seg_inv h U -∗ Φ (fragmentation l)) ⊢
  wp (externalFragmentation h) Φ.
Proof.
  iIntros "[(%M & %B & [%Hst <-] & HM & HB) HQ]". pose proof Hst as (_&HM&_&HBok).
  iDestruct (free_bound with "[$HM $HB]") as %Hsum; [done|done|].
  iApply wp_bind.
  iApply (wp_tally_bins (free_sizes M) (blocks None M)); [intros; by apply blocks_free_tag| |].
  { intros. by eapply bins_members. }
  iFrame "HB HM". iIntros "HB HM".
  assert (Forall (λ sz, kMinBlockSize ≤ sz) (sizes_in (free_sizes M) B)) as Hall.
  { apply Forall_fmap, Forall_forall. intros x (l&Hxl&Hl)%list_elem_of_join.
    apply list_elem_of_lookup in Hl as [i Hl].
    destruct (bins_members _ _ HBok i l x Hl Hxl) as [sz Hsz]. unfold compose. simpl. rewrite Hsz. simpl.
    unfold free_sizes in Hsz. apply lookup_omap_Some in Hsz as (b&Hf&Hb).
    destruct (bfree b); [|done]. simplify_eq. apply (heap_block_ok _ _ _ _ HM Hb). }
  iDestruct ("HQ" $! _ Hall with "[HM HB]") as "HQ"; [iExists M, B; by iFrame|].
  rewrite foldl_concat foldl_tally; [| | |exact Hsum|]; [|done|done|].
  - iApply wp_ret. unfold fragmentation. fold (sizes_in (free_sizes M) B). rewrite Z.add_0_l Z.max_r; [done|].
    clear. induction (sizes_in (free_sizes M) B); [done|]. rewrite max_size_cons. lia.
  - apply (proj1 (Forall_fmap _ _ _)) in Hall. eapply Forall_impl; [exact Hall|].
    intros x. unfold compose, kMinBlockSize. simpl. lia.
Qed.
End proofs.

Lemma fragmentation_range l :
  Forall (λ sz, kMinBlockSize ≤ sz) l → (0 <= fragmentation l < 1)%Q.
Proof.
  intros Hl. unfold fragmentation. destruct (Z.eqb_spec (sum_sizes l) 0) as [|Hne]; [by split|].
  destruct (max_size_bounds l) as [?|Hb]; [|done|].
  { eapply Forall_impl; [done|]. unfold kMinBlockSize. simpl. lia. }
  assert (0 < inject_Z (max_size l) / inject_Z (sum_sizes l) <= 1)%Q as [H0 H1].
  { split.
    - apply Qlt_shift_div_l; [|rewrite Qmult_0_l]; change 0%Q with (inject_Z 0); rewrite -Zlt_Qlt; lia.
    - apply Qle_shift_div_r; [|rewrite Qmult_1_l; rewrite -Zle_Qle; lia].
      change 0%Q with (inject_Z 0); rewrite -Zlt_Qlt; lia. }
  split.
  - by rewrite -Qle_minus_iff.
  - apply Qlt_minus_iff. by ring_simplify.
Qed.
