(* ===== verification/Config.v ===== *)
(** src/include/MAlloc/Error.hpp, Config.hpp and Version.hpp: the error codes, the
    configuration of an allocator, and the library's version. *)

From Stdlib Require Import Strings.String.
From S2P Require Import Prelude.

(** ** Errors *)
Inductive Error :=
  | OutOfMemory | SizeOverflow | InvalidAlignment | InvalidPointer | DoubleFree | HeapCorruption.
#[global] Instance Error_eq_dec : EqDecision Error.
Proof. solve_decision. Defined.

Definition error_code (e : Error) : Z :=
  match e with
  | OutOfMemory => 0 | SizeOverflow => 1 | InvalidAlignment => 2
  | InvalidPointer => 3 | DoubleFree => 4 | HeapCorruption => 5
  end.
(** [toString] switches over the stored code, so a code that names no enumerator
    falls through to the last line. *)
Definition toString (code : Z) : string :=
  if code =? error_code OutOfMemory then "out of memory"
  else if code =? error_code SizeOverflow then "size overflow"
  else if code =? error_code InvalidAlignment then "invalid alignment"
  else if code =? error_code InvalidPointer then "invalid pointer"
  else if code =? error_code DoubleFree then "double free"
  else if code =? error_code HeapCorruption then "heap corruption"
  else "unknown error".

(** [std::expected<A, Error>]. *)
Definition expected (A : Type) : Type := A + Error.

(** ** Configuration
    [errorHandler] says whether a handler is installed; the handler itself is the
    client's code, and the calls it receives are recorded (see [AllocatorImpl]). *)
Record AllocatorConfig := MkConfig {
  enableGuardBytes : bool;
  enablePoisoning : bool;
  enableLeakTracking : bool;
  enableDoubleFreeDetection : bool;
  enableThreadCache : bool;
  abortOnError : bool;
  errorHandler : bool
}.
Definition AllocatorConfig_default : AllocatorConfig :=
  MkConfig false false false true true false false.
Definition release : AllocatorConfig := AllocatorConfig_default.
Definition debug : AllocatorConfig := MkConfig true true true true false false false.

(** ** Version *)
Definition kVersionMajor : Z := 0.
Definition kVersionMinor : Z := 1.
Definition kVersionPatch : Z := 0.
Definition versionString : string := "0.1.0".

(** [toString] tells the errors apart. *)
Lemma toString_inj e1 e2 : toString (error_code e1) = toString (error_code e2) → e1 = e2.
Proof. by destruct e1, e2. Qed.
