(* ===== verification/DebugLayer.v ===== *)
(** src/src/DebugLayer.hpp: guard bytes, poisoning, and the tables of live and
    freed pointers.  The tables are guarded by a mutex held for the whole of each
    operation, so every table operation is one atomic action. *)

From stdpp Require Import gmap.
From iris.proofmode Require Import proofmode.
From S2P Require Import Prelude.
From S2P Require Import HeapProp.
From S2P Require Import Memory.
From S2P Require Import Logic.
From S2P Require Import BlockHeader.
From S2P Require Import Prog.

Definition kFrontGuardSize : Z := 32.
Definition kRearGuardSize : Z := 32.
Definition kGuardPattern : byte := Byte.xfb.
Definition kAllocPoison : byte := Byte.xcd.
Definition kFreePoison : byte := Byte.xdd.

Definition guardedSize (requested : Z) : Z := requested +₆₄ kFrontGuardSize +₆₄ kRearGuardSize.

(** [std::unordered_map<const void*, std::size_t> live_] and
    [std::unordered_set<const void*> freed_].  [throws_] tells for which keys the
    containers fail to allocate a new node, that is, throw [std::bad_alloc]; the
    operations swallow the exception. *)
Record DebugLayer := MkDebug { live_ : gmap Z Z; freed_ : gset Z; throws_ : Z → bool }.
Definition DebugLayer_init (throws : Z → bool) : DebugLayer := MkDebug ∅ ∅ throws.

(** [live_.insert_or_assign(user, size); freed_.erase(user);] in its [try] block, and
    [freed_.insert(user)] in the other. *)
Definition track_tables (user size : Z) (d : DebugLayer) : DebugLayer :=
  if throws_ d user && bool_decide (live_ d !! user = None) then d
  else MkDebug (<[user := size]> (live_ d)) (freed_ d ∖ {[ user ]}) (throws_ d).
Definition freed_insert (user : Z) (d : DebugLayer) : gset Z :=
  if throws_ d user then freed_ d else {[ user ]} ∪ freed_ d.

Section DebugLayer.
Context `{HOS : !OS}.

Definition applyGuards (raw requested : Z) : cmd Z :=
  let base := raw in
  let user := base + kFrontGuardSize in
  _ ← memset base kGuardPattern (kFrontGuardSize - kHeaderSize);
  _ ← memset (user + requested) kGuardPattern kRearGuardSize;
  let shim := headerOf user in
  _ ← store_payloadSize shim requested;
  _ ← store_tier shim (tier_code DebugShim);
  _ ← store_state shim kStateAllocated;
  _ ← store_offset shim (kFrontGuardSize mod 2 ^ 32);
  mret user.

(** The two loops of [verifyGuards]: [n] bytes from [a] on, stopping at the first
    one that is not the pattern. *)
Fixpoint all_guard (a : Z) (n : nat) : cmd bool :=
  match n with
  | O => mret true
  | S n =>
      b ← load_byte a;
      if bool_decide (b = kGuardPattern) then all_guard (a + 1) n else mret false
  end.
Definition verifyGuards (user requested : Z) : cmd bool :=
  let front := user - kFrontGuardSize in
  ok ← all_guard front (Z.to_nat (kFrontGuardSize - kHeaderSize));
  if negb ok then mret false else
  let rear := user + requested in
  all_guard rear (Z.to_nat kRearGuardSize).

Definition poisonOnAllocate (ptr size : Z) : cmd () := memset ptr kAllocPoison size.
Definition poisonOnFree (ptr size : Z) : cmd () := memset ptr kFreePoison size.

Definition track (user size : Z) : prog DebugLayer () :=
  modify (track_tables user size).
Definition untrack (user : Z) : prog DebugLayer bool :=
  act (λ d,
    if bool_decide (is_Some (live_ d !! user))
    then mret (true, MkDebug (delete user (live_ d)) (freed_insert user d) (throws_ d))
    else mret (false, d)).
Definition isTracked (user : Z) : prog DebugLayer bool :=
  gets (λ d, bool_decide (is_Some (live_ d !! user))).
Definition wasFreed (user : Z) : prog DebugLayer bool := gets (λ d, bool_decide (user ∈ freed_ d)).
Definition liveCount : prog DebugLayer Z := gets (λ d, Z.of_nat (size (live_ d))).
End DebugLayer.

(** ** Guards: specifications *)
Section proofs.
Context `{HOS : !OS, HL : !OSLaws}.

Definition front_guard : list byte := replicate (Z.to_nat (kFrontGuardSize - kHeaderSize)) kGuardPattern.
Definition rear_guard : list byte := replicate (Z.to_nat kRearGuardSize) kGuardPattern.
(** The guard bytes around [n] user bytes at [u]: sixteen in front of the shim's
    header and thirty-two behind. *)
Definition guards (u n : Z) (front rear : list byte) : heapPropI :=
  ⌜length front = 16%nat ∧ length rear = 32%nat⌝ ∗ (u - 32)%Z ↦∗ front ∗ (u + n)%Z ↦∗ rear.

Lemma wp_applyGuards raw0 n Q :
  raw0 mod 16 = 0 → 0 ≤ n → in64 n →
  raw raw0 (n + 64) ∗
  (∀ u, ⌜u = (raw0 + 32)%Z⌝ -∗ guards u n front_guard rear_guard -∗
     header_at (u - 16) n (tier_code DebugShim) kStateAllocated 32 -∗ raw u n -∗ Q u) ⊢
  wp (applyGuards raw0 n) Q.
Proof.
  intros Hm Hn Hin. iIntros "[H HQ]".
  rewrite (raw_take raw0 16 (n + 64)); [|lia]. iDestruct "H" as "[H1 H]".
  rewrite (raw_take (raw0 + 16) 16 (n + 64 - 16)); [|lia]. iDestruct "H" as "[Hh H]".
  rewrite (raw_take (raw0 + 16 + 16) n (n + 64 - 16 - 16)); [|lia]. iDestruct "H" as "[Hu Hr]".
  replace (raw0 + 16 + 16) with (raw0 + 32) by lia.
  replace (n + 64 - 16 - 16 - n) with 32 by lia.
  unfold applyGuards, kFrontGuardSize, kRearGuardSize, kHeaderSize.
  iApply wp_bind. iApply wp_memset_raw. iFrame "H1". iIntros "H1".
  iApply wp_bind. iApply wp_memset_raw. iFrame "Hr". iIntros "Hr".
  unfold headerOf, kHeaderSize. replace (raw0 + 32 - 16) with (raw0 + 16) by lia.
  iDestruct (raw_header with "Hh") as (sz t s o) "Hh"; [align_lia|].
  iApply wp_bind. iApply wp_store_payloadSize; [done|]. iFrame "Hh". iIntros "Hh".
  iApply wp_bind. iApply wp_store_tier; [done|]. iFrame "Hh". iIntros "Hh".
  iApply wp_bind. iApply wp_store_state; [done|]. iFrame "Hh". iIntros "Hh".
  iApply wp_bind. iApply wp_store_offset; [done|]. iFrame "Hh". iIntros "Hh".
  iApply wp_ret. iApply ("HQ" with "[//] [H1 Hr] [Hh] Hu").
  - iSplit; [done|]. replace (raw0 + 32 - 32) with raw0 by lia. iFrame.
  - by replace (raw0 + 32 - 16) with (raw0 + 16) by lia.
Qed.

Lemma wp_all_guard a n bs Q :
  length bs = n →
  a ↦∗ bs ∗ (a ↦∗ bs -∗ Q (bool_decide (bs = replicate n kGuardPattern))) ⊢ wp (all_guard a n) Q.
Proof.
  revert a bs Q. induction n as [|n IH]; intros a [|b bs] Q Hlen; try done; simpl.
  - iIntros "[H HQ]". iApply wp_ret. by iApply "HQ".
  - rewrite bytes_at_cons. iIntros "[[Hb H] HQ]". iApply wp_bind. iApply wp_load_byte. iFrame "Hb".
    iIntros "Hb". destruct (decide (b = kGuardPattern)) as [Hp|Hp].
    + rewrite (bool_decide_eq_true_2 (b = _)) //. iApply (IH _ bs); [simpl in Hlen; lia|]. iFrame "H". iIntros "H".
      iDestruct ("HQ" with "[$Hb $H]") as "HQ".
      rewrite (bool_decide_ext (b :: bs = _) (bs = replicate n kGuardPattern)); [done|].
      split; [by intros [= _ ?]|by intros ->; subst b].
    + rewrite (bool_decide_eq_false_2 (b = _)) //. iApply wp_ret.
      iDestruct ("HQ" with "[$Hb $H]") as "HQ".
      rewrite bool_decide_eq_false_2; [done|]. by intros [= -> _].
Qed.

(** [verifyGuards] accepts exactly the untouched guards. *)
Lemma wp_verifyGuards u n front rear Q :
  guards u n front rear ∗
  (guards u n front rear -∗ Q (bool_decide (front = front_guard ∧ rear = rear_guard))) ⊢
  wp (verifyGuards u n) Q.
Proof.
  iIntros "[([%Hf %Hr] & H1 & H2) HQ]". iApply wp_bind. iApply (wp_all_guard _ _ front); [done|].
  iFrame "H1". iIntros "H1". fold front_guard.
  destruct (decide (front = front_guard)) as [Hb|Hb].
  - rewrite (bool_decide_eq_true_2 (front = _)) //. cbn [negb]. iApply (wp_all_guard _ _ rear); [done|]. iFrame "H2". iIntros "H2".
    iDestruct ("HQ" with "[$H1 $H2 //]") as "HQ". fold rear_guard.
    erewrite bool_decide_ext; [done|]. naive_solver.
  - rewrite (bool_decide_eq_false_2 (front = _)) //. cbn [negb]. iApply wp_ret.
    iDestruct ("HQ" with "[$H1 $H2 //]") as "HQ".
    rewrite bool_decide_eq_false_2; [done|]. naive_solver.
Qed.
Lemma guards_raw u n front rear : guards u n front rear ⊢ raw (u - 32) 16 ∗ raw (u + n) 32.
Proof.
  iIntros "([%Hf %Hr] & H1 & H2)". rewrite !raw_intro Hf Hr. iFrame.
Qed.
End proofs.
