(* ===== verification/Tiers.v ===== *)
(** The interface between the allocator and the two tiers that hand out payloads
    by address: the segment heap (medium requests) and the large allocator.  The
    allocator's proofs use the interface; the instances are proved here. *)

From iris.proofmode Require Import proofmode.
From S2P Require Import Prelude.
From S2P Require Import HeapProp.
From S2P Require Import Memory.
From S2P Require Import Logic.
From S2P Require Import BlockHeader.
From S2P Require Import SystemMemory.
From S2P Require Import Prog.
From S2P Require Import LargeAllocator.
From S2P Require Import SegmentHeap.
From S2P Require Import SegmentProofs.
From S2P Require Import SegmentAlloc.
From S2P Require Import SegmentFree.
From S2P Require Import SegmentStats.

(** An action without a result, and one that leaves the state alone. *)
Definition act_ {S} (f : S → cmd S) : prog S () := act (λ s, s' ← f s; mret ((), s')).
Definition query {S X} (f : S → cmd X) : prog S X := act (λ s, x ← f s; mret (x, s)).

(** [pt_inv s C]: [C] gives the capacity of every payload in the clients' hands.
    [pt_known] is what [pt_release] answers for a payload it knows; for [R] in its law
    see [SegmentFree.wp_deallocate]. *)
Class PayloadTier `{!OS} (S : Type) := {
  pt_allocate : Z → prog S Z;
  pt_capacity : Z → prog S Z;
  pt_answer : Type;
  pt_known : pt_answer;
  pt_release : Z → prog S pt_answer;
  pt_limit : Z;
  pt_inv : S → gmap Z Z → heapPropI;
  pt_allocate_spec s C bytes Φ :
    0 < bytes ≤ pt_limit →
    pt_inv s C ∗
    (∀ p s', ((⌜p = 0 ∧ os_refused⌝ ∗ pt_inv s' C) ∨
              ∃ cap, ⌜C !! p = None ∧ 0 < p ∧ p mod 16 = 0 ∧ bytes ≤ cap⌝ ∗
                pt_inv s' (<[p := cap]> C) ∗ raw p cap) -∗ Φ p s') ⊢
    wpp (pt_allocate bytes) s Φ;
  pt_capacity_spec s C p cap Φ :
    C !! p = Some cap → pt_inv s C ∗ (pt_inv s C -∗ Φ cap s) ⊢ wpp (pt_capacity p) s Φ;
  pt_release_spec s C p cap R Φ :
    C !! p = Some cap → (R ⊢ raw p 16) → 16 ≤ cap →
    pt_inv s C ∗ R ∗ raw (p + 16) (cap - 16) ∗
    (∀ s', ((R ∗ (raw p 16 -∗ pt_inv s' (delete p C))) ∨ pt_inv s' (delete p C)) -∗ Φ pt_known s') ⊢
    wpp (pt_release p) s Φ
}.

Section instances.
Context `{HOS : !OS, HL : !OSLaws}.

Lemma wpp_query {S X} (f : S → cmd X) s Φ : wp (f s) (λ x, Φ x s) ⊢ wpp (query f) s Φ.
Proof.
  iIntros "H". iApply wpp_act1. iApply wp_bind. iApply (wp_wand with "H"). iIntros (x) "H".
  by iApply wp_ret.
Qed.
Lemma wpp_act_ {S} (f : S → cmd S) s Φ : wp (f s) (λ s', Φ () s') ⊢ wpp (act_ f) s Φ.
Proof.
  iIntros "H". iApply wpp_act1. iApply wp_bind. iApply (wp_wand with "H"). iIntros (x) "H".
  by iApply wp_ret.
Qed.

(** The segment heap's invariant is keyed by block; a payload is 16 bytes further. *)
#[local] Instance payloadOf_inj : Inj (=) (=) payloadOf.
Proof. intros x y. unfold payloadOf. lia. Qed.
#[local] Instance blockOf_inj : Inj (=) (=) blockOf.
Proof. intros x y. unfold blockOf. lia. Qed.
Lemma payload_block p : payloadOf (blockOf p) = p.
Proof. unfold payloadOf, blockOf. lia. Qed.
Lemma block_payload a : blockOf (payloadOf a) = a.
Proof. unfold payloadOf, blockOf. lia. Qed.

#[export] Program Instance medium_tier : PayloadTier SegmentHeap := {|
  pt_allocate bytes := act (λ h, SegmentHeap.allocate h bytes);
  pt_capacity p := query (λ _, SegmentHeap.payloadCapacity p);
  pt_answer := ();
  pt_known := ();
  pt_release p := act_ (λ h, SegmentHeap.deallocate h p);
  pt_limit := kSegmentSize - 48;
  pt_inv h C := seg_inv h (kmap blockOf C)
|}.
Next Obligation.
  intros h C bytes Φ Hb. iIntros "[H HΦ]". iApply wpp_act1.
  destruct (total_of_bounds bytes) as (?&?&?&Ht); [lia|unfold kSegmentSize in *; rewrite W64_eq; lia|].
  iApply wp_allocate; [lia|unfold kSegmentSize in *; rewrite W64_eq; lia|]. iFrame "H".
  iIntros (p h') "H". cbn [fst snd]. iApply "HΦ". iDestruct "H" as "[[[-> %Hr] H]|H]".
  - iLeft. iFrame "H". iPureIntro. split; [done|]. destruct Hr as [Hr|]; [|done].
    unfold kSegmentSize in *. lia.
  - iRight. iDestruct "H" as (a cap (->&HU&?&?&?)) "[H Hp]". iExists cap. iFrame "Hp". iSplit.
    + iPureIntro. rewrite -(lookup_kmap blockOf) block_payload.
      unfold payloadOf, kBlockHeaderSize in *. split_and!; [done|lia|align_lia|lia].
    + by rewrite kmap_insert block_payload.
Qed.
Next Obligation.
  intros h C p cap Φ Hp. iIntros "[H HΦ]". iApply wpp_query.
  iEval (rewrite -(payload_block p)). iApply (wp_payloadCapacity h (kmap blockOf C) (blockOf p) cap);
    [by rewrite lookup_kmap|]. iFrame.
Qed.
Next Obligation.
  intros h C p cap R Φ Hp HR Hcap. iIntros "(H & HR & Hr & HΦ)". iApply wpp_act_.
  iEval (rewrite -(payload_block p)).
  iApply (wp_deallocate h (kmap blockOf C) (blockOf p) cap R); [by rewrite lookup_kmap|by rewrite payload_block|].
  rewrite payload_block. iFrame "H HR Hr". iIntros (h') "H". iApply "HΦ".
  rewrite /kept_or_released kmap_delete. iDestruct "H" as "[H|H]"; [by iLeft|by iRight].
Qed.

#[export] Program Instance large_tier : PayloadTier LargeAllocator := {|
  pt_allocate := LargeAllocator.allocate;
  pt_capacity := LargeAllocator.payloadCapacity;
  pt_answer := bool;
  pt_known := true;
  pt_release := LargeAllocator.deallocate;
  pt_limit := 2 ^ 48;
  pt_inv l C := large_inv l ∗ ⌜C = (λ r, region_size r - 16) <$> regions_ l⌝
|}%I.
Next Obligation.
  intros l C bytes Φ Hb. iIntros "[[H ->] HΦ]". pose proof os_page_bounds as [? _].
  iApply wpp_large_allocate; [lia|rewrite W64_eq; lia|]. iFrame "H". iIntros (p l') "H Hp".
  iApply "HΦ". iDestruct "Hp" as "[(-> & -> & %)|Hp]"; [iLeft; by iFrame|]. iRight.
  iDestruct "Hp" as (r (?&?&Hn&->&(?&?&?&?&?)&->&?)) "Hp". iExists (region_size r - 16). iFrame "Hp H".
  iPureIntro. unfold region_data, region_size in *. split_and!; [by rewrite lookup_fmap Hn|lia|done|lia|].
  by rewrite fmap_insert.
Qed.
Next Obligation.
  intros l C p cap Φ Hp. iIntros "[[H ->] HΦ]". rewrite lookup_fmap in Hp.
  apply fmap_Some in Hp as (r&Hr&->). iApply wpp_large_payloadCapacity; [done|]. iFrame "H". iIntros "H".
  iApply "HΦ". by iFrame.
Qed.
Next Obligation.
  intros l C p cap R Φ Hp HR Hcap. iIntros "([H ->] & HR & Hr & HΦ)". rewrite lookup_fmap in Hp.
  apply fmap_Some in Hp as (r&Hr&->). iApply wpp_large_deallocate; [done|]. iFrame "H".
  iSplitL "HR Hr".
  - rewrite HR. iApply (raw_take p 16); [lia|]. iFrame.
  - iIntros "H". iApply "HΦ". iRight. iFrame "H". iPureIntro. by rewrite fmap_delete.
Qed.
End instances.
