(* ===== verification/AllocatorImpl.v ===== *)
(** src/src/AllocatorImpl.hpp, AllocatorImpl.cpp and CentralState.hpp: the tier
    dispatch, the validation of pointers, and the operations of the allocator.

    Every operation is a [prog] over the whole state: each critical section,
    each atomic counter access, each use of the thread's own memory is one action,
    in the order of the code. *)

From stdpp Require Import gmap.
From iris.proofmode Require Import proofmode.
From Stdlib Require Import QArith.QArith.
From S2P Require Import Prelude.
From S2P Require Import Memory.
From S2P Require Import BlockHeader.
From S2P Require Import SizeClassTable.
From S2P Require Import Prog.
From S2P Require Import PoolAllocator.
From S2P Require Import ThreadCache.
From S2P Require Import LargeAllocator.
From S2P Require Import StatisticsCollector.
From S2P Require Import SegmentHeap.
From S2P Require Import Config.
From S2P Require Import DebugLayer.
From S2P Require Import Tiers.

Open Scope Z_scope.

(** ** State *)

(** [struct CentralState]; [config] never changes after construction. *)
Record CentralState := MkCentral {
  config : AllocatorConfig;
  stats : StatisticsCollector;
  pools : PoolAllocator;
  segments : SegmentHeap;
  large : LargeAllocator
}.
Definition CentralState_init (cfg : AllocatorConfig) : CentralState :=
  MkCentral cfg StatisticsCollector_init PoolAllocator_init SegmentHeap_init LargeAllocator_init.

(** A diagnostic of [report]: the error, the pointer, and whether the configured
    handler received it (else it was printed). *)
Record Report := MkReport { r_error : Error; r_ptr : Z; r_handled : bool }.

(** The allocator and what its operations touch besides memory: [self_] is the
    identity of [central_] (the key and the [weak_ptr] target of the thread caches),
    [tlsCaches] the slot each thread has for it, [tls_throws] whether creating a
    thread's slot throws [std::bad_alloc], and [reports] the diagnostics so far,
    the latest first. *)
Record AllocatorImpl := MkImpl {
  central_ : CentralState;
  debug_ : DebugLayer;
  self_ : Z;
  tlsCaches : gmap Z ThreadCache;
  tls_throws : Z → bool;
  reports : list Report
}.
Definition AllocatorImpl_init (cfg : AllocatorConfig) (self : Z) (tls : gmap Z ThreadCache)
    (throws dbg_throws : Z → bool) : AllocatorImpl :=
  MkImpl (CentralState_init cfg) (DebugLayer_init dbg_throws) self tls throws [].

Definition cfg_of (w : AllocatorImpl) : AllocatorConfig := config (central_ w).
Definition get_stats (w : AllocatorImpl) : StatisticsCollector := stats (central_ w).
Definition get_pools (w : AllocatorImpl) : PoolAllocator := pools (central_ w).
Definition get_segments (w : AllocatorImpl) : SegmentHeap := segments (central_ w).
Definition get_large (w : AllocatorImpl) : LargeAllocator := large (central_ w).
Definition set_central (w : AllocatorImpl) (c : CentralState) : AllocatorImpl :=
  MkImpl c (debug_ w) (self_ w) (tlsCaches w) (tls_throws w) (reports w).
Definition set_stats (w : AllocatorImpl) (s : StatisticsCollector) : AllocatorImpl :=
  let c := central_ w in set_central w (MkCentral (config c) s (pools c) (segments c) (large c)).
Definition set_pools (w : AllocatorImpl) (p : PoolAllocator) : AllocatorImpl :=
  let c := central_ w in set_central w (MkCentral (config c) (stats c) p (segments c) (large c)).
Definition set_segments (w : AllocatorImpl) (h : SegmentHeap) : AllocatorImpl :=
  let c := central_ w in set_central w (MkCentral (config c) (stats c) (pools c) h (large c)).
Definition set_large (w : AllocatorImpl) (l : LargeAllocator) : AllocatorImpl :=
  let c := central_ w in set_central w (MkCentral (config c) (stats c) (pools c) (segments c) l).
Definition set_debug (w : AllocatorImpl) (d : DebugLayer) : AllocatorImpl :=
  MkImpl (central_ w) d (self_ w) (tlsCaches w) (tls_throws w) (reports w).
Definition set_tls (w : AllocatorImpl) (t : gmap Z ThreadCache) : AllocatorImpl :=
  MkImpl (central_ w) (debug_ w) (self_ w) t (tls_throws w) (reports w).
Definition set_reports (w : AllocatorImpl) (r : list Report) : AllocatorImpl :=
  MkImpl (central_ w) (debug_ w) (self_ w) (tlsCaches w) (tls_throws w) r.

#[global] Instance lens_stats : Lens get_stats set_stats.
Proof. by split; intros [[]]. Qed.
#[global] Instance lens_pools : Lens get_pools set_pools.
Proof. by split; intros [[]]. Qed.
#[global] Instance lens_segments : Lens get_segments set_segments.
Proof. by split; intros [[]]. Qed.
#[global] Instance lens_large : Lens get_large set_large.
Proof. by split; intros [[]]. Qed.
#[global] Instance lens_debug : Lens debug_ set_debug.
Proof. by split; intros []. Qed.

Definition in_stats {A} (p : prog StatisticsCollector A) : prog AllocatorImpl A := zoom get_stats set_stats p.
Definition in_pools {A} (p : prog PoolAllocator A) : prog AllocatorImpl A := zoom get_pools set_pools p.
Definition in_segments {A} (p : prog SegmentHeap A) : prog AllocatorImpl A := zoom get_segments set_segments p.
Definition in_large {A} (p : prog LargeAllocator A) : prog AllocatorImpl A := zoom get_large set_large p.
Definition in_debug {A} (p : prog DebugLayer A) : prog AllocatorImpl A := zoom debug_ set_debug p.

Definition abort {A} : cmd A := λ _, Aborted.

Definition kMaxRequest : Z := Z.shiftl 1 46.
Definition kMaxAlignment : Z := Z.shiftl 1 30.

Record RawAllocation := MkRaw { user : Z; reserved : Z }.

Section AllocatorImpl.
Context `{HOS : !OS}.

(** ** report: the handler's call or the printed line is recorded; [abort] ends the program. *)
Definition report (error : Error) (ptr : Z) : prog AllocatorImpl () :=
  act (λ w,
    let w' := set_reports w (MkReport error ptr (errorHandler (cfg_of w)) :: reports w) in
    if abortOnError (cfg_of w) then abort else mret ((), w')).
(** [report(error, ptr); return std::unexpected(error);] *)
Definition fail {A} (error : Error) (ptr : Z) : prog AllocatorImpl (expected A) :=
  _ ← report error ptr; mret (inr error).

(** ** threadCache: whether the calling thread has a cache to use *)
Definition expired (w : AllocatorImpl) (t : ThreadCache) : bool := negb (ThreadCache.central_ t =? self_ w).
Definition threadCache (tid : Z) : prog AllocatorImpl bool :=
  act (λ w,
    if negb (enableThreadCache (cfg_of w)) then mret (false, w) else
    let fresh :=
      if tls_throws w tid then mret (false, w)
      else mret (true, set_tls w (<[tid := ThreadCache_init (self_ w)]> (tlsCaches w))) in
    match tlsCaches w !! tid with
    | Some t => if expired w t then fresh else mret (true, w)
    | None => fresh
    end).
(** [cache->allocateBlock(classIndex, pools)] and [cache->freeBlock(...)] on the slot. *)
Definition cache_allocateBlock (tid c : Z) : prog AllocatorImpl Z :=
  act (λ w,
    t ← expect (tlsCaches w !! tid);
    r ← ThreadCache.allocateBlock t c (get_pools w);
    let '(block, t, p) := (r : Z * ThreadCache * PoolAllocator) in
    mret (block, set_pools (set_tls w (<[tid := t]> (tlsCaches w))) p)).
Definition cache_freeBlock (tid c block : Z) : prog AllocatorImpl () :=
  act (λ w,
    t ← expect (tlsCaches w !! tid);
    r ← ThreadCache.freeBlock t c block (get_pools w);
    let '(t, p) := (r : ThreadCache * PoolAllocator) in
    mret ((), set_pools (set_tls w (<[tid := t]> (tlsCaches w))) p)).
(** A thread exits: its cache is destroyed, and gives its blocks back if the
    allocator is still there. *)
Definition thread_exit (tid : Z) : prog AllocatorImpl () :=
  act (λ w,
    match tlsCaches w !! tid with
    | None => mret ((), w)
    | Some t =>
        r ← ThreadCache.destroy t (if expired w t then None else Some (get_pools w));
        let w := set_tls w (delete tid (tlsCaches w)) in
        mret ((), match (r : ThreadCache * option PoolAllocator).2 with
                  | Some p => set_pools w p
                  | None => w
                  end)
    end).

(** ** rawAllocate *)
Definition write_header (header payloadSize : Z) (tier : Tier) (offset : Z) : cmd () :=
  _ ← store_payloadSize header payloadSize;
  _ ← store_tier header (tier_code tier);
  _ ← store_state header kStateAllocated;
  store_offset header offset.

Definition rawAllocate_small (tid size : Z) : prog AllocatorImpl (expected RawAllocation) :=
  classIdx ← io (expect (classIndex size));
  cache ← threadCache tid;
  block ← (if cache : bool then cache_allocateBlock tid classIdx
           else in_pools (act (λ p, PoolAllocator.allocateBlock p classIdx)));
  if block =? 0 then mret (inr OutOfMemory) else
  let user := userPointerOf block in
  _ ← io (write_header (headerOf user) size Small 0);
  reserved ← io (expect (classSize classIdx));
  mret (inl (MkRaw user reserved)).
Definition rawAllocate_medium (size : Z) : prog AllocatorImpl (expected RawAllocation) :=
  payload ← in_segments (act (λ h, SegmentHeap.allocate h (size +₆₄ kHeaderSize)));
  if payload =? 0 then mret (inr OutOfMemory) else
  let user := userPointerOf payload in
  _ ← io (write_header (headerOf user) size Medium 0);
  capacity ← in_segments (query (λ _, SegmentHeap.payloadCapacity payload));
  mret (inl (MkRaw user (capacity -₆₄ kHeaderSize))).
Definition rawAllocate_large (size : Z) : prog AllocatorImpl (expected RawAllocation) :=
  payload ← in_large (LargeAllocator.allocate (size +₆₄ kHeaderSize));
  if payload =? 0 then mret (inr OutOfMemory) else
  let user := userPointerOf payload in
  _ ← io (write_header (headerOf user) size Large 0);
  capacity ← in_large (LargeAllocator.payloadCapacity payload);
  mret (inl (MkRaw user (capacity -₆₄ kHeaderSize))).
Definition rawAllocate (tid size : Z) : prog AllocatorImpl (expected RawAllocation) :=
  if size <=? kSmallMax then rawAllocate_small tid size
  else if size <=? kMediumMax then rawAllocate_medium size
  else rawAllocate_large size.

(** ** rawDeallocate: the reserved size of the block that was freed *)
Definition rawDeallocate_small (tid raw : Z) : prog AllocatorImpl (expected Z) :=
  let header := headerOf raw in
  payloadSize ← io (load_payloadSize header);
  classIdx ← io (expect (classIndex payloadSize));
  _ ← io (store_state header kStateFreed);
  let block := header in
  cache ← threadCache tid;
  _ ← (if cache : bool then cache_freeBlock tid classIdx block
       else in_pools (act_ (λ p, PoolAllocator.freeBlock p classIdx block)));
  sz ← io (expect (classSize classIdx));
  mret (inl sz).
Definition rawDeallocate_medium (raw : Z) : prog AllocatorImpl (expected Z) :=
  let header := headerOf raw in
  _ ← io (store_state header kStateFreed);
  let payload := header in
  capacity ← in_segments (query (λ _, SegmentHeap.payloadCapacity payload));
  _ ← in_segments (act_ (λ h, SegmentHeap.deallocate h payload));
  mret (inl (capacity -₆₄ kHeaderSize)).
Definition rawDeallocate_large (raw : Z) : prog AllocatorImpl (expected Z) :=
  let payload := headerOf raw in
  capacity ← in_large (LargeAllocator.payloadCapacity payload);
  freed ← in_large (LargeAllocator.deallocate payload);
  if negb freed then mret (inr InvalidPointer) else
  mret (inl (capacity -₆₄ kHeaderSize)).
Definition rawDeallocate (tid raw : Z) : prog AllocatorImpl (expected Z) :=
  tier ← io (load_tier (headerOf raw));
  match tierValue tier with
  | Some Small => rawDeallocate_small tid raw
  | Some Medium => rawDeallocate_medium raw
  | Some Large => rawDeallocate_large raw
  | _ => mret (inr InvalidPointer)
  end.

(** ** allocate *)

(** The end of [allocate] and [alignedAllocate], once the user pointer is known.
    [fuel] bounds the retries of the peak's compare-exchange loop. *)
Definition finish_allocate (fuel : nat) (cfg : AllocatorConfig) (user size reserved : Z) :
    prog AllocatorImpl (expected Z) :=
  _ ← (if enablePoisoning cfg then io (poisonOnAllocate user size) else mret ());
  _ ← in_stats (recordAllocation fuel size reserved);
  _ ← (if enableLeakTracking cfg then in_debug (track user size) else mret ());
  mret (inl user).

Definition allocate (fuel : nat) (tid size : Z) : prog AllocatorImpl (expected Z) :=
  let size := if size =? 0 then 1 else size in
  if kMaxRequest <? size then fail SizeOverflow 0 else
  cfg ← gets cfg_of;
  if enableGuardBytes cfg then
    raw ← rawAllocate tid (guardedSize size);
    match (raw : expected RawAllocation) with
    | inr e => fail e 0
    | inl raw =>
        u ← io (applyGuards (user raw) size);
        finish_allocate fuel cfg u size (reserved raw)
    end
  else
    raw ← rawAllocate tid size;
    match (raw : expected RawAllocation) with
    | inr e => fail e 0
    | inl raw => finish_allocate fuel cfg (user raw) size (reserved raw)
    end.

(** ** deallocate *)

(** The body of the [switch] on the tier, for a block whose header is valid. *)
Definition free_by_tier (tid : Z) (cfg : AllocatorConfig) (ptr requested : Z) (tier : option Tier) :
    prog AllocatorImpl (expected Z) :=
  let header := headerOf ptr in
  match tier with
  | Some DebugShim =>
      ok ← (if enableGuardBytes cfg then io (verifyGuards ptr requested) else mret true);
      _ ← (if negb ok then report HeapCorruption ptr else mret ());
      _ ← (if enablePoisoning cfg then io (poisonOnFree ptr requested) else mret ());
      _ ← io (store_state header kStateFreed);
      offset ← io (load_offset header);
      rawDeallocate tid (ptr - offset)
  | Some AlignedShim =>
      _ ← (if enablePoisoning cfg then io (poisonOnFree ptr requested) else mret ());
      _ ← io (store_state header kStateFreed);
      offset ← io (load_offset header);
      rawDeallocate tid (ptr - offset)
  | _ =>
      _ ← (if enablePoisoning cfg then io (poisonOnFree ptr requested) else mret ());
      rawDeallocate tid ptr
  end.

(** From the header on: the tracking table has accepted the pointer. *)
Definition deallocate_checked (tid : Z) (cfg : AllocatorConfig) (ptr : Z) :
    prog AllocatorImpl (expected ()) :=
  let header := headerOf ptr in
  tier ← io (load_tier header);
  state ← io (load_state header);
  if negb (hasValidTier tier) || (negb (state =? kStateAllocated) && negb (state =? kStateFreed))
  then fail InvalidPointer ptr else
  if state =? kStateFreed then fail DoubleFree ptr else
  requested ← io (load_payloadSize header);
  r ← free_by_tier tid cfg ptr requested (tierValue tier);
  match (r : expected Z) with
  | inr e => fail e ptr
  | inl reserved =>
      _ ← in_stats (recordFree requested reserved);
      _ ← (if enableLeakTracking cfg then _ ← in_debug (untrack ptr); mret () else mret ());
      mret (inl ())
  end.
Definition deallocate (tid ptr : Z) : prog AllocatorImpl (expected ()) :=
  if ptr =? 0 then mret (inl ()) else
  cfg ← gets cfg_of;
  tracked ← (if enableLeakTracking cfg then in_debug (isTracked ptr) else mret true);
  if negb tracked then
    freed ← in_debug (wasFreed ptr);
    fail (if freed : bool then DoubleFree else InvalidPointer) ptr
  else deallocate_checked tid cfg ptr.

(** ** allocationSize, reallocate, alignedAllocate, statistics *)
Definition allocationSize (ptr : Z) : prog AllocatorImpl Z :=
  if ptr =? 0 then mret 0 else
  cfg ← gets cfg_of;
  tracked ← (if enableLeakTracking cfg then in_debug (isTracked ptr) else mret true);
  if negb tracked then mret 0 else
  let header := headerOf ptr in
  tier ← io (load_tier header);
  state ← io (load_state header);
  if negb (hasValidTier tier) || negb (state =? kStateAllocated) then mret 0
  else io (load_payloadSize header).

(** A null result is 0. *)
Definition reallocate (fuel : nat) (tid ptr newSize : Z) : prog AllocatorImpl (expected Z) :=
  if ptr =? 0 then allocate fuel tid newSize else
  if newSize =? 0 then
    freed ← deallocate tid ptr;
    match (freed : expected ()) with inr e => mret (inr e) | inl _ => mret (inl 0) end
  else
    oldSize ← allocationSize ptr;
    if oldSize =? 0 then fail InvalidPointer ptr else
    fresh ← allocate fuel tid newSize;
    match (fresh : expected Z) with
    | inr e => mret (inr e)
    | inl fresh =>
        _ ← io (memcpy fresh ptr (Z.min oldSize newSize));
        freed ← deallocate tid ptr;
        match (freed : expected ()) with inr e => mret (inr e) | inl _ => mret (inl fresh) end
    end.

Definition alignedAllocate (fuel : nat) (tid alignment size : Z) : prog AllocatorImpl (expected Z) :=
  if negb (isPowerOfTwo alignment) || (kMaxAlignment <? alignment) then fail InvalidAlignment 0 else
  if alignment <=? kDefaultAlignment then allocate fuel tid size else
  let size := if size =? 0 then 1 else size in
  if kMaxRequest <? size then fail SizeOverflow 0 else
  raw ← rawAllocate tid (size +₆₄ alignment);
  match (raw : expected RawAllocation) with
  | inr e => fail e 0
  | inl raw =>
      let address := user raw in
      let up := alignUp address alignment in
      let alignedAddress := if up =? address then up +₆₄ alignment else up in
      let shim := headerOf alignedAddress in
      _ ← io (write_header shim size AlignedShim ((alignedAddress -₆₄ address) mod 2 ^ 32));
      cfg ← gets cfg_of;
      finish_allocate fuel cfg alignedAddress size (reserved raw)
  end.

Definition statistics : prog AllocatorImpl StatisticsSnapshot :=
  external ← in_segments (query SegmentHeap.externalFragmentation);
  in_stats (snapshot external).
Definition liveAllocationCount : prog AllocatorImpl Z := in_debug liveCount.

(** [~AllocatorImpl], its body: the number of leaked allocations it prints, if it prints. *)
Definition leak_message (w : AllocatorImpl) : option Z :=
  if enableLeakTracking (cfg_of w) then
    let leaks := Z.of_nat (base.size (live_ (debug_ w))) in
    if 0 <? leaks then Some leaks else None
  else None.

(** Its members' destructors.  [central_] is the only owner of the [CentralState] - the
    thread caches have weak pointers -, whose members go in reverse order. *)
Definition CentralState_destroy (c : CentralState) : cmd () :=
  LargeAllocator_destroy (large c);; SegmentHeap_destroy (segments c);; PoolAllocator_destroy (pools c).
Definition AllocatorImpl_destroy (w : AllocatorImpl) : cmd (option Z) :=
  let printed := leak_message w in
  CentralState_destroy (central_ w);; mret printed.
End AllocatorImpl.
