(* ===== verification/SmallTier.v ===== *)
(** The small tier as the allocator uses it: the shared pools behind the cache of
    the calling thread. *)

From stdpp Require Import gmap.
From iris.proofmode Require Import proofmode.
From S2P Require Import Prelude.
From S2P Require Import HeapProp.
From S2P Require Import Memory.
From S2P Require Import Logic.
From S2P Require Import BlockHeader.
From S2P Require Import SizeClassTable.
From S2P Require Import Prog.
From S2P Require Import PoolAllocator.
From S2P Require Import ThreadCache.
From S2P Require Import Config.
From S2P Require Import Tiers.
From S2P Require Import AllocatorImpl.

(** What an operation of a tier leaves alone. *)
Definition same_rest (w w' : AllocatorImpl) : Prop :=
  cfg_of w' = cfg_of w ∧ get_stats w' = get_stats w ∧ AllocatorImpl.debug_ w' = AllocatorImpl.debug_ w ∧
  self_ w' = self_ w ∧ reports w' = reports w.
Definition same_small (w w' : AllocatorImpl) : Prop :=
  same_rest w w' ∧ get_segments w' = get_segments w ∧ get_large w' = get_large w.
#[global] Instance same_rest_pre : PreOrder same_rest.
Proof.
  split; [by intros w|]. intros w1 w2 w3 (?&?&?&?&?) (?&?&?&?&?). by split_and!; etrans.
Qed.
#[global] Instance same_small_pre : PreOrder same_small.
Proof.
  split; [by intros w|]. intros w1 w2 w3 (?&?&?) (?&?&?). by split_and!; etrans.
Qed.

(** What a thread's use of the small tier leaves alone: the other threads' caches too. *)
Definition small_step (tid : Z) (w w' : AllocatorImpl) : Prop :=
  same_small w w' ∧ ∀ t, t ≠ tid → tlsCaches w' !! t = tlsCaches w !! t.
#[global] Instance small_step_pre tid : PreOrder (small_step tid).
Proof.
  split; [by intros w|]. intros w1 w2 w3 [? H1] [? H2]. split; [by etrans|].
  intros t Ht. by rewrite H2 // H1.
Qed.

(** The caches of the threads that have one for this allocator; a slot left over
    from another allocator at the same address owns nothing here. *)
Definition tls_inv (self : Z) (tls : gmap Z ThreadCache) : heapPropI :=
  [∗ map] t ∈ tls, if ThreadCache.central_ t =? self then cache_inv t else emp.
Definition small_inv (w : AllocatorImpl) : heapPropI :=
  (∃ A, pools_inv (get_pools w) A) ∗ tls_inv (self_ w) (tlsCaches w).
Definition has_cache (tid : Z) (w : AllocatorImpl) : Prop :=
  ∃ t, tlsCaches w !! tid = Some t ∧ ThreadCache.central_ t = self_ w.

Section proofs.
Context `{HOS : !OS, HL : !OSLaws}.
Implicit Types w : AllocatorImpl.

Lemma wpp_threadCache tid w Φ :
  small_inv w ∗
  (∀ ok w', ⌜small_step tid w w' ∧ (ok = true → has_cache tid w')⌝ -∗ small_inv w' -∗ Φ ok w') ⊢
  wpp (threadCache tid) w Φ.
Proof.
  iIntros "[[Hp Ht] HΦ]". iApply wpp_act1. destruct (enableThreadCache (cfg_of w)); cbn [negb].
  2: { iApply wp_ret. iApply ("HΦ" $! false w); [done|]. iFrame. }
  set (fresh := if tls_throws w tid then mret (false, w)
    else mret (true, set_tls w (<[tid := ThreadCache_init (self_ w)]> (tlsCaches w))) : cmd (bool * AllocatorImpl)).
  iAssert (tls_inv (self_ w) (delete tid (tlsCaches w)) -∗
           tls_inv (self_ w) (<[tid := ThreadCache_init (self_ w)]> (tlsCaches w)))%I as "Hnew".
  { iIntros "Ht". unfold tls_inv. rewrite -insert_delete_eq big_sepM_insert; [|by rewrite lookup_delete_eq].
    iFrame "Ht". cbn [ThreadCache.central_ ThreadCache_init]. rewrite Z.eqb_refl. iApply cache_inv_init. }
  iAssert (tls_inv (self_ w) (tlsCaches w) -∗ tls_inv (self_ w) (delete tid (tlsCaches w)))%I as "Hdel".
  { iIntros "Ht". iApply (big_sepM_subseteq with "Ht"). apply delete_subseteq. }
  iAssert ((∃ A, pools_inv (get_pools w) A) -∗ tls_inv (self_ w) (tlsCaches w) -∗
    (∀ ok w', ⌜small_step tid w w' ∧ (ok = true → has_cache tid w')⌝ -∗ small_inv w' -∗ Φ ok w') -∗
    wp fresh (λ r, Φ r.1 r.2))%I with "[Hnew Hdel]" as "Hfresh".
  { iIntros "Hp Ht HΦ". unfold fresh. destruct (tls_throws w tid); iApply wp_ret.
    - iApply ("HΦ" $! false w); [done|]. iFrame.
    - iApply ("HΦ" $! true (set_tls w _) with "[%]").
      + split; [split; [by split_and!|intros t Ht; by apply lookup_insert_ne]|]. intros _. eexists. split; [apply lookup_insert_eq|done].
      + iFrame "Hp". iApply "Hnew". by iApply "Hdel". }
  destruct (tlsCaches w !! tid) as [t|] eqn:E; [|iApply ("Hfresh" with "Hp Ht HΦ")].
  unfold expired. destruct (Z.eqb_spec (ThreadCache.central_ t) (self_ w)) as [Hc|Hc]; cbn [negb].
  - iApply wp_ret. iApply ("HΦ" $! true w); [|iFrame]. iPureIntro. split; [done|]. intros _. by exists t.
  - iApply ("Hfresh" with "Hp Ht HΦ").
Qed.

(** The calling thread's cache, taken out of the map. *)
Lemma tls_acc self tls tid t :
  tls !! tid = Some t → ThreadCache.central_ t = self →
  tls_inv self tls ⊢ cache_inv t ∗
    (∀ t', ⌜ThreadCache.central_ t' = self⌝ -∗ cache_inv t' -∗ tls_inv self (<[tid := t']> tls)).
Proof.
  intros Ht Hc. iIntros "H". iDestruct (big_sepM_insert_acc with "H") as "[Ht H]"; [done|].
  rewrite Hc Z.eqb_refl. iFrame "Ht". iIntros (t' Hc') "Ht". iApply "H". by rewrite Hc' Z.eqb_refl.
Qed.

Lemma wpp_take_small (ok : bool) tid c w Φ :
  (ok = true → has_cache tid w) → 0 ≤ c < kClassCount →
  small_inv w ∗
  (∀ b w', ⌜small_step tid w w'⌝ -∗ small_inv w' -∗ pool_block c b -∗ Φ b w') ⊢
  wpp (if ok then cache_allocateBlock tid c
       else in_pools (act (λ p, PoolAllocator.allocateBlock p c))) w Φ.
Proof.
  intros Hok Hc. iIntros "[[(%A & Hp) Ht] HΦ]". destruct ok.
  - destruct (Hok eq_refl) as (t&Ht&Hself). iApply wpp_act1.
    iDestruct (tls_acc _ _ _ _ Ht Hself with "Ht") as "[Ht Htls]".
    iApply wp_bind. iApply wp_expect; [done|]. iApply wp_bind.
    iApply ThreadCache.wp_cache_allocateBlock; [done|]. iFrame "Ht Hp".
    iIntros (b t' p' A' [_ Hself']) "Ht Hp Hb". iApply wp_ret. cbn [fst snd].
    iApply ("HΦ" with "[%] [Htls Ht Hp] Hb"); [split; [by split_and!|intros ??; by apply lookup_insert_ne]|]. iSplitL "Hp"; [by iExists A'|].
    iApply ("Htls" with "[%] Ht"). by rewrite Hself'.
  - iApply wpp_zoom. iApply wpp_act1. iApply PoolAllocator.wp_allocateBlock; [done|]. iFrame "Hp".
    iIntros (b p' blocks) "_ Hp Hb". cbn [fst snd].
    iApply ("HΦ" with "[%] [Ht Hp] Hb"); [by split_and!|]. iSplitL "Hp"; [by iExists _|done].
Qed.

(** Giving a block back needs its first word only; the rest may be handed over later. *)
Lemma wpp_give_small (ok : bool) tid c stride b v w Φ :
  (ok = true → has_cache tid w) → 0 ≤ c < kClassCount → blockStride c = Some stride →
  small_inv w ∗ b ↦64 v ∗
  (∀ w', ⌜small_step tid w w'⌝ -∗ (free_body stride b -∗ small_inv w') -∗ Φ () w') ⊢
  wpp (if ok then cache_freeBlock tid c b
       else in_pools (act_ (λ p, PoolAllocator.freeBlock p c b))) w Φ.
Proof.
  intros Hok Hc Hst. iIntros "([(%A & Hp) Ht] & Hb & HΦ)".
  destruct (stride_ok _ _ Hc Hst) as [[??] ?]. destruct ok.
  - destruct (Hok eq_refl) as (t&Ht&Hself). iApply wpp_act1.
    iDestruct (tls_acc _ _ _ _ Ht Hself with "Ht") as "[Ht Htls]".
    iDestruct (word_range with "Hb") as %[??]; [lia|].
    iApply wp_bind. iApply wp_expect; [done|]. iApply wp_bind.
    iApply ThreadCache.wp_cache_freeBlock_hole; [done|done|lia|]. iFrame "Ht Hp".
    iIntros (t' p' A' [_ Hself']) "Ht Hp". iApply wp_ret. cbn [fst snd].
    iApply ("HΦ" with "[%]"); [split; [by split_and!|intros ??; by apply lookup_insert_ne]|].
    iIntros "Hbody". iSplitL "Hp"; [by iExists A'|].
    iApply ("Htls" with "[%]"); [by rewrite Hself'|]. iApply "Ht".
    iApply block_res_split; [lia|]. iFrame "Hbody". by iExists v.
  - iApply wpp_zoom. iApply wpp_act_. iApply PoolAllocator.wp_freeBlock_hole; [done|done|]. iFrame "Hp Hb".
    iIntros (p' blocks) "_ Hp". iApply ("HΦ" with "[%]"); [by split_and!|]. iIntros "Hbody".
    iSplitL "Hp Hbody"; [|done]. iExists _. by iApply "Hp".
Qed.

(** A thread that exits hands every block of its cache back to the pools. *)
Lemma wpp_thread_exit tid w Φ :
  small_inv w ∗
  (∀ w', ⌜same_small w w' ∧ tlsCaches w' = delete tid (tlsCaches w)⌝ -∗ small_inv w' -∗ Φ () w') ⊢
  wpp (thread_exit tid) w Φ.
Proof.
  iIntros "[[(%A & Hp) Ht] HΦ]". iApply wpp_act1. destruct (tlsCaches w !! tid) as [t|] eqn:E.
  2: { iApply wp_ret. iApply ("HΦ" $! w with "[%]"); [|iFrame]. split; [done|].
       by rewrite delete_id. }
  iDestruct (big_sepM_delete with "Ht") as "[Ht Htls]"; [done|]. unfold expired.
  destruct (Z.eqb_spec (ThreadCache.central_ t) (self_ w)) as [Hc|Hc]; cbn [negb].
  - iApply wp_bind. iApply wp_destroy. iFrame "Ht Hp". iIntros (t' p' A' _) "_ Hp". iApply wp_ret.
    iApply ("HΦ" with "[%] [Hp Htls]"); [by split_and!|]. iFrame "Htls". by iExists A'.
  - iApply wp_bind. iApply wp_ret. iApply wp_ret. iApply ("HΦ" with "[%] [Hp Htls]"); [by split_and!|].
    iFrame "Htls". by iExists A.
Qed.
End proofs.
