(* ===== verification/RawAlloc.v ===== *)
(** The tier dispatch: [rawAllocate] and [rawDeallocate] refine one abstract
    allocator of blocks, whatever tier serves the request. *)

From stdpp Require Import gmap.
From iris.proofmode Require Import proofmode.
From S2P Require Import Prelude.
From S2P Require Import HeapProp.
From S2P Require Import Memory.
From S2P Require Import Logic.
From S2P Require Import BlockHeader.
From S2P Require Import SizeClassTable.
From S2P Require Import Prog.
From S2P Require Import PoolAllocator.
From S2P Require Import SegmentHeap.
From S2P Require Import LargeAllocator.
From S2P Require Import Config.
From S2P Require Import Tiers.
From S2P Require Import AllocatorImpl.
From S2P Require Import SmallTier.

(** A block in use, as its base header describes it: the size asked of
    [rawAllocate], the tier, the size it is accounted with, and the bytes that are
    usable from the raw user pointer on. *)
Record base := MkBase { b_size : Z; b_tier : Tier; b_reserved : Z; b_total : Z }.
(** The payloads in use of the medium and of the large tier, with their capacities. *)
Record caps := MkCaps { medium_caps : gmap Z Z; large_caps : gmap Z Z }.

Definition small_block (b : base) : Prop :=
  ∃ c stride, b_size b ≤ kSmallMax ∧ classIndex (b_size b) = Some c ∧
    blockStride c = Some stride ∧ b_total b = stride - kHeaderSize ∧ classSize c = Some (b_reserved b).
Definition base_wf (r : Z) (b : base) : Prop :=
  0 < r ∧ r mod 16 = 0 ∧ 0 < b_size b ≤ b_total b ∧ b_size b ≤ b_reserved b ∧
  match b_tier b with
  | Small => small_block b
  | Medium | Large => kSmallMax < b_size b ∧ b_reserved b = b_total b
  | AlignedShim | DebugShim => False
  end.
(** The payload of a block starts at its base header. *)
Definition known (r : Z) (b : base) (C : caps) : Prop :=
  match b_tier b with
  | Medium => medium_caps C !! headerOf r = Some (b_total b + kHeaderSize)
  | Large => large_caps C !! headerOf r = Some (b_total b + kHeaderSize)
  | _ => True
  end.
Definition add_cap (r : Z) (b : base) (C : caps) : caps :=
  match b_tier b with
  | Medium => MkCaps (<[headerOf r := b_total b + kHeaderSize]> (medium_caps C)) (large_caps C)
  | Large => MkCaps (medium_caps C) (<[headerOf r := b_total b + kHeaderSize]> (large_caps C))
  | _ => C
  end.
Definition del_cap (r : Z) (b : base) (C : caps) : caps :=
  match b_tier b with
  | Medium => MkCaps (delete (headerOf r) (medium_caps C)) (large_caps C)
  | Large => MkCaps (medium_caps C) (delete (headerOf r) (large_caps C))
  | _ => C
  end.

Definition base_header (r : Z) (b : base) (state : Z) : heapPropI :=
  header_at (headerOf r) (b_size b) (tier_code (b_tier b)) state 0.

Section inv.
Context `{HOS : !OS, HL : !OSLaws}.

Definition raw_inv (w : AllocatorImpl) (C : caps) : heapPropI :=
  small_inv w ∗ pt_inv (get_segments w) (medium_caps C) ∗ pt_inv (get_large w) (large_caps C).

Lemma wp_write_header h sz tier off Q :
  h mod 16 = 0 → in64 sz → 0 ≤ off < 2 ^ 32 →
  raw h 16 ∗ (header_at h sz (tier_code tier) kStateAllocated off -∗ Q ()) ⊢
  wp (write_header h sz tier off) Q.
Proof.
  intros Hh Hs Ho. iIntros "[H HQ]". iDestruct (raw_header with "H") as (sz0 t0 s0 o0) "H"; [done|].
  iApply wp_bind. iApply wp_store_payloadSize; [done|]. iFrame "H". iIntros "H".
  iApply wp_bind. iApply wp_store_tier; [by destruct tier|]. iFrame "H". iIntros "H".
  iApply wp_bind. iApply wp_store_state; [done|]. iFrame "H". iIntros "H".
  iApply wp_store_offset; [done|]. by iFrame.
Qed.

(** ** rawAllocate *)
Definition raw_post (size : Z) (C : caps) (res : expected RawAllocation) (w' : AllocatorImpl) : heapPropI :=
  match res with
  | inr e => ⌜e = OutOfMemory ∧ os_refused⌝ ∗ raw_inv w' C
  | inl ra => ∃ b, ⌜base_wf (user ra) b ∧ b_size b = size ∧ reserved ra = b_reserved b⌝ ∗
      raw_inv w' (add_cap (user ra) b C) ∗ base_header (user ra) b kStateAllocated ∗
      raw (user ra) (b_total b)
  end.

Lemma wpp_rawAllocate_small tid size w C Φ :
  0 < size ≤ kSmallMax →
  raw_inv w C ∗ (∀ res w', ⌜same_rest w w'⌝ -∗ raw_post size C res w' -∗ Φ res w') ⊢
  wpp (rawAllocate_small tid size) w Φ.
Proof.
  intros Hs. destruct (classIndex_spec size) as (c&csz&Hc&Hcs&_&Hcr&Hcb&_&_); [lia|].
  destruct (blockStride_spec c Hcr) as (stride&sz&Hst&Hsz&_&?&?). simplify_eq.
  iIntros "[(Hsm & Hmed & Hlar) HΦ]".
  iApply wpp_bind. iApply wpp_io. iApply wp_expect; [done|].
  iApply wpp_bind. iApply wpp_threadCache. iFrame "Hsm". iIntros (ok w1 [Hw1 Hok]) "Hsm".
  iApply wpp_bind. iApply wpp_take_small; [done|done|]. iFrame "Hsm".
  iIntros (b w2 Hw2) "Hsm Hb". assert (small_step tid w w2) as [(Hrest&Hsg&Hlg) _] by (by etrans).
  iAssert (∀ C', pt_inv (get_segments w) (medium_caps C') -∗ pt_inv (get_large w) (large_caps C') -∗
    small_inv w2 -∗ raw_inv w2 C')%I as "Hinv".
  { iIntros (C') "H1 H2 H3". unfold raw_inv. rewrite Hsg Hlg. iFrame. }
  iDestruct "Hb" as "[[-> %Href]|(%st & [%Hne %Hst'] & %Hal & Hb)]".
  { iApply wpp_ret. iApply ("HΦ" $! (inr OutOfMemory) with "[//]"). iSplit; [done|].
    iApply ("Hinv" with "Hmed Hlar Hsm"). }
  simplify_eq. rewrite (proj2 (Z.eqb_neq b 0)) //.
  assert (headerOf (userPointerOf b) = b) as Hhdr
    by (unfold headerOf, userPointerOf, kHeaderSize; lia).
  iDestruct (raw_range with "Hb") as %[??]; [lia|].
  rewrite (raw_take b 16); [|lia]. iDestruct "Hb" as "[Hh Hb]". rewrite Hhdr.
  iApply wpp_bind. iApply wpp_io. iApply wp_write_header; [done|unfold kSmallMax, in64 in *; rewrite W64_eq; lia|done|].
  iFrame "Hh". iIntros "Hh".
  iApply wpp_bind. iApply wpp_io. iApply wp_expect; [done|].
  iApply wpp_ret. iApply ("HΦ" with "[//]"). iExists (MkBase size Small csz (stride - 16)).
  unfold base_header, add_cap. cbn [b_size b_tier b_total b_reserved user reserved]. rewrite Hhdr. iFrame "Hh Hb".
  iSplit.
  - iPureIntro. split; [|done]. unfold base_wf, userPointerOf, kHeaderSize in *; simpl.
    split_and!; try lia; [align_lia|]. exists c, stride. split_and!; [apply Hs|done..].
  - iApply ("Hinv" with "Hmed Hlar Hsm").
Qed.

(** The other two tiers run the same program against the interface of [Tiers]. *)
Definition rawAllocate_payload {S} `{!PayloadTier S} (get : AllocatorImpl → S)
    (set : AllocatorImpl → S → AllocatorImpl) (tier : Tier) (size : Z) :
    prog AllocatorImpl (expected RawAllocation) :=
  payload ← zoom get set (pt_allocate (size +₆₄ kHeaderSize));
  if payload =? 0 then mret (inr OutOfMemory) else
  let user := userPointerOf payload in
  _ ← io (write_header (headerOf user) size tier 0);
  capacity ← zoom get set (pt_capacity payload);
  mret (inl (MkRaw user (capacity -₆₄ kHeaderSize))).

Lemma rawAllocate_medium_eq size :
  rawAllocate_medium size = rawAllocate_payload get_segments set_segments Medium size.
Proof. done. Qed.
Lemma rawAllocate_large_eq size :
  rawAllocate_large size = rawAllocate_payload get_large set_large Large size.
Proof. done. Qed.

Lemma wpp_rawAllocate_payload {S} `{!PayloadTier S} get set `{!Lens get set} tier size w
    (Cs : gmap Z Z) Φ :
  0 < size ∧ size + 16 ≤ pt_limit → size < 2 ^ 62 →
  pt_inv (get w) Cs ∗
  (∀ res s', match res with
    | inr e => ⌜e = OutOfMemory ∧ os_refused⌝ ∗ pt_inv s' Cs
    | inl ra => ∃ total, ⌜0 < user ra ∧ user ra mod 16 = 0 ∧ size ≤ total ∧ reserved ra = total⌝ ∗
        pt_inv s' (<[headerOf (user ra) := (total + 16)%Z]> Cs) ∗
        header_at (headerOf (user ra)) size (tier_code tier) kStateAllocated 0 ∗ raw (user ra) total
    end -∗ Φ res (set w s')) ⊢
  wpp (rawAllocate_payload get set tier size) w Φ.
Proof.
  intros Hs Hlt. iIntros "[H HΦ]". unfold kHeaderSize.
  iApply wpp_bind. rewrite /rawAllocate_payload add64_small; [|unfold in64, kHeaderSize; rewrite W64_eq; lia].
  iApply wpp_zoom. iApply pt_allocate_spec; [unfold kHeaderSize; lia|]. iFrame "H".
  iIntros (p s') "[[[-> %Href] H]|(%cap & (%Hf & %Hp & %Hm & %Hcap) & H & Hp)]".
  { iApply wpp_ret. iApply "HΦ". by iFrame. }
  rewrite (proj2 (Z.eqb_neq p 0)); [|lia]. unfold kHeaderSize in *.
  assert (headerOf (userPointerOf p) = p) as Hhdr
    by (unfold headerOf, userPointerOf, kHeaderSize; lia).
  iDestruct (raw_range with "Hp") as %[??]; [lia|].
  rewrite (raw_take p 16); [|lia]. iDestruct "Hp" as "[Hh Hp]". rewrite Hhdr.
  iApply wpp_bind. iApply wpp_io. iApply wp_write_header; [done|unfold in64; rewrite W64_eq; lia|done|].
  iFrame "Hh". iIntros "Hh".
  iApply wpp_bind. iApply wpp_zoom. iApply pt_capacity_spec; [apply lookup_insert_eq|].
  rewrite lens_get_set. iFrame "H". iIntros "H". rewrite lens_set_set. iApply wpp_ret.
  rewrite sub64_small; [|unfold in64; lia].
  iApply "HΦ". iExists (cap - 16). cbn [user reserved]. rewrite Hhdr. iFrame "Hh Hp".
  replace (cap - 16 + 16) with cap by lia. iFrame. iPureIntro.
  unfold userPointerOf, kHeaderSize. split_and!; [lia|align_lia|lia|done].
Qed.

Lemma wpp_rawAllocate tid size w C Φ :
  0 < size ≤ 2 ^ 47 →
  raw_inv w C ∗ (∀ res w', ⌜same_rest w w'⌝ -∗ raw_post size C res w' -∗ Φ res w') ⊢
  wpp (rawAllocate tid size) w Φ.
Proof.
  intros Hs. unfold rawAllocate.
  destruct (Z.leb_spec size kSmallMax); [apply wpp_rawAllocate_small; lia|].
  iIntros "[(Hsm & Hmed & Hlar) HΦ]". destruct (Z.leb_spec size kMediumMax) as [Hmx|Hmx].
  - rewrite rawAllocate_medium_eq. iApply (wpp_rawAllocate_payload _ _ _ _ _ (medium_caps C)).
    { unfold kMediumMax in Hmx. simpl. unfold kSegmentSize. lia. } { lia. }
    iFrame "Hmed". iIntros ([ra|e] s') "H"; iApply ("HΦ" with "[%]"); try done.
    + iDestruct "H" as (total (?&?&?&?)) "(H & Hh & Hp)".
      iExists (MkBase size Medium total total). unfold base_header, raw_inv, add_cap. simpl. iFrame.
      iPureIntro. split; [|done]. unfold base_wf; simpl. split_and!; try done; lia.
    + iDestruct "H" as "[$ H]". iFrame.
  - rewrite rawAllocate_large_eq. iApply (wpp_rawAllocate_payload _ _ _ _ _ (large_caps C)).
    { simpl. lia. } { lia. }
    iFrame "Hlar". iIntros ([ra|e] s') "H"; iApply ("HΦ" with "[%]"); try done.
    + iDestruct "H" as (total (?&?&?&?)) "(H & Hh & Hp)".
      iExists (MkBase size Large total total). unfold base_header, raw_inv, add_cap. simpl. iFrame.
      iPureIntro. split; [|done]. unfold base_wf; simpl. split_and!; try done; lia.
    + iDestruct "H" as "[$ H]". iFrame.
Qed.

(** ** rawDeallocate *)

(** What is left of a freed block's header: the tier and the state (its first word
    may be a list link by now). *)
Definition freed_header (r : Z) (b : base) : heapPropI :=
  ⌜headerOf r mod 16 = 0⌝ ∗ (headerOf r + 8)%Z ↦16 tier_code (b_tier b) ∗
  (headerOf r + 10)%Z ↦16 kStateFreed.
(** The block is back in its tier; the caller may keep the freed header, unless the
    memory has gone back to the system. *)
Definition freed (r : Z) (b : base) (C : caps) (w' : AllocatorImpl) : heapPropI :=
  (freed_header r b ∗ (freed_header r b -∗ raw_inv w' (del_cap r b C))) ∨
  (⌜b_tier b ≠ Small⌝ ∗ raw_inv w' (del_cap r b C)).

Lemma header_tail h r sz t s o n :
  0 ≤ n → h + 16 = r →
  header_at h sz t s o ∗ raw r n ⊢
  h ↦64 sz ∗ ((h + 8)%Z ↦16 t ∗ (h + 10)%Z ↦16 s) ∗
  ((h + 8)%Z ↦16 t ∗ (h + 10)%Z ↦16 s -∗ raw (h + 8) (8 + n)).
Proof.
  intros Hn <-. iIntros "[(%Hm & $ & $ & $ & Ho) Hr] [Ht Hs]". rewrite !word_raw.
  iApply (raw_take (h + 8) 2); [lia|]. iFrame "Ht". replace (h + 8 + 2) with (h + 10) by lia.
  iApply (raw_take (h + 10) 2); [lia|]. iFrame "Hs". replace (h + 10 + 2) with (h + 12) by lia.
  iApply (raw_take (h + 12) 4); [lia|]. iFrame "Ho". replace (h + 12 + 4) with (h + 16) by lia.
  by replace (8 + n - 2 - 2 - 4) with n by lia.
Qed.

Lemma wpp_rawDeallocate_small tid r b st w C Φ :
  base_wf r b → b_tier b = Small →
  raw_inv w C ∗ base_header r b st ∗ raw r (b_total b) ∗
  (∀ w', ⌜same_rest w w'⌝ -∗ freed r b C w' -∗ Φ (inl (b_reserved b)) w') ⊢
  wpp (rawDeallocate_small tid r) w Φ.
Proof.
  intros (Hr&Hm&Hsz&_&Hti) Ht. rewrite Ht in Hti. destruct Hti as (c&stride&Hle&Hc&Hst&Htot&Hcs).
  destruct (classIndex_spec (b_size b)) as (c'&csz&Hc'&_&_&Hcr&_); [unfold kSmallMax in *; lia|]. simplify_eq.
  iIntros "((Hsm & Hmed & Hlar) & Hh & Hp & HΦ)". unfold base_header.
  iApply wpp_bind. iApply wpp_io. iApply wp_load_payloadSize. iFrame "Hh". iIntros "Hh".
  iApply wpp_bind. iApply wpp_io. iApply wp_expect; [done|].
  iApply wpp_bind. iApply wpp_io. iApply wp_store_state; [done|]. iFrame "Hh". iIntros "Hh".
  iApply wpp_bind. iApply wpp_threadCache. iFrame "Hsm". iIntros (ok w1 [Hw1 Hok]) "Hsm".
  iAssert ⌜headerOf r mod 16 = 0⌝%I as %Hhm; [by iDestruct "Hh" as "[% _]"|].
  iDestruct (header_tail with "[$Hh $Hp]") as "(Hw & [H1 H2] & Htail)";
    [lia|unfold headerOf, kHeaderSize; lia|].
  iApply wpp_bind. iApply wpp_give_small; [done|done|done|]. iFrame "Hsm Hw".
  iIntros (w2 Hw2) "Hsm". assert (small_step tid w w2) as [(Hrest&Hsg&Hlg) _] by (by etrans).
  iApply wpp_bind. iApply wpp_io. iApply wp_expect; [done|]. iApply wpp_ret.
  iApply ("HΦ" with "[//]"). iLeft. unfold freed_header. iFrame "H1 H2". iSplit; [done|].
  iIntros "(_ & H1 & H2)". unfold del_cap, raw_inv. rewrite Ht Hsg Hlg. iFrame "Hmed Hlar".
  iApply "Hsm". iSplit; [done|]. rewrite Htot. unfold kHeaderSize.
  replace (stride - 8) with (8 + (stride - 16)) by lia. iApply ("Htail" with "[$H1 $H2]").
Qed.

Lemma wpp_rawDeallocate tid r b st w C Φ :
  base_wf r b → known r b C →
  raw_inv w C ∗ base_header r b st ∗ raw r (b_total b) ∗
  (∀ w', ⌜same_rest w w'⌝ -∗ freed r b C w' -∗ Φ (inl (b_reserved b)) w') ⊢
  wpp (rawDeallocate tid r) w Φ.
Proof.
  intros Hwf Hkn. iIntros "(HI & Hh & Hp & HΦ)". iApply wpp_bind. iApply wpp_io.
  iApply wp_load_tier. iFrame "Hh". iIntros "Hh". pose proof Hwf as (Hr&Hm&Hsz&_&Hti).
  assert (headerOf r + 16 = r) as Hr16 by (unfold headerOf, kHeaderSize; lia).
  iDestruct (raw_range with "Hp") as %[_ Hend]; [lia|].
  iDestruct (header_range with "Hh") as %[Hh0 _].
  iAssert ⌜headerOf r mod 16 = 0⌝%I as %Hhm; [by iDestruct "Hh" as "[% _]"|].
  destruct (b_tier b) eqn:Ht; cbn [tierValue tier_code]; try done.
  - iApply wpp_rawDeallocate_small; [done|done|]. unfold base_header. rewrite Ht. iFrame.
  - unfold known in Hkn. rewrite Ht in Hkn. iDestruct "HI" as "(Hsm & Hmed & Hlar)".
    iApply wpp_bind. iApply wpp_io. iApply wp_store_state; [done|]. iFrame "Hh". iIntros "Hh".
    iApply wpp_bind. iApply wpp_zoom. iApply (pt_capacity_spec (get_segments w)); [done|]. iFrame "Hmed".
    iIntros "Hmed". iApply wpp_bind. iApply wpp_zoom.
    iApply (pt_release_spec (S := SegmentHeap) _ _ (headerOf r) _ (base_header r b kStateFreed)); [done| |unfold kHeaderSize; lia|].
    { unfold base_header. by rewrite header_raw. }
    unfold base_header at 1. rewrite Ht. rewrite !lens_get_set. iFrame "Hmed Hh". rewrite Hr16.
    unfold kHeaderSize. replace (b_total b + 16 - 16) with (b_total b) by lia. iFrame "Hp".
    iIntros (s') "H". iApply wpp_ret. rewrite sub64_small; [|unfold in64; lia].
    replace (b_total b + 16 - 16) with (b_reserved b) by lia. iApply ("HΦ" with "[%]"); [by split_and!|].
    iDestruct "H" as "[[Hh H]|H]".
    + iLeft. iDestruct "Hh" as "(% & Hw & H1 & H2 & H3)". unfold freed_header. rewrite Ht. iFrame "H1 H2".
      iSplit; [done|]. iIntros "(_ & H1 & H2)". unfold raw_inv, del_cap. rewrite Ht. cbn [medium_caps large_caps].
      iFrame "Hsm Hlar". iApply "H". iApply (header_raw _ (b_size b) (tier_code Medium) kStateFreed 0). by iFrame.
    + iRight. rewrite Ht. iSplit; [done|]. unfold raw_inv, del_cap. rewrite Ht. iFrame.
  - unfold known in Hkn. rewrite Ht in Hkn. iDestruct "HI" as "(Hsm & Hmed & Hlar)".
    iApply wpp_bind. iApply wpp_zoom. iApply (pt_capacity_spec (get_large w)); [done|]. iFrame "Hlar".
    iIntros "Hlar". iApply wpp_bind. iApply wpp_zoom.
    iApply (pt_release_spec (S := LargeAllocator) _ _ (headerOf r) _ (base_header r b st)); [done| |unfold kHeaderSize; lia|].
    { unfold base_header. by rewrite header_raw. }
    unfold base_header at 1. rewrite Ht. rewrite !lens_get_set. iFrame "Hlar Hh". rewrite Hr16.
    unfold kHeaderSize. replace (b_total b + 16 - 16) with (b_total b) by lia. iFrame "Hp".
    iIntros (s') "H". cbn [negb pt_known large_tier].
    iApply wpp_ret. rewrite sub64_small; [|unfold in64; lia].
    replace (b_total b + 16 - 16) with (b_reserved b) by lia. iApply ("HΦ" with "[%]"); [by split_and!|].
    iRight. rewrite Ht. iSplit; [done|]. unfold raw_inv, del_cap. rewrite Ht. cbn [medium_caps large_caps].
    iFrame "Hsm Hmed". iDestruct "H" as "[[Hh H]|H]"; [|done]. iApply "H". unfold base_header. by rewrite header_raw.
Qed.
End inv.
