(* ===== verification/AllocatorInv.v ===== *)
(** The invariant of the allocator: the map of live allocations, the memory the
    allocator keeps for each of them, and what the counters and the tracking
    tables say about the map. *)

From stdpp Require Import gmap.
From iris.proofmode Require Import proofmode.
From S2P Require Import Prelude.
From S2P Require Import HeapProp.
From S2P Require Import Memory.
From S2P Require Import Logic.
From S2P Require Import BlockHeader.
From S2P Require Import Prog.
From S2P Require Import StatisticsCollector.
From S2P Require Import Config.
From S2P Require Import DebugLayer.
From S2P Require Import Tiers.
From S2P Require Import AllocatorImpl.
From S2P Require Import SmallTier.
From S2P Require Import RawAlloc.

(** ** Live allocations *)
Inductive shim := Plain | Guarded | Aligned.
#[global] Instance shim_eq_dec : EqDecision shim.
Proof. solve_decision. Defined.

(** A live user pointer: the raw user pointer of the block below it, that block,
    the size the client asked for, and how the two are related. *)
Record alloc := MkAlloc { a_raw : Z; a_base : base; a_size : Z; a_shim : shim }.
Definition a_reserved (a : alloc) : Z := b_reserved (a_base a).

Definition user_tier (a : alloc) : Tier :=
  match a_shim a with Plain => b_tier (a_base a) | Guarded => DebugShim | Aligned => AlignedShim end.
Definition alloc_wf (u : Z) (a : alloc) : Prop :=
  base_wf (a_raw a) (a_base a) ∧ 0 < a_size a ≤ kMaxRequest ∧
  match a_shim a with
  | Plain => u = a_raw a ∧ a_size a = b_size (a_base a)
  | Guarded => u = a_raw a + 32 ∧ b_size (a_base a) = a_size a + 64
  | Aligned => a_raw a + 16 ≤ u ∧ u mod 16 = 0 ∧ u + a_size a ≤ a_raw a + b_size (a_base a) ∧
               u - a_raw a < 2 ^ 32
  end.

(** The memory the allocator keeps while the client has the allocation: every
    byte of the block but the user bytes and the guards. *)
Definition live_res (u : Z) (a : alloc) : heapPropI :=
  base_header (a_raw a) (a_base a) kStateAllocated ∗
  match a_shim a with
  | Plain => raw (u + a_size a) (b_total (a_base a) - a_size a)
  | Guarded =>
      header_at (headerOf u) (a_size a) (tier_code DebugShim) kStateAllocated 32 ∗
      raw (u + a_size a + 32) (b_total (a_base a) - a_size a - 64)
  | Aligned =>
      raw (a_raw a) (headerOf u - a_raw a) ∗
      header_at (headerOf u) (a_size a) (tier_code AlignedShim) kStateAllocated (u - a_raw a) ∗
      raw (u + a_size a) (a_raw a + b_total (a_base a) - (u + a_size a))
  end.
(** What the client has besides the user bytes: the guards, whatever is in them now. *)
Definition guard_res (u : Z) (a : alloc) (front rear : list byte) : heapPropI :=
  match a_shim a with Guarded => guards u (a_size a) front rear | _ => emp end.

(** ** The invariant *)
Definition map_sum `{Countable K} {A} (f : A → Z) (L : gmap K A) : Z := map_fold (λ _ a acc, f a + acc) 0 L.

Definition stats_ok (s : StatisticsCollector) (L : gmap Z alloc) : Prop :=
  activeAllocations_ s = wrap64 (Z.of_nat (size L)) ∧
  liveRequested_ s = wrap64 (map_sum a_size L) ∧
  liveReserved_ s = wrap64 (map_sum a_reserved L).
Definition tracking_ok (cfg : AllocatorConfig) (d : DebugLayer) (L : gmap Z alloc) : Prop :=
  if enableLeakTracking cfg then
    live_ d = a_size <$> L ∧ (∀ u, u ∈ freed_ d → L !! u = None) ∧ (∀ u, throws_ d u = false)
  else live_ d = ∅ ∧ freed_ d = ∅.
(** The registries of the medium and the large tier hold exactly the live blocks. *)
Definition caps_ok (C : caps) (L : gmap Z alloc) : Prop :=
  (∀ u a, L !! u = Some a → known (a_raw a) (a_base a) C) ∧
  (∀ p cap, medium_caps C !! p = Some cap →
     ∃ u a, L !! u = Some a ∧ b_tier (a_base a) = Medium ∧ headerOf (a_raw a) = p) ∧
  (∀ p cap, large_caps C !! p = Some cap →
     ∃ u a, L !! u = Some a ∧ b_tier (a_base a) = Large ∧ headerOf (a_raw a) = p).
Definition live_ok (L : gmap Z alloc) : Prop := ∀ u a, L !! u = Some a → alloc_wf u a.

Definition impl_inv `{!OS, !OSLaws} (w : AllocatorImpl) (L : gmap Z alloc) : heapPropI :=
  ∃ C, ⌜live_ok L ∧ caps_ok C L ∧ stats_ok (get_stats w) L ∧
        tracking_ok (cfg_of w) (AllocatorImpl.debug_ w) L⌝ ∗
    raw_inv w C ∗ [∗ map] u ↦ a ∈ L, live_res u a.

(** ** Sums over the map *)
Section sums.
Context `{Countable K} {A : Type} (f : A → Z).
Lemma map_sum_insert (L : gmap K A) u a :
  L !! u = None → map_sum f (<[u := a]> L) = f a + map_sum f L.
Proof. intros Hu. unfold map_sum. rewrite map_fold_insert_L //. intros; lia. Qed.
Lemma map_sum_delete (L : gmap K A) u a :
  L !! u = Some a → map_sum f L = f a + map_sum f (delete u L).
Proof.
  intros Hu. rewrite -{1}(insert_delete_id L u a) // map_sum_insert //. by rewrite lookup_delete_eq.
Qed.
End sums.

Lemma wrap64_add x y : wrap64 (wrap64 x + y) = wrap64 (x + y).
Proof. unfold wrap64. by rewrite Zplus_mod_idemp_l. Qed.
Lemma stats_ok_alloc s L u a :
  stats_ok s L → L !! u = None → stats_ok (stats_alloc (a_size a) (a_reserved a) s) (<[u := a]> L).
Proof.
  intros (H1&H2&H3) Hu. unfold stats_ok, stats_alloc, add64; simpl.
  rewrite H1 H2 H3 !wrap64_add map_size_insert_None // !map_sum_insert //.
  split_and!; f_equal; lia.
Qed.
Lemma stats_ok_free s L u a :
  stats_ok s L → L !! u = Some a → stats_ok (stats_free (a_size a) (a_reserved a) s) (delete u L).
Proof.
  intros (H1&H2&H3) Hu. unfold stats_ok, stats_free, sub64; simpl.
  rewrite H1 H2 H3. rewrite (map_sum_delete a_size L u a) // (map_sum_delete a_reserved L u a) //.
  rewrite map_size_delete_Some //.
  assert (size L ≠ 0%nat) by (intros ?%map_size_empty_inv; set_solver).
  split_and!; rewrite -Z.add_opp_r wrap64_add; f_equal; lia.
Qed.

Lemma tracking_ok_alloc cfg d L u a :
  tracking_ok cfg d L → L !! u = None →
  tracking_ok cfg (if enableLeakTracking cfg
                   then MkDebug (<[u := a_size a]> (live_ d)) (freed_ d ∖ {[ u ]}) (throws_ d) else d)
                  (<[u := a]> L).
Proof.
  unfold tracking_ok. destruct (enableLeakTracking cfg); simpl; [|done].
  intros (->&Hf&Hth) Hu. split; [by rewrite fmap_insert|]. split; [|done]. intros x Hx.
  rewrite lookup_insert_ne; [|set_solver]. set_solver.
Qed.
Lemma tracking_ok_free cfg d L u :
  tracking_ok cfg d L → is_Some (L !! u) →
  tracking_ok cfg (if enableLeakTracking cfg
                   then MkDebug (delete u (live_ d)) ({[ u ]} ∪ freed_ d) (throws_ d) else d) (delete u L).
Proof.
  unfold tracking_ok. destruct (enableLeakTracking cfg); simpl; [|done].
  intros (->&Hf&Hth) Hu. split; [by rewrite fmap_delete|]. split; [|done]. intros x Hx.
  destruct (decide (x = u)) as [->|]; [by rewrite lookup_delete_eq|].
  rewrite lookup_delete_ne //. set_solver.
Qed.
Lemma tracked_iff cfg d L u :
  tracking_ok cfg d L → enableLeakTracking cfg = true →
  bool_decide (is_Some (live_ d !! u)) = bool_decide (is_Some (L !! u)).
Proof.
  unfold tracking_ok. intros H Hc. rewrite Hc in H. destruct H as [-> _].
  apply bool_decide_ext. by rewrite lookup_fmap fmap_is_Some.
Qed.

(** While the tables can grow, [track] and [untrack] do what they say. *)
Lemma track_tables_ok cfg d L u n :
  tracking_ok cfg d L → enableLeakTracking cfg = true →
  track_tables u n d = MkDebug (<[u := n]> (live_ d)) (freed_ d ∖ {[ u ]}) (throws_ d).
Proof. unfold tracking_ok, track_tables. intros H Hc. rewrite Hc in H. by destruct H as (_&_&->). Qed.
Lemma freed_insert_ok cfg d L u :
  tracking_ok cfg d L → enableLeakTracking cfg = true → freed_insert u d = {[ u ]} ∪ freed_ d.
Proof. unfold tracking_ok, freed_insert. intros H Hc. rewrite Hc in H. by destruct H as (_&_&->). Qed.

(** ** The registries *)
Lemma caps_ok_alloc C L u a :
  caps_ok C L → L !! u = None →
  (∀ u' a', L !! u' = Some a' → headerOf (a_raw a') ≠ headerOf (a_raw a)) →
  caps_ok (add_cap (a_raw a) (a_base a) C) (<[u := a]> L).
Proof.
  intros (Hk&Hm&Hl) Hu Hne. split_and!.
  - intros u' a' [[<- <-]|[Hne' Ha']]%lookup_insert_Some.
    + unfold known, add_cap. destruct (b_tier (a_base a)); simpl; try done; apply lookup_insert_eq.
    + specialize (Hk u' a' Ha'). specialize (Hne u' a' Ha'). unfold known, add_cap in *.
      destruct (b_tier (a_base a')), (b_tier (a_base a)); simpl; try done; by rewrite lookup_insert_ne.
  - intros p cap Hp. unfold add_cap in Hp.
    assert (medium_caps C !! p = Some cap ∨ (b_tier (a_base a) = Medium ∧ headerOf (a_raw a) = p)) as [H|[??]].
    { destruct (b_tier (a_base a)) eqn:E; simpl in Hp; auto.
      apply lookup_insert_Some in Hp as [[??]|[??]]; auto. }
    + destruct (Hm p cap H) as (u'&a'&?&?&?). exists u', a'. split_and!; try done.
      rewrite lookup_insert_ne //. congruence.
    + exists u, a. by rewrite lookup_insert_eq.
  - intros p cap Hp. unfold add_cap in Hp.
    assert (large_caps C !! p = Some cap ∨ (b_tier (a_base a) = Large ∧ headerOf (a_raw a) = p)) as [H|[??]].
    { destruct (b_tier (a_base a)) eqn:E; simpl in Hp; auto.
      apply lookup_insert_Some in Hp as [[??]|[??]]; auto. }
    + destruct (Hl p cap H) as (u'&a'&?&?&?). exists u', a'. split_and!; try done.
      rewrite lookup_insert_ne //. congruence.
    + exists u, a. by rewrite lookup_insert_eq.
Qed.
Lemma caps_ok_free C L u a :
  caps_ok C L → L !! u = Some a →
  (∀ u' a', delete u L !! u' = Some a' → headerOf (a_raw a') ≠ headerOf (a_raw a)) →
  caps_ok (del_cap (a_raw a) (a_base a) C) (delete u L).
Proof.
  intros (Hk&Hm&Hl) Hu Hne. split_and!.
  - intros u' a' Ha'. specialize (Hne u' a' Ha'). apply lookup_delete_Some in Ha' as [_ Ha'].
    specialize (Hk u' a' Ha'). unfold known, del_cap in *.
    destruct (b_tier (a_base a')), (b_tier (a_base a)); simpl; try done; by rewrite lookup_delete_ne.
  - intros p cap Hp. unfold del_cap in Hp.
    assert (medium_caps C !! p = Some cap ∧ (b_tier (a_base a) = Medium → headerOf (a_raw a) ≠ p)) as [H Hp'].
    { destruct (b_tier (a_base a)) eqn:E; simpl in Hp; try done.
      by apply lookup_delete_Some in Hp as [??]. }
    destruct (Hm p cap H) as (u'&a'&?&?&?). exists u', a'. split_and!; try done.
    rewrite lookup_delete_ne //. intros ->. simplify_eq. naive_solver.
  - intros p cap Hp. unfold del_cap in Hp.
    assert (large_caps C !! p = Some cap ∧ (b_tier (a_base a) = Large → headerOf (a_raw a) ≠ p)) as [H Hp'].
    { destruct (b_tier (a_base a)) eqn:E; simpl in Hp; try done.
      by apply lookup_delete_Some in Hp as [??]. }
    destruct (Hl p cap H) as (u'&a'&?&?&?). exists u', a'. split_and!; try done.
    rewrite lookup_delete_ne //. intros ->. simplify_eq. naive_solver.
Qed.

(** ** Ownership *)
Section own.
Context `{HOS : !OS, HL : !OSLaws}.

Definition a_offset (u : Z) (a : alloc) : Z := match a_shim a with Plain => 0 | _ => u - a_raw a end.

(** The header in front of the user pointer. *)
Lemma live_header u a :
  alloc_wf u a →
  live_res u a ⊢
    header_at (headerOf u) (a_size a) (tier_code (user_tier a)) kStateAllocated (a_offset u a) ∗
    (header_at (headerOf u) (a_size a) (tier_code (user_tier a)) kStateAllocated (a_offset u a) -∗
     live_res u a).
Proof.
  intros (_&_&Hsh). unfold live_res, user_tier, a_offset, base_header.
  destruct (a_shim a).
  - destruct Hsh as [-> ->]. iIntros "[$ $] $".
  - destruct Hsh as [-> _]. replace (a_raw a + 32 - a_raw a) with 32 by lia. iIntros "($ & $ & $) $".
  - iIntros "($ & $ & $ & $) $".
Qed.
Lemma live_fresh L u a :
  live_ok L → alloc_wf u a →
  live_res u a ∗ ([∗ map] u' ↦ a' ∈ L, live_res u' a') ⊢ ⌜L !! u = None⌝.
Proof.
  intros HLok Hwf. iIntros "[Ha H]". destruct (L !! u) as [a'|] eqn:E; [|done].
  iDestruct (big_sepM_lookup with "H") as "Ha'"; [done|].
  iDestruct (live_header with "Ha") as "[Ha _]"; [done|].
  iDestruct (live_header with "Ha'") as "[Ha' _]"; [by apply HLok|].
  rewrite !header_raw. by iDestruct (raw_disjoint_strict with "[$Ha $Ha']") as %?.
Qed.
Lemma live_bases (L : gmap Z alloc) r b st :
  base_header r b st ∗ ([∗ map] u' ↦ a' ∈ L, live_res u' a') ⊢
  ⌜∀ u' a', L !! u' = Some a' → headerOf (a_raw a') ≠ headerOf r⌝.
Proof.
  iIntros "[Hb H]" (u' a' Ha').
  iDestruct (big_sepM_lookup with "H") as "[Ha' _]"; [done|]. unfold base_header.
  rewrite !header_raw. by iDestruct (raw_disjoint_strict with "[$Ha' $Hb]") as %?.
Qed.

(** An allocator that has just been constructed, in any process state. *)
Lemma raw_inv_init cfg self tls throws dbg :
  (∀ tid t, tls !! tid = Some t → ThreadCache.central_ t ≠ self) →
  ⊢ raw_inv (AllocatorImpl_init cfg self tls throws dbg) (MkCaps ∅ ∅).
Proof.
  intros Htls. iSplitR; [iSplitR|iSplitR].
  - iExists _. iApply PoolAllocator.pools_inv_init.
  - unfold tls_inv. cbn [tlsCaches AllocatorImpl_init self_].
    iApply big_sepM_intro. iIntros "!>" (tid t Ht). rewrite (proj2 (Z.eqb_neq _ _)); [done|]. by eapply Htls.
  - cbn. rewrite kmap_empty. iApply SegmentProofs.seg_inv_init.
  - cbn. iSplit; [iApply LargeAllocator.large_inv_init|]. by rewrite fmap_empty.
Qed.
Lemma impl_inv_init cfg self tls throws dbg :
  (∀ tid t, tls !! tid = Some t → ThreadCache.central_ t ≠ self) →
  (enableLeakTracking cfg = true → ∀ u, dbg u = false) →
  ⊢ impl_inv (AllocatorImpl_init cfg self tls throws dbg) ∅.
Proof.
  intros Htls Hdbg. iExists (MkCaps ∅ ∅). iSplit.
  { iPureIntro. split_and!.
    - intros u a. by rewrite lookup_empty.
    - split_and!; intros ??; by rewrite lookup_empty.
    - done.
    - unfold tracking_ok. change (cfg_of _) with cfg. destruct (enableLeakTracking cfg); simpl; [|done].
      split; [done|]. split; [by intros u ?%not_elem_of_empty|by apply Hdbg]. }
  iSplitL; [|by rewrite big_sepM_empty]. by iApply raw_inv_init.
Qed.
End own.
