(* ===== verification/SharedInv.v ===== *)
(** The allocator as threads share it: what is true of its state between any two
    actions.  A holder - a thread in the middle of an operation, or a live pointer -
    contributes the payloads it has from the medium and the large tier and its
    share of the counters; the tiers' registries and the counters are the sums of the
    contributions.  Nothing is known of the tracking tables when they are in use: a free
    races with the next owner of the block, see [Findings]. *)

From stdpp Require Import gmap.
From iris.proofmode Require Import proofmode.
From S2P Require Import Prelude.
From S2P Require Import HeapProp.
From S2P Require Import Memory.
From S2P Require Import Logic.
From S2P Require Import Prog.
From S2P Require Import Interleaving.
From S2P Require Import StatisticsCollector.
From S2P Require Import Config.
From S2P Require Import DebugLayer.
From S2P Require Import Tiers.
From S2P Require Import AllocatorImpl.
From S2P Require Import SmallTier.
From S2P Require Import RawAlloc.
From S2P Require Import AllocatorInv.

(** ** Contributions *)

(** What the counters measure, signed: allocations minus frees, in number and in bytes,
    and the three live sums. *)
Inductive measure := Count | Bytes | Active | Requested | Reserved.
#[global] Instance measure_eq_dec : EqDecision measure.
Proof. solve_decision. Defined.
Definition measured (q : measure) (s : StatisticsCollector) : Z :=
  match q with
  | Count => allocationCount_ s - freeCount_ s
  | Bytes => allocatedBytes_ s - freedBytes_ s
  | Active => activeAllocations_ s
  | Requested => liveRequested_ s
  | Reserved => liveReserved_ s
  end.

Record item := MkItem { i_caps : caps; i_sum : measure → Z }.
Definition caps_empty : caps := MkCaps ∅ ∅.
Definition item_init : item := MkItem caps_empty (λ _, 0).
Definition bump (q : measure) (v : Z) (f : measure → Z) : measure → Z :=
  λ q', if decide (q' = q) then f q' + v else f q'.

(** The registry of one of the two payload tiers. *)
Definition cap_of (lg : bool) (C : caps) : gmap Z Z := if lg then large_caps C else medium_caps C.
Definition cap_set (lg : bool) (M : gmap Z Z) (C : caps) : caps :=
  if lg then MkCaps (medium_caps C) M else MkCaps M (large_caps C).
Definition cap_put (lg : bool) (p c : Z) (C : caps) : caps := cap_set lg (<[p := c]> (cap_of lg C)) C.
Definition cap_del (lg : bool) (p : Z) (C : caps) : caps := cap_set lg (delete p (cap_of lg C)) C.
Lemma cap_of_set lg lg' M C : cap_of lg (cap_set lg' M C) = if eqb lg lg' then M else cap_of lg C.
Proof. by destruct lg, lg'. Qed.

(** [M] is the disjoint union of the holders' shares. *)
Definition collects (f : item → gmap Z Z) (H : gmap holder item) (M : gmap Z Z) : Prop :=
  (∀ k it p c, H !! k = Some it → f it !! p = Some c → M !! p = Some c) ∧
  (∀ p c, M !! p = Some c → ∃ k it, H !! k = Some it ∧ f it !! p = Some c) ∧
  (∀ k1 k2 it1 it2 p, H !! k1 = Some it1 → H !! k2 = Some it2 →
     is_Some (f it1 !! p) → is_Some (f it2 !! p) → k1 = k2).

Section collects.
Context (f : item → gmap Z Z).
Implicit Types (H : gmap holder item) (M : gmap Z Z).

(** A new share for one holder: the others', and the whole, agree with it. *)
Lemma collects_update H M M' k it it' :
  collects f H M → H !! k = Some it →
  (∀ p, (f it' !! p = f it !! p ∧ M' !! p = M !! p) ∨ (M' !! p = f it' !! p ∧ M !! p = f it !! p)) →
  collects f (<[k := it']> H) M'.
Proof.
  intros (H1&H2&H3) Hk Hp. split_and!.
  - intros k' i p c [[<- <-]|[Hne Hi]]%lookup_insert_Some Hc.
    + destruct (Hp p) as [[E ->]|[-> _]]; [|done]. rewrite E in Hc. by eapply H1.
    + destruct (Hp p) as [[_ ->]|[_ E]]; [by eapply H1|].
      exfalso. apply Hne. symmetry. eapply (H3 k' k); [done|done|by exists c|]. rewrite -E.
      exists c. by eapply H1.
  - intros p c Hc. destruct (Hp p) as [[E E']|[E E']].
    + rewrite E' in Hc. destruct (H2 p c Hc) as (k'&i&Hi&Hpi). destruct (decide (k' = k)) as [->|Hne].
      * simplify_eq. exists k, it'. by rewrite lookup_insert_eq E.
      * exists k', i. by rewrite lookup_insert_ne.
    + exists k, it'. by rewrite lookup_insert_eq -E.
  - assert (∀ k' i p, k' ≠ k → H !! k' = Some i → is_Some (f i !! p) → is_Some (f it' !! p) → False) as Hx.
    { intros k' i p Hne Hi [c Hc] Hs. destruct (Hp p) as [[E _]|[_ E]].
      - apply Hne. eapply H3; [done|done|by exists c|by rewrite -E].
      - apply Hne. eapply (H3 k' k); [done|done|by exists c|]. rewrite -E. exists c. by eapply H1. }
    intros k1 k2 i1 i2 p Hi1 Hi2 Hs1 Hs2.
    apply lookup_insert_Some in Hi1 as [[<- <-]|[Hn1 Hi1]], Hi2 as [[<- <-]|[Hn2 Hi2]]; [done| | |by eapply H3].
    + exfalso. by eapply (Hx k2).
    + exfalso. by eapply (Hx k1).
Qed.
(** A share changes hands. *)
Lemma collects_rekey H M k k' it :
  collects f H M → H !! k = Some it → H !! k' = None → collects f (<[k' := it]> (delete k H)) M.
Proof.
  intros (H1&H2&H3) Hk Hk'. assert (k ≠ k') as Hkk by congruence. split_and!.
  - intros k0 i p c [[<- <-]|[Hne [_ Hi]%lookup_delete_Some]]%lookup_insert_Some; by eapply H1.
  - intros p c Hc. destruct (H2 p c Hc) as (k0&i&Hi&Hp). destruct (decide (k0 = k)) as [->|Hne].
    + simplify_eq. exists k', it. by rewrite lookup_insert_eq.
    + exists k0, i. rewrite lookup_insert_ne; [|congruence]. by rewrite lookup_delete_ne.
  - intros k1 k2 i1 i2 p Hi1 Hi2 Hs1 Hs2.
    apply lookup_insert_Some in Hi1 as [[<- <-]|[Hn1 [? Hi1]%lookup_delete_Some]],
      Hi2 as [[<- <-]|[Hn2 [? Hi2]%lookup_delete_Some]]; [done| | |by eapply H3].
    + exfalso. pose proof (H3 k k2 _ _ p Hk Hi2 Hs1 Hs2). congruence.
    + exfalso. pose proof (H3 k1 k _ _ p Hi1 Hk Hs1 Hs2). congruence.
Qed.
(** A holder gives a part of its share to a new one. *)
Lemma collects_split H M k k' it it1 it2 :
  collects f H M → H !! k = Some it → H !! k' = None →
  (∀ p, (f it1 !! p = f it !! p ∧ f it2 !! p = None) ∨ (f it2 !! p = f it !! p ∧ f it1 !! p = None)) →
  collects f (<[k' := it2]> (<[k := it1]> H)) M.
Proof.
  intros (H1&H2&H3) Hk Hk' Hp. assert (k ≠ k') as Hkk by congruence.
  set (old := λ j, if decide (j = k') then k else j).
  assert (∀ j i p c, <[k' := it2]> (<[k := it1]> H) !! j = Some i → f i !! p = Some c →
    ∃ i', H !! old j = Some i' ∧ f i' !! p = Some c ∧ (old j = k → (j = k' ↔ is_Some (f it2 !! p)))) as Hold.
  { intros j i p c Hj Hc. unfold old. apply lookup_insert_Some in Hj as [[<- <-]|[Hj Hi]].
    - rewrite decide_True //. exists it. destruct (Hp p) as [[_ E]|[E _]]; [congruence|].
      split_and!; [done|congruence|]. intros _. split; [by exists c|done].
    - rewrite decide_False //. apply lookup_insert_Some in Hi as [[<- <-]|[Hne Hi]].
      + exists it. destruct (Hp p) as [[E E2]|[_ E]]; [|congruence]. split_and!; [done|congruence|].
        intros _. split; [done|]. rewrite E2. by intros [].
      + exists i. split_and!; [done|done|]. by intros ->. }
  split_and!.
  - intros j i p c Hj Hc. destruct (Hold j i p c Hj Hc) as (i'&Hi'&Hc'&_). by eapply H1.
  - intros p c Hc. destruct (H2 p c Hc) as (j&i&Hi&Hpi). destruct (decide (j = k)) as [->|Hne].
    + simplify_eq. destruct (Hp p) as [[E _]|[E _]].
      * exists k, it1. rewrite lookup_insert_ne // lookup_insert_eq. by rewrite E.
      * exists k', it2. rewrite lookup_insert_eq. by rewrite E.
    + exists j, i. rewrite !lookup_insert_ne //. congruence.
  - intros j1 j2 i1 i2 p Hj1 Hj2 [c1 Hc1] [c2 Hc2].
    destruct (Hold _ _ _ _ Hj1 Hc1) as (i1'&Hi1&Hf1&Hw1), (Hold _ _ _ _ Hj2 Hc2) as (i2'&Hi2&Hf2&Hw2).
    pose proof (H3 _ _ _ _ p Hi1 Hi2 (ex_intro _ _ Hf1) (ex_intro _ _ Hf2)) as Heq. unfold old in *.
    destruct (decide (j1 = k')) as [->|], (decide (j2 = k')) as [->|]; [done| | |done].
    + symmetry. apply Hw2; [done|]. by apply Hw1.
    + apply Hw1; [done|]. by apply Hw2.
Qed.
(** A holder without a share comes and goes. *)
Lemma collects_add H M k it :
  collects f H M → H !! k = None → f it = ∅ → collects f (<[k := it]> H) M.
Proof.
  intros (H1&H2&H3) Hk Hf. split_and!.
  - intros k0 i p c [[<- <-]|[Hne Hi]]%lookup_insert_Some; [by rewrite Hf lookup_empty|by eapply H1].
  - intros p c Hc. destruct (H2 p c Hc) as (k0&i&Hi&Hp). exists k0, i. rewrite lookup_insert_ne; [done|congruence].
  - intros k1 k2 i1 i2 p Hi1 Hi2 Hs1 Hs2.
    apply lookup_insert_Some in Hi1 as [[<- <-]|[Hn1 Hi1]], Hi2 as [[<- <-]|[Hn2 Hi2]]; [done| | |by eapply H3].
    + rewrite Hf lookup_empty in Hs1. by destruct Hs1.
    + rewrite Hf lookup_empty in Hs2. by destruct Hs2.
Qed.
Lemma collects_drop H M k it :
  collects f H M → H !! k = Some it → f it = ∅ → collects f (delete k H) M.
Proof.
  intros (H1&H2&H3) Hk Hf. split_and!.
  - intros k0 i p c [_ Hi]%lookup_delete_Some; by eapply H1.
  - intros p c Hc. destruct (H2 p c Hc) as (k0&i&Hi&Hp). exists k0, i. rewrite lookup_delete_ne; [done|].
    intros ->. simplify_eq. by rewrite Hf lookup_empty in Hp.
  - intros k1 k2 i1 i2 p [_ ?]%lookup_delete_Some [_ ?]%lookup_delete_Some. by eapply H3.
Qed.
End collects.

Definition registered (C : caps) (H : gmap holder item) : Prop :=
  ∀ lg, collects (λ it, cap_of lg (i_caps it)) H (cap_of lg C).
(** What a tier's action does to the registry [C] and to the share [D] of the thread. *)
Inductive cap_step (C D : caps) : caps → caps → Prop :=
  | CapSame : cap_step C D C D
  | CapPut lg p c : cap_of lg C !! p = None → cap_step C D (cap_put lg p c C) (cap_put lg p c D)
  | CapDel lg p : is_Some (cap_of lg D !! p) → cap_step C D (cap_del lg p C) (cap_del lg p D).
Lemma registered_step C H C' it it' k :
  registered C H → H !! k = Some it → cap_step C (i_caps it) C' (i_caps it') →
  registered C' (<[k := it']> H).
Proof.
  intros HC Hk Hst lg. apply (collects_update _ H (cap_of lg C) _ _ it); [done|done|]. intros p.
  remember (i_caps it) as D eqn:HD. remember (i_caps it') as D' eqn:HD'. destruct Hst as [|lg' p' c Hn|lg' p' Hs].
  - by left.
  - unfold cap_put. rewrite !cap_of_set. destruct (eqb lg lg') eqn:E; [|by left].
    apply eqb_prop in E as ->. destruct (decide (p = p')) as [->|Hne].
    + right. rewrite !lookup_insert_eq. split; [done|]. rewrite Hn. symmetry.
      destruct (cap_of lg' D !! p') eqn:E; [|done]. destruct (HC lg') as (H1&_).
      rewrite HD in E. rewrite (H1 k it p' _ Hk E) in Hn. done.
    + left. by rewrite !lookup_insert_ne.
  - unfold cap_del. rewrite !cap_of_set. destruct (eqb lg lg') eqn:E; [|by left].
    apply eqb_prop in E as ->. destruct (decide (p = p')) as [->|Hne].
    + right. rewrite !lookup_delete_eq. split; [done|]. destruct Hs as [c Hc]. rewrite Hc.
      destruct (HC lg') as (H1&_). apply (H1 k it); [done|]. by rewrite -HD.
    + left. by rewrite !lookup_delete_ne.
Qed.

(** ** The counters *)
Definition tally (q : measure) (H : gmap holder item) : Z := map_sum (λ it, i_sum it q) H.
Definition stats_match (s : StatisticsCollector) (H : gmap holder item) : Prop :=
  (∀ c, in64 (get_counter c s)) ∧ ∀ q, wrap64 (measured q s) = wrap64 (tally q H).

Lemma tally_update q H k it it' :
  H !! k = Some it → tally q (<[k := it']> H) = tally q H + (i_sum it' q - i_sum it q).
Proof.
  intros Hk. unfold tally. rewrite -insert_delete_eq map_sum_insert ?lookup_delete_eq //.
  rewrite (map_sum_delete _ H k it) //. lia.
Qed.
Lemma tally_rekey q H k k' it :
  H !! k = Some it → H !! k' = None → tally q (<[k' := it]> (delete k H)) = tally q H.
Proof.
  intros Hk Hk'. unfold tally. rewrite map_sum_insert; [|rewrite lookup_delete_ne //; congruence].
  by rewrite (map_sum_delete _ H k it).
Qed.
Lemma tally_split q H k k' it it1 it2 :
  H !! k = Some it → H !! k' = None → i_sum it q = i_sum it1 q + i_sum it2 q →
  tally q (<[k' := it2]> (<[k := it1]> H)) = tally q H.
Proof.
  intros Hk Hk' Hs. assert (k ≠ k') by congruence. unfold tally at 1. rewrite map_sum_insert; [|by rewrite lookup_insert_ne].
  fold (tally q (<[k := it1]> H)). rewrite (tally_update q H k it) //. lia.
Qed.
Lemma tally_drop q H k it : H !! k = Some it → i_sum it q = 0 → tally q (delete k H) = tally q H.
Proof. intros Hk Hz. unfold tally. rewrite (map_sum_delete _ H k it) // Hz. lia. Qed.
Lemma tally_add q H k it : H !! k = None → i_sum it q = 0 → tally q (<[k := it]> H) = tally q H.
Proof. intros Hk Hz. unfold tally. rewrite map_sum_insert // Hz. lia. Qed.

Lemma stats_match_same s H H' : (∀ q, tally q H' = tally q H) → stats_match s H → stats_match s H'.
Proof. intros Ht [? Hs]. split; [done|]. intros q. by rewrite Ht. Qed.

(** The measure an addition to a counter moves, and in which direction. *)
Definition moves (c : counter) : option (measure * Z) :=
  match c with
  | AllocationCount => Some (Count, 1)
  | FreeCount => Some (Count, -1)
  | ActiveAllocations => Some (Active, 1)
  | LiveRequested => Some (Requested, 1)
  | LiveReserved => Some (Reserved, 1)
  | AllocatedBytes => Some (Bytes, 1)
  | FreedBytes => Some (Bytes, -1)
  | PeakUsage => None
  end.
Lemma measured_add c v q sg s :
  moves c = Some (q, sg) →
  wrap64 (measured q (set_counter c (wrap64 (get_counter c s + v)) s)) = wrap64 (measured q s + sg * v) ∧
  (∀ q', q' ≠ q → measured q' (set_counter c (wrap64 (get_counter c s + v)) s) = measured q' s).
Proof.
  intros Hm. destruct s as [n1 n2 n3 n4 n5 n6 n7 n8]. unfold wrap64.
  destruct c; simplify_eq/=; (split; [|intros []; done || congruence]).
  all: unfold measured, set_counter, get_counter; cbn [allocationCount_ freeCount_ activeAllocations_ liveRequested_ liveReserved_ allocatedBytes_ freedBytes_].
  all: rewrite W64_eq; Z.to_euclidean_division_equations; lia.
Qed.
Lemma get_set_counter c c' v s : get_counter c (set_counter c' v s) = if decide (c = c') then v else get_counter c s.
Proof. by destruct s, c, c'. Qed.

(** ** The protocol
    Between two actions the registries and the counters are the holders' sums.  A
    thread relies on its own cache slot and on the peak, which never falls. *)
Section protocol.
Context `{HOS : !OS, HL : !OSLaws} (cfg : AllocatorConfig).

Definition peak_of (w : AllocatorImpl) : Z := peakUsage_ (get_stats w).
Definition alloc_rely (tid : Z) (w w' : AllocatorImpl) : Prop :=
  self_ w' = self_ w ∧ tlsCaches w' !! tid = tlsCaches w !! tid ∧ peak_of w ≤ peak_of w'.
Definition shared_inv (w : AllocatorImpl) (H : gmap holder item) : heapPropI :=
  ∃ C, ⌜cfg_of w = cfg ∧ (enableLeakTracking cfg = false → live_ (AllocatorImpl.debug_ w) = ∅) ∧ stats_match (get_stats w) H ∧ registered C H⌝ ∗
    raw_inv w C.
#[export] Instance alloc_rely_pre tid : PreOrder (alloc_rely tid).
Proof.
  split; [intros w; split_and!; [done|done|lia]|]. intros w1 w2 w3 (H1&H2&H3) (H4&H5&H6).
  split_and!; [by rewrite H4|by rewrite H5|lia].
Qed.
#[export] Instance alloc_protocol : Protocol AllocatorImpl item := {|
  rely := alloc_rely; shared := shared_inv
|}.

(** An action of [tid] on the tiers. *)
Definition tier_step (tid : Z) (w w' : AllocatorImpl) : Prop :=
  same_rest w w' ∧ ∀ t, t ≠ tid → tlsCaches w' !! t = tlsCaches w !! t.
#[global] Instance tier_step_refl tid : Reflexive (tier_step tid).
Proof. by intros w. Qed.
Lemma tier_step_guar tid w w' : tier_step tid w w' → guar tid w w'.
Proof.
  intros [(_&Hs&_&Hself&_) Htls] t Ht. unfold rely, alloc_protocol, alloc_rely, peak_of.
  rewrite Hself Hs Htls; [|done]. split_and!; [done|done|lia].
Qed.
Lemma cwp_tier {A} tid (p : prog AllocatorImpl A) `{!Atomic p} w0 it Φ :
  (∀ w C, ⌜alloc_rely tid w0 w ∧ cfg_of w = cfg⌝ -∗
     ⌜∀ lg q c, cap_of lg (i_caps it) !! q = Some c → cap_of lg C !! q = Some c⌝ -∗ raw_inv w C -∗
     wpp p w (λ a w', ∃ C' D', ⌜tier_step tid w w' ∧ cap_step C (i_caps it) C' D'⌝ ∗ raw_inv w' C' ∗
                               Φ a w' (MkItem D' (i_sum it)))) ⊢
  cwp tid p w0 it Φ.
Proof.
  iIntros "Hp". iApply cwp_atomic. iIntros (w H) "[%Hr %HH] (%C & (%Hc & %Hd & %Hst & %Hreg) & HC)".
  iDestruct ("Hp" $! w C with "[//] [%] HC") as "Hp".
  { intros lg q c Hq. destruct (Hreg lg) as (H1&_). by eapply H1. }
  iApply (wpp_wand with "Hp"). iIntros (a w') "(%C' & %D' & [%Hts %Hcs] & HC & HΦ)".
  iExists (MkItem D' (i_sum it)). iFrame "HΦ". iSplit; [iPureIntro; by apply tier_step_guar|].
  iExists C'. iFrame "HC". iPureIntro. destruct Hts as [(Hc'&Hs'&Hd'&_&_) _]. rewrite Hc' Hs' Hd'.
  split_and!; [done|done| |by eapply registered_step].
  eapply stats_match_same; [|done]. intros q. rewrite (tally_update q H _ it) //. cbn. lia.
Qed.
(** One that leaves the registries alone. *)
Lemma cwp_tier_same {A} tid (p : prog AllocatorImpl A) `{!Atomic p} w0 it Φ :
  (∀ w C, ⌜alloc_rely tid w0 w ∧ cfg_of w = cfg⌝ -∗ raw_inv w C -∗
     wpp p w (λ a w', ⌜tier_step tid w w'⌝ ∗ raw_inv w' C ∗ Φ a w' it)) ⊢
  cwp tid p w0 it Φ.
Proof.
  iIntros "Hp". iApply cwp_tier. iIntros (w C) "Hr _ HC".
  iApply (wpp_wand with "(Hp Hr HC)"). iIntros (a w') "(% & HC & HΦ)". iExists C, (i_caps it).
  iFrame "HC". destruct it. iFrame "HΦ". iPureIntro. split; [done|constructor].
Qed.

(** ** The tracking tables *)
Lemma cwp_debug {X} tid (f : DebugLayer → cmd (X * DebugLayer)) w0 it Φ :
  enableLeakTracking cfg = true → (∀ d, ∃ y, f d = mret y) →
  (∀ x w, Φ x w it) ⊢ cwp tid (in_debug (act f)) w0 it Φ.
Proof.
  intros Hlk Hf. iIntros "HΦ". iApply cwp_atomic.
  iIntros (w H) "[%Hr %HH] (%C & (%Hc & %Hd & %Hst & %Hreg) & HC)". iApply wpp_zoom. iApply wpp_act1.
  destruct (Hf (AllocatorImpl.debug_ w)) as [[x d] ->]. iApply wp_ret. cbn [fst snd]. iExists it. rewrite insert_id //.
  iSplit; [by iPureIntro; intros t _|]. iSplitL "HC"; [|by iApply "HΦ"]. iExists C. iFrame "HC". iPureIntro.
  split_and!; [done|by rewrite Hlk|done|done].
Qed.

(** ** Diagnostics *)
Lemma cwp_report tid e ptr w0 it Φ :
  abortOnError cfg = false → (∀ w, Φ () w it) ⊢ cwp tid (report e ptr) w0 it Φ.
Proof.
  intros Hab. iIntros "HΦ". iApply cwp_atomic.
  iIntros (w H) "[%Hr %HH] (%C & (%Hc & %Hd & %Hst & %Hreg) & HC)". iApply wpp_act1. rewrite Hc Hab.
  iApply wp_ret. iExists it. rewrite insert_id //. iSplit; [|iSplitL "HC"; [|by iApply "HΦ"]].
  - iPureIntro. by intros t _.
  - iExists C. by iFrame.
Qed.
Lemma cwp_fail {A} tid e ptr w0 it (Φ : expected A → _ → _ → heapPropI) :
  abortOnError cfg = false → (∀ w, Φ (inr e) w it) ⊢ cwp tid (fail e ptr) w0 it Φ.
Proof.
  intros Hab. iIntros "HΦ". iApply cwp_bind. iApply cwp_report; [done|]. iIntros (w). by iApply cwp_ret.
Qed.
Lemma cwp_cfg tid w0 it Φ :
  (∀ w, ⌜alloc_rely tid w0 w⌝ -∗ Φ cfg w it) ⊢ cwp tid (gets cfg_of) w0 it Φ.
Proof.
  iIntros "HΦ". iApply cwp_gets. iIntros (w H) "[%Hr %HH] (%C & %Hpure & HC)".
  pose proof Hpure as (Hc&_). iSplitR "HΦ"; [iExists C; by iFrame|]. rewrite Hc. by iApply "HΦ".
Qed.
End protocol.
