(* ===== verification/SharedStats.v ===== *)
(** The counters under concurrent updates: every thread's additions arrive, whatever
    the others do in between, and the compare-exchange loop of the peak ends. *)

From stdpp Require Import gmap.
From iris.proofmode Require Import proofmode.
From S2P Require Import Prelude.
From S2P Require Import HeapProp.
From S2P Require Import Memory.
From S2P Require Import Logic.
From S2P Require Import Prog.
From S2P Require Import Interleaving.
From S2P Require Import StatisticsCollector.
From S2P Require Import Config.
From S2P Require Import DebugLayer.
From S2P Require Import AllocatorImpl.
From S2P Require Import SmallTier.
From S2P Require Import RawAlloc.
From S2P Require Import AllocatorInv.
From S2P Require Import SharedInv.

Section stats.
Context `{HOS : !OS, HL : !OSLaws} (cfg : AllocatorConfig).
Implicit Types (w : AllocatorImpl) (it : item).
#[local] Existing Instance alloc_protocol.
Notation cwp := (cwp (HP := alloc_protocol cfg)).

(** An action on the counters. *)
Lemma cwp_stats {A} tid (f : StatisticsCollector → cmd (A * StatisticsCollector)) w0 it Φ :
  (∀ w H, ⌜alloc_rely tid w0 w ∧ H !! inl tid = Some it ∧ stats_match (get_stats w) H⌝ -∗
     wp (f (get_stats w)) (λ r, ∃ sums,
       ⌜stats_match r.2 (<[inl tid := MkItem (i_caps it) sums]> H) ∧
        peakUsage_ (get_stats w) ≤ peakUsage_ r.2⌝ ∗
       Φ r.1 (set_stats w r.2) (MkItem (i_caps it) sums))) ⊢
  cwp tid (in_stats (act f)) w0 it Φ.
Proof.
  iIntros "Hf" (w H) "[%Hr %HH] (%C & (%Hc & %Hd & %Hst & %Hreg) & HC)".
  iApply wp_bind. iApply (wp_wand with "(Hf [//])"). iIntros ([x s]) "(%sums & [%Hs %Hp] & HΦ)".
  iApply wp_ret. cbn [fst snd] in *. iExists (MkItem (i_caps it) sums). iFrame "HΦ". iSplit.
  - iPureIntro. intros t _. split_and!; [done|done|exact Hp].
  - iExists C. iFrame "HC". iPureIntro. split_and!; [exact Hc|exact Hd|exact Hs|].
    eapply registered_step; [done|done|constructor].
Qed.

(** Adding [v] to counter [c] moves one measure of the thread. *)
Lemma cwp_add tid c q sg v f w0 it Φ :
  moves c = Some (q, sg) → (∀ s, f s = set_counter c (wrap64 (get_counter c s + v)) s) →
  (∀ w, Φ () w (MkItem (i_caps it) (bump q (sg * v) (i_sum it)))) ⊢ cwp tid (in_stats (modify f)) w0 it Φ.
Proof.
  intros Hm Hf. iIntros "HΦ". iApply cwp_stats. iIntros (w H (Hr&HH&Hin&Hs)). iApply wp_ret.
  iExists (bump q (sg * v) (i_sum it)). iSplit; [|by iApply "HΦ"]. cbn [fst snd].
  destruct (measured_add c v q sg (get_stats w) Hm) as [Hq Hq']. rewrite Hf. iPureIntro. split; [split|].
  - intros c'. rewrite get_set_counter. case_decide; [apply wrap64_range|apply Hin].
  - intros q'. rewrite (tally_update q' H _ it) //. cbn [i_sum]. unfold bump. case_decide as Hd.
    + subst q'. rewrite Hq -(wrap64_add (measured q _)) Hs wrap64_add. f_equal. lia.
    + rewrite Hq' // Hs. f_equal. lia.
  - destruct (get_stats w), c; simplify_eq/=; lia.
Qed.
Lemma cwp_load tid c w0 it Φ :
  (∀ w, ⌜alloc_rely tid w0 w ∧ in64 (get_counter c (get_stats w))⌝ -∗ Φ (get_counter c (get_stats w)) w it) ⊢
  cwp tid (in_stats (atomic_load c)) w0 it Φ.
Proof.
  iIntros "HΦ". iApply cwp_stats. iIntros (w H (Hr&HH&Hin&Hs)). iApply wp_ret.
  iExists (i_sum it). cbn [fst snd]. rewrite lens_set_get. destruct it as [D f].
  iSplit; [|iApply "HΦ"; by iPureIntro; split; [|apply Hin]].
  iPureIntro. cbn [i_caps i_sum]. rewrite insert_id //.
Qed.

(** The peak: each turn of the loop that does not end it has seen a larger peak. *)
Lemma cwp_peak_loop tid fuel current peak w0 it Φ :
  0 ≤ peak ≤ peak_of w0 → current < W64 → W64 - peak ≤ Z.of_nat fuel →
  (∀ w, Φ () w it) ⊢ cwp tid (in_stats (updatePeak_loop fuel current peak)) w0 it Φ.
Proof.
  intros Hp Hc. destruct it as [D sums]. revert peak w0 Hp. induction fuel as [|fuel IH]; intros peak w0 Hp Hf; cbn [updatePeak_loop].
  all: iIntros "HΦ"; destruct (Z.ltb_spec peak current) as [Hlt|Hge]; [|by iApply cwp_ret].
  { lia. }
  iApply (cwp_zoom_bind get_stats set_stats). iApply cwp_stats.
  iIntros (w H ((_&_&Hpw)&HH&Hin&Hs)). unfold peak_of in *.
  change (get_counter PeakUsage (get_stats w)) with (peakUsage_ (get_stats w)).
  destruct (Z.eqb_spec (peakUsage_ (get_stats w)) peak) as [E|E]; iApply wp_ret; iExists sums;
    cbn [fst snd i_caps]; rewrite insert_id //.
  - iSplit; [iPureIntro; split; [split|]|by iApply cwp_ret].
    + intros c'. rewrite get_set_counter. case_decide; [unfold in64; lia|apply Hin].
    + intros q. rewrite -Hs. by destruct (get_stats w), q.
    + destruct (get_stats w). simpl in *. lia.
  - iSplit; [by iPureIntro|]. cbv iota. rewrite lens_set_get. pose proof (Hin PeakUsage) as Hpk. simpl in Hpk. unfold in64 in Hpk.
    iApply IH; [unfold peak_of; lia|lia|done].
Qed.

(** ** The two records *)
Definition share (requested reserved : Z) (q : measure) : Z :=
  match q with Count | Active => 1 | Bytes | Requested => requested | Reserved => reserved end.

Lemma cwp_recordAllocation tid fuel requested reserved w0 it Φ :
  W64 ≤ Z.of_nat fuel →
  (∀ w it', ⌜i_caps it' = i_caps it ∧ ∀ q, i_sum it' q = (i_sum it q + share requested reserved q)%Z⌝ -∗ Φ () w it') ⊢
  cwp tid (in_stats (recordAllocation fuel requested reserved)) w0 it Φ.
Proof.
  intros Hf. iIntros "HΦ". unfold recordAllocation, in_stats.
  iApply cwp_zoom_bind. iApply (cwp_add tid AllocationCount); [done|done|]. iIntros (w1).
  iApply cwp_zoom_bind. iApply (cwp_add tid AllocatedBytes); [done|done|]. iIntros (w2).
  iApply cwp_zoom_bind. iApply (cwp_add tid LiveRequested); [done|done|]. iIntros (w3).
  iApply cwp_zoom_bind. iApply (cwp_add tid LiveReserved); [done|done|]. iIntros (w4).
  iApply cwp_zoom_bind. iApply (cwp_add tid ActiveAllocations); [done|done|]. iIntros (w5).
  iApply cwp_zoom_bind. iApply cwp_load. iIntros (w6 [_ Hcur]).
  iApply cwp_zoom_bind. iApply cwp_load. iIntros (w7 [_ Hpk]).
  iApply cwp_peak_loop; [unfold in64, peak_of in *; simpl in *; lia|apply Hcur|unfold in64 in *; lia|].
  iIntros (w). iApply "HΦ". iPureIntro. cbn [i_caps i_sum]. split; [done|].
  intros q. unfold bump, share.
  destruct q; repeat case_decide; try congruence; lia.
Qed.
Lemma cwp_recordFree tid requested reserved w0 it Φ :
  (∀ w it', ⌜i_caps it' = i_caps it ∧ ∀ q, i_sum it' q = (i_sum it q - share requested reserved q)%Z⌝ -∗ Φ () w it') ⊢
  cwp tid (in_stats (recordFree requested reserved)) w0 it Φ.
Proof.
  iIntros "HΦ". unfold recordFree, in_stats.
  iApply cwp_zoom_bind. iApply (cwp_add tid FreeCount); [done|done|]. iIntros (w1).
  iApply cwp_zoom_bind. iApply (cwp_add tid FreedBytes); [done|done|]. iIntros (w2).
  iApply cwp_zoom_bind. iApply (cwp_add tid LiveRequested _ _ (- requested)); [done|intros s; by rewrite Z.add_opp_r|]. iIntros (w3).
  iApply cwp_zoom_bind. iApply (cwp_add tid LiveReserved _ _ (- reserved)); [done|intros s; by rewrite Z.add_opp_r|]. iIntros (w4).
  iApply (cwp_add tid ActiveAllocations _ _ (-1)); [done|done|]. iIntros (w5).
  iApply "HΦ". iPureIntro. cbn [i_caps i_sum]. split; [done|]. intros q. unfold bump, share.
  destruct q; repeat case_decide; try congruence; lia.
Qed.
End stats.
