(* ===== verification/SharedRaw.v ===== *)
(** The tier dispatch under concurrency: [rawAllocate] and [rawDeallocate], action by
    action, against the protocol of [SharedInv]. *)

From stdpp Require Import gmap.
From iris.proofmode Require Import proofmode.
From S2P Require Import Prelude.
From S2P Require Import HeapProp.
From S2P Require Import Memory.
From S2P Require Import Logic.
From S2P Require Import BlockHeader.
From S2P Require Import SystemMemory.
From S2P Require Import SizeClassTable.
From S2P Require Import Prog.
From S2P Require Import Interleaving.
From S2P Require Import PoolAllocator.
From S2P Require Import ThreadCache.
From S2P Require Import LargeAllocator.
From S2P Require Import SegmentHeap.
From S2P Require Import Config.
From S2P Require Import Tiers.
From S2P Require Import AllocatorImpl.
From S2P Require Import SmallTier.
From S2P Require Import RawAlloc.
From S2P Require Import AllocatorInv.
From S2P Require Import SharedInv.

Section raw.
Context `{HOS : !OS, HL : !OSLaws} (cfg : AllocatorConfig).
Implicit Types (w : AllocatorImpl) (it : item) (C : caps).
#[local] Existing Instance alloc_protocol.
Notation cwp := (cwp (HP := alloc_protocol cfg)).

(** ** The small tier *)
Lemma raw_small_acc w C :
  raw_inv w C ⊢ small_inv w ∗ (∀ w', ⌜same_small w w'⌝ -∗ small_inv w' -∗ raw_inv w' C).
Proof.
  iIntros "($ & H1 & H2)" (w' (_&Hs&Hl)) "Hsm". unfold raw_inv. rewrite Hs Hl. iFrame.
Qed.
Lemma small_tier_step tid w w' : small_step tid w w' → tier_step tid w w'.
Proof. by intros [[? _] ?]. Qed.
Lemma has_cache_later tid w w' : alloc_rely tid w w' → has_cache tid w → has_cache tid w'.
Proof. intros (Hs&Ht&_) (t&?&?). exists t. by rewrite Ht Hs. Qed.

Lemma cwp_threadCache tid w0 it Φ :
  (∀ ok w, ⌜ok = true → has_cache tid w⌝ -∗ Φ ok w it) ⊢ cwp tid (threadCache tid) w0 it Φ.
Proof.
  iIntros "HΦ". iApply cwp_tier_same. iIntros (w C _) "HC".
  iDestruct (raw_small_acc with "HC") as "[Hsm HC]". iApply wpp_threadCache. iFrame "Hsm".
  iIntros (ok w' [Hst Hok]) "Hsm". iSplit; [iPureIntro; by apply small_tier_step|].
  iSplitL "HC Hsm"; [iApply ("HC" with "[%] Hsm"); apply Hst|by iApply "HΦ"].
Qed.
Lemma cwp_take_small (ok : bool) tid c w0 it Φ :
  (ok = true → has_cache tid w0) → 0 ≤ c < kClassCount →
  (∀ b w, pool_block c b -∗ Φ b w it) ⊢
  cwp tid (if ok then cache_allocateBlock tid c
           else in_pools (act (λ p, PoolAllocator.allocateBlock p c))) w0 it Φ.
Proof.
  intros Hok Hc. iIntros "HΦ".
  assert (Atomic (if ok then cache_allocateBlock tid c
    else in_pools (act (λ p, PoolAllocator.allocateBlock p c)))) by (destruct ok; apply _).
  iApply cwp_tier_same. iIntros (w C [Hr _]) "HC". iDestruct (raw_small_acc with "HC") as "[Hsm HC]".
  iApply wpp_take_small; [intros ?; by eapply has_cache_later, Hok|done|]. iFrame "Hsm".
  iIntros (b w' Hst) "Hsm Hb". iSplit; [iPureIntro; by apply small_tier_step|].
  iSplitL "HC Hsm"; [iApply ("HC" with "[%] Hsm"); apply Hst|by iApply "HΦ"].
Qed.
Lemma cwp_give_small (ok : bool) tid c stride b v w0 it Φ :
  (ok = true → has_cache tid w0) → 0 ≤ c < kClassCount → blockStride c = Some stride →
  b ↦64 v ∗ free_body stride b ∗ (∀ w, Φ () w it) ⊢
  cwp tid (if ok then cache_freeBlock tid c b
           else in_pools (act_ (λ p, PoolAllocator.freeBlock p c b))) w0 it Φ.
Proof.
  intros Hok Hc Hs. iIntros "(Hb & Hbody & HΦ)".
  assert (Atomic (if ok then cache_freeBlock tid c b
    else in_pools (act_ (λ p, PoolAllocator.freeBlock p c b)))) by (destruct ok; apply _).
  iApply cwp_tier_same. iIntros (w C [Hr _]) "HC". iDestruct (raw_small_acc with "HC") as "[Hsm HC]".
  iApply wpp_give_small; [intros ?; by eapply has_cache_later, Hok|done|done|]. iFrame "Hsm Hb".
  iIntros (w' Hst) "Hsm". iSplit; [iPureIntro; by apply small_tier_step|].
  iSplitR "HΦ"; [|by iApply "HΦ"]. iApply ("HC" with "[%]"); [apply Hst|by iApply "Hsm"].
Qed.
Lemma cwp_thread_exit tid w0 it Φ :
  (∀ w, Φ () w it) ⊢ cwp tid (thread_exit tid) w0 it Φ.
Proof.
  iIntros "HΦ". iApply cwp_tier_same. iIntros (w C [Hr _]) "HC".
  iDestruct (raw_small_acc with "HC") as "[Hsm HC]". iApply wpp_thread_exit. iFrame "Hsm".
  iIntros (w' [Hst Htls]) "Hsm". iSplit.
  - iPureIntro. split; [apply Hst|]. intros t Ht. by rewrite Htls lookup_delete_ne.
  - iSplitR "HΦ"; [|by iApply "HΦ"]. by iApply ("HC" with "[%] Hsm").
Qed.

(** ** The payload tiers *)

(** How one of them sits in the allocator, and what a thread gets from it. *)
Class SharedTier {S} `{!PayloadTier S} (get : AllocatorImpl → S) (set : AllocatorImpl → S → AllocatorImpl)
    (lg : bool) := {
  st_lens :: Lens get set;
  st_acc w C : raw_inv w C ⊢ pt_inv (get w) (cap_of lg C) ∗
    (∀ s M, pt_inv s M -∗ raw_inv (set w s) (cap_set lg M C));
  st_step tid w s : tier_step tid w (set w s);
  st_capacity p : Atomic (zoom get set (pt_capacity p));
  st_release p : Atomic (zoom get set (pt_release p));
  st_allocate tid bytes w0 it Φ :
    0 < bytes ≤ pt_limit →
    (∀ p w D, ((⌜p = 0 ∧ D = i_caps it ∧ os_refused⌝) ∨
       ∃ cap, ⌜0 < p ∧ p mod 16 = 0 ∧ bytes ≤ cap ∧ D = cap_put lg p cap (i_caps it)⌝ ∗ raw p cap) -∗
       Φ p w (MkItem D (i_sum it))) ⊢
    cwp tid (zoom get set (pt_allocate bytes)) w0 it Φ
}.

Lemma medium_acc w C :
  raw_inv w C ⊢ pt_inv (get_segments w) (cap_of false C) ∗
    (∀ s M, pt_inv s M -∗ raw_inv (set_segments w s) (cap_set false M C)).
Proof. iIntros "($ & $ & H)" (s M) "$". iFrame. Qed.
Lemma large_acc w C :
  raw_inv w C ⊢ pt_inv (get_large w) (cap_of true C) ∗
    (∀ s M, pt_inv s M -∗ raw_inv (set_large w s) (cap_set true M C)).
Proof. iIntros "($ & H & $)" (s M) "$". iFrame. Qed.

(** A payload that [pt_allocate] hands out in one action. *)
Lemma cwp_medium_allocate tid bytes w0 it Φ :
  0 < bytes ≤ pt_limit (S := SegmentHeap) →
  (∀ p w D, ((⌜p = 0 ∧ D = i_caps it ∧ os_refused⌝) ∨
     ∃ cap, ⌜0 < p ∧ p mod 16 = 0 ∧ bytes ≤ cap ∧ D = cap_put false p cap (i_caps it)⌝ ∗ raw p cap) -∗
     Φ p w (MkItem D (i_sum it))) ⊢
  cwp tid (in_segments (pt_allocate bytes)) w0 it Φ.
Proof.
  intros Hb. iIntros "HΦ". iApply cwp_tier. iIntros (w C _ _) "HC".
  iDestruct (medium_acc with "HC") as "[Hm HC]". iApply wpp_zoom. iApply pt_allocate_spec; [done|].
  iFrame "Hm". iIntros (p h) "[[[-> %Hr] Hm]|(%cap & (%Hn & %Hp & %Hal & %Hcap) & Hm & Hraw)]".
  - iExists C, (i_caps it). iDestruct ("HC" with "Hm") as "HC". iSplit; [iPureIntro; split; [done|constructor]|].
    iSplitL "HC"; [by destruct C|]. iApply "HΦ". by iLeft.
  - iExists (cap_put false p cap C), (cap_put false p cap (i_caps it)).
    iDestruct ("HC" with "Hm") as "HC". iSplit; [iPureIntro; split; [done|by constructor]|]. iFrame "HC".
    iApply "HΦ". iRight. iExists cap. by iFrame.
Qed.
(** The large tier maps first and registers later. *)
Lemma cwp_large_allocate tid bytes w0 it Φ :
  0 < bytes ≤ pt_limit (S := LargeAllocator) →
  (∀ p w D, ((⌜p = 0 ∧ D = i_caps it ∧ os_refused⌝) ∨
     ∃ cap, ⌜0 < p ∧ p mod 16 = 0 ∧ bytes ≤ cap ∧ D = cap_put true p cap (i_caps it)⌝ ∗ raw p cap) -∗
     Φ p w (MkItem D (i_sum it))) ⊢
  cwp tid (in_large (pt_allocate bytes)) w0 it Φ.
Proof.
  intros Hb. pose proof os_page_bounds as [? _]. cbn [pt_limit large_tier pt_allocate] in *.
  iIntros "HΦ". iApply cwp_zoom_bind. unfold kPayloadOffset.
  rewrite add64_small; [|unfold in64; rewrite W64_eq; lia].
  iApply cwp_tier_same. iIntros (w C _) "HC". iApply wpp_zoom. iApply wpp_io. iApply wp_bind.
  iApply wp_map; [lia|rewrite W64_eq; lia|]. iIntros (r) "Hr". iApply wp_ret. rewrite lens_set_get.
  iSplit; [done|]. iFrame "HC". destruct (roundToPages_bounds (bytes + 16)) as [? _]; [lia|rewrite W64_eq; lia|].
  iDestruct "Hr" as "[[-> %Href]|[[%Hr %Hsz] Hr]]".
  { cbn [valid region_ data negb]. iApply cwp_ret. destruct it. iApply "HΦ". by iLeft. }
  pose proof Hr as (?&?&?&?&?). unfold valid. cbn [region_]. rewrite (proj2 (Z.eqb_neq _ 0)); [|lia]. cbn [negb].
  rewrite raw_intro length_replicate Z2Nat.id; [|lia].
  rewrite (raw_take (data r) 16 (SystemMemory.size r)); [|lia]. iDestruct "Hr" as "[Hres Hraw]".
  iApply cwp_zoom_bind. iApply cwp_tier. iIntros (w' C' _ _) "HC".
  iDestruct (large_acc with "HC") as "[[Hl %HC'] HC]".
  iDestruct (large_inv_fresh _ (Mapped r) with "[$Hl $Hres]") as %Hfresh.
  unfold region_data, kPayloadOffset in Hfresh. cbn [region_] in Hfresh.
  iApply wpp_zoom. iApply wpp_act1. unfold emplace, region_data. cbn [region_]. rewrite Hfresh.
  iApply wp_ret. cbn [fst snd]. set (p := data r + 16).
  iExists (cap_put true p (SystemMemory.size r - 16) C'), (cap_put true p (SystemMemory.size r - 16) (i_caps it)).
  iSplit; [iPureIntro; split; [done|constructor; rewrite HC' lookup_fmap Hfresh //]|].
  iSplitL "Hl Hres HC".
  - iApply ("HC" $! (MkLarge (<[p := Mapped r]> (regions_ (get_large w')))) (<[p := SystemMemory.size r - 16]> (cap_of true C'))).
    iSplit; [|iPureIntro; cbn [regions_]; by rewrite fmap_insert HC'].
    unfold large_inv. cbn [regions_]. rewrite big_sepM_insert //. iFrame "Hl".
    iSplit; [|iExact "Hres"]. iPureIntro. unfold region_data, region_size, kPayloadOffset. cbn [region_].
    split_and!; [done|done|lia].
  - iApply cwp_ret. iApply "HΦ". iRight. iExists (SystemMemory.size r - 16). iFrame "Hraw". iPureIntro.
    unfold p. split_and!; [lia| |lia|done]. rewrite -Zplus_mod_idemp_l (page_mod_16 (data r)) //.
Qed.
#[export] Instance medium_shared : SharedTier get_segments set_segments false.
Proof.
  split; [apply _|apply medium_acc|done|intros; apply _|intros; apply _|apply cwp_medium_allocate].
Qed.
#[export] Instance large_shared : SharedTier get_large set_large true.
Proof.
  split; [apply _|apply large_acc|done|intros; apply _|intros; apply _|apply cwp_large_allocate].
Qed.

Lemma cwp_capacity {S} `{HPT : !PayloadTier S} get set lg `{!SharedTier get set lg} tid p cap w0 it Φ :
  cap_of lg (i_caps it) !! p = Some cap →
  (∀ w, Φ cap w it) ⊢ cwp tid (zoom get set (pt_capacity p)) w0 it Φ.
Proof.
  intros Hp. iIntros "HΦ". pose proof (st_capacity (get := get) (set := set) p).
  iApply cwp_tier. iIntros (w C _ Hsub) "HC". iDestruct (st_acc with "HC") as "[Hm HC]".
  iApply wpp_zoom. iApply pt_capacity_spec; [by apply Hsub|]. iFrame "Hm". iIntros "Hm".
  iExists C, (i_caps it). rewrite lens_set_get. iSplit; [iPureIntro; split; [done|constructor]|].
  destruct it. iSplitL "HC Hm"; [|by iApply "HΦ"]. iDestruct ("HC" with "Hm") as "HC".
  rewrite lens_set_get. by destruct C, lg.
Qed.
Lemma cwp_release {S} `{HPT : !PayloadTier S} get set lg `{!SharedTier get set lg} tid p cap w0 it Φ :
  cap_of lg (i_caps it) !! p = Some cap → 16 ≤ cap →
  raw p cap ∗ (∀ w, Φ pt_known w (MkItem (cap_del lg p (i_caps it)) (i_sum it))) ⊢
  cwp tid (zoom get set (pt_release p)) w0 it Φ.
Proof.
  intros Hp Hcap. iIntros "[Hraw HΦ]". pose proof (st_release (get := get) (set := set) p).
  iApply cwp_tier. iIntros (w C _ Hsub) "HC". iDestruct (st_acc with "HC") as "[Hm HC]".
  rewrite (raw_take p 16); [|lia]. iDestruct "Hraw" as "[Hh Hraw]".
  iApply wpp_zoom. iApply (pt_release_spec _ _ p cap (raw p 16)); [by apply Hsub|done|done|].
  iFrame "Hm Hh Hraw". iIntros (s) "Hm". iExists (cap_del lg p C), (cap_del lg p (i_caps it)).
  iSplit; [iPureIntro; split; [apply st_step|constructor; by exists cap]|].
  iSplitR "HΦ"; [|by iApply "HΦ"]. iApply "HC". iDestruct "Hm" as "[[Hh Hm]|Hm]"; [by iApply "Hm"|done].
Qed.

(** ** rawAllocate *)
Definition raw_got (size : Z) it (res : expected RawAllocation) (it' : item) : heapPropI :=
  match res with
  | inr e => ⌜e = OutOfMemory ∧ os_refused ∧ it' = it⌝
  | inl ra => ∃ b, ⌜base_wf (user ra) b ∧ b_size b = size ∧ reserved ra = b_reserved b ∧
                    it' = MkItem (add_cap (user ra) b (i_caps it)) (i_sum it)⌝ ∗
      base_header (user ra) b kStateAllocated ∗ raw (user ra) (b_total b)
  end.

Lemma cwp_rawAllocate_small tid size w0 it Φ :
  0 < size ≤ kSmallMax →
  (∀ res w it', raw_got size it res it' -∗ Φ res w it') ⊢ cwp tid (rawAllocate_small tid size) w0 it Φ.
Proof.
  intros Hs. destruct (classIndex_spec size) as (c&csz&Hc&Hcs&_&Hcr&Hcb&_&_); [lia|].
  destruct (blockStride_spec c Hcr) as (stride&sz&Hst&Hsz&_&?&?). simplify_eq.
  iIntros "HΦ". iApply cwp_bind. iApply cwp_io. iApply wp_expect; [done|]. iIntros (w1 _).
  iApply cwp_bind. iApply cwp_threadCache. iIntros (ok w2 Hok).
  iApply cwp_bind. iApply cwp_take_small; [done|done|]. iIntros (b w3) "Hb".
  iDestruct "Hb" as "[[-> %Href]|(%st & [%Hne %Hst'] & %Hal & Hb)]".
  { iApply cwp_ret. iApply "HΦ". by iPureIntro. }
  simplify_eq. rewrite (proj2 (Z.eqb_neq b 0)) //.
  assert (headerOf (userPointerOf b) = b) as Hhdr by (unfold headerOf, userPointerOf, kHeaderSize; lia).
  iDestruct (raw_range with "Hb") as %[??]; [lia|].
  rewrite (raw_take b 16); [|lia]. iDestruct "Hb" as "[Hh Hb]". rewrite Hhdr.
  iApply cwp_bind. iApply cwp_io. iApply wp_write_header; [done|unfold kSmallMax, in64 in *; rewrite W64_eq; lia|done|].
  iFrame "Hh". iIntros "Hh" (w4 _). iApply cwp_bind. iApply cwp_io. iApply wp_expect; [done|]. iIntros (w5 _).
  iApply cwp_ret. iApply "HΦ". iExists (MkBase size Small csz (stride - 16)).
  unfold base_header, add_cap. cbn [b_size b_tier b_total b_reserved user reserved]. rewrite Hhdr. iFrame "Hh Hb".
  iPureIntro. split_and!; [|done|done|by destruct it]. unfold base_wf, userPointerOf, kHeaderSize in *; simpl.
  split_and!; try lia; [align_lia|]. exists c, stride. split_and!; [apply Hs|done..].
Qed.
Lemma cwp_rawAllocate_payload {S} `{HPT : !PayloadTier S} get set lg `{!SharedTier get set lg}
    tid tier size w0 it Φ :
  0 < size ∧ size + 16 ≤ pt_limit → size < 2 ^ 62 →
  (∀ res w it', match res with
    | inr e => ⌜e = OutOfMemory ∧ os_refused ∧ it' = it⌝
    | inl ra => ∃ total, ⌜0 < user ra ∧ user ra mod 16 = 0 ∧ size ≤ total ∧ reserved ra = total ∧
          it' = MkItem (cap_put lg (headerOf (user ra)) (total + 16)%Z (i_caps it)) (i_sum it)⌝ ∗
        header_at (headerOf (user ra)) size (tier_code tier) kStateAllocated 0 ∗ raw (user ra) total
    end -∗ Φ res w it') ⊢
  cwp tid (rawAllocate_payload get set tier size) w0 it Φ.
Proof.
  intros Hs Hlt. iIntros "HΦ". unfold rawAllocate_payload, kHeaderSize.
  iApply cwp_bind. rewrite add64_small; [|unfold in64; rewrite W64_eq; lia].
  iApply st_allocate; [lia|].
  iIntros (p w1 D) "[(-> & -> & %Href)|(%cap & (%Hp & %Hm & %Hcap & ->) & Hp)]".
  { iApply cwp_ret. iApply "HΦ". iPureIntro. split_and!; [done|done|by destruct it]. }
  rewrite (proj2 (Z.eqb_neq p 0)); [|lia].
  assert (headerOf (userPointerOf p) = p) as Hhdr by (unfold headerOf, userPointerOf, kHeaderSize; lia).
  iDestruct (raw_range with "Hp") as %[??]; [lia|].
  rewrite (raw_take p 16); [|lia]. iDestruct "Hp" as "[Hh Hp]". rewrite Hhdr.
  iApply cwp_bind. iApply cwp_io. iApply wp_write_header; [done|unfold in64; rewrite W64_eq; lia|done|].
  iFrame "Hh". iIntros "Hh" (w2 _).
  iApply cwp_bind. iApply (cwp_capacity _ _ lg _ _ cap).
  { cbn [i_caps]. unfold cap_put. rewrite cap_of_set eqb_reflx. apply lookup_insert_eq. }
  iIntros (w3). iApply cwp_ret. rewrite sub64_small; [|unfold in64; lia].
  iApply "HΦ". iExists (cap - 16). cbn [user reserved]. rewrite Hhdr. iFrame "Hh Hp".
  replace (cap - 16 + 16) with cap by lia. iPureIntro.
  unfold userPointerOf, kHeaderSize. split_and!; [lia|align_lia|lia|done|done].
Qed.
Lemma add_cap_payload r b C (lg : bool) :
  b_tier b = (if lg then Large else Medium) →
  add_cap r b C = cap_put lg (headerOf r) (b_total b + kHeaderSize) C.
Proof using. intros Hb. unfold add_cap, cap_put. rewrite Hb. by destruct lg, C. Qed.
Lemma del_cap_payload r b C (lg : bool) :
  b_tier b = (if lg then Large else Medium) → del_cap r b C = cap_del lg (headerOf r) C.
Proof using. intros Hb. unfold del_cap, cap_del. rewrite Hb. by destruct lg, C. Qed.

Lemma cwp_rawAllocate tid size w0 it Φ :
  0 < size ≤ 2 ^ 47 →
  (∀ res w it', raw_got size it res it' -∗ Φ res w it') ⊢ cwp tid (rawAllocate tid size) w0 it Φ.
Proof.
  intros Hs. unfold rawAllocate.
  destruct (Z.leb_spec size kSmallMax); [apply cwp_rawAllocate_small; lia|].
  iIntros "HΦ". destruct (Z.leb_spec size kMediumMax) as [Hmx|Hmx].
  - rewrite rawAllocate_medium_eq. iApply (cwp_rawAllocate_payload _ _ false).
    { unfold kMediumMax in Hmx. simpl. unfold kSegmentSize. lia. } { lia. }
    iIntros ([ra|e] w it') "H"; iApply "HΦ"; [|done].
    iDestruct "H" as (total (?&?&?&?&->)) "(Hh & Hp)". iExists (MkBase size Medium total total).
    rewrite (add_cap_payload _ _ _ false) //. unfold base_header. cbn [b_size b_tier b_total b_reserved].
    iFrame. iPureIntro. split_and!; try done. unfold base_wf; simpl. split_and!; try done; lia.
  - rewrite rawAllocate_large_eq. iApply (cwp_rawAllocate_payload _ _ true).
    { simpl. lia. } { lia. }
    iIntros ([ra|e] w it') "H"; iApply "HΦ"; [|done].
    iDestruct "H" as (total (?&?&?&?&->)) "(Hh & Hp)". iExists (MkBase size Large total total).
    rewrite (add_cap_payload _ _ _ true) //. unfold base_header. cbn [b_size b_tier b_total b_reserved].
    iFrame. iPureIntro. split_and!; try done. unfold base_wf; simpl. split_and!; try done; lia.
Qed.

(** ** rawDeallocate *)
Lemma cwp_rawDeallocate_small tid r b st w0 it Φ :
  base_wf r b → b_tier b = Small →
  base_header r b st ∗ raw r (b_total b) ∗ (∀ w, Φ (inl (b_reserved b)) w it) ⊢
  cwp tid (rawDeallocate_small tid r) w0 it Φ.
Proof.
  intros (Hr&Hm&Hsz&_&Hti) Ht. rewrite Ht in Hti. destruct Hti as (c&stride&Hle&Hc&Hst&Htot&Hcs).
  destruct (classIndex_spec (b_size b)) as (c'&csz&Hc'&_&_&Hcr&_); [unfold kSmallMax in *; lia|]. simplify_eq.
  iIntros "(Hh & Hp & HΦ)". unfold base_header.
  iApply cwp_bind. iApply cwp_io. iApply wp_load_payloadSize. iFrame "Hh". iIntros "Hh" (w1 _).
  iApply cwp_bind. iApply cwp_io. iApply wp_expect; [done|]. iIntros (w2 _).
  iApply cwp_bind. iApply cwp_io. iApply wp_store_state; [done|]. iFrame "Hh". iIntros "Hh" (w3 _).
  iApply cwp_bind. iApply cwp_threadCache. iIntros (ok w4 Hok).
  iAssert ⌜headerOf r mod 16 = 0⌝%I as %Hhm; [by iDestruct "Hh" as "[% _]"|].
  iDestruct (header_tail with "[$Hh $Hp]") as "(Hw & Ht & Htail)";
    [lia|unfold headerOf, kHeaderSize; lia|].
  iApply cwp_bind. iApply cwp_give_small; [done|done|done|]. iFrame "Hw". iSplitL "Ht Htail".
  { iSplit; [done|]. rewrite Htot. unfold kHeaderSize.
    replace (stride - 8) with (8 + (stride - 16)) by lia. by iApply "Htail". }
  iIntros (w5). iApply cwp_bind. iApply cwp_io. iApply wp_expect; [done|]. iIntros (w6 _). by iApply cwp_ret.
Qed.
Lemma cwp_rawDeallocate tid r b st w0 it Φ :
  base_wf r b → known r b (i_caps it) →
  base_header r b st ∗ raw r (b_total b) ∗
  (∀ w, Φ (inl (b_reserved b)) w (MkItem (del_cap r b (i_caps it)) (i_sum it))) ⊢
  cwp tid (rawDeallocate tid r) w0 it Φ.
Proof.
  intros Hwf Hkn. iIntros "(Hh & Hp & HΦ)". iApply cwp_bind. iApply cwp_io.
  iApply wp_load_tier. iFrame "Hh". iIntros "Hh" (w1 _). pose proof Hwf as (Hr&Hm&Hsz&_&Hti).
  assert (headerOf r + 16 = r) as Hr16 by (unfold headerOf, kHeaderSize; lia).
  iDestruct (raw_range with "Hp") as %[_ Hend]; [lia|].
  iDestruct (header_range with "Hh") as %[Hh0 _].
  assert (b_total b + 16 - 16 = b_total b) as Hsub by lia.
  destruct (b_tier b) eqn:Ht; cbn [tierValue tier_code]; try done.
  - iApply (cwp_rawDeallocate_small _ _ b st); [done|done|]. unfold base_header. rewrite Ht. iFrame "Hh Hp".
    unfold del_cap. rewrite Ht. by destruct it.
  - rewrite (del_cap_payload _ _ _ false) //. unfold known in Hkn. rewrite Ht in Hkn.
    iApply cwp_bind. iApply cwp_io. iApply wp_store_state; [done|]. iFrame "Hh". iIntros "Hh" (w2 _).
    rewrite header_raw. iApply cwp_bind. iApply (cwp_capacity (HPT := medium_tier) _ _ false); [done|]. iIntros (w3).
    iApply cwp_bind. iApply (cwp_release (HPT := medium_tier) _ _ false); [done|unfold kHeaderSize; lia|].
    iSplitL "Hh Hp"; [iApply (raw_take _ 16); [unfold kHeaderSize; lia|]; rewrite Hr16; unfold kHeaderSize; rewrite Hsub; iFrame|].
    iIntros (w4). iApply cwp_ret. unfold kHeaderSize. rewrite sub64_small; [|unfold in64; lia].
    by rewrite Hsub (proj2 Hti).
  - rewrite (del_cap_payload _ _ _ true) //. unfold known in Hkn. rewrite Ht in Hkn.
    rewrite header_raw. iApply cwp_bind. iApply (cwp_capacity (HPT := large_tier) _ _ true); [done|]. iIntros (w3).
    iApply cwp_bind. iApply (cwp_release (HPT := large_tier) _ _ true); [done|unfold kHeaderSize; lia|].
    iSplitL "Hh Hp"; [iApply (raw_take _ 16); [unfold kHeaderSize; lia|]; rewrite Hr16; unfold kHeaderSize; rewrite Hsub; iFrame|].
    iIntros (w4). cbn [pt_known large_tier negb]. iApply cwp_ret. unfold kHeaderSize.
    rewrite sub64_small; [|unfold in64; lia]. by rewrite Hsub (proj2 Hti).
Qed.
End raw.
