(* ===== verification/Allocate.v ===== *)
(** The allocator, allocation: [allocate] and [alignedAllocate] against the
    invariant of [AllocatorInv]. *)

From stdpp Require Import gmap.
From iris.proofmode Require Import proofmode.
From S2P Require Import Prelude.
From S2P Require Import HeapProp.
From S2P Require Import Memory.
From S2P Require Import Logic.
From S2P Require Import BlockHeader.
From S2P Require Import Prog.
From S2P Require Import StatisticsCollector.
From S2P Require Import Config.
From S2P Require Import DebugLayer.
From S2P Require Import Tiers.
From S2P Require Import AllocatorImpl.
From S2P Require Import SmallTier.
From S2P Require Import RawAlloc.
From S2P Require Import AllocatorInv.

Section alloc.
Context `{HOS : !OS, HL : !OSLaws}.
Implicit Types (w : AllocatorImpl) (L : gmap Z alloc) (a : alloc) (u : Z).

Lemma wpp_run {S A} (p : prog S A) s x s' Φ :
  (∀ m, run p s m = Ok (x, s') m) → Φ x s' ⊢ wpp p s Φ.
Proof.
  intros Hp. iIntros "H". iApply (wp_ext (mret (x, s'))); [intros m; by rewrite Hp|].
  by iApply (wp_ret (x, s') (λ r, Φ r.1 r.2)).
Qed.

(** ** report *)
Definition add_report (w : AllocatorImpl) (e : Error) (ptr : Z) : AllocatorImpl :=
  set_reports w (MkReport e ptr (errorHandler (cfg_of w)) :: reports w).
Lemma wpp_report e ptr w Φ :
  abortOnError (cfg_of w) = false → Φ () (add_report w e ptr) ⊢ wpp (report e ptr) w Φ.
Proof.
  intros Hab. iIntros "H". iApply wpp_act1. rewrite Hab.
  by iApply (wp_ret ((), _) (λ r, Φ r.1 r.2)).
Qed.
Lemma wpp_fail {A} e ptr w Φ :
  abortOnError (cfg_of w) = false → Φ (inr e) (add_report w e ptr) ⊢ wpp (fail (A := A) e ptr) w Φ.
Proof.
  intros Hab. iIntros "H". iApply wpp_bind. iApply wpp_report; [done|]. by iApply wpp_ret.
Qed.
Lemma impl_inv_report w L e ptr : impl_inv w L ⊢ impl_inv (add_report w e ptr) L.
Proof. done. Qed.
Lemma impl_inv_same w w' L C :
  same_rest w w' → live_ok L → caps_ok C L → stats_ok (get_stats w) L →
  tracking_ok (cfg_of w) (AllocatorImpl.debug_ w) L →
  raw_inv w' C ∗ ([∗ map] u ↦ a ∈ L, live_res u a) ⊢ impl_inv w' L.
Proof.
  intros (Hc&Hst&Hd&_&_) ????. iIntros "[HI HL]". iExists C. rewrite Hc Hst Hd. by iFrame.
Qed.

(** ** The bookkeeping of a successful allocation *)
Definition alloc_debug (w : AllocatorImpl) (u size : Z) : DebugLayer :=
  if enableLeakTracking (cfg_of w)
  then MkDebug (<[u := size]> (live_ (AllocatorImpl.debug_ w))) (freed_ (AllocatorImpl.debug_ w) ∖ {[ u ]})
         (throws_ (AllocatorImpl.debug_ w))
  else AllocatorImpl.debug_ w.
(** The state after an allocation, up to the tiers. *)
Definition allocated (w w' : AllocatorImpl) (u size reserved : Z) : Prop :=
  cfg_of w' = cfg_of w ∧ get_stats w' = stats_alloc size reserved (get_stats w) ∧
  AllocatorImpl.debug_ w' = alloc_debug w u size ∧ self_ w' = self_ w ∧ reports w' = reports w.
(** The bytes the client receives. *)
Definition fresh_bytes (cfg : AllocatorConfig) (n : Z) (bs : list byte) : Prop :=
  Z.of_nat (length bs) = n ∧
  (enablePoisoning cfg = true → bs = replicate (Z.to_nat n) kAllocPoison).

Lemma raw_inv_set_stats w s C : raw_inv (set_stats w s) C ⊣⊢ raw_inv w C.
Proof. done. Qed.
Lemma raw_inv_set_debug w d C : raw_inv (set_debug w d) C ⊣⊢ raw_inv w C.
Proof. done. Qed.

Lemma wpp_finish_allocate fuel w0 w L C u a Φ :
  same_rest w0 w → live_ok L → caps_ok C L → stats_ok (get_stats w0) L →
  tracking_ok (cfg_of w0) (AllocatorImpl.debug_ w0) L → alloc_wf u a →
  raw_inv w (add_cap (a_raw a) (a_base a) C) ∗ live_res u a ∗ raw u (a_size a) ∗
  ([∗ map] u ↦ a ∈ L, live_res u a) ∗
  (∀ w' bs, ⌜allocated w0 w' u (a_size a) (a_reserved a) ∧ fresh_bytes (cfg_of w0) (a_size a) bs ∧
             L !! u = None⌝ -∗
     impl_inv w' (<[u := a]> L) -∗ u ↦∗ bs -∗ Φ (inl u) w') ⊢
  wpp (finish_allocate (S fuel) (cfg_of w0) u (a_size a) (a_reserved a)) w Φ.
Proof.
  intros (Hc&Hs&Hd&Hse&Hr) Hlive Hcaps Hstats Htr Hwf. iIntros "(HI & Ha & Hu & HL & HΦ)".
  iDestruct (live_fresh with "[$Ha $HL]") as %Hfresh; [done|done|].
  iDestruct (live_bases L _ (a_base a) kStateAllocated with "[Ha $HL]") as %Hbases; [by iDestruct "Ha" as "[$ _]"|].
  iApply wpp_bind.
  iApply (wpp_wand _ _ (λ _ w', ∃ bs, ⌜w' = w ∧ fresh_bytes (cfg_of w0) (a_size a) bs⌝ ∗ u ↦∗ bs)%I with "[Hu]").
  { unfold fresh_bytes. destruct (enablePoisoning (cfg_of w0)).
    - iApply wpp_io. iDestruct (raw_nonneg with "Hu") as %?. iApply wp_memset_raw. iFrame "Hu". iIntros "Hu".
      iExists _. iFrame "Hu". iPureIntro. split_and!; [done|rewrite length_replicate; lia|done].
    - iApply wpp_ret. iDestruct "Hu" as (bs Hbs) "Hu". iExists bs. by iFrame. }
  iIntros (? w') "(%bs & [-> %Hbs] & Hu)". iApply wpp_bind. iApply wpp_zoom.
  iApply wpp_run; [intros m; apply run_recordAllocation|]. iApply wpp_bind.
  set (w1 := set_stats w (stats_alloc (a_size a) (a_reserved a) (get_stats w))).
  iApply (wpp_wand _ _ (λ _ w', ⌜w' = set_debug w1 (alloc_debug w0 u (a_size a))⌝)%I with "[]").
  { unfold alloc_debug. destruct (enableLeakTracking (cfg_of w0)) eqn:Hlk.
    - iApply wpp_zoom. iApply wpp_modify. iPureIntro.
      change (AllocatorImpl.debug_ w1) with (AllocatorImpl.debug_ w). rewrite Hd.
      by rewrite (track_tables_ok (cfg_of w0) _ L).
    - iApply wpp_ret. iPureIntro. rewrite -Hd. unfold w1, set_debug, set_stats, set_central. by destruct w. }
  iIntros (? w') "->". iApply wpp_ret. iApply ("HΦ" $! _ bs with "[%] [HI Ha HL] Hu").
  - split; [|by split]. unfold allocated. rewrite -Hs. by split_and!.
  - iExists (add_cap (a_raw a) (a_base a) C). iFrame "HI". rewrite big_sepM_insert //. iFrame.
    iPureIntro. split_and!.
    + intros u' a' [[<- <-]|[_ ?]]%lookup_insert_Some; [done|by apply Hlive].
    + by apply caps_ok_alloc.
    + change (stats_ok (stats_alloc (a_size a) (a_reserved a) (get_stats w)) (<[u:=a]> L)).
      rewrite Hs. by apply stats_ok_alloc.
    + change (tracking_ok (cfg_of w) (alloc_debug w0 u (a_size a)) (<[u:=a]> L)).
      rewrite Hc. by apply tracking_ok_alloc.
Qed.

(** ** A block, cut into what the client gets and what the allocator keeps *)
Lemma base_wf_pos r b : base_wf r b → 0 < r ∧ r mod 16 = 0 ∧ 0 < b_size b ≤ b_total b.
Proof using. by intros (?&?&?&_). Qed.

Lemma plain_block r b :
  base_wf r b → b_size b ≤ kMaxRequest →
  base_header r b kStateAllocated ∗ raw r (b_total b) ⊢
  ⌜alloc_wf r (MkAlloc r b (b_size b) Plain)⌝ ∗ live_res r (MkAlloc r b (b_size b) Plain) ∗ raw r (b_size b).
Proof using.
  intros Hwf Hmax. pose proof (base_wf_pos _ _ Hwf) as Hp. iIntros "[Hh Hr]".
  rewrite (raw_take r (b_size b) (b_total b)); [|lia]. iDestruct "Hr" as "[$ Hslack]".
  iSplit; [iPureIntro; unfold alloc_wf; cbn [a_raw a_base a_size a_shim]; split_and!; try done; lia|]. unfold live_res; simpl. iFrame.
Qed.
Lemma wp_guarded_block r b n Q :
  base_wf r b → b_size b = n + 64 → 0 < n ≤ kMaxRequest →
  base_header r b kStateAllocated ∗ raw r (b_total b) ∗
  (⌜alloc_wf (r + 32) (MkAlloc r b n Guarded) ∧ (r + 32) mod 16 = 0⌝ -∗
   live_res (r + 32) (MkAlloc r b n Guarded) -∗ raw (r + 32) n -∗
   guard_res (r + 32) (MkAlloc r b n Guarded) front_guard rear_guard -∗ Q (r + 32)) ⊢
  wp (applyGuards r n) Q.
Proof.
  intros Hwf Hsz Hn. destruct (base_wf_pos _ _ Hwf) as (?&?&?).
  assert (alloc_wf (r + 32) (MkAlloc r b n Guarded)) as Hawf by (unfold alloc_wf; cbn [a_raw a_base a_size a_shim]; split_and!; try done; lia).
  change kMaxRequest with (2 ^ 46) in Hn. iIntros "(Hh & Hr & HQ)".
  rewrite (raw_take r (n + 64) (b_total b)); [|lia]. iDestruct "Hr" as "[Hr Hslack]".
  iApply wp_applyGuards; [done|lia|unfold in64; rewrite W64_eq; lia|]. iFrame "Hr".
  iIntros (u ->) "Hguards Hshim Hu". iApply ("HQ" with "[%] [Hh Hshim Hslack] Hu Hguards").
  { split; [done|align_lia]. }
  unfold live_res; simpl. iFrame "Hh". unfold headerOf, kHeaderSize. iFrame "Hshim".
  replace (r + 32 + n + 32) with (r + (n + 64)) by lia.
  by replace (b_total b - n - 64) with (b_total b - (n + 64)) by lia.
Qed.

(** ** allocate *)

(** The state after a request that failed: only the diagnostic is new. *)
Definition failed (w w' : AllocatorImpl) (e : Error) (ptr : Z) : Prop :=
  cfg_of w' = cfg_of w ∧ get_stats w' = get_stats w ∧
  AllocatorImpl.debug_ w' = AllocatorImpl.debug_ w ∧ self_ w' = self_ w ∧
  reports w' = MkReport e ptr (errorHandler (cfg_of w)) :: reports w.
Lemma failed_report w w' e ptr : same_rest w w' → failed w (add_report w' e ptr) e ptr.
Proof using. intros (Hc&?&?&?&Hr). unfold failed, add_report. cbn [reports set_reports]. rewrite Hc Hr. by split_and!. Qed.

Definition request (size : Z) : Z := if size =? 0 then 1 else size.
Lemma request_pos n : in64 n → 0 < request n.
Proof using. intros [? _]. unfold request. destruct (Z.eqb_spec n 0); lia. Qed.
Definition alloc_error (e : Error) (n : Z) : Prop :=
  (e = SizeOverflow ∧ kMaxRequest < n) ∨ (e = OutOfMemory ∧ n ≤ kMaxRequest ∧ os_refused).
(** What a request for [n] bytes aligned to [align] gives: an allocation of a new
    pointer, or one of the two errors. *)
Definition alloc_post w L (n align : Z) (sh : shim) (res : expected Z) (w' : AllocatorImpl) : heapPropI :=
  match res with
  | inr e => ⌜alloc_error e n ∧ failed w w' e 0⌝ ∗ impl_inv w' L
  | inl u => ∃ a bs,
      ⌜L !! u = None ∧ alloc_wf u a ∧ a_size a = n ∧ a_shim a = sh ∧ u mod align = 0 ∧
       allocated w w' u n (a_reserved a) ∧ fresh_bytes (cfg_of w) n bs⌝ ∗
      impl_inv w' (<[u := a]> L) ∗ u ↦∗ bs ∗ guard_res u a front_guard rear_guard
  end.
Definition default_shim (cfg : AllocatorConfig) : shim := if enableGuardBytes cfg then Guarded else Plain.

Lemma wpp_allocate fuel tid size w L Φ :
  in64 size → abortOnError (cfg_of w) = false →
  impl_inv w L ∗
  (∀ res w', alloc_post w L (request size) 16 (default_shim (cfg_of w)) res w' -∗ Φ res w') ⊢
  wpp (allocate (S fuel) tid size) w Φ.
Proof.
  intros Hsz Hab. iIntros "[(%C & (%Hlive & %Hcaps & %Hst & %Htr) & HI & HL) HΦ]".
  unfold allocate. fold (request size). set (n := request size).
  assert (0 < n) by (unfold n, request; destruct (Z.eqb_spec size 0); unfold in64 in *; lia).
  destruct (Z.ltb_spec kMaxRequest n) as [Hbig|Hfit].
  { iApply wpp_fail; [done|]. iApply "HΦ". iSplit.
    - iPureIntro. split; [by left|]. by apply failed_report.
    - iApply impl_inv_report. iExists C. by iFrame. }
  assert (kMaxRequest = 2 ^ 46) as Hmax by done.
  iApply wpp_bind. iApply wpp_gets. unfold default_shim. destruct (enableGuardBytes (cfg_of w)) eqn:Hg.
  - assert (guardedSize n = n + 64) as ->.
    { unfold guardedSize, kFrontGuardSize, kRearGuardSize.
      rewrite (add64_small n); [|unfold in64; rewrite W64_eq; lia].
      rewrite add64_small; [lia|unfold in64; rewrite W64_eq; lia]. }
    iApply wpp_bind. iApply wpp_rawAllocate; [lia|]. iFrame "HI".
    iIntros ([[r rsv]|e] w1 Hw1) "H".
    + iDestruct "H" as (b (Hwf&Hbs&Hrsv)) "(HI & Hh & Hr)". cbn [user reserved] in *. subst rsv.
      iApply wpp_bind. iApply wpp_io. iApply (wp_guarded_block r b n); [done|done|lia|]. iFrame "Hh Hr".
      iIntros ([Hawf Hm]) "Hl Hu Hg".
      iApply (wpp_finish_allocate fuel w w1 L C (r + 32) (MkAlloc r b n Guarded)); try done. iFrame "HI Hu HL Hl".
      iIntros (w' bs (?&?&?)) "HI Hu". iApply "HΦ". iExists _, bs. iFrame "HI Hu Hg". by iPureIntro.
    + iDestruct "H" as "[[-> %Href] HI]". iApply wpp_fail; [by destruct Hw1 as [-> _]|]. iApply "HΦ". iSplit.
      * iPureIntro. split; [by right|]. by apply failed_report.
      * iApply impl_inv_report. by iApply (impl_inv_same with "[$HI $HL]").
  - iApply wpp_bind. iApply wpp_rawAllocate; [lia|]. iFrame "HI".
    iIntros ([[r rsv]|e] w1 Hw1) "H".
    + iDestruct "H" as (b (Hwf&Hbs&Hrsv)) "(HI & Hh & Hr)". cbn [user reserved] in *. subst rsv.
      iDestruct (plain_block r b with "[$Hh $Hr]") as (Hawf) "[Hl Hu]"; [done|lia|]. rewrite Hbs in Hawf |- *.
      iApply (wpp_finish_allocate fuel w w1 L C r (MkAlloc r b n Plain)); try done. iFrame "HI Hu HL Hl".
      iIntros (w' bs (?&?&?)) "HI Hu". iApply "HΦ". iExists _, bs. iFrame "HI Hu".
      iPureIntro. split_and!; try done. apply Hwf.
    + iDestruct "H" as "[[-> %Href] HI]". iApply wpp_fail; [by destruct Hw1 as [-> _]|]. iApply "HΦ". iSplit.
      * iPureIntro. split; [by right|]. by apply failed_report.
      * iApply impl_inv_report. by iApply (impl_inv_same with "[$HI $HL]").
Qed.

(** ** alignedAllocate *)
Lemma alloc_post_align w L n j k sh res w' :
  0 ≤ j ≤ k → alloc_post w L n (2 ^ k) sh res w' ⊢ alloc_post w L n (2 ^ j) sh res w'.
Proof using.
  intros Hjk. destruct res as [u|e]; [|done]. simpl.
  iIntros "(%a & %bs & (%&%&%&%&%Hm&%&%) & H)". iExists a, bs. iFrame. iPureIntro.
  split_and!; try done. by eapply mod_pow2_le.
Qed.

Definition valid_alignment (alignment : Z) : Prop := ∃ k, 0 ≤ k ≤ 30 ∧ alignment = 2 ^ k.
Lemma alignment_check alignment :
  in64 alignment →
  negb (isPowerOfTwo alignment) || (kMaxAlignment <? alignment) = false ↔ valid_alignment alignment.
Proof using.
  intros Hin. rewrite orb_false_iff negb_false_iff isPowerOfTwo_true // Z.ltb_ge.
  change kMaxAlignment with (2 ^ 30). split.
  - intros [(k&Hk&->) Hle]. exists k. split; [|done]. apply Z.pow_le_mono_r_iff in Hle; lia.
  - intros (k&Hk&->). split; [exists k; split; [lia|done]|]. apply Z.pow_le_mono_r; lia.
Qed.

(** The address inside the block: the next multiple of the alignment, one further
    when the block is aligned already. *)
Lemma aligned_address r k :
  0 ≤ k ≤ 30 → 0 < r → r + 2 ^ k < W64 →
  let up := alignUp r (2 ^ k) in
  let u := if up =? r then up +₆₄ 2 ^ k else up in
  r < u ≤ r + 2 ^ k ∧ u mod 2 ^ k = 0 ∧ u -₆₄ r = u - r.
Proof using.
  intros Hk Hr Hend up u. pose proof (pow2_bounds k).
  destruct (alignUp_bounds r k) as [Hb Hm]; [lia|lia|lia|]. fold up in Hb, Hm.
  unfold u. destruct (Z.eqb_spec up r) as [E|E].
  - rewrite add64_small; [|unfold in64; lia]. split_and!; [lia|lia| |apply sub64_small; unfold in64; lia].
    rewrite -Zplus_mod_idemp_r Z.mod_same; [|lia]. by rewrite Z.add_0_r.
  - split_and!; [lia|lia|done|apply sub64_small; unfold in64; lia].
Qed.

Lemma wp_aligned_block r b n k Q :
  base_wf r b → 4 < k ≤ 30 → b_size b = n + 2 ^ k → 0 < n ≤ kMaxRequest →
  let up := alignUp r (2 ^ k) in
  let u := if up =? r then up +₆₄ 2 ^ k else up in
  base_header r b kStateAllocated ∗ raw r (b_total b) ∗
  (⌜alloc_wf u (MkAlloc r b n Aligned) ∧ u mod 2 ^ k = 0⌝ -∗
   live_res u (MkAlloc r b n Aligned) -∗ raw u n -∗ Q ()) ⊢
  wp (write_header (headerOf u) n AlignedShim ((u -₆₄ r) mod 2 ^ 32)) Q.
Proof.
  intros Hwf Hk Hsz Hn up u. pose proof Hwf as (?&Hrm&?&?&_).
  assert (2 ^ k ≤ 2 ^ 30) as Hpow by (apply Z.pow_le_mono_r; lia). change kMaxRequest with (2 ^ 46) in Hn.
  iIntros "(Hh & Hr & HQ)". iDestruct (raw_range with "Hr") as %[_ Hend]; [lia|].
  assert (r < u ≤ r + 2 ^ k ∧ u mod 2 ^ k = 0 ∧ u -₆₄ r = u - r) as (Hu&Hum&Hoff)
    by (apply aligned_address; lia).
  clearbody u. clear up.
  assert (u mod 16 = 0) as Hu16 by (change 16 with (2 ^ 4); by apply (mod_pow2_le _ _ k); [lia|]).
  assert (r + 16 ≤ u) by (clear -Hu Hu16 Hrm; align_lia).
  rewrite Hoff (Z.mod_small (u - r)); [|lia].
  rewrite (raw_take r (headerOf u - r)); [|unfold headerOf, kHeaderSize; lia]. iDestruct "Hr" as "[Hgap Hr]".
  replace (r + (headerOf u - r)) with (headerOf u) by lia.
  rewrite (raw_take (headerOf u) 16); [|unfold headerOf, kHeaderSize; lia]. iDestruct "Hr" as "[Hsh Hr]".
  replace (headerOf u + 16) with u by (unfold headerOf, kHeaderSize; lia).
  rewrite (raw_take u n); [|unfold headerOf, kHeaderSize; lia]. iDestruct "Hr" as "[Hu Hslack]".
  iApply wp_write_header; [|unfold in64; rewrite W64_eq; lia|lia|].
  { unfold headerOf, kHeaderSize. clear -Hu16. align_lia. }
  iFrame "Hsh". iIntros "Hsh". iApply ("HQ" with "[%] [Hh Hgap Hsh Hslack] Hu").
  { split; [|done]. unfold alloc_wf; cbn [a_raw a_base a_size a_shim]. split_and!; try done; try lia; change kMaxRequest with (2 ^ 46); lia. }
  unfold live_res; simpl. iFrame "Hh Hgap Hsh".
  by replace (r + b_total b - (u + n)) with (b_total b - (headerOf u - r) - 16 - n)
    by (unfold headerOf, kHeaderSize; lia).
Qed.

Lemma wpp_alignedAllocate fuel tid alignment size w L Φ :
  in64 size → in64 alignment → abortOnError (cfg_of w) = false →
  impl_inv w L ∗
  (∀ res w',
    (⌜¬ valid_alignment alignment ∧ res = inr InvalidAlignment ∧ failed w w' InvalidAlignment 0⌝ ∗ impl_inv w' L) ∨
    (⌜valid_alignment alignment⌝ ∗
     alloc_post w L (request size) alignment
       (if alignment <=? kDefaultAlignment then default_shim (cfg_of w) else Aligned) res w') -∗ Φ res w') ⊢
  wpp (alignedAllocate (S fuel) tid alignment size) w Φ.
Proof.
  intros Hsz Hal Hab. iIntros "[HI HΦ]". unfold alignedAllocate.
  destruct (negb (isPowerOfTwo alignment) || (kMaxAlignment <? alignment)) eqn:Hchk.
  { iApply wpp_fail; [done|]. iApply "HΦ". iLeft. iSplit; [|by iApply impl_inv_report].
    iPureIntro. split_and!; [|done|by apply failed_report].
    intros Hv%(alignment_check _ Hal). congruence. }
  apply (alignment_check _ Hal) in Hchk as Hv. pose proof Hv as (k&Hk&->).
  destruct (Z.leb_spec (2 ^ k) kDefaultAlignment) as [Hsmall|Hbig].
  { iApply wpp_allocate; [done|done|]. iFrame "HI". iIntros (res w') "H". iApply "HΦ". iRight.
    iSplit; [done|]. change 16 with (2 ^ 4). iApply (alloc_post_align with "H"). split; [lia|].
    unfold kDefaultAlignment in Hsmall. change 16 with (2 ^ 4) in Hsmall.
    apply Z.pow_le_mono_r_iff in Hsmall; lia. }
  assert (4 < k) as Hk4.
  { unfold kDefaultAlignment in Hbig. change 16 with (2 ^ 4) in Hbig. apply Z.pow_lt_mono_r_iff in Hbig; lia. }
  assert (2 ^ k ≤ 2 ^ 30) as Hpow by (apply Z.pow_le_mono_r; lia).
  fold (request size). set (n := request size).
  assert (0 < n) by (unfold n, request; destruct (Z.eqb_spec size 0); unfold in64 in *; lia).
  iDestruct "HI" as "(%C & (%Hlive & %Hcaps & %Hst & %Htr) & HI & HL)".
  destruct (Z.ltb_spec kMaxRequest n) as [Hlarge|Hfit].
  { iApply wpp_fail; [done|]. iApply "HΦ". iRight. iSplit; [done|]. iSplit.
    - iPureIntro. split; [by left|]. by apply failed_report.
    - iApply impl_inv_report. iExists C. by iFrame. }
  change kMaxRequest with (2 ^ 46) in *.
  iApply wpp_bind. rewrite add64_small; [|unfold in64; rewrite W64_eq; lia].
  iApply wpp_rawAllocate; [lia|]. iFrame "HI". iIntros ([[r rsv]|e] w1 Hw1) "H".
  2: { iDestruct "H" as "[[-> %Href] HI]". iApply wpp_fail; [by destruct Hw1 as [-> _]|]. iApply "HΦ".
       iRight. iSplit; [done|]. iSplit.
       - iPureIntro. split; [by right|]. by apply failed_report.
       - iApply impl_inv_report. by iApply (impl_inv_same with "[$HI $HL]"). }
  iDestruct "H" as (b (Hwf&Hbs&Hrsv)) "(HI & Hh & Hr)". cbn [user reserved] in *. subst rsv.
  iApply wpp_bind. iApply wpp_io. iApply (wp_aligned_block r b n k); [done|lia|lia|change kMaxRequest with (2 ^ 46); lia|].
  iFrame "Hh Hr". iIntros ([Hawf Hum]) "Hl Hu". iApply wpp_bind. iApply wpp_gets.
  replace (cfg_of w1) with (cfg_of w) by (symmetry; apply Hw1).
  iApply (wpp_finish_allocate fuel w w1 L C _ (MkAlloc r b n Aligned)); try done. iFrame "HI Hu HL Hl".
  iIntros (w' bs (?&?&?)) "HI Hu". iApply "HΦ". iRight. iSplit; [done|]. iExists _, bs. iFrame "HI Hu".
  iSplit; [|done]. iPureIntro. by repeat (split; [done|]).
Qed.

(** ** Reading *)
Lemma wpp_statistics w L Φ :
  impl_inv w L ∗
  (∀ l, ⌜Forall (λ sz, SegmentHeap.kMinBlockSize ≤ sz) l⌝ -∗ impl_inv w L -∗
     Φ (stats_snapshot (SegmentStats.fragmentation l) (get_stats w)) w) ⊢
  wpp statistics w Φ.
Proof.
  iIntros "[(%C & %Hpure & (Hsm & Hmed & Hlar) & HL) HΦ]". iApply wpp_bind.
  iApply wpp_zoom. iApply wpp_query. cbn [pt_inv medium_tier].
  iApply SegmentStats.wp_externalFragmentation. iFrame "Hmed". iIntros (l Hl) "Hmed".
  rewrite lens_set_get. iApply wpp_zoom. iApply wpp_run; [intros m; apply run_snapshot|].
  rewrite lens_set_get. iApply ("HΦ" with "[//]"). iExists C. by iFrame.
Qed.
Lemma wpp_liveAllocationCount w L Φ :
  impl_inv w L ∗
  (impl_inv w L -∗ Φ (if enableLeakTracking (cfg_of w) then Z.of_nat (size L) else 0) w) ⊢
  wpp liveAllocationCount w Φ.
Proof.
  iIntros "[(%C & %Hpure & HI & HL) HΦ]". pose proof Hpure as (_&_&_&Htr).
  iDestruct ("HΦ" with "[HI HL]") as "HΦ"; [iExists C; by iFrame|].
  iApply wpp_zoom. iApply wpp_gets. rewrite lens_set_get. unfold tracking_ok in Htr.
  destruct (enableLeakTracking (cfg_of w)); destruct Htr as [-> _]; [by rewrite map_size_fmap|].
  by rewrite map_size_empty.
Qed.

(** [allocationSize] of a live pointer, of null, and of a pointer the tracking
    table does not know. *)
Lemma wpp_allocationSize u a w L Φ :
  L !! u = Some a → impl_inv w L ∗ (impl_inv w L -∗ Φ (a_size a) w) ⊢ wpp (allocationSize u) w Φ.
Proof.
  intros Ha. iIntros "[(%C & (%Hlive & %Hcaps & %Hst & %Htr) & HI & HL) HΦ]".
  iDestruct (big_sepM_lookup_acc with "HL") as "[Hl HL]"; [done|].
  iDestruct (live_header with "Hl") as "[Hh Hl]"; [by apply Hlive|].
  iDestruct (header_range with "Hh") as %[? _].
  unfold allocationSize. rewrite (proj2 (Z.eqb_neq u 0)); [|unfold headerOf, kHeaderSize in *; lia].
  iApply wpp_bind. iApply wpp_gets. iApply wpp_bind.
  iApply (wpp_wand _ _ (λ t w', ⌜t = true ∧ w' = w⌝)%I with "[]").
  { destruct (enableLeakTracking (cfg_of w)) eqn:E.
    - iApply wpp_zoom. iApply wpp_gets. rewrite lens_set_get (tracked_iff (cfg_of w) _ L) // bool_decide_eq_true_2 //.
    - by iApply wpp_ret. }
  iIntros (t w') "[-> ->]". cbn [negb].
  iApply wpp_bind. iApply wpp_io. iApply wp_load_tier. iFrame "Hh". iIntros "Hh".
  iApply wpp_bind. iApply wpp_io. iApply wp_load_state. iFrame "Hh". iIntros "Hh".
  assert (hasValidTier (tier_code (user_tier a)) = true) as -> by (by destruct (user_tier a)).
  rewrite Z.eqb_refl. cbn [negb orb]. iApply wpp_io. iApply wp_load_payloadSize. iFrame "Hh". iIntros "Hh".
  iApply "HΦ". iExists C. iFrame "HI". iSplit; [done|]. iApply "HL". by iApply "Hl".
Qed.
Lemma wpp_allocationSize_unknown u w L Φ :
  u = 0 ∨ (enableLeakTracking (cfg_of w) = true ∧ L !! u = None) →
  impl_inv w L ∗ (impl_inv w L -∗ Φ 0 w) ⊢ wpp (allocationSize u) w Φ.
Proof.
  intros Hu. iIntros "[(%C & %Hpure & HI & HL) HΦ]". pose proof Hpure as (_&_&_&Htr).
  iDestruct ("HΦ" with "[HI HL]") as "HΦ"; [iExists C; by iFrame|].
  unfold allocationSize. destruct (Z.eqb_spec u 0) as [|Hne]; [by iApply wpp_ret|].
  destruct Hu as [?|[Hc Hu]]; [done|].
  iApply wpp_bind. iApply wpp_gets. iApply wpp_bind. rewrite Hc. iApply wpp_zoom. iApply wpp_gets.
  rewrite lens_set_get (tracked_iff (cfg_of w) _ L) // bool_decide_eq_false_2; [|rewrite Hu; by intros []].
  by iApply wpp_ret.
Qed.
End alloc.
