(* ===== verification/Deallocate.v ===== *)
(** The allocator, deallocation: [deallocate] of a live pointer and of everything
    else, and [reallocate]. *)

From stdpp Require Import gmap.
From iris.proofmode Require Import proofmode.
From S2P Require Import Prelude.
From S2P Require Import HeapProp.
From S2P Require Import Memory.
From S2P Require Import Logic.
From S2P Require Import BlockHeader.
From S2P Require Import Prog.
From S2P Require Import StatisticsCollector.
From S2P Require Import Config.
From S2P Require Import DebugLayer.
From S2P Require Import Tiers.
From S2P Require Import AllocatorImpl.
From S2P Require Import SmallTier.
From S2P Require Import RawAlloc.
From S2P Require Import AllocatorInv.
From S2P Require Import Allocate.

(** The guards of [a] are checked and are not what [applyGuards] wrote. *)
Definition tampered (cfg : AllocatorConfig) (a : alloc) (front rear : list byte) : bool :=
  bool_decide (a_shim a = Guarded) && enableGuardBytes cfg &&
  negb (bool_decide (front = front_guard ∧ rear = rear_guard)).
Definition warned (w : AllocatorImpl) (a : alloc) (u : Z) (front rear : list byte) : AllocatorImpl :=
  if tampered (cfg_of w) a front rear then add_report w HeapCorruption u else w.

Section dealloc.
Context `{HOS : !OS, HL : !OSLaws}.
Implicit Types (w : AllocatorImpl) (L : gmap Z alloc) (a : alloc) (u : Z).

Lemma wpp_poison (b : bool) u n w Φ :
  raw u n ∗ (raw u n -∗ Φ () w) ⊢ wpp (if b then io (poisonOnFree u n) else mret ()) w Φ.
Proof.
  iIntros "[H HΦ]". destruct b; [|iApply wpp_ret; by iApply "HΦ"].
  iDestruct (raw_nonneg with "H") as %?. iApply wpp_io. iApply wp_memset_raw. iFrame "H". iIntros "H".
  iApply "HΦ". rewrite raw_intro length_replicate. by rewrite Z2Nat.id.
Qed.

(** The pieces of a block, put together again. *)
Lemma plain_total u n total : 0 ≤ n ≤ total → raw u n ∗ raw (u + n) (total - n) ⊢ raw u total.
Proof. intros. by rewrite -raw_take. Qed.
Lemma guarded_total r u n total :
  u = r + 32 → 0 ≤ n → n + 64 ≤ total →
  raw (u - 32) 16 ∗ raw (headerOf u) 16 ∗ raw u n ∗ raw (u + n) 32 ∗ raw (u + n + 32) (total - n - 64) ⊢
  raw r total.
Proof.
  intros -> Hn Ht. unfold headerOf, kHeaderSize. iIntros "(H1 & H2 & H3 & H4 & H5)".
  replace (r + 32 - 32) with r by lia. replace (r + 32 - 16) with (r + 16) by lia.
  iApply (raw_take r 16); [lia|]. iFrame "H1". iApply (raw_take (r + 16) 16); [lia|]. iFrame "H2".
  replace (r + 16 + 16) with (r + 32) by lia. iApply (raw_take (r + 32) n); [lia|]. iFrame "H3".
  iApply (raw_take (r + 32 + n) 32); [lia|]. iFrame "H4".
  by replace (total - 16 - 16 - n - 32) with (total - n - 64) by lia.
Qed.
Lemma aligned_total r u n total :
  r + 16 ≤ u → 0 ≤ n → u + n ≤ r + total →
  raw r (headerOf u - r) ∗ raw (headerOf u) 16 ∗ raw u n ∗ raw (u + n) (r + total - (u + n)) ⊢
  raw r total.
Proof.
  intros Hu Hn Ht. unfold headerOf, kHeaderSize. iIntros "(H1 & H2 & H3 & H4)".
  iApply (raw_take r (u - 16 - r)); [lia|]. iFrame "H1".
  replace (r + (u - 16 - r)) with (u - 16) by lia.
  iApply (raw_take (u - 16) 16); [lia|]. iFrame "H2". replace (u - 16 + 16) with u by lia.
  iApply (raw_take u n); [lia|]. iFrame "H3".
  by replace (total - (u - 16 - r) - 16 - n) with (r + total - (u + n)) by lia.
Qed.

Lemma wpp_free_by_tier tid u a front rear w L C Φ :
  alloc_wf u a → known (a_raw a) (a_base a) C →
  abortOnError (cfg_of w) = false ∨ tampered (cfg_of w) a front rear = false →
  raw_inv w C ∗ live_res u a ∗ raw u (a_size a) ∗ guard_res u a front rear ∗
  (∀ w', ⌜same_rest (warned w a u front rear) w'⌝ -∗ freed (a_raw a) (a_base a) C w' -∗
     Φ (inl (a_reserved a)) w') ⊢
  wpp (free_by_tier tid (cfg_of w) u (a_size a) (tierValue (tier_code (user_tier a)))) w Φ.
Proof.
  intros Hwf Hkn Hab. pose proof Hwf as (Hbwf&[Hn0 _]&Hsh). pose proof Hbwf as (?&?&?&?&Hbt).
  unfold live_res, guard_res, user_tier, warned, tampered in *. destruct (a_shim a).
  - destruct Hsh as [-> Hsz]. rewrite bool_decide_eq_false_2 //. cbn [andb].
    iIntros "(HI & [Hh Hslack] & Hu & _ & HΦ)". unfold free_by_tier.
    destruct (b_tier (a_base a)) eqn:Ht; cbn [tierValue tier_code]; try done;
      iApply wpp_bind; iApply wpp_poison; iFrame "Hu"; iIntros "Hu";
      (iApply wpp_rawDeallocate; [done|done|]); iFrame "HI Hh"; (iSplitL "Hu Hslack"; [|iExact "HΦ"]);
      (iApply plain_total; [|iFrame]; lia).
  - destruct Hsh as [Hu Hsz]. rewrite bool_decide_eq_true_2 //. cbn [andb].
    iIntros "(HI & (Hh & Hsh & Hslack) & Hu & Hg & HΦ)". cbn [free_by_tier tierValue tier_code].
    iApply wpp_bind.
    iApply (wpp_wand _ _ (λ ok w', ⌜w' = w ∧ ok = negb (enableGuardBytes (cfg_of w) &&
        negb (bool_decide (front = front_guard ∧ rear = rear_guard)))⌝ ∗ guards u (a_size a) front rear)%I with "[Hg]").
    { destruct (enableGuardBytes (cfg_of w)); cbn [andb].
      - iApply wpp_io. iApply wp_verifyGuards. iFrame "Hg". iIntros "$". by rewrite negb_involutive.
      - iApply wpp_ret. by iFrame. }
    iIntros (ok w') "[[-> ->] Hg]". rewrite negb_involutive. rewrite bool_decide_eq_true_2 // in Hab. cbn [andb] in Hab.
    iApply wpp_bind.
    set (tamp := enableGuardBytes (cfg_of w) && negb (bool_decide (front = front_guard ∧ rear = rear_guard))) in *.
    iApply (wpp_wand _ _ (λ _ w', ⌜w' = if tamp then add_report w HeapCorruption u else w⌝)%I with "[]").
    { destruct tamp; [|by iApply wpp_ret]. iApply wpp_report; [|done]. by destruct Hab. }
    iIntros (? w') "->". iApply wpp_bind. iApply wpp_poison. iFrame "Hu". iIntros "Hu".
    iApply wpp_bind. iApply wpp_io. iApply wp_store_state; [done|]. iFrame "Hsh". iIntros "Hsh".
    iApply wpp_bind. iApply wpp_io. iApply wp_load_offset. iFrame "Hsh". iIntros "Hsh".
    replace (u - 32) with (a_raw a) by lia.
    iApply (wpp_rawDeallocate _ _ (a_base a) kStateAllocated _ C); [done|done|].
    iSplitL "HI"; [by destruct tamp|]. iFrame "Hh". iSplitL "Hslack Hu Hsh Hg"; [|iExact "HΦ"].
    iDestruct (guards_raw with "Hg") as "[Hg1 Hg2]". rewrite header_raw.
    iApply (guarded_total _ u (a_size a)); [done|lia|lia|]. iFrame.
  - destruct Hsh as (Hu&_&Hend&_). rewrite bool_decide_eq_false_2 //. cbn [andb].
    iIntros "(HI & (Hh & Hgap & Hsh & Hslack) & Hu & _ & HΦ)". cbn [free_by_tier tierValue tier_code].
    iApply wpp_bind. iApply wpp_poison. iFrame "Hu". iIntros "Hu".
    iApply wpp_bind. iApply wpp_io. iApply wp_store_state; [done|]. iFrame "Hsh". iIntros "Hsh".
    iApply wpp_bind. iApply wpp_io. iApply wp_load_offset. iFrame "Hsh". iIntros "Hsh".
    replace (u - (u - a_raw a)) with (a_raw a) by lia.
    iApply (wpp_rawDeallocate _ _ (a_base a) kStateAllocated _ C); [done|done|].
    iFrame "HI Hh". iSplitL "Hslack Hu Hsh Hgap"; [|iExact "HΦ"]. rewrite header_raw.
    iApply (aligned_total _ u (a_size a)); [lia|lia|lia|]. iFrame.
Qed.

(** ** deallocate, for a live pointer *)
Definition free_debug (w : AllocatorImpl) (u : Z) : DebugLayer :=
  if enableLeakTracking (cfg_of w)
  then MkDebug (delete u (live_ (AllocatorImpl.debug_ w))) ({[ u ]} ∪ freed_ (AllocatorImpl.debug_ w))
         (throws_ (AllocatorImpl.debug_ w))
  else AllocatorImpl.debug_ w.
(** The state after a deallocation, up to the tiers. *)
Definition deallocated (w w' : AllocatorImpl) (u : Z) (a : alloc) (front rear : list byte) : Prop :=
  cfg_of w' = cfg_of w ∧ get_stats w' = stats_free (a_size a) (a_reserved a) (get_stats w) ∧
  AllocatorImpl.debug_ w' = free_debug w u ∧ self_ w' = self_ w ∧
  reports w' = reports (warned w a u front rear).
(** The block is back in the allocator; its header may still be there to be read. *)
Definition freed_inv (a : alloc) (w' : AllocatorImpl) (L' : gmap Z alloc) : heapPropI :=
  (freed_header (a_raw a) (a_base a) ∗ (freed_header (a_raw a) (a_base a) -∗ impl_inv w' L')) ∨
  (⌜b_tier (a_base a) ≠ Small⌝ ∗ impl_inv w' L').
Lemma freed_inv_done a w' L' : freed_inv a w' L' ⊢ impl_inv w' L'.
Proof. iIntros "[[Hh H]|[_ $]]". by iApply "H". Qed.

Lemma warned_rest w a u front rear :
  cfg_of (warned w a u front rear) = cfg_of w ∧ get_stats (warned w a u front rear) = get_stats w ∧
  AllocatorImpl.debug_ (warned w a u front rear) = AllocatorImpl.debug_ w ∧
  self_ (warned w a u front rear) = self_ w.
Proof using. unfold warned. by destruct (tampered _ _ _ _). Qed.

Lemma wpp_deallocate_checked tid u a front rear w L C Φ :
  live_ok L → caps_ok C L → stats_ok (get_stats w) L →
  tracking_ok (cfg_of w) (AllocatorImpl.debug_ w) L → L !! u = Some a →
  abortOnError (cfg_of w) = false ∨ tampered (cfg_of w) a front rear = false →
  raw_inv w C ∗ ([∗ map] u ↦ a ∈ L, live_res u a) ∗ raw u (a_size a) ∗ guard_res u a front rear ∗
  (∀ w', ⌜deallocated w w' u a front rear⌝ -∗ freed_inv a w' (delete u L) -∗ Φ (inl ()) w') ⊢
  wpp (deallocate_checked tid (cfg_of w) u) w Φ.
Proof.
  intros Hlive Hcaps Hst Htr Ha Hab. iIntros "(HI & HL & Hu & Hg & HΦ)".
  rewrite (big_sepM_delete _ L u a) //. iDestruct "HL" as "[Hl HL]".
  specialize (Hlive u a Ha) as Hwf.
  iDestruct (live_bases (delete u L) (a_raw a) (a_base a) kStateAllocated with "[Hl $HL]") as %Hbases;
    [by iDestruct "Hl" as "[$ _]"|].
  iDestruct (live_header with "Hl") as "[Hh Hl]"; [done|].
  iApply wpp_bind. iApply wpp_io. iApply wp_load_tier. iFrame "Hh". iIntros "Hh".
  iApply wpp_bind. iApply wpp_io. iApply wp_load_state. iFrame "Hh". iIntros "Hh".
  assert (hasValidTier (tier_code (user_tier a)) = true) as -> by (by destruct (user_tier a)).
  cbn [negb orb]. rewrite Z.eqb_refl. cbn [negb andb].
  assert ((kStateAllocated =? kStateFreed) = false) as -> by done.
  iApply wpp_bind. iApply wpp_io. iApply wp_load_payloadSize. iFrame "Hh". iIntros "Hh".
  iDestruct ("Hl" with "Hh") as "Hl". iApply wpp_bind.
  iApply (wpp_free_by_tier _ _ _ front rear w L C); [done|by apply (proj1 Hcaps u a Ha)|done|]. iFrame "HI Hl Hu Hg".
  iIntros (w1 (Hc&Hs&Hd&Hse&Hr)) "Hfreed".
  destruct (warned_rest w a u front rear) as (Wc&Ws&Wd&Wse). rewrite Wc in Hc. rewrite Ws in Hs.
  rewrite Wd in Hd. rewrite Wse in Hse.
  iApply wpp_bind. iApply wpp_zoom. iApply wpp_run; [intros m; apply run_recordFree|].
  iApply wpp_bind. set (w2 := set_stats w1 (stats_free (a_size a) (a_reserved a) (get_stats w1))).
  iApply (wpp_wand _ _ (λ _ w', ⌜w' = set_debug w2 (free_debug w u)⌝)%I with "[]").
  { unfold free_debug. destruct (enableLeakTracking (cfg_of w)) eqn:Hlk.
    - iApply wpp_bind. iApply wpp_zoom. iApply wpp_act1.
      change (AllocatorImpl.debug_ w2) with (AllocatorImpl.debug_ w1). rewrite Hd.
      rewrite (tracked_iff (cfg_of w) _ L) // bool_decide_eq_true_2 // (freed_insert_ok (cfg_of w) _ L) //.
      iApply wp_ret. cbn [fst snd]. iApply wpp_ret. done.
    - iApply wpp_ret. iPureIntro. rewrite -Hd. unfold w2, set_debug, set_stats, set_central. by destruct w1. }
  iIntros (? w') "->". iApply wpp_ret. iApply "HΦ".
  - iPureIntro. split_and!; try done. unfold w2. rewrite -Hs. done.
  - iAssert (∀ C', ⌜C' = del_cap (a_raw a) (a_base a) C⌝ -∗ raw_inv w1 C' -∗
      ([∗ map] u ↦ a ∈ delete u L, live_res u a) -∗
      impl_inv (set_debug w2 (free_debug w u)) (delete u L))%I as "Hclose".
    { iIntros (C' ->) "HI HL". iExists _. iFrame "HI HL". iPureIntro. split_and!.
      - intros u' a' [_ ?]%lookup_delete_Some. by apply Hlive.
      - by apply caps_ok_free.
      - change (stats_ok (stats_free (a_size a) (a_reserved a) (get_stats w1)) (delete u L)).
        rewrite Hs. by apply stats_ok_free.
      - change (tracking_ok (cfg_of w1) (free_debug w u) (delete u L)). rewrite Hc.
        by apply tracking_ok_free. }
    iDestruct "Hfreed" as "[[Hh Hf]|[% Hf]]".
    + iLeft. iFrame "Hh". iIntros "Hh". iApply ("Hclose" with "[//] [Hf Hh] HL"). by iApply "Hf".
    + iRight. iSplit; [done|]. by iApply ("Hclose" with "[//] Hf HL").
Qed.

Lemma wpp_deallocate tid u a front rear w L Φ :
  L !! u = Some a →
  abortOnError (cfg_of w) = false ∨ tampered (cfg_of w) a front rear = false →
  impl_inv w L ∗ raw u (a_size a) ∗ guard_res u a front rear ∗
  (∀ w', ⌜deallocated w w' u a front rear⌝ -∗ freed_inv a w' (delete u L) -∗ Φ (inl ()) w') ⊢
  wpp (deallocate tid u) w Φ.
Proof.
  intros Ha Hab. iIntros "((%C & (%Hlive & %Hcaps & %Hst & %Htr) & HI & HL) & Hu & Hg & HΦ)".
  iDestruct (raw_range with "Hu") as %[? _]; [by apply (Hlive u a Ha)|].
  unfold deallocate. rewrite (proj2 (Z.eqb_neq u 0)); [|lia].
  iApply wpp_bind. iApply wpp_gets. iApply wpp_bind.
  iApply (wpp_wand _ _ (λ t w', ⌜t = true ∧ w' = w⌝)%I with "[]").
  { destruct (enableLeakTracking (cfg_of w)) eqn:E.
    - iApply wpp_zoom. iApply wpp_gets.
      rewrite lens_set_get (tracked_iff (cfg_of w) _ L) // bool_decide_eq_true_2 //.
    - by iApply wpp_ret. }
  iIntros (t w') "[-> ->]". cbn [negb].
  iApply (wpp_deallocate_checked _ _ _ front rear w L C); try done. iFrame.
Qed.

(** ** deallocate, for anything else *)
Lemma wpp_deallocate_null tid w L Φ :
  impl_inv w L ∗ (impl_inv w L -∗ Φ (inl ()) w) ⊢ wpp (deallocate tid 0) w Φ.
Proof. iIntros "[HI HΦ]". iApply wpp_ret. by iApply "HΦ". Qed.

(** With tracking: the pointer is not live; no byte of memory is looked at. *)
Definition untracked_error (w : AllocatorImpl) (u : Z) : Error :=
  if bool_decide (u ∈ freed_ (AllocatorImpl.debug_ w)) then DoubleFree else InvalidPointer.
Lemma wpp_deallocate_untracked tid u w L Φ :
  u ≠ 0 → enableLeakTracking (cfg_of w) = true → L !! u = None → abortOnError (cfg_of w) = false →
  impl_inv w L ∗
  (impl_inv (add_report w (untracked_error w u) u) L -∗
   Φ (inr (untracked_error w u)) (add_report w (untracked_error w u) u)) ⊢
  wpp (deallocate tid u) w Φ.
Proof.
  intros Hu Hlk Hn Hab. iIntros "[HI HΦ]". iDestruct "HI" as "(%C & %Hpure & HI & HL)".
  pose proof Hpure as (_&_&_&Htr).
  unfold deallocate. rewrite (proj2 (Z.eqb_neq u 0)) //.
  iApply wpp_bind. iApply wpp_gets. iApply wpp_bind. rewrite Hlk. iApply wpp_zoom. iApply wpp_gets.
  rewrite lens_set_get (tracked_iff (cfg_of w) _ L) // bool_decide_eq_false_2; [|rewrite Hn; by intros []].
  cbn [negb]. iApply wpp_bind. iApply wpp_zoom. iApply wpp_gets. rewrite lens_set_get.
  assert ((if bool_decide (u ∈ freed_ (AllocatorImpl.debug_ w)) then DoubleFree else InvalidPointer) =
          untracked_error w u) as -> by done.
  iApply wpp_fail; [done|]. iApply "HΦ". iApply impl_inv_report. iExists C. by iFrame.
Qed.

(** Without tracking: what the sixteen bytes before the pointer say. *)
Definition header_error (tier state : Z) : option Error :=
  if negb (hasValidTier tier) || (negb (state =? kStateAllocated) && negb (state =? kStateFreed))
  then Some InvalidPointer
  else if state =? kStateFreed then Some DoubleFree else None.
Lemma wpp_deallocate_header tid u tier state e w L R Φ :
  0 < headerOf u → enableLeakTracking (cfg_of w) = false → abortOnError (cfg_of w) = false →
  header_error tier state = Some e →
  (headerOf u + 8)%Z ↦16 tier ∗ (headerOf u + 10)%Z ↦16 state ∗ R ∗
  ((headerOf u + 8)%Z ↦16 tier ∗ (headerOf u + 10)%Z ↦16 state ∗ R -∗ Φ (inr e) (add_report w e u)) ⊢
  wpp (deallocate tid u) w Φ.
Proof.
  intros Hu Hlk Hab He. iIntros "(Ht & Hs & HR & HΦ)".
  unfold deallocate. rewrite (proj2 (Z.eqb_neq u 0)); [|unfold headerOf, kHeaderSize in *; lia].
  iApply wpp_bind. iApply wpp_gets. iApply wpp_bind. rewrite Hlk. iApply wpp_ret. cbn [negb].
  iApply wpp_bind. iApply wpp_io. iApply wp_load. iFrame "Ht". iIntros "Ht".
  iApply wpp_bind. iApply wpp_io. iApply wp_load. iFrame "Hs". iIntros "Hs".
  iDestruct ("HΦ" with "[$Ht $Hs $HR]") as "HΦ". unfold header_error in He.
  destruct (negb (hasValidTier tier) || _); [simplify_eq; by iApply wpp_fail|].
  destruct (state =? kStateFreed); [simplify_eq; by iApply wpp_fail|done].
Qed.
Lemma impl_inv_live w L : impl_inv w L ⊢ ⌜live_ok L⌝.
Proof. by iIntros "(%C & (% & _) & _)". Qed.
Lemma impl_inv_header w L u a : L !! u = Some a → impl_inv w L ⊢ ⌜0 < headerOf u⌝.
Proof.
  intros Ha. iIntros "(%C & (%Hlive & _) & _ & HL)".
  iDestruct (big_sepM_lookup with "HL") as "Hl"; [done|].
  iDestruct (live_header with "Hl") as "[Hh _]"; [by apply Hlive|].
  iDestruct (header_range with "Hh") as %[? _]. done.
Qed.

(** Without tracking, a small block that is freed twice in a row: nothing has overwritten
    the state in its header. *)
Lemma small_tier u a : alloc_wf u a → a_shim a = Plain → a_size a ≤ kSmallMax → b_tier (a_base a) = Small ∧ u = a_raw a.
Proof using.
  intros ((_&_&_&_&Hti)&_&Hsh) Hp Hs. rewrite Hp in Hsh. destruct Hsh as [-> Hsz]. split; [|done].
  destruct (b_tier (a_base a)); try done; destruct Hti as [? _]; lia.
Qed.
Lemma wpp_deallocate_twice tid tid' u a w L Φ :
  L !! u = Some a → a_shim a = Plain → a_size a ≤ kSmallMax →
  enableLeakTracking (cfg_of w) = false → abortOnError (cfg_of w) = false →
  impl_inv w L ∗ raw u (a_size a) ∗
  (∀ w', ⌜reports w' = MkReport DoubleFree u (errorHandler (cfg_of w)) :: reports w⌝ -∗ impl_inv w' (delete u L) -∗
     Φ (inr DoubleFree) w') ⊢
  wpp (deallocate tid u) w (λ _ w1, wpp (deallocate tid' u) w1 Φ).
Proof.
  intros Ha Hsh Hs Hlk Hab. iIntros "(HI & Hu & HΦ)". iDestruct (impl_inv_live with "HI") as %Hlive.
  destruct (small_tier u a (Hlive u a Ha) Hsh Hs) as [Hti Hraw].
  iDestruct (impl_inv_header with "HI") as %Hpos; [done|].
  iApply (wpp_deallocate _ _ a [] [] w L); [done|by left|].
  unfold guard_res. rewrite Hsh. iFrame "HI Hu". iSplit; [done|]. iIntros (w' (Hc&_&_&_&Hr)) "HI".
  iDestruct "HI" as "[[Hfh HI]|[% _]]"; [|done]. iDestruct "Hfh" as (Hm) "[Ht Hs]". rewrite -Hraw Hti.
  iApply (wpp_deallocate_header tid' u (tier_code Small) kStateFreed DoubleFree w' L
    (freed_header (a_raw a) (a_base a) -∗ impl_inv w' (delete u L))%I);
    [done|by rewrite Hc|by rewrite Hc|done|].
  rewrite -Hraw. iFrame "Ht Hs HI". iIntros "(Ht & Hs & HI)". iApply "HΦ".
  - iPureIntro. cbn [reports add_report set_reports]. rewrite Hc Hr. unfold warned, tampered.
    by rewrite bool_decide_eq_false_2; [|by rewrite Hsh].
  - iApply impl_inv_report. iApply "HI". unfold freed_header. rewrite Hti. iFrame. by rewrite Hraw.
Qed.
(** ** reallocate *)

(** Copying the first [n] bytes of [bs] over those of [bs0]. *)
Lemma wp_memcpy_prefix dst src bs0 bs n Q :
  0 < n ≤ Z.of_nat (length bs0) → n ≤ Z.of_nat (length bs) →
  dst ↦∗ bs0 ∗ src ↦∗ bs ∗
  (∀ bs', ⌜length bs' = length bs0 ∧ take (Z.to_nat n) bs' = take (Z.to_nat n) bs⌝ -∗
     dst ↦∗ bs' -∗ src ↦∗ bs -∗ Q ()) ⊢
  wp (memcpy dst src n) Q.
Proof.
  intros Hn Hn'. iIntros "(Hd & Hs & HQ)".
  rewrite -{1}(take_drop (Z.to_nat n) bs0) -{1}(take_drop (Z.to_nat n) bs) !bytes_at_app.
  iDestruct "Hd" as "[Hd Hd']". iDestruct "Hs" as "[Hs Hs']".
  iApply (wp_memcpy dst src (take (Z.to_nat n) bs0) (take (Z.to_nat n) bs)); [lia|rewrite length_take; lia|rewrite length_take; lia|]. iFrame "Hd Hs". iIntros "Hd Hs".
  iApply ("HQ" $! (take (Z.to_nat n) bs ++ drop (Z.to_nat n) bs0) with "[%] [Hd Hd'] [Hs Hs']").
  - split; [rewrite length_app length_take length_drop; lia|].
    rewrite take_app_le; [|rewrite length_take; lia]. by rewrite take_take Nat.min_id.
  - rewrite bytes_at_app !length_take. iFrame "Hd".
    by replace (Z.to_nat n `min` length bs)%nat with (Z.to_nat n `min` length bs0)%nat by lia.
  - rewrite -{4}(take_drop (Z.to_nat n) bs) bytes_at_app. iFrame.
Qed.

Lemma wpp_reallocate fuel tid u a bs front rear newSize w L Φ :
  L !! u = Some a → Z.of_nat (length bs) = a_size a → in64 newSize → newSize ≠ 0 →
  abortOnError (cfg_of w) = false →
  impl_inv w L ∗ u ↦∗ bs ∗ guard_res u a front rear ∗
  ((∀ e w', ⌜alloc_error e newSize ∧ failed w w' e 0⌝ -∗
      impl_inv w' L -∗ u ↦∗ bs -∗ guard_res u a front rear -∗ Φ (inr e) w') ∧
   (∀ u' a' bs' w1 w', ⌜L !! u' = None ∧ alloc_wf u' a' ∧ a_size a' = newSize ∧
        a_shim a' = default_shim (cfg_of w) ∧ u' mod 16 = 0 ∧
        Z.of_nat (length bs') = newSize ∧
        take (Z.to_nat (Z.min (a_size a) newSize)) bs' = take (Z.to_nat (Z.min (a_size a) newSize)) bs ∧
        allocated w w1 u' newSize (a_reserved a') ∧ deallocated w1 w' u a front rear⌝ -∗
      impl_inv w' (delete u (<[u' := a']> L)) -∗ u' ↦∗ bs' -∗
      guard_res u' a' front_guard rear_guard -∗ Φ (inl u') w')) ⊢
  wpp (reallocate (S fuel) tid u newSize) w Φ.
Proof.
  intros Ha Hbs Hin Hnz Hab. iIntros "(HI & Hu & Hg & HΦ)".
  iAssert ⌜alloc_wf u a⌝%I as %Hwf.
  { iDestruct "HI" as (C (Hlive&_)) "_". iPureIntro. by apply Hlive. }
  pose proof Hwf as (_&[Hpos _]&_).
  iDestruct (bytes_at_range with "Hu") as %[Hu0 _]; [lia|].
  unfold reallocate. rewrite (proj2 (Z.eqb_neq u 0)); [|lia]. rewrite (proj2 (Z.eqb_neq newSize 0)); [|done].
  iApply wpp_bind. iApply wpp_allocationSize; [done|]. iFrame "HI". iIntros "HI".
  rewrite (proj2 (Z.eqb_neq (a_size a) 0)); [|lia].
  iApply wpp_bind. iApply wpp_allocate; [done|done|]. iFrame "HI".
  assert (request newSize = newSize) as -> by (unfold request; by rewrite (proj2 (Z.eqb_neq newSize 0))).
  iIntros ([u'|e] w1) "H".
  2: { iDestruct "H" as "[% HI]". iApply wpp_ret. iDestruct "HΦ" as "[HΦ _]".
       iApply ("HΦ" with "[//] HI Hu Hg"). }
  iDestruct "H" as (a' bs0 (Hfresh&Hwf'&Hsz'&Hsh'&Hmod&Hall&[Hlen _])) "(HI & Hu' & Hg')".
  iApply wpp_bind. iApply wpp_io. iApply (wp_memcpy_prefix u' u bs0 bs); [lia|lia|].
  iFrame "Hu' Hu". iIntros (bs' [Hlen' Htake]) "Hu' Hu".
  iApply wpp_bind. pose proof Hall as (Hcfg&_).
  iApply (wpp_deallocate tid u a front rear w1 (<[u':=a']> L)).
  { rewrite lookup_insert_ne; [done|]. intros ->. congruence. }
  { left. by rewrite Hcfg. }
  iFrame "HI Hg". iSplitL "Hu". { rewrite -Hbs. by iApply raw_intro. }
  iIntros (w' Hde) "HI". iApply wpp_ret. iDestruct "HΦ" as "[_ HΦ]".
  iApply ("HΦ" $! u' a' bs' w1 w' with "[%] [HI] Hu' Hg'").
  - split_and!; try done. by rewrite Hlen'.
  - by iApply freed_inv_done.
Qed.

Lemma wpp_reallocate_null fuel tid newSize w Φ :
  wpp (allocate fuel tid newSize) w Φ ⊢ wpp (reallocate fuel tid 0 newSize) w Φ.
Proof using. done. Qed.
Lemma wpp_reallocate_zero fuel tid u w Φ :
  u ≠ 0 →
  wpp (deallocate tid u) w (λ r, Φ (match r with inr e => inr e | inl _ => inl 0 end)) ⊢
  wpp (reallocate fuel tid u 0) w Φ.
Proof using.
  intros Hu. iIntros "H". unfold reallocate. rewrite (proj2 (Z.eqb_neq u 0)); [|done].
  iApply wpp_bind. iApply (wpp_wand with "H"). iIntros ([]w') "H"; by iApply wpp_ret.
Qed.
(** A pointer [allocationSize] knows nothing of is refused. *)
Lemma wpp_reallocate_unknown fuel tid u newSize w L Φ :
  u ≠ 0 → newSize ≠ 0 → enableLeakTracking (cfg_of w) = true → L !! u = None →
  abortOnError (cfg_of w) = false →
  impl_inv w L ∗ (impl_inv (add_report w InvalidPointer u) L -∗
                  Φ (inr InvalidPointer) (add_report w InvalidPointer u)) ⊢
  wpp (reallocate fuel tid u newSize) w Φ.
Proof.
  intros Hu Hn Hlk HLu Hab. iIntros "[HI HΦ]". unfold reallocate.
  rewrite (proj2 (Z.eqb_neq u 0)) // (proj2 (Z.eqb_neq newSize 0)) //.
  iApply wpp_bind. iApply wpp_allocationSize_unknown; [by right|]. iFrame "HI". iIntros "HI".
  rewrite Z.eqb_refl. iApply wpp_fail; [done|]. iApply "HΦ". by iApply impl_inv_report.
Qed.
End dealloc.
