(* ===== verification/SharedAlloc.v ===== *)
(** The operations of the allocator under concurrency: each of them, action by action,
    keeps the protocol of [SharedInv], and gives its caller what it gives when it runs
    alone - or, when pointers are tracked, refuses a pointer of the caller, because
    another thread's free has taken its record away. *)

From stdpp Require Import gmap.
From iris.proofmode Require Import proofmode.
From S2P Require Import Prelude.
From S2P Require Import HeapProp.
From S2P Require Import Memory.
From S2P Require Import Logic.
From S2P Require Import BlockHeader.
From S2P Require Import Prog.
From S2P Require Import Interleaving.
From S2P Require Import StatisticsCollector.
From S2P Require Import Config.
From S2P Require Import DebugLayer.
From S2P Require Import AllocatorImpl.
From S2P Require Import SmallTier.
From S2P Require Import RawAlloc.
From S2P Require Import AllocatorInv.
From S2P Require Import SharedInv.
From S2P Require Import SharedStats.
From S2P Require Import SharedRaw.
From S2P Require Import Allocate.
From S2P Require Import Deallocate.

Section ops.
Context `{HOS : !OS, HL : !OSLaws} (cfg : AllocatorConfig).
Hypothesis Hab : abortOnError cfg = false.
Implicit Types (w : AllocatorImpl) (it : item) (a : alloc) (u : Z).
#[local] Existing Instance alloc_protocol.
Notation cwp := (cwp (HP := alloc_protocol cfg)).

(** What an allocation adds to the share of its holder. *)
Definition gains it it' a : Prop :=
  i_caps it' = add_cap (a_raw a) (a_base a) (i_caps it) ∧
  ∀ q, i_sum it' q = i_sum it q + share (a_size a) (a_reserved a) q.
Definition loses it it' a : Prop :=
  i_caps it' = del_cap (a_raw a) (a_base a) (i_caps it) ∧
  ∀ q, i_sum it' q = i_sum it q - share (a_size a) (a_reserved a) q.
Definition got (n align : Z) (sh : shim) it (res : expected Z) it' : heapPropI :=
  match res with
  | inr e => ⌜alloc_error e n ∧ it' = it⌝
  | inl u => ∃ a bs,
      ⌜alloc_wf u a ∧ a_size a = n ∧ a_shim a = sh ∧ u mod align = 0 ∧ fresh_bytes cfg n bs ∧ gains it it' a⌝ ∗
      live_res u a ∗ u ↦∗ bs ∗ guard_res u a front_guard rear_guard
  end.

(** ** allocate *)
Lemma cwp_finish_allocate tid fuel u a w0 it it1 Φ :
  W64 ≤ Z.of_nat fuel →
  i_caps it1 = add_cap (a_raw a) (a_base a) (i_caps it) → i_sum it1 = i_sum it →
  raw u (a_size a) ∗
  (∀ bs w it', ⌜fresh_bytes cfg (a_size a) bs ∧ gains it it' a⌝ -∗ u ↦∗ bs -∗ Φ (inl u) w it') ⊢
  cwp tid (finish_allocate fuel cfg u (a_size a) (a_reserved a)) w0 it1 Φ.
Proof using HL.
  intros Hf Hcaps Hsum. iIntros "[Hu HΦ]". iApply cwp_bind.
  iApply (cwp_wand _ _ _ _ (λ _ _ it', ∃ bs, ⌜it' = it1 ∧ fresh_bytes cfg (a_size a) bs⌝ ∗ u ↦∗ bs)%I with "[Hu]").
  { unfold fresh_bytes. destruct (enablePoisoning cfg).
    - iApply cwp_io. iDestruct (raw_nonneg with "Hu") as %?. iApply wp_memset_raw. iFrame "Hu". iIntros "Hu" (w _).
      iExists _. iFrame "Hu". iPureIntro. split_and!; [done|rewrite length_replicate; lia|done].
    - iApply cwp_ret. iDestruct "Hu" as (bs Hbs) "Hu". iExists bs. by iFrame. }
  iIntros (? w1 it') "(%bs & [-> %Hbs] & Hu)". iApply cwp_bind. iApply cwp_recordAllocation; [done|].
  iIntros (w2 it2 [Hc2 Hs2]). iApply cwp_bind.
  iApply (cwp_wand _ _ _ _ (λ _ _ it', ⌜it' = it2⌝)%I with "[]").
  { destruct (enableLeakTracking cfg) eqn:Hlk; [|by iApply cwp_ret]. iApply cwp_debug; [done|by eexists|]. by iIntros (x w). }
  iIntros (? w3 ?) "->". iApply cwp_ret.
  iApply ("HΦ" with "[%] Hu"). split; [done|]. split; [by rewrite Hc2|]. intros q. by rewrite Hs2 Hsum.
Qed.
Lemma alloc_fits n : 0 < n → n ≤ kMaxRequest → guardedSize n = n + 64 ∧ 0 < n + 64 ≤ 2 ^ 47.
Proof using.
  change kMaxRequest with (2 ^ 46). intros Hn Hfit. split; [|lia].
  unfold guardedSize, kFrontGuardSize, kRearGuardSize.
  rewrite (add64_small n); [|unfold in64; rewrite W64_eq; lia].
  rewrite add64_small; [lia|unfold in64; rewrite W64_eq; lia].
Qed.
Lemma cwp_allocate tid fuel size w0 it Φ :
  W64 ≤ Z.of_nat fuel → in64 size →
  (∀ res w it', got (request size) 16 (default_shim cfg) it res it' -∗ Φ res w it') ⊢
  cwp tid (allocate fuel tid size) w0 it Φ.
Proof using HL Hab.
  intros Hf Hsz. iIntros "HΦ". apply request_pos in Hsz. unfold allocate. fold (request size).
  set (n := request size) in *. destruct (Z.ltb_spec kMaxRequest n) as [Hbig|Hfit].
  { iApply cwp_fail; [done|]. iIntros (w). iApply "HΦ". iPureIntro. split; [by left|done]. }
  destruct (alloc_fits n) as [Hgs Hgn]; [done|done|].
  iApply cwp_bind. iApply cwp_cfg. iIntros (w1 _). unfold default_shim. destruct (enableGuardBytes cfg) eqn:Hg.
  - iApply cwp_bind. rewrite Hgs. iApply cwp_rawAllocate; [done|]. iIntros ([[r rsv]|e] w2 it2) "H".
    2: { iDestruct "H" as %(->&Href&->). iApply cwp_fail; [done|]. iIntros (w). iApply "HΦ".
         iPureIntro. split; [by right|done]. }
    iDestruct "H" as (b (Hwf&Hbs&Hrsv&->)) "[Hh Hr]". cbn [user reserved] in *. subst rsv.
    iApply cwp_bind. iApply cwp_io. iApply (wp_guarded_block r b n); [done|done|lia|]. iFrame "Hh Hr".
    iIntros ([Hawf Hm]) "Hl Hu Hgd". iIntros (w3 _).
    iApply (cwp_finish_allocate _ _ _ (MkAlloc r b n Guarded) _ it); [done|done|done|]. iFrame "Hu".
    iIntros (bs w4 it' [Hfr Hga]) "Hu". iApply "HΦ". iExists _, bs. iFrame "Hl Hu Hgd". by iPureIntro.
  - iApply cwp_bind. iApply cwp_rawAllocate; [change kMaxRequest with (2 ^ 46) in *; lia|].
    iIntros ([[r rsv]|e] w2 it2) "H".
    2: { iDestruct "H" as %(->&Href&->). iApply cwp_fail; [done|]. iIntros (w). iApply "HΦ".
         iPureIntro. split; [by right|done]. }
    iDestruct "H" as (b (Hwf&Hbs&Hrsv&->)) "[Hh Hr]". cbn [user reserved] in *. subst rsv.
    iDestruct (plain_block r b with "[$Hh $Hr]") as (Hawf) "[Hl Hu]"; [done|lia|]. rewrite Hbs in Hawf |- *.
    iApply (cwp_finish_allocate _ _ _ (MkAlloc r b n Plain) _ it); [done|done|done|]. iFrame "Hu".
    iIntros (bs w4 it' [Hfr Hga]) "Hu". iApply "HΦ". iExists _, bs. iFrame "Hl Hu".
    iPureIntro. split_and!; try done. apply Hwf.
Qed.

(** ** alignedAllocate *)
Lemma got_align n j k sh it res it' :
  0 ≤ j ≤ k → got n (2 ^ k) sh it res it' ⊢ got n (2 ^ j) sh it res it'.
Proof using.
  intros Hjk. destruct res as [u|e]; [|done]. iIntros "(%a & %bs & (%&%&%&%Hm&%&%) & H)".
  iExists a, bs. iFrame. iPureIntro. split_and!; try done. by eapply mod_pow2_le.
Qed.
Lemma cwp_alignedAllocate tid fuel alignment size w0 it Φ :
  W64 ≤ Z.of_nat fuel → in64 size → in64 alignment →
  (∀ res w it',
    (⌜¬ valid_alignment alignment ∧ res = inr InvalidAlignment ∧ it' = it⌝ ∨
     ⌜valid_alignment alignment⌝ ∗ got (request size) alignment
       (if alignment <=? kDefaultAlignment then default_shim cfg else Aligned) it res it') -∗ Φ res w it') ⊢
  cwp tid (alignedAllocate fuel tid alignment size) w0 it Φ.
Proof using HL Hab.
  intros Hf Hsz Hal. iIntros "HΦ". unfold alignedAllocate.
  destruct (negb (isPowerOfTwo alignment) || (kMaxAlignment <? alignment)) eqn:Hchk.
  { iApply cwp_fail; [done|]. iIntros (w). iApply "HΦ". iLeft. iPureIntro. split_and!; [|done|done].
    intros Hv%(alignment_check _ Hal). congruence. }
  apply (alignment_check _ Hal) in Hchk as Hv. pose proof Hv as (k&Hk&->).
  destruct (Z.leb_spec (2 ^ k) kDefaultAlignment) as [Hsmall|Hbig].
  { iApply cwp_allocate; [done|done|]. iIntros (res w it') "H". iApply "HΦ". iRight.
    iSplit; [done|]. change 16 with (2 ^ 4). iApply (got_align with "H"). split; [lia|].
    unfold kDefaultAlignment in Hsmall. change 16 with (2 ^ 4) in Hsmall.
    apply Z.pow_le_mono_r_iff in Hsmall; lia. }
  assert (4 < k) as Hk4.
  { unfold kDefaultAlignment in Hbig. change 16 with (2 ^ 4) in Hbig. apply Z.pow_lt_mono_r_iff in Hbig; lia. }
  assert (2 ^ k ≤ 2 ^ 30) as Hpow by (apply Z.pow_le_mono_r; lia).
  apply request_pos in Hsz. fold (request size). set (n := request size) in *.
  destruct (Z.ltb_spec kMaxRequest n) as [Hlarge|Hfit].
  { iApply cwp_fail; [done|]. iIntros (w). iApply "HΦ". iRight. iSplit; [done|]. iPureIntro. split; [by left|done]. }
  change kMaxRequest with (2 ^ 46) in *.
  iApply cwp_bind. rewrite add64_small; [|unfold in64; rewrite W64_eq; lia].
  iApply cwp_rawAllocate; [lia|]. iIntros ([[r rsv]|e] w2 it2) "H".
  2: { iDestruct "H" as %(->&Href&->). iApply cwp_fail; [done|]. iIntros (w). iApply "HΦ". iRight.
       iSplit; [done|]. iPureIntro. split; [by right|done]. }
  iDestruct "H" as (b (Hwf&Hbs&Hrsv&->)) "[Hh Hr]". cbn [user reserved] in *. subst rsv.
  iApply cwp_bind. iApply cwp_io.
  iApply (wp_aligned_block r b n k); [done|lia|lia|change kMaxRequest with (2 ^ 46); lia|].
  iFrame "Hh Hr". iIntros ([Hawf Hum]) "Hl Hu". iIntros (w3 _). iApply cwp_bind. iApply cwp_cfg. iIntros (w4 _).
  iApply (cwp_finish_allocate _ _ _ (MkAlloc r b n Aligned) _ it); [done|done|done|]. iFrame "Hu".
  iIntros (bs w5 it' [Hfr Hga]) "Hu". iApply "HΦ". iRight. iSplit; [done|]. iExists _, bs. iFrame "Hl Hu".
  iPureIntro. by split_and!.
Qed.

(** ** deallocate *)
Lemma cwp_poison tid (b : bool) u n w0 it Φ :
  raw u n ∗ (∀ w, raw u n -∗ Φ () w it) ⊢ cwp tid (if b then io (poisonOnFree u n) else mret ()) w0 it Φ.
Proof using HL.
  iIntros "[H HΦ]". destruct b; [|iApply cwp_ret; by iApply "HΦ"].
  iDestruct (raw_nonneg with "H") as %?. iApply cwp_io. iApply wp_memset_raw. iFrame "H". iIntros "H" (w _).
  iApply "HΦ". rewrite raw_intro length_replicate. by rewrite Z2Nat.id.
Qed.
Lemma cwp_free_by_tier tid u a front rear w0 it Φ :
  alloc_wf u a → known (a_raw a) (a_base a) (i_caps it) →
  live_res u a ∗ raw u (a_size a) ∗ guard_res u a front rear ∗
  (∀ w, Φ (inl (a_reserved a)) w (MkItem (del_cap (a_raw a) (a_base a) (i_caps it)) (i_sum it))) ⊢
  cwp tid (free_by_tier tid cfg u (a_size a) (tierValue (tier_code (user_tier a)))) w0 it Φ.
Proof using HL Hab.
  intros Hwf Hkn. pose proof Hwf as (Hbwf&[Hn0 _]&Hsh). pose proof Hbwf as (?&?&?&?&Hbt).
  unfold live_res, guard_res, user_tier. destruct (a_shim a).
  - destruct Hsh as [-> Hsz]. iIntros "([Hh Hslack] & Hu & _ & HΦ)". unfold free_by_tier.
    destruct (b_tier (a_base a)) eqn:Ht; cbn [tierValue tier_code]; try done;
      iApply cwp_bind; iApply cwp_poison; iFrame "Hu"; iIntros (w1) "Hu";
      (iApply cwp_rawDeallocate; [done|done|]); iFrame "Hh"; (iSplitL "Hu Hslack"; [|iExact "HΦ"]);
      (iApply plain_total; [|iFrame]; lia).
  - destruct Hsh as [Hu Hsz]. iIntros "((Hh & Hsh & Hslack) & Hu & Hg & HΦ)". cbn [free_by_tier tierValue tier_code].
    iApply cwp_bind.
    iApply (cwp_wand _ _ _ _ (λ _ _ it', ⌜it' = it⌝ ∗ guards u (a_size a) front rear)%I with "[Hg]").
    { destruct (enableGuardBytes cfg); [|iApply cwp_ret; by iFrame].
      iApply cwp_io. iApply wp_verifyGuards. iFrame "Hg". by iIntros "$" (w1 _). }
    iIntros (ok w1 ?) "[-> Hg]". iApply cwp_bind.
    iApply (cwp_wand _ _ _ _ (λ _ _ it', ⌜it' = it⌝)%I with "[]").
    { destruct (negb ok); [|by iApply cwp_ret]. iApply cwp_report; [done|]. by iIntros (w2). }
    iIntros (? w2 ?) "->". iApply cwp_bind. iApply cwp_poison. iFrame "Hu". iIntros (w3) "Hu".
    iApply cwp_bind. iApply cwp_io. iApply wp_store_state; [done|]. iFrame "Hsh". iIntros "Hsh" (w4 _).
    iApply cwp_bind. iApply cwp_io. iApply wp_load_offset. iFrame "Hsh". iIntros "Hsh" (w5 _).
    replace (u - 32) with (a_raw a) by lia.
    iApply (cwp_rawDeallocate _ _ _ (a_base a) kStateAllocated); [done|done|]. iFrame "Hh".
    iSplitL "Hslack Hu Hsh Hg"; [|iExact "HΦ"].
    iDestruct (guards_raw with "Hg") as "[Hg1 Hg2]". rewrite header_raw.
    iApply (guarded_total _ u (a_size a)); [done|lia|lia|]. iFrame.
  - destruct Hsh as (Hu&_&Hend&_). iIntros "((Hh & Hgap & Hsh & Hslack) & Hu & _ & HΦ)".
    cbn [free_by_tier tierValue tier_code].
    iApply cwp_bind. iApply cwp_poison. iFrame "Hu". iIntros (w3) "Hu".
    iApply cwp_bind. iApply cwp_io. iApply wp_store_state; [done|]. iFrame "Hsh". iIntros "Hsh" (w4 _).
    iApply cwp_bind. iApply cwp_io. iApply wp_load_offset. iFrame "Hsh". iIntros "Hsh" (w5 _).
    replace (u - (u - a_raw a)) with (a_raw a) by lia.
    iApply (cwp_rawDeallocate _ _ _ (a_base a) kStateAllocated); [done|done|].
    iFrame "Hh". iSplitL "Hslack Hu Hsh Hgap"; [|iExact "HΦ"]. rewrite header_raw.
    iApply (aligned_total _ u (a_size a)); [lia|lia|lia|]. iFrame.
Qed.

(** With tracking off the pointer is taken at its word; with tracking on the answer of
    the table is not known. *)
Lemma cwp_tracked {A} tid u (p : AllocatorConfig → bool → prog AllocatorImpl A) w0 it Φ :
  (∀ w t, ⌜t = true ∨ enableLeakTracking cfg = true⌝ -∗ cwp tid (p cfg t) w it Φ) ⊢
  cwp tid (c ← gets cfg_of; t ← (if enableLeakTracking c then in_debug (isTracked u) else mret true); p c t) w0 it Φ.
Proof using.
  iIntros "Hp". iApply cwp_bind. iApply cwp_cfg. iIntros (w _). iApply cwp_bind.
  destruct (enableLeakTracking cfg) eqn:Hlk; [|iApply cwp_ret; iApply "Hp"; by iLeft].
  iApply cwp_debug; [done|by eexists|]. iIntros (t w'). iApply "Hp". by iRight.
Qed.
Lemma cwp_header {A} tid u a w0 it Φ (p : Z → Z → prog AllocatorImpl A) :
  alloc_wf u a →
  live_res u a ∗ (∀ w, live_res u a -∗ cwp tid (p (tier_code (user_tier a)) kStateAllocated) w it Φ) ⊢
  cwp tid (tier ← io (load_tier (headerOf u)); state ← io (load_state (headerOf u)); p tier state) w0 it Φ.
Proof using HL.
  intros Hwf. iIntros "[Hl Hp]". iDestruct (live_header with "Hl") as "[Hh Hl]"; [done|].
  iApply cwp_bind. iApply cwp_io. iApply wp_load_tier. iFrame "Hh". iIntros "Hh" (w1 _).
  iApply cwp_bind. iApply cwp_io. iApply wp_load_state. iFrame "Hh". iIntros "Hh" (w2 _).
  iApply "Hp". by iApply "Hl".
Qed.
Lemma valid_tier a : hasValidTier (tier_code (user_tier a)) = true.
Proof using. by destruct (user_tier a). Qed.

(** How a pointer is refused. *)
Definition refusal (e : Error) : Prop :=
  enableLeakTracking cfg = true ∧ (e = InvalidPointer ∨ e = DoubleFree).
Lemma cwp_deallocate tid u a bs front rear w0 it Φ :
  alloc_wf u a → known (a_raw a) (a_base a) (i_caps it) → Z.of_nat (length bs) = a_size a →
  live_res u a ∗ u ↦∗ bs ∗ guard_res u a front rear ∗
  ((∀ w it', ⌜loses it it' a⌝ -∗ Φ (inl ()) w it') ∧
   (∀ e w, ⌜refusal e⌝ -∗ live_res u a -∗ u ↦∗ bs -∗ guard_res u a front rear -∗ Φ (inr e) w it)) ⊢
  cwp tid (deallocate tid u) w0 it Φ.
Proof using HL Hab.
  intros Hwf Hkn Hbs. iIntros "(Hl & Hu & Hg & HΦ)". pose proof Hwf as (_&Hpos&_).
  iDestruct (bytes_at_range with "Hu") as %[? _]; [lia|].
  unfold deallocate. rewrite (proj2 (Z.eqb_neq u 0)); [|lia]. iApply cwp_tracked. iIntros (w1 t Ht).
  destruct t; cbn [negb].
  2: { destruct Ht as [|Hlk]; [done|]. iApply cwp_bind. iApply cwp_debug; [done|by eexists|]. iIntros (b w2).
       iApply cwp_fail; [done|]. iIntros (w3). iDestruct "HΦ" as "[_ HΦ]". iApply ("HΦ" with "[%] Hl Hu Hg").
       split; [done|]. destruct b; [by right|by left]. }
  iDestruct "HΦ" as "[HΦ _]".
  iApply cwp_header; [done|]. iFrame "Hl". iIntros (w2) "Hl". rewrite valid_tier. cbn [negb orb].
  rewrite Z.eqb_refl. cbn [negb andb]. assert ((kStateAllocated =? kStateFreed) = false) as -> by done.
  iDestruct (live_header with "Hl") as "[Hh Hl]"; [done|].
  iApply cwp_bind. iApply cwp_io. iApply wp_load_payloadSize. iFrame "Hh". iIntros "Hh" (w3 _).
  iDestruct ("Hl" with "Hh") as "Hl". iDestruct (raw_intro with "Hu") as "Hu". rewrite Hbs.
  iApply cwp_bind. iApply (cwp_free_by_tier _ _ _ front rear); [done|done|]. iFrame "Hl Hu Hg". iIntros (w4).
  iApply cwp_bind. iApply cwp_recordFree. iIntros (w5 it' [Hc Hs]). iApply cwp_bind.
  iApply (cwp_wand _ _ _ _ (λ _ _ it1, ⌜it1 = it'⌝)%I with "[]").
  { destruct (enableLeakTracking cfg) eqn:Hlk; [|by iApply cwp_ret]. iApply cwp_bind.
    iApply cwp_debug; [done|intros d; case_bool_decide; by eexists|]. iIntros (x w). by iApply cwp_ret. }
  iIntros (? w6 ?) "->". iApply cwp_ret. iApply "HΦ". by iPureIntro.
Qed.
Lemma cwp_deallocate_null tid w0 it Φ : Φ (inl ()) w0 it ⊢ cwp tid (deallocate tid 0) w0 it Φ.
Proof using. done. Qed.

(** ** allocationSize and liveAllocationCount *)
Lemma cwp_allocationSize tid u a w0 it Φ :
  alloc_wf u a → 0 < u →
  live_res u a ∗ (∀ n w, ⌜n = a_size a ∨ enableLeakTracking cfg = true ∧ n = 0⌝ -∗ live_res u a -∗ Φ n w it) ⊢
  cwp tid (allocationSize u) w0 it Φ.
Proof using HL.
  intros Hwf Hu. iIntros "[Hl HΦ]". unfold allocationSize. rewrite (proj2 (Z.eqb_neq u 0)); [|lia].
  iApply cwp_tracked. iIntros (w1 t Ht). destruct t; cbn [negb].
  2: { destruct Ht as [|Hlk]; [done|]. iApply cwp_ret. iApply ("HΦ" with "[%] Hl"). by right. }
  iApply cwp_header; [done|]. iFrame "Hl". iIntros (w2) "Hl".
  rewrite valid_tier Z.eqb_refl. cbn [negb orb]. iDestruct (live_header with "Hl") as "[Hh Hl]"; [done|].
  iApply cwp_io. iApply wp_load_payloadSize. iFrame "Hh". iIntros "Hh" (w3 _).
  iApply ("HΦ" with "[%] (Hl Hh)"). by left.
Qed.
Lemma cwp_liveAllocationCount tid w0 it Φ :
  (∀ n w, ⌜n = 0 ∨ enableLeakTracking cfg = true⌝ -∗ Φ n w it) ⊢ cwp tid liveAllocationCount w0 it Φ.
Proof using.
  iIntros "HΦ". iApply cwp_atomic. iIntros (w H [Hr HH]) "(%C & %Hpure & HC)".
  pose proof Hpure as (_&Hlive&_). iApply wpp_zoom. iApply wpp_gets. rewrite lens_set_get. iExists it.
  rewrite insert_id //. iSplit; [iPureIntro; by intros t _|].
  iSplitL "HC"; [iExists C; by iFrame|]. iApply "HΦ". iPureIntro.
  destruct (enableLeakTracking cfg); [by right|left]. by rewrite Hlive.
Qed.

(** ** reallocate *)
Lemma known_add r b r' b' C : headerOf r' ≠ headerOf r → known r b C → known r b (add_cap r' b' C).
Proof using.
  intros Hne. unfold known, add_cap. destruct (b_tier b), (b_tier b'); simpl; try done; by rewrite lookup_insert_ne.
Qed.
Lemma live_apart u a u' a' :
  live_res u a ∗ live_res u' a' ⊢ ⌜headerOf (a_raw a') ≠ headerOf (a_raw a)⌝.
Proof using.
  iIntros "[[H _] [H' _]]". unfold base_header. rewrite !header_raw.
  by iDestruct (raw_disjoint_strict with "[$H' $H]") as %?.
Qed.

(** A block that [reallocate] has got but cannot hand over. *)
Definition stray u' it it' : heapPropI :=
  ∃ a' bs', ⌜alloc_wf u' a' ∧ Z.of_nat (length bs') = a_size a' ∧ gains it it' a'⌝ ∗
    live_res u' a' ∗ u' ↦∗ bs' ∗ guard_res u' a' front_guard rear_guard.
Lemma cwp_reallocate tid fuel u a bs front rear newSize w0 it Φ :
  W64 ≤ Z.of_nat fuel → alloc_wf u a → known (a_raw a) (a_base a) (i_caps it) →
  Z.of_nat (length bs) = a_size a → in64 newSize → newSize ≠ 0 →
  live_res u a ∗ u ↦∗ bs ∗ guard_res u a front rear ∗
  ((∀ e w, ⌜alloc_error e newSize ∨ refusal e⌝ -∗
      live_res u a -∗ u ↦∗ bs -∗ guard_res u a front rear -∗ Φ (inr e) w it) ∧
   (∀ u' a' bs' w it1 it2, ⌜u' ≠ u ∧ alloc_wf u' a' ∧ a_size a' = newSize ∧ u' mod 16 = 0 ∧
        Z.of_nat (length bs') = newSize ∧
        take (Z.to_nat (Z.min (a_size a) newSize)) bs' = take (Z.to_nat (Z.min (a_size a) newSize)) bs ∧
        headerOf (a_raw a') ≠ headerOf (a_raw a) ∧ gains it it1 a' ∧ loses it1 it2 a⌝ -∗
      live_res u' a' -∗ u' ↦∗ bs' -∗ guard_res u' a' front_guard rear_guard -∗ Φ (inl u') w it2) ∧
   (∀ e u' w it1, ⌜refusal e⌝ -∗ live_res u a -∗ u ↦∗ bs -∗ guard_res u a front rear -∗
      stray u' it it1 -∗ Φ (inr e) w it1)) ⊢
  cwp tid (reallocate fuel tid u newSize) w0 it Φ.
Proof using HL Hab.
  intros Hf Hwf Hkn Hbs Hin Hnz. iIntros "(Hl & Hu & Hg & HΦ)". pose proof Hwf as (_&[Hpos _]&_).
  iDestruct (bytes_at_range with "Hu") as %[Hu0 _]; [lia|].
  unfold reallocate. rewrite (proj2 (Z.eqb_neq u 0)); [|lia]. rewrite (proj2 (Z.eqb_neq newSize 0)); [|done].
  iApply cwp_bind. iApply cwp_allocationSize; [done|done|]. iFrame "Hl". iIntros (sz w1 Hsize) "Hl".
  destruct Hsize as [->|[Hlk ->]].
  2: { iApply cwp_fail; [done|]. iIntros (w). iDestruct "HΦ" as "[HΦ _]". iApply ("HΦ" with "[%] Hl Hu Hg").
       right. split; [done|by left]. }
  rewrite (proj2 (Z.eqb_neq (a_size a) 0)); [|lia].
  iApply cwp_bind. iApply cwp_allocate; [done|done|]. iIntros ([u'|e] w2 it1) "H".
  all: assert (request newSize = newSize) as -> by (unfold request; by rewrite (proj2 (Z.eqb_neq newSize 0))).
  2: { iDestruct "H" as %[He ->]. iApply cwp_ret. iDestruct "HΦ" as "[HΦ _]".
       iApply ("HΦ" with "[%] Hl Hu Hg"). by left. }
  iDestruct "H" as (a' bs0 (Hwf'&Hsz'&_&Hm&[Hlen _]&Hga)) "(Hl' & Hu' & Hg')".
  iDestruct (live_apart u a u' a' with "[$Hl $Hl']") as %Hne.
  iDestruct (bytes_at_disjoint with "[$Hu $Hu']") as %Hdisj; [lia|lia|].
  iApply cwp_bind. iApply cwp_io. iApply (wp_memcpy_prefix u' u bs0 bs); [lia|lia|].
  iFrame "Hu' Hu". iIntros (bs' [Hlen' Htake]) "Hu' Hu". iIntros (w3 _).
  iApply cwp_bind. iApply (cwp_deallocate _ _ a bs front rear); [done| |done|].
  { destruct Hga as [-> _]. by apply known_add. }
  iFrame "Hl Hg Hu". iDestruct "HΦ" as "[_ HΦ]". iSplit.
  - iIntros (w4 it2 Hlo). iApply cwp_ret. iDestruct "HΦ" as "[HΦ _]".
    iApply ("HΦ" $! u' a' bs' w4 it1 it2 with "[%] Hl' Hu' Hg'").
    split_and!; try done; [lia|by rewrite Hlen'].
  - iIntros (e w4 He) "Hl Hu Hg". iApply cwp_ret. iDestruct "HΦ" as "[_ HΦ]".
    iApply ("HΦ" $! e u' w4 it1 with "[%] Hl Hu Hg"); [done|]. iExists a', bs'. iFrame. iPureIntro.
    split_and!; [done|by rewrite Hlen' Hlen|done].
Qed.
Lemma cwp_reallocate_null tid fuel newSize w0 it Φ :
  cwp tid (allocate fuel tid newSize) w0 it Φ ⊢ cwp tid (reallocate fuel tid 0 newSize) w0 it Φ.
Proof using. done. Qed.
Lemma cwp_reallocate_zero tid fuel u w0 it Φ :
  u ≠ 0 →
  cwp tid (deallocate tid u) w0 it (λ r w it', Φ (match r with inr e => inr e | inl _ => inl 0 end) w it') ⊢
  cwp tid (reallocate fuel tid u 0) w0 it Φ.
Proof using.
  intros Hu. iIntros "H". unfold reallocate. rewrite (proj2 (Z.eqb_neq u 0)); [|done].
  iApply cwp_bind. iApply (cwp_wand with "H"). iIntros ([] w' it') "H"; by iApply cwp_ret.
Qed.
End ops.
