(* ===== verification/Allocator.v ===== *)
(** src/include/MAlloc/Allocator.hpp and src/src/Allocator.cpp: the public handle
    on an allocator.  Its only member is the pointer to the implementation, which
    is null once the handle has been moved from. *)

From stdpp Require Import gmap.
From iris.proofmode Require Import proofmode.
From S2P Require Import Prelude.
From S2P Require Import HeapProp.
From S2P Require Import Memory.
From S2P Require Import Logic.
From S2P Require Import Prog.
From S2P Require Import StatisticsCollector.
From S2P Require Import Config.
From S2P Require Import ThreadCache.
From S2P Require Import AllocatorImpl.

Open Scope Z_scope.

Record Allocator := MkAllocator { impl_ : option AllocatorImpl }.

(** [kFallbackConfig]. *)
Definition kFallbackConfig : AllocatorConfig := AllocatorConfig_default.

(** The constructors.  [self] is the address of the implementation's central state; [tls],
    [throws] and [dbg] are what the process provides: the caches threads already have, and
    the insertions of the code's tables that throw. *)
Definition Allocator_make (cfg : AllocatorConfig) (self : Z) (tls : gmap Z ThreadCache) (throws dbg : Z → bool) : Allocator :=
  MkAllocator (Some (AllocatorImpl_init cfg self tls throws dbg)).
Definition Allocator_default : Z → gmap Z ThreadCache → (Z → bool) → (Z → bool) → Allocator :=
  Allocator_make AllocatorConfig_default.

(** The move constructor: the new handle and what is left of the other. *)
Definition Allocator_move (other : Allocator) : Allocator * Allocator := (other, MkAllocator None).

Section Allocator.
Context `{HOS : !OS}.

(** [impl_->f(...)]: a null [impl_] would be undefined. *)
Fixpoint in_impl {A} (p : prog AllocatorImpl A) : prog Allocator A :=
  match p with
  | Ret a => Ret a
  | Act f k =>
      Act (λ h, w ← expect (impl_ h); r ← f w; mret (r.1, MkAllocator (Some r.2))) (λ x, in_impl (k x))
  end.
(** [if (!impl_) return fallback;] *)
Definition guarded {A} (fallback : A) (p : prog AllocatorImpl A) : prog Allocator A :=
  null ← gets (λ h, bool_decide (impl_ h = None));
  if null : bool then mret fallback else in_impl p.
(** [value_or(nullptr)] *)
Definition value_or (v : Z) (r : expected Z) : Z := match r with inl x => x | inr _ => v end.

Definition tryAllocate (fuel : nat) (tid size : Z) : prog Allocator (expected Z) :=
  guarded (inr OutOfMemory) (AllocatorImpl.allocate fuel tid size).
Definition tryDeallocate (tid ptr : Z) : prog Allocator (expected ()) :=
  guarded (inr InvalidPointer) (AllocatorImpl.deallocate tid ptr).
Definition tryAlignedAllocate (fuel : nat) (tid alignment size : Z) : prog Allocator (expected Z) :=
  guarded (inr OutOfMemory) (AllocatorImpl.alignedAllocate fuel tid alignment size).

Definition allocate (fuel : nat) (tid size : Z) : prog Allocator Z :=
  guarded 0 (r ← AllocatorImpl.allocate fuel tid size; mret (value_or 0 r)).
Definition deallocate (tid ptr : Z) : prog Allocator () :=
  guarded () (r ← AllocatorImpl.deallocate tid ptr; let _ : expected () := r in mret ()).
Definition reallocate (fuel : nat) (tid ptr newSize : Z) : prog Allocator Z :=
  guarded 0 (r ← AllocatorImpl.reallocate fuel tid ptr newSize; mret (value_or 0 r)).
Definition alignedAllocate (fuel : nat) (tid alignment size : Z) : prog Allocator Z :=
  guarded 0 (r ← AllocatorImpl.alignedAllocate fuel tid alignment size; mret (value_or 0 r)).

Definition allocationSize (ptr : Z) : prog Allocator Z := guarded 0 (AllocatorImpl.allocationSize ptr).
Definition statistics : prog Allocator StatisticsSnapshot :=
  guarded StatisticsSnapshot_init AllocatorImpl.statistics.
Definition config (h : Allocator) : AllocatorConfig :=
  match impl_ h with None => kFallbackConfig | Some w => cfg_of w end.
Definition liveAllocationCount : prog Allocator Z := guarded 0 AllocatorImpl.liveAllocationCount.

(** The destructor, and move assignment between distinct handles: the new values of the
    target, whose old implementation is destroyed, and of the source. *)
Definition Allocator_destroy (h : Allocator) : cmd (option Z) :=
  match impl_ h with None => mret None | Some w => AllocatorImpl_destroy w end.
Definition Allocator_move_assign (self other : Allocator) : cmd (Allocator * Allocator) :=
  _ ← Allocator_destroy self; mret (Allocator_move other).
End Allocator.

Section proofs.
Context `{HOS : !OS}.

Lemma run_in_impl {A} (p : prog AllocatorImpl A) w m :
  run (in_impl p) (MkAllocator (Some w)) m =
  (r ← run p w; mret (r.1, MkAllocator (Some r.2))) m.
Proof.
  revert w m. induction p as [a|X f k IH]; intros w m; [done|].
  unfold mbind, cmd_bind in *. simpl. unfold mbind, cmd_bind. simpl. unfold mret, cmd_ret. simpl.
  destruct (f w m) as [r m'| | |]; try done. simpl. by rewrite IH.
Qed.

(** A handle that owns an implementation runs it; a handle that was moved from
    answers the fallback and touches nothing. *)
Lemma wpp_guarded {A} (x : A) p w Φ :
  wpp p w (λ a w', Φ a (MkAllocator (Some w'))) ⊢ wpp (guarded x p) (MkAllocator (Some w)) Φ.
Proof.
  iIntros "H". iApply wpp_bind. iApply wpp_gets.
  iApply wp_ext; [intros m; symmetry; apply run_in_impl|]. iApply wp_bind.
  iApply (wp_wand with "H"). iIntros ([a w']) "H". by iApply wp_ret.
Qed.
Lemma run_guarded_none {A} (x : A) p m :
  run (guarded x p) (MkAllocator None) m = Ok (x, MkAllocator None) m.
Proof. done. Qed.
End proofs.
