(* ===== verification/Facade.v ===== *)
(** Contracts of the public handle, and of the choice between [allocate] and
    [alignedAllocate] that the standard-library adapters share. *)

From stdpp Require Import gmap.
From iris.proofmode Require Import proofmode.
From S2P Require Import Prelude.
From S2P Require Import HeapProp.
From S2P Require Import Memory.
From S2P Require Import Logic.
From S2P Require Import BlockHeader.
From S2P Require Import Prog.
From S2P Require Import StatisticsCollector.
From S2P Require Import Config.
From S2P Require Import DebugLayer.
From S2P Require Import AllocatorImpl.
From S2P Require Import RawAlloc.
From S2P Require Import AllocatorInv.
From S2P Require Import Allocate.
From S2P Require Import Deallocate.
From S2P Require Import Allocator.

(** A handle that owns [w]. *)
Definition owning (w : AllocatorImpl) : Allocator := MkAllocator (Some w).

Section facade.
Context `{HOS : !OS, HL : !OSLaws}.
Implicit Types (w : AllocatorImpl) (L : gmap Z alloc) (a : alloc) (u : Z).

(** A pointer or null, for a request of [n] bytes: null exactly when the request
    failed, and the failure is in the diagnostics. *)
Definition pointer_post w L (n align u : Z) (h : Allocator) : heapPropI :=
  ∃ w', ⌜h = owning w'⌝ ∗
    ((⌜u = 0 ∧ ∃ e, alloc_error e n ∧ failed w w' e 0⌝ ∗ impl_inv w' L) ∨
     ∃ a bs, ⌜u ≠ 0 ∧ L !! u = None ∧ a_size a = n ∧ u mod align = 0 ∧ fresh_bytes (cfg_of w) n bs ∧
         allocated w w' u n (a_reserved a)⌝ ∗
       impl_inv w' (<[u := a]> L) ∗ u ↦∗ bs ∗ guard_res u a front_guard rear_guard).

Lemma pointer_post_intro w L n align sh res w' :
  0 < n → alloc_post w L n align sh res w' ⊢ pointer_post w L n align (value_or 0 res) (owning w').
Proof.
  intros Hn. iIntros "H". iExists w'. iSplit; [done|]. destruct res as [u|e]; cbn [value_or alloc_post].
  - iRight. iDestruct "H" as (a bs (?&?&?&?&?&?&Hf)) "(HI & Hu & Hg)". iExists a, bs.
    iDestruct (bytes_at_range with "Hu") as %?; [destruct Hf; lia|]. iFrame. iPureIntro. split_and!; try done. lia.
  - iLeft. iDestruct "H" as "[[% %] $]". iPureIntro. split; [done|]. by exists e.
Qed.
Lemma wpp_handle_allocate fuel tid n w L Φ :
  in64 n → abortOnError (cfg_of w) = false →
  impl_inv w L ∗ (∀ u h, pointer_post w L (request n) 16 u h -∗ Φ u h) ⊢
  wpp (Allocator.allocate (S fuel) tid n) (owning w) Φ.
Proof.
  intros Hn Hab. iIntros "[HI HΦ]". iApply wpp_guarded. iApply wpp_bind. iApply wpp_allocate; [done|done|].
  iFrame "HI". iIntros (res w') "H". iApply wpp_ret. iApply "HΦ".
  iApply (pointer_post_intro with "H"). by apply request_pos.
Qed.
Lemma wpp_handle_aligned fuel tid al n w L Φ :
  in64 n → valid_alignment al → abortOnError (cfg_of w) = false →
  impl_inv w L ∗ (∀ u h, pointer_post w L (request n) al u h -∗ Φ u h) ⊢
  wpp (Allocator.alignedAllocate (S fuel) tid al n) (owning w) Φ.
Proof.
  intros Hn Hal Hab. iIntros "[HI HΦ]". iApply wpp_guarded. iApply wpp_bind.
  iApply wpp_alignedAllocate; [done| |done|].
  { destruct Hal as (k&Hk&->). pose proof (pow2_bounds k). unfold in64. lia. }
  iFrame "HI". iIntros (res w') "[[(% & _) _]|[_ H]]"; [done|]. iApply wpp_ret. iApply "HΦ".
  iApply (pointer_post_intro with "H"). by apply request_pos.
Qed.
Lemma wpp_handle_deallocate tid u a front rear w L Φ :
  L !! u = Some a → abortOnError (cfg_of w) = false →
  impl_inv w L ∗ raw u (a_size a) ∗ guard_res u a front rear ∗
  (∀ w', ⌜deallocated w w' u a front rear⌝ -∗ impl_inv w' (delete u L) -∗ Φ () (owning w')) ⊢
  wpp (Allocator.deallocate tid u) (owning w) Φ.
Proof.
  intros Ha Hab. iIntros "(HI & Hu & Hg & HΦ)". iApply wpp_guarded. iApply wpp_bind.
  iApply (wpp_deallocate tid u a front rear w L); [done|by left|]. iFrame "HI Hu Hg".
  iIntros (w' Hd) "HI". iApply wpp_ret. iApply ("HΦ" with "[//]"). by iApply freed_inv_done.
Qed.

(** The adapters ask for the alignment only above sixteen. *)
Definition plain_or_aligned (fuel : nat) (tid al n : Z) : prog Allocator Z :=
  if 16 <? al then Allocator.alignedAllocate fuel tid al n else Allocator.allocate fuel tid n.
Lemma pointer_post_align w L n j k u h :
  0 ≤ j ≤ k → pointer_post w L n (2 ^ k) u h ⊢ pointer_post w L n (2 ^ j) u h.
Proof using.
  intros Hjk. iIntros "(%w' & %Hh & H)". iExists w'. iSplit; [done|]. iDestruct "H" as "[H|H]"; [by iLeft|iRight].
  iDestruct "H" as (a bs (?&?&?&Hm&?&?)) "H". iExists a, bs. iFrame. iPureIntro. split_and!; try done.
  by eapply mod_pow2_le.
Qed.
Lemma wpp_plain_or_aligned fuel tid al n w L Φ :
  in64 n → valid_alignment al → abortOnError (cfg_of w) = false →
  impl_inv w L ∗ (∀ u h, pointer_post w L (request n) al u h -∗ Φ u h) ⊢
  wpp (plain_or_aligned (S fuel) tid al n) (owning w) Φ.
Proof.
  intros Hn Hal Hab. iIntros "[HI HΦ]". unfold plain_or_aligned. destruct (Z.ltb_spec 16 al).
  - iApply wpp_handle_aligned; [done|done|done|]. iFrame.
  - iApply wpp_handle_allocate; [done|done|]. iFrame "HI". iIntros (u h) "H". iApply "HΦ".
    destruct Hal as (k&Hk&->). change 16 with (2 ^ 4) in *. iApply (pointer_post_align with "H").
    split; [lia|]. apply Z.pow_le_mono_r_iff in H; lia.
Qed.
End facade.
