(* ===== verification/StlAllocator.v ===== *)
(** src/include/MAlloc/StlAllocator.hpp: the allocator of the standard containers.
    [T] enters through [sizeof(T)] and [alignof(T)]; a call that throws
    [std::bad_alloc] answers [None].  The programs run on the handle the adapter
    points to. *)

From stdpp Require Import gmap.
From iris.proofmode Require Import proofmode.
From S2P Require Import Prelude.
From S2P Require Import HeapProp.
From S2P Require Import Memory.
From S2P Require Import Platform.
From S2P Require Import Logic.
From S2P Require Import Prog.
From S2P Require Import Config.
From S2P Require Import DebugLayer.
From S2P Require Import AllocatorImpl.
From S2P Require Import AllocatorInv.
From S2P Require Import Allocate.
From S2P Require Import Deallocate.
From S2P Require Import Allocator.
From S2P Require Import Facade.

(** The only member is the address of the handle. *)
Record StlAllocator := MkStl { allocator_ : Z }.
Definition StlAllocator_make (allocator : Z) : StlAllocator := MkStl allocator.
Definition underlying (s : StlAllocator) : Z := allocator_ s.
(** The converting constructor, and [operator==], also across element types. *)
Definition StlAllocator_convert (other : StlAllocator) : StlAllocator := MkStl (underlying other).
Definition StlAllocator_eq (s other : StlAllocator) : bool := allocator_ s =? underlying other.

Section StlAllocator.
Context `{HOS : !OS}.

Definition allocate (sizeof alignof : Z) (fuel : nat) (tid count : Z) : prog Allocator (option Z) :=
  if size_max / sizeof <? count then mret None else
  let bytes := count *₆₄ sizeof in
  ptr ← (if 16 <? alignof then Allocator.alignedAllocate fuel tid alignof bytes
         else Allocator.allocate fuel tid bytes);
  if ptr =? 0 then mret None else mret (Some ptr).
Definition deallocate (tid ptr count : Z) : prog Allocator () := Allocator.deallocate tid ptr.
End StlAllocator.

Section proofs.
Context `{HOS : !OS, HL : !OSLaws}.

(** What a call for [count] elements gives: an array, or an exception and its cause. *)
Definition stl_post sizeof alignof count w L (r : option Z) (h : Allocator) : heapPropI :=
  match r with
  | None => ∃ w', ⌜h = owning w' ∧ (W64 ≤ count * sizeof ∧ w' = w ∨
      ∃ e, alloc_error e (request (count * sizeof)) ∧ failed w w' e 0)⌝ ∗ impl_inv w' L
  | Some u => ∃ w' a, ⌜h = owning w' ∧ u ≠ 0 ∧ L !! u = None ∧ u mod alignof = 0 ∧
        a_size a = request (count * sizeof) ∧ allocated w w' u (request (count * sizeof)) (a_reserved a)⌝ ∗
      impl_inv w' (<[u := a]> L) ∗ raw u (request (count * sizeof)) ∗ guard_res u a front_guard rear_guard
  end.
Lemma wpp_stl_allocate sizeof alignof fuel tid count w L Φ :
  0 < sizeof → in64 sizeof → valid_alignment alignof → in64 count → abortOnError (cfg_of w) = false →
  impl_inv w L ∗ (∀ r h, stl_post sizeof alignof count w L r h -∗ Φ r h) ⊢
  wpp (allocate sizeof alignof (S fuel) tid count) (owning w) Φ.
Proof.
  intros Hs0 Hs Hal [Hc0 Hc] Hab. iIntros "[HI HR]". unfold allocate.
  assert (size_max / sizeof < count ↔ W64 ≤ count * sizeof) as Hovf.
  { unfold size_max. pose proof (Z.div_mod (W64 - 1) sizeof). pose proof (Z.mod_pos_bound (W64 - 1) sizeof). nia. }
  destruct (Z.ltb_spec (size_max / sizeof) count) as [Hbig|Hfit].
  { iApply wpp_ret. iApply "HR". iExists w. iFrame. iPureIntro. split; [done|]. left. split; [by apply Hovf|done]. }
  assert (in64 (count * sizeof)) as Hin by (unfold in64; split; [lia|]; apply Z.lt_nge; intros ?%Hovf; lia).
  rewrite mul64_small //. iApply wpp_bind.
  iApply (wpp_plain_or_aligned fuel tid alignof (count * sizeof)); [done|done|done|]. iFrame "HI".
  iIntros (u h) "(%w' & -> & [[[-> %He] HI]|(%a & %bs & (%Hu & %Hnone & %Hsz & %Hmod & [%Hlen _] & %Hall) & HI & Hu & Hg)])".
  - iApply wpp_ret. iApply "HR". iExists w'. iFrame. iPureIntro. split; [done|]. by right.
  - rewrite (proj2 (Z.eqb_neq u 0)) //. iApply wpp_ret. iApply "HR". iExists w', a. iFrame "HI Hg".
    iSplit; [done|]. rewrite -Hlen. by iApply raw_intro.
Qed.
(** [StlAllocator::allocate] never hands out less than an array of [count] elements:
    it throws when the byte count does not fit in [std::size_t] - before it asks the
    allocator - or the allocator failed, and otherwise returns memory for exactly
    [count * sizeof(T)] bytes (one when that is zero), aligned for [T]. *)
Theorem stl_allocate_correct sizeof alignof fuel tid count w L :
  0 < sizeof → in64 sizeof → valid_alignment alignof → in64 count → abortOnError (cfg_of w) = false →
  phoare (impl_inv w L) (allocate sizeof alignof (S fuel) tid count) (owning w) (stl_post sizeof alignof count w L).
Proof. intros. apply phoare_wpp. intros R. by apply wpp_stl_allocate. Qed.

(** [StlAllocator::deallocate] gives the array back whatever count it is passed. *)
Theorem stl_deallocate_correct tid u count a front rear w L :
  L !! u = Some a → abortOnError (cfg_of w) = false →
  phoare (impl_inv w L ∗ raw u (a_size a) ∗ guard_res u a front rear) (deallocate tid u count) (owning w)
    (λ _ h, ∃ w', ⌜h = owning w'⌝ ∗ impl_inv w' (delete u L))%I.
Proof.
  intros Ha Hab. apply phoare_wpp. intros R. iIntros "[(HI & Hu & Hg) HR]".
  iApply (wpp_handle_deallocate tid u a front rear w L); [done|done|]. iFrame "HI Hu Hg".
  iIntros (w' _) "HI". iApply "HR". iExists w'. by iFrame.
Qed.
End proofs.

(** ** Instances *)
Section demo.
#[local] Instance demo_os : OS := bump_os 9.
#[local] Instance demo_laws : OSLaws := bump_laws 9.
Definition demo_impl : AllocatorImpl := AllocatorImpl_init Config.release 1 ∅ (λ _, false) (λ _, false).

Lemma stl_allocate_correct_witness :
  ∃ r h m', run (allocate 24 32 1 1 10) (owning demo_impl) mem_init = Ok (r, h) m'.
Proof.
  assert (valid_alignment 32) as Hal by (exists 5; split; [lia|done]).
  assert (in64 24 ∧ in64 10) as [H24 H10] by (split; by vm_compute).
  pose proof (stl_allocate_correct 24 32 0 1 10 demo_impl ∅ eq_refl H24 Hal H10 eq_refl emp%I mem_init) as H.
  destruct H as ([r h]&m'&Hrun&_).
  { apply sat_start. iSplit; [|done]. iApply impl_inv_init; [by intros ??; rewrite lookup_empty|done]. }
  exists r, h, m'. exact Hrun.
Defined.
Definition demo_array : alloc := MkAlloc 65552 (RawAlloc.MkBase 96 BlockHeader.Small 96 96) 96 Plain.
Lemma stl_deallocate_correct_witness :
  phoare (impl_inv demo_impl {[ 65552 := demo_array ]} ∗ raw 65552 96 ∗ guard_res 65552 demo_array [] [])
    (deallocate 1 65552 4) (owning demo_impl)
    (λ _ h, ∃ w', ⌜h = owning w'⌝ ∗ impl_inv w' (delete 65552 {[ 65552 := demo_array ]}))%I.
Proof. by apply (stl_deallocate_correct 1 65552 4 demo_array [] [] demo_impl {[ 65552 := demo_array ]}). Defined.
End demo.
