(* ===== verification/StdVector.v ===== *)
(** [std::vector] of scalars over [StlAllocator], as src/examples/stl_integration.cpp uses
    it: the storage comes from the allocator, a full vector moves into a larger one,
    and an exception of the allocator leaves the vector as it was. *)

From stdpp Require Import gmap.
From iris.proofmode Require Import proofmode.
From coqutil Require Import Byte Word.LittleEndianList.
From S2P Require Import Prelude.
From S2P Require Import HeapProp.
From S2P Require Import Memory.
From S2P Require Import Platform.
From S2P Require Import Logic.
From S2P Require Import Prog.
From S2P Require Import StatisticsCollector.
From S2P Require Import Config.
From S2P Require Import DebugLayer.
From S2P Require Import AllocatorImpl.
From S2P Require Import AllocatorInv.
From S2P Require Import Allocate.
From S2P Require Import Deallocate.
From S2P Require Import Allocator.
From S2P Require Import Facade.
From S2P Require Import StlAllocator.

Open Scope Z_scope.

(** How far a full vector of [n] elements grows is the library's choice. *)
Class VectorGrowth := { grow : Z → Z }.
(** The new capacity has room for one more, and stays far from the end of [std::size_t]. *)
Class VectorGrowthLaws `{!VectorGrowth} := {
  grow_room n : 0 ≤ n < 2 ^ 32 → n < grow n < W64
}.

(** The object: its allocator, its storage, the elements in it and the elements it
    has room for. *)
Record vector := MkVector { get_allocator : StlAllocator; storage : Z; size : Z; capacity : Z }.
Definition vector_make (a : StlAllocator) : vector := MkVector a 0 0 0.

Section vector.
Context `{HOS : !OS} `{HG : !VectorGrowth} (n : nat) (fuel : nat) (tid : Z).
(** An element is a scalar of [n] bytes, aligned to its size. *)
Notation sizeof := (Z.of_nat n).

Definition vector_release (v : vector) : prog Allocator () :=
  if storage v =? 0 then mret () else StlAllocator.deallocate tid (storage v) (capacity v).
(** The new element goes to the new storage first, then the old ones move. *)
Definition push_back (v : vector) (x : Z) : prog Allocator (option vector) :=
  if size v =? capacity v then
    let room := grow (size v) in
    p ← StlAllocator.allocate sizeof sizeof fuel tid room;
    match p with
    | None => mret None
    | Some p =>
        _ ← io (store n (p + size v * sizeof) x);
        _ ← io (memcpy p (storage v) (size v * sizeof));
        _ ← vector_release v;
        mret (Some (MkVector (get_allocator v) p (size v + 1) room))
    end
  else
    _ ← io (store n (storage v + size v * sizeof) x);
    mret (Some (MkVector (get_allocator v) (storage v) (size v + 1) (capacity v))).
Fixpoint push_all (v : vector) (xs : list Z) : prog Allocator (option vector) :=
  match xs with
  | [] => mret (Some v)
  | x :: xs => r ← push_back v x; match r with None => mret None | Some v => push_all v xs end
  end.
Definition vector_at (v : vector) (i : Z) : cmd Z := load n (storage v + i * sizeof).
Definition back (v : vector) : cmd Z := vector_at v (size v - 1).
Definition vector_destroy (v : vector) : prog Allocator () := vector_release v.
End vector.

Section proofs.
Context `{HOS : !OS, HL : !OSLaws} `{HG : !VectorGrowth, HGL : !VectorGrowthLaws} (n : nat) (fuel : nat) (tid : Z).
Implicit Types (w : AllocatorImpl) (L B : gmap Z alloc) (v : vector) (xs : list Z).
Notation sizeof := (Z.of_nat n).
Context (Hn0 : 0 < sizeof) (Hal : valid_alignment sizeof).

Definition scalar (x : Z) : Prop := 0 ≤ x < 2 ^ (sizeof * 8).
Definition elements xs : list byte := xs ≫= le_split n.
Lemma length_elements xs : Z.of_nat (length (elements xs)) = Z.of_nat (length xs) * sizeof.
Proof.
  unfold elements. induction xs as [|x xs IH]; [done|]. cbn. rewrite length_app length_le_split. lia.
Qed.
(** [v] holds [xs]; the blocks it owns are [B]: none, or its storage. *)
Definition vector_holds v xs B : heapPropI :=
  ⌜size v = Z.of_nat (length xs) ∧ Forall scalar xs⌝ ∗
  (⌜storage v = 0 ∧ capacity v = 0 ∧ xs = [] ∧ B = ∅⌝ ∨
   ∃ a, ⌜storage v ≠ 0 ∧ storage v mod sizeof = 0 ∧ 0 < capacity v ∧ size v ≤ capacity v ∧ B = {[ storage v := a ]} ∧
         a_size a = (capacity v * sizeof)%Z⌝ ∗
     storage v ↦∗ elements xs ∗ raw (storage v + size v * sizeof) ((capacity v - size v) * sizeof) ∗
     guard_res (storage v) a front_guard rear_guard).

Lemma vector_make_holds s : ⊢ vector_holds (vector_make s) [] ∅.
Proof. iSplit; [by iPureIntro|]. by iLeft. Qed.
Lemma elements_raw p xs : p ↦∗ elements xs ⊢ raw p (Z.of_nat (length xs) * sizeof).
Proof. rewrite -length_elements. by iApply raw_intro. Qed.
Lemma wp_memcpy_0 dst src Q : Q () ⊢ wp (memcpy dst src 0) Q.
Proof.
  iIntros "H". iApply (wp_ext (mret ())); [|by iApply wp_ret].
  intros m. unfold memcpy. rewrite bool_decide_eq_false_2; [done|lia].
Qed.
(** Giving the storage back. *)
Lemma wpp_vector_release v xs B w L Φ :
  abortOnError (cfg_of w) = false → B ##ₘ L →
  impl_inv w (B ∪ L) ∗ vector_holds v xs B ∗ (∀ w', ⌜cfg_of w' = cfg_of w⌝ -∗ impl_inv w' L -∗ Φ () (owning w')) ⊢
  wpp (vector_release tid v) (owning w) Φ.
Proof.
  intros Hab Hd. iIntros "(HI & [[%Hsz _] Hv] & HΦ)". unfold vector_release.
  iDestruct "Hv" as "[(-> & _ & _ & ->)|(%a & (%Hs & _ & %Hc & %Hle & -> & %Ha) & Hxs & Hrest & Hg)]".
  - iApply wpp_ret. rewrite map_empty_union. by iApply ("HΦ" with "[//]").
  - rewrite (proj2 (Z.eqb_neq _ 0)) //.
    iApply (wpp_handle_deallocate tid (storage v) a front_guard rear_guard w ({[storage v := a]} ∪ L)); [|done|].
    { by rewrite lookup_union_l' // lookup_singleton_eq. }
    iFrame "HI Hg". iSplitL "Hxs Hrest".
    + assert (capacity v * sizeof = size v * sizeof + (capacity v - size v) * sizeof) as E by lia.
      rewrite Ha E raw_split; [|nia..]. iSplitL "Hxs"; [rewrite Hsz; by iApply elements_raw|done].
    + iIntros (w' [Hcfg _]) "HI". iApply ("HΦ" with "[//]").
      rewrite -insert_union_singleton_l delete_insert_id //. by apply map_disjoint_singleton_l in Hd.
Qed.
(** The new element behind the ones that are there. *)
Lemma wp_store_element p xs room x Q :
  scalar x → p mod sizeof = 0 → Z.of_nat (length xs) < room →
  p ↦∗ elements xs ∗ raw (p + Z.of_nat (length xs) * sizeof) ((room - Z.of_nat (length xs)) * sizeof) ∗
  (p ↦∗ elements (xs ++ [x]) -∗ raw (p + Z.of_nat (length (xs ++ [x])) * sizeof) ((room - Z.of_nat (length (xs ++ [x]))) * sizeof) -∗ Q ()) ⊢
  wp (store n (p + Z.of_nat (length xs) * sizeof) x) Q.
Proof.
  intros Hx Hp Hr. iIntros "(Hxs & Hrest & HQ)".
  assert ((room - Z.of_nat (length xs)) * sizeof = sizeof + (room - Z.of_nat (length (xs ++ [x]))) * sizeof) as E.
  { rewrite length_app. cbn. lia. }
  rewrite E raw_split; [|lia|rewrite length_app; cbn; nia]. iDestruct "Hrest" as "[Hnew Hrest]".
  iApply wp_store_raw; [done| |].
  { rewrite -Zplus_mod_idemp_l Hp Z.mod_mul; lia. }
  iFrame "Hnew". iIntros "[_ Hnew]". iApply ("HQ" with "[Hxs Hnew]").
  - unfold elements. rewrite bind_app bytes_at_app. fold (elements xs). rewrite length_elements. cbn [mbind list_bind].
    rewrite app_nil_r. iFrame.
  - rewrite length_app. cbn [length]. by replace (p + Z.of_nat (length xs + 1) * sizeof) with (p + Z.of_nat (length xs) * sizeof + sizeof) by lia.
Qed.
(** What [push_back] leaves: the vector with one more element, or the vector as it was,
    because the array asked for is too large or the system refused memory. *)
Definition pushed v xs x B w L (r : option vector) (h : Allocator) : heapPropI :=
  ∃ w', ⌜h = owning w' ∧ cfg_of w' = cfg_of w⌝ ∗
  match r with
  | None => ⌜kMaxRequest < grow (size v) * sizeof ∨ os_refused⌝ ∗ impl_inv w' (B ∪ L) ∗ vector_holds v xs B
  | Some v' => ∃ B', ⌜get_allocator v' = get_allocator v ∧ B' ##ₘ L⌝ ∗ impl_inv w' (B' ∪ L) ∗ vector_holds v' (xs ++ [x]) B'
  end.
Lemma wpp_push_back_room v xs x B w L Φ :
  abortOnError (cfg_of w) = false → B ##ₘ L → scalar x → size v ≠ capacity v →
  impl_inv w (B ∪ L) ∗ vector_holds v xs B ∗ (∀ r h, pushed v xs x B w L r h -∗ Φ r h) ⊢
  wpp (push_back n (S fuel) tid v x) (owning w) Φ.
Proof.
  intros Hab Hd Hx Hne. iIntros "(HI & [[%Hsz %Hxs] Hv] & HΦ)". unfold push_back.
  rewrite (proj2 (Z.eqb_neq _ _)) //.
  iDestruct "Hv" as "[(_ & %Hc & -> & _)|(%a & (%Hs & %Hm & %Hc & %Hle & %HB & %Ha) & Hxs & Hrest & Hg)]".
  { cbn in Hsz. lia. }
  iApply wpp_bind. iApply wpp_io. rewrite Hsz. iApply (wp_store_element _ _ (capacity v)); [done|done|lia|].
  iFrame "Hxs Hrest". iIntros "Hxs Hrest". iApply wpp_ret. iApply "HΦ". iExists w. iSplit; [done|]. iExists B. iFrame "HI".
  iSplit; [done|]. iSplit; [iPureIntro; cbn; rewrite length_app; cbn; split; [lia|by apply Forall_app; split; [|constructor]]|].
  iRight. iExists a. cbn [storage capacity size]. rewrite length_app Nat2Z.inj_add. cbn. iFrame. iPureIntro.
  split_and!; [done|done|done|lia|done|done].
Qed.
(** The elements move to a new array. *)
Lemma wpp_move_elements v xs B p Φ (s : Allocator) :
  vector_holds v xs B ∗ raw p (size v * sizeof) ∗
  (vector_holds v xs B -∗ p ↦∗ elements xs -∗ Φ () s) ⊢ wpp (io (memcpy p (storage v) (size v * sizeof))) s Φ.
Proof.
  iIntros "([[%Hsz %Hxs] Hv] & Hp & HΦ)". iApply wpp_io.
  iDestruct "Hv" as "[(%Hs & %Hc & -> & ->)|(%a & %Hw & Hxs & Hrest & Hg)]".
  { rewrite Hsz. iApply wp_memcpy_0. iApply "HΦ"; [|iApply bytes_at_nil]. iSplit; [done|by iLeft]. }
  destruct xs as [|x xs].
  { rewrite Hsz. iApply wp_memcpy_0. iApply ("HΦ" with "[Hxs Hrest Hg]"); [|iApply bytes_at_nil].
    iSplit; [done|]. iRight. iExists a. rewrite Hsz in Hw |- *. by iFrame. }
  iDestruct "Hp" as (bs Hbs) "Hp". iApply (wp_memcpy _ _ bs (elements (x :: xs))).
  { rewrite Hsz. cbn. lia. }
  { done. }
  { by rewrite length_elements Hsz. }
  iFrame "Hp Hxs". iIntros "Hp Hxs". iApply ("HΦ" with "[Hxs Hrest Hg] Hp"). iSplit; [done|]. iRight. iExists a. by iFrame.
Qed.
Lemma valid_alignment_bound al : valid_alignment al → 1 ≤ al ≤ 2 ^ 30.
Proof. intros (k&Hk&->). split; [apply Z.lt_pred_le, Z.pow_pos_nonneg; lia|apply Z.pow_le_mono_r; lia]. Qed.
Lemma wpp_push_back_full v xs x B w L Φ :
  abortOnError (cfg_of w) = false → B ##ₘ L → scalar x → size v < 2 ^ 32 → size v = capacity v →
  impl_inv w (B ∪ L) ∗ vector_holds v xs B ∗ (∀ r h, pushed v xs x B w L r h -∗ Φ r h) ⊢
  wpp (push_back n (S fuel) tid v x) (owning w) Φ.
Proof.
  intros Hab Hd Hx Hmax Hfull. iIntros "(HI & Hv & HΦ)". unfold push_back. rewrite (proj2 (Z.eqb_eq _ _)) //.
  iDestruct "Hv" as "[[%Hsz %Hxs] Hv]". pose proof (valid_alignment_bound _ Hal).
  destruct (grow_room (size v)) as [Hg0 Hg1]; [lia|]. set (room := grow (size v)) in *.
  iApply wpp_bind. iApply (wpp_stl_allocate sizeof sizeof fuel tid room w (B ∪ L)); [done|unfold in64; rewrite W64_eq; lia|done|unfold in64; lia|done|].
  iFrame "HI". iIntros ([p|] h) "H".
  2: { iDestruct "H" as (w' [-> Hwhy]) "HI". iApply wpp_ret. iApply "HΦ". iExists w'.
    assert (cfg_of w' = cfg_of w ∧ (kMaxRequest < room * sizeof ∨ os_refused)) as [Hc Hr].
    { destruct Hwhy as [[Hbig ->]|(e&He&Hc&_)]; (split; [done|]).
      - left. change kMaxRequest with (2 ^ 46). rewrite W64_eq in Hbig. lia.
      - unfold request in He. rewrite (proj2 (Z.eqb_neq _ _)) in He; [|nia]. destruct He as [[_ ?]|(_&_&?)]; [by left|by right]. }
    iFrame. iPureIntro. done. }
  iDestruct "H" as (w1 a (->&Hp&Hnone&Hm&Ha&[Hc1 _])) "(HI & Hraw & Hg)".
  assert (request (room * sizeof) = room * sizeof) as Hreq by (unfold request; rewrite (proj2 (Z.eqb_neq _ _)); nia).
  rewrite Hreq in Ha |- *. apply lookup_union_None in Hnone as [HpB HpL].
  assert (room * sizeof = size v * sizeof + (room - size v) * sizeof) as E by lia.
  rewrite E raw_split; [|nia..]. iDestruct "Hraw" as "[Hold Hnew]".
  assert ((room - size v) * sizeof = sizeof + (room - (size v + 1)) * sizeof) as -> by lia.
  rewrite raw_split; [|lia|nia]. iDestruct "Hnew" as "[Hnew Hrest]".
  iApply wpp_bind. iApply wpp_io. iApply wp_store_raw; [done|rewrite -Zplus_mod_idemp_l Hm Z.mod_mul; lia|].
  iFrame "Hnew". iIntros "[_ Hnew]". iApply wpp_bind. iApply (wpp_move_elements v xs B). iSplitL "Hv"; [by iSplit|].
  iFrame "Hold". iIntros "Hv Hold". iApply wpp_bind. rewrite insert_union_r //.
  iApply (wpp_vector_release v xs B w1 (<[p := a]> L)); [by rewrite Hc1|by apply map_disjoint_insert_r|].
  iFrame "HI Hv". iIntros (w2 Hc2) "HI". iApply wpp_ret. iApply "HΦ". iExists w2. iSplit; [iPureIntro; split; [done|by rewrite Hc2]|].
  iExists {[ p := a ]}. rewrite insert_union_singleton_l. iFrame "HI". iSplit; [iPureIntro; split; [done|by apply map_disjoint_singleton_l]|].
  iSplit; [iPureIntro; cbn; rewrite length_app; cbn; split; [lia|by apply Forall_app; split; [|constructor]]|].
  iRight. iExists a. cbn [storage capacity size]. iFrame "Hg". iSplit; [iPureIntro; split_and!; [done|done|lia|lia|done|done]|].
  unfold elements at 2. rewrite bind_app bytes_at_app. fold (elements xs). rewrite length_elements -Hsz. cbn [mbind list_bind].
  rewrite app_nil_r. iFrame "Hold Hnew". by replace (p + (size v + 1) * sizeof) with (p + size v * sizeof + sizeof) by lia.
Qed.
Lemma wpp_push_back v xs x B w L Φ :
  abortOnError (cfg_of w) = false → B ##ₘ L → scalar x → size v < 2 ^ 32 →
  impl_inv w (B ∪ L) ∗ vector_holds v xs B ∗ (∀ r h, pushed v xs x B w L r h -∗ Φ r h) ⊢
  wpp (push_back n (S fuel) tid v x) (owning w) Φ.
Proof.
  intros ????. destruct (decide (size v = capacity v)); [by apply wpp_push_back_full|by apply wpp_push_back_room].
Qed.
(** A sequence of [push_back]s that ends in a vector, or in an exception of one of them. *)
Definition pushed_all v xs ys w L (r : option vector) (h : Allocator) : heapPropI :=
  ∃ w', ⌜h = owning w' ∧ cfg_of w' = cfg_of w⌝ ∗
  match r with
  | None => ⌜(∃ k, 0 ≤ k < size v + Z.of_nat (length ys) ∧ kMaxRequest < grow k * sizeof) ∨ os_refused⌝
  | Some v' => ∃ B', ⌜get_allocator v' = get_allocator v ∧ B' ##ₘ L⌝ ∗ impl_inv w' (B' ∪ L) ∗ vector_holds v' (xs ++ ys) B'
  end.
Lemma wpp_push_all v xs ys B w L Φ :
  abortOnError (cfg_of w) = false → B ##ₘ L → Forall scalar ys → size v + Z.of_nat (length ys) ≤ 2 ^ 32 →
  impl_inv w (B ∪ L) ∗ vector_holds v xs B ∗ (∀ r h, pushed_all v xs ys w L r h -∗ Φ r h) ⊢
  wpp (push_all n (S fuel) tid v ys) (owning w) Φ.
Proof.
  intros Hab Hd Hys. revert v xs B w Φ Hab Hd. induction Hys as [|y ys Hy Hys IH]; intros v xs B w Φ Hab Hd Hb; iIntros "(HI & Hv & HΦ)"; cbn [push_all].
  { iApply wpp_ret. iApply "HΦ". iExists w. iSplit; [done|]. iExists B. rewrite app_nil_r. by iFrame. }
  cbn [length] in Hb. iApply wpp_bind. iDestruct "Hv" as "[[%Hsz %Hxs] Hv]".
  iApply (wpp_push_back v xs y B w L); [done..|lia|]. iFrame "HI". iSplitL "Hv"; [by iSplit|].
  iIntros ([v'|] h) "(%w1 & [-> %Hc1] & H)".
  2: { iApply wpp_ret. iApply "HΦ". iExists w1. iSplit; [done|]. iDestruct "H" as "[%Hr _]". iPureIntro.
    destruct Hr as [?|?]; [left; exists (size v); split; [cbn; lia|done]|by right]. }
  iDestruct "H" as (B1 [Ha Hd1]) "[HI [[%Hsz1 %Hxs1] Hv]]". rewrite length_app in Hsz1. cbn in Hsz1.
  iApply (IH v' (xs ++ [y]) B1 w1); [by rewrite Hc1|done|lia|]. iFrame "HI". iSplitL "Hv".
  { iSplit; [|done]. iPureIntro. split; [rewrite length_app; cbn; lia|done]. }
  iIntros (r h) "(%w2 & [-> %Hc2] & H)". iApply "HΦ". iExists w2. iSplit; [iPureIntro; by rewrite Hc2|].
  destruct r as [v2|].
  - iDestruct "H" as (B2 [Ha2 Hd2]) "H". iExists B2. rewrite -app_assoc. iFrame. by rewrite Ha2.
  - iDestruct "H" as %Hr. iPureIntro. destruct Hr as [(k&Hk&?)|?]; [left; exists k; split; [cbn; lia|done]|by right].
Qed.
Lemma elements_lookup p xs i x :
  xs !! i = Some x →
  p ↦∗ elements xs ⊣⊢ p ↦∗ elements (take i xs) ∗ (p + Z.of_nat i * sizeof) ↦∗ le_split n x ∗
    (p + Z.of_nat i * sizeof + sizeof) ↦∗ elements (drop (S i) xs).
Proof.
  intros Hi. pose proof (lookup_lt_Some _ _ _ Hi) as Hlt. pose proof (take_drop_middle xs i x Hi) as E.
  rewrite -{1}E. unfold elements. rewrite bind_app bind_cons !bytes_at_app.
  fold (elements (take i xs)) (elements (drop (S i) xs)). rewrite length_elements length_take_le; [|lia].
  by rewrite length_le_split.
Qed.
(** Reading an element in range. *)
Lemma wpp_vector_at v xs B i x s Φ :
  xs !! i = Some x →
  vector_holds v xs B ∗ (vector_holds v xs B -∗ Φ x s) ⊢ wpp (S := Allocator) (io (vector_at n v (Z.of_nat i))) s Φ.
Proof.
  intros Hi. iIntros "[[[%Hsz %Hxs] Hv] HΦ]". iApply wpp_io.
  iDestruct "Hv" as "[(_ & _ & -> & _)|(%a & %Hw & Hxs & Hrest)]"; [done|].
  rewrite elements_lookup //. iDestruct "Hxs" as "(H1 & H2 & H3)".
  iApply (wp_load n _ x). iSplitL "H2".
  - iFrame. iPureIntro. split; [by eapply Forall_lookup_1 in Hxs|]. destruct Hw as (_&Hm&_).
    rewrite -Zplus_mod_idemp_l Hm Z.mod_mul; lia.
  - iIntros "[_ H2]". iApply "HΦ". iSplit; [done|]. iRight. iExists a. rewrite (elements_lookup _ xs i x) //. by iFrame.
Qed.
Lemma vector_holds_size v xs B : xs ≠ [] → vector_holds v xs B ⊢ ⌜size v = Z.of_nat (length xs) ∧ base.size B = 1%nat⌝.
Proof.
  iIntros (Hxs) "[[%Hsz _] [(_ & _ & % & _)|(%a & (_ & _ & _ & _ & -> & _) & _)]]"; [done|]. iPureIntro. split; [done|]. apply map_size_singleton.
Qed.
End proofs.

(** C22: [push_back] on every branch, beside any other blocks of the allocator.  With room the
    element goes behind the others; without, all elements move to a larger array and
    the old one goes back to the allocator, so the vector owns one block at any time;
    and when the allocator throws, the vector, its elements and all the blocks are as
    they were - for which there is a reason: the system refused memory, or the library asked
    for more than the allocator serves. *)
Theorem push_back_correct `{HOS : !OS, HL : !OSLaws} `{HG : !VectorGrowth, HGL : !VectorGrowthLaws} n fuel tid v xs x B w L :
  0 < Z.of_nat n → valid_alignment (Z.of_nat n) → abortOnError (cfg_of w) = false → B ##ₘ L → scalar n x → size v < 2 ^ 32 →
  phoare (impl_inv w (B ∪ L) ∗ vector_holds n v xs B) (push_back n (S fuel) tid v x) (owning w) (pushed n v xs x B w L).
Proof.
  intros. apply phoare_wpp. intros R. iIntros "[[HI Hv] HR]". iApply wpp_push_back; [done..|]. iFrame.
Qed.

(** ** Instances *)
Section demo.
#[local] Instance demo_os : OS := bump_os 9.
#[local] Instance demo_laws : OSLaws := bump_laws 9.
#[local] Instance demo_growth : VectorGrowth := {| grow n := Z.max 1 (2 * n) |}.
#[local] Instance demo_growth_laws : VectorGrowthLaws.
Proof. split. intros n Hn. cbn. rewrite W64_eq. lia. Qed.
Definition demo_impl : AllocatorImpl := AllocatorImpl_init Config.release 1 ∅ (λ _, false) (λ _, false).

Lemma push_back_correct_witness :
  ∃ r h m', run (push_back 4 1 1 (vector_make (MkStl 8)) 7) (owning demo_impl) mem_init = Ok (r, h) m'.
Proof.
  assert (valid_alignment (Z.of_nat 4)) as Hal by (by exists 2).
  assert (scalar 4 7) as Hx by (by vm_compute).
  pose proof (push_back_correct 4 0 1 (vector_make (MkStl 8)) [] 7 ∅ demo_impl ∅ eq_refl Hal eq_refl
    (map_disjoint_empty_l ∅) Hx eq_refl emp%I mem_init) as H.
  destruct H as ([r h]&m'&Hrun&_).
  { apply sat_start. iSplit; [|done]. iSplitL ""; [rewrite map_union_empty|iApply vector_make_holds].
    iApply impl_inv_init; [by intros ??; rewrite lookup_empty|done]. }
  exists r, h, m'. exact Hrun.
Defined.
(** Five elements: arrays of one, two, four and eight; the last is read back. *)
Lemma push_five :
  match run (r ← push_all 4 1 1 (vector_make (MkStl 8)) [10; 20; 30; 40; 50];
             match r with None => mret None | Some v => x ← io (back 4 v); n ← Allocator.statistics; mret (Some (size v, capacity v, x, activeAllocations n)) end)
    (owning demo_impl) mem_init with
  | Ok (Some (5, 8, 50, 1), _) _ => True
  | _ => False
  end.
Proof. by vm_compute. Qed.
End demo.
