(* ===== verification/MemoryResource.v ===== *)
(** src/include/MAlloc/MemoryResource.hpp: the polymorphic memory resource.  A call
    that throws [std::bad_alloc] answers [None]; [self] is the address of the
    resource object. *)

From stdpp Require Import gmap.
From iris.proofmode Require Import proofmode.
From S2P Require Import Prelude.
From S2P Require Import HeapProp.
From S2P Require Import Memory.
From S2P Require Import Platform.
From S2P Require Import Logic.
From S2P Require Import Prog.
From S2P Require Import Config.
From S2P Require Import DebugLayer.
From S2P Require Import AllocatorImpl.
From S2P Require Import AllocatorInv.
From S2P Require Import Allocate.
From S2P Require Import Allocator.
From S2P Require Import Facade.

Record MemoryResource := MkResource { allocator_ : Z }.
(** The constructor. *)
Definition MemoryResource_make (allocator : Z) : MemoryResource := MkResource allocator.

Section MemoryResource.
Context `{HOS : !OS}.

Definition do_allocate (fuel : nat) (tid bytes alignment : Z) : prog Allocator (option Z) :=
  ptr ← (if 16 <? alignment then Allocator.alignedAllocate fuel tid alignment bytes
         else Allocator.allocate fuel tid bytes);
  if ptr =? 0 then mret None else mret (Some ptr).
Definition do_deallocate (tid ptr bytes alignment : Z) : prog Allocator () := Allocator.deallocate tid ptr.
(** Identity of the resource objects, not of their allocators. *)
Definition do_is_equal (self other : Z) : bool := self =? other.
End MemoryResource.

Section proofs.
Context `{HOS : !OS, HL : !OSLaws}.

Definition resource_post bytes alignment w L (r : option Z) (h : Allocator) : heapPropI :=
  match r with
  | None => ∃ w' e, ⌜h = owning w' ∧ alloc_error e (request bytes) ∧ failed w w' e 0⌝ ∗ impl_inv w' L
  | Some u => ∃ w' a, ⌜h = owning w' ∧ u ≠ 0 ∧ L !! u = None ∧ u mod alignment = 0 ∧
        a_size a = request bytes ∧ allocated w w' u (request bytes) (a_reserved a)⌝ ∗
      impl_inv w' (<[u := a]> L) ∗ raw u (request bytes) ∗ guard_res u a front_guard rear_guard
  end.
Lemma wpp_do_allocate fuel tid bytes alignment w L Φ :
  in64 bytes → valid_alignment alignment → abortOnError (cfg_of w) = false →
  impl_inv w L ∗ (∀ r h, resource_post bytes alignment w L r h -∗ Φ r h) ⊢
  wpp (do_allocate (S fuel) tid bytes alignment) (owning w) Φ.
Proof.
  intros Hn Hal Hab. iIntros "[HI HR]". iApply wpp_bind.
  iApply (wpp_plain_or_aligned fuel tid alignment bytes); [done|done|done|]. iFrame "HI".
  iIntros (u h) "(%w' & -> & [[(-> & %e & %He & %Hf) HI]|(%a & %bs & (%Hu & %Hnone & %Hsz & %Hmod & [%Hlen _] & %Hall) & HI & Hu & Hg)])".
  - iApply wpp_ret. iApply "HR". iExists w', e. by iFrame.
  - rewrite (proj2 (Z.eqb_neq u 0)) //. iApply wpp_ret. iApply "HR". iExists w', a. iFrame "HI Hg".
    iSplit; [done|]. rewrite -Hlen. by iApply raw_intro.
Qed.
(** [MemoryResource::do_allocate] returns memory of the size and alignment asked
    for or throws, for every power-of-two alignment up to 2^30 - sixteen and below
    included, where the alignment is not passed on. *)
Theorem resource_allocate_correct fuel tid bytes alignment w L :
  in64 bytes → valid_alignment alignment → abortOnError (cfg_of w) = false →
  phoare (impl_inv w L) (do_allocate (S fuel) tid bytes alignment) (owning w) (resource_post bytes alignment w L).
Proof. intros. apply phoare_wpp. intros R. by apply wpp_do_allocate. Qed.
End proofs.

(** ** Instances *)
Section demo.
#[local] Instance demo_os : OS := bump_os 9.
#[local] Instance demo_laws : OSLaws := bump_laws 9.
Definition demo_impl : AllocatorImpl := AllocatorImpl_init Config.release 1 ∅ (λ _, false) (λ _, false).

Lemma resource_allocate_correct_witness :
  ∃ r h m', run (do_allocate 1 1 1000 8) (owning demo_impl) mem_init = Ok (r, h) m'.
Proof.
  assert (valid_alignment 8) as Hal by (exists 3; split; [lia|done]).
  assert (in64 1000) as Hn by (by vm_compute).
  pose proof (resource_allocate_correct 0 1 1000 8 demo_impl ∅ Hn Hal eq_refl emp%I mem_init) as H.
  destruct H as ([r h]&m'&Hrun&_).
  { apply sat_start. iSplit; [|done]. iApply impl_inv_init; [by intros ??; rewrite lookup_empty|done]. }
  exists r, h, m'. exact Hrun.
Defined.
End demo.
