(* ===== verification/PmrMap.v ===== *)
(** [std::pmr::map<int, std::pmr::string>] over [MemoryResource], as
    src/examples/stl_integration.cpp uses it: every entry is a node that the resource
    allocates, with the key and the string built in it.  The links of the tree, which
    only the library reads, are bytes of the node that are left alone, and a short
    string allocates nothing. *)

From Stdlib Require Import Strings.String.
From stdpp Require Import gmap.
From iris.proofmode Require Import proofmode.
From S2P Require Import Prelude.
From S2P Require Import HeapProp.
From S2P Require Import Memory.
From S2P Require Import Logic.
From S2P Require Import StdString.
From S2P Require Import Prog.
From S2P Require Import Config.
From S2P Require Import DebugLayer.
From S2P Require Import AllocatorImpl.
From S2P Require Import AllocatorInv.
From S2P Require Import Allocate.
From S2P Require Import Deallocate.
From S2P Require Import Allocator.
From S2P Require Import Facade.
From S2P Require Import MemoryResource.

Open Scope Z_scope.

(** The bytes of the links in front of the entry are the library's choice. *)
Class TreeNodes := { node_links : Z }.
Class TreeNodesLaws `{!TreeNodes} := { node_links_ok : 0 ≤ node_links < 2 ^ 20 ∧ node_links mod 8 = 0 }.

(** The object: the resource (by its address), and the nodes by their keys. *)
Record pmr_map := MkMap { resource : Z; nodes : list (Z * Z) }.
Definition map_make (r : Z) : pmr_map := MkMap r [].
Fixpoint find_node (ns : list (Z * Z)) (k : Z) : option Z :=
  match ns with
  | [] => None
  | (k', p) :: ns => if k =? k' then Some p else find_node ns k
  end.

Section map.
Context `{HOS : !OS} `{HN : !TreeNodes} `{HSS : !StdString} (fuel : nat) (tid : Z).

Definition alignof_node : Z := 8.
Definition sizeof_node : Z := node_links + 8 + string_size.
Definition node_key (p : Z) : Z := p + node_links.
Definition node_string (p : Z) : Z := p + node_links + 8.

Definition node_free (p : Z) : prog Allocator () :=
  _ ← io (string_destroy (node_string p)); do_deallocate tid p sizeof_node alignof_node.
(** The entry is built in a new node, which is dropped when the key is there already. *)
Definition emplace (m : pmr_map) (k : Z) (s : string) : prog Allocator (option pmr_map) :=
  p ← do_allocate fuel tid sizeof_node alignof_node;
  match p with
  | None => mret None
  | Some p =>
      _ ← io (store 4 (node_key p) k;; string_construct (node_string p) s);
      match find_node (nodes m) k with
      | Some _ => _ ← node_free p; mret (Some m)
      | None => mret (Some (MkMap (resource m) ((k, p) :: nodes m)))
      end
  end.
(** [at]: [None] is [std::out_of_range]. *)
Definition map_at (m : pmr_map) (k : Z) : prog Allocator (option string) :=
  match find_node (nodes m) k with
  | None => mret None
  | Some p => s ← io (string_read (node_string p)); mret (Some s)
  end.
Fixpoint nodes_free (ns : list (Z * Z)) : prog Allocator () :=
  match ns with
  | [] => mret ()
  | (_, p) :: ns => _ ← node_free p; nodes_free ns
  end.
Definition map_destroy (m : pmr_map) : prog Allocator () := nodes_free (nodes m).
End map.

Section proofs.
Context `{HOS : !OS, HL : !OSLaws} `{HN : !TreeNodes, HNL : !TreeNodesLaws} `{HSS : !StdString} (fuel : nat) (tid : Z).
Implicit Types (w : AllocatorImpl) (L B : gmap Z alloc) (k p : Z) (s : string) (kvs : list (Z * string)).

(** A node with its entry; the nodes of a map, and the blocks they are. *)
Definition node_holds p k s (a : alloc) : heapPropI :=
  ⌜p ≠ 0 ∧ a_size a = sizeof_node⌝ ∗ raw p node_links ∗ node_key p ↦32 k ∗ raw (node_key p + 4) 4 ∗
  string_at (node_string p) s ∗ guard_res p a front_guard rear_guard.
Fixpoint nodes_hold (ns : list (Z * Z)) kvs B : heapPropI :=
  match ns, kvs with
  | [], [] => ⌜B = ∅⌝
  | (k, p) :: ns, (k', s) :: kvs => ∃ a B', ⌜k = k' ∧ B = <[p := a]> B' ∧ B' !! p = None ∧ StdStringLaws s⌝ ∗
      node_holds p k s a ∗ nodes_hold ns kvs B'
  | _, _ => False
  end.
Definition map_holds (m : pmr_map) kvs B : heapPropI := nodes_hold (nodes m) kvs B.
Lemma map_make_holds r : ⊢ map_holds (map_make r) [] ∅.
Proof. by iPureIntro. Qed.
Lemma sizeof_node_ok s : StdStringLaws s → 0 < sizeof_node ≤ kMaxRequest ∧ request sizeof_node = sizeof_node.
Proof.
  intros Hs. destruct string_size_ok as [? _], node_links_ok as [? _]. unfold sizeof_node, request.
  change kMaxRequest with (2 ^ 46). rewrite (proj2 (Z.eqb_neq _ _)); lia.
Qed.
Lemma node_raw p s :
  StdStringLaws s → raw p sizeof_node ⊣⊢ raw p node_links ∗ raw (node_key p) 4 ∗ raw (node_key p + 4) 4 ∗ raw (node_string p) string_size.
Proof.
  intros Hs. destruct string_size_ok as [? _], node_links_ok as [? _]. unfold sizeof_node, node_key, node_string.
  replace (node_links + 8 + string_size) with (node_links + (4 + (4 + string_size))) by lia.
  rewrite !raw_split; [|lia..]. by replace (p + node_links + 4 + 4) with (p + node_links + 8) by lia.
Qed.
Lemma wpp_node_free p k s a w L Φ :
  StdStringLaws s → abortOnError (cfg_of w) = false → L !! p = None →
  impl_inv w (<[p := a]> L) ∗ node_holds p k s a ∗ (∀ w', ⌜cfg_of w' = cfg_of w⌝ -∗ impl_inv w' L -∗ Φ () (owning w')) ⊢
  wpp (node_free tid p) (owning w) Φ.
Proof.
  intros Hs Hab Hp. iIntros "(HI & ([%Hp0 %Ha] & Hl & Hk & Hpad & Hs & Hg) & HΦ)". iApply wpp_bind. iApply wpp_io.
  iApply wp_string_destroy. iFrame "Hs". iIntros "Hs".
  iApply (wpp_handle_deallocate tid p a front_guard rear_guard w (<[p := a]> L)); [apply lookup_insert_eq|done|].
  iFrame "HI Hg". iSplitL "Hl Hk Hpad Hs".
  - rewrite Ha (node_raw _ s). iFrame "Hl Hpad Hs". by iApply (word_raw 4).
  - iIntros (w' [Hc _]) "HI". iApply ("HΦ" with "[//]"). by rewrite delete_insert_id.
Qed.
(** A node in which the entry has been built. *)
Lemma wp_node_build p k s a Q :
  StdStringLaws s → 0 ≤ k < 2 ^ 32 → p ≠ 0 → p mod 8 = 0 → a_size a = sizeof_node →
  raw p sizeof_node ∗ guard_res p a front_guard rear_guard ∗ (node_holds p k s a -∗ Q ()) ⊢
  wp (store 4 (node_key p) k;; string_construct (node_string p) s) Q.
Proof.
  intros Hs Hk Hp Hm Ha. iIntros "(Hraw & Hg & HQ)". destruct node_links_ok as [_ Hl].
  assert (node_key p mod 8 = 0) as Hkey by (unfold node_key; by rewrite -Zplus_mod_idemp_l Hm).
  assert (node_string p mod 8 = 0) as Hstr by (unfold node_string; by rewrite -Zplus_mod_idemp_l Hkey).
  rewrite (node_raw _ s). iDestruct "Hraw" as "(Hlinks & Hkey & Hpad & Hs)".
  iApply wp_bind. iApply wp_store_raw; [cbn; lia|align_lia|]. iFrame "Hkey". iIntros "Hkey".
  iApply wp_string_construct; [done|]. iFrame "Hs". iIntros "Hs". iApply "HQ". iFrame. done.
Qed.
Lemma nodes_hold_keys ns kvs B : nodes_hold ns kvs B ⊢ ⌜ns.*1 = kvs.*1⌝.
Proof.
  revert kvs B. induction ns as [|[k p] ns IH]; intros [|[k' s] kvs] B; cbn; try (iIntros "H"; by iDestruct "H" as %?).
  iIntros "(%a & %B' & (-> & _) & _ & H)". by iDestruct (IH with "H") as %->.
Qed.
Lemma find_node_None ns k : find_node ns k = None ↔ k ∉ ns.*1.
Proof.
  induction ns as [|[k' p] ns IH]; cbn; [set_solver|]. destruct (Z.eqb_spec k k') as [->|Hne]; [set_solver|].
  rewrite IH. set_solver.
Qed.
(** What [emplace] leaves: the map with the entry unless the key was there, or the map
    as it was, because the system refused memory. *)
Definition emplaced (m : pmr_map) kvs k s B w L (r : option pmr_map) (h : Allocator) : heapPropI :=
  ∃ w', ⌜h = owning w' ∧ cfg_of w' = cfg_of w⌝ ∗
  match r with
  | None => ⌜os_refused⌝ ∗ impl_inv w' (B ∪ L) ∗ map_holds m kvs B
  | Some m' => ∃ B', ⌜resource m' = resource m ∧ B' ##ₘ L⌝ ∗ impl_inv w' (B' ∪ L) ∗
      map_holds m' (if decide (k ∈ kvs.*1) then kvs else (k, s) :: kvs) B'
  end.
Lemma wpp_emplace m kvs k s B w L Φ :
  StdStringLaws s → 0 ≤ k < 2 ^ 32 → abortOnError (cfg_of w) = false → B ##ₘ L →
  impl_inv w (B ∪ L) ∗ map_holds m kvs B ∗ (∀ r h, emplaced m kvs k s B w L r h -∗ Φ r h) ⊢
  wpp (emplace (S fuel) tid m k s) (owning w) Φ.
Proof.
  intros Hs Hk Hab Hd. iIntros "(HI & Hm & HΦ)". destruct (sizeof_node_ok s Hs) as [Hsz Hreq].
  iApply wpp_bind. iApply (wpp_do_allocate fuel tid sizeof_node alignof_node w (B ∪ L)).
  { change kMaxRequest with (2 ^ 46) in Hsz. unfold in64. rewrite W64_eq. lia. }
  { by exists 3. }
  { done. }
  iFrame "HI". rewrite /resource_post Hreq. iIntros ([p|] h) "H".
  2: { iDestruct "H" as (w' e (->&He&Hc&_)) "HI". iApply wpp_ret. iApply "HΦ". iExists w'. iFrame. iPureIntro.
    split; [done|]. destruct He as [[_ ?]|(_&_&?)]; [lia|done]. }
  iDestruct "H" as (w1 a (->&Hp&Hnone&Hmod&Ha&[Hc1 _])) "(HI & Hraw & Hg)". iDestruct (nodes_hold_keys with "Hm") as %Hkeys.
  iApply wpp_bind. iApply wpp_io. iApply (wp_node_build p k s a); [done..|]. iFrame "Hraw Hg". iIntros "Hnode".
  destruct (find_node (nodes m) k) as [q|] eqn:Hf.
  - iApply wpp_bind. iApply (wpp_node_free p k s a w1 (B ∪ L)); [by rewrite ?Hc1..|]. iFrame "HI Hnode".
    iIntros (w2 Hc2) "HI". iApply wpp_ret. iApply "HΦ". iExists w2. iSplit; [iPureIntro; split; [done|by rewrite Hc2]|].
    iExists B. rewrite decide_True. { by iFrame. }
    rewrite -Hkeys. destruct (decide (k ∈ (nodes m).*1)) as [|Hn]; [done|]. apply find_node_None in Hn. congruence.
  - iApply wpp_ret. iApply "HΦ". iExists w1. iSplit; [done|]. iExists (<[p := a]> B).
    apply lookup_union_None in Hnone as [HpB HpL]. rewrite decide_False; [|rewrite -Hkeys; by apply find_node_None].
    rewrite -insert_union_l. iFrame "HI". iSplit; [iPureIntro; split; [done|by apply map_disjoint_insert_l]|].
    unfold map_holds. cbn [nodes nodes_hold]. iExists a, B. by iFrame.
Qed.
(** A new key. *)
Lemma emplaced_new m kvs k s B w L m' h :
  k ∉ kvs.*1 → emplaced m kvs k s B w L (Some m') h ⊢
  ∃ w' B', ⌜h = owning w' ∧ cfg_of w' = cfg_of w ∧ B' ##ₘ L⌝ ∗ impl_inv w' (B' ∪ L) ∗ map_holds m' ((k, s) :: kvs) B'.
Proof.
  iIntros (Hk) "(%w' & [-> %Hc] & %B' & [_ %Hd] & HI & Hm)". rewrite decide_False //. iExists w', B'. by iFrame.
Qed.
(** Looking an entry up. *)
Lemma nodes_hold_lookup ns kvs B i k s p :
  find_node ns k = Some p → kvs !! i = Some (k, s) → NoDup kvs.*1 →
  nodes_hold ns kvs B ⊢ string_at (node_string p) s ∗ ⌜StdStringLaws s⌝ ∗ (string_at (node_string p) s -∗ nodes_hold ns kvs B).
Proof.
  revert kvs B i. induction ns as [|[k' p'] ns IH]; intros [|[k2 s2] kvs] B i Hf Hi Hnd; try (by iIntros "[]"); [done|].
  cbn in Hnd. apply NoDup_cons in Hnd as [Hnew Hnd]. iIntros "(%a & %B' & (-> & % & % & %Hs2) & Hn & H)".
  cbn in Hf. destruct (Z.eqb_spec k k2) as [<-|Hne].
  - injection Hf as ->. assert (s2 = s) as ->.
    { destruct i as [|i]; [by injection Hi|]. destruct Hnew. cbn in Hi. apply list_elem_of_lookup. exists i. by rewrite list_lookup_fmap Hi. }
    iDestruct "Hn" as "(%Hn & Hl & Hk & Hpad & $ & Hg)". iSplit; [done|]. iIntros "Hs". iExists a, B'. iFrame. done.
  - destruct i as [|i]; [injection Hi; congruence|]. iDestruct (IH kvs B' i with "H") as "($ & $ & H)"; [done..|].
    iIntros "Hs". iExists a, B'. iFrame "Hn". iSplit; [done|]. by iApply "H".
Qed.
Lemma wpp_map_at m kvs i k s B h Φ :
  kvs !! i = Some (k, s) → NoDup kvs.*1 →
  map_holds m kvs B ∗ (map_holds m kvs B -∗ Φ (Some s) h) ⊢ wpp (map_at m k) h Φ.
Proof.
  intros Hi Hnd. iIntros "[Hm HΦ]". iDestruct (nodes_hold_keys with "Hm") as %Hkeys. unfold map_at.
  destruct (find_node (nodes m) k) as [p|] eqn:Hf.
  - iDestruct (nodes_hold_lookup with "Hm") as "(Hs & %Hs & Hm)"; [done..|]. iApply wpp_bind. iApply wpp_io.
    iApply wp_string_read. iFrame "Hs". iIntros "Hs". iApply wpp_ret. iApply "HΦ". by iApply "Hm".
  - apply find_node_None in Hf. destruct Hf. rewrite Hkeys. apply list_elem_of_lookup. exists i. by rewrite list_lookup_fmap Hi.
Qed.
(** The destructor gives the nodes back. *)
Lemma wpp_nodes_free ns kvs B w L Φ :
  abortOnError (cfg_of w) = false → B ##ₘ L →
  impl_inv w (B ∪ L) ∗ nodes_hold ns kvs B ∗ (∀ w', ⌜cfg_of w' = cfg_of w⌝ -∗ impl_inv w' L -∗ Φ () (owning w')) ⊢
  wpp (nodes_free tid ns) (owning w) Φ.
Proof.
  revert kvs B w Φ. induction ns as [|[k p] ns IH]; intros [|[k' s] kvs] B w Φ Hab Hd; iIntros "(HI & Hn & HΦ)"; cbn [nodes_hold nodes_free];
    try (by iDestruct "Hn" as %?).
  { iDestruct "Hn" as %->. rewrite map_empty_union. iApply wpp_ret. by iApply ("HΦ" with "[//]"). }
  iDestruct "Hn" as (a B' (<-&->&Hp&Hs)) "[Hn H]". apply map_disjoint_insert_l in Hd as [HpL Hd].
  rewrite -insert_union_l. iApply wpp_bind. iApply (wpp_node_free p k s a w (B' ∪ L)); [done..|by apply lookup_union_None|].
  iFrame "HI Hn". iIntros (w1 Hc1) "HI". iApply (IH kvs B' w1); [by rewrite Hc1|done|]. iFrame. iIntros (w2 Hc2) "HI".
  iApply ("HΦ" with "[%] HI"). by rewrite Hc2.
Qed.
Lemma nodes_hold_size ns kvs B : nodes_hold ns kvs B ⊢ ⌜size B = length kvs⌝.
Proof.
  revert kvs B. induction ns as [|[k p] ns IH]; intros [|[k' s] kvs] B; cbn [nodes_hold]; try (iIntros "H"; by iDestruct "H" as %?).
  - iIntros (->). by rewrite map_size_empty.
  - iIntros "(%a & %B' & (_ & -> & %Hp & _) & _ & H)". iDestruct (IH with "H") as %Hsz. by rewrite map_size_insert_None // Hsz.
Qed.
End proofs.
