(* ===== verification/Client.v ===== *)
(** The allocator as its clients see it: an abstract specification over the blocks
    the client holds and their contents, and the proof that [AllocatorImpl]
    refines it, one operation at a time and for whole executions. *)

From stdpp Require Import gmap.
From iris.proofmode Require Import proofmode.
From S2P Require Import Prelude.
From S2P Require Import HeapProp.
From S2P Require Import Memory.
From S2P Require Import Logic.
From S2P Require Import BlockHeader.
From S2P Require Import Prog.
From S2P Require Import StatisticsCollector.
From S2P Require Import Config.
From S2P Require Import DebugLayer.
From S2P Require Import AllocatorImpl.
From S2P Require Import SmallTier.
From S2P Require Import RawAlloc.
From S2P Require Import AllocatorInv.
From S2P Require Import Allocate.
From S2P Require Import Deallocate.

(** ** The specification *)

(** The blocks the client holds, with what is in them, and the pointers that have
    been freed and not handed out again. *)
Record spec := MkSpec { s_live : gmap Z (list byte); s_freed : gset Z }.
Definition spec_init : spec := MkSpec ∅ ∅.
Definition add_block (u : Z) (bs : list byte) (σ : spec) : spec :=
  MkSpec (<[u := bs]> (s_live σ)) (s_freed σ ∖ {[ u ]}).
Definition remove_block (u : Z) (σ : spec) : spec :=
  MkSpec (delete u (s_live σ)) ({[ u ]} ∪ s_freed σ).

(** What a client can ask for; [Poke] and [Peek] are its own accesses to byte [i]
    of a block, [ThreadExit] the end of the calling thread. *)
Inductive op :=
  | Malloc (size : Z)
  | AlignedMalloc (alignment size : Z)
  | Free (ptr : Z)
  | Realloc (ptr newSize : Z)
  | SizeOf (ptr : Z)
  | LiveCount
  | Poke (ptr i : Z) (b : byte)
  | Peek (ptr i : Z)
  | ThreadExit.
Inductive answer :=
  | APtr (r : expected Z)
  | AUnit (r : expected ())
  | ANum (n : Z)
  | AByte (b : byte)
  | ADone.

(** An address for [n] bytes, apart from every block of [live]; a new block there,
    with what the client finds in it. *)
Definition fresh_addr (live : gmap Z (list byte)) (n align u : Z) : Prop :=
  n ≤ kMaxRequest ∧ 0 < u ∧ u mod align = 0 ∧ u + n ≤ W64 ∧
  (∀ v vs, live !! v = Some vs → u + n ≤ v ∨ v + Z.of_nat (length vs) ≤ u).
Definition fresh_block (cfg : AllocatorConfig) (σ : spec) (n align u : Z) (bs : list byte) : Prop :=
  fresh_addr (s_live σ) n align u ∧ fresh_bytes cfg n bs.
Definition tracked (cfg : AllocatorConfig) (σ : spec) (u : Z) : Prop :=
  enableLeakTracking cfg = true ∧ s_live σ !! u = None.

Section spec.
Context `{HOS : !OS}.

Inductive spec_step (cfg : AllocatorConfig) (σ : spec) : op → answer → spec → Prop :=
  | SMalloc n u bs :
      fresh_block cfg σ (request n) 16 u bs →
      spec_step cfg σ (Malloc n) (APtr (inl u)) (add_block u bs σ)
  | SMallocFail n e :
      alloc_error e (request n) → spec_step cfg σ (Malloc n) (APtr (inr e)) σ
  | SAligned al n u bs :
      valid_alignment al → fresh_block cfg σ (request n) al u bs →
      spec_step cfg σ (AlignedMalloc al n) (APtr (inl u)) (add_block u bs σ)
  | SAlignedFail al n e :
      valid_alignment al → alloc_error e (request n) →
      spec_step cfg σ (AlignedMalloc al n) (APtr (inr e)) σ
  | SAlignedBad al n :
      ¬ valid_alignment al → spec_step cfg σ (AlignedMalloc al n) (APtr (inr InvalidAlignment)) σ
  | SFreeNull : spec_step cfg σ (Free 0) (AUnit (inl ())) σ
  | SFree u bs :
      s_live σ !! u = Some bs → spec_step cfg σ (Free u) (AUnit (inl ())) (remove_block u σ)
  | SFreeBad u :
      u ≠ 0 → tracked cfg σ u →
      spec_step cfg σ (Free u)
        (AUnit (inr (if bool_decide (u ∈ s_freed σ) then DoubleFree else InvalidPointer))) σ
  | SReallocNull n r σ' :
      spec_step cfg σ (Malloc n) r σ' → spec_step cfg σ (Realloc 0 n) r σ'
  | SReallocZero u r σ' :
      u ≠ 0 → spec_step cfg σ (Free u) (AUnit r) σ' →
      spec_step cfg σ (Realloc u 0) (APtr (match r with inl _ => inl 0 | inr e => inr e end)) σ'
  | SRealloc u bs n u' bs' :
      n ≠ 0 → s_live σ !! u = Some bs → u' ≠ u →
      fresh_addr (delete u (s_live σ)) n 16 u' → Z.of_nat (length bs') = n →
      (∀ i, Z.of_nat i < Z.min (Z.of_nat (length bs)) n → bs' !! i = bs !! i) →
      spec_step cfg σ (Realloc u n) (APtr (inl u')) (remove_block u (add_block u' bs' σ))
  | SReallocFail u bs n e :
      n ≠ 0 → s_live σ !! u = Some bs → alloc_error e n →
      spec_step cfg σ (Realloc u n) (APtr (inr e)) σ
  | SReallocBad u n :
      u ≠ 0 → n ≠ 0 → tracked cfg σ u → spec_step cfg σ (Realloc u n) (APtr (inr InvalidPointer)) σ
  | SSizeOf u bs :
      s_live σ !! u = Some bs → spec_step cfg σ (SizeOf u) (ANum (Z.of_nat (length bs))) σ
  | SSizeOfBad u : u = 0 ∨ tracked cfg σ u → spec_step cfg σ (SizeOf u) (ANum 0) σ
  | SLiveCount :
      spec_step cfg σ LiveCount
        (ANum (if enableLeakTracking cfg then Z.of_nat (size (s_live σ)) else 0)) σ
  | SPoke u i b bs :
      s_live σ !! u = Some bs → 0 ≤ i < Z.of_nat (length bs) →
      spec_step cfg σ (Poke u i b) ADone (MkSpec (<[u := <[Z.to_nat i := b]> bs]> (s_live σ)) (s_freed σ))
  | SPeek u i b bs :
      s_live σ !! u = Some bs → 0 ≤ i → bs !! Z.to_nat i = Some b →
      spec_step cfg σ (Peek u i) (AByte b) σ
  | SThreadExit : spec_step cfg σ ThreadExit ADone σ.

(** The client's obligations: sizes are machine words, it touches only bytes of
    blocks it holds, and, unless the pointers are tracked, it passes only pointers
    to blocks it holds. *)
Definition known_ptr (cfg : AllocatorConfig) (σ : spec) (u : Z) : Prop :=
  u = 0 ∨ is_Some (s_live σ !! u) ∨ enableLeakTracking cfg = true.
Definition in_block (σ : spec) (u i : Z) : Prop :=
  ∃ bs, s_live σ !! u = Some bs ∧ 0 ≤ i < Z.of_nat (length bs).
Definition valid (cfg : AllocatorConfig) (σ : spec) (o : op) : Prop :=
  match o with
  | Malloc n => in64 n
  | AlignedMalloc al n => in64 al ∧ in64 n
  | Free u | SizeOf u => known_ptr cfg σ u
  | Realloc u n => known_ptr cfg σ u ∧ in64 n
  | LiveCount | ThreadExit => True
  | Poke u i _ | Peek u i => in_block σ u i
  end.

(** ** The program *)
Definition exec (fuel : nat) (tid : Z) (o : op) : prog AllocatorImpl answer :=
  match o with
  | Malloc n => r ← allocate fuel tid n; mret (APtr r)
  | AlignedMalloc al n => r ← alignedAllocate fuel tid al n; mret (APtr r)
  | Free u => r ← deallocate tid u; mret (AUnit r)
  | Realloc u n => r ← reallocate fuel tid u n; mret (APtr r)
  | SizeOf u => n ← allocationSize u; mret (ANum n)
  | LiveCount => n ← liveAllocationCount; mret (ANum n)
  | Poke u i b => _ ← io (store_byte (u + i) b); mret ADone
  | Peek u i => b ← io (load_byte (u + i)); mret (AByte b)
  | ThreadExit => _ ← thread_exit tid; mret ADone
  end.
End spec.

(** ** The simulation *)
Section simulation.
Context `{HOS : !OS, HL : !OSLaws}.
Implicit Types (w : AllocatorImpl) (L : gmap Z alloc) (a : alloc) (u : Z) (σ : spec).

(** The client's memory: the bytes of its blocks, and the guards it never touches. *)
Definition held (u : Z) (a : alloc) (bs : list byte) : heapPropI :=
  ⌜Z.of_nat (length bs) = a_size a⌝ ∗ u ↦∗ bs ∗ guard_res u a front_guard rear_guard.
Definition client_res (L : gmap Z alloc) (live : gmap Z (list byte)) : heapPropI :=
  [∗ map] u ↦ a;bs ∈ L;live, held u a bs.
Definition client_inv (cfg : AllocatorConfig) (w : AllocatorImpl) (σ : spec) : heapPropI :=
  ⌜cfg_of w = cfg ∧
    (enableLeakTracking cfg = true → freed_ (AllocatorImpl.debug_ w) = s_freed σ)⌝ ∗
  ∃ L, impl_inv w L ∗ client_res L (s_live σ).

Lemma client_res_none L live u : client_res L live ⊢ ⌜L !! u = None ↔ live !! u = None⌝.
Proof.
  iIntros "H". iDestruct (big_sepM2_lookup_iff with "H") as %Hiff. iPureIntro.
  specialize (Hiff u). rewrite !eq_None_not_Some. by rewrite Hiff.
Qed.
Lemma client_res_some L live u bs :
  live !! u = Some bs → client_res L live ⊢ ⌜is_Some (L !! u)⌝.
Proof.
  intros Hu. iIntros "H". iDestruct (big_sepM2_lookup_iff with "H") as %Hiff. iPureIntro.
  apply Hiff. eauto.
Qed.
Lemma client_res_insert L live u a bs :
  L !! u = None → held u a bs ∗ client_res L live ⊢ client_res (<[u := a]> L) (<[u := bs]> live).
Proof.
  intros Hu. iIntros "[Hh H]". iDestruct (client_res_none _ _ u with "H") as %Hn.
  unfold client_res. rewrite big_sepM2_insert; [iFrame|done|by apply Hn].
Qed.
Lemma client_res_delete L live u a bs :
  L !! u = Some a → live !! u = Some bs →
  client_res L live ⊣⊢ held u a bs ∗ client_res (delete u L) (delete u live).
Proof. intros. by apply big_sepM2_delete. Qed.

(** Blocks that the client holds do not overlap a block it does not hold yet. *)
Lemma held_apart L live u a bs :
  live_ok L → 0 < a_size a →
  held u a bs ∗ client_res L live ⊢
  ⌜∀ v vs, live !! v = Some vs → u + a_size a ≤ v ∨ v + Z.of_nat (length vs) ≤ u⌝.
Proof.
  intros Hlive Hsz. iIntros "[(%Hlen & Hu & _) H]" (v vs Hv).
  iDestruct (client_res_some with "H") as %[a' Ha']; [done|].
  iDestruct (big_sepM2_lookup _ L live v a' vs with "H") as "(%Hlen' & Hv & _)"; [done|done|].
  destruct (Hlive v a' Ha') as (_&[? _]&_). rewrite -Hlen.
  iApply bytes_at_disjoint; [lia|lia|iFrame].
Qed.

(** What an allocation that succeeded gives the client. *)
Lemma client_allocated cfg w w' σ L n align u a bs :
  cfg_of w = cfg → (enableLeakTracking cfg = true → freed_ (AllocatorImpl.debug_ w) = s_freed σ) →
  L !! u = None → alloc_wf u a → a_size a = n → u mod align = 0 →
  allocated w w' u n (a_reserved a) → fresh_bytes cfg n bs →
  impl_inv w' (<[u := a]> L) ∗ u ↦∗ bs ∗ guard_res u a front_guard rear_guard ∗
  client_res L (s_live σ) ⊢
  ⌜fresh_block cfg σ n align u bs⌝ ∗ client_inv cfg w' (add_block u bs σ).
Proof.
  intros Hc Hf Hu Hwf Hn Hal Hall Hfr. iIntros "(HI & Hu & Hg & Hcl)".
  iDestruct (impl_inv_live with "HI") as %Hlive. pose proof Hwf as (_&Hsz&_). pose proof Hfr as [Hlen _].
  iDestruct (bytes_at_range with "Hu") as %Hrange; [lia|].
  iAssert (held u a bs) with "[Hu Hg]" as "Hh"; [iSplit; [by rewrite Hn|iFrame]|].
  iAssert ⌜∀ v vs, s_live σ !! v = Some vs → u + n ≤ v ∨ v + Z.of_nat (length vs) ≤ u⌝%I as %Hap.
  { rewrite -Hn. iApply (held_apart L); [|lia|iFrame]. intros v a' Ha'. apply Hlive.
    rewrite lookup_insert_ne; [done|]. congruence. }
  iSplit.
  - iPureIntro. split; [|done]. unfold fresh_addr. split_and!; try done; lia.
  - iSplit.
    + iPureIntro. destruct Hall as (Hc'&_&Hd&_). rewrite Hc' Hd. split; [done|]. intros Hlk.
      unfold alloc_debug. rewrite Hc Hlk. cbn [freed_ s_freed add_block]. by rewrite Hf.
    + iExists _. iFrame "HI". iApply client_res_insert; [done|]. iFrame.
Qed.
Lemma client_failed cfg w w' σ L e p :
  cfg_of w = cfg → (enableLeakTracking cfg = true → freed_ (AllocatorImpl.debug_ w) = s_freed σ) →
  failed w w' e p → impl_inv w' L ∗ client_res L (s_live σ) ⊢ client_inv cfg w' σ.
Proof.
  intros Hc Hf (Hc'&_&Hd&_). iIntros "[HI Hcl]". iSplit; [|iExists L; iFrame].
  iPureIntro. by rewrite Hc' Hd.
Qed.
Lemma client_deallocated cfg w w' σ L u a bs front rear :
  cfg_of w = cfg → (enableLeakTracking cfg = true → freed_ (AllocatorImpl.debug_ w) = s_freed σ) →
  L !! u = Some a → s_live σ !! u = Some bs → deallocated w w' u a front rear →
  impl_inv w' (delete u L) ∗ client_res (delete u L) (delete u (s_live σ)) ⊢
  client_inv cfg w' (remove_block u σ).
Proof.
  intros Hc Hf Ha Hbs (Hc'&_&Hd&_). iIntros "[HI Hcl]". iSplit; [|iExists _; iFrame].
  iPureIntro. rewrite Hc' Hd. split; [done|]. intros Hlk. unfold free_debug. rewrite Hc Hlk.
  cbn [freed_ s_freed remove_block]. by rewrite Hf.
Qed.

(** ** The operations *)
Lemma client_malloc fuel tid n cfg w σ Φ :
  abortOnError cfg = false → in64 n →
  client_inv cfg w σ ∗
  (∀ r w' σ', ⌜spec_step cfg σ (Malloc n) (APtr r) σ'⌝ -∗ client_inv cfg w' σ' -∗ Φ r w') ⊢
  wpp (allocate (S fuel) tid n) w Φ.
Proof.
  intros Hab Hn. iIntros "[([%Hc %Hf] & %L & HI & Hcl) HΦ]".
  iApply wpp_allocate; [done|by rewrite Hc|]. iFrame "HI". iIntros ([u|e] w') "H".
  - iDestruct "H" as (a bs (?&?&Hsz&_&?&?&?)) "(HI & Hu & Hg)". rewrite Hc in H3.
    iDestruct (client_allocated cfg w w' σ L with "[$HI $Hu $Hg $Hcl]") as "[% H]"; try done.
    iApply ("HΦ" with "[%] H"). by constructor.
  - iDestruct "H" as "[[% %] HI]". iApply ("HΦ" with "[%]"); [by constructor|].
    iApply client_failed; [done|done|done|iFrame].
Qed.

Lemma client_aligned fuel tid al n cfg w σ Φ :
  abortOnError cfg = false → in64 al → in64 n →
  client_inv cfg w σ ∗
  (∀ r w' σ', ⌜spec_step cfg σ (AlignedMalloc al n) (APtr r) σ'⌝ -∗ client_inv cfg w' σ' -∗ Φ r w') ⊢
  wpp (alignedAllocate (S fuel) tid al n) w Φ.
Proof.
  intros Hab Hal Hn. iIntros "[([%Hc %Hf] & %L & HI & Hcl) HΦ]".
  iApply wpp_alignedAllocate; [done|done|by rewrite Hc|]. iFrame "HI".
  iIntros (r w') "[[(%Hv & -> & %) HI]|[%Hv H]]".
  { iApply ("HΦ" with "[%]"); [by constructor|]. iApply client_failed; [done|done|done|iFrame]. }
  destruct r as [u|e].
  - iDestruct "H" as (a bs (?&?&Hsz&_&?&?&?)) "(HI & Hu & Hg)". rewrite Hc in H3.
    iDestruct (client_allocated cfg w w' σ L with "[$HI $Hu $Hg $Hcl]") as "[% H]"; try done.
    iApply ("HΦ" with "[%] H"). by constructor.
  - iDestruct "H" as "[[% %] HI]". iApply ("HΦ" with "[%]"); [by constructor|].
    iApply client_failed; [done|done|done|iFrame].
Qed.

Lemma client_free tid u cfg w σ Φ :
  abortOnError cfg = false → known_ptr cfg σ u →
  client_inv cfg w σ ∗
  (∀ r w' σ', ⌜spec_step cfg σ (Free u) (AUnit r) σ'⌝ -∗ client_inv cfg w' σ' -∗ Φ r w') ⊢
  wpp (deallocate tid u) w Φ.
Proof.
  intros Hab Hu. iIntros "[([%Hc %Hf] & %L & HI & Hcl) HΦ]".
  destruct (decide (u = 0)) as [->|Hne].
  { iApply wpp_deallocate_null. iFrame "HI". iIntros "HI". iApply ("HΦ" with "[%]"); [constructor|].
    iSplit; [done|]. iExists L. iFrame. }
  destruct (s_live σ !! u) as [bs|] eqn:Hbs.
  - iDestruct (client_res_some with "Hcl") as %[a Ha]; [done|].
    iDestruct (client_res_delete with "Hcl") as "[(%Hlen & Hu & Hg) Hcl]"; [done|done|].
    iApply (wpp_deallocate _ _ a front_guard rear_guard w L); [done|left; by rewrite Hc|].
    iFrame "HI Hg". iSplitL "Hu"; [rewrite -Hlen; by iApply raw_intro|]. iIntros (w' Hde) "HI".
    iApply ("HΦ" with "[%]"); [by econstructor|].
    iApply client_deallocated; [done|done|done|done|done|]. iFrame "Hcl". by iApply freed_inv_done.
  - destruct Hu as [?|[[? ?]|Hlk]]; [done|simplify_eq|].
    iDestruct (client_res_none _ _ u with "Hcl") as %HLu.
    iApply (wpp_deallocate_untracked _ _ _ L); [done|by rewrite Hc|by apply HLu|by rewrite Hc|].
    iFrame "HI". iIntros "HI". pose proof (SFreeBad cfg σ u Hne (conj Hlk Hbs)) as Hstep.
    rewrite -Hf // in Hstep. iApply ("HΦ" with "[//]"). iSplit; [|iExists L; iFrame].
    iPureIntro. by split.
Qed.

Lemma client_realloc fuel tid u n cfg w σ Φ :
  abortOnError cfg = false → known_ptr cfg σ u → in64 n →
  client_inv cfg w σ ∗
  (∀ r w' σ', ⌜spec_step cfg σ (Realloc u n) (APtr r) σ'⌝ -∗ client_inv cfg w' σ' -∗ Φ r w') ⊢
  wpp (reallocate (S fuel) tid u n) w Φ.
Proof.
  intros Hab Hu Hn. iIntros "[Hinv HΦ]". destruct (decide (u = 0)) as [->|Hu0].
  { iApply wpp_reallocate_null. iApply client_malloc; [done|done|]. iFrame "Hinv".
    iIntros (r w' σ' Hr) "H". iApply ("HΦ" with "[%] H"). by constructor. }
  destruct (decide (n = 0)) as [->|Hn0].
  { iApply wpp_reallocate_zero; [done|]. iApply client_free; [done|done|]. iFrame "Hinv".
    iIntros (r w' σ' Hr) "H". iApply ("HΦ" with "[%] H"). by constructor. }
  iDestruct "Hinv" as "([%Hc %Hf] & %L & HI & Hcl)".
  destruct (s_live σ !! u) as [bs|] eqn:Hbs.
  2: { destruct Hu as [?|[[? ?]|Hlk]]; [done|simplify_eq|].
    iDestruct (client_res_none _ _ u with "Hcl") as %HLu.
    iApply (wpp_reallocate_unknown _ _ _ _ _ L);
      [done|done|by rewrite Hc|by apply HLu|by rewrite Hc|].
    iFrame "HI". iIntros "HI". iApply ("HΦ" with "[%]"); [by constructor|].
    iSplit; [|iExists L; iFrame]. iPureIntro. by split. }
  iDestruct (client_res_some with "Hcl") as %[a Ha]; [done|].
  iDestruct (client_res_delete with "Hcl") as "[(%Hlen & Hu & Hg) Hcl]"; [done|done|].
  iApply (wpp_reallocate fuel tid u a bs front_guard rear_guard n w L); [done|done|done|done|by rewrite Hc|].
  iFrame "HI Hu Hg". iSplit.
  { iIntros (e w' [He Hfl]) "HI Hu Hg". iApply ("HΦ" with "[%]"); [by econstructor|].
    iApply client_failed; [done|done|done|]. iFrame "HI". rewrite (client_res_delete L (s_live σ) u a bs) //.
    by iFrame. }
  iIntros (u' a' bs' w1 w' (HLu'&Hwf'&Hsz'&_&Hm&Hlen'&Htake&Hall&Hde)) "HI Hu' Hg'".
  iDestruct (bytes_at_range with "Hu'") as %Hrange; [pose proof Hwf' as (_&?&_); lia|].
  assert (u' ≠ u) as Huu by congruence. pose proof Hwf' as (_&Hpos&_).
  iDestruct (impl_inv_live with "HI") as %Hlive.
  iAssert (held u' a' bs') with "[Hu' Hg']" as "Hh"; [iSplit; [by rewrite Hsz'|iFrame]|].
  iAssert ⌜fresh_addr (delete u (s_live σ)) n 16 u'⌝%I as %Hap.
  { unfold fresh_addr. rewrite -Hsz'. repeat (iSplit; [iPureIntro; lia|]).
    iApply (held_apart (delete u L)); [|lia|iFrame].
    intros v b Hb. apply lookup_delete_Some in Hb as [??]. apply Hlive.
    rewrite lookup_delete_ne // lookup_insert_ne //. congruence. }
  iApply ("HΦ" $! (inl u') w' (remove_block u (add_block u' bs' σ)) with "[%]").
  { econstructor; try done. intros i Hi. rewrite Hlen in Hi.
    rewrite -(lookup_take_lt bs' (Z.to_nat (Z.min (a_size a) n))); [|lia].
    rewrite -(lookup_take_lt bs (Z.to_nat (Z.min (a_size a) n))); [|lia]. by rewrite Htake. }
  destruct Hall as (Hc1&_&Hd1&_). destruct Hde as (Hc'&_&Hd'&_). iSplit.
  - iPureIntro. rewrite Hc' Hd' Hc1. split; [done|]. intros Hlk. unfold free_debug, alloc_debug in *.
    rewrite Hc1 Hc Hlk Hd1 Hc Hlk. cbn [freed_ s_freed remove_block add_block]. by rewrite Hf.
  - iExists _. iFrame "HI". cbn [s_live remove_block add_block].
    rewrite !delete_insert_ne; [|done..]. iApply client_res_insert; [|iFrame].
    by rewrite lookup_delete_ne.
Qed.

Lemma client_sizeOf u cfg w σ Φ :
  known_ptr cfg σ u →
  client_inv cfg w σ ∗
  (∀ n, ⌜spec_step cfg σ (SizeOf u) (ANum n) σ⌝ -∗ client_inv cfg w σ -∗ Φ n w) ⊢
  wpp (allocationSize u) w Φ.
Proof.
  intros Hu. iIntros "[([%Hc %Hf] & %L & HI & Hcl) HΦ]".
  destruct (decide (u = 0)) as [Hz|Hne]; [|destruct (s_live σ !! u) as [bs|] eqn:Hbs].
  - iApply (wpp_allocationSize_unknown _ _ L); [by left|]. iFrame "HI". iIntros "HI".
    iApply ("HΦ" with "[%]"); [constructor; by left|]. iSplit; [done|]. iExists L. iFrame.
  - iDestruct (client_res_some with "Hcl") as %[a Ha]; [done|].
    iDestruct (big_sepM2_lookup_acc with "Hcl") as "[(%Hlen & Hh) Hcl]"; [done|done|].
    iApply wpp_allocationSize; [done|]. iFrame "HI". iIntros "HI". rewrite -Hlen.
    iApply ("HΦ" with "[%]"); [by constructor|]. iSplit; [done|]. iExists L. iFrame "HI". iApply "Hcl". by iFrame.
  - destruct Hu as [?|[[? ?]|Hlk]]; [done|simplify_eq|].
    iDestruct (client_res_none _ _ u with "Hcl") as %HLu.
    iApply (wpp_allocationSize_unknown _ _ L); [right; rewrite Hc; split; [done|by apply HLu]|].
    iFrame "HI". iIntros "HI".
    iApply ("HΦ" with "[%]"); [constructor; by right|]. iSplit; [done|]. iExists L. iFrame.
Qed.

Lemma bytes_at_insert_acc u bs i b0 :
  bs !! i = Some b0 →
  u ↦∗ bs ⊢ byte_at (u + Z.of_nat i) b0 ∗ (∀ b, byte_at (u + Z.of_nat i) b -∗ u ↦∗ <[i := b]> bs).
Proof using. intros Hi. unfold bytes_at. by rewrite big_sepL_insert_acc. Qed.
(** A byte of a block the client holds. *)
Lemma client_byte cfg w σ u i :
  in_block σ u i →
  client_inv cfg w σ ⊢ ∃ bs b, ⌜s_live σ !! u = Some bs ∧ bs !! Z.to_nat i = Some b⌝ ∗ byte_at (u + i) b ∗
    (∀ b', byte_at (u + i) b' -∗
       client_inv cfg w (MkSpec (<[u := <[Z.to_nat i := b']> bs]> (s_live σ)) (s_freed σ))).
Proof.
  intros (bs&Hbs&Hi). iIntros "(%Hpure & %L & HI & Hcl)".
  destruct (lookup_lt_is_Some_2 bs (Z.to_nat i)) as [b Hb]; [lia|].
  iDestruct (client_res_some with "Hcl") as %[a Ha]; [done|].
  iDestruct (client_res_delete with "Hcl") as "[(%Hlen & Hu & Hg) Hcl]"; [done|done|].
  iDestruct (bytes_at_insert_acc with "Hu") as "[Hb Hu]"; [done|]. rewrite Z2Nat.id; [|lia].
  iExists bs, b. iSplit; [done|]. iFrame "Hb". iIntros (b') "Hb". iSplit; [done|]. iExists L. iFrame "HI".
  cbn [s_live]. rewrite -(insert_delete_eq (s_live σ)) -{2}(insert_delete_id L u a) //.
  iApply client_res_insert; [by rewrite lookup_delete_eq|]. iFrame "Hcl Hg". iSplit; [by rewrite length_insert|].
  by iApply "Hu".
Qed.

Lemma wpp_impl_thread_exit tid w L Φ :
  impl_inv w L ∗
  (∀ w', ⌜same_rest w w' ∧ tlsCaches w' = delete tid (tlsCaches w)⌝ -∗ impl_inv w' L -∗ Φ () w') ⊢
  wpp (thread_exit tid) w Φ.
Proof.
  iIntros "[(%C & (% & % & % & %) & (Hsm & Hmed & Hlar) & HL) HΦ]". iApply wpp_thread_exit. iFrame "Hsm".
  iIntros (w' [(Hr&Hsg&Hlg) Htls]) "Hsm". iApply ("HΦ" with "[//]"). iApply (impl_inv_same w w' L C); try done.
  iFrame "HL Hsm". rewrite Hsg Hlg. iFrame.
Qed.

(** Every operation a client may ask for completes, with an answer the
    specification allows, in a state that still implements the specification. *)
Lemma client_exec fuel tid o cfg w σ Φ :
  abortOnError cfg = false → valid cfg σ o →
  client_inv cfg w σ ∗
  (∀ r w' σ', ⌜spec_step cfg σ o r σ'⌝ -∗ client_inv cfg w' σ' -∗ Φ r w') ⊢
  wpp (exec (S fuel) tid o) w Φ.
Proof.
  intros Hab Hv. iIntros "[Hinv HΦ]".
  destruct o as [n|al n|u|u n|u| |u i b|u i|]; simpl in Hv; iApply wpp_bind.
  - iApply client_malloc; [done|done|]. iFrame "Hinv". iIntros (r w' σ' Hs) "H".
    iApply wpp_ret. by iApply ("HΦ" with "[%] H").
  - destruct Hv. iApply client_aligned; [done|done|done|]. iFrame "Hinv". iIntros (r w' σ' Hs) "H".
    iApply wpp_ret. by iApply ("HΦ" with "[%] H").
  - iApply client_free; [done|done|]. iFrame "Hinv". iIntros (r w' σ' Hs) "H".
    iApply wpp_ret. by iApply ("HΦ" with "[%] H").
  - destruct Hv. iApply client_realloc; [done|done|done|]. iFrame "Hinv". iIntros (r w' σ' Hs) "H".
    iApply wpp_ret. by iApply ("HΦ" with "[%] H").
  - iApply client_sizeOf; [done|]. iFrame "Hinv". iIntros (n Hs) "H".
    iApply wpp_ret. by iApply ("HΦ" with "[%] H").
  - iDestruct "Hinv" as "([%Hc %Hf] & %L & HI & Hcl)". iDestruct (big_sepM2_dom with "Hcl") as %Hdom.
    iApply wpp_liveAllocationCount. iFrame "HI". iIntros "HI". iApply wpp_ret.
    rewrite -(size_dom L) Hdom size_dom Hc. iApply ("HΦ" with "[%]"); [constructor|].
    iSplit; [done|]. iExists L. iFrame.
  - iDestruct (client_byte with "Hinv") as (bs b0 [Hbs Hb0]) "[Hb Hclose]"; [done|].
    iApply wpp_io. iApply wp_store_byte. iFrame "Hb". iIntros "Hb". iApply wpp_ret.
    iApply ("HΦ" with "[%]"); [|by iApply "Hclose"]. destruct Hv as (?&?&?). simplify_eq. by constructor.
  - iDestruct (client_byte with "Hinv") as (bs b0 [Hbs Hb0]) "[Hb Hclose]"; [done|].
    iApply wpp_io. iApply wp_load_byte. iFrame "Hb". iIntros "Hb". iApply wpp_ret.
    iDestruct ("Hclose" with "Hb") as "H".
    rewrite (list_insert_id bs _ b0) // (insert_id (s_live σ) u bs) //.
    iApply ("HΦ" $! _ w σ with "[%]"); [|by destruct σ]. 
    apply (SPeek _ _ _ _ _ bs); [done|by destruct Hv as (?&_&?&_)|done].
  - iDestruct "Hinv" as "([%Hc %Hf] & %L & HI & Hcl)". iApply wpp_impl_thread_exit. iFrame "HI".
    iIntros (w' [(Hc'&_&Hd'&_) _]) "HI". iApply wpp_ret. iApply ("HΦ" with "[%]"); [constructor|].
    iSplit; [by rewrite Hc' Hd'|]. iExists L. iFrame.
Qed.
End simulation.

(** ** Whole executions *)

(** A client: what it asks for next, and from which thread, given the history. *)
Definition history := list (op * answer).
Definition strategy := history → option (Z * op).
Fixpoint client_run `{!OS} (c : strategy) (fuel n : nat) (tr : history) : prog AllocatorImpl history :=
  match n with
  | O => mret tr
  | S n =>
      match c tr with
      | None => mret tr
      | Some (tid, o) => r ← exec fuel tid o; client_run c fuel n (tr ++ [(o, r)])
      end
  end.

Section executions.
Context `{HOS : !OS}.

(** The histories the specification allows. *)
Inductive spec_trace (cfg : AllocatorConfig) : history → spec → Prop :=
  | trace_nil : spec_trace cfg [] spec_init
  | trace_snoc tr σ o r σ' :
      spec_trace cfg tr σ → spec_step cfg σ o r σ' → spec_trace cfg (tr ++ [(o, r)]) σ'.
Definition valid_client (cfg : AllocatorConfig) (c : strategy) : Prop :=
  ∀ tr σ tid o, spec_trace cfg tr σ → c tr = Some (tid, o) → valid cfg σ o.

Context {HL : OSLaws}.

Lemma wpp_client_run c fuel n tr cfg w σ Φ :
  abortOnError cfg = false → valid_client cfg c → spec_trace cfg tr σ →
  client_inv cfg w σ ∗
  (∀ tr' w' σ', ⌜spec_trace cfg tr' σ'⌝ -∗ client_inv cfg w' σ' -∗ Φ tr' w') ⊢
  wpp (client_run c (S fuel) n tr) w Φ.
Proof.
  intros Hab Hc. revert tr w σ. induction n as [|n IH]; intros tr w σ Htr; iIntros "[Hinv HΦ]"; simpl.
  { iApply wpp_ret. by iApply ("HΦ" with "[%] Hinv"). }
  destruct (c tr) as [[tid o]|] eqn:Ho; [|iApply wpp_ret; by iApply ("HΦ" with "[%] Hinv")].
  iApply wpp_bind. iApply client_exec; [done|by eapply Hc|]. iFrame "Hinv". iIntros (r w' σ' Hs) "Hinv".
  iApply IH; [by econstructor|]. iFrame.
Qed.

Lemma client_inv_init cfg self tls throws dbg :
  (∀ tid t, tls !! tid = Some t → ThreadCache.central_ t ≠ self) →
  (enableLeakTracking cfg = true → ∀ u, dbg u = false) →
  ⊢ client_inv cfg (AllocatorImpl_init cfg self tls throws dbg) spec_init.
Proof.
  intros Htls Hdbg. iSplit; [done|]. iExists ∅. iSplitL; [by iApply impl_inv_init|].
  iApply big_sepM2_empty. done.
Qed.
End executions.
