(* ===== verification/Serving.v ===== *)
(** A handle that serves a program: the allocator's invariant together with the bytes of
    the blocks the program holds.  The calls of the public handle, for programs that use
    blocks as plain storage. *)

From stdpp Require Import gmap.
From iris.proofmode Require Import proofmode.
From S2P Require Import Prelude.
From S2P Require Import HeapProp.
From S2P Require Import Memory.
From S2P Require Import Logic.
From S2P Require Import BlockHeader.
From S2P Require Import Prog.
From S2P Require Import StatisticsCollector.
From S2P Require Import Config.
From S2P Require Import DebugLayer.
From S2P Require Import AllocatorImpl.
From S2P Require Import RawAlloc.
From S2P Require Import AllocatorInv.
From S2P Require Import Allocate.
From S2P Require Import Deallocate.
From S2P Require Import Allocator.
From S2P Require Import Facade.
From S2P Require Import Client.

Section serving.
Context `{HOS : !OS, HL : !OSLaws}.
Implicit Types (w : AllocatorImpl) (L : gmap Z alloc) (a : alloc) (u : Z).

Definition serves w L : heapPropI := impl_inv w L ∗ [∗ map] u ↦ a ∈ L, ∃ bs, held u a bs.
(** What a request of [n] bytes aligned to [al] gives. *)
Definition served w L (n al u : Z) w' : heapPropI :=
  (⌜u = 0 ∧ ∃ e, alloc_error e n ∧ failed w w' e 0⌝ ∗ serves w' L) ∨
  ∃ a, ⌜u ≠ 0 ∧ L !! u = None ∧ a_size a = n ∧ u mod al = 0 ∧ allocated w w' u n (a_reserved a)⌝ ∗
       serves w' (<[u := a]> L).

Lemma serves_init cfg self tls throws dbg :
  (∀ tid t, tls !! tid = Some t → ThreadCache.central_ t ≠ self) →
  (enableLeakTracking cfg = true → ∀ u, dbg u = false) →
  ⊢ serves (AllocatorImpl_init cfg self tls throws dbg) ∅.
Proof using. intros ??. iSplitL; [by iApply impl_inv_init|by iApply big_sepM_empty]. Qed.
Lemma pointer_served w L n al u h :
  pointer_post w L n al u h ∗ ([∗ map] v ↦ a ∈ L, ∃ bs, held v a bs) ⊢ ∃ w', ⌜h = owning w'⌝ ∗ served w L n al u w'.
Proof using.
  iIntros "[(%w' & -> & H) Hh]". iExists w'. iSplit; [done|].
  iDestruct "H" as "[[% HI]|(%a & %bs & (%Hu & %Hn & %Hsz & %Hm & [%Hlen _] & %Hal) & HI & Hu & Hg)]".
  - iLeft. iSplit; [done|]. iFrame.
  - iRight. iExists a. iSplit; [done|]. iFrame "HI". rewrite big_sepM_insert //. iFrame "Hh". iExists bs. iFrame.
    by rewrite Hsz.
Qed.
Lemma wpp_serves_allocate fuel tid n w L Φ :
  in64 n → abortOnError (cfg_of w) = false →
  serves w L ∗ (∀ u w', served w L (request n) 16 u w' -∗ Φ u (owning w')) ⊢
  wpp (Allocator.allocate (S fuel) tid n) (owning w) Φ.
Proof.
  intros Hn Hab. iIntros "[[HI Hh] HΦ]". iApply wpp_handle_allocate; [done|done|]. iFrame "HI". iIntros (u h) "H".
  iDestruct (pointer_served with "[$H $Hh]") as (w' ->) "H". by iApply "HΦ".
Qed.
Lemma wpp_serves_aligned fuel tid al n w L Φ :
  in64 n → valid_alignment al → abortOnError (cfg_of w) = false →
  serves w L ∗ (∀ u w', served w L (request n) al u w' -∗ Φ u (owning w')) ⊢
  wpp (Allocator.alignedAllocate (S fuel) tid al n) (owning w) Φ.
Proof.
  intros Hn Hal Hab. iIntros "[[HI Hh] HΦ]". iApply wpp_handle_aligned; [done..|]. iFrame "HI". iIntros (u h) "H".
  iDestruct (pointer_served with "[$H $Hh]") as (w' ->) "H". by iApply "HΦ".
Qed.
Lemma untampered cfg a : tampered cfg a front_guard rear_guard = false.
Proof using. unfold tampered. rewrite (bool_decide_eq_true_2 (_ ∧ _)) //. by rewrite andb_false_r. Qed.
(** Freeing a block or null. *)
Lemma wpp_serves_deallocate tid u a w L Φ :
  L !! u = Some a → abortOnError (cfg_of w) = false →
  serves w L ∗ (∀ w', ⌜deallocated w w' u a front_guard rear_guard⌝ -∗ serves w' (delete u L) -∗ Φ () (owning w')) ⊢
  wpp (Allocator.deallocate tid u) (owning w) Φ.
Proof.
  intros Ha Hab. iIntros "[[HI Hh] HΦ]". rewrite (big_sepM_delete _ L u a) //.
  iDestruct "Hh" as "[(%bs & %Hlen & Hu & Hg) Hh]".
  iApply (wpp_handle_deallocate tid u a front_guard rear_guard w L); [done|done|]. iFrame "HI Hg".
  iSplitL "Hu"; [rewrite -Hlen; by iApply raw_intro|]. iIntros (w' Hd) "HI". iApply ("HΦ" with "[//]"). iFrame.
Qed.
Lemma wpp_serves_null tid w L Φ :
  serves w L ∗ (serves w L -∗ Φ () (owning w)) ⊢ wpp (Allocator.deallocate tid 0) (owning w) Φ.
Proof.
  iIntros "[[HI Hh] HΦ]". iApply wpp_guarded. iApply wpp_bind. iApply wpp_deallocate_null. iFrame "HI". iIntros "HI".
  iApply wpp_ret. iApply "HΦ". iFrame.
Qed.
Lemma wpp_serves_reallocate fuel tid u a n w L Φ :
  L !! u = Some a → in64 n → n ≠ 0 → abortOnError (cfg_of w) = false →
  serves w L ∗
  (∀ p w', (⌜p = 0 ∧ ∃ e, alloc_error e n ∧ failed w w' e 0⌝ ∗ serves w' L ∨
     ∃ a' w1, ⌜p ≠ 0 ∧ L !! p = None ∧ a_size a' = n ∧ allocated w w1 p n (a_reserved a') ∧
       deallocated w1 w' u a front_guard rear_guard⌝ ∗ serves w' (delete u (<[p := a']> L))) -∗ Φ p (owning w')) ⊢
  wpp (Allocator.reallocate (S fuel) tid u n) (owning w) Φ.
Proof.
  intros Ha Hn Hn0 Hab. iIntros "[[HI Hh] HΦ]". iDestruct (big_sepM_delete _ L u a with "Hh") as "[(%bs & %Hlen & Hu & Hg) Hh]"; [done|].
  iApply wpp_guarded. iApply wpp_bind. iApply (wpp_reallocate fuel tid u a bs front_guard rear_guard n w L); [done..|].
  iFrame "HI Hu Hg". iSplit.
  - iIntros (e w' [He Hfl]) "HI Hu Hg". iApply wpp_ret. iApply "HΦ". iLeft. iSplit; [iPureIntro; split; [done|by exists e]|].
    iFrame "HI". iApply (big_sepM_delete _ L u a); [done|]. iFrame. done.
  - iIntros (p a' bs' w1 w' (Hnone&Hwf&Hsz&_&_&Hlen'&_&Hall&Hde)) "HI Hu Hg". iApply wpp_ret. iApply "HΦ". iRight.
    pose proof Hwf as (_&?&_). iDestruct (bytes_at_range with "Hu") as %?; [lia|].
    assert (p ≠ u) as Hpu by congruence. iExists a', w1. iSplit; [iPureIntro; split_and!; [cbn; lia|done..]|]. iFrame "HI".
    rewrite delete_insert_ne // big_sepM_insert; [|by rewrite lookup_delete_None; right]. iFrame. by rewrite Hsz.
Qed.
Lemma wpp_serves_tryAllocate fuel tid n w L Φ :
  in64 n → abortOnError (cfg_of w) = false →
  serves w L ∗
  (∀ r w', match r with
     | inl u => ∃ a, ⌜u ≠ 0 ∧ L !! u = None ∧ a_size a = request n ∧ allocated w w' u (request n) (a_reserved a)⌝ ∗
                     serves w' (<[u := a]> L)
     | inr e => ⌜alloc_error e (request n) ∧ failed w w' e 0⌝ ∗ serves w' L
     end -∗ Φ r (owning w')) ⊢
  wpp (Allocator.tryAllocate (S fuel) tid n) (owning w) Φ.
Proof.
  intros Hn Hab. iIntros "[[HI Hh] HΦ]". iApply wpp_guarded. iApply wpp_allocate; [done|done|]. iFrame "HI".
  iIntros ([u|e] w') "H"; iApply "HΦ".
  - iDestruct "H" as (a bs (Hnone&Hwf&Hsz&_&_&Hall&[Hlen _])) "(HI & Hu & Hg)". pose proof Hwf as (_&?&_).
    iDestruct (bytes_at_range with "Hu") as %?; [lia|]. iExists a. iSplit; [iPureIntro; split_and!; [lia|done..]|].
    iFrame "HI". rewrite big_sepM_insert //. iFrame. by rewrite Hsz.
  - iDestruct "H" as "[% HI]". iSplit; [done|]. iFrame.
Qed.
(** With tracking: a pointer that is not live. *)
Lemma wpp_serves_untracked tid u w L Φ :
  u ≠ 0 → enableLeakTracking (cfg_of w) = true → L !! u = None → abortOnError (cfg_of w) = false →
  serves w L ∗ (serves (add_report w (untracked_error w u) u) L -∗ Φ () (owning (add_report w (untracked_error w u) u))) ⊢
  wpp (Allocator.deallocate tid u) (owning w) Φ.
Proof.
  intros Hu Hlk Hn Hab. iIntros "[[HI Hh] HΦ]". iApply wpp_guarded. iApply wpp_bind.
  iApply (wpp_deallocate_untracked tid u w L); [done..|]. iFrame "HI". iIntros "HI". iApply wpp_ret. iApply "HΦ". iFrame.
Qed.
Lemma wpp_serves_count w L Φ :
  serves w L ∗ (serves w L -∗ Φ (if enableLeakTracking (cfg_of w) then Z.of_nat (size L) else 0) (owning w)) ⊢
  wpp Allocator.liveAllocationCount (owning w) Φ.
Proof.
  iIntros "[[HI Hh] HΦ]". iApply wpp_guarded. iApply wpp_liveAllocationCount. iFrame "HI". iIntros "HI". iApply "HΦ". iFrame.
Qed.
Lemma wpp_serves_statistics w L Φ :
  serves w L ∗ (∀ l, serves w L -∗ Φ (stats_snapshot (SegmentStats.fragmentation l) (get_stats w)) (owning w)) ⊢
  wpp Allocator.statistics (owning w) Φ.
Proof.
  iIntros "[[HI Hh] HΦ]". iApply wpp_guarded. iApply wpp_statistics. iFrame "HI". iIntros (l _) "HI".
  iApply "HΦ". iFrame.
Qed.
(** The program's own use of a block. *)
Lemma serves_block w L u a :
  L !! u = Some a → serves w L ⊢ raw u (a_size a) ∗ (raw u (a_size a) -∗ serves w L).
Proof using.
  intros Ha. iIntros "[$ H]". iDestruct (big_sepM_lookup_acc with "H") as "[(%bs & %Hlen & Hu & Hg) H]"; [done|].
  iSplitL "Hu"; [rewrite -Hlen; by iApply raw_intro|]. iIntros "(%bs' & %Hlen' & Hu)". iApply "H". iExists bs'. by iFrame.
Qed.
Lemma serves_nonzero w L : serves w L ⊢ ⌜L !! 0 = None⌝.
Proof using.
  iIntros "[HI _]". destruct (L !! 0) as [a|] eqn:Ha; [|done].
  by iDestruct (impl_inv_header with "HI") as %?.
Qed.
Lemma serves_stats w L : serves w L ⊢ ⌜stats_ok (get_stats w) L⌝.
Proof using. iIntros "[(%C & (_ & _ & % & _) & _) _]". done. Qed.
End serving.
