(* ===== verification/Adapters.v ===== *)
(** src/benchmarks/Adapters.hpp and Adapters.cpp: the interface the benchmarks use an
    allocator through, what they rely on, and the adapter of this library.  The adapters
    of the other allocators only forward to third-party code. *)

From Stdlib Require Import Strings.String.
From stdpp Require Import gmap.
From iris.proofmode Require Import proofmode.
From S2P Require Import Prelude.
From S2P Require Import HeapProp.
From S2P Require Import Memory.
From S2P Require Import Logic.
From S2P Require Import Prog.
From S2P Require Import ProgLogic.
From S2P Require Import Config.
From S2P Require Import AllocatorImpl.
From S2P Require Import RawAlloc.
From S2P Require Import AllocatorInv.
From S2P Require Import Allocate.
From S2P Require Import Deallocate.
From S2P Require Import Allocator.
From S2P Require Import Facade.
From S2P Require Import Serving.

(** The abstract class; [tid] is the thread that calls. *)
Class AllocatorAdapter (S : Type) := {
  name : string;
  allocate : Z → Z → prog S Z;
  deallocate : Z → Z → Z → prog S ();
  threadSafe : bool
}.
(** What its users rely on, in any logic of programs: an allocation gives null or a block
    that is not in use, a block can be freed with its size, and so can null. *)
Class AdapterSpec {S St : Type} `{HA : !AllocatorAdapter S} `{HP : !ProgLogic S St} (tid : Z) := {
  in_use : St → gmap Z Z → heapPropI;
  in_use_null s B : in_use s B ⊢ ⌜B !! 0 = None⌝;
  after_allocate n s B Φ : 0 < n < W64 →
    in_use s B ∗
    (∀ u s', (⌜u = 0⌝ ∗ in_use s' B ∨ ⌜u ≠ 0 ∧ B !! u = None⌝ ∗ in_use s' (<[u := n]> B)) -∗ Φ u s') ⊢
    holds_after (allocate tid n) s Φ;
  after_deallocate u n s B Φ : u = 0 ∨ B !! u = Some n →
    in_use s B ∗ (∀ s', in_use s' (delete u B) -∗ Φ () s') ⊢ holds_after (deallocate tid u n) s Φ
}.

(** [MAllocAdapter]: its member is a handle. *)
Definition MAllocAdapter `{!OS} (fuel : nat) : AllocatorAdapter Allocator := {|
  name := "m-alloc";
  allocate tid size := Allocator.allocate fuel tid size;
  deallocate tid ptr _ := Allocator.deallocate tid ptr;
  threadSafe := true
|}.

Section malloc.
Context `{HOS : !OS, HL : !OSLaws} (fuel : nat).

Definition malloc_in_use (h : Allocator) (B : gmap Z Z) : heapPropI :=
  ∃ w L, ⌜h = owning w ∧ abortOnError (cfg_of w) = false ∧ B = a_size <$> L⌝ ∗ serves w L.
#[export] Program Instance MAllocAdapter_spec tid : AdapterSpec (HA := MAllocAdapter (S fuel)) (HP := alone) tid := {|
  in_use := malloc_in_use
|}.
Next Obligation.
  iIntros (tid h B) "(%w & %L & (-> & _ & ->) & H)". iDestruct (serves_nonzero with "H") as %H0.
  by rewrite lookup_fmap H0.
Qed.
Next Obligation.
  intros tid n h B Φ Hn. iIntros "[(%w & %L & (-> & %Hab & ->) & H) HΦ]".
  iApply (wpp_serves_allocate fuel tid n w L); [unfold in64; lia|done|]. iFrame "H". iIntros (u w') "H". iApply "HΦ".
  assert (request n = n) as -> by (unfold request; rewrite (proj2 (Z.eqb_neq _ _)); lia).
  iDestruct "H" as "[[(-> & %e & _ & %Hf) H]|(%a & (%Hu & %Hn' & <- & _ & %Hal) & H)]".
  - iLeft. iSplit; [done|]. iExists w', L. iFrame. iPureIntro. split_and!; [done| |done]. by destruct Hf as [-> _].
  - iRight. rewrite lookup_fmap Hn'. iSplit; [done|]. iExists w', _. iFrame. iPureIntro.
    split_and!; [done| |by rewrite fmap_insert]. by destruct Hal as [-> _].
Qed.
Next Obligation.
  intros tid u n h B Φ Hu. iIntros "[(%w & %L & (-> & %Hab & ->) & H) HΦ]".
  destruct Hu as [->|(a&<-&Ha)%lookup_fmap_Some].
  - iDestruct (serves_nonzero with "H") as %H0. iApply wpp_serves_null. iFrame "H". iIntros "H". iApply "HΦ".
    rewrite delete_id; [|by rewrite lookup_fmap H0]. iExists w, L. by iFrame.
  - iApply (wpp_serves_deallocate tid u a); [done|done|]. iFrame "H". iIntros (w' Hd) "H". iApply "HΦ".
    iExists w', _. iFrame. iPureIntro. split_and!; [done| |by rewrite fmap_delete]. by destruct Hd as [-> _].
Qed.
End malloc.
