(* ===== verification/Runner.v ===== *)
(** src/benchmarks/Runner.cpp: the workloads of the benchmarks, over any adapter.  The
    sizes the random generators draw are arguments; the clock is left out. *)

From stdpp Require Import gmap.
From iris.proofmode Require Import proofmode.
From S2P Require Import Prelude.
From S2P Require Import HeapProp.
From S2P Require Import Memory.
From S2P Require Import Platform.
From S2P Require Import Logic.
From S2P Require Import Prog.
From S2P Require Import ProgLogic.
From S2P Require Import Config.
From S2P Require Import AllocatorImpl.
From S2P Require Import Allocator.
From S2P Require Import Facade.
From S2P Require Import Serving.
From S2P Require Import Adapters.

Open Scope Z_scope.

(** ** The workloads *)
Section workloads.
Context {S : Type} `{HA : !AllocatorAdapter S} (tid : Z).

(** [pointers[i] = adapter.allocate(64)], and the loop over the blocks and their sizes. *)
Fixpoint allocate_each (sizes : list Z) : prog S (list Z) :=
  match sizes with
  | [] => mret []
  | n :: sizes => p ← allocate tid n; ps ← allocate_each sizes; mret (p :: ps)
  end.
Fixpoint deallocate_each (live : list (Z * Z)) : prog S () :=
  match live with
  | [] => mret ()
  | (p, n) :: live => _ ← deallocate tid p n; deallocate_each live
  end.
Definition measureLatency (iterations : nat) : prog S () :=
  pointers ← allocate_each (replicate iterations 64);
  deallocate_each ((λ p, (p, 64)) <$> pointers).

(** The loops of [measureThroughput] and of the threads of [measureMultiThreaded]: blocks
    are kept until there are [cap] of them, and then all freed; the first loop counts
    its operations. *)
Fixpoint churn (cap : nat) (sizes : list Z) (live : list (Z * Z)) (operations : Z) : prog S Z :=
  match sizes with
  | [] => _ ← deallocate_each live; mret (operations + Z.of_nat (length live))
  | size :: sizes =>
      p ← allocate tid size;
      let live := live ++ [(p, size)] in
      let operations := operations + 1 in
      if (cap <=? length live)%nat then
        _ ← deallocate_each live; churn cap sizes [] (operations + Z.of_nat (length live))
      else churn cap sizes live operations
  end.
Definition measureThroughput (sizes : list Z) : prog S Z := churn 1024 sizes [] 0.
(** The body of a thread. *)
Definition worker (sizes : list Z) : prog S () := _ ← churn 256 sizes [] 0; mret ().
End workloads.

(** How many threads there are, and how many blocks each allocates. *)
Definition threadCount (hardware_concurrency : Z) : Z := Z.max 2 (hardware_concurrency / 2).
Definition perThread (iterations hardware_concurrency : Z) : Z := iterations / threadCount hardware_concurrency.

(** ** Their effect on the allocator *)
(** [live] are blocks - or nulls - taken since only [B] was in use; now [B'] is. *)
Fixpoint taken (B : gmap Z Z) (live : list (Z * Z)) (B' : gmap Z Z) : Prop :=
  match live with
  | [] => B' = B
  | (p, n) :: live => (p = 0 ∨ B' !! p = Some n) ∧ taken B live (delete p B')
  end.
Lemma taken_null B live n B' : B' !! 0 = None → taken B live B' → taken B (live ++ [(0, n)]) B'.
Proof.
  revert B'. induction live as [|[p k] live IH]; intros B' H0; cbn.
  - intros ->. split; [by left|]. by rewrite delete_id.
  - intros [Hp Ht]. split; [done|]. apply IH; [by rewrite lookup_delete_None; right|done].
Qed.
Lemma taken_block B live p n B' :
  p ≠ 0 → B' !! p = None → B' !! 0 = None → taken B live B' → taken B (live ++ [(p, n)]) (<[p := n]> B').
Proof.
  intros Hp. revert B'. induction live as [|[q k] live IH]; intros B' Hn H0; cbn.
  - intros ->. split; [right; apply lookup_insert_eq|]. by rewrite delete_insert_id.
  - intros [Hq Ht]. destruct (decide (q = p)) as [->|Hne]; [exfalso; destruct Hq; congruence|].
    split; [by rewrite lookup_insert_ne|]. rewrite delete_insert_ne //.
    apply IH; [by rewrite lookup_delete_None; right|by rewrite lookup_delete_None; right|done].
Qed.

Section effects.
Context {S St : Type} `{HA : !AllocatorAdapter S} `{HP : !ProgLogic S St} (tid : Z) `{HAS : !AdapterSpec tid}.
Implicit Types (s : St) (B : gmap Z Z).
Definition size_ok (n : Z) : Prop := 0 < n < W64.

(** One more block, or null. *)
Lemma after_take n live s B B' Φ :
  size_ok n → taken B live B' →
  in_use s B' ∗ (∀ p s' B'', ⌜taken B (live ++ [(p, n)]) B''⌝ -∗ in_use s' B'' -∗ Φ p s') ⊢
  holds_after (allocate tid n) s Φ.
Proof using All.
  intros Hn Ht. iIntros "[H HΦ]". iDestruct (in_use_null with "H") as %H0. iApply after_allocate; [done|]. iFrame "H".
  iIntros (u s') "[[-> H]|[[%Hu %HB] H]]"; iApply ("HΦ" with "[%] H"); [by apply taken_null|by apply taken_block].
Qed.
Lemma after_deallocate_each live s B B' Φ :
  taken B live B' → in_use s B' ∗ (∀ s', in_use s' B -∗ Φ () s') ⊢ holds_after (deallocate_each tid live) s Φ.
Proof using All.
  revert s B'. induction live as [|[p n] live IH]; intros s B'; cbn.
  - iIntros (->) "[H HΦ]". iApply after_ret. by iApply "HΦ".
  - iIntros ([Hp Ht]) "[H HΦ]". iApply after_bind. iApply after_deallocate; [done|]. iFrame "H". iIntros (s') "H".
    iApply IH; [done|]. iFrame.
Qed.
Lemma after_allocate_each sizes live s B B' Φ :
  Forall size_ok sizes → taken B live B' →
  in_use s B' ∗ (∀ ps s' B'', ⌜length ps = length sizes ∧ taken B (live ++ zip ps sizes) B''⌝ -∗ in_use s' B'' -∗ Φ ps s') ⊢
  holds_after (allocate_each tid sizes) s Φ.
Proof using All.
  intros Hsz. revert s live B' Φ. induction Hsz as [|n sizes Hn _ IH]; intros s live B' Φ Ht; iIntros "[H HΦ]"; cbn.
  - iApply after_ret. iApply ("HΦ" with "[%] H"). by rewrite app_nil_r.
  - iApply after_bind. iApply (after_take n live); [done..|]. iFrame "H". iIntros (p s1 B1 Ht1) "H".
    iApply after_bind. iApply (IH s1 (live ++ [(p, n)])); [done|]. iFrame "H". iIntros (ps s2 B2 [Hlen Ht2]) "H".
    iApply after_ret. iApply ("HΦ" with "[%] H"). rewrite -app_assoc in Ht2. split; [cbn; lia|done].
Qed.
Lemma after_churn cap sizes live ops s B B' Φ :
  Forall size_ok sizes → taken B live B' →
  in_use s B' ∗ (∀ s', in_use s' B -∗ Φ (ops + Z.of_nat (length live) + 2 * Z.of_nat (length sizes)) s') ⊢
  holds_after (churn tid cap sizes live ops) s Φ.
Proof using All.
  intros Hsz. revert s live ops B'. induction Hsz as [|n sizes Hn _ IH]; intros s live ops B' Ht; iIntros "[H HΦ]"; cbn [churn length].
  - iApply after_bind. iApply (after_deallocate_each live); [done|]. iFrame "H". iIntros (s') "H". iApply after_ret.
    iDestruct ("HΦ" with "H") as "H". by rewrite Z.add_0_r.
  - iApply after_bind. iApply (after_take n live); [done..|]. iFrame "H". iIntros (p s1 B1 Ht1) "H".
    assert (length (live ++ [(p, n)]) = Datatypes.S (length live)) as Hlen by (rewrite length_app /=; lia).
    destruct (cap <=? length (live ++ [(p, n)]))%nat.
    + iApply after_bind. iApply (after_deallocate_each (live ++ [(p, n)])); [done|]. iFrame "H". iIntros (s2) "H".
      iApply (IH s2 []); [done|]. iFrame "H". iIntros (s') "H". iDestruct ("HΦ" with "H") as "H". rewrite Hlen. cbn [length].
      by replace (ops + 1 + Z.of_nat (Datatypes.S (length live)) + Z.of_nat 0 + 2 * Z.of_nat (length sizes))
        with (ops + Z.of_nat (length live) + 2 * Z.of_nat (Datatypes.S (length sizes))) by lia.
    + iApply (IH s1 (live ++ [(p, n)])); [done|]. iFrame "H". iIntros (s') "H". iDestruct ("HΦ" with "H") as "H".
      rewrite Hlen.
      by replace (ops + 1 + Z.of_nat (Datatypes.S (length live)) + 2 * Z.of_nat (length sizes))
        with (ops + Z.of_nat (length live) + 2 * Z.of_nat (Datatypes.S (length sizes))) by lia.
Qed.

Lemma after_measureLatency iterations s B Φ :
  in_use s B ∗ (∀ s', in_use s' B -∗ Φ () s') ⊢ holds_after (measureLatency tid iterations) s Φ.
Proof using All.
  iIntros "[H HR]". iApply after_bind.
  iApply (after_allocate_each (replicate iterations 64) []); [apply Forall_replicate; unfold size_ok; rewrite W64_eq; lia|done|].
  iFrame "H". iIntros (ps s1 B1 [Hlen Ht]) "H". rewrite length_replicate in Hlen.
  assert (zip ps (replicate iterations 64) = (λ p, (p, 64)) <$> ps) as Hzip.
  { rewrite -Hlen. clear. induction ps as [|p ps IH]; [done|]. cbn. by f_equal. }
  cbn [app] in Ht. rewrite Hzip in Ht. iApply after_deallocate_each; [done|]. by iFrame.
Qed.
Lemma after_measureThroughput sizes s B Φ :
  Forall size_ok sizes →
  in_use s B ∗ (∀ s', in_use s' B -∗ Φ (2 * Z.of_nat (length sizes))%Z s') ⊢ holds_after (measureThroughput tid sizes) s Φ.
Proof using All. intros Hsz. iIntros "[H HR]". iApply (after_churn 1024 sizes []); [done..|]. iFrame. Qed.
Lemma after_worker sizes s B Φ :
  Forall size_ok sizes → in_use s B ∗ (∀ s', in_use s' B -∗ Φ () s') ⊢ holds_after (worker tid sizes) s Φ.
Proof using All.
  intros Hsz. iIntros "[H HΦ]". iApply after_bind. iApply (after_churn 256 sizes []); [done..|]. iFrame "H".
  iIntros (s') "H". iApply after_ret. by iApply "HΦ".
Qed.
End effects.

(** C28: the benchmarks of one thread, over any adapter that keeps its contract.  Whatever
    sizes are drawn and whatever allocations fail, they end with exactly the blocks in
    use that were in use before, and the throughput benchmark counts two operations for
    every size: one allocation and one free. *)
Theorem benchmarks_correct `{HOS : !OS} {S : Type} `{HA : !AllocatorAdapter S} tid `{HAS : !AdapterSpec (HP := alone) tid}
    iterations sizes (s : S) B :
  Forall size_ok sizes →
  phoare (in_use s B) (_ ← measureLatency tid iterations; measureThroughput tid sizes) s
    (λ operations s', ⌜(operations = 2 * Z.of_nat (length sizes))%Z⌝ ∗ in_use s' B)%I.
Proof.
  intros Hsz. apply phoare_wpp. intros R. iIntros "[H HR]". iApply wpp_bind.
  iApply (after_measureLatency (HP := alone) tid). iFrame "H". iIntros (s') "H".
  iApply (after_measureThroughput (HP := alone) tid); [done|]. iFrame "H". iIntros (s2) "H".
  iApply "HR". iFrame. by iPureIntro.
Qed.
(** The adapter of this library keeps the contract. *)
Lemma benchmarks_correct_witness :
  let os := bump_os 9 in
  ∃ ops h m', run (_ ← measureLatency (HA := MAllocAdapter 1) 1 3; measureThroughput (HA := MAllocAdapter 1) 1 [16; 8192; 100])
    (owning (AllocatorImpl_init release 1 ∅ (λ _, false) (λ _, false))) mem_init = Ok (ops, h) m' ∧ ops = 6.
Proof.
  intros os. destruct (benchmarks_correct (HOS := os) (HA := MAllocAdapter 1) 1
    (HAS := MAllocAdapter_spec (HL := bump_laws 9) 0 1) 3 [16; 8192; 100]
    (owning (AllocatorImpl_init release 1 ∅ (λ _, false) (λ _, false))) ∅) with (F := (emp : heapPropI)%I) (m := mem_init) as ([ops h]&m'&Hrun&Hs).
  - repeat constructor; unfold size_ok; rewrite W64_eq; lia.
  - apply sat_start. iSplit; [|done]. iExists _, ∅. iSplit; [iPureIntro; split_and!; done|].
    iApply (serves_init (HL := bump_laws 9)); [by intros ??; rewrite lookup_empty|done].
  - exists ops, h, m'. split; [exact Hrun|]. eapply sat_mono in Hs; [|iIntros "[H _]"; iExact "H"].
    apply sat_pure_l in Hs as [Hops _]. exact Hops.
Defined.
