(* ===== verification/ExampleLoops.v ===== *)
(** The programs that allocate blocks in a loop and free every second one before the rest:
    src/examples/statistics_example.cpp, src/examples/benchmark_example.cpp and the end of
    src/benchmarks/main.cpp.  Printing is the program's result; the clock is left out. *)

From stdpp Require Import gmap.
From Stdlib Require Import QArith.
From iris.proofmode Require Import proofmode.
From S2P Require Import Prelude.
From S2P Require Import HeapProp.
From S2P Require Import Memory.
From S2P Require Import Platform.
From S2P Require Import Logic.
From S2P Require Import Prog.
From S2P Require Import StatisticsCollector.
From S2P Require Import Config.
From S2P Require Import DebugLayer.
From S2P Require Import AllocatorImpl.
From S2P Require Import AllocatorInv.
From S2P Require Import Allocate.
From S2P Require Import Deallocate.
From S2P Require Import Allocator.
From S2P Require Import Facade.
From S2P Require Import Serving.
From S2P Require Import Runner.

Open Scope Z_scope.

(** ** The programs *)
(** A loop of [blocks.push_back(allocate(...))], and a loop of [release]. *)
Fixpoint allocate_blocks {S} (allocate : Z → prog S Z) (sizes : list Z) : prog S (list Z) :=
  match sizes with
  | [] => mret []
  | n :: sizes => p ← allocate n; ps ← allocate_blocks allocate sizes; mret (p :: ps)
  end.
Fixpoint deallocate_blocks {S} (release : Z → prog S ()) (blocks : list Z) : prog S () :=
  match blocks with
  | [] => mret ()
  | p :: blocks => _ ← release p; deallocate_blocks release blocks
  end.
(** [for (i = 0; i < blocks.size(); i += 2)]; from one on it is [every_second (tail blocks)]. *)
Fixpoint every_second {A} (blocks : list A) : list A :=
  match blocks with
  | p :: _ :: blocks => p :: every_second blocks
  | _ => blocks
  end.

(** [measure]: the blocks are all allocated, and then all released. *)
Definition measure {S} (allocate : Z → prog S Z) (release : Z → prog S ()) (iterations : nat) : prog S () :=
  pointers ← allocate_blocks allocate ((λ i, Z.of_nat i mod 256 + 16) <$> seq 0 iterations);
  deallocate_blocks release pointers.

(** The lines of [printStats]: eight numbers and two percentages. *)
Definition printStats (stats : StatisticsSnapshot) : list Z * list Q :=
  ([allocationCount stats; freeCount stats; activeAllocations stats; currentUsage stats; peakUsage stats;
    allocatedBytes stats; freedBytes stats; reservedBytes stats],
   [(internalFragmentation stats * 100)%Q; (externalFragmentation stats * 100)%Q]).
Section programs.
Context `{HOS : !OS} (fuel : nat) (tid : Z).

Definition statistics_loop (sizes : list Z) : prog Allocator (list (list Z * list Q)) :=
  blocks ← allocate_blocks (Allocator.allocate fuel tid) sizes;
  s1 ← Allocator.statistics;
  _ ← deallocate_blocks (Allocator.deallocate tid) (every_second blocks);
  s2 ← Allocator.statistics;
  _ ← deallocate_blocks (Allocator.deallocate tid) (every_second (tail blocks));
  s3 ← Allocator.statistics;
  mret [printStats s1; printStats s2; printStats s3].
Definition statistics_example : prog Allocator (list (list Z * list Q)) :=
  statistics_loop ((λ i, Z.of_nat i mod 1000 + 1) <$> seq 0 500).

Definition kIterations : Z := 200000.
Definition benchmark_example : prog Allocator () :=
  measure (Allocator.allocate fuel tid) (Allocator.deallocate tid) (Z.to_nat kIterations).

(** The churn at the end of the benchmarks' [main], and what it prints. *)
Definition fragmentation_churn : prog Allocator (list Q) :=
  churn ← allocate_blocks (Allocator.allocate fuel tid) ((λ i, (Z.of_nat i mod 32 + 1) * 1024) <$> seq 0 4000);
  _ ← deallocate_blocks (Allocator.deallocate tid) (every_second churn);
  stats ← Allocator.statistics;
  _ ← deallocate_blocks (Allocator.deallocate tid) (every_second (tail churn));
  mret [(internalFragmentation stats * 100)%Q; (externalFragmentation stats * 100)%Q].
End programs.

(** ** Lists *)
Lemma every_second_fmap {A B} (f : A → B) l : every_second (f <$> l) = f <$> every_second l.
Proof.
  cut (every_second (f <$> l) = f <$> every_second l ∧ ∀ a, every_second (f <$> a :: l) = f <$> every_second (a :: l)); [by intros []|].
  induction l as [|b l [IH1 IH2]]; [done|]. split; [apply IH2|]. intros a. cbn. by rewrite IH1.
Qed.
Lemma every_second_perm {A} (l : list A) : every_second l ++ every_second (tail l) ≡ₚ l.
Proof.
  cut (every_second l ++ every_second (tail l) ≡ₚ l ∧ ∀ a, every_second (a :: l) ++ every_second l ≡ₚ a :: l); [by intros []|].
  induction l as [|b l [IH1 IH2]]; [done|]. split; [apply IH2|]. intros a. cbn [every_second].
  change (a :: every_second l ++ every_second (b :: l) ≡ₚ a :: b :: l). apply Permutation_skip.
  etrans; [apply Permutation_app_comm|apply IH2].
Qed.

(** The blocks in a list of pointers and sizes, by their sizes. *)
Definition obtained (live : list (Z * Z)) : list Z := (filter (λ b, b.1 ≠ 0) live).*2.
Definition total (l : list Z) : Z := foldr Z.add 0 l.
Lemma total_app l l' : total (l ++ l') = total l + total l'.
Proof. unfold total. induction l as [|x l IH]; cbn [foldr app]; lia. Qed.
Lemma total_nonneg l : Forall (λ n, 0 ≤ n) l → 0 ≤ total l.
Proof. unfold total. induction 1; cbn [foldr]; lia. Qed.
#[global] Instance total_perm : Proper ((≡ₚ) ==> (=)) total.
Proof. intros l l' Hl. unfold total. induction Hl; cbn [foldr] in *; lia. Qed.
Lemma total_le k l : Forall (λ n, n ≤ k) l → total l ≤ k * Z.of_nat (length l).
Proof. unfold total. induction 1; cbn [foldr length]; lia. Qed.
Lemma obtained_app l l' : obtained (l ++ l') = obtained l ++ obtained l'.
Proof. unfold obtained. by rewrite filter_app fmap_app. Qed.
Lemma obtained_cons p n l : obtained ((p, n) :: l) = if decide (p = 0) then obtained l else n :: obtained l.
Proof. unfold obtained. rewrite filter_cons /=. destruct (decide (p = 0)), (decide (p ≠ 0)); done || contradiction. Qed.
Lemma obtained_nonneg (live : list (Z * Z)) : Forall (λ n, 0 ≤ n) live.*2 → 0 ≤ total (obtained live).
Proof.
  intros Hl. apply total_nonneg. induction live as [|[p n] live IH]; [constructor|]. apply Forall_cons in Hl as [Hn Hl].
  rewrite obtained_cons. destruct (decide (p = 0)); [by apply IH|]. constructor; [done|by apply IH].
Qed.
Lemma zip_nonneg (ps sizes : list Z) : Forall (λ n, 0 < n) sizes → Forall (λ n, 0 ≤ n) (zip ps sizes).*2.
Proof.
  intros Hs. revert ps. induction Hs as [|n sizes Hn _ IH]; intros [|p ps]; try constructor; [cbn; lia|apply IH].
Qed.
#[global] Instance obtained_perm : Proper ((≡ₚ) ==> (≡ₚ)) obtained.
Proof. intros l l' Hl. unfold obtained. by rewrite Hl. Qed.

Lemma taken_app B l1 l2 B' : taken B (l1 ++ l2) B' ↔ ∃ B1, taken B1 l1 B' ∧ taken B l2 B1.
Proof.
  revert B'. induction l1 as [|[p n] l1 IH]; intros B'; cbn; [naive_solver|]. rewrite IH. naive_solver.
Qed.
Lemma taken_swap B p n q k l B' : taken B ((p, n) :: (q, k) :: l) B' → taken B ((q, k) :: (p, n) :: l) B'.
Proof.
  cbn. intros (Hp&Hq&Ht). rewrite delete_delete in Ht. split_and!; [|destruct (decide (p = 0)) as [->|]; [by left|right]|done].
  - destruct Hq as [?|[_ ?]%lookup_delete_Some]; [by left|by right].
  - destruct Hp as [?|Hp]; [done|]. rewrite lookup_delete_ne; [done|]. intros ->.
    destruct Hq as [->|Hq]; [done|]. by rewrite lookup_delete_eq in Hq.
Qed.
Lemma taken_perm B l l' B' : l ≡ₚ l' → taken B l B' → taken B l' B'.
Proof.
  intros Hl. revert B'. induction Hl as [|[p n] l l' _ IH|[p n] [q k] l|]; intros B'; [done| |apply taken_swap|by auto].
  intros [? ?]. split; [done|]. by apply IH.
Qed.

(** ** Serving with exact books *)
(** [a] allocations and [f] frees, of [x] and [y] bytes, and the peak [p] of what is live. *)
Definition books_are (s : StatisticsCollector) (a f x y p : Z) : Prop :=
  allocationCount_ s = a ∧ freeCount_ s = f ∧ activeAllocations_ s = a - f ∧ liveRequested_ s = x - y ∧
  peakUsage_ s = p ∧ allocatedBytes_ s = x ∧ freedBytes_ s = y.
Lemma books_alloc s a f x y p n r :
  books_are s a f x y p → 0 ≤ f ≤ a → 0 ≤ y ≤ x → 0 ≤ n → a + 1 < W64 → x + n < W64 →
  books_are (stats_alloc n r s) (a + 1) f (x + n) y (Z.max p (x + n - y)).
Proof.
  intros (Ha&Hf&Hac&Hl&Hp&Hx&Hy) ?????. unfold books_are, stats_alloc. cbn.
  rewrite Ha Hac Hl Hx Hp. rewrite !add64_small; try (unfold in64; lia).
Qed.
Lemma books_free s a f x y p n r :
  books_are s a f x y p → 0 ≤ f < a → 0 ≤ n → 0 ≤ y → y + n ≤ x → a < W64 → x < W64 →
  books_are (stats_free n r s) a (f + 1) x (y + n) p.
Proof.
  intros (Ha&Hf&Hac&Hl&Hp&Hx&Hy) ??????. unfold books_are, stats_free. cbn.
  rewrite Hf Hac Hl Hy. rewrite !add64_small ?sub64_small; try (unfold in64; lia).
Qed.

Section serving.
Context `{HOS : !OS, HL : !OSLaws} (tid : Z).
Implicit Types (w : AllocatorImpl) (B : gmap Z Z).

(** A handle, its blocks by size, and its books. *)
Definition kept w B (a f x y p : Z) : heapPropI :=
  ⌜abortOnError (cfg_of w) = false ∧ books_are (get_stats w) a f x y p⌝ ∗
  ∃ L, ⌜B = a_size <$> L⌝ ∗ serves w L.
Definition peak_after (p live more : Z) : Z := if decide (more = 0) then p else Z.max p (live + more).

Lemma wpp_allocate_blocks fuel sizes live w B B' a x p Φ :
  Forall (λ n, 0 < n) sizes → taken B live B' →
  0 ≤ a → a + Z.of_nat (length sizes) < W64 → 0 ≤ x ≤ p → x + total sizes < W64 →
  kept w B' a 0 x 0 p ∗
  (∀ ps w' B'', ⌜length ps = length sizes ∧ taken B (live ++ zip ps sizes) B''⌝ -∗
     kept w' B'' (a + Z.of_nat (length (obtained (zip ps sizes)))) 0 (x + total (obtained (zip ps sizes))) 0
       (Z.max p (x + total (obtained (zip ps sizes)))) -∗ Φ ps (owning w')) ⊢
  wpp (allocate_blocks (Allocator.allocate (S fuel) tid) sizes) (owning w) Φ.
Proof using HL.
  intros Hsz. revert w live B' a x p Φ. induction Hsz as [|n sizes Hn Hsz IH];
    intros w live B' a x p Φ Ht Ha Hal Hx Hxt; iIntros "[H HΦ]"; cbn [allocate_blocks].
  { iApply wpp_ret. iApply ("HΦ" $! [] w B' with "[%]"); [by rewrite app_nil_r|]. cbn. rewrite Z.add_0_r Z.max_l; [|lia].
    by rewrite Z.add_0_r. }
  assert (0 ≤ total sizes) as Htot by (apply total_nonneg; eapply Forall_impl; [exact Hsz|cbn; lia]). cbn [length total foldr] in *. fold (total sizes) in *.
  iDestruct "H" as "([%Hab %Hbk] & %L & -> & H)". iDestruct (serves_nonzero with "H") as %H0.
  iApply wpp_bind. iApply (wpp_serves_allocate fuel tid n w L); [unfold in64; lia|done|]. iFrame "H".
  assert (request n = n) as -> by (unfold request; rewrite (proj2 (Z.eqb_neq _ _)); lia).
  iIntros (u w1) "H". iApply wpp_bind.
  iDestruct "H" as "[[(-> & %e & _ & %Hfl) H]|(%b & (%Hu & %Hnone & <- & _ & %Hall) & H)]".
  - destruct Hfl as (Hc&Hs&_). iApply (IH w1 (live ++ [(0, n)]) (a_size <$> L) a x p).
    + apply taken_null; [by rewrite lookup_fmap H0|done].
    + lia.
    + lia.
    + lia.
    + lia.
    + iSplitL "H"; [iSplit; [by rewrite Hc Hs|iExists L; by iFrame]|].
      iIntros (ps w2 B2 [Hlen Ht2]) "H". iApply wpp_ret. rewrite -app_assoc in Ht2.
      iApply ("HΦ" $! (0 :: ps) w2 B2 with "[%]"); [by rewrite /= Hlen|]. cbn [zip zip_with]. rewrite obtained_cons. by destruct (decide (0 = 0)).
  - destruct Hall as (Hc&Hs&_). iApply (IH w1 (live ++ [(u, a_size b)]) (a_size <$> <[u := b]> L) (a + 1) (x + a_size b) (Z.max p (x + a_size b))).
    + rewrite fmap_insert. apply taken_block; [done|by rewrite lookup_fmap Hnone|by rewrite lookup_fmap H0|done].
    + lia.
    + lia.
    + lia.
    + lia.
    + iSplitL "H".
      * iSplit; [|iExists _; by iFrame]. iPureIntro. split; [by rewrite Hc|]. rewrite Hs.
        pose proof (books_alloc _ _ _ _ _ _ (a_size b) (a_reserved b) Hbk) as Hb. rewrite Z.sub_0_r in Hb. apply Hb; lia.
      * iIntros (ps w2 B2 [Hlen Ht2]) "H". iApply wpp_ret. rewrite -app_assoc in Ht2.
        iApply ("HΦ" $! (u :: ps) w2 B2 with "[%]"); [by rewrite /= Hlen|]. cbn [zip zip_with].
        rewrite obtained_cons. destruct (decide (u = 0)); [done|]. cbn [length total foldr]. fold (total (obtained (zip ps sizes))).
        rewrite Nat2Z.inj_succ.
        replace (a + Z.succ (Z.of_nat (length (obtained (zip ps sizes))))) with (a + 1 + Z.of_nat (length (obtained (zip ps sizes)))) by lia.
        rewrite Z.add_assoc -Z.max_assoc (Z.max_r (x + a_size b)); [done|].
        pose proof (obtained_nonneg _ (zip_nonneg ps sizes Hsz)). lia.
Qed.
Lemma wpp_deallocate_blocks live w B B' a f x y p Φ :
  taken B live B' → Forall (λ n, 0 ≤ n) live.*2 →
  0 ≤ f → 0 ≤ y → a < W64 → x < W64 →
  f + Z.of_nat (length (obtained live)) ≤ a → y + total (obtained live) ≤ x →
  kept w B' a f x y p ∗
  (∀ w', kept w' B a (f + Z.of_nat (length (obtained live))) x (y + total (obtained live)) p -∗ Φ () (owning w')) ⊢
  wpp (deallocate_blocks (Allocator.deallocate tid) live.*1) (owning w) Φ.
Proof using HL.
  revert w B' f y. induction live as [|[u n] live IH]; intros w B' f y Ht Hpos Hf Hy Ha Hx Hfa Hyx; iIntros "[H HΦ]"; cbn [deallocate_blocks fmap list_fmap fst].
  { cbn in Ht. subst B'. iApply wpp_ret. iApply "HΦ". cbn. by rewrite !Z.add_0_r. }
  apply Forall_cons in Hpos as [Hn Hpos]. destruct Ht as [Hu Ht]. rewrite obtained_cons in Hfa, Hyx |- *.
  assert (0 ≤ total (obtained live)) as Htot by (by apply obtained_nonneg).
  iDestruct "H" as "([%Hab %Hbk] & %L & -> & H)". iDestruct (serves_nonzero with "H") as %H0. iApply wpp_bind.
  destruct (decide (u = 0)) as [->|Hu0].
  - iApply (wpp_serves_null tid w L). iFrame "H". iIntros "H".
    rewrite delete_id in Ht; [|by rewrite lookup_fmap H0]. iApply (IH w _ f y); [done..|]. iFrame "HΦ".
    iSplit; [done|]. iExists L. by iFrame.
  - destruct Hu as [?|(b&<-&Hb)%lookup_fmap_Some]; [done|].
    iApply (wpp_serves_deallocate tid u b w L); [done|done|]. iFrame "H". iIntros (w1 (Hc&Hs&_)) "H".
    cbn [length total foldr] in Hfa, Hyx. fold (total (obtained live)) in Hyx. cbn in Hn.
    iApply (IH w1 _ (f + 1) (y + a_size b)); [done|done|lia|lia|done|done|lia|lia|]. iSplitL "H".
    + iSplit; [iPureIntro; split; [by rewrite Hc|rewrite Hs; apply (books_free _ _ _ _ _ _ _ (a_reserved b) Hbk); lia]|].
      iExists (delete u L). iFrame. by rewrite fmap_delete.
    + iIntros (w') "H". iApply "HΦ". cbn [length total foldr]. fold (total (obtained live)). rewrite Nat2Z.inj_succ.
      replace (f + Z.succ (Z.of_nat (length (obtained live)))) with (f + 1 + Z.of_nat (length (obtained live))) by lia.
      by rewrite Z.add_assoc.
Qed.
Lemma wpp_kept_statistics w B a f x y p Φ :
  kept w B a f x y p ∗ (∀ e, kept w B a f x y p -∗ Φ (stats_snapshot e (get_stats w)) (owning w)) ⊢
  wpp Allocator.statistics (owning w) Φ.
Proof using HL.
  iIntros "[(%Hp & %L & %HB & H) HΦ]". iApply wpp_serves_statistics. iFrame "H". iIntros (l) "H". iApply "HΦ".
  iSplit; [done|]. iExists L. by iFrame.
Qed.
End serving.

(** ** The loop of the statistics example *)
(** What a snapshot says: allocations, frees, bytes of both, and the peak. *)
Definition shows (s : StatisticsSnapshot) (a f x y p : Z) : Prop :=
  allocationCount s = a ∧ freeCount s = f ∧ activeAllocations s = a - f ∧ currentUsage s = x - y ∧
  peakUsage s = p ∧ allocatedBytes s = x ∧ freedBytes s = y.
Lemma books_shown s a f x y p e : books_are s a f x y p → shows (stats_snapshot e s) a f x y p.
Proof. done. Qed.
Lemma obtained_sublist (live : list (Z * Z)) : obtained live `sublist_of` live.*2.
Proof. apply fmap_sublist, sublist_filter. Qed.

Lemma obtained_zip_le ps sizes :
  Forall (λ n, 0 < n) sizes →
  total (obtained (zip ps sizes)) ≤ total sizes ∧ (length (obtained (zip ps sizes)) ≤ length sizes)%nat.
Proof.
  intros Hs. revert ps. induction Hs as [|n sizes Hn Hs IH]; intros [|p ps]; try (cbn; split; [done|lia]).
  - split; [|cbn; lia]. change (0 ≤ total (n :: sizes)). apply total_nonneg. constructor; [lia|].
    eapply Forall_impl; [exact Hs|cbn; lia].
  - cbn [zip zip_with]. rewrite obtained_cons. destruct (IH ps) as [H1 H2]. unfold total in *.
    destruct (decide (p = 0)); cbn [length foldr]; split; lia.
Qed.
(** The blocks of a list in two halves: every second one, and the others. *)
Lemma halves ps sizes B :
  length ps = length sizes → Forall (λ n, 0 < n) sizes → taken ∅ (zip ps sizes) B →
  ∃ even odd B1, taken B1 even B ∧ taken ∅ odd B1 ∧
    every_second ps = even.*1 ∧ every_second (tail ps) = odd.*1 ∧
    obtained even `sublist_of` every_second sizes ∧ obtained odd `sublist_of` every_second (tail sizes) ∧
    Forall (λ n, 0 ≤ n) even.*2 ∧ Forall (λ n, 0 ≤ n) odd.*2 ∧
    length (obtained (zip ps sizes)) = (length (obtained even) + length (obtained odd))%nat ∧
    total (obtained (zip ps sizes)) = total (obtained even) + total (obtained odd).
Proof.
  intros Hlen Hsz Htk. set (live := zip ps sizes) in *.
  assert (live.*1 = ps ∧ live.*2 = sizes) as [Hps Hss] by (split; [apply fst_zip|apply snd_zip]; lia).
  pose proof (every_second_perm live) as Hp. exists (every_second live), (every_second (tail live)).
  apply (taken_perm _ _ (every_second live ++ every_second (tail live))) in Htk; [|by symmetry].
  apply taken_app in Htk as (B1&Hev&Hod). exists B1.
  assert (Forall (λ n, 0 ≤ n) live.*2) as Hpos by (rewrite Hss; eapply Forall_impl; [exact Hsz|cbn; lia]).
  rewrite -Hp fmap_app in Hpos. apply Forall_app in Hpos as [Hpe Hpo].
  assert (tail live = zip (tail ps) (tail sizes)) as Htl by (unfold live; by destruct ps, sizes).
  assert ((tail live).*1 = tail ps ∧ (tail live).*2 = tail sizes) as [Hps' Hss'].
  { rewrite Htl. split; [apply fst_zip|apply snd_zip]; destruct ps, sizes; cbn in *; lia. }
  split_and!; try done.
  - by rewrite -every_second_fmap Hps.
  - by rewrite -every_second_fmap Hps'.
  - etrans; [apply obtained_sublist|]. by rewrite -every_second_fmap Hss.
  - etrans; [apply obtained_sublist|]. by rewrite -every_second_fmap Hss'.
  - rewrite -length_app -obtained_app. apply Permutation_length. by rewrite Hp.
  - rewrite -total_app -obtained_app. by rewrite Hp.
Qed.

Section loop.
Context `{HOS : !OS, HL : !OSLaws} (fuel : nat) (tid : Z).

Lemma kept_init self tls throws dbg :
  (∀ tid t, tls !! tid = Some t → ThreadCache.central_ t ≠ self) →
  ⊢ kept (AllocatorImpl_init AllocatorConfig_default self tls throws dbg) ∅ 0 0 0 0 0.
Proof using.
  intros Htls. iSplit; [by iPureIntro|]. iExists ∅. iSplit; [done|]. by iApply serves_init.
Qed.
Lemma wpp_statistics_loop sizes w Φ :
  Forall (λ n, 0 < n) sizes → total sizes < W64 → Z.of_nat (length sizes) < W64 →
  kept w ∅ 0 0 0 0 0 ∗
  (∀ even odd s1 s2 s3 w', let a := Z.of_nat (length even) + Z.of_nat (length odd) in
     let x := total even + total odd in
     ⌜even `sublist_of` every_second sizes ∧ odd `sublist_of` every_second (tail sizes) ∧
      shows s1 a 0 x 0 x ∧ shows s2 a (Z.of_nat (length even)) x (total even) x ∧ shows s3 a a x x x⌝ -∗
     kept w' ∅ a a x x x -∗ Φ [printStats s1; printStats s2; printStats s3] (owning w')) ⊢
  wpp (statistics_loop (S fuel) tid sizes) (owning w) Φ.
Proof using HL.
  intros Hsz Ht Hl. iIntros "[H HΦ]". iApply wpp_bind.
  iApply (wpp_allocate_blocks tid fuel sizes [] w ∅ ∅ 0 0 0); [done|done|lia|lia|lia|lia|]. iFrame "H".
  iIntros (ps w1 B [Hlen Htk]) "H". cbn [app] in Htk.
  destruct (halves ps sizes B) as (even&odd&B1&Hev&Hod&Eev&Eod&Sev&Sod&Pev&Pod&Hcount&Hsum); [done..|].
  assert (total (obtained (zip ps sizes)) ≤ total sizes ∧ (length (obtained (zip ps sizes)) ≤ length sizes)%nat) as [Htle Hlle]
    by (by apply obtained_zip_le).
  pose proof (obtained_nonneg _ Pev). pose proof (obtained_nonneg _ Pod).
  rewrite Hcount Hsum !Z.add_0_l Nat2Z.inj_add in Hlle Htle |- *. rewrite Z.max_r; [|lia].
  set (A := (Z.of_nat (length (obtained even)) + Z.of_nat (length (obtained odd)))) in *. set (X := (total (obtained even) + total (obtained odd))) in *.
  iApply wpp_bind. iApply wpp_kept_statistics. iFrame "H". iIntros (e1) "H".
  iDestruct "H" as "([%Hab1 %Hbk1] & H)". iApply wpp_bind. rewrite Eev.
  iApply (wpp_deallocate_blocks tid even w1 B1 B A 0 X 0 X); [done|done|lia|lia|lia|lia|lia|lia|].
  iSplitL "H"; [by iSplit|]. iIntros (w2) "H". rewrite !Z.add_0_l.
  iApply wpp_bind. iApply wpp_kept_statistics. iFrame "H". iIntros (e2) "H".
  iDestruct "H" as "([%Hab2 %Hbk2] & H)". iApply wpp_bind. rewrite Eod.
  iApply (wpp_deallocate_blocks tid odd w2 ∅ B1 A (Z.of_nat (length (obtained even))) X (total (obtained even)) X); [done|done|lia|lia|lia|lia|lia|lia|].
  iSplitL "H"; [by iSplit|]. iIntros (w3) "H".
  iApply wpp_bind. iApply wpp_kept_statistics. iFrame "H". iIntros (e3) "H".
  iDestruct "H" as "([%Hab3 %Hbk3] & H)". iApply wpp_ret.
  iApply ("HΦ" $! (obtained even) (obtained odd) with "[%]"); [|by iSplit].
  split_and!; [done|done|by apply books_shown..].
Qed.
(** The other two loops give everything back, too. *)
Definition all_returned (h : Allocator) : heapPropI := ∃ w a x, ⌜h = owning w⌝ ∗ kept w ∅ a a x x x.
Lemma measure_returns iterations w :
  271 * Z.of_nat iterations < W64 →
  kept w ∅ 0 0 0 0 0 ⊢ wpp (measure (Allocator.allocate (S fuel) tid) (Allocator.deallocate tid) iterations) (owning w) (λ _ h, all_returned h).
Proof using HL.
  intros Hn. iIntros "H". iApply wpp_bind.
  set (sizes := (λ i, Z.of_nat i mod 256 + 16) <$> seq 0 iterations).
  assert (Forall (λ n, 0 < n ≤ 271) sizes ∧ length sizes = iterations) as [Hr Hlen].
  { split; [|by rewrite length_fmap length_seq]. apply Forall_fmap, Forall_forall. intros i _. cbn.
    pose proof (Z.mod_pos_bound (Z.of_nat i) 256). lia. }
  assert (Forall (λ n, 0 < n) sizes) as Hsz by (eapply Forall_impl; [exact Hr|cbn; lia]).
  pose proof (total_le 271 sizes) as Htot. rewrite Hlen in Htot.
  assert (total sizes ≤ 271 * Z.of_nat iterations) by (apply Htot; eapply Forall_impl; [exact Hr|cbn; lia]).
  iApply (wpp_allocate_blocks tid fuel sizes [] w ∅ ∅ 0 0 0); [done|done|lia|lia|lia|lia|]. iFrame "H".
  iIntros (ps w1 B [Hps Htk]) "H". cbn [app] in Htk. destruct (obtained_zip_le ps sizes Hsz) as [Hle Hle'].
  assert (ps = (zip ps sizes).*1) as Efst by (symmetry; apply fst_zip; lia).
  pose proof (obtained_nonneg _ (zip_nonneg ps sizes Hsz)). rewrite !Z.add_0_l Z.max_r; [|lia].
  replace (deallocate_blocks (Allocator.deallocate tid) ps) with (deallocate_blocks (Allocator.deallocate tid) (zip ps sizes).*1) by (by rewrite -Efst).
  iApply (wpp_deallocate_blocks tid (zip ps sizes) w1 ∅ B _ 0 _ 0 _ with "[$H]");
    [done|by apply zip_nonneg|lia|lia|lia|lia|lia|lia|].
  iIntros (w2) "H". rewrite !Z.add_0_l. iExists w2, _, _. by iFrame.
Qed.
Lemma fragmentation_churn_returns w :
  kept w ∅ 0 0 0 0 0 ⊢ wpp (fragmentation_churn (S fuel) tid) (owning w) (λ _ h, all_returned h).
Proof using HL.
  iIntros "H". unfold fragmentation_churn.
  set (sizes := (λ i, (Z.of_nat i mod 32 + 1) * 1024) <$> seq 0 4000).
  assert (Forall (λ n, 0 < n) sizes ∧ total sizes = 67584000 ∧ Z.of_nat (length sizes) = 4000) as (Hsz&Htot&Hlen).
  { split_and!; [|by vm_compute|by vm_compute]. apply Forall_fmap, Forall_forall. intros i _. cbn.
    pose proof (Z.mod_pos_bound (Z.of_nat i) 32). lia. }
  assert (4000 < W64 ∧ 67584000 < W64) as [Hl Ht] by (split; by vm_compute).
  assert (⊢ ∀ Φ, kept w ∅ 0 0 0 0 0 -∗ (∀ q w', all_returned (owning w') -∗ Φ q (owning w')) -∗
    wpp (churn ← allocate_blocks (Allocator.allocate (S fuel) tid) sizes; _ ← deallocate_blocks (Allocator.deallocate tid) (every_second churn);
         stats ← Allocator.statistics; _ ← deallocate_blocks (Allocator.deallocate tid) (every_second (tail churn));
         mret [(internalFragmentation stats * 100)%Q; (externalFragmentation stats * 100)%Q]) (owning w) Φ) as Hgo.
  2: { iApply (Hgo with "H"). by iIntros (q w') "H". }
  clearbody sizes. iIntros (Φ) "H HΦ". iApply wpp_bind.
  iApply (wpp_allocate_blocks tid fuel sizes [] w ∅ ∅ 0 0 0); [done|done|lia|lia|lia|lia|]. iFrame "H".
  iIntros (ps w1 B [Hps Htk]) "H". cbn [app] in Htk. destruct (obtained_zip_le ps sizes Hsz) as [Hle Hle'].
  destruct (halves ps sizes B) as (even&odd&B1&Hev&Hod&Eev&Eod&_&_&Pev&Pod&Hcount&Hsum); [done..|].
  pose proof (obtained_nonneg _ Pev). pose proof (obtained_nonneg _ Pod).
  rewrite Hcount Hsum !Z.add_0_l Nat2Z.inj_add in Hle Hle' |- *. rewrite Z.max_r; [|lia].
  rewrite Eev. iApply wpp_bind. iApply (wpp_deallocate_blocks tid even w1 B1 B _ 0 _ 0 _ with "[$H HΦ]");
    [done|done|lia|lia|lia|lia|lia|lia|].
  iIntros (w2) "H". rewrite !Z.add_0_l. iApply wpp_bind. iApply wpp_kept_statistics. iFrame "H". iIntros (e) "H".
  rewrite Eod. iApply wpp_bind.
  iApply (wpp_deallocate_blocks tid odd w2 ∅ B1 _ _ _ _ _ with "[$H HΦ]"); [done|done|lia|lia|lia|lia|lia|lia|].
  iIntros (w3) "H". iApply wpp_ret. iApply "HΦ". iExists w3, _, _. by iFrame.
Qed.
End loop.

