(* ===== verification/ExamplePrograms.v ===== *)
(** The straight-line examples, src/examples/basic_allocation.cpp, custom_allocator.cpp and
    placement_new.cpp, from the construction of their allocator to their last line.
    What they print, in order, is the program's result together with the exit code;
    what [std::string] does is a parameter of the last one. *)

From Stdlib Require Import Strings.String.
From stdpp Require Import gmap.
From iris.proofmode Require Import proofmode.
From S2P Require Import Prelude.
From S2P Require Import HeapProp.
From S2P Require Import Memory.
From S2P Require Import Platform.
From S2P Require Import Logic.
From S2P Require Import StdString.
From S2P Require Import BlockHeader.
From S2P Require Import Prog.
From S2P Require Import StatisticsCollector.
From S2P Require Import Config.
From S2P Require Import DebugLayer.
From S2P Require Import AllocatorImpl.
From S2P Require Import AllocatorInv.
From S2P Require Import Allocate.
From S2P Require Import Deallocate.
From S2P Require Import Allocator.
From S2P Require Import Facade.
From S2P Require Import Serving.

Open Scope Z_scope.

Inductive line :=
  | AllocationFailed
  | AllocatedAt (p : Z) | GrownAt (p : Z) | AlignedAt (p : Z)
  | TryAllocated (p : Z) | TryFailed (reason : string)
  | DebugBlockAt (p : Z) | LiveAllocations (n : Z)
  | SensorLine (name : string) (threshold : Z).

Section programs.
Context `{HOS : !OS} (fuel : nat) (tid : Z).

(** basic_allocation.cpp; [buffer] is assigned what [reallocate] returns. *)
Definition basic_allocation : prog Allocator (Z * list line) :=
  buffer ← Allocator.allocate fuel tid 256;
  if buffer =? 0 then mret (1, [AllocationFailed]) else
  _ ← io (memset buffer Byte.x00 256);
  grown ← Allocator.reallocate fuel tid buffer 1024;
  aligned ← Allocator.alignedAllocate fuel tid 64 512;
  _ ← Allocator.deallocate tid aligned;
  _ ← Allocator.deallocate tid grown;
  let out := [AllocatedAt buffer; GrownAt grown; AlignedAt aligned] in
  result ← Allocator.tryAllocate fuel tid 128;
  match result with
  | inl p => _ ← Allocator.deallocate tid p; mret (0, out ++ [TryAllocated p])
  | inr e => mret (0, out ++ [TryFailed (toString (error_code e))])
  end.

(** custom_allocator.cpp: [stackValue] is the address of the local variable; what the
    handler prints is in the allocator's [reports]. *)
Definition custom_config : AllocatorConfig :=
  MkConfig (enableGuardBytes debug) (enablePoisoning debug) (enableLeakTracking debug) (enableDoubleFreeDetection debug)
    (enableThreadCache debug) (abortOnError debug) true.
Definition custom_allocator (stackValue : Z) : prog Allocator (Z * list line) :=
  block ← Allocator.allocate fuel tid 128;
  _ ← Allocator.deallocate tid block;
  _ ← Allocator.deallocate tid block;
  _ ← Allocator.deallocate tid stackValue;
  n ← Allocator.liveAllocationCount;
  mret (0, [DebugBlockAt block; LiveAllocations n]).
End programs.

Section correct.
Context `{HOS : !OS, HL : !OSLaws} (fuel : nat) (tid : Z).
Implicit Types (w : AllocatorImpl) (L : gmap Z alloc).

(** Freeing what a request gave, block or null. *)
Lemma wpp_free_served u L L' w Φ :
  abortOnError (cfg_of w) = false →
  u = 0 ∧ L' = L ∨ u ≠ 0 ∧ L' !! u ≠ None ∧ delete u L' = L →
  serves w L' ∗ (∀ w', ⌜cfg_of w' = cfg_of w⌝ -∗ serves w' L -∗ Φ () (owning w')) ⊢
  wpp (Allocator.deallocate tid u) (owning w) Φ.
Proof using HL.
  intros Hab Hu. iIntros "[H HΦ]". destruct Hu as [[-> ->]|(Hu&Hs&<-)].
  - iApply wpp_serves_null. iFrame "H". by iApply "HΦ".
  - destruct (L' !! u) as [a|] eqn:Ha; [|done]. iApply (wpp_serves_deallocate tid u a); [done|done|]. iFrame "H".
    iIntros (w' [Hc _]) "H". by iApply ("HΦ" with "[//]").
Qed.

(** The outcomes of the first example: it stops at once, or it goes through. *)
Definition basic_outcome (r : Z * list line) (w : AllocatorImpl) : Prop :=
  (r = (1, [AllocationFailed]) ∧ activeAllocations_ (get_stats w) = 0) ∨
  ∃ p q u last, r = (0, [AllocatedAt p; GrownAt q; AlignedAt u; last]) ∧ p ≠ 0 ∧ u mod 64 = 0 ∧
    (last = TryFailed "out of memory" ∨ ∃ s, s ≠ 0 ∧ last = TryAllocated s) ∧
    activeAllocations_ (get_stats w) = (if q =? 0 then 1 else 0).
Lemma serves_active w L : (size L ≤ 1)%nat → serves w L ⊢ ⌜activeAllocations_ (get_stats w) = Z.of_nat (size L)⌝.
Proof using.
  intros Hsz. iIntros "H". iDestruct (serves_stats with "H") as %[-> _]. iPureIntro. apply wrap64_small.
  unfold in64. rewrite W64_eq. lia.
Qed.
(** The end of it: [L] is what is left when the pointers are freed. *)
Lemma wpp_basic_end p q w L L' Φ :
  abortOnError (cfg_of w) = false → p ≠ 0 → (size L ≤ 1)%nat → Z.of_nat (size L) = (if q =? 0 then 1 else 0) →
  q = 0 ∧ L' = L ∨ q ≠ 0 ∧ L' !! q ≠ None ∧ delete q L' = L →
  serves w L' ∗ (∀ r w', ⌜basic_outcome r w'⌝ -∗ Φ r (owning w')) ⊢
  wpp (aligned ← Allocator.alignedAllocate (S fuel) tid 64 512;
       _ ← Allocator.deallocate tid aligned;
       _ ← Allocator.deallocate tid q;
       let out := [AllocatedAt p; GrownAt q; AlignedAt aligned] in
       result ← Allocator.tryAllocate (S fuel) tid 128;
       match result with
       | inl s => _ ← Allocator.deallocate tid s; mret (0, out ++ [TryAllocated s])
       | inr e => mret (0, out ++ [TryFailed (toString (error_code e))])
       end) (owning w) Φ.
Proof using HL.
  intros Hab Hp Hsz Hq HL'. iIntros "[H HΦ]". iApply wpp_bind.
  iApply (wpp_serves_aligned fuel tid 64 512 w L'); [by vm_compute|by exists 6; vm_compute|done|]. iFrame "H".
  iIntros (u w1) "H". iApply wpp_bind.
  iAssert (∃ L1, ⌜cfg_of w1 = cfg_of w ∧ u mod 64 = 0 ∧ (u = 0 ∧ L1 = L' ∨ u ≠ 0 ∧ L1 !! u ≠ None ∧ delete u L1 = L')⌝ ∗ serves w1 L1)%I
    with "[H]" as (L1 (Hc1&Hu&HL1)) "H".
  { iDestruct "H" as "[[(-> & %e & _ & %Hfl) H]|(%a & (%Hu & %Hn & _ & %Hm & %Hall) & H)]".
    - iExists L'. iFrame. iPureIntro. destruct Hfl as [-> _]. split_and!; [done|done|by left].
    - iExists _. iFrame. iPureIntro. destruct Hall as [-> _]. split_and!; [done|done|right].
      rewrite lookup_insert_eq delete_insert_id //. }
  iApply (wpp_free_served u L' L1); [by rewrite Hc1|done|]. iFrame "H". iIntros (w2 Hc2) "H". iApply wpp_bind.
  iApply (wpp_free_served q L L'); [by rewrite Hc2 Hc1|done|]. iFrame "H". iIntros (w3 Hc3) "H". iApply wpp_bind.
  assert (abortOnError (cfg_of w3) = false) as Hab3 by (by rewrite Hc3 Hc2 Hc1).
  iApply (wpp_serves_tryAllocate fuel tid 128 w3 L); [by vm_compute|done|]. iFrame "H". iIntros ([s|e] w4) "H".
  - iDestruct "H" as (a (Hs&Hn&_&Hall)) "H". pose proof Hall as [Hc4 _]. iApply wpp_bind.
    iApply (wpp_free_served s L (<[s := a]> L)); [by rewrite Hc4| |].
    { right. rewrite lookup_insert_eq delete_insert_id //. }
    iFrame "H". iIntros (w5 _) "H". iDestruct (serves_active with "H") as %Hact; [done|]. iApply wpp_ret. iApply "HΦ".
    iPureIntro. right. exists p, q, u, (TryAllocated s). split_and!; [done|done|done|right; by exists s|by rewrite Hact].
  - iDestruct "H" as "[[%He _] H]". iDestruct (serves_active with "H") as %Hact; [done|]. iApply wpp_ret. iApply "HΦ".
    iPureIntro. right. exists p, q, u, (TryFailed (toString (error_code e))). split_and!; [done|done|done|left|by rewrite Hact].
    destruct He as [[_ Hbig]|[-> _]]; [by vm_compute in Hbig|done].
Qed.
End correct.

Lemma wpp_basic_allocation `{HOS : !OS, HL : !OSLaws} fuel tid w :
  abortOnError (cfg_of w) = false →
  serves w ∅ ⊢ wpp (basic_allocation (S fuel) tid) (owning w) (λ r h, ∃ w', ⌜h = owning w' ∧ basic_outcome r w'⌝).
Proof.
  intros Hab.
  iIntros "H". iApply wpp_bind. iApply (wpp_serves_allocate fuel tid 256 w ∅); [by vm_compute|done|]. iFrame "H".
  iIntros (p w1) "[[(-> & %e & _ & %Hfl) H]|(%a & (%Hp & _ & %Hsz & _ & %Hall) & H)]".
  - iDestruct (serves_active with "H") as %Hact; [rewrite map_size_empty; lia|]. iApply wpp_ret. iExists w1. iPureIntro. split; [done|].
    left. by rewrite Hact.
  - rewrite (proj2 (Z.eqb_neq p 0)) //. pose proof Hall as [Hc1 _].
    iDestruct (serves_block _ _ p with "H") as "[Hraw H]"; [apply lookup_insert_eq|]. rewrite Hsz.
    iApply wpp_bind. iApply wpp_io. iApply wp_memset_raw. iFrame "Hraw". iIntros "Hraw".
    iDestruct ("H" with "[Hraw]") as "H"; [by iApply (raw_intro with "Hraw")|].
    iApply wpp_bind. iApply (wpp_serves_reallocate fuel tid p a 1024); [apply lookup_insert_eq|by vm_compute|done|by rewrite Hc1|].
    iFrame "H". iIntros (q w2) "[[(-> & %e & _ & %Hfl) H]|(%a' & %w' & (%Hq & %Hn & _ & %Hal & %Hde) & H)]".
    + destruct Hfl as [Hc2 _]. iApply (wpp_basic_end fuel tid p 0 w2 (<[p := a]> ∅)); try done.
      { by rewrite Hc2 Hc1. }
      { rewrite map_size_insert_None // map_size_empty. }
      { by rewrite map_size_insert_None // map_size_empty. }
      { by left. }
      iFrame "H". iIntros (r w3 Ho). by iExists w3.
    + destruct Hal as [Hc2 _], Hde as [Hc3 _]. iApply (wpp_basic_end fuel tid p q w2 ∅ (delete p (<[q := a']> (<[p := a]> ∅)))); try done.
      { by rewrite Hc3 Hc2 Hc1. }
      { rewrite map_size_empty. lia. }
      { by rewrite map_size_empty (proj2 (Z.eqb_neq q 0)). }
      { right. apply lookup_insert_None in Hn as [_ Hpq]. split; [done|].
        rewrite lookup_delete_ne // lookup_insert_eq. split; [done|].
        rewrite insert_insert_ne // delete_insert_id; [|by rewrite lookup_insert_ne].
        rewrite delete_insert_id //. }
      iFrame "H". iIntros (r w3 Ho). by iExists w3.
Qed.

(** The same, run from the construction of the allocator. *)
Theorem basic_allocation_correct `{HOS : !OS, HL : !OSLaws} fuel tid self tls throws dbg m :
  (∀ tid t, tls !! tid = Some t → ThreadCache.central_ t ≠ self) →
  ∃ r w m', run (basic_allocation (S fuel) tid) (owning (AllocatorImpl_init AllocatorConfig_default self tls throws dbg)) m =
      Ok (r, owning w) m' ∧ basic_outcome r w.
Proof.
  intros Htls. set (w := AllocatorImpl_init _ _ _ _ _).
  destruct (sat_wpp (serves w ∅) (basic_allocation (S fuel) tid) (owning w) (λ r h, ∃ w', ⌜h = owning w' ∧ basic_outcome r w'⌝)%I m)
    as (r&h&m'&Hrun&Hsat).
  - by apply wpp_basic_allocation.
  - by apply sat_start, serves_init.
  - apply sat_exist in Hsat as [w' Hsat]. apply sat_pure in Hsat as [-> Ho]. by exists r, w', m'.
Qed.
Lemma basic_allocation_correct_witness :
  let os := bump_os 9 in
  ∃ r w m', run (basic_allocation 1 1) (owning (AllocatorImpl_init AllocatorConfig_default 1 ∅ (λ _, false) (λ _, false))) mem_init =
      Ok (r, owning w) m' ∧ basic_outcome r w.
Proof.
  intros os. apply (basic_allocation_correct (HOS := os) (HL := bump_laws 9) 0 1 1 ∅ (λ _, false) (λ _, false) mem_init).
  intros tid t Ht. by rewrite lookup_empty in Ht.
Defined.

(** The loss happens: on a system that grants one mapping, [reallocate] fails, and a block
    is live when the program ends. *)
Lemma basic_allocation_leaks :
  let os := bump_os 1 in
  match run (basic_allocation 1 1) (owning (AllocatorImpl_init AllocatorConfig_default 1 ∅ (λ _, false) (λ _, false))) mem_init with
  | Ok ((code, [AllocatedAt p; GrownAt q; AlignedAt _; TryFailed _]), MkAllocator (Some w)) _ =>
      code = 0 ∧ p ≠ 0 ∧ q = 0 ∧ activeAllocations_ (get_stats w) = 1
  | _ => False
  end.
Proof. by vm_compute. Qed.

(** ** The configured allocator *)
Section custom.
Context `{HOS : !OS, HL : !OSLaws} (fuel : nat) (tid : Z).

(** The diagnostics the handler receives, latest first. *)
Definition custom_reports (block stackValue : Z) (rs : list Report) : Prop :=
  let wrong := MkReport (if stackValue =? block then DoubleFree else InvalidPointer) stackValue true in
  block ≠ 0 ∧ rs = [wrong; MkReport DoubleFree block true] ∨
  block = 0 ∧ ∃ e, rs = [wrong; MkReport e 0 true].
Lemma wpp_custom_end stack w out Φ :
  stack ≠ 0 → cfg_of w = custom_config →
  serves w ∅ ∗ (∀ w', ⌜w' = add_report w (untracked_error w stack) stack⌝ -∗ Φ (0, [out; LiveAllocations 0]) (owning w')) ⊢
  wpp (_ ← Allocator.deallocate tid stack; n ← Allocator.liveAllocationCount; mret (0, [out; LiveAllocations n])) (owning w) Φ.
Proof using HL.
  intros Hs Hc. iIntros "[H HΦ]". iApply wpp_bind.
  iApply (wpp_serves_untracked tid stack w ∅); [done|by rewrite Hc|done|by rewrite Hc|]. iFrame "H". iIntros "H".
  iApply wpp_bind. iApply wpp_serves_count. iFrame "H". iIntros "_". change (cfg_of (add_report _ _ _)) with (cfg_of w). rewrite Hc.
  iApply wpp_ret. rewrite map_size_empty. by iApply "HΦ".
Qed.
End custom.

Lemma wpp_custom_allocator `{HOS : !OS, HL : !OSLaws} fuel tid stackValue self tls throws :
  stackValue ≠ 0 →
  let w := AllocatorImpl_init custom_config self tls throws (λ _, false) in
  serves w ∅ ⊢ wpp (custom_allocator (S fuel) tid stackValue) (owning w) (λ r h, ∃ block w',
    ⌜h = owning w' ∧ r = (0, [DebugBlockAt block; LiveAllocations 0]) ∧ custom_reports block stackValue (reports w') ∧
     live_ (AllocatorImpl.debug_ w') = ∅⌝).
Proof.
  intros Hst w.
  iIntros "H". iApply wpp_bind. iApply (wpp_serves_allocate fuel tid 128 w ∅); [by vm_compute|done|]. iFrame "H".
  iIntros (p w1) "[[(-> & %e & _ & %Hfl) H]|(%a & (%Hp & _ & %Hsz & _ & %Hall) & H)]".
  - destruct Hfl as (Hc&_&Hd&_&Hr). do 2 (iApply wpp_bind; iApply wpp_serves_null; iFrame "H"; iIntros "H").
    iApply (wpp_custom_end tid stackValue w1); [done|done|]. iFrame "H". iIntros (w2 ->). iExists 0, _. iPureIntro.
    split_and!; [done|done| |by rewrite /add_report /= Hd]. right. split; [done|]. exists e.
    unfold add_report. cbn [reports set_reports]. rewrite Hr Hc. unfold untracked_error. rewrite Hd.
    rewrite bool_decide_eq_false_2; [|apply not_elem_of_empty]. by rewrite (proj2 (Z.eqb_neq stackValue 0)).
  - destruct Hall as (Hc&_&Hd&_&Hr). iApply wpp_bind.
    iApply (wpp_serves_deallocate tid p a); [apply lookup_insert_eq|by rewrite Hc|]. iFrame "H".
    rewrite delete_insert_id //. iIntros (w2 (Hc2&_&Hd2&_&Hr2)) "H". iApply wpp_bind.
    rewrite /warned untampered in Hr2.
    assert (cfg_of w2 = custom_config) as Hc2' by (by rewrite Hc2 Hc).
    iApply (wpp_serves_untracked tid p w2 ∅); [done|by rewrite Hc2'|done|by rewrite Hc2'|]. iFrame "H". iIntros "H".
    iApply (wpp_custom_end tid stackValue); [done|done|]. iFrame "H". iIntros (w3 ->). iExists p, _. iPureIntro.
    assert (freed_ (AllocatorImpl.debug_ w2) = {[ p ]}) as Hfreed.
    { rewrite Hd2 /free_debug Hc Hd /alloc_debug. cbn. set_solver. }
    split_and!; [done|done| |].
    + left. split; [done|]. unfold add_report, untracked_error. cbn [reports set_reports].
      change (AllocatorImpl.debug_ (set_reports w2 _)) with (AllocatorImpl.debug_ w2). rewrite Hfreed Hr2 Hr.
      change (cfg_of (set_reports w2 _)) with (cfg_of w2). rewrite Hc2'.
      rewrite (bool_decide_eq_true_2 (p ∈ {[ p ]})); [|set_solver]. f_equal. f_equal.
      destruct (Z.eqb_spec stackValue p) as [->|Hne]; [by rewrite bool_decide_eq_true_2; [|set_solver]|].
      by rewrite bool_decide_eq_false_2; [|set_solver].
    + unfold add_report. cbn [AllocatorImpl.debug_ set_reports]. rewrite Hd2 /free_debug Hc Hd /alloc_debug. cbn.
      by rewrite delete_insert_id.
Qed.

(** C35: the second example.  With everything enabled and a handler installed the program
    reaches its end, whatever the system does: freeing the block again and freeing the
    address of a local variable are both refused and reported to the handler, exactly
    once each, with the error that fits, and no allocation is live at the end. *)
Theorem custom_allocator_correct `{HOS : !OS, HL : !OSLaws} fuel tid stackValue self tls throws m :
  stackValue ≠ 0 → (∀ tid t, tls !! tid = Some t → ThreadCache.central_ t ≠ self) →
  ∃ block w m',
    run (custom_allocator (S fuel) tid stackValue) (owning (AllocatorImpl_init custom_config self tls throws (λ _, false))) m =
      Ok ((0, [DebugBlockAt block; LiveAllocations 0]), owning w) m' ∧
    custom_reports block stackValue (reports w) ∧ leak_message w = None.
Proof.
  intros Hst Htls. set (w := AllocatorImpl_init _ _ _ _ _).
  destruct (sat_wpp (serves w ∅) (custom_allocator (S fuel) tid stackValue) (owning w) (λ r h, ∃ block w',
    ⌜h = owning w' ∧ r = (0, [DebugBlockAt block; LiveAllocations 0]) ∧ custom_reports block stackValue (reports w') ∧
     live_ (AllocatorImpl.debug_ w') = ∅⌝)%I m) as (r&h&m'&Hrun&Hsat).
  - by apply wpp_custom_allocator.
  - apply sat_start, serves_init; [done|]. done.
  - do 2 (apply sat_exist in Hsat as [? Hsat]). apply sat_pure in Hsat as (->&->&Hrep&Hlive).
    do 3 eexists. split_and!; [exact Hrun|exact Hrep|]. unfold leak_message. rewrite Hlive map_size_empty.
    by destruct (enableLeakTracking _).
Qed.
Lemma custom_allocator_correct_witness :
  let os := bump_os 9 in
  ∃ block w m',
    run (custom_allocator 1 1 8) (owning (AllocatorImpl_init custom_config 1 ∅ (λ _, false) (λ _, false))) mem_init =
      Ok ((0, [DebugBlockAt block; LiveAllocations 0]), owning w) m' ∧ custom_reports block 8 (reports w).
Proof.
  intros os. destruct (custom_allocator_correct (HOS := os) (HL := bump_laws 9) 0 1 8 1 ∅ (λ _, false) mem_init) as (b&w&m'&Hrun&Hr&_).
  - done.
  - intros tid t Ht. by rewrite lookup_empty in Ht.
  - exists b, w, m'. exact (conj Hrun Hr).
Defined.

(** ** Placement new *)
Section placement.
Context `{HOS : !OS} `{HSS : !StdString} (fuel : nat) (tid : Z).

(** [class Sensor]: a name and a threshold, a [double] given by its bits. *)
Definition alignof_Sensor : Z := 8.
Definition sizeof_Sensor : Z := string_size + 8.
Definition Sensor_construct (p : Z) (name : string) (threshold : Z) : cmd () :=
  _ ← string_construct p name; store 8 (p + string_size) threshold.
Definition Sensor_name (p : Z) : cmd string := string_read p.
Definition Sensor_threshold (p : Z) : cmd Z := load 8 (p + string_size).
Definition Sensor_destroy (p : Z) : cmd () := string_destroy p.

(** 78.5. *)
Definition threshold_bits : Z := 0x4053A00000000000.
Definition placement_new : prog Allocator (Z * list line) :=
  storage ← Allocator.alignedAllocate fuel tid alignof_Sensor sizeof_Sensor;
  if storage =? 0 then mret (1, []) else
  _ ← io (Sensor_construct storage "thermal-1" threshold_bits);
  name ← io (Sensor_name storage);
  threshold ← io (Sensor_threshold storage);
  _ ← io (Sensor_destroy storage);
  _ ← Allocator.deallocate tid storage;
  mret (0, [SensorLine name threshold]).
End placement.

Lemma wpp_placement_new `{HOS : !OS, HL : !OSLaws} `{HSS : !StdString} `{HSL : !StdStringLaws "thermal-1"} fuel tid w :
  abortOnError (cfg_of w) = false →
  serves w ∅ ⊢ wpp (placement_new (S fuel) tid) (owning w) (λ r h, ∃ w',
    ⌜h = owning w' ∧ activeAllocations_ (get_stats w') = 0 ∧ (r = (1, []) ∨ r = (0, [SensorLine "thermal-1" threshold_bits]))⌝).
Proof.
  intros Hab. destruct string_size_ok as [[Hs0 Hs1] Hs8].
  assert (in64 sizeof_Sensor ∧ request sizeof_Sensor = string_size + 8) as [Hin Hreq].
  { unfold in64, request, sizeof_Sensor. rewrite W64_eq (proj2 (Z.eqb_neq _ _)); lia. }
  iIntros "H". iApply wpp_bind.
  iApply (wpp_serves_aligned fuel tid alignof_Sensor sizeof_Sensor w ∅); [done|by exists 3; vm_compute|done|]. iFrame "H".
  rewrite Hreq. iIntros (p w1) "[[(-> & %e & _ & %Hfl) H]|(%a & (%Hp & _ & %Hsz & %Hm & %Hall) & H)]".
  - iDestruct (serves_active with "H") as %Hact; [rewrite map_size_empty; lia|]. iApply wpp_ret. iExists w1. iPureIntro.
    rewrite Hact. split_and!; [done|done|by left].
  - rewrite (proj2 (Z.eqb_neq p 0)) //. pose proof Hall as [Hc1 _].
    iDestruct (serves_block _ _ p with "H") as "[Hraw H]"; [apply lookup_insert_eq|]. rewrite Hsz raw_split; [|lia..].
    iDestruct "Hraw" as "[Hstr Hthr]".
    iDestruct (raw_word64 with "Hthr") as (v) "Hthr"; [unfold alignof_Sensor in Hm; rewrite Z.add_mod // Hm Hs8 //|].
    iApply wpp_bind. iApply wpp_io. iApply wp_bind. iApply wp_string_construct; [done|]. iFrame "Hstr". iIntros "Hstr".
    iApply wp_store; [done|]. iFrame "Hthr". iIntros "Hthr".
    iApply wpp_bind. iApply wpp_io. iApply wp_string_read. iFrame "Hstr". iIntros "Hstr".
    iApply wpp_bind. iApply wpp_io. iApply wp_load. iFrame "Hthr". iIntros "Hthr".
    iApply wpp_bind. iApply wpp_io. iApply wp_string_destroy. iFrame "Hstr". iIntros "Hstr". iDestruct (word64_raw with "Hthr") as "Hthr".
    iDestruct ("H" with "[$Hstr $Hthr]") as "H".
    iApply wpp_bind. iApply (wpp_free_served tid p ∅ (<[p := a]> ∅)); [by rewrite Hc1| |].
    { right. rewrite lookup_insert_eq delete_insert_id //. }
    iFrame "H". iIntros (w2 _) "H". iDestruct (serves_active with "H") as %Hact; [rewrite map_size_empty; lia|].
    iApply wpp_ret. iExists w2. iPureIntro. rewrite Hact. split_and!; [done|done|by right].
Qed.

(** The third example, for any implementation of [std::string].  The storage is
    large enough and aligned for the object: it is built, read and destroyed inside it,
    what is printed is what the object was built with, and the storage is given back;
    when there is no storage, the program stops with exit code 1. *)
Theorem placement_new_correct `{HOS : !OS, HL : !OSLaws} `{HSS : !StdString} `{HSL : !StdStringLaws "thermal-1"}
    fuel tid self tls throws dbg m :
  (∀ tid t, tls !! tid = Some t → ThreadCache.central_ t ≠ self) →
  ∃ r w m', run (placement_new (S fuel) tid) (owning (AllocatorImpl_init AllocatorConfig_default self tls throws dbg)) m =
      Ok (r, owning w) m' ∧ activeAllocations_ (get_stats w) = 0 ∧
    (r = (1, []) ∨ r = (0, [SensorLine "thermal-1" threshold_bits])).
Proof.
  intros Htls. set (w := AllocatorImpl_init _ _ _ _ _).
  destruct (sat_wpp (serves w ∅) (placement_new (S fuel) tid) (owning w) (λ r h, ∃ w',
    ⌜h = owning w' ∧ activeAllocations_ (get_stats w') = 0 ∧ (r = (1, []) ∨ r = (0, [SensorLine "thermal-1" threshold_bits]))⌝)%I m)
    as (r&h&m'&Hrun&Hsat).
  - by apply wpp_placement_new.
  - by apply sat_start, serves_init.
  - apply sat_exist in Hsat as [w' Hsat]. apply sat_pure in Hsat as (->&Hact&Ho). by exists r, w', m'.
Qed.

(** With the strings of [StdString]. *)
Section instance.
#[local] Instance demo_os : OS := bump_os 9.
#[local] Instance demo_laws : OSLaws := bump_laws 9.
#[local] Existing Instance short_string.
#[local] Instance demo_string : StdStringLaws "thermal-1" := short_string_laws "thermal-1" ltac:(done).
Lemma placement_new_correct_witness :
  ∃ r w m', run (placement_new 1 1) (owning (AllocatorImpl_init AllocatorConfig_default 1 ∅ (λ _, false) (λ _, false))) mem_init =
      Ok (r, owning w) m' ∧ activeAllocations_ (get_stats w) = 0.
Proof.
  destruct (placement_new_correct 0 1 1 ∅ (λ _, false) (λ _, false) mem_init) as (r&w&m'&Hrun&Hact&_).
  - intros tid t Ht. by rewrite lookup_empty in Ht.
  - exists r, w, m'. exact (conj Hrun Hact).
Defined.
End instance.
