(* ===== verification/StlIntegration.v ===== *)
(** src/examples/stl_integration.cpp: a vector and a map of the standard library whose
    memory comes from one allocator.  Printing is the program's result; an exception that
    nobody catches is [None]. *)

From Stdlib Require Import Strings.String.
From stdpp Require Import gmap.
From iris.proofmode Require Import proofmode.
From S2P Require Import Prelude.
From S2P Require Import HeapProp.
From S2P Require Import Memory.
From S2P Require Import Platform.
From S2P Require Import Logic.
From S2P Require Import StdString.
From S2P Require Import Prog.
From S2P Require Import StatisticsCollector.
From S2P Require Import Config.
From S2P Require Import ThreadCache.
From S2P Require Import AllocatorImpl.
From S2P Require Import AllocatorInv.
From S2P Require Import Allocate.
From S2P Require Import Allocator.
From S2P Require Import Facade.
From S2P Require Import StlAllocator.
From S2P Require Import StdVector.
From S2P Require Import MemoryResource.
From S2P Require Import PmrMap.

Open Scope Z_scope.

Inductive stl_line :=
  | VectorHolds (squares last : Z)
  | MapEntry (entry : string)
  | BackingAllocations (n : Z).

Section program.
Context `{HOS : !OS} `{HG : !VectorGrowth} `{HN : !TreeNodes} `{HSS : !StdString} (fuel : nat) (tid : Z).

(** [handle] and [resource] are the addresses of the two local objects. *)
Definition squares : list Z := (λ i, Z.of_nat i * Z.of_nat i) <$> seq 0 1000.
Definition stl_integration (handle resource : Z) : prog Allocator (option (Z * list stl_line)) :=
  r ← push_all 4 fuel tid (vector_make (StlAllocator_make handle)) squares;
  match r with None => mret None | Some numbers =>
  last ← io (back 4 numbers);
  r ← emplace fuel tid (map_make resource) 1 "alpha";
  match r with None => mret None | Some registry =>
  r ← emplace fuel tid registry 2 "beta";
  match r with None => mret None | Some registry =>
  entry ← map_at registry 2;
  match entry with None => mret None | Some entry =>
  stats ← Allocator.statistics;
  _ ← map_destroy tid registry;
  _ ← vector_destroy tid numbers;
  mret (Some (0, [VectorHolds (StdVector.size numbers) last; MapEntry entry; BackingAllocations (activeAllocations stats)]))
  end end end end.
End program.

Section correct.
Context `{HOS : !OS, HL : !OSLaws} `{HG : !VectorGrowth, HGL : !VectorGrowthLaws} `{HN : !TreeNodes, HNL : !TreeNodesLaws} `{HSS : !StdString}.
Context (Halpha : StdStringLaws "alpha") (Hbeta : StdStringLaws "beta").
Implicit Types (w : AllocatorImpl).

(** The memory for the containers ran out: the system refused it, or the library let the
    vector grow to more than the allocator serves. *)
Definition containers_starved : Prop := os_refused ∨ ∃ k, 0 ≤ k < 1000 ∧ kMaxRequest < grow k * 4.
Definition stl_outcome (r : option (Z * list stl_line)) (h : Allocator) : heapPropI :=
  ∃ w, ⌜h = owning w⌝ ∗
  match r with
  | None => ⌜containers_starved⌝
  | Some r => ⌜r = (0, [VectorHolds 1000 998001; MapEntry "beta"; BackingAllocations 3])⌝ ∗ impl_inv w ∅
  end.
Lemma starved_outcome w : containers_starved → ⊢ stl_outcome None (owning w).
Proof. intros. iExists w. by iSplit. Qed.
Lemma squares_scalar : Forall (scalar 4) squares.
Proof.
  apply Forall_fmap, Forall_forall. intros i Hi%elem_of_seq. unfold scalar. change (2 ^ (Z.of_nat 4 * 8)) with 4294967296.
  assert (Z.of_nat i ≤ 1000) by lia. cbn. nia.
Qed.
Lemma squares_last : length squares = 1000%nat ∧ squares !! 999%nat = Some 998001.
Proof. by split; vm_compute. Qed.
#[local] Opaque squares.
Lemma wpp_statistics_live w L Φ :
  Z.of_nat (base.size L) < W64 →
  impl_inv w L ∗ (∀ s, ⌜activeAllocations s = Z.of_nat (base.size L)⌝ -∗ impl_inv w L -∗ Φ s (owning w)) ⊢
  wpp Allocator.statistics (owning w) Φ.
Proof.
  intros Hsz. iIntros "[HI HΦ]". iAssert ⌜stats_ok (get_stats w) L⌝%I as %[Hact _].
  { by iDestruct "HI" as (C (_&_&?&_)) "_". }
  iApply wpp_guarded. iApply wpp_statistics. iFrame "HI". iIntros (l _) "HI". iApply ("HΦ" with "[%] HI").
  cbn. rewrite Hact wrap64_small //. unfold in64. lia.
Qed.
Lemma wpp_stl_integration fuel tid handle resource w :
  abortOnError (cfg_of w) = false →
  impl_inv w ∅ ⊢ wpp (stl_integration (S fuel) tid handle resource) (owning w) stl_outcome.
Proof.
  intros Hab. destruct squares_last as [Hlen Hlast]. iIntros "HI". iApply wpp_bind.
  assert (0 < Z.of_nat 4 ∧ valid_alignment (Z.of_nat 4)) as [H4 Hal] by (split; [done|by exists 2]).
  iApply (wpp_push_all 4 fuel tid H4 Hal (vector_make (StlAllocator_make handle)) [] squares ∅ w ∅);
    [done|done|apply squares_scalar|rewrite Hlen; by vm_compute|].
  rewrite map_union_empty. iFrame "HI". iSplitR; [iApply vector_make_holds|]. cbn [app].
  iIntros ([numbers|] h) "(%w1 & [-> %Hc1] & H)".
  2: { iApply wpp_ret. iDestruct "H" as %Hr. iApply starved_outcome. destruct Hr as [(k&Hk&?)|?]; [right; exists k|by left].
    rewrite Hlen in Hk. by split. }
  iDestruct "H" as (B1 [_ _]) "[HI Hv]". rewrite map_union_empty.
  iDestruct (vector_holds_size with "Hv") as %[Hvs HB1]; [by rewrite -length_zero_iff_nil Hlen|]. rewrite Hlen in Hvs.
  iApply wpp_bind. unfold back. replace (StdVector.size numbers - 1) with (Z.of_nat 999) by (rewrite Hvs; done).
  iApply (wpp_vector_at 4 H4 numbers squares B1 999 998001); [done|]. iFrame "Hv". iIntros "Hv".
  iApply wpp_bind. iApply (wpp_emplace fuel tid (map_make resource) [] 1 "alpha" ∅ w1 B1); [done|by rewrite Hc1|apply map_disjoint_empty_l|].
  rewrite map_empty_union. iFrame "HI". iSplitR; [iApply map_make_holds|]. iIntros ([m1|] h) "H".
  2: { iDestruct "H" as (w2 [-> _]) "[%Hr _]". iApply wpp_ret. iApply starved_outcome. by left. }
  iDestruct (emplaced_new with "H") as (w2 B2 (->&Hc2&Hd2)) "[HI Hm]"; [apply not_elem_of_nil|].
  iApply wpp_bind. iApply (wpp_emplace fuel tid m1 [(1, "alpha"%string)] 2 "beta" B2 w2 B1); [done|by rewrite Hc2 Hc1|done|].
  iFrame "HI Hm". iIntros ([m2|] h) "H".
  2: { iDestruct "H" as (w3 [-> _]) "[%Hr _]". iApply wpp_ret. iApply starved_outcome. by left. }
  iDestruct (emplaced_new with "H") as (w3 B3 (->&Hc3&Hd3)) "[HI Hm]"; [cbn; set_solver|].
  iApply wpp_bind. iApply (wpp_map_at m2 [(2, "beta"%string); (1, "alpha"%string)] 0 2 "beta"); [done| |].
  { cbn. apply NoDup_cons. split; [set_solver|apply NoDup_singleton]. }
  iFrame "Hm". iIntros "Hm". iDestruct (nodes_hold_size with "Hm") as %HB3.
  assert (base.size (B3 ∪ B1) = 3%nat) as Hsz by (rewrite map_size_disj_union // HB3 HB1; done).
  iApply wpp_bind. iApply (wpp_statistics_live w3 (B3 ∪ B1)); [rewrite Hsz; by vm_compute|]. iFrame "HI". iIntros (st Hst) "HI".
  assert (abortOnError (cfg_of w3) = false) as Hab3 by (by rewrite Hc3 Hc2 Hc1).
  iApply wpp_bind. iApply (wpp_nodes_free tid (nodes m2) _ B3 w3 B1); [done|done|]. iFrame "HI Hm". iIntros (w4 Hc4) "HI".
  iApply wpp_bind. iApply (wpp_vector_release 4 tid H4 numbers squares B1 w4 ∅); [by rewrite Hc4|apply map_disjoint_empty_r|].
  rewrite map_union_empty. iFrame "HI Hv". iIntros (w5 Hc5) "HI". iApply wpp_ret. iExists w5. iSplit; [done|]. iFrame "HI".
  rewrite Hst Hsz Hvs. done.
Qed.
End correct.
