(* ===== verification/SharedHandle.v ===== *)
(** A handle that threads share: the protocol of the allocator, seen through the public
    handle, and the adapter of the benchmarks as one of several threads uses it.  A
    thread's share is made of all the blocks it holds. *)

From stdpp Require Import gmap.
From iris.proofmode Require Import proofmode.
From S2P Require Import Prelude.
From S2P Require Import HeapProp.
From S2P Require Import Memory.
From S2P Require Import Logic.
From S2P Require Import BlockHeader.
From S2P Require Import Prog.
From S2P Require Import Interleaving.
From S2P Require Import ProgLogic.
From S2P Require Import StatisticsCollector.
From S2P Require Import Config.
From S2P Require Import DebugLayer.
From S2P Require Import AllocatorImpl.
From S2P Require Import RawAlloc.
From S2P Require Import AllocatorInv.
From S2P Require Import SharedInv.
From S2P Require Import SharedStats.
From S2P Require Import Allocate.
From S2P Require Import Deallocate.
From S2P Require Import SharedAlloc.
From S2P Require Import Allocator.
From S2P Require Import Facade.
From S2P Require Import Client.
From S2P Require Import Adapters.

Section handle.
Context `{HOS : !OS, HL : !OSLaws} (cfg : AllocatorConfig).
Implicit Types (w : AllocatorImpl) (h : Allocator) (it : item) (H : gmap holder item) (u : Z) (L : gmap Z alloc).

(** ** The protocol *)
Definition handle_rely (tid : Z) h h' : Prop :=
  h = h' ∨ ∃ w w', h = owning w ∧ h' = owning w' ∧ alloc_rely tid w w'.
Definition handle_shared h H : heapPropI := ∃ w, ⌜h = owning w⌝ ∗ shared_inv cfg w H.
#[export] Instance handle_rely_pre tid : PreOrder (handle_rely tid).
Proof.
  split; [by left|]. intros h1 h2 h3 [->|(w1&w2&->&->&Hr)] [<-|(w2'&w3&E&->&Hr')]; [by left| | |];
    right; [by exists w2', w3|by exists w1, w2|]. injection E as <-. exists w1, w3. split_and!; [done|done|by etrans].
Qed.
#[export] Instance handle_protocol : Protocol Allocator item := {|
  rely := handle_rely; shared := handle_shared
|}.
Lemma handle_rely_inv tid w h : handle_rely tid (owning w) h → ∃ w', h = owning w' ∧ alloc_rely tid w w'.
Proof using. intros [<-|(w1&w'&[= ->]&->&Hr)]; [by exists w|by exists w']. Qed.

(** The implementation's programs, through the handle. *)
Lemma cwp_in_impl {A} tid (p : prog AllocatorImpl A) w it Φ :
  cwp (HP := alloc_protocol cfg) tid p w it (λ a w' it', Φ a (owning w') it') ⊢
  cwp (HP := handle_protocol) tid (in_impl p) (owning w) it Φ.
Proof using.
  revert w it. induction p as [a|X f k IH]; intros w it; [done|]. iIntros "Hp". cbn [in_impl cwp].
  iIntros (h H [(w1&->&Hr)%handle_rely_inv HH]) "(%w2 & %E & Hs)". injection E as <-.
  iApply wp_bind. iApply wp_expect; [done|]. iApply wp_bind. iApply (wp_wand with "(Hp [//] Hs)").
  iIntros (r) "(%it' & %Hg & Hs & Hp)". iApply wp_ret. iExists it'. iSplit.
  - iPureIntro. intros t Ht. right. exists w1, r.2. split_and!; [done|done|by apply Hg].
  - iSplitL "Hs"; [iExists r.2; by iFrame|]. by iApply IH.
Qed.
Lemma cwp_guarded {A} tid (x : A) (p : prog AllocatorImpl A) w it Φ :
  (∀ w1, cwp (HP := alloc_protocol cfg) tid p w1 it (λ a w' it', Φ a (owning w') it')) ⊢
  cwp (HP := handle_protocol) tid (guarded x p) (owning w) it Φ.
Proof using.
  iIntros "Hp". iApply cwp_bind. iApply cwp_gets. iIntros (h H [(w1&->&_)%handle_rely_inv _]) "Hs".
  iFrame "Hs". cbn. by iApply cwp_in_impl.
Qed.

(** ** The share of a thread that holds the blocks [L] *)
Definition item_of (L : gmap Z alloc) it : Prop :=
  caps_ok (i_caps it) L ∧ ∀ q, i_sum it q = map_sum (λ a, share (a_size a) (a_reserved a) q) L.
Lemma item_of_init : item_of ∅ item_init.
Proof using. split; [split_and!; intros ??; by rewrite lookup_empty|done]. Qed.
Lemma item_of_gains L it it' u a :
  item_of L it → gains it it' a → L !! u = None →
  (∀ u' a', L !! u' = Some a' → headerOf (a_raw a') ≠ headerOf (a_raw a)) → item_of (<[u := a]> L) it'.
Proof using.
  intros [Hc Hs] [Hc' Hs'] Hu Hne. split; [rewrite Hc'; by apply caps_ok_alloc|].
  intros q. rewrite Hs' Hs map_sum_insert //. lia.
Qed.
Lemma item_of_loses L it it' u a :
  item_of L it → loses it it' a → L !! u = Some a →
  (∀ u' a', delete u L !! u' = Some a' → headerOf (a_raw a') ≠ headerOf (a_raw a)) → item_of (delete u L) it'.
Proof using.
  intros [Hc Hs] [Hc' Hs'] Hu Hne. split; [rewrite Hc'; by apply caps_ok_free|].
  intros q. rewrite Hs' Hs (map_sum_delete _ L u a) //. lia.
Qed.
Definition block_of (u : Z) (a : alloc) : heapPropI := live_res u a ∗ ∃ bs, held u a bs.
Definition hands (s : Allocator * item) (B : gmap Z Z) : heapPropI :=
  ∃ w L, ⌜s.1 = owning w ∧ B = a_size <$> L ∧ live_ok L ∧ item_of L s.2⌝ ∗ [∗ map] u ↦ a ∈ L, block_of u a.

Lemma handed_bases L u (a : alloc) :
  live_res u a ∗ ([∗ map] u' ↦ a' ∈ L, block_of u' a') ⊢
  ⌜∀ u' a', L !! u' = Some a' → headerOf (a_raw a') ≠ headerOf (a_raw a)⌝.
Proof using HL.
  iIntros "[[Hl _] HL]". rewrite big_sepM_sep. iDestruct "HL" as "[HL _]". iApply live_bases. iFrame.
Qed.
Lemma handed_fresh L u (bs : list byte) :
  live_ok L → (0 < length bs)%nat → u ↦∗ bs ∗ ([∗ map] u' ↦ a' ∈ L, block_of u' a') ⊢ ⌜L !! u = None⌝.
Proof using HL.
  iIntros (Hok Hlen) "[Hu HL]". destruct (L !! u) as [a'|] eqn:E; [|done].
  iDestruct (big_sepM_lookup with "HL") as "[_ (%bs' & %Hlen' & Hu' & _)]"; [done|].
  destruct (Hok u a' E) as (_&?&_). iDestruct (bytes_at_disjoint with "[$Hu $Hu']") as %?; lia.
Qed.

Lemma handed_nonzero (L : gmap Z alloc) : live_ok L → ([∗ map] u ↦ a ∈ L, block_of u a) ⊢ ⌜L !! 0 = None⌝.
Proof using HL.
  iIntros (Hok) "H". destruct (L !! 0) as [a|] eqn:E; [|done].
  iDestruct (big_sepM_lookup with "H") as "[_ (%bs & %Hlen & Hu & _)]"; [done|].
  destruct (Hok 0 a E) as (_&?&_). iDestruct (bytes_at_range with "Hu") as %?; [lia|]. lia.
Qed.

(** ** The adapter, used by one thread of several *)
Context (fuel : nat) (Hab : abortOnError cfg = false) (Hlk : enableLeakTracking cfg = false) (Hf : W64 ≤ Z.of_nat fuel).
#[export] Program Instance MAllocAdapter_shared tid :
    AdapterSpec (HA := MAllocAdapter fuel) (HP := among (HS := handle_protocol) tid) tid := {| in_use := hands |}.
Next Obligation.
  iIntros (tid [h it] B) "(%w & %L & (_ & -> & %Hok & _) & H)". rewrite lookup_fmap.
  by iDestruct (handed_nonzero with "H") as %->; [done|].
Qed.
Next Obligation.
  intros tid n [h it] B Φ Hn. iIntros "[(%w & %L & (%Hh & -> & %Hok & %Hit) & H) HΦ]". cbn [fst snd] in *. subst h.
  iApply cwp_guarded. iIntros (w1). iApply cwp_bind. iApply (cwp_allocate cfg Hab); [done|unfold in64; lia|].
  assert (request n = n) as -> by (unfold request; rewrite (proj2 (Z.eqb_neq _ _)); lia).
  iIntros ([u|e] w2 it2) "Hg"; iApply cwp_ret; iApply "HΦ"; cbn [value_or].
  - iRight. iDestruct "Hg" as (a bs (Hwf&<-&_&_&[Hlen _]&Hga)) "(Hl & Hu & Hg)".
    iDestruct (handed_fresh with "[$Hu $H]") as %Hfresh; [done|lia|].
    iDestruct (handed_bases with "[$Hl $H]") as %Hbases. iDestruct (bytes_at_range with "Hu") as %?; [lia|].
    rewrite lookup_fmap Hfresh. iSplit; [iPureIntro; split; [lia|done]|]. iExists w2, (<[u := a]> L).
    rewrite big_sepM_insert //. iFrame. iPureIntro. split; [|done]. split_and!; [done|by rewrite fmap_insert| |by eapply item_of_gains].
    intros v b [[<- <-]|[_ Hv]]%lookup_insert_Some; [done|by apply Hok].
  - iDestruct "Hg" as %[_ ->]. iLeft. iSplit; [done|]. iExists w2, L. by iFrame.
Qed.
Next Obligation.
  intros tid u n [h it] B Φ Hu. iIntros "[(%w & %L & (%Hh & -> & %Hok & %Hit) & H) HΦ]". cbn [fst snd] in *. subst h.
  iApply cwp_guarded. iIntros (w1). iApply cwp_bind.
  destruct Hu as [->|(a&<-&Ha)%lookup_fmap_Some].
  { iApply cwp_deallocate_null. iApply cwp_ret. iApply "HΦ". iDestruct (handed_nonzero with "H") as %H0; [done|].
    rewrite delete_id; [|by rewrite lookup_fmap H0]. iExists w1, L. by iFrame. }
  rewrite (big_sepM_delete _ L u a) //. iDestruct "H" as "[[Hl (%bs & %Hlen & Hu & Hg)] H]".
  iDestruct (handed_bases with "[$Hl $H]") as %Hbases. pose proof (proj1 (proj1 Hit) u a Ha) as Hkn.
  iApply (cwp_deallocate cfg Hab _ _ a bs); [by apply Hok|done|done|]. iFrame "Hl Hu Hg". iSplit.
  - iIntros (w2 it2 Hlo). iApply cwp_ret. iApply "HΦ". iExists w2, (delete u L). iFrame. iPureIntro.
    split_and!; [done|by rewrite fmap_delete| |by eapply item_of_loses]. intros v b [_ Hv]%lookup_delete_Some. by apply Hok.
  - iIntros (e w2 [Hlk' _]). congruence.
Qed.
End handle.
