(* ===== verification/History.v ===== *)
(** The statistics against a history of allocations and frees: what each counter is
    after any sequence of recorded events, and when it is exact. *)

From stdpp Require Import list.
From iris.proofmode Require Import proofmode.
From S2P Require Import Prelude.
From S2P Require Import Memory.
From S2P Require Import Prog.
From S2P Require Import StatisticsCollector.

Open Scope Z_scope.

Inductive event := Allocated (requested reserved : Z) | Freed (requested reserved : Z).
Definition record_event (fuel : nat) (e : event) : prog StatisticsCollector () :=
  match e with
  | Allocated n r => recordAllocation fuel n r
  | Freed n r => recordFree n r
  end.
Fixpoint record_all (fuel : nat) (es : list event) : prog StatisticsCollector () :=
  match es with
  | [] => mret ()
  | e :: es => _ ← record_event fuel e; record_all fuel es
  end.
(** The sum of [f requested reserved] over the allocations and of [g] over the frees. *)
Definition total (f g : Z → Z → Z) (es : list event) : Z :=
  foldr (λ e acc, match e with Allocated n r => f n r | Freed n r => g n r end + acc) 0 es.
Definition zero (_ _ : Z) : Z := 0.
Definition one (_ _ : Z) : Z := 1.
Definition bytes (n _ : Z) : Z := n.
Definition room (_ r : Z) : Z := r.
(** The bytes live after a history. *)
Definition live (es : list event) : Z := total bytes (λ n _, - n) es.
Definition sizes_ok (es : list event) : Prop :=
  Forall (λ e, match e with Allocated n _ | Freed n _ => 0 ≤ n end) es.

Lemma total_snoc f g es e :
  total f g (es ++ [e]) = total f g es + match e with Allocated n r => f n r | Freed n r => g n r end.
Proof.
  induction es as [|e' es IH]; [destruct e; cbn; lia|].
  change ((e' :: es) ++ [e]) with (e' :: (es ++ [e])). unfold total in *. cbn [foldr]. rewrite IH. destruct e'; lia.
Qed.
Lemma run_record_all fuel es s m :
  run (record_all (S fuel) es) s m =
  Ok ((), foldl (λ s e, match e with Allocated n r => stats_alloc n r s | Freed n r => stats_free n r s end) s es) m.
Proof.
  revert s. induction es as [|e es IH]; intros s; [done|]. cbn [record_all foldl]. rewrite run_bind.
  unfold mbind, cmd_bind. destruct e; cbn [record_event]; [rewrite run_recordAllocation|rewrite run_recordFree]; apply IH.
Qed.

(** What the eight counters are after a history. *)
Definition counts (es : list event) (s : StatisticsCollector) : Prop :=
  allocationCount_ s = wrap64 (total one zero es) ∧ freeCount_ s = wrap64 (total zero one es) ∧
  activeAllocations_ s = wrap64 (total one (λ _ _, -1) es) ∧
  allocatedBytes_ s = wrap64 (total bytes zero es) ∧ freedBytes_ s = wrap64 (total zero bytes es) ∧
  liveRequested_ s = live es ∧ liveReserved_ s = wrap64 (total room (λ _ r, - r) es).
Definition is_peak (p : Z) (es : list event) : Prop :=
  (∀ k, live (take k es) ≤ p) ∧ ∃ k, live (take k es) = p.

Lemma wrap64_plus a b : wrap64 a +₆₄ b = wrap64 (a + b).
Proof. unfold add64, wrap64. by rewrite Z.add_mod_idemp_l. Qed.
Lemma wrap64_minus a b : wrap64 a -₆₄ b = wrap64 (a + - b).
Proof. unfold sub64, wrap64. by rewrite Zminus_mod_idemp_l. Qed.
Lemma is_peak_snoc p es e :
  is_peak p es → is_peak (Z.max p (live (es ++ [e]))) (es ++ [e]).
Proof.
  intros [Hle [k Hk]]. split.
  - intros j. destruct (decide (j ≤ length es)%nat) as [Hj|Hj].
    + rewrite take_app_le //. specialize (Hle j). lia.
    + rewrite take_ge; [lia|]. rewrite length_app /=. lia.
  - destruct (Z.max_spec p (live (es ++ [e]))) as [[_ ->]|[_ ->]].
    + exists (length (es ++ [e])). by rewrite firstn_all.
    + exists (Nat.min k (length es)). rewrite take_app_le; [|lia]. rewrite -Hk. f_equal.
      destruct (decide (k ≤ length es)%nat); [by rewrite Nat.min_l|].
      rewrite Nat.min_r; [|lia]. rewrite firstn_all take_ge; [done|lia].
Qed.
(** C21: the counters are the history.  After any history of allocations and frees whose
    live bytes never leave the range of the counters, the live counter is exact, the
    peak is the largest number of bytes that was ever live, and the totals of
    allocations, frees and bytes are exact modulo 2^64. *)
Theorem statistics_history fuel es m :
  sizes_ok es → (∀ k, in64 (live (take k es))) →
  ∃ s, run (record_all (S fuel) es) StatisticsCollector_init m = Ok ((), s) m ∧
       counts es s ∧ is_peak (peakUsage_ s) es.
Proof.
  intros Hok Hin. eexists. split; [apply run_record_all|].
  induction es as [|e es IH] using rev_ind.
  { split; [by split_and!|]. split; [intros k; by rewrite take_nil|by exists 0%nat]. }
  apply Forall_app in Hok as [Hok [He _]%Forall_cons]. destruct IH as [(H1&H2&H3&H4&H5&H6&H7) Hpk].
  { done. }
  { intros k. destruct (decide (k ≤ length es)%nat) as [Hk|Hk].
    - specialize (Hin k). by rewrite take_app_le in Hin.
    - specialize (Hin (length es)). rewrite take_app_le // firstn_all in Hin. rewrite take_ge; [done|lia]. }
  pose proof (Hin (length (es ++ [e]))) as Hl. rewrite firstn_all in Hl.
  pose proof (proj1 Hpk (length es)) as Hle. rewrite firstn_all in Hle. apply (is_peak_snoc _ _ e) in Hpk.
  rewrite foldl_app. cbn [foldl]. set (s := foldl _ _ es) in *. unfold counts.
  assert (live (es ++ [e]) = live es + match e with Allocated n _ => n | Freed n _ => - n end) as Hsn.
  { unfold live. rewrite total_snoc. by destruct e. }
  rewrite !total_snoc.
  destruct e as [n r|n r]; cbn [stats_alloc stats_free allocationCount_ freeCount_ activeAllocations_ liveRequested_
    liveReserved_ peakUsage_ allocatedBytes_ freedBytes_].
  - assert (liveRequested_ s +₆₄ n = live (es ++ [Allocated n r])) as HL.
    { rewrite H6 Hsn in Hl |- *. apply add64_small. unfold in64 in *. lia. }
    rewrite HL. split; [|exact Hpk]. rewrite H1 H2 H3 H4 H5 H7 !wrap64_plus. unfold one, zero, bytes, room.
    rewrite !Z.add_0_r. by split_and!.
  - assert (liveRequested_ s -₆₄ n = live (es ++ [Freed n r])) as HL.
    { rewrite H6 Hsn in Hl |- *. apply sub64_small. unfold in64 in *. lia. }
    rewrite HL. split.
    + rewrite H1 H2 H3 H4 H5 H7 !wrap64_plus !wrap64_minus. unfold one, zero, bytes, room.
      rewrite !Z.add_0_r. by split_and!.
    + rewrite Z.max_l in Hpk; [exact Hpk|lia].
Qed.
Lemma statistics_history_witness :
  ∃ s, run (record_all 1 [Allocated 100 112; Allocated 50 64; Freed 100 112; Allocated 20 32]) StatisticsCollector_init mem_init
         = Ok ((), s) mem_init ∧ liveRequested_ s = 70 ∧ allocationCount_ s = 3 ∧ is_peak (peakUsage_ s)
         [Allocated 100 112; Allocated 50 64; Freed 100 112; Allocated 20 32].
Proof.
  destruct (statistics_history 0 [Allocated 100 112; Allocated 50 64; Freed 100 112; Allocated 20 32] mem_init)
    as (s&Hrun&(Hc&_&_&_&_&Hl&_)&Hp).
  - repeat constructor; lia.
  - intros k. do 4 (destruct k as [|k]; [by vm_compute|]). rewrite take_ge; [by vm_compute|cbn; lia].
  - exists s. split; [exact Hrun|]. split; [exact Hl|]. split; [exact Hc|exact Hp].
Defined.
