(* ===== verification/Usage.v ===== *)
(** What the statistics mean for the clients: the counters never wrap, because the
    live blocks are disjoint ranges of the address space. *)

From stdpp Require Import gmap.
From iris.proofmode Require Import proofmode.
From S2P Require Import Prelude.
From S2P Require Import HeapProp.
From S2P Require Import Memory.
From S2P Require Import Logic.
From S2P Require Import BlockHeader.
From S2P Require Import Prog.
From S2P Require Import StatisticsCollector.
From S2P Require Import Config.
From S2P Require Import DebugLayer.
From S2P Require Import AllocatorImpl.
From S2P Require Import SmallTier.
From S2P Require Import RawAlloc.
From S2P Require Import AllocatorInv.
From S2P Require Import Allocate.
From S2P Require Import Deallocate.

From S2P Require Import Client.

(** ** What the counters mean for the client *)
Section usage.
Context `{HOS : !OS, HL : !OSLaws}.
Implicit Types (w : AllocatorImpl) (L : gmap Z alloc) (a : alloc) (u : Z) (σ : spec).

Lemma map_sum_zero `{Countable K} {A} (f : A → Z) (m : gmap K A) : (∀ k x, m !! k = Some x → f x = 0) → map_sum f m = 0.
Proof.
  induction m as [|k x m Hk IH] using map_ind; [done|]. intros Hz. rewrite map_sum_insert //.
  rewrite (Hz k x) ?lookup_insert_eq // IH //. intros k' x' Hx. apply (Hz k'). rewrite lookup_insert_ne //. congruence.
Qed.
Lemma map_sum_mono {A} (f g : A → Z) (m : gmap Z A) :
  (∀ k x, m !! k = Some x → f x ≤ g x) → map_sum f m ≤ map_sum g m.
Proof using.
  induction m as [|k x m Hk IH] using map_ind; [done|]. intros Hfg.
  rewrite !map_sum_insert //. pose proof (Hfg k x) as Hx. rewrite lookup_insert_eq in Hx. specialize (Hx eq_refl).
  assert (map_sum f m ≤ map_sum g m); [|lia]. apply IH. intros k' x' Hx'. apply (Hfg k').
  rewrite lookup_insert_ne //. congruence.
Qed.
Lemma map_sum_fmap {A B} (f : B → Z) (h : A → B) (m : gmap Z A) :
  map_sum f (h <$> m) = map_sum (λ x, f (h x)) m.
Proof using.
  induction m as [|k x m Hk IH] using map_ind; [by rewrite fmap_empty|].
  rewrite fmap_insert !map_sum_insert ?IH //. by rewrite lookup_fmap Hk.
Qed.
Lemma map_sum_one {A} (m : gmap Z A) : map_sum (λ _, 1) m = Z.of_nat (size m).
Proof using.
  induction m as [|k x m Hk IH] using map_ind; [done|]. rewrite map_sum_insert // map_size_insert_None // IH. lia.
Qed.

(** Disjoint ranges fit in the address space. *)
Lemma map_sum_bound {A} (f : Z → A → Z) (g : A → Z) (m : gmap Z A) :
  ([∗ map] k ↦ x ∈ m, raw (f k x) (g x)) ⊢ ⌜0 ≤ map_sum g m < W64⌝.
Proof.
  rewrite big_opM_map_to_list.
  iIntros "H". iDestruct (SegmentStats.ranges_bound ((λ p, (f p.1 p.2, g p.2)) <$> map_to_list m) with "[H]") as %Hb.
  { by rewrite big_sepL_fmap. }
  iPureIntro. unfold map_sum. rewrite map_fold_foldr. unfold SegmentStats.total_size in Hb.
  assert (∀ l : list (Z * A), foldr (λ p acc, p.2 + acc) 0 ((λ p, (f p.1 p.2, g p.2)) <$> l) =
            foldr (uncurry (λ _ x acc, g x + acc)) 0 l) as E; [|by rewrite E in Hb].
  induction l as [|[x y] l IH]; [done|]. cbn. cbn in IH. by rewrite IH.
Qed.

Lemma reserved_bounds r b : base_wf r b → b_size b ≤ b_reserved b ≤ b_total b.
Proof.
  intros (_&_&Hsz&Hrs&Hti). split; [done|]. destruct (b_tier b); [|lia|lia|done|done].
  destruct Hti as (c&stride&Hle&Hc&Hst&Htot&Hcs).
  destruct (SizeClassTable.classIndex_spec (b_size b)) as (c'&csz&Hc'&_&_&Hcr&_); [unfold kSmallMax in *; lia|].
  simplify_eq. destruct (PoolAllocator.blockStride_spec c Hcr) as (stride'&sz&Hst'&Hsz'&_&?&?). simplify_eq.
  unfold kHeaderSize in *. lia.
Qed.
Lemma alloc_reserved u a : alloc_wf u a → a_size a ≤ a_reserved a ≤ b_total (a_base a).
Proof.
  intros (Hwf&_&Hsh). pose proof (reserved_bounds _ _ Hwf). unfold a_reserved.
  destruct (a_shim a); [lia|lia|]. destruct Hsh as (?&_&?&_). lia.
Qed.

(** The client's part and the allocator's part of a block are the whole block. *)
Lemma held_whole u a bs :
  alloc_wf u a → held u a bs ∗ live_res u a ⊢ raw (a_raw a) (b_total (a_base a)).
Proof.
  intros (Hbwf&[Hn0 _]&Hsh). pose proof Hbwf as (?&?&?&?&_). unfold held, live_res, guard_res.
  iIntros "[(%Hlen & Hu & Hg) [_ Hl]]". rewrite raw_intro Hlen. destruct (a_shim a).
  - destruct Hsh as [-> Hsz]. iApply plain_total; [|iFrame]; lia.
  - destruct Hsh as [Hu Hsz]. iDestruct "Hl" as "[Hh Hl]". rewrite header_raw.
    iDestruct (guards_raw with "Hg") as "[Hg1 Hg2]".
    iApply (guarded_total _ u (a_size a)); [done|lia|lia|]. iFrame.
  - destruct Hsh as (Hu&_&Hend&_). iDestruct "Hl" as "(Hgap & Hh & Hl)". rewrite header_raw.
    iApply (aligned_total _ u (a_size a)); [lia|lia|lia|]. iFrame.
Qed.

Definition usage (live : gmap Z (list byte)) : Z := map_sum (λ bs, Z.of_nat (length bs)) live.
Lemma client_usage L live :
  live_ok L →
  client_res L live ∗ ([∗ map] u ↦ a ∈ L, live_res u a) ⊢
  ⌜size L = size live ∧ map_sum a_size L = usage live ∧ usage live ≤ map_sum a_reserved L < W64 ∧
    Z.of_nat (size live) ≤ usage live⌝.
Proof.
  intros Hlive. iIntros "[Hcl HL]". iDestruct (big_sepM2_dom with "Hcl") as %Hdom.
  iDestruct (big_sepM2_lookup_iff with "Hcl") as %Hiff.
  iAssert ⌜∀ u a bs, L !! u = Some a → live !! u = Some bs → Z.of_nat (length bs) = a_size a⌝%I as %Hlen.
  { iIntros (u a bs Ha Hbs). iDestruct (big_sepM2_lookup _ L live u a bs with "Hcl") as "[% _]"; done. }
  iDestruct (big_sepM2_impl _ (λ u a _, (∃ bs, held u a bs) ∗ emp)%I with "Hcl []") as "Hcl".
  { iIntros "!>" (u a bs _ _) "H". iSplit; [by iExists bs|done]. }
  rewrite (big_sepM2_sepM (λ u a, ∃ bs, held u a bs)%I (λ _ _, emp)%I) //. iDestruct "Hcl" as "[Hcl _]".
  iDestruct (big_sepM_sep_2 with "Hcl HL") as "H".
  iDestruct (map_sum_bound (λ _ a, a_raw a) (λ a, b_total (a_base a)) L with "[H]") as %Htot.
  { iApply (big_sepM_impl with "H"). iIntros "!>" (u a Ha) "[(%bs & Hh) Hl]".
    iApply (held_whole u a bs); [by apply Hlive|iFrame]. }
  iPureIntro.
  assert (a_size <$> L = (λ bs, Z.of_nat (length bs)) <$> live) as Heq.
  { apply map_eq. intros u. rewrite !lookup_fmap. specialize (Hiff u).
    destruct (L !! u) as [a|] eqn:Ha, (live !! u) as [bs|] eqn:Hbs; cbn; [|by destruct Hiff as [[] _]|by destruct Hiff as [_ []]|done].
    by rewrite (Hlen u a bs Ha Hbs). }
  assert (map_sum a_size L = usage live) as Hus.
  { unfold usage. rewrite -(map_sum_fmap (λ x, x) a_size L) Heq map_sum_fmap. done. }
  assert (size L = size live) as Hsize by (by rewrite -!size_dom Hdom).
  split_and!; [done|done| | |].
  - rewrite -Hus. apply map_sum_mono. intros u a Ha. by apply (alloc_reserved u a), Hlive.
  - assert (map_sum a_reserved L ≤ map_sum (λ a, b_total (a_base a)) L); [|lia].
    apply map_sum_mono. intros u a Ha. by apply (alloc_reserved u a), Hlive.
  - rewrite -Hsize -Hus -map_sum_one. apply map_sum_mono. intros u a Ha.
    destruct (Hlive u a Ha) as (_&?&_). lia.
Qed.
End usage.
