(* ===== verification/Mappings.v ===== *)
(** The account of mappings: at every moment the pages mapped in the process are those
    of the regions the allocator lists - the runs of the pools, the segments, the large
    regions - and those that were mapped before.  So nothing is lost between a tier's
    list and the operating system, and the destructor gives everything back. *)

From stdpp Require Import gmap.
From iris.proofmode Require Import proofmode.
From S2P Require Import Prelude.
From S2P Require Import HeapProp.
From S2P Require Import Memory.
From S2P Require Import Platform.
From S2P Require Import Logic.
From S2P Require Import Client.
From S2P Require Import Allocator.
From S2P Require Import BlockHeader.
From S2P Require Import SystemMemory.
From S2P Require Import Prog.
From S2P Require Import FreeList.
From S2P Require Import PoolAllocator.
From S2P Require Import ThreadCache.
From S2P Require Import LargeAllocator.
From S2P Require Import StatisticsCollector.
From S2P Require Import SegmentHeap.
From S2P Require Import Config.
From S2P Require Import DebugLayer.
From S2P Require Import Tiers.
From S2P Require Import AllocatorImpl.

Open Scope Z_scope.

(** ** Lists of mappings *)
Notation vmas := (list (Z * Z)).
Definition vma_sep (v w : Z * Z) : Prop := v.2 ≤ w.1 ∨ w.2 ≤ v.1.
(** Non-empty and pairwise disjoint. *)
Fixpoint apart (ps : vmas) : Prop :=
  match ps with [] => True | v :: ps => v.1 < v.2 ∧ Forall (vma_sep v) ps ∧ apart ps end.

#[global] Instance apart_perm : Proper ((≡ₚ) ==> iff) apart.
Proof.
  assert (∀ ps qs, ps ≡ₚ qs → apart ps → apart qs) as H.
  { induction 1 as [|v ps qs Hp IH|v w ps|]; cbn; [done| | |by auto].
    - intros (?&Hf&?). split_and!; [done|by rewrite -Hp|auto].
    - intros (?&[Hvw Hf]%Forall_cons&?&?&?). split_and!; try done. constructor; [|done].
      unfold vma_sep in *. lia. }
  intros ps qs Hp. split; apply H; [done|by symmetry].
Qed.
Lemma vma_cut_sep v w : v.1 < v.2 → w.1 < w.2 → vma_sep v w → vma_cut v w = [w].
Proof.
  destruct v as [a b], w as [c d]. unfold vma_sep, vma_cut. cbn [fst snd]. intros ?? [?|?].
  - rewrite filter_cons_False; [|cbn; lia]. rewrite Z.max_l; [|lia]. by rewrite filter_cons_True.
  - rewrite Z.min_l; [|lia]. rewrite filter_cons_True; [|done]. rewrite filter_cons_False; [done|cbn; lia].
Qed.
Lemma vma_cut_self v : vma_cut v v = [].
Proof.
  unfold vma_cut. rewrite filter_cons_False; [|cbn; lia]. rewrite filter_cons_False; [done|cbn; lia].
Qed.
(** Cutting one of the mappings out removes that one. *)
Lemma vmas_remove_apart v ps qs : ps ≡ₚ v :: qs → apart ps → vmas_remove v ps ≡ₚ qs.
Proof.
  intros Hp Ha. rewrite Hp in Ha. unfold vmas_remove. rewrite Hp.
  change (vma_cut v v ++ (qs ≫= vma_cut v) ≡ₚ qs). rewrite vma_cut_self app_nil_l.
  destruct Ha as (Hv&Hf&Ha). clear Hp. induction qs as [|w qs IH]; [done|].
  apply Forall_cons in Hf as [Hw Hf]. destruct Ha as (Hw0&_&Ha).
  change (vma_cut v w ++ (qs ≫= vma_cut v) ≡ₚ w :: qs). rewrite vma_cut_sep //. apply Permutation_skip. by apply IH.
Qed.

Section account.
Context `{HOS : !OS, HL : !OSLaws}.
Implicit Types (r : MappedRegion) (rs : list MappedRegion) (base ps : vmas).

Definition vma r : Z * Z := vma_of (region_data r) (region_size r).
Definition mapping_ok r : Prop :=
  region_data r mod os_page = 0 ∧ 0 < region_size r ∧ region_size r mod os_page = 0.
(** The mapped pages [ps] are those of [rs] and [base]. *)
Definition ledger base rs ps : Prop := ps ≡ₚ (vma <$> rs) ++ base ∧ apart ps ∧ Forall mapping_ok rs.

#[global] Instance ledger_perm base : Proper ((≡ₚ) ==> (=) ==> iff) (ledger base).
Proof.
  intros rs rs' Hp ? ps ->. unfold ledger.
  assert ((vma <$> rs) ++ base ≡ₚ (vma <$> rs') ++ base) as Hm by (apply Permutation_app_tail, Permutation_map, Hp).
  assert (Forall mapping_ok rs ↔ Forall mapping_ok rs') as Hf by (split; apply Permutation_Forall; [done|by symmetry]).
  split; intros (H1&H2&H3); (split; [etrans; [exact H1|]|]); [done|by split; [|apply Hf]|by symmetry|by split; [|apply Hf]].
Qed.
Lemma ledger_app base rs rs' ps :
  ledger base (rs ++ rs') ps ↔ ledger ((vma <$> rs') ++ base) rs ps ∧ Forall mapping_ok rs'.
Proof. unfold ledger. rewrite fmap_app Forall_app -app_assoc. naive_solver. Qed.

(** ** Commands *)
(** [c], started with the regions [rs], leaves the regions [out]. *)
Definition acct {A} (c : cmd A) rs (out : A → list MappedRegion) : Prop :=
  ∀ base m a m', c m = Ok a m' → ledger base rs (pages m) → ledger base (out a) (pages m').
(** Commands that map and unmap nothing. *)
Definition Quiet {A} (c : cmd A) : Prop := ∀ m a m', c m = Ok a m' → pages m' = pages m.

Lemma acct_ret {A} (a : A) rs (out : A → list MappedRegion) : out a ≡ₚ rs → acct (mret a) rs out.
Proof using. intros Hp base m x m' [= <- <-]. by rewrite Hp. Qed.
Lemma acct_same {A} (a : A) rs (out : A → list MappedRegion) : out a = rs → acct (mret a) rs out.
Proof using. intros <-. by apply acct_ret. Qed.
Lemma acct_bind {A B} (c : cmd A) (f : A → cmd B) rs mid out :
  acct c rs mid → (∀ a, acct (f a) (mid a) out) → acct (c ≫= f) rs out.
Proof using.
  intros Hc Hf base m b m'. unfold mbind, cmd_bind. destruct (c m) as [a m1| | |] eqn:E; try done.
  intros Hb Hl. eapply Hf; [done|]. by eapply Hc.
Qed.
Lemma acct_quiet {A} (c : cmd A)  rs : Quiet c → acct c rs (λ _, rs).
Proof using. intros Hq base m a m' Hc. by rewrite (Hq m a m' Hc). Qed.
Lemma acct_bind_quiet {A B} (c : cmd A) (f : A → cmd B)  rs out :
  Quiet c → (∀ a, acct (f a) rs out) → acct (c ≫= f) rs out.
Proof using. intros Hq Hf. by eapply acct_bind; [apply acct_quiet|]. Qed.
Lemma acct_bind_expect {A B} (o : option A) (f : A → cmd B) rs out :
  (∀ a, o = Some a → acct (f a) rs out) → acct (expect o ≫= f) rs out.
Proof using.
  intros Hf base m b m'. unfold mbind, cmd_bind. destruct o as [a|]; [|done]. cbn. by apply Hf.
Qed.
Lemma acct_perm {A} (c : cmd A) rs rs' (out out' : A → list MappedRegion) :
  acct c rs out → rs' ≡ₚ rs → (∀ a, out a ≡ₚ out' a) → acct c rs' out'.
Proof using. intros Hc Hr Ho base m a m' Hm. rewrite Hr -Ho. by apply Hc. Qed.
Lemma acct_frame {A} (c : cmd A) rs (out : A → list MappedRegion) rs' :
  acct c rs out → acct c (rs ++ rs') (λ a, out a ++ rs').
Proof using. intros Hc base m a m' Hm. rewrite !ledger_app. intros [??]. split; [by eapply Hc|done]. Qed.

Lemma quiet_ret {A} (a : A) : Quiet (mret a).
Proof using. by intros m x m' [= _ <-]. Qed.
Lemma quiet_bind {A B} (c : cmd A) (f : A → cmd B) :
  Quiet c → (∀ a, Quiet (f a)) → Quiet (c ≫= f).
Proof using.
  intros Hc Hf m b m'. unfold mbind, cmd_bind. destruct (c m) as [a m1| | |] eqn:E; try done.
  intros Hb. rewrite (Hf a m1 b m' Hb). by eapply Hc.
Qed.
Lemma quiet_fault {A} : Quiet (fault (A := A)).
Proof using. done. Qed.
Lemma quiet_diverge {A} : Quiet (diverge (A := A)).
Proof using. done. Qed.
Lemma quiet_abort {A} : Quiet (abort (A := A)).
Proof using. done. Qed.
Lemma quiet_expect {A} (o : option A) : Quiet (expect o).
Proof using. destruct o; [apply quiet_ret|apply quiet_fault]. Qed.
Lemma quiet_load n a : Quiet (load n a).
Proof using. intros m x m'. unfold load. repeat case_match; naive_solver. Qed.
Lemma quiet_load_byte a : Quiet (load_byte a).
Proof using. intros m x m'. unfold load_byte. case_match; naive_solver. Qed.
Lemma store_bytes_pages a bs m m' : store_bytes m a bs = Some m' → pages m' = pages m.
Proof using.
  revert a m. induction bs as [|b bs IH]; intros a m; cbn; [by intros [= ->]|].
  unfold store8. destruct (mapped m a); [|done]. cbn. intros Hs. by rewrite (IH _ _ Hs).
Qed.
Lemma quiet_store n a v : Quiet (store n a v).
Proof using. intros m [] m'. unfold store. repeat case_match; try done. intros [= ->]. by eapply store_bytes_pages. Qed.
Lemma quiet_store_byte a b : Quiet (store_byte a b).
Proof using.
  intros m [] m'. unfold store_byte. case_match eqn:E; try done. intros [= ->].
  apply (store_bytes_pages a [b]). cbn. by rewrite E.
Qed.
Lemma quiet_memset a b n : Quiet (memset a b n).
Proof using. intros m [] m'. unfold memset. case_match eqn:E; try done. intros [= ->]. by eapply store_bytes_pages. Qed.
Lemma quiet_store_list a bs : Quiet (store_list a bs).
Proof. intros m x m'. unfold store_list. destruct (store_bytes m a bs) eqn:E; [|done]. intros [= _ <-]. by eapply store_bytes_pages. Qed.
Lemma quiet_load_list a n : Quiet (load_list a n).
Proof. intros m x m'. unfold load_list. destruct (load_bytes m a n); [|done]. by intros [= _ <-]. Qed.
Lemma quiet_memcpy dst src n : Quiet (memcpy dst src n).
Proof using. intros m [] m'. unfold memcpy. repeat case_match; try done. intros [= ->]. by eapply store_bytes_pages. Qed.
Lemma quiet_ploop {S A} (step : S → cmd (S + A)) p s : (∀ s, Quiet (step s)) → Quiet (ploop step p s).
Proof using.
  intros Hs. revert s. induction p as [p IH|p IH|]; intros s; cbn.
  - apply quiet_bind; [done|]. intros [s1|x]; [|apply quiet_ret].
    apply quiet_bind; [done|]. intros [s2|x]; [done|apply quiet_ret].
  - apply quiet_bind; [done|]. intros [s2|x]; [done|apply quiet_ret].
  - done.
Qed.
Lemma quiet_while {S A} (step : S → cmd (S + A)) s : (∀ s, Quiet (step s)) → Quiet (while_fuel step s).
Proof using.
  intros Hs. apply quiet_bind; [by apply quiet_ploop|]. intros [?|?]; [apply quiet_diverge|apply quiet_ret].
Qed.

End account.

(** The commands of the tiers that touch no mapping, found by their shape. *)
Create HintDb quiet.
#[export] Hint Constants Opaque : quiet.
#[export] Hint Resolve quiet_ret quiet_fault quiet_diverge quiet_abort quiet_expect quiet_load quiet_load_byte
  quiet_store quiet_store_byte quiet_store_list quiet_load_list quiet_memset quiet_memcpy quiet_while : quiet.
#[export] Hint Extern 1 (Quiet (mbind _ _)) => (apply quiet_bind) : quiet.
#[export] Hint Extern 1 (Quiet (match ?x with _ => _ end)) => (destruct x) : quiet.
(** The accessors of headers, tags and list nodes, by their words. *)
Create HintDb accessors.
#[export] Hint Unfold load_sizeAndFlags store_sizeAndFlags load_prevSize store_prevSize SegmentHeap.size setSize
  isFree isFirst isLast hasFlag setFlag nextBlock prevBlock load_prev load_next store_prev store_next get_bin
  findFit_step tally_step SegmentHeap.payloadCapacity get_shard get_cache set_slot push pop
  load_payloadSize load_tier load_state load_offset store_payloadSize store_tier store_state store_offset
  write_header poisonOnAllocate poisonOnFree : accessors.
Ltac quiets := intros; autounfold with accessors; auto 60 with quiet.
Ltac acct_step :=
  match goal with
  | |- acct (mret _) _ _ => apply acct_ret; reflexivity
  | |- acct (mbind _ _) _ _ => apply acct_bind_quiet; [solve [quiets]|intros ?]
  | |- acct (match ?x with _ => _ end) _ _ => destruct x
  end.

Section tiers.
Context `{HOS : !OS, HL : !OSLaws}.
Implicit Types (r : MappedRegion) (rs : list MappedRegion) (base ps : vmas).

(** ** Mapping and unmapping *)
Lemma roundToPages_aligned sz : 0 ≤ roundToPages sz ∧ roundToPages sz mod os_page = 0.
Proof using HL.
  unfold roundToPages, pageSize, mul64, wrap64. destruct os_page_pow as (k&Hk&Hp). pose proof os_page_pos.
  split; [apply Z.mod_pos_bound; by rewrite W64_eq|].
  rewrite -(Znumtheory.Zmod_div_mod os_page W64); [by apply Z.mod_mul; lia|lia|unfold W64; lia|].
  exists (2 ^ (64 - k)). unfold W64. rewrite Hp -Z.pow_add_r; [f_equal; lia|lia|lia].
Qed.
Lemma vma_nonempty b sz : 0 < sz → sz mod os_page = 0 → (vma_of b sz).1 < (vma_of b sz).2.
Proof using HL.
  intros Hsz Hm. unfold vma_of. cbn. pose proof os_page_pos.
  apply Z.div_exact in Hm; [|lia]. nia.
Qed.
Lemma vma_fresh n ps sz b : apart ps → 0 < sz → sz mod os_page = 0 → os_mmap n ps sz = Some b → apart (vma_of b sz :: ps).
Proof using HL.
  intros Ha Hsz Hm Hb. split_and!; [by apply vma_nonempty| |done]. apply Forall_forall. intros v Hv.
  destruct (os_mmap_base _ _ _ _ Hb) as (Hbm&_&_). pose proof os_page_pos.
  assert (v.1 < v.2) as Hv12.
  { clear -Ha Hv. induction ps as [|w ps IH]; [by apply not_elem_of_nil in Hv|].
    destruct Ha as (Hw&_&Ha). apply elem_of_cons in Hv as [->|Hv]; auto. }
  assert (∀ p, b / os_page ≤ p < (b + sz) / os_page → ¬ (v.1 ≤ p < v.2)) as Hp.
  { intros p Hp Hin. apply (os_mmap_fresh _ _ _ _ p Hb Hp). apply Exists_exists. by exists v. }
  assert ((b + sz) / os_page = b / os_page + sz / os_page) as Hsum.
  { apply Z.div_exact in Hbm; [|lia]. rewrite {1}Hbm Z.add_comm Z.mul_comm Z.div_add; lia. }
  unfold vma_sep, vma_of. cbn. rewrite -Hsum.
  pose proof (Hp v.1) as H1. pose proof (Hp (b / os_page)) as H2.
  assert (b / os_page < (b + sz) / os_page); [|lia].
  pose proof (vma_nonempty b sz Hsz Hm) as Hne. unfold vma_of in Hne. cbn in Hne. lia.
Qed.
Lemma acct_make sz rs :
  acct (MappedRegion_make sz) rs (λ r, if valid r then r :: rs else rs).
Proof using HL.
  intros base m r m' Hr Hl. unfold MappedRegion_make, map, mmap, mbind, cmd_bind, mret, cmd_ret in Hr.
  destruct (sz =? 0); [by simplify_eq/=|]. destruct (roundToPages_aligned sz) as [H0 Hm].
  destruct (os_mmap (syscalls m) (pages m) (roundToPages sz)) as [b|] eqn:Hb; [|by simplify_eq/=].
  assert (0 < roundToPages sz) as Hpos.
  { destruct (decide (roundToPages sz = 0)) as [E|]; [|lia]. by rewrite E os_mmap_zero in Hb. }
  simplify_eq/=. unfold valid. cbn [region_ SystemMemory.size]. rewrite (proj2 (Z.eqb_neq (roundToPages sz) 0)); [|lia]. cbn [negb].
  destruct Hl as (Hp&Ha&Hok). split_and!.
  - by apply Permutation_skip.
  - by eapply vma_fresh.
  - constructor; [|done]. split_and!; [|done|done]. by destruct (os_mmap_base _ _ _ _ Hb).
Qed.
Lemma run_reset base r rs m :
  ledger base (r :: rs) (pages m) → ∃ r' m', reset r m = Ok r' m' ∧ ledger base rs (pages m').
Proof using.
  intros (Hp&Ha&[(Hd&Hs&Hs')%id Hok]%Forall_cons). unfold reset, unmap, munmap, mbind, cmd_bind.
  unfold region_size in *. rewrite (proj2 (Z.eqb_neq (SystemMemory.size (region_ r)) 0)); [|lia].
  rewrite bool_decide_eq_true_2; [|done]. cbn. do 2 eexists. split; [done|].
  assert (vmas_remove (vma r) (pages m) ≡ₚ (vma <$> rs) ++ base) as Hq by by apply vmas_remove_apart.
  split_and!; [done| |done]. unfold vma, region_size in Hq. cbn. rewrite Hq.
  rewrite Hp in Ha. by destruct Ha as (_&_&?).
Qed.
Lemma acct_reset r rs : acct (reset r) (r :: rs) (λ _, rs).
Proof using.
  intros base m x m' Hr Hl. destruct (run_reset base r rs m Hl) as (r'&m1&Hr1&?). rewrite Hr in Hr1. by simplify_eq.
Qed.
Lemma run_reset_all base rs rs' m :
  ledger base (rs ++ rs') (pages m) → ∃ m', reset_all rs m = Ok () m' ∧ ledger base rs' (pages m').
Proof using.
  revert m. induction rs as [|r rs IH]; intros m Hl; [by exists m|].
  destruct (run_reset base r (rs ++ rs') m Hl) as (r'&m1&Hr&Hl1). destruct (IH m1 Hl1) as (m'&Hr'&?).
  exists m'. split; [|done]. cbn. unfold mbind, cmd_bind. by rewrite Hr.
Qed.

(** ** The segment heap *)
Lemma quiet_findFit_bins h t n i : Quiet (findFit_bins h t i n).
Proof using. revert i. induction n as [|n IH]; intros i; cbn [findFit_bins]; quiets. Qed.
#[local] Hint Resolve quiet_findFit_bins : quiet.
Lemma quiet_findFit h t : Quiet (findFit h t).
Proof using. unfold findFit. quiets. Qed.
#[local] Hint Resolve quiet_findFit : quiet.
Lemma acct_insertFree h b : acct (insertFree h b) (segments_ h) segments_.
Proof using. unfold insertFree. repeat acct_step. Qed.
Lemma acct_removeFree h b : acct (removeFree h b) (segments_ h) segments_.
Proof using.
  unfold removeFree. acct_step. eapply (acct_bind _ _ _ segments_); [repeat acct_step|intros h'; repeat acct_step].
Qed.
Lemma acct_splitBlock h b t : acct (splitBlock h b t) (segments_ h) segments_.
Proof using. unfold splitBlock. repeat acct_step. apply acct_insertFree. Qed.
Lemma acct_addSegment h : acct (addSegment h) (segments_ h) (λ x, segments_ x.2).
Proof using HL.
  unfold addSegment. eapply acct_bind; [apply acct_make|]. intros seg. cbv beta. destruct (valid seg); cbv [negb]; [|acct_step].
  do 5 acct_step. eapply acct_bind; [apply (acct_perm _ _ _ _ (λ h', segments_ h' ++ [seg])
    (acct_frame _ _ _ [seg] (acct_insertFree h (region_data seg)))); [apply Permutation_cons_append|done]|].
  intros h'. acct_step.
Qed.
Lemma acct_erase_segment b segs :
  acct (erase_segment b segs) segs (λ o, match o with Some s => s | None => segs end).
Proof using.
  induction segs as [|s segs IH]; cbn [erase_segment]; [acct_step|].
  destruct (region_data s =? b).
  - eapply acct_bind; [apply acct_reset|]. intros ?. acct_step.
  - eapply acct_bind; [apply (acct_perm _ _ _ _ (λ o, s :: match o with Some s => s | None => segs end)
      (acct_frame _ _ _ [s] IH)); [apply Permutation_cons_append|intros a; symmetry; apply Permutation_cons_append]|].
    intros [segs'|]; acct_step.
Qed.
Lemma acct_releaseSegment h b : acct (releaseSegment h b) (segments_ h) segments_.
Proof using.
  unfold releaseSegment. destruct (_ <=? _)%nat; [apply acct_insertFree|].
  eapply acct_bind; [apply acct_erase_segment|]. intros [segs|]; [acct_step|apply acct_insertFree].
Qed.
Lemma acct_coalesce_next h b : acct (coalesce_next h b) (segments_ h) segments_.
Proof using.
  unfold coalesce_next. repeat acct_step. eapply acct_bind; [apply acct_removeFree|]. intros h'. repeat acct_step.
Qed.
Lemma acct_coalesce_prev h b : acct (coalesce_prev h b) (segments_ h) (λ x, segments_ x.2).
Proof using.
  unfold coalesce_prev. repeat acct_step. eapply acct_bind; [apply acct_removeFree|]. intros h'. repeat acct_step.
Qed.
Lemma acct_heap_allocate h n : acct (SegmentHeap.allocate h n) (segments_ h) (λ x, segments_ x.2).
Proof using HL.
  assert (∀ h b t, acct (allocate_from h b t) (segments_ h) (λ x, segments_ x.2)) as Hfrom.
  { intros h0 b t. unfold allocate_from. eapply acct_bind; [apply acct_removeFree|]. intros h1.
    eapply acct_bind; [apply acct_splitBlock|]. intros h2. acct_step. }
  unfold SegmentHeap.allocate. repeat acct_step; [|apply Hfrom].
  eapply acct_bind; [apply acct_addSegment|]. intros [ok h']. cbn. repeat acct_step. apply Hfrom.
Qed.
Lemma acct_heap_deallocate h p : acct (SegmentHeap.deallocate h p) (segments_ h) segments_.
Proof using.
  unfold SegmentHeap.deallocate. eapply acct_bind; [apply acct_coalesce_next|]. intros h1.
  eapply acct_bind; [apply acct_coalesce_prev|]. intros [b h2]. cbn [snd].
  repeat acct_step; [apply acct_releaseSegment|apply acct_insertFree].
Qed.
Lemma quiet_externalFragmentation h : Quiet (externalFragmentation h).
Proof using.
  assert (∀ bins acc, Quiet (tally_bins bins acc)) as Ht; [|unfold externalFragmentation; quiets].
  intros bins. induction bins as [|b bins IH]; intros acc; cbn [tally_bins]; quiets.
Qed.

(** ** The pools and the thread caches *)
Definition pool_regions (p : PoolAllocator) : list MappedRegion := concat (runs <$> shards_ p).
(** A shard's runs, and those of the other shards. *)
Lemma pool_regions_shard p c s :
  shards_ p !! Z.to_nat c = Some s →
  ∃ others, pool_regions p ≡ₚ runs s ++ others ∧ ∀ s', pool_regions (set_shard p c s') ≡ₚ runs s' ++ others.
Proof using.
  intros Hs. exists (concat (runs <$> take (Z.to_nat c) (shards_ p)) ++ concat (runs <$> drop (S (Z.to_nat c)) (shards_ p))).
  assert (∀ l1 l2 s', concat (runs <$> l1 ++ s' :: l2) ≡ₚ runs s' ++ concat (runs <$> l1) ++ concat (runs <$> l2)) as H.
  { intros l1 l2 s'. rewrite fmap_app concat_app fmap_cons. cbn [concat]. apply Permutation_app_swap_app. }
  split.
  - unfold pool_regions. rewrite -{1}(take_drop_middle _ _ _ Hs). apply H.
  - intros s'. unfold pool_regions, set_shard. cbn [shards_]. rewrite insert_take_drop; [apply H|].
    by eapply lookup_lt_Some.
Qed.
Lemma acct_takeBlock s st : acct (takeBlock s st) (runs s) (λ x, runs x.2).
Proof using HL.
  assert (∀ s, acct (refill s) (runs s) (λ x, runs x.2)) as Hre.
  { intros s0. unfold refill. eapply acct_bind; [apply acct_make|]. intros r. cbv beta.
    destruct (valid r); cbv [negb]; apply acct_ret; [apply Permutation_app_comm|done]. }
  unfold takeBlock. repeat acct_step. eapply acct_bind; [apply (Hre (set_freeList s _))|].
  intros [ok s']. cbn [snd]. repeat acct_step.
Qed.
Lemma acct_take_batch s st n : acct (take_batch s st n) (runs s) (λ x, runs x.2).
Proof using HL.
  revert s. induction n as [|n IH]; intros s; cbn [take_batch]; [acct_step|].
  eapply acct_bind; [apply acct_takeBlock|]. intros [b s']. cbn [snd]. acct_step; [acct_step|].
  eapply acct_bind; [apply IH|]. intros [out s'']. acct_step.
Qed.
(** An operation on a shard, inside the pools. *)
Lemma acct_shard {A} (p : PoolAllocator) c (k : Shard → cmd A) (out : A → PoolAllocator) :
  (∀ s others, (∀ s', pool_regions (set_shard p c s') ≡ₚ runs s' ++ others) →
     acct (k s) (runs s ++ others) (λ a, pool_regions (out a))) →
  acct (get_shard p c ≫= k) (pool_regions p) (λ a, pool_regions (out a)).
Proof using.
  intros Hk. apply acct_bind_expect. intros s Hs. destruct (pool_regions_shard p c s Hs) as (others&Hp&Hp').
  eapply acct_perm; [by apply Hk|exact Hp|done].
Qed.
Lemma acct_pool_allocateBlock p c : acct (PoolAllocator.allocateBlock p c) (pool_regions p) (λ x, pool_regions x.2).
Proof using HL.
  apply acct_shard. intros s others Hp. acct_step. eapply acct_bind; [apply acct_frame, acct_takeBlock|].
  intros [b s']. apply acct_ret. apply Hp.
Qed.
Lemma acct_allocateBatch p c n : acct (allocateBatch p c n) (pool_regions p) (λ x, pool_regions x.2).
Proof using HL.
  apply acct_shard. intros s others Hp. acct_step. eapply acct_bind; [apply acct_frame, acct_take_batch|].
  intros [b s']. apply acct_ret. apply Hp.
Qed.
Lemma acct_pool_freeBlock p c b : acct (PoolAllocator.freeBlock p c b) (pool_regions p) pool_regions.
Proof using.
  apply (acct_shard _ _ _ id). intros s others Hp. acct_step. apply acct_ret. apply (Hp (set_freeList s _)).
Qed.
Lemma quiet_push_all l bs : Quiet (push_all l bs).
Proof using. revert l. induction bs as [|b bs IH]; intros l; cbn [push_all]; quiets. Qed.
#[local] Hint Resolve quiet_push_all : quiet.
Lemma acct_freeBatch p c bs : acct (freeBatch p c bs) (pool_regions p) pool_regions.
Proof using.
  apply (acct_shard _ _ _ id). intros s others Hp. acct_step. apply acct_ret. apply (Hp (set_freeList s _)).
Qed.
Lemma acct_cache_allocateBlock t c p : acct (ThreadCache.allocateBlock t c p) (pool_regions p) (λ x, pool_regions x.2).
Proof using HL.
  unfold ThreadCache.allocateBlock. acct_step. eapply (acct_bind _ _ _ (λ x, pool_regions x.2)).
  - repeat acct_step. eapply acct_bind; [apply acct_allocateBatch|]. intros [out p']. acct_step.
  - intros [cc p']. cbn [snd]. repeat acct_step.
Qed.
Lemma acct_cache_freeBlock t c b p : acct (ThreadCache.freeBlock t c b p) (pool_regions p) (λ x, pool_regions x.2).
Proof using.
  unfold ThreadCache.freeBlock. acct_step. eapply (acct_bind _ _ _ (λ x, pool_regions x.2)).
  - repeat acct_step. eapply acct_bind; [apply acct_freeBatch|]. intros p'. acct_step.
  - intros [cc p']. cbn [snd]. repeat acct_step.
Qed.
Lemma acct_flush_all c caches p : acct (flush_all c caches p) (pool_regions p) (λ x, pool_regions x.2).
Proof using.
  revert c p. induction caches as [|cc caches IH]; intros c p; cbn [flush_all]; [acct_step|].
  eapply (acct_bind _ _ _ (λ x, pool_regions x.2)).
  - repeat acct_step. eapply acct_bind; [apply acct_freeBatch|]. intros p'. acct_step.
  - intros [cc' p']. cbn [snd]. eapply acct_bind; [apply IH|]. intros [cs p'']. acct_step.
Qed.

(** ** Programs *)
(** [p] holds the region [own], which its state does not list (yet); each of its actions
    leaves it with a region that its result determines, or with none, and a program that
    is done holds none. *)
Fixpoint tracked {S A} (regs : S → list MappedRegion) (p : prog S A) (own : option MappedRegion) : Prop :=
  match p with
  | Ret _ => own = None
  | @Act _ _ X f k => ∃ after : X → option MappedRegion,
      (∀ s, acct (f s) (option_list own ++ regs s) (λ y, option_list (after y.1) ++ regs y.2)) ∧
      ∀ x, tracked regs (k x) (after x)
  end.
Notation accounted regs p := (tracked regs p None).
Section programs.
Context {S : Type} (regs : S → list MappedRegion).
Lemma accounted_ret {A} (a : A) : accounted regs (mret a).
Proof using. done. Qed.
Lemma accounted_act {X} (f : S → cmd (X * S)) :
  (∀ s, acct (f s) (regs s) (λ x, regs x.2)) → accounted regs (act f).
Proof using. intros Hf. by exists (λ _, None). Qed.
(** An action that leaves a region to what follows it. *)
Lemma tracked_act_bind {X A} (f : S → cmd (X * S)) (k : X → prog S A) own after :
  (∀ s, acct (f s) (option_list own ++ regs s) (λ y, option_list (after y.1) ++ regs y.2)) →
  (∀ x, tracked regs (k x) (after x)) → tracked regs (act f ≫= k) own.
Proof using. intros Hf Hk. by exists after. Qed.
Lemma accounted_bind {A B} (p : prog S A) (f : A → prog S B) own :
  tracked regs p own → (∀ a, accounted regs (f a)) → tracked regs (p ≫= f) own.
Proof using.
  intros Hp Hf. revert own Hp. induction p as [a|X g k IH]; intros own; [intros ->; apply Hf|].
  intros (after&Hg&Hk). exists after. split; [exact Hg|]. intros x. by apply IH.
Qed.
(** Run alone, the program leaves its state's regions accounted for. *)
Lemma tracked_run {A} (p : prog S A) own s :
  tracked regs p own → acct (run p s) (option_list own ++ regs s) (λ x, regs x.2).
Proof using.
  revert own s. induction p as [a|X g k IH]; intros own s.
  - intros ->. apply (acct_ret (a, s)). reflexivity.
  - intros (after&Hg&Hk). eapply acct_bind; [apply Hg|]. intros [x s']. by apply IH.
Qed.
Lemma accounted_io {X} (c : cmd X) : Quiet c → accounted regs (io c).
Proof using. intros Hc. apply accounted_act. intros s. apply acct_bind_quiet; [done|]. intros x. acct_step. Qed.
Lemma accounted_gets {X} (f : S → X) : accounted regs (gets f).
Proof using. apply accounted_act. intros s. acct_step. Qed.
Lemma accounted_query {X} (f : S → cmd X) : (∀ s, Quiet (f s)) → accounted regs (query f).
Proof using. intros Hf. apply accounted_act. intros s. apply acct_bind_quiet; [done|]. intros x. acct_step. Qed.
(** A component inside a larger state. *)
Lemma tracked_zoom {S' A} (regs' : S' → list MappedRegion) (get : S' → S) set `{!Lens get set} (p : prog S A) own :
  (∀ s, ∃ rest, ∀ x, regs' (set s x) ≡ₚ regs x ++ rest) → tracked regs p own → tracked regs' (zoom get set p) own.
Proof using.
  intros Hr. revert own. induction p as [a|X g k IH]; intros own; [done|].
  intros (after&Hg&Hk). exists after. split; [|by intros x; apply IH]. intros s. destruct (Hr s) as [rest Hrest].
  apply (acct_perm _ ((option_list own ++ regs (get s)) ++ rest) _ (λ x, option_list (after x.1) ++ regs' x.2)); [| |reflexivity].
  - eapply acct_bind; [apply acct_frame, Hg|]. intros [x s']. apply acct_ret. rewrite -app_assoc.
    apply Permutation_app_head, Hrest.
  - rewrite -app_assoc. apply Permutation_app_head. rewrite -Hrest lens_set_get. reflexivity.
Qed.
End programs.

(** ** The allocator *)
Definition large_regions (l : LargeAllocator) : list MappedRegion := (map_to_list (regions_ l)).*2.
Definition impl_regions (w : AllocatorImpl) : list MappedRegion :=
  large_regions (get_large w) ++ segments_ (get_segments w) ++ pool_regions (get_pools w).

Lemma large_regions_insert l p r :
  regions_ l !! p = None → large_regions (MkLarge (<[p := r]> (regions_ l))) ≡ₚ r :: large_regions l.
Proof using. intros Hp. unfold large_regions. cbn [regions_]. by rewrite map_to_list_insert. Qed.
Lemma large_regions_delete l p r :
  regions_ l !! p = Some r → large_regions l ≡ₚ r :: large_regions (MkLarge (delete p (regions_ l))).
Proof using. intros Hp. unfold large_regions. cbn [regions_]. by rewrite -(map_to_list_delete _ _ _ Hp). Qed.
Lemma accounted_large_allocate n : accounted large_regions (LargeAllocator.allocate n).
Proof using HL.
  set (pending := λ r, if valid r then Some r else None).
  apply (tracked_act_bind large_regions _ _ None pending).
  - intros l. eapply acct_bind; [apply acct_make|]. intros r. apply acct_ret. unfold pending. cbn [fst snd]. destruct (valid r); reflexivity.
  - intros r. unfold pending. destruct (valid r); cbv [negb]; [|apply accounted_ret].
    apply accounted_bind; [|intros ?; apply accounted_ret]. exists (λ _, None). split; [|done]. intros l.
    unfold emplace. destruct (regions_ l !! _) as [r'|] eqn:E.
    + eapply acct_bind; [apply acct_reset|]. intros ?. acct_step.
    + apply (acct_ret ((), _)). by apply large_regions_insert.
Qed.
Lemma accounted_large_deallocate p : accounted large_regions (LargeAllocator.deallocate p).
Proof using.
  apply accounted_act. intros l. unfold erase. destruct (regions_ l !! p) as [r|] eqn:E; [|acct_step].
  apply (acct_perm _ (r :: large_regions (MkLarge (delete p (regions_ l)))) _ (λ x, large_regions x.2));
    [|by apply large_regions_delete|reflexivity].
  eapply acct_bind; [apply acct_reset|]. intros ?. acct_step.
Qed.
Lemma accounted_in_large {A} (p : prog LargeAllocator A) : accounted large_regions p → accounted impl_regions (in_large p).
Proof using. intros Hp. apply (tracked_zoom large_regions impl_regions); [apply _|intros w; exists (segments_ (get_segments w) ++ pool_regions (get_pools w)); reflexivity|exact Hp]. Qed.
Lemma accounted_in_segments {A} (p : prog SegmentHeap A) : accounted segments_ p → accounted impl_regions (in_segments p).
Proof using.
  intros Hp. apply (tracked_zoom segments_ impl_regions); [apply _|intros w|exact Hp]. exists (large_regions (get_large w) ++ pool_regions (get_pools w)). intros h.
  apply Permutation_app_swap_app.
Qed.
Lemma accounted_in_pools {A} (p : prog PoolAllocator A) : accounted pool_regions p → accounted impl_regions (in_pools p).
Proof using.
  intros Hp. apply (tracked_zoom pool_regions impl_regions); [apply _|intros w|exact Hp]. exists (large_regions (get_large w) ++ segments_ (get_segments w)). intros h.
  change (impl_regions (set_pools w h)) with (large_regions (get_large w) ++ segments_ (get_segments w) ++ pool_regions h).
  rewrite app_assoc. apply Permutation_app_comm.
Qed.
Lemma accounted_in_stats {A} (p : prog StatisticsCollector A) : accounted (λ _, []) p → accounted impl_regions (in_stats p).
Proof using. intros Hp. apply (tracked_zoom (λ _, []) impl_regions); [apply _|intros w; exists (impl_regions w); reflexivity|exact Hp]. Qed.
Lemma accounted_in_debug {A} (p : prog DebugLayer A) : accounted (λ _, []) p → accounted impl_regions (in_debug p).
Proof using. intros Hp. apply (tracked_zoom (λ _, []) impl_regions); [apply _|intros w; exists (impl_regions w); reflexivity|exact Hp]. Qed.
End tiers.
Notation accounted regs p := (tracked regs p None).

Create HintDb accounts.
#[export] Hint Constants Opaque : accounts.
#[export] Hint Resolve accounted_ret accounted_gets accounted_in_large accounted_in_segments accounted_in_pools
  accounted_in_stats accounted_in_debug accounted_large_allocate accounted_large_deallocate : accounts.
#[export] Hint Extern 1 (accounted _ (io _)) => (apply accounted_io; solve [quiets]) : accounts.
#[export] Hint Extern 1 (accounted _ (query _)) => (apply accounted_query; solve [quiets]) : accounts.
#[export] Hint Extern 1 (acct _ _ _) => (solve [repeat acct_step]) : accounts.
Ltac accounts :=
  intros;
  repeat match goal with
  | |- accounted _ (mbind _ _) => apply accounted_bind; [|intros ?]
  | |- accounted _ (match ?x with _ => _ end) => destruct x
  end; auto 10 with accounts.

Section operations.
Context `{HOS : !OS, HL : !OSLaws}.
#[local] Hint Resolve quiet_externalFragmentation : quiet.

Lemma accounted_modify {S} (regs : S → list MappedRegion) (f : S → S) :
  (∀ s, regs (f s) = regs s) → accounted regs (modify f).
Proof using. intros Hf. apply accounted_act. intros s. apply acct_same, Hf. Qed.
Lemma accounted_recordAllocation fuel n r : accounted (λ _, []) (recordAllocation fuel n r).
Proof using.
  assert (∀ fuel c p, accounted (λ _, []) (updatePeak_loop fuel c p)) as Hloop.
  { intros fu c. induction fu as [|fu IH]; intros p; cbn [updatePeak_loop]; [accounts|].
    destruct (p <? c); [|accounts]. apply accounted_bind; [|intros [[] q]; cbn; accounts].
    apply accounted_act. accounts. }
  unfold recordAllocation, updatePeak, fetch_add, atomic_load.
  repeat (apply accounted_bind; [first [by apply accounted_modify|apply accounted_gets]|intros ?]). apply Hloop.
Qed.
Lemma accounted_recordFree n r : accounted (λ _, []) (recordFree n r).
Proof using.
  unfold recordFree, fetch_add, fetch_sub.
  repeat (apply accounted_bind; [by apply accounted_modify|intros ?]). by apply accounted_modify.
Qed.
Lemma accounted_snapshot e : accounted (λ _, []) (snapshot e).
Proof using. unfold snapshot, atomic_load. accounts. Qed.
Lemma accounted_track u n : accounted (λ _, []) (track u n).
Proof using. by apply accounted_modify. Qed.
Lemma accounted_untrack u : accounted (λ _, []) (untrack u).
Proof using. apply accounted_act. accounts. Qed.
Lemma accounted_isTracked u : accounted (λ _, []) (isTracked u).
Proof using. apply accounted_gets. Qed.
Lemma accounted_wasFreed u : accounted (λ _, []) (wasFreed u).
Proof using. apply accounted_gets. Qed.
Lemma accounted_liveCount : accounted (λ _, []) liveCount.
Proof using. apply accounted_gets. Qed.
#[local] Hint Resolve accounted_recordAllocation accounted_recordFree accounted_snapshot accounted_track
  accounted_untrack accounted_isTracked accounted_wasFreed accounted_liveCount : accounts.

Lemma accounted_report e p : accounted impl_regions (report e p).
Proof using. apply accounted_act. intros w. destruct (abortOnError _); [|by apply acct_same]. by intros base m x m'. Qed.
#[local] Hint Resolve accounted_report : accounts.
Lemma accounted_fail {A} e p : accounted impl_regions (fail (A := A) e p).
Proof using. unfold fail. accounts. Qed.
#[local] Hint Extern 1 (accounted _ (fail _ _)) => (apply accounted_fail) : accounts.
Lemma accounted_threadCache tid : accounted impl_regions (threadCache tid).
Proof using. apply accounted_act. intros w. repeat case_match; by apply acct_same. Qed.
(** A step of a thread cache moves the pools only. *)
Lemma impl_regions_pools w w' p :
  get_large w' = get_large w → get_segments w' = get_segments w → pool_regions (get_pools w') = pool_regions p →
  impl_regions w' ≡ₚ pool_regions p ++ large_regions (get_large w) ++ segments_ (get_segments w).
Proof using. intros Hl Hs Hp. unfold impl_regions. rewrite Hl Hs Hp app_assoc. apply Permutation_app_comm. Qed.
Lemma accounted_cache_allocateBlock tid c : accounted impl_regions (cache_allocateBlock tid c).
Proof using HL.
  apply accounted_act. intros w. acct_step.
  apply (acct_perm _ (pool_regions (get_pools w) ++ large_regions (get_large w) ++ segments_ (get_segments w)) _
    (λ x, impl_regions x.2)); [|by apply impl_regions_pools|reflexivity].
  eapply acct_bind; [apply acct_frame, acct_cache_allocateBlock|]. intros [[b t] p]. apply acct_ret.
  by apply impl_regions_pools.
Qed.
Lemma accounted_cache_freeBlock tid c b : accounted impl_regions (cache_freeBlock tid c b).
Proof using.
  apply accounted_act. intros w. acct_step.
  apply (acct_perm _ (pool_regions (get_pools w) ++ large_regions (get_large w) ++ segments_ (get_segments w)) _
    (λ x, impl_regions x.2)); [|by apply impl_regions_pools|reflexivity].
  eapply acct_bind; [apply acct_frame, acct_cache_freeBlock|]. intros [t p]. apply acct_ret.
  by apply impl_regions_pools.
Qed.
Lemma accounted_thread_exit tid : accounted impl_regions (thread_exit tid).
Proof using.
  apply accounted_act. intros w. destruct (tlsCaches w !! tid) as [t|]; [|by apply acct_same].
  eapply (acct_bind _ _ _ (λ x, match x.2 with
    | Some p => pool_regions p ++ large_regions (get_large w) ++ segments_ (get_segments w)
    | None => impl_regions w end)).
  - destruct (expired w t); [by apply acct_same|]. unfold destroy.
    apply (acct_perm _ (pool_regions (get_pools w) ++ large_regions (get_large w) ++ segments_ (get_segments w)) _
      (λ x, match x.2 with Some p => pool_regions p ++ large_regions (get_large w) ++ segments_ (get_segments w)
            | None => impl_regions w end)); [|by apply impl_regions_pools|reflexivity].
    eapply acct_bind; [apply acct_frame, acct_flush_all|]. intros [cs p]. by apply acct_same.
  - intros [t' [p|]]; [apply acct_ret; by apply impl_regions_pools|by apply acct_same].
Qed.
#[local] Hint Resolve accounted_threadCache accounted_cache_allocateBlock accounted_cache_freeBlock
  accounted_thread_exit : accounts.

Lemma accounted_act_ {S} (regs : S → list MappedRegion) (f : S → cmd S) :
  (∀ s, acct (f s) (regs s) regs) → accounted regs (act_ f).
Proof using. intros Hf. apply accounted_act. intros s. eapply acct_bind; [apply Hf|]. intros s'. by apply acct_same. Qed.
Lemma accounted_pools_allocate c : accounted impl_regions (in_pools (act (λ p, PoolAllocator.allocateBlock p c))).
Proof using HL. apply accounted_in_pools, accounted_act. intros p. apply acct_pool_allocateBlock. Qed.
Lemma accounted_pools_free c b : accounted impl_regions (in_pools (act_ (λ p, PoolAllocator.freeBlock p c b))).
Proof using. apply accounted_in_pools, accounted_act_. intros p. apply acct_pool_freeBlock. Qed.
Lemma accounted_segments_allocate n : accounted impl_regions (in_segments (act (λ h, SegmentHeap.allocate h n))).
Proof using HL. apply accounted_in_segments, accounted_act. intros h. apply acct_heap_allocate. Qed.
Lemma accounted_segments_free p : accounted impl_regions (in_segments (act_ (λ h, SegmentHeap.deallocate h p))).
Proof using. apply accounted_in_segments, accounted_act_. intros h. apply acct_heap_deallocate. Qed.
Lemma accounted_large_capacity p : accounted large_regions (LargeAllocator.payloadCapacity p).
Proof using. apply accounted_gets. Qed.
#[local] Hint Resolve accounted_pools_allocate accounted_pools_free accounted_segments_allocate accounted_segments_free
  accounted_large_capacity : accounts.

Lemma accounted_rawAllocate tid n : accounted impl_regions (rawAllocate tid n).
Proof using HL. unfold rawAllocate, rawAllocate_small, rawAllocate_medium, rawAllocate_large. accounts. Qed.
Lemma accounted_rawDeallocate tid p : accounted impl_regions (rawDeallocate tid p).
Proof using HL. unfold rawDeallocate, rawDeallocate_small, rawDeallocate_medium, rawDeallocate_large. accounts. Qed.
#[local] Hint Resolve accounted_rawAllocate accounted_rawDeallocate : accounts.
Lemma quiet_all_guard a n : Quiet (all_guard a n).
Proof using. revert a. induction n as [|n IH]; intros a; cbn [all_guard]; quiets. Qed.
#[local] Hint Resolve quiet_all_guard : quiet.
Lemma quiet_applyGuards a n : Quiet (applyGuards a n).
Proof using. unfold applyGuards. quiets. Qed.
Lemma quiet_verifyGuards a n : Quiet (verifyGuards a n).
Proof using. unfold verifyGuards. quiets. Qed.
#[local] Hint Resolve quiet_applyGuards quiet_verifyGuards : quiet.

Lemma accounted_finish_allocate fuel cfg u n r : accounted impl_regions (finish_allocate fuel cfg u n r).
Proof using. unfold finish_allocate. accounts. Qed.
#[local] Hint Resolve accounted_finish_allocate : accounts.
Lemma accounted_allocate fuel tid n : accounted impl_regions (allocate fuel tid n).
Proof using HL. unfold allocate. accounts. Qed.
Lemma accounted_free_by_tier tid cfg p n t : accounted impl_regions (free_by_tier tid cfg p n t).
Proof using HL. unfold free_by_tier. accounts. Qed.
#[local] Hint Resolve accounted_allocate accounted_free_by_tier : accounts.
Lemma accounted_deallocate tid p : accounted impl_regions (deallocate tid p).
Proof using HL. unfold deallocate, deallocate_checked. accounts. Qed.
Lemma accounted_allocationSize p : accounted impl_regions (allocationSize p).
Proof using. unfold allocationSize. accounts. Qed.
#[local] Hint Resolve accounted_deallocate accounted_allocationSize : accounts.
Lemma accounted_reallocate fuel tid p n : accounted impl_regions (reallocate fuel tid p n).
Proof using HL. unfold reallocate. accounts. Qed.
Lemma accounted_alignedAllocate fuel tid al n : accounted impl_regions (alignedAllocate fuel tid al n).
Proof using HL. unfold alignedAllocate. accounts. Qed.
Lemma accounted_statistics : accounted impl_regions statistics.
Proof using. unfold statistics. accounts. Qed.
#[local] Hint Resolve accounted_reallocate accounted_alignedAllocate accounted_statistics : accounts.
Lemma accounted_exec fuel tid o : accounted impl_regions (exec fuel tid o).
Proof using HL. unfold exec, liveAllocationCount. accounts. Qed.
#[local] Hint Resolve accounted_exec : accounts.
Lemma accounted_client_run c fuel n tr : accounted impl_regions (client_run c fuel n tr).
Proof using HL. revert tr. induction n as [|n IH]; intros tr; cbn [client_run]; accounts. Qed.

(** ** Destruction *)
Lemma pool_regions_rev p : concat (runs <$> rev (shards_ p)) ≡ₚ pool_regions p.
Proof using.
  unfold pool_regions. generalize (shards_ p) as l. intros l. induction l as [|s l IH]; [done|].
  cbn [rev]. rewrite fmap_app concat_app. etrans; [apply Permutation_app_comm|]. cbn. rewrite app_nil_r.
  by apply Permutation_app_head.
Qed.
Lemma run_destroy base w m :
  ledger base (impl_regions w) (pages m) →
  ∃ m', AllocatorImpl_destroy w m = Ok (leak_message w) m' ∧ pages m' ≡ₚ base.
Proof using.
  intros Hl.
  assert (ledger base (large_regions (get_large w) ++ segments_ (get_segments w) ++
    concat (runs <$> rev (shards_ (get_pools w))) ++ []) (pages m)) as Hl0.
  { rewrite app_nil_r. eapply ledger_perm; [|reflexivity|exact Hl].
    apply Permutation_app_head, Permutation_app_head, pool_regions_rev. }
  destruct (run_reset_all _ _ _ m Hl0) as (m1&Hr1&Hl1). destruct (run_reset_all _ _ _ m1 Hl1) as (m2&Hr2&Hl2).
  destruct (run_reset_all _ _ _ m2 Hl2) as (m3&Hr3&(Hp&_&_)).
  exists m3. split; [|exact Hp]. unfold AllocatorImpl_destroy, CentralState_destroy, LargeAllocator_destroy,
    SegmentHeap_destroy, PoolAllocator_destroy, mbind, cmd_bind, mret, cmd_ret.
  unfold large_regions, get_large in Hr1. unfold get_segments in Hr2. unfold get_pools in Hr3. by rewrite Hr1 Hr2 Hr3.
Qed.
Lemma ledger_init cfg self tls throws dbg (ps : vmas) :
  apart ps → ledger ps (impl_regions (AllocatorImpl_init cfg self tls throws dbg)) ps.
Proof using. intros Ha. by split_and!. Qed.
End operations.

(** C7: no mapping is lost.  A client that keeps its obligations runs for any number of
    operations, whatever the operating system answers; then the pages mapped in the process
    are those mapped before and those of the regions the tiers list, each once.  The
    destructor of the handle then unmaps exactly these regions: it cannot fail, prints
    the number of leaked blocks when it is configured to, and the mappings are what they
    were before the allocator was created - whatever the client left allocated and
    whatever blocks the thread caches still hold. *)
Theorem destroy_gives_all_back `{HOS : !OS, HL : !OSLaws} c fuel n cfg self tls throws dbg m :
  abortOnError cfg = false → valid_client cfg c →
  (∀ tid t, tls !! tid = Some t → ThreadCache.central_ t ≠ self) →
  (enableLeakTracking cfg = true → ∀ u, dbg u = false) →
  apart (pages m) →
  ∃ tr w m1 m2,
    run (client_run c (S fuel) n []) (AllocatorImpl_init cfg self tls throws dbg) m = Ok (tr, w) m1 ∧
    pages m1 ≡ₚ (vma <$> impl_regions w) ++ pages m ∧ apart (pages m1) ∧
    Allocator_destroy (MkAllocator (Some w)) m1 = Ok (leak_message w) m2 ∧ pages m2 ≡ₚ pages m.
Proof.
  intros Hab Hc Htls Hdbg Ha.
  destruct (sat_wpp (client_inv cfg (AllocatorImpl_init cfg self tls throws dbg) spec_init)
    (client_run c (S fuel) n []) (AllocatorImpl_init cfg self tls throws dbg) (λ _ _, emp)%I m) as (tr&w&m1&Hrun&_).
  - iIntros "H". iApply (wpp_client_run c fuel n [] cfg _ spec_init); [done|done|apply trace_nil|].
    iFrame "H". by iIntros.
  - by apply sat_start, client_inv_init.
  - pose proof (tracked_run _ _ None _ (accounted_client_run c (S fuel) n []) (pages m) _ _ _ Hrun (ledger_init cfg self tls throws dbg _ Ha)) as Hl.
    destruct (run_destroy _ _ _ Hl) as (m2&Hd&Hp). destruct Hl as (Hl&Hapart&_). by exists tr, w, m1, m2.
Qed.
(** One small block, never freed. *)
Definition forgetful : strategy := λ tr, match tr with [] => Some (1, Malloc 100) | _ => None end.
Lemma destroy_gives_all_back_witness :
  let os := bump_os 9 in
  ∃ tr w m1 m2,
    run (client_run forgetful 1 2 []) (AllocatorImpl_init debug 1 ∅ (λ _, false) (λ _, false)) mem_init = Ok (tr, w) m1 ∧
    Allocator_destroy (MkAllocator (Some w)) m1 = Ok (leak_message w) m2 ∧ pages m2 ≡ₚ [].
Proof.
  intros os. destruct (destroy_gives_all_back (HOS := os) (HL := bump_laws 9) forgetful 0 2 debug 1 ∅ (λ _, false)
    (λ _, false) mem_init) as (tr&w&m1&m2&Hrun&_&_&Hd&Hp).
  - reflexivity.
  - intros tr σ tid o _. destruct tr as [|]; [|discriminate]. intros [= <- <-]. by vm_compute.
  - intros tid t Ht. by rewrite lookup_empty in Ht.
  - reflexivity.
  - exact I.
  - exists tr, w, m1, m2. exact (conj Hrun (conj Hd Hp)).
Defined.
