(* ===== verification/Windows.v ===== *)
(** The Windows branch of src/src/SystemMemory.cpp: [VirtualAlloc], [VirtualFree] and
    [GetSystemInfo] instead of [mmap], [munmap] and [sysconf].  [VirtualFree] takes no size:
    it releases the whole reservation that starts at its argument.  On the regions
    the allocator lists, that is what [munmap] does with the size of the mapping, so
    what the other files prove over [mmap] holds on Windows. *)

From stdpp Require Import gmap.
From iris.proofmode Require Import proofmode.
From S2P Require Import Prelude.
From S2P Require Import Memory.
From S2P Require Import Platform.
From S2P Require Import SystemMemory.
From S2P Require Import Mappings.

Open Scope Z_scope.

(** The calls into the system: the page size, and the answer to the [n]-th [VirtualAlloc] of
    [size] bytes when [vmas] are the reservations. *)
Class WindowsApi := {
  dwPageSize : Z;
  VirtualAlloc_answer : nat → vmas → Z → option Z
}.
(** What the documentation says: the page size is a power of two, a size of zero is
    refused, and a reservation starts at a multiple of 64 KiB in free address space. *)
Class WindowsLaws `{!WindowsApi} := {
  dwPageSize_pow : ∃ k, 4 ≤ k ≤ 16 ∧ dwPageSize = 2 ^ k;
  VirtualAlloc_zero n vmas : VirtualAlloc_answer n vmas 0 = None;
  VirtualAlloc_base n vmas size b :
    VirtualAlloc_answer n vmas size = Some b → b mod 2 ^ 16 = 0 ∧ 0 < b ∧ b + size ≤ W64;
  VirtualAlloc_free n vmas size b p :
    VirtualAlloc_answer n vmas size = Some b → b / dwPageSize ≤ p < (b + size) / dwPageSize → ¬ page_in vmas p
}.

Section windows.
Context `{HW : !WindowsApi}.

Definition pageSize : Z := dwPageSize.
Definition roundToPages (size : Z) : Z :=
  let page := pageSize in (size +₆₄ page -₆₄ 1) / page *₆₄ page.
Definition reservation (base len : Z) : Z * Z := (base / dwPageSize, base / dwPageSize + len / dwPageSize).

(** [VirtualAlloc(nullptr, size, MEM_RESERVE | MEM_COMMIT, PAGE_READWRITE)]: the pages read
    as zero. *)
Definition VirtualAlloc (size : Z) : cmd (option Z) := λ m,
  match VirtualAlloc_answer (syscalls m) (pages m) size with
  | None => Ok None (Mem (pages m) (cells m) (S (syscalls m)))
  | Some b =>
      Ok (Some b) (Mem (reservation b size :: pages m)
                       (filter (λ '(a, _), outside b size a) (cells m)) (S (syscalls m)))
  end.
(** [VirtualFree(base, 0, MEM_RELEASE)]: the reservation that starts at [base] goes; when
    there is none the call fails and changes nothing. *)
Definition release_at (base : Z) (vs : vmas) : vmas := filter (λ v, v.1 * dwPageSize ≠ base) vs.
Definition VirtualFree (base : Z) : cmd () := λ m,
  Ok () (Mem (release_at base (pages m)) (cells m) (syscalls m)).

Definition map (size : Z) : cmd span :=
  if size =? 0 then mret empty_span else
  let rounded := roundToPages size in
  ptr ← VirtualAlloc rounded;
  match ptr with
  | None => mret empty_span
  | Some ptr => mret (Span ptr rounded)
  end.
Definition unmap (region : span) : cmd () :=
  if size region =? 0 then mret () else VirtualFree (data region).
End windows.

Section proofs.
Context `{HW : !WindowsApi, HWL : !WindowsLaws}.

(** The system as the rest of the development sees it. *)
#[export] Instance windows_os : OS := {| os_page := dwPageSize; os_mmap := VirtualAlloc_answer |}.
#[export] Instance windows_laws : OSLaws.
Proof.
  split.
  - destruct dwPageSize_pow as (k&Hk&E). exists k. split; [lia|exact E].
  - apply VirtualAlloc_zero.
  - intros n vs size b (Hm&?&?)%VirtualAlloc_base. split_and!; [|done|done]. destruct dwPageSize_pow as (k&Hk&E).
    cbn. rewrite E. eapply (mod_pow2_le _ k 16); [lia|done].
  - apply VirtualAlloc_free.
Qed.

Lemma vmas_remove_cons v w ps : vmas_remove v (w :: ps) = vma_cut v w ++ vmas_remove v ps.
Proof. done. Qed.
Lemma release_at_cons base w ps :
  release_at base (w :: ps) = if decide (w.1 * dwPageSize = base) then release_at base ps else w :: release_at base ps.
Proof.
  unfold release_at. destruct (decide _) as [E|E]; [rewrite filter_cons_False; naive_solver|by rewrite filter_cons_True].
Qed.
Lemma dwPageSize_pos : 0 < dwPageSize.
Proof. destruct dwPageSize_pow as (k&Hk&->). lia. Qed.
(** Among disjoint mappings, the one that starts at a page is the one that is cut out. *)
Lemma release_other v ps :
  apart ps → Forall (vma_sep v) ps → v.1 < v.2 → release_at (v.1 * dwPageSize) ps = ps ∧ vmas_remove v ps = ps.
Proof.
  pose proof dwPageSize_pos. induction ps as [|w ps IH]; intros Ha Hf Hv; [done|]. cbn in Ha. destruct Ha as (Hw&_&Ha).
  apply Forall_cons in Hf as [Hvw Hf]. destruct (IH Ha Hf Hv) as [E1 E2]. rewrite release_at_cons vmas_remove_cons E1 E2. split.
  - destruct (decide _) as [E|]; [|done]. unfold vma_sep in Hvw. nia.
  - by rewrite vma_cut_sep.
Qed.
Lemma apart_nonempty v ps : apart ps → v ∈ ps → v.1 < v.2.
Proof.
  induction ps as [|w ps IH]; [by intros _ ?%not_elem_of_nil|]. cbn. intros (?&_&?) [->|?]%elem_of_cons; [done|by apply IH].
Qed.
Lemma release_at_apart v ps : apart ps → v ∈ ps → release_at (v.1 * dwPageSize) ps = vmas_remove v ps.
Proof.
  pose proof dwPageSize_pos. induction ps as [|w ps IH]; intros Ha Hin; [by apply not_elem_of_nil in Hin|].
  pose proof (apart_nonempty v _ Ha Hin) as Hv. cbn in Ha. destruct Ha as (Hw&Hf&Ha). rewrite release_at_cons vmas_remove_cons.
  destruct (decide (v = w)) as [->|Hne].
  - destruct (release_other w ps Ha Hf Hw) as [E1 E2]. by rewrite decide_True // E1 E2 vma_cut_self.
  - apply elem_of_cons in Hin as [?|Hin]; [done|]. pose proof (proj1 (Forall_forall _ _) Hf v Hin) as Hwv.
    unfold vma_sep in Hwv. rewrite decide_False; [|nia]. rewrite (IH Ha Hin) vma_cut_sep //.
Qed.

(** C26: the Windows branch is the POSIX branch.  [map] is the same function of the system's
    answers, and releasing a region that is one of the mappings - as are all the regions
    the allocator lists - is unmapping its pages, although [VirtualFree] is not told how
    many there are. *)
Theorem windows_branch_equivalent :
  roundToPages = SystemMemory.roundToPages ∧
  (∀ sz m, map sz m = SystemMemory.map sz m) ∧
  ∀ r base rs m, ledger base (Mapped r :: rs) (pages m) → unmap r m = SystemMemory.unmap r m.
Proof.
  split_and!; [done|done|]. intros r base rs m (Hp&Ha&[(Hd&Hs&_) _]%Forall_cons).
  unfold unmap, SystemMemory.unmap. unfold region_data, region_size in *. cbn [region_] in *.
  rewrite (proj2 (Z.eqb_neq (size r) 0)); [|lia]. unfold VirtualFree, munmap. rewrite bool_decide_eq_true_2 //.
  do 2 f_equal. rewrite -(release_at_apart (vma_of (data r) (size r))).
  - f_equal. cbn. pose proof (Z.div_mod (data r) dwPageSize) as E. cbn in Hd. pose proof dwPageSize_pos. lia.
  - done.
  - rewrite Hp. apply list_elem_of_here.
Qed.
End proofs.

(** ** An instance: reservations after the existing ones, the first [k] granted *)
Section demo.
Definition next_granule (vs : vmas) : Z := (first_page vs + 15) / 16 * 16.
#[local] Instance demo_windows (k : nat) : WindowsApi := {|
  dwPageSize := 4096;
  VirtualAlloc_answer n vs size :=
    let p := next_granule vs in
    if (n <? k)%nat && (0 <? size) && (p * 4096 + size <=? W64) then Some (p * 4096) else None
|}.
#[local] Instance demo_windows_laws k : @WindowsLaws (demo_windows k).
Proof.
  assert (∀ vs, first_page vs ≤ next_granule vs ∧ next_granule vs mod 16 = 0) as Hn.
  { intros vs. unfold next_granule. split; [align_lia|by apply Z.mod_mul]. }
  split.
  - exists 12. split; [lia|reflexivity].
  - intros n vs. cbn. by rewrite andb_false_r.
  - intros n vs size b. cbn. destruct (_ && _) eqn:E; [|done]. intros [= <-].
    rewrite !andb_true_iff Z.leb_le Z.ltb_lt in E. pose proof (first_page_ge vs). destruct (Hn vs) as [? Hm].
    split_and!; [|lia|lia]. change (2 ^ 16) with (16 * 4096). rewrite Z.mul_mod_distr_r; lia.
  - intros n vs size b p. cbn. destruct (_ && _) eqn:E; [|done]. intros [= <-].
    rewrite Z.div_mul; [|lia]. intros [H _] Hp%first_page_above. destruct (Hn vs). lia.
Qed.
Lemma windows_branch_equivalent_witness :
  let api := demo_windows 9 in
  unmap (Span 65536 8192) (Mem [(16, 18); (32, 33)] ∅ 2) = Ok () (Mem [(32, 33)] ∅ 2).
Proof.
  intros api. destruct (windows_branch_equivalent (HW := api) (HWL := demo_windows_laws 9)) as (_&_&H).
  rewrite (H (Span 65536 8192) [(32, 33)] [] (Mem [(16, 18); (32, 33)] ∅ 2)); [by vm_compute|].
  split_and!; [done| |].
  - cbn. split_and!; [lia|constructor; [left; cbn; lia|constructor]|lia|constructor|exact I].
  - constructor; [|constructor]. split_and!; done.
Defined.
End demo.
