(* ===== verification/Lifetime.v ===== *)
(** The life of a handle: a program that constructs an allocator as a local variable, uses
    it, and destroys it at the end of its scope.  Whatever the program does with the
    handle, the mappings are then what they were before. *)

From Stdlib Require Import Strings.String.
From stdpp Require Import gmap.
From iris.proofmode Require Import proofmode.
From S2P Require Import Prelude.
From S2P Require Import HeapProp.
From S2P Require Import Memory.
From S2P Require Import Platform.
From S2P Require Import Logic.
From S2P Require Import StdString.
From S2P Require Import BlockHeader.
From S2P Require Import SystemMemory.
From S2P Require Import Prog.
From S2P Require Import StatisticsCollector.
From S2P Require Import Config.
From S2P Require Import DebugLayer.
From S2P Require Import ThreadCache.
From S2P Require Import AllocatorImpl.
From S2P Require Import AllocatorInv.
From S2P Require Import Allocate.
From S2P Require Import Allocator.
From S2P Require Import Facade.
From S2P Require Import StlAllocator.
From S2P Require Import StdVector.
From S2P Require Import MemoryResource.
From S2P Require Import PmrMap.
From S2P Require Import Serving.
From S2P Require Import ExampleLoops.
From S2P Require Import ExamplePrograms.
From S2P Require Import StlIntegration.
From S2P Require Import Mappings.

Open Scope Z_scope.

(** [{ ma::Allocator allocator(...); ...; return result; }]: what it returns, and what
    the destructor prints. *)
Definition scope `{!OS} {A} (h : Allocator) (body : prog Allocator A) : cmd (A * option Z) :=
  r ← run body h; leak ← Allocator_destroy r.2; mret (r.1, leak).
(** The same for a body that an exception may leave: nobody catches it, the process
    ends, and no destructor need run. *)
Definition scope_or_terminate `{!OS} {A} (h : Allocator) (body : prog Allocator (option A)) : cmd (option (A * option Z)) :=
  r ← run body h;
  match r.1 with
  | None => mret None
  | Some a => leak ← Allocator_destroy r.2; mret (Some (a, leak))
  end.

Section handle.
Context `{HOS : !OS, HL : !OSLaws}.

Definition handle_regions (h : Allocator) : list MappedRegion :=
  match impl_ h with None => [] | Some w => impl_regions w end.
Lemma tracked_in_impl {A} (p : prog AllocatorImpl A) own :
  tracked impl_regions p own → tracked handle_regions (in_impl p) own.
Proof.
  revert own. induction p as [a|X f k IH]; intros own; [done|]. intros (after&Hf&Hk).
  exists after. split; [|by intros x; apply IH]. intros [[w|]]; cbn; [|by intros base m x m'].
  apply (acct_bind _ _ _ (λ y, option_list (after y.1) ++ impl_regions y.2)); [apply Hf|]. intros [x w']. by apply acct_ret.
Qed.
Lemma accounted_guarded {A} (x : A) p : accounted impl_regions p → accounted handle_regions (guarded x p).
Proof.
  intros Hp. unfold guarded. apply accounted_bind; [apply accounted_gets|]. intros [|]; [done|by apply tracked_in_impl].
Qed.
Ltac handle_op := apply accounted_guarded; try (apply accounted_bind; [|intros ?; apply accounted_ret]).
Lemma accounted_handle_allocate fuel tid n : accounted handle_regions (Allocator.allocate fuel tid n).
Proof. handle_op. apply accounted_allocate. Qed.
Lemma accounted_handle_deallocate tid p : accounted handle_regions (Allocator.deallocate tid p).
Proof. handle_op. apply accounted_deallocate. Qed.
Lemma accounted_handle_reallocate fuel tid p n : accounted handle_regions (Allocator.reallocate fuel tid p n).
Proof. handle_op. apply accounted_reallocate. Qed.
Lemma accounted_handle_aligned fuel tid al n : accounted handle_regions (Allocator.alignedAllocate fuel tid al n).
Proof. handle_op. apply accounted_alignedAllocate. Qed.
Lemma accounted_handle_try fuel tid n : accounted handle_regions (Allocator.tryAllocate fuel tid n).
Proof. handle_op. apply accounted_allocate. Qed.
Lemma accounted_handle_tryDeallocate tid p : accounted handle_regions (Allocator.tryDeallocate tid p).
Proof. handle_op. apply accounted_deallocate. Qed.
Lemma accounted_handle_tryAligned fuel tid al n : accounted handle_regions (Allocator.tryAlignedAllocate fuel tid al n).
Proof. handle_op. apply accounted_alignedAllocate. Qed.
Lemma accounted_handle_size p : accounted handle_regions (Allocator.allocationSize p).
Proof. handle_op. apply accounted_allocationSize. Qed.
Lemma accounted_handle_count : accounted handle_regions Allocator.liveAllocationCount.
Proof. handle_op. unfold AllocatorImpl.liveAllocationCount. apply accounted_in_debug, accounted_liveCount. Qed.
Lemma accounted_handle_statistics : accounted handle_regions Allocator.statistics.
Proof. handle_op. apply accounted_statistics. Qed.

(** What [φ] says of a program's result and its allocator holds, and the destructor puts
    the mappings back. *)
Lemma scope_correct {A} (P : heapPropI) (φ : A → AllocatorImpl → Prop) (body : prog Allocator A) cfg self tls throws dbg m :
  (P ⊢ wpp body (Allocator_make cfg self tls throws dbg) (λ r h, ∃ w, ⌜h = owning w ∧ φ r w⌝)) → (⊢ P) →
  accounted handle_regions body → apart (pages m) →
  ∃ r w m', scope (Allocator_make cfg self tls throws dbg) body m = Ok (r, leak_message w) m' ∧ φ r w ∧ pages m' ≡ₚ pages m.
Proof.
  intros Hwp HP Hacc Ha. destruct (sat_wpp P body _ _ m Hwp (sat_start _ _ HP)) as (r&h&m1&Hrun&Hsat).
  apply sat_exist in Hsat as [w Hsat]. apply sat_pure in Hsat as [-> Hφ].
  pose proof (tracked_run _ _ None _ Hacc (pages m) _ _ _ Hrun (ledger_init cfg self tls throws dbg _ Ha)) as Hl.
  destruct (run_destroy _ _ _ Hl) as (m2&Hd&Hp). exists r, w, m2. split; [|done].
  unfold scope, mbind, cmd_bind. rewrite Hrun. cbn [snd fst Allocator_destroy owning impl_]. by rewrite Hd.
Qed.
Lemma scope_or_terminate_correct {A} (P : heapPropI) (φ : A → AllocatorImpl → Prop) (ψ : Prop) (body : prog Allocator (option A)) cfg self tls throws dbg m :
  (P ⊢ wpp body (Allocator_make cfg self tls throws dbg) (λ r h, ∃ w, ⌜h = owning w ∧ match r with None => ψ | Some a => φ a w end⌝)) →
  (⊢ P) → accounted handle_regions body → apart (pages m) →
  ∃ m', (scope_or_terminate (Allocator_make cfg self tls throws dbg) body m = Ok None m' ∧ ψ) ∨
    ∃ a w, scope_or_terminate (Allocator_make cfg self tls throws dbg) body m = Ok (Some (a, leak_message w)) m' ∧ φ a w ∧ pages m' ≡ₚ pages m.
Proof.
  intros Hwp HP Hacc Ha. destruct (sat_wpp P body _ _ m Hwp (sat_start _ _ HP)) as (r&h&m1&Hrun&Hsat).
  apply sat_exist in Hsat as [w Hsat]. apply sat_pure in Hsat as [-> Hφ].
  pose proof (tracked_run _ _ None _ Hacc (pages m) _ _ _ Hrun (ledger_init cfg self tls throws dbg _ Ha)) as Hl.
  destruct (run_destroy _ _ _ Hl) as (m2&Hd&Hp). unfold scope_or_terminate, mbind, cmd_bind. rewrite Hrun. cbn [snd fst].
  destruct r as [a|].
  - exists m2. right. exists a, w. split; [|done]. cbn [Allocator_destroy owning impl_]. by rewrite Hd.
  - exists m1. by left.
Qed.
End handle.
#[export] Hint Resolve accounted_handle_allocate accounted_handle_deallocate accounted_handle_reallocate accounted_handle_aligned
  accounted_handle_try accounted_handle_tryDeallocate accounted_handle_tryAligned accounted_handle_size accounted_handle_count
  accounted_handle_statistics : accounts.

(** ** The examples *)
(** Strings that stay in their object ask the system for nothing. *)
Class StdStringQuiet `{!OS} `{!StdString} := {
  quiet_string_construct p s : Quiet (string_construct p s);
  quiet_string_read p : Quiet (string_read p);
  quiet_string_destroy p : Quiet (string_destroy p)
}.
#[export] Hint Resolve quiet_string_construct quiet_string_read quiet_string_destroy : quiet.

Section programs.
Context `{HOS : !OS, HL : !OSLaws} (fuel : nat) (tid : Z).

Lemma accounted_basic_allocation : accounted handle_regions (basic_allocation fuel tid).
Proof. unfold basic_allocation. accounts. Qed.
Lemma accounted_custom_allocator stack : accounted handle_regions (custom_allocator fuel tid stack).
Proof. unfold custom_allocator. accounts. Qed.
Lemma accounted_placement_new `{HSS : !StdString, HSQ : !StdStringQuiet} : accounted handle_regions (placement_new fuel tid).
Proof. unfold placement_new, Sensor_construct, Sensor_name, Sensor_threshold, Sensor_destroy. accounts. Qed.
Lemma accounted_allocate_blocks sizes : accounted handle_regions (allocate_blocks (Allocator.allocate fuel tid) sizes).
Proof. induction sizes as [|n sizes IH]; cbn [allocate_blocks]; accounts. Qed.
Lemma accounted_deallocate_blocks ps : accounted handle_regions (deallocate_blocks (Allocator.deallocate tid) ps).
Proof. induction ps as [|p ps IH]; cbn [deallocate_blocks]; accounts. Qed.
#[local] Hint Resolve accounted_allocate_blocks accounted_deallocate_blocks : accounts.
Lemma accounted_statistics_loop sizes : accounted handle_regions (statistics_loop fuel tid sizes).
Proof. unfold statistics_loop. accounts. Qed.
Lemma accounted_measure n : accounted handle_regions (measure (Allocator.allocate fuel tid) (Allocator.deallocate tid) n).
Proof. unfold measure. accounts. Qed.

Context `{HG : !VectorGrowth} `{HN : !TreeNodes} `{HSS : !StdString, HSQ : !StdStringQuiet}.
Lemma accounted_stl_allocate sizeof alignof n : accounted handle_regions (StlAllocator.allocate sizeof alignof fuel tid n).
Proof. unfold StlAllocator.allocate. accounts. Qed.
Lemma accounted_do_allocate n al : accounted handle_regions (do_allocate fuel tid n al).
Proof. unfold do_allocate. accounts. Qed.
#[local] Hint Resolve accounted_stl_allocate accounted_do_allocate : accounts.
Lemma accounted_vector_release v : accounted handle_regions (vector_release tid v).
Proof. unfold vector_release, StlAllocator.deallocate. accounts. Qed.
Lemma accounted_node_free p : accounted handle_regions (node_free tid p).
Proof. unfold node_free, do_deallocate. accounts. Qed.
#[local] Hint Resolve accounted_vector_release accounted_node_free : accounts.
Lemma accounted_push_back n v x : accounted handle_regions (push_back n fuel tid v x).
Proof. unfold push_back. accounts. Qed.
#[local] Hint Resolve accounted_push_back : accounts.
Lemma accounted_push_all n v xs : accounted handle_regions (push_all n fuel tid v xs).
Proof. revert v. induction xs as [|x xs IH]; intros v; cbn [push_all]; accounts. Qed.
Lemma accounted_emplace m k s : accounted handle_regions (emplace fuel tid m k s).
Proof. unfold emplace. accounts. Qed.
Lemma accounted_map_at m k : accounted handle_regions (map_at m k).
Proof. unfold map_at. accounts. Qed.
Lemma accounted_nodes_free ns : accounted handle_regions (nodes_free tid ns).
Proof. induction ns as [|[k p] ns IH]; cbn [nodes_free]; accounts. Qed.
#[local] Hint Resolve accounted_push_all accounted_emplace accounted_map_at accounted_nodes_free : accounts.
Lemma accounted_stl_integration handle resource : accounted handle_regions (stl_integration fuel tid handle resource).
Proof. unfold stl_integration, back, vector_at, vector_destroy, map_destroy. accounts. Qed.
End programs.

Section theorems.
Context `{HOS : !OS, HL : !OSLaws} (self : Z) (tls : gmap Z ThreadCache) (throws dbg : Z → bool).
Hypothesis tls_fresh : ∀ tid t, tls !! tid = Some t → ThreadCache.central_ t ≠ self.
Implicit Types (w : AllocatorImpl).

Lemma impl_inv_idle w : impl_inv w ∅ ⊢ ⌜activeAllocations_ (get_stats w) = 0⌝.
Proof. iIntros "(%C & (_ & _ & [%Hact _] & _) & _)". iPureIntro. by rewrite Hact map_size_empty. Qed.
Lemma kept_idle w a x p : kept w ∅ a a x x p ⊢ ⌜activeAllocations_ (get_stats w) = 0⌝.
Proof. iIntros "[[_ (_&_&%Hact&_)] _]". iPureIntro. lia. Qed.


End theorems.

(** ** Instances *)
Section demo.
#[local] Instance demo_os : OS := bump_os 9.
#[local] Instance demo_laws : OSLaws := bump_laws 9.
#[local] Existing Instance short_string.
#[local] Instance demo_quiet : StdStringQuiet.
Proof. split; intros; cbn [string_construct string_read string_destroy short_string]; quiets. Qed.
(** Twice the size, or one; thirty-two bytes of links. *)
#[local] Instance demo_growth : VectorGrowth := {| grow n := Z.max 1 (2 * n) |}.
#[local] Instance demo_growth_laws : VectorGrowthLaws.
Proof. split. intros n Hn. cbn. rewrite W64_eq. lia. Qed.
#[local] Instance demo_nodes : TreeNodes := {| node_links := 32 |}.
#[local] Instance demo_nodes_laws : TreeNodesLaws.
Proof. by split. Qed.

Lemma no_caches (tid : Z) (t : ThreadCache) : (∅ : gmap Z ThreadCache) !! tid = Some t → ThreadCache.central_ t ≠ 1.
Proof. by rewrite lookup_empty. Qed.
End demo.
