(* ===== verification/TestRules.v ===== *)
(** The unit tests as programs: a test is a sequence of calls and checks that ends with
    the conjunction of what it expected, or stops at a fatal assertion.  The rules say
    how the calls of the handle continue in a test that must pass unless the system
    refuses memory. *)

From stdpp Require Import gmap.
From iris.proofmode Require Import proofmode.
From S2P Require Import Prelude.
From S2P Require Import HeapProp.
From S2P Require Import Memory.
From S2P Require Import Logic.
From S2P Require Import BlockHeader.
From S2P Require Import Prog.
From S2P Require Import StatisticsCollector.
From S2P Require Import Config.
From S2P Require Import DebugLayer.
From S2P Require Import AllocatorImpl.
From S2P Require Import AllocatorInv.
From S2P Require Import Allocate.
From S2P Require Import Deallocate.
From S2P Require Import Allocator.
From S2P Require Import Facade.
From S2P Require Import Client.

Open Scope Z_scope.

(** ** GoogleTest *)
Notation test := (prog Allocator (option bool)).
Definition passed : test := mret (Some true).
(** [ASSERT_*] ends the test, [EXPECT_*] lets it go on. *)
Definition ASSERT (b : bool) (k : test) : test := if b then k else mret None.
Definition EXPECT (b : bool) (k : test) : test := r ← k; mret (option_map (andb b) r).
(** [ASSERT_NE(ptr, nullptr)] *)
Definition ASSERT_NOT_NULL (p : Z) (k : test) : test := ASSERT (negb (p =? 0)) k.
(** [for (x : xs) { body }], and then the rest. *)
Fixpoint for_each {A} (xs : list A) (body : A → test → test) (k : test) : test :=
  match xs with [] => k | x :: xs => body x (for_each xs body k) end.
(** The errors the handler of the test has recorded. *)
Definition recorded (h : Allocator) : list Error :=
  match impl_ h with None => [] | Some w => r_error <$> rev (filter (λ r, r_handled r = true) (reports w)) end.

(** A test passes, unless the system refused memory. *)
Definition passes `{!OS} (r : option bool) : Prop := r = Some true ∨ os_refused.

Section rules.
Context `{HOS : !OS, HL : !OSLaws} (fuel : nat) (tid : Z).
Implicit Types (w : AllocatorImpl) (L : gmap Z alloc) (a : alloc) (u n : Z) (k : test).

Definition wpt k w : heapPropI := wpp k (owning w) (λ r h, ∃ w', ⌜h = owning w' ∧ passes r⌝)%I.

Lemma wpt_passed w : ⊢ wpt passed w.
Proof. iApply wpp_ret. iExists w. iPureIntro. split; [done|by left]. Qed.
Lemma wpt_stop w : os_refused → ⊢ wpt (mret None) w.
Proof. intros. iApply wpp_ret. iExists w. iPureIntro. split; [done|by right]. Qed.
Lemma wpt_assert (b : bool) k w : b = true → wpt k w ⊢ wpt (ASSERT b k) w.
Proof. by intros ->. Qed.
Lemma wpt_expect (b : bool) k w : b = true ∨ os_refused → wpt k w ⊢ wpt (EXPECT b k) w.
Proof.
  intros Hb. iIntros "H". iApply wpp_bind. iApply (wpp_wand with "H"). iIntros (r h) "(%w' & -> & %Hr)". iApply wpp_ret.
  iExists w'. iPureIntro. split; [done|]. destruct Hb as [->|?]; [|by right]. destruct Hr as [->|?]; [by left|by right].
Qed.

(** What an allocation of [n] bytes gives a test. *)
Definition fresh w w' L n al sh u a bs : Prop :=
  u ≠ 0 ∧ L !! u = None ∧ a_size a = n ∧ a_shim a = sh ∧ u mod al = 0 ∧ fresh_bytes (cfg_of w) n bs ∧ allocated w w' u n (a_reserved a).
Lemma alloc_post_fresh w L n al sh r w' :
  0 < n ≤ kMaxRequest → alloc_post w L n al sh r w' ⊢
  (⌜∃ e, r = inr e ∧ os_refused ∧ failed w w' e 0⌝ ∗ impl_inv w' L) ∨
  ∃ u a bs, ⌜r = inl u ∧ fresh w w' L n al sh u a bs⌝ ∗ impl_inv w' (<[u := a]> L) ∗ held u a bs.
Proof.
  intros Hn. iIntros "H". destruct r as [u|e]; cbn [alloc_post].
  - iRight. iDestruct "H" as (a bs (Hnone&Hwf&Hsz&Hsh&Hm&Hall&Hfb)) "(HI & Hu & Hg)".
    pose proof Hfb as [Hlen _]. iDestruct (bytes_at_range with "Hu") as %?; [lia|].
    iExists u, a, bs. iFrame. iPureIntro. split; [|lia]. split; [done|]. split_and!; try done. lia.
  - iLeft. iDestruct "H" as "[[%He %Hf] $]". iPureIntro. exists e. split_and!; [done| |done].
    destruct He as [[_ ?]|(_&_&?)]; [lia|done].
Qed.
Lemma request_ok n : 0 < n ≤ kMaxRequest → in64 n ∧ request n = n.
Proof.
  change kMaxRequest with (2 ^ 46). intros Hn. unfold in64, request. rewrite W64_eq (proj2 (Z.eqb_neq _ _)); lia.
Qed.
Lemma wpt_allocate n (k : Z → test) w L :
  0 < n ≤ kMaxRequest → abortOnError (cfg_of w) = false →
  impl_inv w L ∗
  (∀ u a bs w', ⌜fresh w w' L n 16 (default_shim (cfg_of w)) u a bs⌝ -∗ impl_inv w' (<[u := a]> L) -∗ held u a bs -∗ wpt (k u) w') ⊢
  wpt (p ← Allocator.allocate (S fuel) tid n; ASSERT_NOT_NULL p (k p)) w.
Proof.
  intros Hn Hab. iIntros "[HI Hk]". iApply wpp_bind. iApply wpp_guarded. iApply wpp_bind.
  destruct (request_ok n Hn) as [Hin Hreq].
  iApply wpp_allocate; [done|done|]. iFrame "HI". iIntros (r w') "H". iApply wpp_ret.
  rewrite Hreq.
  iDestruct (alloc_post_fresh with "H") as "[[(%e & -> & %Hr & _) _]|(%u & %a & %bs & [-> %Hf] & HI & Hh)]"; [done|by iApply wpt_stop|].
  cbn [value_or]. iApply wpt_assert; [destruct Hf as (Hu&_); by rewrite (proj2 (Z.eqb_neq u 0))|].
  iApply ("Hk" with "[//] HI Hh").
Qed.
Lemma wpt_aligned al n (k : Z → test) w L :
  valid_alignment al → 0 < n ≤ kMaxRequest → abortOnError (cfg_of w) = false →
  impl_inv w L ∗
  (∀ u a bs w' sh, ⌜fresh w w' L n al sh u a bs⌝ -∗ impl_inv w' (<[u := a]> L) -∗ held u a bs -∗ wpt (k u) w') ⊢
  wpt (p ← Allocator.alignedAllocate (S fuel) tid al n; ASSERT_NOT_NULL p (k p)) w.
Proof.
  intros Hal Hn Hab. iIntros "[HI Hk]". iApply wpp_bind. iApply wpp_guarded. iApply wpp_bind.
  destruct (request_ok n Hn) as [Hin Hreq].
  iApply wpp_alignedAllocate; [done| |done|].
  { destruct Hal as (j&Hj&->). pose proof (pow2_bounds j). unfold in64. lia. }
  iFrame "HI". iIntros (r w') "[[(% & _) _]|[_ H]]"; [done|]. iApply wpp_ret.
  rewrite Hreq.
  iDestruct (alloc_post_fresh with "H") as "[[(%e & -> & %Hr & _) _]|(%u & %a & %bs & [-> %Hf] & HI & Hh)]"; [done|by iApply wpt_stop|].
  cbn [value_or]. iApply wpt_assert; [destruct Hf as (Hu&_); by rewrite (proj2 (Z.eqb_neq u 0))|].
  iApply ("Hk" with "[//] HI Hh").
Qed.
Lemma wpt_free u a bs k w L :
  L !! u = Some a → abortOnError (cfg_of w) = false →
  impl_inv w L ∗ held u a bs ∗ (∀ w', ⌜deallocated w w' u a front_guard rear_guard⌝ -∗ impl_inv w' (delete u L) -∗ wpt k w') ⊢
  wpt (_ ← Allocator.deallocate tid u; k) w.
Proof.
  intros Ha Hab. iIntros "(HI & (%Hlen & Hu & Hg) & Hk)". iApply wpp_bind.
  iApply (wpp_handle_deallocate tid u a front_guard rear_guard w L); [done|done|]. iFrame "HI Hg".
  iSplitL "Hu"; [rewrite -Hlen; by iApply raw_intro|]. iIntros (w' Hd) "HI". by iApply ("Hk" with "[//]").
Qed.
(** Growing or shrinking keeps the common prefix. *)
Lemma wpt_reallocate u a bs n (k : Z → test) w L :
  L !! u = Some a → 0 < n ≤ kMaxRequest → abortOnError (cfg_of w) = false →
  impl_inv w L ∗ held u a bs ∗
  (∀ u' a' bs' w', ⌜cfg_of w' = cfg_of w ∧ L !! u' = None ∧ a_size a' = n ∧
       take (Z.to_nat (Z.min (a_size a) n)) bs' = take (Z.to_nat (Z.min (a_size a) n)) bs⌝ -∗
     impl_inv w' (delete u (<[u' := a']> L)) -∗ held u' a' bs' -∗ wpt (k u') w') ⊢
  wpt (p ← Allocator.reallocate (S fuel) tid u n; ASSERT_NOT_NULL p (k p)) w.
Proof.
  intros Ha Hn Hab. iIntros "(HI & (%Hlen & Hu & Hg) & Hk)". iApply wpp_bind. iApply wpp_guarded. iApply wpp_bind.
  iApply (wpp_reallocate fuel tid u a bs front_guard rear_guard n w L);
    [done|done|by apply request_ok|lia|done|].
  iFrame "HI Hu Hg". iSplit.
  - iIntros (e w' [He _]) "_ _ _". iApply wpp_ret. iApply wpt_stop. destruct He as [[_ ?]|(_&_&?)]; [lia|done].
  - iIntros (p a' bs' w1 w' (Hnone&Hwf&Hsz&_&_&Hlen'&Ht&[Hc1 _]&[Hc2 _])) "HI Hu Hg". iApply wpp_ret. cbn [value_or].
    iDestruct (bytes_at_range with "Hu") as %?; [lia|].
    iApply wpt_assert; [rewrite (proj2 (Z.eqb_neq p 0)) //; lia|].
    iApply ("Hk" with "[%] HI"); [by rewrite Hc2 Hc1|]. iFrame. iPureIntro. lia.
Qed.
(** ** Accesses to a block *)
Lemma held_bytes u a bs : held u a bs ⊢ ⌜Z.of_nat (length bs) = a_size a⌝ ∗ u ↦∗ bs ∗ (∀ bs', ⌜length bs' = length bs⌝ -∗ u ↦∗ bs' -∗ held u a bs').
Proof. iIntros "(%Hlen & $ & Hg)". iSplit; [done|]. iIntros (bs' Hl) "Hu". iFrame. iPureIntro. lia. Qed.
Lemma held_length u a bs : held u a bs ⊢ ⌜Z.of_nat (length bs) = a_size a⌝.
Proof. by iIntros "(% & _ & _)". Qed.
Lemma wpt_memset u a bs b n k w :
  a_size a = n → held u a bs ∗ (held u a (replicate (Z.to_nat n) b) -∗ wpt k w) ⊢ wpt (_ ← io (memset u b n); k) w.
Proof.
  iIntros (Hn) "[Hh Hk]". iDestruct (held_bytes with "Hh") as "(%Hlen & Hu & Hh)". iApply wpp_bind. iApply wpp_io.
  iApply (wp_memset _ bs); [lia|]. iFrame "Hu". iIntros "Hu". iApply "Hk". iApply ("Hh" with "[%] Hu"). rewrite length_replicate. lia.
Qed.
Lemma wpt_store u a bs bs' k w :
  length bs' = length bs → held u a bs ∗ (held u a bs' -∗ wpt k w) ⊢ wpt (_ ← io (store_list u bs'); k) w.
Proof.
  iIntros (Hn) "[Hh Hk]". iDestruct (held_bytes with "Hh") as "(%Hlen & Hu & Hh)". iApply wpp_bind. iApply wpp_io.
  iApply (wp_store_list _ bs); [done|]. iFrame "Hu". iIntros "Hu". iApply "Hk". by iApply ("Hh" with "[%] Hu").
Qed.
Lemma wpt_load u a bs (n : nat) (k : list byte → test) w :
  (n ≤ length bs)%nat → held u a bs ∗ (held u a bs -∗ wpt (k (take n bs)) w) ⊢ wpt (x ← io (load_list u n); k x) w.
Proof.
  iIntros (Hn) "[Hh Hk]". iDestruct (held_bytes with "Hh") as "(%Hlen & Hu & Hh)". iApply wpp_bind. iApply wpp_io.
  pose proof (bytes_at_app u (take n bs) (drop n bs)) as E. rewrite take_drop in E. rewrite {1}E. iDestruct "Hu" as "[Hu Hrest]".
  assert (load_list u n = load_list u (length (take n bs))) as -> by (by rewrite length_take_le).
  iApply wp_load_list. iFrame "Hu". iIntros "Hu". iApply "Hk". iApply ("Hh" with "[//]").
  rewrite E. iFrame.
Qed.
(** One byte of a range, to be given back with any value. *)
Lemma bytes_at_insert u bs i b0 :
  bs !! i = Some b0 → u ↦∗ bs ⊢ byte_at (u + Z.of_nat i) b0 ∗ ∀ b, byte_at (u + Z.of_nat i) b -∗ u ↦∗ <[i := b]> bs.
Proof. intros Hi. unfold bytes_at. by apply (big_sepL_insert_acc (λ (j : nat) b, byte_at (u + Z.of_nat j) b)). Qed.
Lemma wpt_load_at u a bs i b (k : byte → test) w :
  bs !! i = Some b → held u a bs ∗ (held u a bs -∗ wpt (k b) w) ⊢ wpt (x ← io (load_byte (u + Z.of_nat i)); k x) w.
Proof.
  iIntros (Hi) "[Hh Hk]". iDestruct (held_bytes with "Hh") as "(%Hlen & Hu & Hh)". iApply wpp_bind. iApply wpp_io.
  iAssert (byte_at (u + Z.of_nat i) b ∗ (byte_at (u + Z.of_nat i) b -∗ u ↦∗ bs))%I with "[Hu]" as "[Hb Hu]".
  { iDestruct (bytes_at_insert _ _ i b Hi with "Hu") as "[$ Hu]". iIntros "Hb". iDestruct ("Hu" with "Hb") as "Hu". by rewrite list_insert_id. }
  iApply wp_load_byte. iFrame "Hb". iIntros "Hb". iApply "Hk". iApply ("Hh" with "[//]"). by iApply "Hu".
Qed.
Lemma wpt_store_at u a bs i b k w :
  (i < length bs)%nat → held u a bs ∗ (held u a (<[i := b]> bs) -∗ wpt k w) ⊢ wpt (_ ← io (store_byte (u + Z.of_nat i) b); k) w.
Proof.
  iIntros (Hi) "[Hh Hk]". iDestruct (held_bytes with "Hh") as "(%Hlen & Hu & Hh)". iApply wpp_bind. iApply wpp_io.
  destruct (lookup_lt_is_Some_2 bs i Hi) as [b0 Hb0]. iDestruct (bytes_at_insert _ _ i b0 Hb0 with "Hu") as "[Hb Hu]".
  iApply wp_store_byte. iFrame "Hb". iIntros "Hb". iApply "Hk". iApply ("Hh" with "[%]"); [by rewrite length_insert|]. by iApply "Hu".
Qed.
(** Queries. *)
Lemma wpt_size u a (k : Z → test) w L :
  L !! u = Some a → impl_inv w L ∗ (impl_inv w L -∗ wpt (k (a_size a)) w) ⊢ wpt (n ← Allocator.allocationSize u; k n) w.
Proof.
  iIntros (Ha) "[HI Hk]". iApply wpp_bind. iApply wpp_guarded. iApply wpp_allocationSize; [done|]. iFrame "HI". iIntros "HI". by iApply "Hk".
Qed.
Lemma wpt_statistics (k : StatisticsSnapshot → test) w L :
  impl_inv w L ∗ (∀ e, impl_inv w L -∗ wpt (k (stats_snapshot e (get_stats w))) w) ⊢ wpt (s ← Allocator.statistics; k s) w.
Proof.
  iIntros "[HI Hk]". iApply wpp_bind. iApply wpp_guarded. iApply wpp_statistics. iFrame "HI". iIntros (l _) "HI". by iApply "Hk".
Qed.
Lemma wpt_recorded (k : list Error → test) w : wpt (k (recorded (owning w))) w ⊢ wpt (es ← gets recorded; k es) w.
Proof. iIntros "H". iApply wpp_bind. by iApply wpp_gets. Qed.
End rules.
