(* ===== verification/UnitTests.v ===== *)
(** The tests of src/tests that state what single calls of the handle do: ReallocateTest,
    AlignmentTest, DebugFeaturesTest, LargeAllocationTest, SmallAllocationTest, and
    one of FragmentationTest.  Each is the program of the test, with the proof that it
    passes. *)

From stdpp Require Import gmap.
From iris.proofmode Require Import proofmode.
From S2P Require Import Prelude.
From S2P Require Import HeapProp.
From S2P Require Import Memory.
From S2P Require Import Platform.
From S2P Require Import Logic.
From S2P Require Import BlockHeader.
From S2P Require Import Prog.
From S2P Require Import StatisticsCollector.
From S2P Require Import Config.
From S2P Require Import DebugLayer.
From S2P Require Import ThreadCache.
From S2P Require Import AllocatorImpl.
From S2P Require Import AllocatorInv.
From S2P Require Import Allocate.
From S2P Require Import Deallocate.
From S2P Require Import Allocator.
From S2P Require Import Facade.
From S2P Require Import Client.
From S2P Require Import Serving.
From S2P Require Import ExamplePrograms.
From S2P Require Import Mappings.
From S2P Require Import Lifetime.
From S2P Require Import TestRules.

Open Scope Z_scope.

Section tests.
Context `{HOS : !OS} (fuel : nat) (tid : Z).

(** *** ReallocateTest.cpp *)
Definition NullPointerBehavesLikeAllocate : test :=
  ptr ← Allocator.reallocate fuel tid 0 128;
  ASSERT_NOT_NULL ptr (_ ← Allocator.deallocate tid ptr; passed).
Definition counting : list byte := (λ i, Byte.byte.of_Z (Z.of_nat i)) <$> seq 0 64.
Definition GrowPreservesContents : test :=
  ptr ← Allocator.allocate fuel tid 64;
  ASSERT_NOT_NULL ptr (
  _ ← io (store_list ptr counting);
  grown ← Allocator.reallocate fuel tid ptr 8192;
  ASSERT_NOT_NULL grown (
  bs ← io (load_list grown 64);
  ASSERT (bool_decide (bs = counting)) (_ ← Allocator.deallocate tid grown; passed))).
Definition ShrinkPreservesPrefix : test :=
  ptr ← Allocator.allocate fuel tid 1024;
  ASSERT_NOT_NULL ptr (
  _ ← io (memset ptr Byte.x7e 1024);
  shrunk ← Allocator.reallocate fuel tid ptr 16;
  ASSERT_NOT_NULL shrunk (
  bs ← io (load_list shrunk 16);
  ASSERT (bool_decide (bs = replicate 16 Byte.x7e)) (_ ← Allocator.deallocate tid shrunk; passed))).
Definition ZeroSizeFreesPointer : test :=
  ptr ← Allocator.allocate fuel tid 256;
  ASSERT_NOT_NULL ptr (
  p ← Allocator.reallocate fuel tid ptr 0;
  EXPECT (p =? 0) (
  stats ← Allocator.statistics;
  EXPECT (activeAllocations stats =? 0) passed)).
Definition CrossTierGrowth : test :=
  ptr ← Allocator.allocate fuel tid 100;
  ASSERT_NOT_NULL ptr (
  _ ← io (memset ptr Byte.x33 100);
  huge ← Allocator.reallocate fuel tid ptr (2 * 1024 * 1024);
  ASSERT_NOT_NULL huge (
  bs ← io (load_list huge 100);
  ASSERT (bool_decide (bs = replicate 100 Byte.x33)) (_ ← Allocator.deallocate tid huge; passed))).

(** *** AlignmentTest.cpp *)
Definition isAligned (ptr alignment : Z) : bool := ptr mod alignment =? 0.
Definition DefaultAllocationsAreSixteenByteAligned : test :=
  for_each [1; 8; 100; 5000; 500000] (λ size next,
    ptr ← Allocator.allocate fuel tid size;
    ASSERT_NOT_NULL ptr (EXPECT (isAligned ptr 16) (_ ← Allocator.deallocate tid ptr; next))) passed.
Definition AlignedAllocateHonorsAlignment : test :=
  for_each [32; 64; 128; 4096; 65536] (λ alignment next,
    ptr ← Allocator.alignedAllocate fuel tid alignment 256;
    ASSERT_NOT_NULL ptr (EXPECT (isAligned ptr alignment) (
      _ ← io (memset ptr Byte.x11 256); _ ← Allocator.deallocate tid ptr; next))) passed.
Definition AlignedAllocationSizeIsPreserved : test :=
  ptr ← Allocator.alignedAllocate fuel tid 256 1000;
  ASSERT_NOT_NULL ptr (
  n ← Allocator.allocationSize ptr; EXPECT (n =? 1000) (_ ← Allocator.deallocate tid ptr; passed)).
(** Both tests of refused alignments. *)
Definition alignment_rejected (alignment : Z) : test :=
  result ← Allocator.tryAlignedAllocate fuel tid alignment 64;
  match result with
  | inl _ => ASSERT false passed
  | inr e => EXPECT (bool_decide (e = InvalidAlignment)) passed
  end.
Definition NonPowerOfTwoAlignmentIsRejected : test := alignment_rejected 48.
Definition ZeroAlignmentIsRejected : test := alignment_rejected 0.
Definition SmallAlignmentFallsBackToRegularPath : test :=
  ptr ← Allocator.alignedAllocate fuel tid 8 64;
  ASSERT_NOT_NULL ptr (EXPECT (isAligned ptr 8) (_ ← Allocator.deallocate tid ptr; passed)).

(** *** LargeAllocationTest.cpp *)
Definition MediumTierAllocates : test :=
  for_each [8 * 1024; 64 * 1024; 200 * 1024] (λ size next,
    ptr ← Allocator.allocate fuel tid size;
    ASSERT_NOT_NULL ptr (
    _ ← io (memset ptr Byte.x5a size);
    b ← io (load_byte (ptr + (size - 1)));
    EXPECT (bool_decide (b = Byte.x5a)) (_ ← Allocator.deallocate tid ptr; next))) passed.
Definition LargeTierAllocates : test :=
  for_each [512 * 1024; 4 * 1024 * 1024; 32 * 1024 * 1024] (λ size next,
    ptr ← Allocator.allocate fuel tid size;
    ASSERT_NOT_NULL ptr (
    _ ← io (store_byte (ptr + 0) Byte.x01);
    _ ← io (store_byte (ptr + (size - 1)) Byte.x02);
    b ← io (load_byte (ptr + 0));
    EXPECT (bool_decide (b = Byte.x01)) (
    b ← io (load_byte (ptr + (size - 1)));
    EXPECT (bool_decide (b = Byte.x02)) (_ ← Allocator.deallocate tid ptr; next)))) passed.
Definition SizeOverflowIsRejected : test :=
  result ← Allocator.tryAllocate fuel tid (2 ^ 60);
  match result with
  | inl _ => ASSERT false passed
  | inr e => EXPECT (bool_decide (e = SizeOverflow)) passed
  end.
Definition AllocationSizeMatchesRequest : test :=
  ptr ← Allocator.allocate fuel tid (3 * 1024 * 1024);
  ASSERT_NOT_NULL ptr (
  n ← Allocator.allocationSize ptr; EXPECT (n =? 3 * 1024 * 1024) (_ ← Allocator.deallocate tid ptr; passed)).
(** The blocks are allocated in a loop, and freed in another. *)
Fixpoint coexisting (kCount : nat) (kSize : Z) (blocks : list Z) (next : list Z → test) : test :=
  match kCount with
  | O => next blocks
  | S n => block ← Allocator.allocate fuel tid kSize; ASSERT_NOT_NULL block (coexisting n kSize (blocks ++ [block]) next)
  end.
Definition free_all (blocks : list Z) (k : test) : test :=
  for_each blocks (λ block next, _ ← Allocator.deallocate tid block; next) k.
Definition ManyLargeBlocksCoexist : test := coexisting 16 (1024 * 1024) [] (λ blocks, free_all blocks passed).

(** *** SmallAllocationTest.cpp *)
Definition ReturnsNonNullForTinySizes : test :=
  for_each (zseq 64 1) (λ size next,
    ptr ← Allocator.allocate fuel tid size; ASSERT_NOT_NULL ptr (_ ← Allocator.deallocate tid ptr; next)) passed.
Definition ZeroSizeYieldsValidPointer : test :=
  ptr ← Allocator.allocate fuel tid 0; ASSERT_NOT_NULL ptr (_ ← Allocator.deallocate tid ptr; passed).
(** Sorting the pointers brings equal ones together. *)
Definition PointersAreDistinct : test :=
  coexisting 1000 32 [] (λ pointers, ASSERT (bool_decide (NoDup pointers)) (free_all pointers passed)).
Definition MemoryIsWritable : test :=
  for_each [8; 100; 512; 4096] (λ size next,
    ptr ← Allocator.allocate fuel tid size;
    ASSERT_NOT_NULL ptr (
    _ ← io (memset ptr Byte.xab size);
    b ← io (load_byte (ptr + 0));
    EXPECT (bool_decide (b = Byte.xab)) (
    b ← io (load_byte (ptr + (size - 1)));
    EXPECT (bool_decide (b = Byte.xab)) (_ ← Allocator.deallocate tid ptr; next)))) passed.
Definition AllocationSizeReportsRequest : test :=
  ptr ← Allocator.allocate fuel tid 100;
  ASSERT_NOT_NULL ptr (
  n ← Allocator.allocationSize ptr; EXPECT (n =? 100) (_ ← Allocator.deallocate tid ptr; passed)).
Definition TryAllocateSucceeds : test :=
  result ← Allocator.tryAllocate fuel tid 128;
  match result with
  | inl p => ASSERT_NOT_NULL p (_ ← Allocator.deallocate tid p; passed)
  | inr _ => ASSERT false passed
  end.

(** *** DebugFeaturesTest.cpp; [ErrorRecorder::makeConfig] is [custom_config] *)
Definition DoubleFreeIsDetected : test :=
  ptr ← Allocator.allocate fuel tid 64;
  ASSERT_NOT_NULL ptr (
  _ ← Allocator.deallocate tid ptr;
  result ← Allocator.tryDeallocate tid ptr;
  match result with
  | inl _ => ASSERT false passed
  | inr e =>
      EXPECT (bool_decide (e = DoubleFree)) (
      errors ← gets recorded;
      ASSERT (length errors =? 1)%nat (EXPECT (bool_decide (head errors = Some DoubleFree)) passed))
  end).
Definition InvalidPointerIsDetected (local : Z) : test :=
  result ← Allocator.tryDeallocate tid local;
  match result with
  | inl _ => ASSERT false passed
  | inr e => EXPECT (bool_decide (e = InvalidPointer)) passed
  end.
Definition untracked_config : AllocatorConfig := MkConfig false false false true false false true.
Definition DoubleFreeWithoutTrackingIsDetected : test :=
  ptr ← Allocator.allocate fuel tid 64;
  ASSERT_NOT_NULL ptr (
  _ ← Allocator.deallocate tid ptr;
  result ← Allocator.tryDeallocate tid ptr;
  match result with
  | inl _ => ASSERT false passed
  | inr e => EXPECT (bool_decide (e = DoubleFree)) passed
  end).
Definition GuardCorruptionIsDetected : test :=
  ptr ← Allocator.allocate fuel tid 32;
  ASSERT_NOT_NULL ptr (
  _ ← io (store_byte (ptr + 32) Byte.xff);
  _ ← Allocator.deallocate tid ptr;
  errors ← gets recorded;
  ASSERT (negb (bool_decide (errors = []))) (EXPECT (bool_decide (head errors = Some HeapCorruption)) passed)).
Definition poison_config : AllocatorConfig := MkConfig false true false true false false false.
Definition PoisonPatternIsAppliedOnAllocation : test :=
  ptr ← Allocator.allocate fuel tid 64;
  ASSERT_NOT_NULL ptr (
  bs ← io (load_list ptr 64);
  ASSERT (bool_decide (bs = replicate 64 Byte.xcd)) (_ ← Allocator.deallocate tid ptr; passed)).
Definition LeakTrackingCountsLiveAllocations : test :=
  n ← Allocator.liveAllocationCount;
  EXPECT (n =? 0) (
  first ← Allocator.allocate fuel tid 32;
  second ← Allocator.allocate fuel tid 64;
  n ← Allocator.liveAllocationCount;
  EXPECT (n =? 2) (
  _ ← Allocator.deallocate tid first;
  n ← Allocator.liveAllocationCount;
  EXPECT (n =? 1) (
  _ ← Allocator.deallocate tid second;
  n ← Allocator.liveAllocationCount;
  EXPECT (n =? 0) passed))).
Definition NullDeallocateIsNoOp : test :=
  _ ← Allocator.deallocate tid 0;
  errors ← gets recorded;
  EXPECT (bool_decide (errors = [])) passed.

(** *** FragmentationTest.cpp: the blocks of a segment, all freed, make room for a larger one *)
Definition uncached_config : AllocatorConfig := MkConfig false false false true false false false.
Definition CoalescingAllowsLargeReallocationAfterFrees : test :=
  coexisting 64 (32 * 1024) [] (λ blocks, free_all blocks (
  big ← Allocator.allocate fuel tid (200 * 1024);
  ASSERT_NOT_NULL big (_ ← Allocator.deallocate tid big; passed))).
End tests.

Section proofs.
Context `{HOS : !OS, HL : !OSLaws} (fuel : nat) (tid : Z).
Implicit Types (w : AllocatorImpl) (L : gmap Z alloc) (a : alloc) (u n : Z).

Ltac small := change kMaxRequest with (2 ^ 46); lia.
(** Free the block and end. *)
Lemma wpt_free_passed u a bs w L :
  L !! u = Some a → abortOnError (cfg_of w) = false → impl_inv w L ∗ held u a bs ⊢ wpt (_ ← Allocator.deallocate tid u; passed) w.
Proof.
  iIntros (Ha Hab) "[HI Hh]". iApply (wpt_free tid u a bs); [done|done|]. iFrame. iIntros (w' _) "_". iApply wpt_passed.
Qed.
Lemma fresh_abort w w' L n al sh u a bs : fresh w w' L n al sh u a bs → cfg_of w' = cfg_of w.
Proof. by intros (_&_&_&_&_&_&?&_). Qed.

Lemma wpt_NullPointer w : abortOnError (cfg_of w) = false → impl_inv w ∅ ⊢ wpt (NullPointerBehavesLikeAllocate (S fuel) tid) w.
Proof.
  iIntros (Hab) "HI". iApply (wpt_allocate fuel tid 128 (λ p, _ ← Allocator.deallocate tid p; passed)); [small|done|].
  iFrame "HI". iIntros (u a bs w1 Hf) "HI Hh". iApply wpt_free_passed; [apply lookup_insert_eq|by rewrite (fresh_abort _ _ _ _ _ _ _ _ _ Hf)|].
  iFrame.
Qed.
(** The end of three tests: another size, the prefix is there, and the block is freed. *)
Lemma wpt_prefix_kept u a bs n m w :
  0 < n ≤ kMaxRequest → abortOnError (cfg_of w) = false → Z.of_nat m ≤ Z.min (a_size a) n →
  impl_inv w {[u := a]} ∗ held u a bs ⊢
  wpt (p ← Allocator.reallocate (S fuel) tid u n; ASSERT_NOT_NULL p (
       x ← io (load_list p m); ASSERT (bool_decide (x = take m bs)) (_ ← Allocator.deallocate tid p; passed))) w.
Proof.
  iIntros (Hn Hab Hm) "[HI Hh]". iDestruct (held_length with "Hh") as %Hlen.
  iApply (wpt_reallocate fuel tid u a bs n _ w {[u := a]}); [apply lookup_singleton_eq|done|done|]. iFrame "HI Hh".
  iIntros (p a2 bs2 w2 (Hc2&Hp&Ha2&Ht)) "HI Hh". iDestruct (held_length with "Hh") as %Hlen2.
  iApply (wpt_load p a2 bs2 m); [lia|]. iFrame "Hh". iIntros "Hh". iApply wpt_assert.
  - apply bool_decide_eq_true_2. apply (f_equal (take m)) in Ht. by rewrite !take_take Nat.min_l in Ht; [|lia].
  - iApply wpt_free_passed; [|by rewrite Hc2|iFrame].
    apply lookup_singleton_None in Hp. by rewrite lookup_delete_ne // lookup_insert_eq.
Qed.
Lemma wpt_Grow w : abortOnError (cfg_of w) = false → impl_inv w ∅ ⊢ wpt (GrowPreservesContents (S fuel) tid) w.
Proof.
  iIntros (Hab) "HI". iApply wpt_allocate; [small|done|]. iFrame "HI". iIntros (u a bs w1 Hf) "HI Hh".
  pose proof (fresh_abort _ _ _ _ _ _ _ _ _ Hf) as Hc. destruct Hf as (Hu&_&Ha&_&_&[Hlen _]&_).
  iApply (wpt_store _ _ bs counting); [unfold counting; rewrite length_fmap length_seq; lia|]. iFrame "Hh". iIntros "Hh".
  iApply (wpt_prefix_kept u a counting 8192 64); [small|by rewrite Hc|lia|]. iFrame.
Qed.
Lemma wpt_filled (n m : Z) (k : nat) (b : byte) w :
  0 < n ≤ kMaxRequest → 0 < m ≤ kMaxRequest → Z.of_nat k ≤ Z.min n m → abortOnError (cfg_of w) = false →
  impl_inv w ∅ ⊢ wpt (ptr ← Allocator.allocate (S fuel) tid n; ASSERT_NOT_NULL ptr (
    _ ← io (memset ptr b n);
    p ← Allocator.reallocate (S fuel) tid ptr m;
    ASSERT_NOT_NULL p (
    bs ← io (load_list p k);
    ASSERT (bool_decide (bs = replicate k b)) (_ ← Allocator.deallocate tid p; passed)))) w.
Proof.
  iIntros (Hn Hm Hk Hab) "HI". iApply wpt_allocate; [done|done|]. iFrame "HI". iIntros (u a bs w1 Hf) "HI Hh".
  pose proof (fresh_abort _ _ _ _ _ _ _ _ _ Hf) as Hc. destruct Hf as (Hu&_&Ha&_&_&[Hlen _]&_).
  iApply (wpt_memset _ _ bs b n); [done|]. iFrame "Hh". iIntros "Hh".
  assert (replicate k b = take k (replicate (Z.to_nat n) b)) as -> by (rewrite take_replicate; f_equal; lia).
  iApply (wpt_prefix_kept u a _ m k); [done|by rewrite Hc|lia|]. iFrame.
Qed.
Lemma wpt_Shrink w : abortOnError (cfg_of w) = false → impl_inv w ∅ ⊢ wpt (ShrinkPreservesPrefix (S fuel) tid) w.
Proof. intros. apply wpt_filled; [small|small|lia|done]. Qed.
Lemma wpt_CrossTier w : abortOnError (cfg_of w) = false → impl_inv w ∅ ⊢ wpt (CrossTierGrowth (S fuel) tid) w.
Proof. intros. apply wpt_filled; [small|small|lia|done]. Qed.
Lemma wpt_ZeroSize w : abortOnError (cfg_of w) = false → impl_inv w ∅ ⊢ wpt (ZeroSizeFreesPointer (S fuel) tid) w.
Proof.
  iIntros (Hab) "HI". iApply wpt_allocate; [small|done|]. iFrame "HI". iIntros (u a bs w1 Hf) "HI (%Hlen & Hu & Hg)".
  pose proof (fresh_abort _ _ _ _ _ _ _ _ _ Hf) as Hc. destruct Hf as (Hu&_&Ha&_).
  iApply wpp_bind. iApply wpp_guarded. iApply wpp_bind. iApply wpp_reallocate_zero; [done|].
  iApply (wpp_deallocate tid u a front_guard rear_guard w1 (<[u := a]> ∅)); [apply lookup_insert_eq|left; by rewrite Hc|].
  iFrame "HI Hg". iSplitL "Hu"; [rewrite -Hlen; by iApply raw_intro|]. iIntros (w2 _) "HI". iApply wpp_ret. cbn [value_or].
  iApply wpt_expect; [by left|]. rewrite freed_inv_done delete_insert_id //. iDestruct (impl_inv_idle with "HI") as %Hact.
  iApply wpt_statistics. iFrame "HI". iIntros (e) "HI". iApply wpt_expect; [left; cbn; by rewrite Hact|]. iApply wpt_passed.
Qed.

(** ** Loops that leave nothing allocated *)
Definition idle w0 w : heapPropI := ⌜cfg_of w = cfg_of w0⌝ ∗ impl_inv w ∅.
Lemma wpt_for_each {A} (xs : list A) (body : A → test → test) k w0 :
  (∀ x next w, x ∈ xs → idle w0 w ∗ (∀ w', idle w0 w' -∗ wpt next w') ⊢ wpt (body x next) w) →
  ∀ w, idle w0 w ∗ (∀ w', idle w0 w' -∗ wpt k w') ⊢ wpt (for_each xs body k) w.
Proof.
  intros Hb. induction xs as [|x xs IH]; intros w; iIntros "[HI Hk]"; cbn [for_each]; [by iApply "Hk"|].
  iApply Hb; [by left|]. iFrame "HI". iIntros (w') "HI". iApply IH; [|by iFrame]. intros y next w2 Hy. apply Hb. by right.
Qed.
Lemma wpt_loop {A} (xs : list A) (body : A → test → test) w :
  (∀ x next w', x ∈ xs → idle w w' ∗ (∀ w', idle w w' -∗ wpt next w') ⊢ wpt (body x next) w') →
  impl_inv w ∅ ⊢ wpt (for_each xs body passed) w.
Proof.
  intros Hb. iIntros "HI". iApply wpt_for_each; [exact Hb|]. iSplitL; [by iFrame|]. iIntros (w') "_". iApply wpt_passed.
Qed.
(** One round of a loop: a block is allocated, used, and freed. *)
Lemma wpt_round w0 w n (use : Z → test → test) next :
  0 < n ≤ kMaxRequest → abortOnError (cfg_of w0) = false →
  (∀ u a bs w k, a_size a = n → u ≠ 0 → u mod 16 = 0 → held u a bs ∗ (∀ bs', held u a bs' -∗ wpt k w) ⊢ wpt (use u k) w) →
  idle w0 w ∗ (∀ w', idle w0 w' -∗ wpt next w') ⊢
  wpt (ptr ← Allocator.allocate (S fuel) tid n; ASSERT_NOT_NULL ptr (use ptr (_ ← Allocator.deallocate tid ptr; next))) w.
Proof.
  iIntros (Hn Hab Huse) "[[%Hc0 HI] Hk]".
  iApply (wpt_allocate fuel tid n (λ p, use p (_ ← Allocator.deallocate tid p; next))); [done|by rewrite Hc0|]. iFrame "HI".
  iIntros (u a bs w1 Hf) "HI Hh". pose proof (fresh_abort _ _ _ _ _ _ _ _ _ Hf) as Hc. destruct Hf as (Hu&_&Ha&_&Hm&_).
  iApply Huse; [done..|]. iFrame "Hh". iIntros (bs') "Hh". iApply (wpt_free tid u a bs'); [apply lookup_insert_eq|by rewrite Hc Hc0|].
  iFrame "HI Hh". iIntros (w2 [Hc2 _]) "HI". iApply "Hk". rewrite delete_insert_id //. iFrame. iPureIntro. by rewrite Hc2 Hc.
Qed.
Lemma aligned_true u n : u mod n = 0 → isAligned u n = true.
Proof. intros Hm. unfold isAligned. by rewrite Hm. Qed.
Ltac in_list := repeat match goal with
  | H : _ ∈ [] |- _ => by apply not_elem_of_nil in H
  | H : _ ∈ _ :: _ |- _ => apply elem_of_cons in H as [->|H] end.
Lemma wpt_Default w : abortOnError (cfg_of w) = false → impl_inv w ∅ ⊢ wpt (DefaultAllocationsAreSixteenByteAligned (S fuel) tid) w.
Proof.
  intros Hab. apply wpt_loop. intros n next w' Hn. apply (wpt_round w w' n (λ p k, EXPECT (isAligned p 16) k)); [|done|].
  { in_list; small. }
  intros u a bs w1 k _ _ Hm. iIntros "[Hh Hk]". iApply wpt_expect; [left; by apply aligned_true|]. by iApply "Hk".
Qed.
Lemma wpt_Tiny w : abortOnError (cfg_of w) = false → impl_inv w ∅ ⊢ wpt (ReturnsNonNullForTinySizes (S fuel) tid) w.
Proof.
  intros Hab. apply wpt_loop. intros n next w' Hn%elem_of_zseq. apply (wpt_round w w' n (λ _ k, k)); [small|done|].
  intros. iIntros "[Hh Hk]". by iApply "Hk".
Qed.
Lemma replicate_at (n i : Z) (b : byte) : 0 ≤ i < n → replicate (Z.to_nat n) b !! Z.to_nat i = Some b.
Proof. intros Hi. apply lookup_replicate. split; [done|lia]. Qed.
Lemma wpt_load_index u a bs i b (k : byte → test) w :
  0 ≤ i → bs !! Z.to_nat i = Some b → held u a bs ∗ (held u a bs -∗ wpt (k b) w) ⊢ wpt (x ← io (load_byte (u + i)); k x) w.
Proof. intros Hi Hb. replace (u + i) with (u + Z.of_nat (Z.to_nat i)) by lia. by apply wpt_load_at. Qed.
Lemma wpt_store_index u a bs i b k w :
  0 ≤ i < Z.of_nat (length bs) → held u a bs ∗ (held u a (<[Z.to_nat i := b]> bs) -∗ wpt k w) ⊢ wpt (_ ← io (store_byte (u + i) b); k) w.
Proof. intros Hi. replace (u + i) with (u + Z.of_nat (Z.to_nat i)) by lia. apply wpt_store_at. lia. Qed.
Lemma wpt_Medium w : abortOnError (cfg_of w) = false → impl_inv w ∅ ⊢ wpt (MediumTierAllocates (S fuel) tid) w.
Proof.
  intros Hab. apply wpt_loop. intros n next w' Hn. assert (0 < n ≤ kMaxRequest) as Hb by (in_list; small).
  apply (wpt_round w w' n (λ p k, _ ← io (memset p Byte.x5a n); b ← io (load_byte (p + (n - 1))); EXPECT (bool_decide (b = Byte.x5a)) k)); [done|done|].
  intros u a bs w1 k Ha _ _. iIntros "[Hh Hk]". iApply (wpt_memset _ _ bs); [done|]. iFrame "Hh". iIntros "Hh".
  iApply (wpt_load_index _ _ (replicate (Z.to_nat n) Byte.x5a) (n - 1) Byte.x5a); [lia|apply replicate_at; lia|]. iFrame "Hh". iIntros "Hh".
  iApply wpt_expect; [by left|]. by iApply "Hk".
Qed.
Lemma wpt_Writable w : abortOnError (cfg_of w) = false → impl_inv w ∅ ⊢ wpt (MemoryIsWritable (S fuel) tid) w.
Proof.
  intros Hab. apply wpt_loop. intros n next w' Hn. assert (0 < n ≤ kMaxRequest) as Hb by (in_list; small).
  apply (wpt_round w w' n (λ p k, _ ← io (memset p Byte.xab n); b ← io (load_byte (p + 0)); EXPECT (bool_decide (b = Byte.xab)) (
    b ← io (load_byte (p + (n - 1))); EXPECT (bool_decide (b = Byte.xab)) k))); [done|done|].
  intros u a bs w1 k Ha _ _. iIntros "[Hh Hk]". iApply (wpt_memset _ _ bs); [done|]. iFrame "Hh". iIntros "Hh".
  iApply (wpt_load_index _ _ (replicate (Z.to_nat n) Byte.xab) 0 Byte.xab); [lia|apply replicate_at; lia|]. iFrame "Hh". iIntros "Hh". iApply wpt_expect; [by left|].
  iApply (wpt_load_index _ _ (replicate (Z.to_nat n) Byte.xab) (n - 1) Byte.xab); [lia|apply replicate_at; lia|]. iFrame "Hh". iIntros "Hh".
  iApply wpt_expect; [by left|]. by iApply "Hk".
Qed.
Lemma wpt_Large w : abortOnError (cfg_of w) = false → impl_inv w ∅ ⊢ wpt (LargeTierAllocates (S fuel) tid) w.
Proof.
  intros Hab. apply wpt_loop. intros n next w' Hn. assert (1 < n ≤ kMaxRequest) as Hb by (in_list; small).
  apply (wpt_round w w' n (λ p k, _ ← io (store_byte (p + 0) Byte.x01); _ ← io (store_byte (p + (n - 1)) Byte.x02);
    b ← io (load_byte (p + 0)); EXPECT (bool_decide (b = Byte.x01)) (b ← io (load_byte (p + (n - 1))); EXPECT (bool_decide (b = Byte.x02)) k)));
    [lia|done|].
  intros u a bs w1 k Ha _ _. iIntros "[Hh Hk]". iDestruct (held_length with "Hh") as %Hlen.
  iApply (wpt_store_index _ _ bs 0); [lia|]. iFrame "Hh". iIntros "Hh".
  iApply (wpt_store_index _ _ (<[Z.to_nat 0:=Byte.x01]> bs) (n - 1)); [rewrite length_insert; lia|]. iFrame "Hh". iIntros "Hh".
  iApply (wpt_load_index _ _ (<[Z.to_nat (n - 1):=Byte.x02]> (<[Z.to_nat 0:=Byte.x01]> bs)) 0 Byte.x01); [lia| |].
  { rewrite list_lookup_insert_ne; [|lia]. rewrite list_lookup_insert_eq; [done|lia]. }
  iFrame "Hh". iIntros "Hh". iApply wpt_expect; [by left|].
  iApply (wpt_load_index _ _ (<[Z.to_nat (n - 1):=Byte.x02]> (<[Z.to_nat 0:=Byte.x01]> bs)) (n - 1) Byte.x02); [lia|rewrite list_lookup_insert_eq // length_insert; lia|].
  iFrame "Hh". iIntros "Hh". iApply wpt_expect; [by left|]. by iApply "Hk".
Qed.
Lemma wpt_AlignedLoop w : abortOnError (cfg_of w) = false → impl_inv w ∅ ⊢ wpt (AlignedAllocateHonorsAlignment (S fuel) tid) w.
Proof.
  intros Hab. apply wpt_loop. intros al next w' Hn. iIntros "[[%Hc0 HI] Hk]".
  assert (valid_alignment al) as Hal by (in_list; [by exists 5|by exists 6|by exists 7|by exists 12|by exists 16]).
  iApply wpt_aligned; [done|small|by rewrite Hc0|]. iFrame "HI". iIntros (u a bs w1 sh Hf) "HI Hh".
  pose proof (fresh_abort _ _ _ _ _ _ _ _ _ Hf) as Hc. destruct Hf as (Hu&_&Ha&_&Hm&_).
  iApply wpt_expect; [left; by apply aligned_true|]. iApply (wpt_memset _ _ bs _ 256); [done|]. iFrame "Hh". iIntros "Hh".
  iApply (wpt_free tid u a); [apply lookup_insert_eq|by rewrite Hc Hc0|]. iFrame "HI Hh". iIntros (w2 [Hc2 _]) "HI".
  iApply "Hk". rewrite delete_insert_id //. iFrame. iPureIntro. by rewrite Hc2 Hc.
Qed.
Lemma wpt_AlignedSize w : abortOnError (cfg_of w) = false → impl_inv w ∅ ⊢ wpt (AlignedAllocationSizeIsPreserved (S fuel) tid) w.
Proof.
  iIntros (Hab) "HI". iApply wpt_aligned; [by exists 8|small|done|]. iFrame "HI". iIntros (u a bs w1 sh Hf) "HI Hh".
  pose proof (fresh_abort _ _ _ _ _ _ _ _ _ Hf) as Hc. destruct Hf as (Hu&_&Ha&_).
  iApply (wpt_size u a); [apply lookup_insert_eq|]. iFrame "HI". iIntros "HI". iApply wpt_expect; [left; by rewrite Ha|].
  iApply wpt_free_passed; [apply lookup_insert_eq|by rewrite Hc|iFrame].
Qed.
Lemma wpt_SmallAlignment w : abortOnError (cfg_of w) = false → impl_inv w ∅ ⊢ wpt (SmallAlignmentFallsBackToRegularPath (S fuel) tid) w.
Proof.
  iIntros (Hab) "HI". iApply wpt_aligned; [by exists 3|small|done|]. iFrame "HI". iIntros (u a bs w1 sh Hf) "HI Hh".
  pose proof (fresh_abort _ _ _ _ _ _ _ _ _ Hf) as Hc. destruct Hf as (Hu&_&Ha&_&Hm&_).
  iApply wpt_expect; [left; by apply aligned_true|]. iApply wpt_free_passed; [apply lookup_insert_eq|by rewrite Hc|iFrame].
Qed.
Lemma wpt_rejected al w :
  in64 al → ¬ valid_alignment al → abortOnError (cfg_of w) = false → impl_inv w ∅ ⊢ wpt (alignment_rejected (S fuel) tid al) w.
Proof.
  iIntros (Hin Hal Hab) "HI". iApply wpp_bind. iApply wpp_guarded. iApply wpp_alignedAllocate; [by vm_compute|done|done|].
  iFrame "HI". iIntros (r w') "[[(_ & -> & _) _]|[%Hv _]]"; [|done]. iApply wpt_expect; [by left|]. iApply wpt_passed.
Qed.
Lemma not_alignment_48_0 : ¬ valid_alignment 48 ∧ ¬ valid_alignment 0.
Proof.
  split; intros Hv; apply alignment_check in Hv; by vm_compute in Hv.
Qed.
Lemma wpt_Overflow w : abortOnError (cfg_of w) = false → impl_inv w ∅ ⊢ wpt (SizeOverflowIsRejected (S fuel) tid) w.
Proof.
  iIntros (Hab) "HI". iApply wpp_bind. iApply wpp_guarded. iApply wpp_allocate; [by vm_compute|done|].
  iFrame "HI". iIntros ([u|e] w') "H"; cbn [alloc_post].
  - iDestruct "H" as (a bs (_&Hwf&Hsz&_)) "_". destruct Hwf as (_&[_ Hle]&_). rewrite Hsz in Hle. by vm_compute in Hle.
  - iDestruct "H" as "[[%He _] _]". destruct He as [[-> _]|(_&Hle&_)]; [|by vm_compute in Hle].
    iApply wpt_expect; [by left|]. iApply wpt_passed.
Qed.
(** [allocationSize] of a block just allocated. *)
Lemma wpt_size_reported n w :
  0 < n ≤ kMaxRequest → abortOnError (cfg_of w) = false →
  impl_inv w ∅ ⊢ wpt (ptr ← Allocator.allocate (S fuel) tid n; ASSERT_NOT_NULL ptr (
    k ← Allocator.allocationSize ptr; EXPECT (k =? n) (_ ← Allocator.deallocate tid ptr; passed))) w.
Proof.
  iIntros (Hn Hab) "HI". iApply wpt_allocate; [done|done|]. iFrame "HI". iIntros (u a bs w1 Hf) "HI Hh".
  pose proof (fresh_abort _ _ _ _ _ _ _ _ _ Hf) as Hc. destruct Hf as (Hu&_&Ha&_).
  iApply (wpt_size u a); [apply lookup_insert_eq|]. iFrame "HI". iIntros "HI". iApply wpt_expect; [left; rewrite Ha; by apply Z.eqb_eq|].
  iApply wpt_free_passed; [apply lookup_insert_eq|by rewrite Hc|iFrame].
Qed.
Lemma wpt_SizeMatches w : abortOnError (cfg_of w) = false → impl_inv w ∅ ⊢ wpt (AllocationSizeMatchesRequest (S fuel) tid) w.
Proof. intros. apply wpt_size_reported; [small|done]. Qed.
Lemma wpt_SizeReports w : abortOnError (cfg_of w) = false → impl_inv w ∅ ⊢ wpt (AllocationSizeReportsRequest (S fuel) tid) w.
Proof. intros. apply wpt_size_reported; [small|done]. Qed.
Lemma wpt_ZeroRequest w : abortOnError (cfg_of w) = false → impl_inv w ∅ ⊢ wpt (ZeroSizeYieldsValidPointer (S fuel) tid) w.
Proof.
  iIntros (Hab) "HI". iApply (wpt_allocate fuel tid 1 (λ p, _ ← Allocator.deallocate tid p; passed)); [small|done|]. iFrame "HI".
  iIntros (u a bs w1 Hf) "HI Hh". iApply wpt_free_passed; [apply lookup_insert_eq|by rewrite (fresh_abort _ _ _ _ _ _ _ _ _ Hf)|iFrame].
Qed.
Lemma wpt_Try w : abortOnError (cfg_of w) = false → impl_inv w ∅ ⊢ wpt (TryAllocateSucceeds (S fuel) tid) w.
Proof.
  iIntros (Hab) "HI". iApply wpp_bind. iApply wpp_guarded. iApply wpp_allocate; [by vm_compute|done|]. iFrame "HI". iIntros (r w1) "H".
  iDestruct (alloc_post_fresh with "H") as "[[(%e & -> & %Hr & _) _]|(%u & %a & %bs & [-> %Hf] & HI & Hh)]"; [by vm_compute|by iApply wpt_stop|].
  pose proof (fresh_abort _ _ _ _ _ _ _ _ _ Hf) as Hc. destruct Hf as (Hu&_).
  iApply wpt_assert; [by rewrite (proj2 (Z.eqb_neq u 0))|]. iApply wpt_free_passed; [apply lookup_insert_eq|by rewrite Hc|iFrame].
Qed.

(** ** Many blocks at a time *)
(** The blocks of a list, all of them live. *)
Definition coexist w0 w (blocks : list Z) : heapPropI :=
  ∃ L, ⌜cfg_of w = cfg_of w0 ∧ NoDup blocks ∧ ∀ u, u ∈ blocks ↔ is_Some (L !! u)⌝ ∗ impl_inv w L ∗ [∗ map] u ↦ a ∈ L, ∃ bs, held u a bs.
Lemma wpt_coexisting n k blocks (next : list Z → test) w0 w :
  0 < n ≤ kMaxRequest → abortOnError (cfg_of w0) = false →
  coexist w0 w blocks ∗ (∀ blocks' w', coexist w0 w' blocks' -∗ wpt (next blocks') w') ⊢
  wpt (coexisting (S fuel) tid k n blocks next) w.
Proof.
  intros Hn Hab. revert blocks w. induction k as [|k IH]; intros blocks w; iIntros "[H Hk]"; cbn [coexisting]; [by iApply "Hk"|].
  iDestruct "H" as (L (Hc0&Hnd&Hdom)) "[HI HL]". iApply (wpt_allocate fuel tid n (λ p, coexisting (S fuel) tid k n (blocks ++ [p]) next) w L); [done|by rewrite Hc0|].
  iFrame "HI". iIntros (u a bs w1 Hf) "HI Hh". pose proof (fresh_abort _ _ _ _ _ _ _ _ _ Hf) as Hc. destruct Hf as (Hu&Hnone&_).
  iApply IH. iFrame "Hk". iExists (<[u := a]> L). iFrame "HI". rewrite big_sepM_insert //. iFrame "HL". iSplit; [|by iExists bs].
  iPureIntro. split_and!; [by rewrite Hc| |].
  - apply NoDup_app. split_and!; [done| |apply NoDup_singleton]. intros v Hv ->%list_elem_of_singleton. apply Hdom in Hv as [? ?]. congruence.
  - intros v. rewrite elem_of_app Hdom list_elem_of_singleton lookup_insert_is_Some'. naive_solver.
Qed.
Lemma wpt_free_all blocks k w0 w :
  abortOnError (cfg_of w0) = false → coexist w0 w blocks ∗ (∀ w', idle w0 w' -∗ wpt k w') ⊢ wpt (free_all tid blocks k) w.
Proof.
  intros Hab. revert w. induction blocks as [|u blocks IH]; intros w; iIntros "[(%L & (%Hc0 & %Hnd & %Hdom) & HI & HL) Hk]"; unfold free_all; cbn [for_each].
  - iApply "Hk". iSplit; [done|]. assert (L = ∅) as ->; [|done]. apply map_empty. intros v. apply eq_None_not_Some. intros Hv.
    apply Hdom in Hv. by apply not_elem_of_nil in Hv.
  - apply NoDup_cons in Hnd as [Hu Hnd]. destruct (proj1 (Hdom u)) as [a Ha]; [by left|].
    rewrite (big_sepM_delete _ L u a) //. iDestruct "HL" as "[(%bs & Hh) HL]".
    iApply (wpt_free tid u a bs); [done|by rewrite Hc0|]. iFrame "HI Hh". iIntros (w1 [Hc1 _]) "HI". iApply IH. iFrame "Hk".
    iExists (delete u L). iFrame. iPureIntro. split_and!; [by rewrite Hc1|done|]. intros v. rewrite lookup_delete_is_Some -Hdom elem_of_cons.
    naive_solver.
Qed.
Lemma coexist_none w : impl_inv w ∅ ⊢ coexist w w [].
Proof.
  iIntros "HI". iExists ∅. iFrame. rewrite big_sepM_empty. iPureIntro. split_and!; [done|constructor| |done].
  intros u. rewrite lookup_empty. split; [by intros ?%not_elem_of_nil|by intros []].
Qed.
Lemma wpt_ManyLarge w : abortOnError (cfg_of w) = false → impl_inv w ∅ ⊢ wpt (ManyLargeBlocksCoexist (S fuel) tid) w.
Proof.
  iIntros (Hab) "HI". iApply (wpt_coexisting _ 16 _ _ w); [small|done|]. iSplitL; [by iApply coexist_none|]. iIntros (bs w1) "H".
  iApply wpt_free_all; [done|]. iFrame "H". iIntros (w2) "_". iApply wpt_passed.
Qed.
Lemma wpt_Distinct w : abortOnError (cfg_of w) = false → impl_inv w ∅ ⊢ wpt (PointersAreDistinct (S fuel) tid) w.
Proof.
  iIntros (Hab) "HI". unfold PointersAreDistinct. generalize 1000%nat as k. intros k. iApply (wpt_coexisting _ k _ _ w); [small|done|].
  iSplitL; [by iApply coexist_none|]. iIntros (bs w1) "H". iAssert ⌜NoDup bs⌝%I as %Hnd.
  { by iDestruct "H" as (L (_&?&_)) "_". }
  iApply wpt_assert; [by apply bool_decide_eq_true_2|]. iApply wpt_free_all; [done|]. iFrame "H". iIntros (w2) "_". iApply wpt_passed.
Qed.

Lemma wpt_LargerOne w : abortOnError (cfg_of w) = false → impl_inv w ∅ ⊢ wpt (CoalescingAllowsLargeReallocationAfterFrees (S fuel) tid) w.
Proof.
  iIntros (Hab) "HI". unfold CoalescingAllowsLargeReallocationAfterFrees. generalize 64%nat as k. intros k. iApply (wpt_coexisting _ k _ _ w); [small|done|].
  iSplitL; [by iApply coexist_none|]. iIntros (bs w1) "H". iApply wpt_free_all; [done|]. iFrame "H". iIntros (w2) "H".
  iApply (wpt_round w w2 (200 * 1024) (λ _ k, k)); [small|done| |].
  - intros. iIntros "[Hh Hk]". by iApply "Hk".
  - iFrame "H". iIntros (w3) "_". iApply wpt_passed.
Qed.

(** ** Diagnostics *)
Lemma wpt_tryDeallocate u (k : expected () → test) w L :
  u ≠ 0 → enableLeakTracking (cfg_of w) = true → L !! u = None → abortOnError (cfg_of w) = false →
  impl_inv w L ∗ (impl_inv w L -∗ wpt (k (inr (untracked_error w u))) (add_report w (untracked_error w u) u)) ⊢
  wpt (r ← Allocator.tryDeallocate tid u; k r) w.
Proof.
  iIntros (????) "[HI Hk]". iApply wpp_bind. iApply wpp_guarded. iApply (wpp_deallocate_untracked tid u w L); [done..|].
  iFrame "HI". iIntros "HI". by iApply "Hk".
Qed.
(** What the handler recorded: the newest report comes last. *)
Lemma recorded_reports w rs : reports w = rs → recorded (owning w) = r_error <$> rev (filter (λ r, r_handled r = true) rs).
Proof. by intros <-. Qed.
(** The state once a block has come and gone. *)
Lemma came_and_went w w1 w2 u n a :
  allocated w w1 u n (a_reserved a) → deallocated w1 w2 u a front_guard rear_guard →
  cfg_of w2 = cfg_of w ∧ reports w2 = reports w ∧ (enableLeakTracking (cfg_of w) = true → untracked_error w2 u = DoubleFree).
Proof.
  intros (Hc1&_&_&_&Hr1) (Hc2&_&Hd2&_&Hr2). unfold warned in Hr2. rewrite untampered in Hr2.
  split_and!; [by rewrite Hc2|by rewrite Hr2|]. intros Hlk. unfold untracked_error. rewrite Hd2. unfold free_debug.
  rewrite Hc1 Hlk. cbn [freed_]. rewrite bool_decide_eq_true_2 //. set_solver.
Qed.
Lemma wpt_DoubleFree w : cfg_of w = custom_config → reports w = [] → impl_inv w ∅ ⊢ wpt (DoubleFreeIsDetected (S fuel) tid) w.
Proof.
  iIntros (Hc Hr) "HI". iApply wpt_allocate; [small|by rewrite Hc|]. iFrame "HI". iIntros (u a bs w1 Hf) "HI Hh".
  pose proof (fresh_abort _ _ _ _ _ _ _ _ _ Hf) as Hc1. destruct Hf as (Hu&_&_&_&_&_&Hall).
  iApply (wpt_free tid u a bs); [apply lookup_insert_eq|by rewrite Hc1 Hc|]. iFrame "HI Hh". iIntros (w2 Hd) "HI".
  destruct (came_and_went w w1 w2 u 64 a Hall Hd) as (Hc2&Hr2&Hdf). rewrite Hc in Hc2 Hdf. rewrite delete_insert_id //.
  iApply wpt_tryDeallocate; [done|by rewrite Hc2|apply lookup_empty|by rewrite Hc2|]. iFrame "HI". iIntros "_".
  rewrite Hdf //. iApply wpt_expect; [by left|]. iApply wpt_recorded.
  rewrite (recorded_reports _ [MkReport DoubleFree u true]); [|cbn [reports add_report set_reports]; by rewrite Hr2 Hr Hc2].
  iApply wpt_assert; [done|]. iApply wpt_expect; [by left|]. iApply wpt_passed.
Qed.
Lemma wpt_Invalid local w :
  local ≠ 0 → cfg_of w = custom_config → freed_ (AllocatorImpl.debug_ w) = ∅ →
  impl_inv w ∅ ⊢ wpt (InvalidPointerIsDetected tid local) w.
Proof.
  iIntros (Hl Hc Hd) "HI". iApply wpt_tryDeallocate; [done|by rewrite Hc|apply lookup_empty|by rewrite Hc|]. iFrame "HI". iIntros "_".
  assert (untracked_error w local = InvalidPointer) as ->.
  { unfold untracked_error. by rewrite Hd bool_decide_eq_false_2. }
  iApply wpt_expect; [by left|]. iApply wpt_passed.
Qed.
(** The same block, freed twice, where nothing is tracked. *)
Lemma wpt_DoubleFreeWithoutTracking w :
  cfg_of w = untracked_config → impl_inv w ∅ ⊢ wpt (DoubleFreeWithoutTrackingIsDetected (S fuel) tid) w.
Proof.
  iIntros (Hc) "HI". iApply wpt_allocate; [small|by rewrite Hc|]. iFrame "HI". iIntros (u a bs w1 Hf) "HI (%Hlen & Hu & _)".
  pose proof (fresh_abort _ _ _ _ _ _ _ _ _ Hf) as Hc1. rewrite Hc in Hc1. destruct Hf as (Hu&_&Ha&Hsh&_). rewrite Hc in Hsh.
  iApply wpp_bind. iApply wpp_guarded. iApply wpp_bind. iApply (wpp_wand with "[HI Hu]").
  - iApply (wpp_deallocate_twice tid tid u a w1 _ (λ r _, ⌜r = inr DoubleFree⌝)%I);
      [apply lookup_insert_eq|done|rewrite Ha; by vm_compute|by rewrite Hc1|by rewrite Hc1|].
    iFrame "HI". iSplitL; [rewrite -Hlen; by iApply raw_intro|]. by iIntros.
  - iIntros (r w2) "H". iApply wpp_ret. iApply wpp_bind. iApply wpp_guarded. iApply (wpp_wand with "H"). iIntros (r' w3) "->".
    iApply wpt_expect; [by left|]. iApply wpt_passed.
Qed.
Lemma wpt_GuardCorruption w : cfg_of w = custom_config → reports w = [] → impl_inv w ∅ ⊢ wpt (GuardCorruptionIsDetected (S fuel) tid) w.
Proof.
  iIntros (Hc Hr) "HI". iApply wpt_allocate; [small|by rewrite Hc|]. iFrame "HI". iIntros (u a bs w1 Hf) "HI (%Hlen & Hu & Hg)".
  destruct Hf as (Hu&_&Ha&Hsh&_&_&(Hc1&_&_&_&Hr1)). rewrite Hc in Hc1 Hsh. rewrite Hr in Hr1.
  unfold guard_res at 1. rewrite Hsh Ha. iDestruct "Hg" as "(_ & Hfront & Hrear)".
  iDestruct (bytes_at_insert (u + 32) rear_guard 0 kGuardPattern with "Hrear") as "[Hb Hrear]"; [done|].
  iApply wpp_bind. iApply wpp_io. replace (u + 32 + Z.of_nat 0) with (u + 32) by lia. iApply wp_store_byte. iFrame "Hb". iIntros "Hb".
  iDestruct ("Hrear" with "Hb") as "Hrear". set (rear := <[0%nat := Byte.xff]> rear_guard).
  iApply wpp_bind. iApply (wpp_handle_deallocate tid u a front_guard rear w1 (<[u := a]> ∅)); [apply lookup_insert_eq|by rewrite Hc1|].
  iFrame "HI". iSplitL "Hu"; [rewrite -Hlen; by iApply raw_intro|]. unfold guard_res. rewrite Hsh Ha. iFrame "Hfront Hrear".
  iSplit; [done|]. iIntros (w2 (_&_&_&_&Hr2)) "_". iApply wpt_recorded.
  rewrite (recorded_reports _ [MkReport HeapCorruption u true]).
  - iApply wpt_assert; [done|]. iApply wpt_expect; [by left|]. iApply wpt_passed.
  - rewrite Hr2. unfold warned, tampered. rewrite Hc1 Hsh. unfold add_report. cbn [reports set_reports]. by rewrite Hc1 Hr1.
Qed.
Lemma wpt_Poison w : cfg_of w = poison_config → impl_inv w ∅ ⊢ wpt (PoisonPatternIsAppliedOnAllocation (S fuel) tid) w.
Proof.
  iIntros (Hc) "HI". iApply wpt_allocate; [small|by rewrite Hc|]. iFrame "HI". iIntros (u a bs w1 Hf) "HI Hh".
  pose proof (fresh_abort _ _ _ _ _ _ _ _ _ Hf) as Hc1. destruct Hf as (Hu&_&Ha&_&_&[Hlen Hp]&_).
  rewrite Hc in Hp. specialize (Hp eq_refl). iApply (wpt_load u a bs 64); [lia|]. iFrame "Hh". iIntros "Hh".
  iApply wpt_assert; [apply bool_decide_eq_true_2; by rewrite Hp|].
  iApply wpt_free_passed; [apply lookup_insert_eq|by rewrite Hc1 Hc|iFrame].
Qed.
Lemma wpt_NullDeallocate w : reports w = [] → impl_inv w ∅ ⊢ wpt (NullDeallocateIsNoOp tid) w.
Proof.
  iIntros (Hr) "HI". iApply wpp_bind. iApply wpp_guarded. iApply wpp_bind. iApply wpp_deallocate_null. iFrame "HI". iIntros "_".
  iApply wpp_ret. iApply wpt_recorded. rewrite (recorded_reports _ [] Hr). iApply wpt_expect; [by left|]. iApply wpt_passed.
Qed.

(** ** Leaks: pointers that may be null *)
Definition slot L u : Prop := u = 0 ∨ is_Some (L !! u).
Lemma wpt_count n k w L :
  enableLeakTracking (cfg_of w) = true → Z.of_nat (size L) = n ∨ os_refused →
  serves w L ∗ (serves w L -∗ wpt k w) ⊢ wpt (c ← Allocator.liveAllocationCount; EXPECT (c =? n) k) w.
Proof.
  iIntros (Hlk Hn) "[H Hk]". iApply wpp_bind. iApply wpp_serves_count. iFrame "H". iIntros "H". rewrite Hlk.
  iApply wpt_expect; [|by iApply "Hk"]. destruct Hn as [->|?]; [left; apply Z.eqb_refl|by right].
Qed.
Lemma wpt_take n (k : Z → test) w L :
  0 < n ≤ kMaxRequest → abortOnError (cfg_of w) = false →
  serves w L ∗ (∀ u w' L', ⌜cfg_of w' = cfg_of w ∧ slot L' u ∧ (∀ v, slot L v → slot L' v ∧ (v = u → u = 0)) ∧
      (os_refused ∨ (u ≠ 0 ∧ size L' = S (size L)))⌝ -∗ serves w' L' -∗ wpt (k u) w') ⊢
  wpt (p ← Allocator.allocate (S fuel) tid n; k p) w.
Proof.
  iIntros (Hn Hab) "[H Hk]". destruct (request_ok n Hn) as [Hin Hreq]. iApply wpp_bind.
  iApply (wpp_serves_allocate fuel tid n w L); [done|done|]. iFrame "H". rewrite Hreq. iIntros (u w') "[[[%Hu %He] H]|(%a & %Hp & H)]".
  - destruct He as (e&He&Hc&_). subst u. iApply ("Hk" with "[%] H"). split_and!; [done|by left|by intros v Hv|].
    left. destruct He as [[_ ?]|(_&_&?)]; [lia|done].
  - destruct Hp as (Hu&Hnone&_&_&Hc&_). iApply ("Hk" with "[%] H"). split_and!; [done|right; by rewrite lookup_insert_eq| |].
    + intros v [->|Hv]; [split; [by left|done]|]. split; [right; apply lookup_insert_is_Some'; by right|].
      intros ->. rewrite Hnone in Hv. by destruct Hv.
    + right. split; [done|]. by apply map_size_insert_None.
Qed.
Lemma wpt_give u k w L :
  slot L u → abortOnError (cfg_of w) = false →
  serves w L ∗ (∀ w' L', ⌜cfg_of w' = cfg_of w ∧ (∀ v, slot L v → (v = u → u = 0) → slot L' v) ∧ (u ≠ 0 → S (size L') = size L)⌝ -∗
      serves w' L' -∗ wpt k w') ⊢
  wpt (_ ← Allocator.deallocate tid u; k) w.
Proof.
  iIntros (Hu Hab) "[H Hk]". iApply wpp_bind. destruct (decide (u = 0)) as [->|Hu0].
  { iApply wpp_serves_null. iFrame "H". iIntros "H". by iApply ("Hk" with "[%] H"). }
  destruct Hu as [?|[a Ha]]; [done|]. iApply (wpp_serves_deallocate tid u a w L); [done|done|]. iFrame "H". iIntros (w' [Hc _]) "H".
  iApply ("Hk" with "[%] H"). split_and!; [done| |].
  - intros v [->|Hv] Hvu; [by left|]. right. rewrite lookup_delete_ne //. naive_solver.
  - intros _. rewrite map_size_delete_Some; [|by exists a].
    assert (size L ≠ 0)%nat; [|lia]. intros H0%map_size_empty_inv. subst L. by rewrite lookup_empty in Ha.
Qed.
Lemma wpt_LeakTracking w : cfg_of w = debug → serves w ∅ ⊢ wpt (LeakTrackingCountsLiveAllocations (S fuel) tid) w.
Proof.
  iIntros (Hc) "H". iApply (wpt_count _ _ _ ∅); [by rewrite Hc|left; by rewrite map_size_empty|]. iFrame "H". iIntros "H".
  iApply wpt_take; [small|by rewrite Hc|]. iFrame "H". iIntros (u w1 L1 (Hc1&Hu&_&Hs1)) "H". rewrite Hc in Hc1.
  iApply wpt_take; [small|by rewrite Hc1|]. iFrame "H". iIntros (v w2 L2 (Hc2&Hv&Hkeep&Hs2)) "H". rewrite Hc1 in Hc2.
  destruct (Hkeep u Hu) as [Hu2 Huv].
  assert (os_refused ∨ (size L2 = 2%nat ∧ u ≠ 0 ∧ v ≠ 0)) as Hs.
  { destruct Hs1 as [?|[? Hs1]]; [by left|]. destruct Hs2 as [?|[? Hs2]]; [by left|]. right. by rewrite Hs2 Hs1. }
  iApply (wpt_count _ _ _ L2); [by rewrite Hc2|destruct Hs as [?|[-> _]]; [by right|by left]|]. iFrame "H". iIntros "H".
  iApply (wpt_give u); [done|by rewrite Hc2|]. iFrame "H". iIntros (w3 L3 (Hc3&Hkeep3&Hs3)) "H". rewrite Hc2 in Hc3.
  iApply (wpt_count _ _ _ L3); [by rewrite Hc3|destruct Hs as [?|(Hs&Hu0&_)]; [by right|left; specialize (Hs3 Hu0); lia]|]. iFrame "H". iIntros "H".
  iApply (wpt_give v); [apply Hkeep3; [done|naive_solver]|by rewrite Hc3|]. iFrame "H". iIntros (w4 L4 (Hc4&_&Hs4)) "H". rewrite Hc3 in Hc4.
  iApply (wpt_count _ _ _ L4); [by rewrite Hc4|destruct Hs as [?|(Hs&Hu0&Hv0)]; [by right|left; specialize (Hs3 Hu0); specialize (Hs4 Hv0); lia]|].
  iFrame "H". iIntros "_". iApply wpt_passed.
Qed.
End proofs.
