(* ===== verification/TestSuite.v ===== *)
(** The suite of unit tests: each test with the configuration of its allocator, and the
    theorem that on every system every test passes unless the system refuses memory, and
    gives back what its allocator mapped. *)

From stdpp Require Import gmap.
From iris.proofmode Require Import proofmode.
From S2P Require Import Prelude.
From S2P Require Import HeapProp.
From S2P Require Import Memory.
From S2P Require Import Platform.
From S2P Require Import Logic.
From S2P Require Import Prog.
From S2P Require Import Config.
From S2P Require Import DebugLayer.
From S2P Require Import ThreadCache.
From S2P Require Import AllocatorImpl.
From S2P Require Import AllocatorInv.
From S2P Require Import Allocate.
From S2P Require Import Allocator.
From S2P Require Import Facade.
From S2P Require Import ExamplePrograms.
From S2P Require Import Serving.
From S2P Require Import Mappings.
From S2P Require Import Lifetime.
From S2P Require Import TestRules.
From S2P Require Import UnitTests.

Open Scope Z_scope.

(** ** What the tests map *)
Section accounting.
Context `{HOS : !OS, HL : !OSLaws} (fuel : nat) (tid : Z).

Lemma accounted_ASSERT b k : accounted handle_regions k → accounted handle_regions (ASSERT b k).
Proof. destruct b; [done|]. intros _. apply accounted_ret. Qed.
Lemma accounted_EXPECT b k : accounted handle_regions k → accounted handle_regions (EXPECT b k).
Proof. intros Hk. apply accounted_bind; [done|]. intros r. apply accounted_ret. Qed.
Lemma accounted_for_each {A} (xs : list A) body k :
  (∀ x next, accounted handle_regions next → accounted handle_regions (body x next)) →
  accounted handle_regions k → accounted handle_regions (for_each xs body k).
Proof. intros Hb Hk. induction xs as [|x xs IH]; cbn [for_each]; [done|]. by apply Hb. Qed.
Ltac head t := lazymatch t with ?f _ => head f | _ => t end.
Lemma accounted_passed : accounted handle_regions passed.
Proof. apply accounted_ret. Qed.
#[local] Hint Resolve accounted_passed : accounts.
Ltac checked := repeat (intros; match goal with
  | |- accounted _ (mbind _ _) => apply accounted_bind
  | |- accounted _ (ASSERT_NOT_NULL _ _) => apply accounted_ASSERT
  | |- accounted _ (ASSERT _ _) => apply accounted_ASSERT
  | |- accounted _ (EXPECT _ _) => apply accounted_EXPECT
  | |- accounted _ (for_each _ _ _) => apply accounted_for_each
  | |- accounted _ (match ?x with _ => _ end) => destruct x
  end); auto 10 with accounts.
Lemma accounted_coexisting k n blocks next :
  (∀ blocks, accounted handle_regions (next blocks)) → accounted handle_regions (coexisting fuel tid k n blocks next).
Proof. intros Hn. revert blocks. induction k as [|k IH]; intros blocks; cbn [coexisting]; checked. Qed.

#[local] Hint Extern 1 (accounted _ (coexisting _ _ _ _ _ _)) => (apply accounted_coexisting; checked) : accounts.

(** The suite; [local] is the address of the local variable of one test. *)
Definition suite (local : Z) : list (AllocatorConfig * test) :=
  ((λ t, (AllocatorConfig_default, t)) <$>
   [NullPointerBehavesLikeAllocate fuel tid; GrowPreservesContents fuel tid; ShrinkPreservesPrefix fuel tid;
    ZeroSizeFreesPointer fuel tid; CrossTierGrowth fuel tid;
    DefaultAllocationsAreSixteenByteAligned fuel tid; AlignedAllocateHonorsAlignment fuel tid;
    AlignedAllocationSizeIsPreserved fuel tid; NonPowerOfTwoAlignmentIsRejected fuel tid;
    ZeroAlignmentIsRejected fuel tid; SmallAlignmentFallsBackToRegularPath fuel tid;
    MediumTierAllocates fuel tid; LargeTierAllocates fuel tid; SizeOverflowIsRejected fuel tid;
    AllocationSizeMatchesRequest fuel tid; ManyLargeBlocksCoexist fuel tid;
    ReturnsNonNullForTinySizes fuel tid; ZeroSizeYieldsValidPointer fuel tid; PointersAreDistinct fuel tid;
    MemoryIsWritable fuel tid; AllocationSizeReportsRequest fuel tid; TryAllocateSucceeds fuel tid]) ++
  [(custom_config, DoubleFreeIsDetected fuel tid);
   (custom_config, InvalidPointerIsDetected tid local);
   (untracked_config, DoubleFreeWithoutTrackingIsDetected fuel tid);
   (custom_config, GuardCorruptionIsDetected fuel tid);
   (poison_config, PoisonPatternIsAppliedOnAllocation fuel tid);
   (uncached_config, CoalescingAllowsLargeReallocationAfterFrees fuel tid);
   (debug, LeakTrackingCountsLiveAllocations fuel tid);
   (custom_config, NullDeallocateIsNoOp tid)].
Lemma accounted_suite local : Forall (λ ct, accounted handle_regions ct.2) (suite local).
Proof.
  unfold suite. rewrite Forall_app Forall_fmap. split; repeat (apply Forall_cons; split); try apply Forall_nil_2; cbn [compose snd].
  all: match goal with |- accounted _ ?t => let h := head t in unfold h end.
  all: unfold alignment_rejected, free_all; checked.
Qed.
End accounting.

(** ** The theorem *)
Section theorem.
Context `{HOS : !OS, HL : !OSLaws} (self : Z) (tls : gmap Z ThreadCache) (throws : Z → bool).
Hypothesis tls_fresh : ∀ tid t, tls !! tid = Some t → ThreadCache.central_ t ≠ self.

(** A test that must pass on a fresh allocator. *)
Definition sound (ct : AllocatorConfig * test) : Prop :=
  let w := AllocatorImpl_init ct.1 self tls throws (λ _, false) in serves w ∅ ⊢ wpt ct.2 w.
Lemma sound_default (t : test) :
  (∀ w, abortOnError (cfg_of w) = false → impl_inv w ∅ ⊢ wpt t w) → sound (AllocatorConfig_default, t).
Proof. intros Ht. unfold sound, serves. iIntros "[H _]". by iApply Ht. Qed.
Lemma sound_idle cfg (t : test) :
  (let w := AllocatorImpl_init cfg self tls throws (λ _, false) in impl_inv w ∅ ⊢ wpt t w) → sound (cfg, t).
Proof. intros Ht. unfold sound, serves. iIntros "[H _]". by iApply Ht. Qed.
Lemma suite_sound fuel tid local : local ≠ 0 → Forall sound (suite (S fuel) tid local).
Proof.
  intros Hl. unfold suite. rewrite Forall_app Forall_fmap. split.
  - destruct not_alignment_48_0. repeat (apply Forall_cons; split); try apply Forall_nil_2; apply sound_default;
      [apply wpt_NullPointer|apply wpt_Grow|apply wpt_Shrink|apply wpt_ZeroSize|apply wpt_CrossTier|apply wpt_Default
      |apply wpt_AlignedLoop|apply wpt_AlignedSize|intros; by apply wpt_rejected|intros; by apply wpt_rejected
      |apply wpt_SmallAlignment|apply wpt_Medium|apply wpt_Large|apply wpt_Overflow|apply wpt_SizeMatches|apply wpt_ManyLarge
      |apply wpt_Tiny|apply wpt_ZeroRequest|apply wpt_Distinct|apply wpt_Writable|apply wpt_SizeReports|apply wpt_Try].
  - repeat (apply Forall_cons; split); try apply Forall_nil_2;
      [apply sound_idle; by apply wpt_DoubleFree|apply sound_idle; by apply wpt_Invalid
      |apply sound_idle; by apply wpt_DoubleFreeWithoutTracking|apply sound_idle; by apply wpt_GuardCorruption
      |apply sound_idle; by apply wpt_Poison|apply sound_idle; by apply wpt_LargerOne|by apply wpt_LeakTracking|apply sound_idle; by apply wpt_NullDeallocate].
Qed.

End theorem.

Section demo.
#[local] Instance demo_os : OS := bump_os 9.
#[local] Instance demo_laws : OSLaws := bump_laws 9.
End demo.
