(* ===== verification/Concurrent.v ===== *)
(** Concurrent clients.  A configuration is the blocks in the clients' hands, the calls
    that are running, the allocator and the memory; a step starts a call, takes one
    atomic action of a running call, or delivers an answer.  A call takes the block it
    is about with it, so a block may be allocated by one thread and freed by another. *)

From stdpp Require Import gmap.
From iris.proofmode Require Import proofmode.
From S2P Require Import Prelude.
From S2P Require Import HeapProp.
From S2P Require Import Memory.
From S2P Require Import Logic.
From S2P Require Import BlockHeader.
From S2P Require Import Prog.
From S2P Require Import Interleaving.
From S2P Require Import StatisticsCollector.
From S2P Require Import Config.
From S2P Require Import DebugLayer.
From S2P Require Import AllocatorImpl.
From S2P Require Import SmallTier.
From S2P Require Import RawAlloc.
From S2P Require Import AllocatorInv.
From S2P Require Import SharedInv.
From S2P Require Import SharedStats.
From S2P Require Import SharedRaw.
From S2P Require Import Allocate.
From S2P Require Import Deallocate.
From S2P Require Import SharedAlloc.
From S2P Require Import Client.
From S2P Require Import Usage.

(** ** Configurations *)
Notation blocks := (gmap Z (list byte)).
Record call := MkCall { c_op : op; c_held : blocks }.
Record conf := MkConf {
  idle : blocks;
  calls : gmap Z (call * prog AllocatorImpl answer);
  impl : AllocatorImpl;
  memory : mem
}.

(** The block a call is about, and what is left in the clients' hands meanwhile. *)
Definition claims (o : op) : option Z :=
  match o with Free u | Realloc u _ | SizeOf u | Poke u _ _ | Peek u _ => Some u | _ => None end.
Definition claimed (o : op) (I : blocks) : blocks :=
  match claims o with
  | Some u => match I !! u with Some bs => {[ u := bs ]} | None => ∅ end
  | None => ∅
  end.
Definition unclaimed (o : op) (I : blocks) : blocks :=
  match claims o with Some u => delete u I | None => I end.

(** What concurrent clients are promised does not depend on the tracking tables: the
    specification they use is the one with tracking off.  In particular a client may
    only pass pointers to blocks it holds. *)
Definition untracked (cfg : AllocatorConfig) : AllocatorConfig :=
  MkConfig (enableGuardBytes cfg) (enablePoisoning cfg) false (enableDoubleFreeDetection cfg)
    (enableThreadCache cfg) (abortOnError cfg) (errorHandler cfg).
(** With tracking on, a call about a block the caller holds may also be refused; the
    caller keeps the block.  The number of live allocations is then any number. *)
Inductive refused (held : blocks) : op → answer → Prop :=
  | RefuseFree u e :
      is_Some (held !! u) → e = InvalidPointer ∨ e = DoubleFree → refused held (Free u) (AUnit (inr e))
  | RefuseRealloc u n e :
      is_Some (held !! u) → e = InvalidPointer ∨ e = DoubleFree → refused held (Realloc u n) (APtr (inr e))
  | RefuseSizeOf u : is_Some (held !! u) → refused held (SizeOf u) (ANum 0)
  | AnyLiveCount n : refused held LiveCount (ANum n).
(** The answer [r] to [o] from a caller that held [held], and what it holds then. *)
Definition allowed `{!OS} (cfg : AllocatorConfig) (held : blocks) (o : op) (r : answer) (M : blocks) : Prop :=
  (∃ F, spec_step (untracked cfg) (MkSpec held ∅) o r (MkSpec M F)) ∨
  enableLeakTracking cfg = true ∧ refused held o r ∧ M = held.

Section steps.
Context `{HOS : !OS} (cfg : AllocatorConfig) (fuel : nat).

Definition read_bytes (m : mem) (u n : Z) : list byte := default [] (load_bytes m u (Z.to_nat n)).
(** The block a client has after an answer [r] to [o], by the documentation of the
    operation: its address and size from the answer, its contents from memory. *)
Definition returned (o : op) (r : answer) (held : blocks) (m : mem) : blocks :=
  match o, r with
  | Malloc n, APtr (inl u) | AlignedMalloc _ n, APtr (inl u) => {[ u := read_bytes m u (request n) ]}
  | Free _, AUnit (inl _) => ∅
  | Realloc p n, APtr (inl u) =>
      if p =? 0 then {[ u := read_bytes m u (request n) ]}
      else if n =? 0 then ∅ else {[ u := read_bytes m u n ]}
  | Poke u _ _, _ => (λ bs, read_bytes m u (Z.of_nat (length bs))) <$> held
  | _, _ => held
  end.

(** A running call does its next action, or gives its answer. *)
Inductive run_step : conf → conf → Prop :=
  | Action I P w m tid c X (f : AllocatorImpl → cmd (X * AllocatorImpl)) k x w' m' :
      P !! tid = Some (c, Act f k) → f w m = Ok (x, w') m' →
      run_step (MkConf I P w m) (MkConf I (<[tid := (c, k x)]> P) w' m')
  | Return I P w m tid c r :
      P !! tid = Some (c, Ret r) →
      run_step (MkConf I P w m) (MkConf (returned (c_op c) r (c_held c) m ∪ I) (delete tid P) w m).
Inductive conc_step : conf → conf → Prop :=
  | Invoke I P w m tid o :
      P !! tid = None → valid (untracked cfg) (MkSpec I ∅) o →
      conc_step (MkConf I P w m)
        (MkConf (unclaimed o I) (<[tid := (MkCall o (claimed o I), exec fuel tid o)]> P) w m)
  | Run c c' : run_step c c' → conc_step c c'.
End steps.

(** ** The obligation of a call *)
Section call.
Context `{HOS : !OS, HL : !OSLaws} (cfg : AllocatorConfig).
Hypothesis Hab : abortOnError cfg = false.
Implicit Types (w : AllocatorImpl) (it : item) (a : alloc) (u : Z) (M I : blocks).
#[local] Existing Instance alloc_protocol.
Notation cwp := (cwp (HP := alloc_protocol cfg)).

Definition empty_item it : Prop := i_caps it = caps_empty ∧ ∀ q, i_sum it q = 0.
Definition block_item a it : Prop :=
  i_caps it = add_cap (a_raw a) (a_base a) caps_empty ∧ ∀ q, i_sum it q = share (a_size a) (a_reserved a) q.
(** A block in somebody's hands: the client's bytes and what the allocator keeps. *)
Definition owned u (bs : list byte) it : heapPropI :=
  ∃ a, ⌜alloc_wf u a ∧ block_item a it⌝ ∗ live_res u a ∗ held u a bs.
(** A holder has at most one block. *)
Definition holds M it : heapPropI :=
  (⌜M = ∅ ∧ empty_item it⌝) ∨ ∃ u bs, ⌜M = {[ u := bs ]}⌝ ∗ owned u bs it.
Definition reads (m : mem) M : Prop := ∀ u bs, M !! u = Some bs → read_bytes m u (Z.of_nat (length bs)) = bs.

(** A share in two parts. *)
Definition splits it it1 it2 : Prop :=
  (∀ lg p, (cap_of lg (i_caps it1) !! p = cap_of lg (i_caps it) !! p ∧ cap_of lg (i_caps it2) !! p = None) ∨
           (cap_of lg (i_caps it2) !! p = cap_of lg (i_caps it) !! p ∧ cap_of lg (i_caps it1) !! p = None)) ∧
  ∀ q, i_sum it q = i_sum it1 q + i_sum it2 q.
(** A block in nobody's hands. *)
Definition lost it : heapPropI := ∃ u bs, owned u bs it.
(** What a call has when it is done: an answer that is allowed on the block it took,
    the block it gives back, and, if it was refused, perhaps a block that is lost. *)
Definition done_with (_ : Z) (c : call) (r : answer) (_ : AllocatorImpl) it : heapPropI :=
  ∃ M, ⌜allowed cfg (c_held c) (c_op c) r M ∧
        ∀ m, reads m M → returned (c_op c) r (c_held c) m = M⌝ ∗
       (holds M it ∨ ⌜enableLeakTracking cfg = true⌝ ∗ ∃ it1 it2, ⌜splits it it1 it2⌝ ∗ holds M it1 ∗ lost it2).
Lemma done_spec tid c r w it M F :
  spec_step (untracked cfg) (MkSpec (c_held c) ∅) (c_op c) r (MkSpec M F) →
  (∀ m, reads m M → returned (c_op c) r (c_held c) m = M) →
  holds M it ⊢ done_with tid c r w it.
Proof using. intros Hst Hr. iIntros "H". iExists M. iFrame "H". iPureIntro. split; [left; by exists F|done]. Qed.
Lemma done_refused tid c r w it :
  enableLeakTracking cfg = true → refused (c_held c) (c_op c) r →
  holds (c_held c) it ⊢ done_with tid c r w it.
Proof using.
  intros Hlk Hr. iIntros "H". iExists (c_held c). iFrame "H". iPureIntro. split; [by right|]. intros m _.
  by destruct Hr.
Qed.

Lemma holds_empty it : holds ∅ it ⊢ ⌜empty_item it⌝.
Proof.
  iIntros "[[_ $]|(%u & %bs & %Hs & _)]". exfalso. by apply (map_non_empty_singleton (M := gmap Z) u bs).
Qed.
Lemma holds_one u bs it : holds {[ u := bs ]} it ⊣⊢ owned u bs it.
Proof.
  iSplit; [|iIntros "H"; iRight; iExists u, bs; by iFrame].
  iIntros "[[%Hs _]|(%u' & %bs' & %Hs & H)]"; [exfalso; by apply (map_non_empty_singleton (M := gmap Z) u bs)|].
  apply map_singleton_inj in Hs as [-> ->]. done.
Qed.
Lemma holds_none it : empty_item it → ⊢ holds ∅ it.
Proof. iIntros (?). by iLeft. Qed.
Lemma owned_pos u bs it : owned u bs it ⊢ ⌜0 < u ∧ u + Z.of_nat (length bs) ≤ W64 ∧ (0 < length bs)%nat⌝.
Proof.
  iIntros "(%a & [(_ & % & _) _] & _ & %Hlen & Hu & _)".
  iDestruct (bytes_at_range with "Hu") as %?; [lia|]. iPureIntro. split_and!; lia.
Qed.
(** The two shapes of a call about a pointer. *)
Lemma claimed_cases o u I it :
  claims o = Some u → known_ptr (untracked cfg) (MkSpec I ∅) u →
  holds (claimed o I) it ⊢
    ⌜u = 0 ∧ claimed o I = ∅ ∧ empty_item it⌝ ∨
    ∃ bs, ⌜u ≠ 0 ∧ I !! u = Some bs ∧ claimed o I = {[ u := bs ]}⌝ ∗ owned u bs it.
Proof using.
  intros Ho Hu. unfold claimed. rewrite Ho. cbn in Hu. destruct (I !! u) as [bs|] eqn:E.
  - rewrite holds_one. iIntros "H". iRight. iExists bs. iDestruct (owned_pos with "H") as %?. iFrame.
    iPureIntro. split_and!; [lia|done|done].
  - iIntros "H". iDestruct (holds_empty with "H") as %?. iLeft. iPureIntro.
    destruct Hu as [?|[Hu|Hu]]; [done|cbn in Hu; rewrite E in Hu; by destruct Hu|discriminate].
Qed.

Lemma block_known a it : block_item a it → known (a_raw a) (a_base a) (i_caps it).
Proof using.
  intros [-> _]. unfold known, add_cap. destruct (b_tier (a_base a)); simpl; try done; apply lookup_insert_eq.
Qed.
Lemma gains_block it it' a : empty_item it → gains it it' a → block_item a it'.
Proof using. intros [Hc Hs] [Hc' Hs']. split; [by rewrite Hc' Hc|]. intros q. by rewrite Hs' Hs. Qed.
Lemma loses_block it it' a : block_item a it → loses it it' a → empty_item it'.
Proof using.
  intros [Hc Hs] [Hc' Hs']. split; [|intros q; rewrite Hs' Hs; lia]. rewrite Hc' Hc. unfold del_cap, add_cap.
  destruct (b_tier (a_base a)) eqn:Ht; rewrite ?Ht; try done; unfold caps_empty; simpl; by rewrite delete_insert_eq delete_empty.
Qed.
(** A block exchanged for another one. *)
Lemma exchange_block it it1 it2 a a' :
  headerOf (a_raw a') ≠ headerOf (a_raw a) → block_item a it → gains it it1 a' → loses it1 it2 a → block_item a' it2.
Proof using.
  intros Hne [Hc Hs] [Hc1 Hs1] [Hc2 Hs2]. split; [|intros q; rewrite Hs2 Hs1 Hs; lia].
  rewrite Hc2 Hc1 Hc. unfold del_cap, add_cap, caps_empty.
  destruct (b_tier (a_base a)) eqn:Ht, (b_tier (a_base a')) eqn:Ht'; simpl; try done; f_equal.
  all: first [by rewrite delete_insert_eq delete_empty
             |by rewrite delete_insert_ne // delete_insert_eq delete_empty].
Qed.

(** The share of a block that stays behind. *)
Lemma gains_splits it it1 a a' :
  headerOf (a_raw a') ≠ headerOf (a_raw a) → block_item a it → gains it it1 a' →
  ∃ it2, splits it1 it it2 ∧ block_item a' it2.
Proof using.
  intros Hne [Hc Hs] [Hc1 Hs1].
  exists (MkItem (add_cap (a_raw a') (a_base a') caps_empty) (share (a_size a') (a_reserved a'))).
  split; [|done]. split; [|intros q; cbn; rewrite Hs1; lia]. intros lg p. cbn [i_caps].
  rewrite Hc1 Hc. unfold add_cap, caps_empty, cap_of.
  destruct (b_tier (a_base a)), (b_tier (a_base a')), lg; cbn [medium_caps large_caps];
    try (left; split; [done|apply lookup_empty]).
  all: destruct (decide (p = headerOf (a_raw a'))) as [->|Hp];
    [right; split; [by rewrite !lookup_insert_eq|by rewrite ?lookup_insert_ne // lookup_empty]
    |left; split; [by rewrite (lookup_insert_ne _ (headerOf (a_raw a')))|by rewrite lookup_insert_ne // lookup_empty]].
Qed.

(** What an allocation gives the call that made it. *)
Lemma got_owned n align sh it it' u :
  empty_item it → 0 < n →
  got cfg n align sh it (inl u) it' ⊢
  ∃ bs, ⌜fresh_block (untracked cfg) (MkSpec ∅ ∅) n align u bs⌝ ∗ owned u bs it'.
Proof.
  intros He Hn. iIntros "(%a & %bs & (%Hwf & %Hsz & _ & %Hm & %Hfr & %Hga) & Hl & Hu & Hg)".
  pose proof Hfr as [Hlen _]. iDestruct (bytes_at_range with "Hu") as %?; [lia|]. pose proof Hwf as (_&?&_).
  iExists bs. iSplit.
  - iPureIntro. split; [|done]. unfold fresh_addr. split_and!; try done; try lia.
  - iExists a. iFrame "Hl". iSplit; [iPureIntro; split; [done|by eapply gains_block]|].
    iSplit; [by rewrite Hsz|iFrame].
Qed.
Lemma reads_one m u bs n : Z.of_nat (length bs) = n → reads m {[ u := bs ]} → {[ u := read_bytes m u n ]} = ({[ u := bs ]} : blocks).
Proof using. intros <- Hr. f_equal. apply Hr, lookup_singleton_eq. Qed.

(** The tail of every call that allocates. *)
Lemma done_alloc tid o held r n align sh (al : Z) it it' w :
  empty_item it → in64 n →
  (∀ u bs, r = inl u → fresh_block (untracked cfg) (MkSpec ∅ ∅) (request n) align u bs →
     spec_step (untracked cfg) (MkSpec held ∅) o (APtr r) (add_block u bs (MkSpec ∅ ∅)) ∧
     ∀ m, returned o (APtr r) held m = {[ u := read_bytes m u (request n) ]}) →
  (∀ e, r = inr e → alloc_error e (request n) →
     spec_step (untracked cfg) (MkSpec held ∅) o (APtr r) (MkSpec ∅ ∅) ∧ ∀ m, returned o (APtr r) held m = ∅) →
  got cfg (request n) align sh it r it' ⊢ done_with tid (MkCall o held) (APtr r) w it'.
Proof.
  intros He Hn Hok Herr. pose proof (request_pos n Hn) as Hpos. iIntros "H". destruct r as [u|e].
  - iDestruct (got_owned with "H") as (bs Hfb) "H"; [done|done|].
    destruct (Hok u bs eq_refl Hfb) as [Hst Hre]. iApply (done_spec _ _ _ _ _ {[ u := bs ]} (∅ ∖ {[ u ]})); [exact Hst| |by rewrite holds_one].
    intros m Hr. cbn [c_op c_held]. rewrite Hre. apply reads_one; [apply Hfb|done].
  - iDestruct "H" as %[Hae ->]. destruct (Herr e eq_refl Hae) as [Hst Hre]. iApply (done_spec _ _ _ _ _ ∅ ∅);
      [exact Hst|intros m _; apply Hre|by iApply holds_none].
Qed.

Lemma cwp_malloc tid fuel n w0 it I :
  W64 ≤ Z.of_nat fuel → in64 n →
  holds (claimed (Malloc n) I) it ⊢
  cwp tid (exec fuel tid (Malloc n)) w0 it (done_with tid (MkCall (Malloc n) (claimed (Malloc n) I))).
Proof using HL Hab.
  intros Hf Hn. iIntros "H". iDestruct (holds_empty with "H") as %He. iApply cwp_bind.
  iApply cwp_allocate; [done..|]. iIntros (res w it') "Hg". iApply cwp_ret.
  iApply (done_alloc with "Hg"); [exact 0|done|done| |].
  - intros u bs -> Hfb. split; [by constructor|done].
  - intros e -> Hae. split; [by constructor|done].
Qed.
Lemma cwp_aligned tid fuel al n w0 it I :
  W64 ≤ Z.of_nat fuel → in64 al → in64 n →
  holds (claimed (AlignedMalloc al n) I) it ⊢
  cwp tid (exec fuel tid (AlignedMalloc al n)) w0 it
    (done_with tid (MkCall (AlignedMalloc al n) (claimed (AlignedMalloc al n) I))).
Proof using HL Hab.
  intros Hf Hal Hn. iIntros "H". iDestruct (holds_empty with "H") as %He. iApply cwp_bind.
  iApply cwp_alignedAllocate; [done..|]. iIntros (res w it') "[(%Hv & -> & ->)|[%Hv Hg]]"; iApply cwp_ret.
  - iApply (done_spec _ _ _ _ _ ∅ ∅); [by constructor|done|by iApply holds_none].
  - iApply (done_alloc with "Hg"); [exact 0|done|done| |].
    + intros u bs -> Hfb. split; [by constructor|done].
    + intros e -> Hae. split; [by constructor|done].
Qed.
(** Freeing a block one holds: it is gone, or one still holds it. *)
Lemma cwp_deallocate_owned tid u bs w0 it Φ :
  owned u bs it ⊢
  ((∀ w it', ⌜empty_item it'⌝ -∗ Φ (inl ()) w it') ∧ (∀ e w, ⌜refusal cfg e⌝ -∗ owned u bs it -∗ Φ (inr e) w it)) -∗
  cwp tid (deallocate tid u) w0 it Φ.
Proof using HL Hab.
  iIntros "(%a & [%Hwf %Hb] & Hl & %Hlen & Hu & Hg) HΦ".
  iApply (cwp_deallocate cfg Hab _ _ a bs); [done|by apply block_known|done|]. iFrame "Hl Hu Hg". iSplit.
  - iIntros (w it' Hlo). iDestruct "HΦ" as "[HΦ _]". iApply "HΦ". iPureIntro. by eapply loses_block.
  - iIntros (e w He) "Hl Hu Hg". iDestruct "HΦ" as "[_ HΦ]". iApply ("HΦ" with "[//]"). iExists a. iFrame. by iPureIntro.
Qed.
Lemma spec_free u (bs : list byte) :
  spec_step (untracked cfg) (MkSpec {[ u := bs ]} ∅) (Free u) (AUnit (inl ())) (MkSpec ∅ ({[ u ]} ∪ ∅)).
Proof using.
  assert (s_live (MkSpec {[u := bs]} ∅) !! u = Some bs) as Hl by apply lookup_singleton_eq.
  apply (SFree (untracked cfg)) in Hl. unfold remove_block in Hl. cbn [s_live s_freed] in Hl.
  by rewrite delete_singleton_eq in Hl.
Qed.
Lemma cwp_free tid fuel u w0 it I :
  known_ptr (untracked cfg) (MkSpec I ∅) u →
  holds (claimed (Free u) I) it ⊢
  cwp tid (exec fuel tid (Free u)) w0 it (done_with tid (MkCall (Free u) (claimed (Free u) I))).
Proof using HL Hab.
  intros Hu. rewrite (claimed_cases (Free u) u I it) //. iIntros "[(-> & -> & %He)|(%bs & (%Hu0 & %Hbs & ->) & H)]".
  - iApply cwp_bind. iApply cwp_deallocate_null. iApply cwp_ret. iApply (done_spec _ _ _ _ _ ∅ ∅); [constructor|done|by iApply holds_none].
  - iApply cwp_bind. iApply (cwp_deallocate_owned with "H"). iSplit.
    + iIntros (w it' He). iApply cwp_ret.
      iApply (done_spec _ _ _ _ _ ∅ ({[ u ]} ∪ ∅)); [apply spec_free|done|by iApply holds_none].
    + iIntros (e w [Hlk He]) "H". iApply cwp_ret. iApply done_refused; [done|constructor; [|exact He]|by rewrite holds_one].
      rewrite lookup_singleton_eq. by eexists.
Qed.
Lemma cwp_realloc tid fuel u n w0 it I :
  W64 ≤ Z.of_nat fuel → known_ptr (untracked cfg) (MkSpec I ∅) u → in64 n →
  holds (claimed (Realloc u n) I) it ⊢
  cwp tid (exec fuel tid (Realloc u n)) w0 it (done_with tid (MkCall (Realloc u n) (claimed (Realloc u n) I))).
Proof using HL Hab.
  intros Hf Hu Hn. rewrite (claimed_cases (Realloc u n) u I it) //.
  iIntros "[(-> & -> & %He)|(%bs & (%Hu0 & %Hbs & ->) & H)]"; iApply cwp_bind.
  { iApply cwp_reallocate_null. iApply cwp_allocate; [done..|]. iIntros (res w it') "Hg". iApply cwp_ret.
    iApply (done_alloc with "Hg"); [exact 0|done|done| |].
    - intros u bs -> Hfb. split; [constructor; by constructor|done].
    - intros e -> Hae. split; [constructor; by constructor|done]. }
  destruct (decide (n = 0)) as [->|Hn0].
  { iApply cwp_reallocate_zero; [done|]. iApply (cwp_deallocate_owned with "H"). iSplit.
    - iIntros (w it' He). iApply cwp_ret. iApply (done_spec _ _ _ _ _ ∅ ({[ u ]} ∪ ∅)); [|intros m _|by iApply holds_none].
      + apply (SReallocZero (untracked cfg) _ u (inl ())); [done|apply spec_free].
      + cbn. by rewrite (proj2 (Z.eqb_neq u 0)).
    - iIntros (e w [Hlk He]) "H". iApply cwp_ret. iApply done_refused; [done|constructor; [|exact He]|by rewrite holds_one].
      rewrite lookup_singleton_eq. by eexists. }
  iDestruct "H" as (a [Hwf Hb]) "(Hl & %Hlen & Hu & Hg)".
  assert (s_live (MkSpec {[u := bs]} ∅) !! u = Some bs) as Hlu by apply lookup_singleton_eq.
  iApply (cwp_reallocate cfg Hab _ _ u a bs); [done|done|by apply block_known|done|done|done|].
  iFrame "Hl Hu Hg". iSplit; [|iSplit].
  - iIntros (e w He) "Hl Hu Hg". iApply cwp_ret.
    iAssert (holds {[ u := bs ]} it) with "[Hl Hu Hg]" as "H"; [rewrite holds_one; iExists a; iFrame; by iPureIntro|].
    destruct He as [He|[Hlk He]].
    + iApply (done_spec _ _ _ _ _ {[ u := bs ]} ∅); [by econstructor|done|iFrame].
    + iApply done_refused; [done|constructor; [|exact He]|iFrame]. by eexists.
  - iIntros (u' a' bs' w it1 it2 (Hne&Hwf'&Hsz'&Hm&Hlen'&Htake&Hhdr&Hga&Hlo)) "Hl Hu Hg". iApply cwp_ret.
    iDestruct (bytes_at_range with "Hu") as %Hrange; [pose proof Hwf' as (_&?&_); lia|].
    pose proof Hwf' as (_&Hpos&_).
    iApply (done_spec _ _ _ _ _ {[ u' := bs' ]} ({[ u ]} ∪ (∅ ∖ {[ u' ]}))).
    + assert (spec_step (untracked cfg) (MkSpec {[u := bs]} ∅) (Realloc u n) (APtr (inl u'))
          (remove_block u (add_block u' bs' (MkSpec {[u := bs]} ∅)))) as Hst.
        { econstructor; [done|done|done| |done|].
          - cbn [s_live]. rewrite delete_singleton_eq. unfold fresh_addr. split_and!; try done; lia.
          - intros i Hi. rewrite Hlen in Hi.
            rewrite -(lookup_take_lt bs' (Z.to_nat (Z.min (a_size a) n))); [|lia].
            rewrite -(lookup_take_lt bs (Z.to_nat (Z.min (a_size a) n))); [|lia]. by rewrite Htake. }
      unfold remove_block, add_block in Hst. cbn [s_live s_freed] in Hst.
      rewrite delete_insert_ne // delete_singleton_eq in Hst. exact Hst.
    + intros m Hr. cbn. rewrite (proj2 (Z.eqb_neq u 0)) // (proj2 (Z.eqb_neq n 0)) //. by apply reads_one.
    + rewrite holds_one. iExists a'. iFrame "Hl". iSplit; [iPureIntro; split; [done|by eapply exchange_block]|].
      iSplit; [by rewrite Hsz'|iFrame].
  - iIntros (e u' w it1 [Hlk He]) "Hl Hu Hg (%a' & %bs' & (%Hwf' & %Hlen' & %Hga) & Hl' & Hu' & Hg')". iApply cwp_ret.
    iDestruct (live_apart u a u' a' with "[$Hl $Hl']") as %Hne.
    destruct (gains_splits it it1 a a' Hne Hb Hga) as (it2&Hsp&Hb'). iExists {[ u := bs ]}. iSplit.
    + iPureIntro. split; [right; split_and!; [done|constructor; [by eexists|exact He]|done]|done].
    + iRight. iSplit; [done|]. iExists it, it2. iSplit; [done|]. rewrite holds_one. iSplitL "Hl Hu Hg".
      * iExists a. iFrame. by iPureIntro.
      * iExists u', bs', a'. iFrame. by iPureIntro.
Qed.
Lemma cwp_sizeOf tid fuel u w0 it I :
  known_ptr (untracked cfg) (MkSpec I ∅) u →
  holds (claimed (SizeOf u) I) it ⊢
  cwp tid (exec fuel tid (SizeOf u)) w0 it (done_with tid (MkCall (SizeOf u) (claimed (SizeOf u) I))).
Proof using HL.
  intros Hu. rewrite (claimed_cases (SizeOf u) u I it) //. iIntros "[(-> & -> & %He)|(%bs & (%Hu0 & %Hbs & ->) & H)]".
  - iApply cwp_bind. iApply cwp_ret. iApply cwp_ret. iApply (done_spec _ _ _ _ _ ∅ ∅); [constructor; by left|done|by iApply holds_none].
  - iDestruct (owned_pos with "H") as %Hpos. iDestruct "H" as (a [Hwf Hb]) "(Hl & %Hlen & Hu)". iApply cwp_bind.
    iApply (cwp_allocationSize cfg _ u a); [done|lia|]. iFrame "Hl". iIntros (n w Hn) "Hl". iApply cwp_ret.
    iAssert (holds {[ u := bs ]} it) with "[Hl Hu]" as "H"; [rewrite holds_one; iExists a; iFrame; by iPureIntro|].
    destruct Hn as [->|[Hlk ->]].
    + rewrite -Hlen. iApply (done_spec _ _ _ _ _ {[ u := bs ]} ∅); [constructor; apply lookup_singleton_eq|done|iFrame].
    + iApply done_refused; [done|constructor|iFrame]. rewrite lookup_singleton_eq. by eexists.
Qed.
(** The client's own accesses. *)
Lemma owned_byte u bs it i :
  0 ≤ i < Z.of_nat (length bs) →
  owned u bs it ⊢ ∃ b, ⌜bs !! Z.to_nat i = Some b⌝ ∗ byte_at (u + i) b ∗
    (∀ b', byte_at (u + i) b' -∗ owned u (<[Z.to_nat i := b']> bs) it).
Proof.
  intros Hi. iIntros "(%a & %Hpure & Hl & %Hlen & Hu & Hg)".
  destruct (lookup_lt_is_Some_2 bs (Z.to_nat i)) as [b Hb]; [lia|].
  iDestruct (bytes_at_insert_acc with "Hu") as "[Hb Hu]"; [done|]. rewrite Z2Nat.id; [|lia].
  iExists b. iSplit; [done|]. iFrame "Hb". iIntros (b') "Hb". iExists a. iFrame "Hl Hg".
  iSplit; [done|]. iSplit; [by rewrite length_insert|]. by iApply "Hu".
Qed.
Lemma claimed_block o u i I it :
  claims o = Some u → in_block (MkSpec I ∅) u i →
  holds (claimed o I) it ⊢ ∃ bs, ⌜I !! u = Some bs ∧ claimed o I = {[ u := bs ]} ∧ 0 ≤ i < Z.of_nat (length bs)⌝ ∗ owned u bs it.
Proof using.
  intros Ho (bs&Hbs&Hi). cbn in Hbs. unfold claimed. rewrite Ho Hbs holds_one. iIntros "H". iExists bs. by iFrame.
Qed.
Lemma cwp_poke tid fuel u i b w0 it I :
  in_block (MkSpec I ∅) u i →
  holds (claimed (Poke u i b) I) it ⊢
  cwp tid (exec fuel tid (Poke u i b)) w0 it (done_with tid (MkCall (Poke u i b) (claimed (Poke u i b) I))).
Proof using HL.
  intros Hu. rewrite (claimed_block (Poke u i b) u i I it) //. iIntros "(%bs & (%Hbs & -> & %Hi) & H)".
  iDestruct (owned_byte _ _ _ i with "H") as (b0 Hb0) "[Hb H]"; [done|].
  iApply cwp_bind. iApply cwp_io. iApply wp_store_byte. iFrame "Hb". iIntros "Hb" (w _). iApply cwp_ret.
  iApply (done_spec _ _ _ _ _ {[ u := <[Z.to_nat i := b]> bs ]} ∅); [| |rewrite holds_one; by iApply "H"].
  - assert (spec_step (untracked cfg) (MkSpec {[u := bs]} ∅) (Poke u i b) ADone
      (MkSpec (<[u := <[Z.to_nat i := b]> bs]> {[u := bs]}) ∅)) as Hst by (constructor; [apply lookup_singleton_eq|done]).
    by rewrite insert_singleton_eq in Hst.
  - intros m Hr. cbn. rewrite map_fmap_singleton. f_equal.
    pose proof (Hr u _ (lookup_singleton_eq _ _)) as Hb. by rewrite length_insert in Hb.
Qed.
Lemma cwp_peek tid fuel u i w0 it I :
  in_block (MkSpec I ∅) u i →
  holds (claimed (Peek u i) I) it ⊢
  cwp tid (exec fuel tid (Peek u i)) w0 it (done_with tid (MkCall (Peek u i) (claimed (Peek u i) I))).
Proof using HL.
  intros Hu. rewrite (claimed_block (Peek u i) u i I it) //. iIntros "(%bs & (%Hbs & -> & %Hi) & H)".
  iDestruct (owned_byte _ _ _ i with "H") as (b0 Hb0) "[Hb H]"; [done|].
  iApply cwp_bind. iApply cwp_io. iApply wp_load_byte. iFrame "Hb". iIntros "Hb" (w _). iApply cwp_ret.
  iDestruct ("H" with "Hb") as "H". rewrite (list_insert_id bs _ b0) //.
  iApply (done_spec _ _ _ _ _ {[ u := bs ]} ∅); [|done|by rewrite holds_one].
  apply (SPeek _ _ _ _ _ bs); [apply lookup_singleton_eq|lia|done].
Qed.

(** Every operation, started from any state the other threads have left, runs to an
    answer the specification allows. *)
Lemma cwp_exec tid fuel o w0 it I :
  W64 ≤ Z.of_nat fuel → valid (untracked cfg) (MkSpec I ∅) o →
  holds (claimed o I) it ⊢
  cwp tid (exec fuel tid o) w0 it (done_with tid (MkCall o (claimed o I))).
Proof using HL Hab.
  intros Hf Hv. destruct o as [n|al n|u|u n|u| |u i b|u i|]; simpl in Hv.
  - by apply cwp_malloc.
  - destruct Hv. by apply cwp_aligned.
  - by apply cwp_free.
  - destruct Hv. by apply cwp_realloc.
  - by apply cwp_sizeOf.
  - iIntros "H". iDestruct (holds_empty with "H") as %He. iApply cwp_bind. iApply cwp_liveAllocationCount.
    iIntros (n w [->|Hlk]); iApply cwp_ret.
    + iApply (done_spec _ _ _ _ _ ∅ ∅); [exact (SLiveCount (untracked cfg) (MkSpec ∅ ∅))|done|by iApply holds_none].
    + iApply done_refused; [done|constructor|by iApply holds_none].
  - by apply cwp_poke.
  - by apply cwp_peek.
  - iIntros "H". iDestruct (holds_empty with "H") as %He. iApply cwp_bind. iApply cwp_thread_exit.
    iIntros (w). iApply cwp_ret. iApply (done_spec _ _ _ _ _ ∅ ∅); [constructor|done|by iApply holds_none].
Qed.
End call.
