(* ===== verification/ThreadSafety.v ===== *)
(** Thread safety: the invariant of a configuration of [Concurrent], its preservation by
    every step, and what it says at any moment of any execution. *)

From stdpp Require Import gmap.
From iris.proofmode Require Import proofmode.
From S2P Require Import Prelude.
From S2P Require Import HeapProp.
From S2P Require Import Memory.
From S2P Require Import Platform.
From S2P Require Import Logic.
From S2P Require Import Prog.
From S2P Require Import Interleaving.
From S2P Require Import StatisticsCollector.
From S2P Require Import Config.
From S2P Require Import DebugLayer.
From S2P Require Import AllocatorImpl.
From S2P Require Import SmallTier.
From S2P Require Import RawAlloc.
From S2P Require Import AllocatorInv.
From S2P Require Import SharedInv.
From S2P Require Import SharedStats.
From S2P Require Import Allocate.
From S2P Require Import Client.
From S2P Require Import Usage.
From S2P Require Import Concurrent.

Section safety.
Context `{HOS : !OS, HL : !OSLaws} (cfg : AllocatorConfig) (fuel : nat).
Hypothesis Hab : abortOnError cfg = false.
Hypothesis Hf : W64 ≤ Z.of_nat fuel.
Implicit Types (w : AllocatorImpl) (it : item) (u : Z) (M I : blocks) (H : gmap holder item) (c : conf).
#[local] Existing Instance alloc_protocol.

(** ** The invariant *)
Definition has_holder I (P : gmap Z (call * prog AllocatorImpl answer)) (k : holder) : Prop :=
  match k with inl tid => is_Some (P !! tid) | inr u => is_Some (I !! u) end.
Definition dom_ok H I P : Prop := ∀ k, is_Some (H !! k) → has_holder I P k.
Definition idle_res I H : heapPropI := [∗ map] u ↦ bs ∈ I, ∃ it, ⌜H !! inr u = Some it⌝ ∗ owned u bs it.
(** [J] are the blocks that refused calls have lost. *)
Definition strays I J : Prop := J ##ₘ I ∧ (enableLeakTracking cfg = false → J = ∅).
Definition conf_res I P w : heapPropI :=
  ∃ J H, ⌜strays I J ∧ dom_ok H (I ∪ J) P⌝ ∗ shared_inv cfg w H ∗
    threads (HP := alloc_protocol cfg) (done_with cfg) P w H ∗ idle_res (I ∪ J) H.
Definition conf_inv c : Prop := sat (conf_res (idle c) (calls c) (impl c)) (memory c).

(** Holders come, go, and hand their shares on. *)
Lemma shared_same w H H' :
  (∀ q, tally q H' = tally q H) → (∀ C, registered C H → registered C H') →
  shared_inv cfg w H ⊢ shared_inv cfg w H'.
Proof using.
  intros Ht Hreg. iIntros "(%C & (%Hc & %Hd & %Hst & %HC) & HC)". iExists C. iFrame. iPureIntro.
  split_and!; [done|done|by eapply stats_match_same|by apply Hreg].
Qed.
Lemma shared_add w H k it :
  H !! k = None → empty_item it → shared_inv cfg w H ⊢ shared_inv cfg w (<[k := it]> H).
Proof using.
  intros Hk [Hc Hs]. apply shared_same; [intros q; by apply tally_add|].
  intros C HC lg. apply collects_add; [done|done|]. rewrite Hc. by destruct lg.
Qed.
Lemma shared_split w H k k' it it1 it2 :
  H !! k = Some it → H !! k' = None → splits it it1 it2 →
  shared_inv cfg w H ⊢ shared_inv cfg w (<[k' := it2]> (<[k := it1]> H)).
Proof using.
  intros Hk Hk' [Hc Hs]. apply shared_same; [intros q; by apply (tally_split _ _ _ _ it)|].
  intros C HC lg. by apply (collects_split _ _ _ _ _ it).
Qed.
Lemma shared_drop w H k it :
  H !! k = Some it → empty_item it → shared_inv cfg w H ⊢ shared_inv cfg w (delete k H).
Proof using.
  intros Hk [Hc Hs]. apply shared_same; [intros q; by apply (tally_drop _ _ _ it)|].
  intros C HC lg. apply (collects_drop _ _ _ _ it); [done|done|]. rewrite Hc. by destruct lg.
Qed.
Lemma shared_rekey w H k k' it :
  H !! k = Some it → H !! k' = None → shared_inv cfg w H ⊢ shared_inv cfg w (<[k' := it]> (delete k H)).
Proof using.
  intros Hk Hk'. apply shared_same; [intros q; by apply tally_rekey|].
  intros C HC lg. by apply collects_rekey.
Qed.
Lemma idle_frame I H H' : (∀ u, is_Some (I !! u) → H' !! inr u = H !! inr u) → idle_res I H ⊢ idle_res I H'.
Proof using.
  intros Hu. apply big_sepM_mono. intros u bs Hbs. iIntros "(%it & %HH & Ho)". iExists it. iFrame.
  iPureIntro. rewrite Hu; [done|by exists bs].
Qed.

(** ** Preservation *)
Lemma claim_cases o I :
  (∃ u bs, I !! u = Some bs ∧ claimed o I = {[ u := bs ]} ∧ unclaimed o I = delete u I) ∨
  (claimed o I = ∅ ∧ unclaimed o I = I).
Proof using.
  unfold claimed, unclaimed. destruct (claims o) as [u|]; [|by right].
  destruct (I !! u) as [bs|] eqn:E; [left; by exists u, bs|right; by rewrite delete_id].
Qed.
Lemma dom_ok_call H I P tid it t :
  dom_ok H I P → dom_ok (<[inl tid := it]> H) I (<[tid := t]> P).
Proof using.
  intros Hdom k [x Hx]. apply lookup_insert_Some in Hx as [[<- _]|[Hne Hx]].
  { cbn. rewrite lookup_insert_eq. by exists t. }
  pose proof (Hdom k (ex_intro _ x Hx)) as Hk. destruct k as [t'|v]; cbn in *; [|done].
  rewrite lookup_insert_ne; [done|congruence].
Qed.
Lemma dom_ok_idle H I P u it bs :
  dom_ok H I P → dom_ok (<[inr u := it]> H) (<[u := bs]> I) P.
Proof using.
  intros Hdom k [x Hx]. apply lookup_insert_Some in Hx as [[<- _]|[Hne Hx]].
  { cbn. rewrite lookup_insert_eq. by exists bs. }
  pose proof (Hdom k (ex_intro _ x Hx)) as Hk. destruct k as [t'|v]; cbn in *; [done|].
  rewrite lookup_insert_ne; [done|congruence].
Qed.
Lemma dom_ok_delete H I P k :
  dom_ok H I P →
  dom_ok (delete k H) (match k with inr u => delete u I | inl _ => I end)
    (match k with inl tid => delete tid P | inr _ => P end).
Proof using.
  intros Hdom k' [x [Hne Hx]%lookup_delete_Some]. pose proof (Hdom k' (ex_intro _ x Hx)) as Hk.
  destruct k as [t|u], k' as [t'|u']; cbn in *; try done; (rewrite lookup_delete_ne; [done|congruence]).
Qed.
Lemma dom_ok_none H I P k : dom_ok H I P → ¬ has_holder I P k → H !! k = None.
Proof using. intros Hdom Hk. apply eq_None_not_Some. intros Hs. apply Hk. by apply Hdom. Qed.

(** The block a call takes, and the share that comes with it. *)
Lemma take_block o I J H w tid P t :
  J ##ₘ I → dom_ok H (I ∪ J) P → P !! tid = None →
  shared_inv cfg w H ∗ idle_res (I ∪ J) H ⊢
  ∃ H' it, ⌜H' !! inl tid = Some it ∧ (∀ t, t ≠ tid → H' !! inl t = H !! inl t) ∧
      J ##ₘ unclaimed o I ∧ dom_ok H' (unclaimed o I ∪ J) (<[tid := t]> P)⌝ ∗
    shared_inv cfg w H' ∗ idle_res (unclaimed o I ∪ J) H' ∗ holds (claimed o I) it.
Proof using.
  intros HJ Hdom HP. iIntros "[Hs Hi]".
  assert (H !! inl tid = None) as Htid by (apply (dom_ok_none H (I ∪ J) P); [done|cbn; rewrite HP; by intros []]).
  destruct (claim_cases o I) as [(u&bs&Hbs&->&->)|[-> ->]].
  - assert (J !! u = None) as HJu by (eapply map_disjoint_Some_r; [exact HJ|exact Hbs]).
    assert (delete u I ∪ J = delete u (I ∪ J)) as -> by (by rewrite delete_union (delete_id J)).
    assert ((I ∪ J) !! u = Some bs) as HIJ by (by apply lookup_union_Some_l).
    unfold idle_res at 1. rewrite (big_sepM_delete _ (I ∪ J) u bs) //.
    iDestruct "Hi" as "[(%it & %HH & Ho) Hi]". fold (idle_res (delete u (I ∪ J)) H).
    iExists (<[inl tid := it]> (delete (inr u) H)), it. rewrite holds_one. iFrame "Ho".
    rewrite (shared_rekey _ _ (inr u) (inl tid) it) //. iFrame "Hs". iSplit.
    + iPureIntro. split_and!; [apply lookup_insert_eq| |by apply map_disjoint_delete_r|
        apply dom_ok_call; by apply (dom_ok_delete H (I ∪ J) P (inr u))].
      intros t' Hne. rewrite lookup_insert_ne; [|congruence]. by rewrite lookup_delete_ne.
    + iApply (idle_frame with "Hi"). intros v [x [Hne _]%lookup_delete_Some].
      rewrite lookup_insert_ne; [|done]. rewrite lookup_delete_ne; [done|congruence].
  - iExists (<[inl tid := item_init]> H), item_init.
    rewrite (shared_add _ _ (inl tid) item_init) //. iFrame "Hs". iSplit; [|iSplitL; [|by iApply holds_none]].
    + iPureIntro. split_and!; [apply lookup_insert_eq| |done|by apply dom_ok_call].
      intros t' Hne. rewrite lookup_insert_ne; [done|congruence].
    + iApply (idle_frame with "Hi"). intros v _. by rewrite lookup_insert_ne.
Qed.
Lemma invoke_inv I P w tid o :
  P !! tid = None → valid (untracked cfg) (MkSpec I ∅) o →
  conf_res I P w ⊢ conf_res (unclaimed o I) (<[tid := (MkCall o (claimed o I), exec fuel tid o)]> P) w.
Proof using HL Hab Hf.
  intros HP Hv. iIntros "(%J & %H & %HJ & Hs & Ht & Hi)". destruct HJ as [[HJ HJ'] Hdom].
  iDestruct (take_block o I J H w tid P with "[$Hs $Hi]") as (H' it (HH'&Hother&Hdisj&Hdom')) "(Hs & Hi & Hh)"; [done..|].
  iExists J, H'. iSplit; [done|]. iFrame "Hs Hi". iApply (threads_start _ _ _ _ _ _ _ it); [done|done|].
  iSplitL "Ht".
  - iApply (threads_frame with "Ht"). intros t x Hx. split; [reflexivity|]. apply Hother. congruence.
  - by iApply cwp_exec.
Qed.

(** An action: it succeeds. *)
Lemma call_act P w H tid t X (f : AllocatorImpl → cmd (X * AllocatorImpl)) k :
  P !! tid = Some (t, Act f k) →
  shared_inv cfg w H ∗ threads (HP := alloc_protocol cfg) (done_with cfg) P w H ⊢
  wp (f w) (λ r, ∃ it, shared_inv cfg r.2 (<[inl tid := it]> H) ∗
    threads (HP := alloc_protocol cfg) (done_with cfg) (<[tid := (t, k r.1)]> P) r.2 (<[inl tid := it]> H)).
Proof using HL. exact (threads_act (HP := alloc_protocol cfg) (done_with cfg) P w H tid t X f k). Qed.
Lemma action_inv c tid t X (f : AllocatorImpl → cmd (X * AllocatorImpl)) k :
  conf_inv c → calls c !! tid = Some (t, Act f k) →
  ∃ x w' m', f (impl c) (memory c) = Ok (x, w') m' ∧
    conf_inv (MkConf (idle c) (<[tid := (t, k x)]> (calls c)) w' m').
Proof using HL.
  intros Hinv Ht. destruct c as [I P w m]. cbn in *.
  destruct (sat_wp (conf_res I P w) (f w) (λ r, conf_res I (<[tid := (t, k r.1)]> P) r.2) m) with (2 := Hinv) as ([x w']&m'&Hr&Hsat).
  - iIntros "(%J & %H & [%HJ %Hdom] & Hs & Ht & Hi)". iDestruct (call_act with "[$Hs $Ht]") as "H"; [done|].
    iApply (wp_wand with "H"). iIntros (r) "(%it & Hs & Ht)". iExists J, _. iFrame "Hs Ht". iSplit.
    + iPureIntro. split; [done|]. by apply dom_ok_call.
    + iApply (idle_frame with "Hi"). intros v _. by rewrite lookup_insert_ne.
  - by exists x, w', m'.
Qed.

(** An answer. *)
Lemma owned_reads u bs it R m : sat (owned u bs it ∗ R) m → read_bytes m u (Z.of_nat (length bs)) = bs.
Proof using HL.
  intros Hs. destruct (sat_wp (owned u bs it ∗ R) (load_list u (length bs)) (λ r, ⌜r = bs⌝)%I m) with (2 := Hs) as (r&m'&Hr&Hsat).
  - iIntros "[(%a & _ & _ & _ & Hu & _) _]". iApply wp_load_list. iFrame "Hu". by iIntros "_".
  - apply sat_pure in Hsat as ->. unfold load_list in Hr. unfold read_bytes. rewrite Nat2Z.id.
    by destruct (load_bytes m u (length bs)); simplify_eq/=.
Qed.
Lemma holds_reads M it R m : sat (holds M it ∗ R) m → reads m M.
Proof using HL.
  intros Hs u bs Hu. apply (owned_reads u bs it R). eapply sat_mono; [|exact Hs].
  iIntros "[[[-> _]|(%v & %bs' & -> & Ho)] $]"; [by rewrite lookup_empty in Hu|].
  apply lookup_singleton_Some in Hu as [-> ->]. done.
Qed.
(** A block in somebody's hands is none of the idle ones. *)
Lemma holds_fresh M it I H : holds M it ∗ idle_res I H ⊢ ⌜M ##ₘ I⌝.
Proof using HL.
  clear Hf fuel. iIntros "[[[-> _]|(%u & %bs & -> & Ho)] Hi]"; [iPureIntro; apply map_disjoint_empty_l|].
  rewrite map_disjoint_singleton_l. destruct (I !! u) as [bs'|] eqn:E; [|done].
  iDestruct (big_sepM_lookup with "Hi") as (it' _) "Ho'"; [done|].
  iDestruct (owned_pos with "Ho") as %?. iDestruct (owned_pos with "Ho'") as %?.
  iDestruct "Ho" as (a _) "(_ & _ & Hu & _)". iDestruct "Ho'" as (a' _) "(_ & _ & Hu' & _)".
  iDestruct (bytes_at_disjoint with "[$Hu $Hu']") as %?; [lia|lia|]. lia.
Qed.
(** What a call holds goes back to the clients; a block it has lost becomes a stray. *)
Lemma give_back M K it H w tid P :
  H !! inl tid = Some it → dom_ok H K P →
  holds M it ∗ shared_inv cfg w H ∗ idle_res K H ⊢
  ∃ H', ⌜(∀ t, t ≠ tid → H' !! inl t = H !! inl t) ∧ dom_ok H' (M ∪ K) (delete tid P)⌝ ∗
    shared_inv cfg w H' ∗ idle_res (M ∪ K) H'.
Proof using HL.
  clear Hf fuel. intros HH Hdom. iIntros "(Hh & Hs & Hi)". iDestruct (holds_fresh with "[$Hh $Hi]") as %Hd.
  pose proof (dom_ok_delete H K P (inl tid) Hdom) as Hdom'. cbn in Hdom'.
  iDestruct "Hh" as "[[-> %He]|(%u & %bs & -> & Ho)]".
  - iExists (delete (inl tid) H). rewrite (left_id_L ∅ (∪)) (shared_drop _ _ (inl tid) it) //. iFrame "Hs".
    iSplit; [iPureIntro; split; [|done]|].
    + intros t Hne. rewrite lookup_delete_ne; [done|congruence].
    + iApply (idle_frame with "Hi"). intros v _. by rewrite lookup_delete_ne.
  - assert (K !! u = None) as HK by by eapply map_disjoint_singleton_l.
    assert (H !! inr u = None) as HHu by (apply (dom_ok_none H K P); [done|cbn; rewrite HK; by intros []]).
    iExists (<[inr u := it]> (delete (inl tid) H)). rewrite (shared_rekey _ _ (inl tid) (inr u) it) //.
    rewrite -insert_union_singleton_l. iFrame "Hs". iSplit; [iPureIntro; split; [|by apply dom_ok_idle]|].
    + intros t Hne. rewrite lookup_insert_ne; [|done]. rewrite lookup_delete_ne; [done|congruence].
    + unfold idle_res. rewrite big_sepM_insert //. iSplitL "Ho"; [iExists it; iFrame; iPureIntro; apply lookup_insert_eq|].
      iApply (idle_frame with "Hi"). intros v [x Hx]. rewrite lookup_insert_ne; [|congruence].
      by rewrite lookup_delete_ne.
Qed.
Lemma leave_behind K it it1 it2 H w tid P :
  H !! inl tid = Some it → dom_ok H K P → splits it it1 it2 →
  lost it2 ∗ shared_inv cfg w H ∗ idle_res K H ⊢
  ∃ H' u bs, ⌜K !! u = None ∧ H' !! inl tid = Some it1 ∧ (∀ t, t ≠ tid → H' !! inl t = H !! inl t) ∧
      dom_ok H' (<[u := bs]> K) P⌝ ∗
    shared_inv cfg w H' ∗ idle_res (<[u := bs]> K) H'.
Proof using HL.
  clear Hf fuel. intros HH Hdom Hsp. iIntros "((%u & %bs & Ho) & Hs & Hi)". rewrite -holds_one.
  iDestruct (holds_fresh {[ u := bs ]} with "[$Ho $Hi]") as %HK%map_disjoint_singleton_l. rewrite holds_one.
  assert (H !! inr u = None) as HHu by (apply (dom_ok_none H K P); [done|cbn; rewrite HK; by intros []]).
  iExists (<[inr u := it2]> (<[inl tid := it1]> H)), u, bs. rewrite (shared_split _ _ (inl tid) (inr u) it it1 it2) //.
  iFrame "Hs". iSplit.
  - iPureIntro. split_and!; [done|by rewrite lookup_insert_ne // lookup_insert_eq| |].
    + intros t Hne. rewrite lookup_insert_ne // lookup_insert_ne //. congruence.
    + apply dom_ok_idle. intros k [x Hx]. apply Hdom. apply lookup_insert_Some in Hx as [[<- _]|[_ Hx]]; by eexists.
  - unfold idle_res. rewrite big_sepM_insert //. iSplitL "Ho"; [iExists it2; iFrame; iPureIntro; apply lookup_insert_eq|].
    iApply (idle_frame with "Hi"). intros v [x Hx]. rewrite lookup_insert_ne; [|congruence].
    by rewrite lookup_insert_ne.
Qed.
Lemma answered c tid t r :
  conf_inv c → calls c !! tid = Some (t, Ret r) →
  ∃ M, allowed cfg (c_held t) (c_op t) r M ∧
    returned (c_op t) r (c_held t) (memory c) = M ∧ M ##ₘ idle c ∧
    conf_inv (MkConf (M ∪ idle c) (delete tid (calls c)) (impl c) (memory c)).
Proof using HL Hf.
  intros Hinv Ht. destruct c as [I P w m]. unfold conf_inv in *. cbn [idle calls impl memory] in *.
  eapply (sat_mono _ (∃ J H M it, ⌜(allowed cfg (c_held t) (c_op t) r M ∧
      ∀ m, reads m M → returned (c_op t) r (c_held t) m = M) ∧ strays I J ∧ dom_ok H (I ∪ J) P ∧ H !! inl tid = Some it⌝ ∗
    (holds M it ∗ (shared_inv cfg w H ∗ threads (HP := alloc_protocol cfg) (done_with cfg) (delete tid P) w H ∗ idle_res (I ∪ J) H)))) in Hinv.
  2: { iIntros "(%J & %H & [%HJ %Hdom] & Hs & Ht & Hi)".
       iDestruct (threads_end with "Ht") as "[Ht (%s0 & %it & [_ %HH] & %M & %Hal & [Hh|(%Hlk & %it1 & %it2 & %Hsp & Hh & Hlost)])]"; [done| |].
       { iExists J, H, M, it. by iFrame. }
       iDestruct (leave_behind with "[$Hlost $Hs $Hi]") as (H' u bs (HK&HH'&Hother&Hdom')) "[Hs Hi]"; [done..|].
       apply lookup_union_None in HK as [HIu HJu]. destruct HJ as [HJ HJ'].
       iExists (<[u := bs]> J), H', M, it1. rewrite -insert_union_r //. iFrame "Hh Hs Hi". iSplit.
       - iPureIntro. split; [exact Hal|]. split; [|by split]. split; [by apply map_disjoint_insert_l|]. by rewrite Hlk.
       - iApply (threads_frame with "Ht"). intros t' x [Hne _]%lookup_delete_Some. split; [reflexivity|]. by apply Hother. }
  do 4 (apply sat_exist in Hinv as [? Hinv]). rename x into J, x0 into H, x1 into M, x2 into it.
  apply sat_pure_l in Hinv as [[[Hst Hret] ([HJ HJ']&Hdom&HH)] Hinv]. exists M. split; [exact Hst|].
  split; [apply Hret; by eapply holds_reads|].
  assert (M ##ₘ I ∪ J) as [HMI HMJ]%map_disjoint_union_r.
  { apply (sat_pure _ m). eapply sat_mono; [|exact Hinv]. iIntros "(Hh & _ & _ & Hi)". iApply (holds_fresh with "[$Hh $Hi]"). }
  split; [exact HMI|]. eapply sat_mono; [|exact Hinv]. iIntros "(Hh & Hs & Ht & Hi)".
  iDestruct (give_back with "[$Hh $Hs $Hi]") as (H' [Hother Hdom']) "[Hs Hi]"; [done..|].
  iExists J, H'. rewrite -(assoc_L (∪)). iFrame "Hs Hi". iSplit.
  - iPureIntro. split; [split; [by apply map_disjoint_union_r|done]|done].
  - iApply (threads_frame with "Ht"). intros t' x [Hne _]%lookup_delete_Some. split; [reflexivity|]. by apply Hother.
Qed.

(** ** Executions *)
Lemma conc_step_inv c c' : conc_step cfg fuel c c' → conf_inv c → conf_inv c'.
Proof using HL Hab Hf.
  intros Hst Hinv. destruct Hst as [I P w m tid o HP Hv|c c' [I P w m tid t X f k x w' m' HP Hr|I P w m tid t r HP]].
  - eapply sat_mono; [|exact Hinv]. by apply invoke_inv.
  - destruct (action_inv _ _ _ _ _ _ Hinv HP) as (x1&w1&m1&Hr1&H1). cbn in Hr1, H1.
    rewrite Hr in Hr1. injection Hr1 as <- <- <-. exact H1.
  - destruct (answered _ _ _ _ Hinv HP) as (M&_&Hret&_&H1). cbn in Hret, H1. by rewrite Hret.
Qed.
Definition conf_init (self : Z) (tls : gmap Z ThreadCache.ThreadCache) (throws dbg : Z → bool) (m : mem) : conf :=
  MkConf ∅ ∅ (AllocatorImpl_init cfg self tls throws dbg) m.
Lemma shared_inv_init self tls throws dbg :
  (∀ tid t, tls !! tid = Some t → ThreadCache.central_ t ≠ self) →
  ⊢ shared_inv cfg (AllocatorImpl_init cfg self tls throws dbg) ∅.
Proof using HL.
  intros Htls. iExists caps_empty. iSplit; [|by iApply raw_inv_init]. iPureIntro. split_and!; [done|done| |].
  - split; [by intros []|by intros []].
  - intros lg. split_and!; [by intros ????|by destruct lg|by intros ?????].
Qed.
Lemma conf_inv_init self tls throws dbg m :
  (∀ tid t, tls !! tid = Some t → ThreadCache.central_ t ≠ self) →
  conf_inv (conf_init self tls throws dbg m).
Proof using HL.
  intros Htls. apply sat_start. iExists ∅, ∅. iSplit.
  { iPureIntro. split; [split; [apply map_disjoint_empty_l|done]|by intros k []%lookup_empty_is_Some]. }
  iSplitL; [by iApply shared_inv_init|iSplitL; [iApply threads_empty|by iApply big_sepM_empty]].
Qed.
Definition reachable (c0 c : conf) : Prop := rtc (conc_step cfg fuel) c0 c.
Lemma reachable_inv c0 c : reachable c0 c → conf_inv c0 → conf_inv c.
Proof using HL Hab Hf. induction 1; eauto using conc_step_inv. Qed.

(** Blocks in the clients' hands, as the memory has them. *)
Lemma idle_apart c : conf_inv c →
  ∀ u us v vs, u ≠ v → idle c !! u = Some us → idle c !! v = Some vs →
    u + Z.of_nat (length us) ≤ v ∨ v + Z.of_nat (length vs) ≤ u.
Proof using HL.
  intros Hinv u us v vs Hne Hu Hv. apply (sat_pure _ (memory c)). eapply sat_mono; [|exact Hinv].
  iIntros "(%J & %H & _ & _ & _ & Hi)". unfold idle_res.
  rewrite (big_sepM_delete _ _ u us); [|by apply lookup_union_Some_l].
  iDestruct "Hi" as "[(%it & _ & Ho) Hi]".
  rewrite (big_sepM_lookup _ _ v vs); [|rewrite lookup_delete_ne //; by apply lookup_union_Some_l].
  iDestruct "Hi" as (it' _) "Ho'". iDestruct (owned_pos with "Ho") as %(_&_&Hl). iDestruct (owned_pos with "Ho'") as %(_&_&Hl').
  iDestruct "Ho" as (a _) "(_ & _ & Hu & _)". iDestruct "Ho'" as (a' _) "(_ & _ & Hu' & _)".
  iApply bytes_at_disjoint; [exact Hl|exact Hl'|iFrame].
Qed.
Lemma idle_reads c : conf_inv c → reads (memory c) (idle c).
Proof using HL.
  intros Hinv u bs Hu.
  assert (sat (∃ it, owned u bs it ∗ emp) (memory c)) as [it Hit]%sat_exist; [|by apply (owned_reads u bs it emp)].
  eapply sat_mono; [|exact Hinv]. iIntros "(%J & %H & _ & _ & _ & Hi)". unfold idle_res.
  rewrite (big_sepM_lookup _ _ u bs); [|by apply lookup_union_Some_l]. iDestruct "Hi" as (it _) "Ho". iExists it. by iFrame.
Qed.

(** ** The books at rest *)
Lemma idle_allocs I H :
  idle_res I H ⊢ ∃ L, ⌜live_ok L ∧ (∀ u, is_Some (L !! u) ↔ is_Some (I !! u)) ∧
      ∀ u a, L !! u = Some a → ∃ it, H !! inr u = Some it ∧ block_item a it⌝ ∗
    client_res L I ∗ [∗ map] u ↦ a ∈ L, live_res u a.
Proof using.
  unfold idle_res. induction I as [|u bs I Hu IH] using map_ind.
  - iIntros "_". iExists ∅. rewrite big_sepM_empty /client_res big_sepM2_empty.
    iSplit; [iPureIntro; split_and!|done].
    + intros u a []%lookup_empty_Some.
    + intros u. rewrite !lookup_empty. split; by intros [].
    + intros u a []%lookup_empty_Some.
  - rewrite big_sepM_insert // IH. iIntros "[(%it & %HH & %a & [%Hwf %Hb] & Hl & Hh) (%L & (%Hok & %Hdom & %Hits) & Hc & HL)]".
    assert (L !! u = None) as HLu by (rewrite eq_None_not_Some Hdom Hu; by intros []).
    iExists (<[u := a]> L). unfold client_res. rewrite big_sepM2_insert // big_sepM_insert //. iFrame.
    iPureIntro. split_and!.
    + intros v b [[<- <-]|[_ Hv]]%lookup_insert_Some; [done|by apply Hok].
    + intros v. destruct (decide (v = u)) as [->|Hne]; [by rewrite !lookup_insert_eq|].
      rewrite !lookup_insert_ne //.
    + intros v b [[<- <-]|[_ Hv]]%lookup_insert_Some; [by exists it|by apply Hits].
Qed.
Lemma tally_blocks q L H :
  (∀ k, is_Some (H !! k) → ∃ u, k = inr u ∧ is_Some (L !! u)) →
  (∀ u a, L !! u = Some a → ∃ it, H !! inr u = Some it ∧ block_item a it) →
  tally q H = map_sum (λ a, share (a_size a) (a_reserved a) q) L.
Proof using.
  revert H. induction L as [|u a L Hu IH] using map_ind; intros H Hdom Hits.
  - assert (H = ∅) as ->; [|done]. apply map_empty. intros k. apply eq_None_not_Some.
    intros (v&_&[? Hv])%Hdom. by rewrite lookup_empty in Hv.
  - destruct (Hits u a) as (it&HH&_&Hsum); [by rewrite lookup_insert_eq|].
    unfold tally. rewrite (map_sum_delete _ H (inr u) it) // map_sum_insert // Hsum. f_equal.
    apply IH.
    + intros k [x [Hne Hx]%lookup_delete_Some]. destruct (Hdom k) as (v&->&Hv); [by eexists|].
      exists v. split; [done|]. rewrite lookup_insert_ne in Hv; [done|congruence].
    + intros v b Hv. destruct (Hits v b) as (it'&Hit&Hb).
      { rewrite lookup_insert_ne; [done|congruence]. }
      exists it'. split; [|done]. rewrite lookup_delete_ne; [done|congruence].
Qed.
(** What the counters are when no call is running. *)
Definition books (s : StatisticsCollector) I : Prop :=
  activeAllocations_ s = Z.of_nat (size I) ∧ liveRequested_ s = usage I ∧ usage I ≤ liveReserved_ s < W64 ∧
  allocationCount_ s = wrap64 (freeCount_ s + Z.of_nat (size I)) ∧
  allocatedBytes_ s = wrap64 (freedBytes_ s + usage I).
Lemma wrap64_shift (n v v' : Z) : wrap64 v = wrap64 v' → wrap64 (n + v) = wrap64 (n + v').
Proof using. unfold wrap64. intros Hv. by rewrite -(Z.add_mod_idemp_r n v) // Hv Z.add_mod_idemp_r. Qed.
Lemma books_at_rest c : conf_inv c → calls c = ∅ →
  ∃ J, strays (idle c) J ∧ books (get_stats (impl c)) (idle c ∪ J).
Proof using HL.
  clear Hf fuel. intros Hinv Hno. apply sat_exist in Hinv as [J Hinv]. exists J.
  apply (sat_pure _ (memory c)). eapply sat_mono; [|exact Hinv]. rewrite Hno.
  iIntros "(%H & [%HJ %Hdom] & (%C & (_ & _ & [%Hin %Hs] & _) & _) & _ & Hi)".
  iDestruct (idle_allocs with "Hi") as (L (Hok&HLI&Hits)) "[Hc HL]".
  iDestruct (client_usage with "[$Hc $HL]") as %(Hsz&Hus&Hle&Hcnt); [done|]. iPureIntro. split; [exact HJ|].
  assert (∀ q, tally q H = map_sum (λ a, share (a_size a) (a_reserved a) q) L) as Htally.
  { intros q. apply tally_blocks; [|done]. intros k Hk. specialize (Hdom k Hk). destruct k as [t|u]; cbn in Hdom.
    - destruct Hdom as [? Ht]. by rewrite lookup_empty in Ht.
    - exists u. split; [done|]. by apply HLI. }
  set (s := get_stats (impl c)) in *.
  pose proof (λ k, wrap64_small _ (Hin k)) as Hw. pose proof (Hs Active) as HA. pose proof (Hs Requested) as HR.
  pose proof (Hs Reserved) as HV. pose proof (Hs Count) as HC. pose proof (Hs Bytes) as HB.
  rewrite Htally in HA. rewrite Htally in HR. rewrite Htally in HV. rewrite Htally in HC. rewrite Htally in HB.
  cbn [measured share] in *. rewrite map_sum_one Hsz in HA. rewrite map_sum_one Hsz in HC. rewrite Hus in HR.
  rewrite Hus in HB.
  rewrite (Hw ActiveAllocations) (wrap64_small (Z.of_nat _)) in HA; [|unfold in64; lia].
  rewrite (Hw LiveRequested) (wrap64_small (usage _)) in HR; [|unfold in64; lia].
  change (λ a, a_reserved a) with a_reserved in HV.
  rewrite (Hw LiveReserved) (wrap64_small (map_sum a_reserved L)) in HV; [|unfold in64; lia].
  cbn [get_counter] in *. rewrite /books HA HR HV. split_and!; [done|done|lia|lia| |].
  - etrans; [symmetry; apply (Hw AllocationCount)|]. cbn [get_counter]. apply (wrap64_shift (freeCount_ s)) in HC. rewrite -HC. f_equal. lia.
  - etrans; [symmetry; apply (Hw AllocatedBytes)|]. cbn [get_counter]. apply (wrap64_shift (freedBytes_ s)) in HB. rewrite -HB. f_equal. lia.
Qed.
(** ** Progress *)
Lemma run_wf : well_founded (flip run_step).
Proof using.
  clear Hab Hf fuel cfg HL. intros c. apply (wf_projected advances calls); [|exact advances_wf].
  intros c2 c1 [I P w m0 tid t X f k x w' m' HP _|I P w m0 tid t r HP].
  - left. exists tid, t, (Act f k), (k x). split_and!; [done|by exists x|done].
  - right. by exists tid, t, r.
Qed.
Lemma can_go_on c : conf_inv c → calls c ≠ ∅ → ∃ c', run_step c c'.
Proof using HL.
  clear Hf fuel. intros Hinv (tid&[t p]&Ht)%map_choose. destruct p as [r|X f k].
  - destruct c. eexists. by eapply Return.
  - destruct (action_inv c tid t X f k Hinv Ht) as (x&w'&m'&Hr&_). destruct c. eexists. by eapply Action.
Qed.
End safety.

(** ** The promises to concurrent clients *)
(** No running call is about to fault, abort or exhaust its loops. *)
Definition no_fault c : Prop :=
  ∀ tid t X (f : AllocatorImpl → cmd (X * AllocatorImpl)) k, calls c !! tid = Some (t, Act f k) →
    ∃ x w' m', f (impl c) (memory c) = Ok (x, w') m'.
(** Every answer about to be delivered is one the specification allows on the block the
    call took - or, with tracking on, a refusal that leaves the caller its block -, and
    the block that comes back is nobody else's. *)
Definition answers_allowed `{!OS} (cfg : AllocatorConfig) c : Prop :=
  ∀ tid t r, calls c !! tid = Some (t, Ret r) →
    ∃ M, returned (c_op t) r (c_held t) (memory c) = M ∧ M ##ₘ idle c ∧
      allowed cfg (c_held t) (c_op t) r M.
Definition blocks_apart c : Prop :=
  ∀ u us v vs, u ≠ v → idle c !! u = Some us → idle c !! v = Some vs →
    u + Z.of_nat (length us) ≤ v ∨ v + Z.of_nat (length vs) ≤ u.


(** C18: the statistics under concurrency.  Whatever the interleaving was, whenever no
    call is running the counters are exact: there are blocks [J] beside the clients' -
    none when tracking is off, and otherwise only blocks that refused reallocations
    lost -, and the live count and the live bytes are those of the two together, at
    least that much is reserved, and the totals of allocations and frees differ by
    exactly what is live - no update was lost. *)
Theorem quiescent_statistics `{HOS : !OS, HL : !OSLaws} cfg fuel self tls throws dbg m c :
  abortOnError cfg = false → W64 ≤ Z.of_nat fuel →
  (∀ tid t, tls !! tid = Some t → ThreadCache.central_ t ≠ self) →
  reachable cfg fuel (conf_init cfg self tls throws dbg m) c → calls c = ∅ →
  ∃ J, J ##ₘ idle c ∧ (enableLeakTracking cfg = false → J = ∅) ∧ books (get_stats (impl c)) (idle c ∪ J).
Proof.
  intros Hab Hf Htls Hreach Hno. destruct (books_at_rest cfg c) as (J&[HJ HJ']&Hb); [|exact Hno|by exists J].
  eapply reachable_inv; [done..|]. by apply conf_inv_init.
Qed.

(** C19: progress.  The running calls end, however they are scheduled: no sequence of
    their actions is infinite - in particular the retry loop of the peak ends, whatever
    the others do -, and as long as one is running it can go on. *)
Theorem calls_terminate `{HOS : !OS, HL : !OSLaws} cfg fuel self tls throws dbg m c :
  abortOnError cfg = false → W64 ≤ Z.of_nat fuel →
  (∀ tid t, tls !! tid = Some t → ThreadCache.central_ t ≠ self) →
  reachable cfg fuel (conf_init cfg self tls throws dbg m) c →
  Acc (flip run_step) c ∧ (calls c ≠ ∅ → ∃ c', run_step c c').
Proof.
  intros Hab Hf Htls Hreach. split; [apply run_wf|].
  apply (can_go_on cfg). eapply reachable_inv; [done..|]. by apply conf_inv_init.
Qed.

(** ** Instances *)
Section demo.
#[local] Instance demo_os : OS := bump_os 9.
#[local] Instance demo_laws : OSLaws := bump_laws 9.
Definition all_turns : nat := Z.to_nat W64.
Definition demo_start : conf := conf_init debug 7 ∅ (λ _, false) (λ _, false) mem_init.
(** Two threads that have just called [allocate], everything enabled. *)
Definition demo_two : conf :=
  MkConf ∅ (<[2 := (MkCall (Malloc 50) ∅, exec all_turns 2 (Malloc 50))]>
            (<[1 := (MkCall (Malloc 100) ∅, exec all_turns 1 (Malloc 100))]> ∅)) (impl demo_start) mem_init.
Lemma no_stale tid t : (∅ : gmap Z ThreadCache.ThreadCache) !! tid = Some t → ThreadCache.central_ t ≠ 7.
Proof. by intros []%lookup_empty_Some. Qed.
Lemma all_turns_enough : W64 ≤ Z.of_nat all_turns.
Proof. unfold all_turns. rewrite Z2Nat.id; [done|by rewrite W64_eq]. Qed.
Lemma demo_reached : reachable debug all_turns demo_start demo_two.
Proof.
  eapply rtc_l; [apply (Invoke debug all_turns ∅ ∅ _ _ 1 (Malloc 100)); [done|by vm_compute]|].
  apply rtc_once. apply (Invoke debug all_turns ∅ _ _ _ 2 (Malloc 50)); [done|by vm_compute].
Qed.
Lemma quiescent_statistics_witness : ∃ J, books (get_stats (impl demo_start)) (∅ ∪ J).
Proof.
  destruct (quiescent_statistics debug all_turns 7 ∅ (λ _, false) (λ _, false) mem_init demo_start eq_refl
    all_turns_enough no_stale ltac:(apply rtc_refl) eq_refl) as (J&_&_&Hb). exact (ex_intro _ J Hb).
Defined.
Lemma calls_terminate_witness : ∃ c, run_step demo_two c.
Proof.
  destruct (calls_terminate debug all_turns 7 ∅ (λ _, false) (λ _, false) mem_init demo_two eq_refl
    all_turns_enough no_stale demo_reached) as [_ Hgo]. apply Hgo. unfold demo_two. cbn [calls].
  apply insert_non_empty.
Defined.
End demo.
