(* ===== verification/RunnerThreads.v ===== *)
(** [Runner::measureMultiThreaded]: the worker threads of the benchmark share one
    adapter.  A team is the threads that were started, the handle and the memory; its
    steps are the threads' actions, in any order.  The calling thread waits for them. *)

From stdpp Require Import gmap.
From iris.proofmode Require Import proofmode.
From S2P Require Import Prelude.
From S2P Require Import HeapProp.
From S2P Require Import Memory.
From S2P Require Import Platform.
From S2P Require Import Logic.
From S2P Require Import Prog.
From S2P Require Import Interleaving.
From S2P Require Import ProgLogic.
From S2P Require Import StatisticsCollector.
From S2P Require Import Config.
From S2P Require Import DebugLayer.
From S2P Require Import AllocatorImpl.
From S2P Require Import RawAlloc.
From S2P Require Import AllocatorInv.
From S2P Require Import SharedInv.
From S2P Require Import SharedStats.
From S2P Require Import Allocator.
From S2P Require Import Facade.
From S2P Require Import Adapters.
From S2P Require Import Usage.
From S2P Require Import Runner.
From S2P Require Import SharedHandle.
From S2P Require Import Concurrent.
From S2P Require Import ThreadSafety.

Open Scope Z_scope.

(** ** The threads *)
Notation crew S := (gmap Z (list Z * prog S ())).
(** The threads [ts], each with the sizes it is going to draw. *)
Definition start {S} `{!AllocatorAdapter S} (draws : Z → list Z) (ts : list Z) : crew S :=
  list_to_map ((λ t, (t, (draws t, worker t (draws t)))) <$> ts).
Definition measureMultiThreaded {S} `{!AllocatorAdapter S} (iterations hardware_concurrency : Z)
    (sizeDist : Z → nat → Z) : crew S :=
  if negb threadSafe then ∅ else
  start (λ t, sizeDist t <$> seq 0 (Z.to_nat (perThread iterations hardware_concurrency)))
    (seqZ 0 (threadCount hardware_concurrency)).

Record team := MkTeam { running : crew Allocator; adapter : Allocator; team_memory : mem }.
Inductive team_step : team → team → Prop :=
  | Turn P h m tid t X (f : Allocator → cmd (X * Allocator)) k x h' m' :
      P !! tid = Some (t, Act f k) → f h m = Ok (x, h') m' →
      team_step (MkTeam P h m) (MkTeam (<[tid := (t, k x)]> P) h' m').
Definition joined (g : team) : Prop := ∀ tid t p, running g !! tid = Some (t, p) → p = Ret ().

Section team.
Context `{HOS : !OS, HL : !OSLaws} (fuel : nat) (Hf : W64 ≤ Z.of_nat fuel).
Notation cfg := AllocatorConfig_default.
#[local] Instance bench_adapter : AllocatorAdapter Allocator := MAllocAdapter fuel.
#[local] Existing Instance handle_protocol.
Implicit Types (P : crew Allocator) (h : Allocator) (H : gmap holder item).

(** ** The invariant *)
(** A worker that is done holds nothing. *)
Definition idle_hands (tid : Z) (t : list Z) (a : ()) (h : Allocator) (it : item) : heapPropI := hands (h, it) ∅.
Definition team_res P h : heapPropI :=
  ∃ H, ⌜∀ k, is_Some (H !! k) → ∃ tid, k = inl tid ∧ is_Some (P !! tid)⌝ ∗
    handle_shared cfg h H ∗ threads (HP := handle_protocol cfg) idle_hands P h H.
Definition team_inv (g : team) : Prop := sat (team_res (running g) (adapter g)) (team_memory g).

Lemma cwp_worker tid sizes w :
  Forall size_ok sizes →
  ⊢ cwp (HP := handle_protocol cfg) tid (worker tid sizes) (owning w) item_init (idle_hands tid sizes).
Proof using HL Hf.
  intros Hsz.
  iApply (after_worker (HP := among (HS := handle_protocol cfg) tid) tid
    (HAS := MAllocAdapter_shared cfg fuel eq_refl eq_refl Hf tid) sizes (owning w, item_init) ∅
    (λ a s, idle_hands tid sizes a s.1 s.2)); [done|].
  iSplitR.
  - iExists w, ∅. iSplit; [|by iApply big_sepM_empty]. iPureIntro.
    split_and!; [done|done|by intros ??; rewrite lookup_empty|apply item_of_init].
  - iIntros ([h it]) "H". iExact "H".
Qed.
Lemma team_started draws ts w :
  NoDup ts → (∀ t, Forall size_ok (draws t)) →
  shared_inv cfg w ∅ ⊢ team_res (start draws ts) (owning w).
Proof using HL Hf.
  intros Hnd Hsz. induction Hnd as [|t ts Ht Hnd IH]; iIntros "Hs".
  - iExists ∅. iSplit; [iPureIntro; by intros k []%lookup_empty_is_Some|].
    iSplitL; [iExists w; by iFrame|iApply threads_empty].
  - iDestruct (IH with "Hs") as (H HH) "[(%w' & %E & Hs) Ht]". injection E as <-.
    assert (start draws ts !! t = None) as Hn.
    { apply not_elem_of_list_to_map_1. rewrite -list_fmap_compose. by rewrite list_fmap_id. }
    assert (H !! inl t = None) as HHn.
    { apply eq_None_not_Some. intros [tid [[= <-] Hs]]%HH. rewrite Hn in Hs. by destruct Hs. }
    iExists (<[inl t := item_init]> H). iSplit; [iPureIntro|iSplitL "Hs"].
    + intros k [<-|[_ Hk]]%lookup_insert_is_Some.
      * exists t. split; [done|]. cbn. rewrite lookup_insert_eq. by eexists.
      * destruct (HH k Hk) as (tid&->&Hs). exists tid. split; [done|]. cbn. apply lookup_insert_is_Some'. by right.
    + iExists w. iSplit; [done|]. by iApply (shared_add with "Hs").
    + iApply (threads_start _ _ _ _ _ _ _ item_init); [done|apply lookup_insert_eq|]. iSplitL "Ht".
      * iApply (threads_frame with "Ht"). intros tid x Hx. split; [reflexivity|].
        rewrite lookup_insert_ne; [done|]. intros [= <-]. congruence.
      * by iApply cwp_worker.
Qed.
Lemma team_turn g tid t X (f : Allocator → cmd (X * Allocator)) k :
  team_inv g → running g !! tid = Some (t, Act f k) →
  ∃ x h' m', f (adapter g) (team_memory g) = Ok (x, h') m' ∧
    team_inv (MkTeam (<[tid := (t, k x)]> (running g)) h' m').
Proof using HL.
  intros Hinv Ht. destruct g as [P h m]. cbn in *.
  destruct (sat_wp (team_res P h) (f h) (λ r, team_res (<[tid := (t, k r.1)]> P) r.2) m) with (2 := Hinv) as ([x h']&m'&Hr&Hsat).
  - iIntros "(%H & %HH & Hs & Ht)".
    iDestruct (threads_act (HP := handle_protocol cfg) idle_hands P h H tid t X f k with "[$Hs $Ht]") as "H"; [done|].
    iApply (wp_wand with "H"). iIntros (r) "(%it & Hs & Ht)". iExists _. iFrame "Hs Ht". iPureIntro.
    intros k' [<-|[_ Hk]]%lookup_insert_is_Some.
    + exists tid. split; [done|]. rewrite lookup_insert_eq. by eexists.
    + destruct (HH k' Hk) as (t'&->&Hs). exists t'. split; [done|]. apply lookup_insert_is_Some'. by right.
  - by exists x, h', m'.
Qed.
Lemma team_step_inv g g' : team_step g g' → team_inv g → team_inv g'.
Proof using HL.
  intros [P h m tid t X f k x h' m' HP Hr] Hinv.
  destruct (team_turn _ _ _ _ _ _ Hinv HP) as (x1&h1&m1&Hr1&H1). cbn in Hr1, H1.
  rewrite Hr in Hr1. injection Hr1 as <- <- <-. exact H1.
Qed.
Lemma team_reachable_inv g g' : rtc team_step g g' → team_inv g → team_inv g'.
Proof using HL. induction 1; eauto using team_step_inv. Qed.

(** ** At the end *)
Definition balanced (s : StatisticsCollector) : Prop :=
  activeAllocations_ s = 0 ∧ liveRequested_ s = 0 ∧ liveReserved_ s = 0 ∧
  allocationCount_ s = freeCount_ s ∧ allocatedBytes_ s = freedBytes_ s.
Lemma no_shares P h H :
  (∀ tid t p, P !! tid = Some (t, p) → p = Ret ()) →
  threads (HP := handle_protocol cfg) idle_hands P h H ⊢
  ⌜∀ tid it, is_Some (P !! tid) → H !! inl tid = Some it → ∀ q, i_sum it q = 0⌝.
Proof using.
  clear Hf fuel. iIntros (Hj) "Ht". iIntros (tid it Hsome HH q). destruct Hsome as [[t p] Ht]. pose proof (Hj tid t p Ht) as ->.
  iDestruct (threads_end with "Ht") as "[_ (%s0 & %it' & [_ %HH'] & (%w & %L & (_ & %HL' & _ & %Hit) & _))]"; [done|].
  iPureIntro. simplify_eq/=. symmetry in HL'. apply fmap_empty_inv in HL' as ->. by rewrite (proj2 Hit).
Qed.
Lemma stats_balanced s H : stats_match s H → (∀ q, tally q H = 0) → balanced s.
Proof using.
  clear Hf fuel. intros [Hin Hs] Ht.
  assert (∀ q, wrap64 (measured q s) = 0) as Hz by (intros q; by rewrite Hs Ht).
  pose proof (λ c, wrap64_small _ (Hin c)) as Hw.
  pose proof (Hz Active) as HA. pose proof (Hz Requested) as HR. pose proof (Hz Reserved) as HV.
  pose proof (Hz Count) as HC. pose proof (Hz Bytes) as HB. cbn [measured] in *.
  rewrite (Hw ActiveAllocations) in HA. rewrite (Hw LiveRequested) in HR. rewrite (Hw LiveReserved) in HV.
  unfold balanced. split_and!; [done|done|done| |].
  - apply (wrap64_shift (freeCount_ s) _ 0) in HC. rewrite Z.add_0_r in HC.
    replace (freeCount_ s + (allocationCount_ s - freeCount_ s)) with (allocationCount_ s) in HC by lia.
    by rewrite (Hw AllocationCount) (Hw FreeCount) in HC.
  - apply (wrap64_shift (freedBytes_ s) _ 0) in HB. rewrite Z.add_0_r in HB.
    replace (freedBytes_ s + (allocatedBytes_ s - freedBytes_ s)) with (allocatedBytes_ s) in HB by lia.
    by rewrite (Hw AllocatedBytes) (Hw FreedBytes) in HB.
Qed.
Lemma team_joined g : team_inv g → joined g → ∃ w, adapter g = owning w ∧ balanced (get_stats w).
Proof using HL.
  clear Hf fuel. intros Hinv Hj. apply (sat_pure _ (team_memory g)). eapply sat_mono; [|exact Hinv].
  iIntros "(%H & %HH & (%w & -> & %C & (_ & _ & %Hst & _) & _) & Ht)". iDestruct (no_shares with "Ht") as %Hz; [exact Hj|].
  iPureIntro. exists w. split; [done|]. apply (stats_balanced _ H); [done|]. intros q. unfold tally.
  apply map_sum_zero. intros k it Hk. destruct (HH k) as (tid&->&Ht); [by eexists|]. by eapply Hz.
Qed.
Lemma team_wf : well_founded (flip team_step).
Proof using.
  clear. intros g. apply (wf_projected acts running); [|exact acts_wf].
  intros g2 g1 [P h m tid t X f k x h' m' HP _]. exists tid, t, (Act f k), (k x). split_and!; [done|by exists x|done].
Qed.
End team.

(** C27: the benchmark of several threads.  However many threads there are, whatever sizes
    they draw, whatever allocations fail and however the threads interleave: none of
    them faults, they all come to an end, and when they have, the allocator's books are
    balanced - nothing is live, and as many blocks and bytes were freed as allocated. *)
Theorem measureMultiThreaded_correct `{HOS : !OS, HL : !OSLaws} fuel iterations hw sizeDist self tls throws dbg m g :
  W64 ≤ Z.of_nat fuel → (∀ tid t, tls !! tid = Some t → ThreadCache.central_ t ≠ self) →
  (∀ t i, 16 ≤ sizeDist t i ≤ 2048) →
  rtc team_step (MkTeam (measureMultiThreaded (AllocatorAdapter0 := MAllocAdapter fuel) iterations hw sizeDist)
    (owning (AllocatorImpl_init AllocatorConfig_default self tls throws dbg)) m) g →
  (∀ tid t X (f : Allocator → cmd (X * Allocator)) k, running g !! tid = Some (t, Act f k) →
     ∃ x h' m', f (adapter g) (team_memory g) = Ok (x, h') m') ∧
  Acc (flip team_step) g ∧
  (joined g → ∃ w, adapter g = owning w ∧ balanced (get_stats w)).
Proof.
  intros Hf Htls Hd Hr. assert (team_inv g) as Hinv.
  { eapply team_reachable_inv; [done|]. apply sat_start. iApply team_started; [done|apply NoDup_seqZ| |by iApply shared_inv_init].
    intros t. apply Forall_fmap, Forall_forall. intros i _. specialize (Hd t i). unfold size_ok. cbn. rewrite W64_eq. lia. }
  split_and!; [|apply team_wf|by apply team_joined].
  intros tid t X f k Ht. destruct (team_turn g tid t X f k Hinv Ht) as (x&h'&m'&H&_). by exists x, h', m'.
Qed.
(** Four threads, ready to run. *)
Lemma measureMultiThreaded_correct_witness :
  let os := bump_os 9 in
  ∃ t X (f : Allocator → cmd (X * Allocator)) k x h' m',
    measureMultiThreaded (AllocatorAdapter0 := MAllocAdapter all_turns) 4 8 (λ _ _, 100) !! 3 = Some (t, Act f k) ∧
    f (owning (AllocatorImpl_init AllocatorConfig_default 7 ∅ (λ _, false) (λ _, false))) mem_init = Ok (x, h') m'.
Proof.
  intros os.
  destruct (measureMultiThreaded_correct (HOS := os) (HL := bump_laws 9) all_turns 4 8 (λ _ _, 100) 7 ∅ (λ _, false)
    (λ _, false) mem_init _ all_turns_enough no_stale ltac:(intros; lia) (rtc_refl _ _)) as [H _].
  do 4 eexists. destruct (H 3 [100] _ _ _ eq_refl) as (x&h'&m'&Hr). exists x, h', m'. split; [reflexivity|exact Hr].
Defined.
