(* ===== verification/StateTypes.v ===== *)
(** The types of the allocator's state, as the C++ declarations and the code's own
    assumptions give them: array lengths, the ranges of sizes, cursors and counters, the
    shape of regions and of the tables of regions.  The state has these types at every
    moment of every interleaving. *)

From stdpp Require Import gmap.
From iris.proofmode Require Import proofmode.
From S2P Require Import Prelude.
From S2P Require Import HeapProp.
From S2P Require Import Memory.
From S2P Require Import Logic.
From S2P Require Import Platform.
From S2P Require Import SystemMemory.
From S2P Require Import SizeClassTable.
From S2P Require Import FreeList.
From S2P Require Import PoolAllocator.
From S2P Require Import ThreadCache.
From S2P Require Import SegmentHeap.
From S2P Require Import SegmentBins.
From S2P Require Import SegmentList.
From S2P Require Import SegmentProofs.
From S2P Require Import LargeAllocator.
From S2P Require Import StatisticsCollector.
From S2P Require Import Config.
From S2P Require Import DebugLayer.
From S2P Require Import Tiers.
From S2P Require Import AllocatorImpl.
From S2P Require Import SmallTier.
From S2P Require Import RawAlloc.
From S2P Require Import SharedInv.
From S2P Require Import Client.
From S2P Require Import Concurrent.
From S2P Require Import ThreadSafety.

Section types.
Context `{HOS : !OS, HL : !OSLaws}.

Definition freelist_typed (l : FreeList) : Prop := in64 (head_ l) ∧ in64 (size_ l).
(** The bump cursor is null, or an aligned address in its run. *)
Definition shard_typed (s : Shard) : Prop :=
  freelist_typed (freeList s) ∧
  (bumpCursor s = 0 ∨ 0 < bumpCursor s ≤ bumpEnd s ∧ bumpEnd s ≤ W64 ∧ bumpCursor s mod 16 = 0).
Definition pools_typed (p : PoolAllocator) : Prop :=
  length (shards_ p) = Z.to_nat kClassCount ∧ ∀ c s, shards_ p !! c = Some s → shard_typed s.
Definition cache_typed (t : ThreadCache) : Prop :=
  length (caches_ t) = Z.to_nat kClassCount ∧ ∀ c cc, caches_ t !! c = Some cc → class_cache_ok cc.
(** Every segment is a region of its own, at least of the default size. *)
Definition heap_typed (h : SegmentHeap) : Prop :=
  length (bins_ h) = Z.to_nat kBinCount ∧ segs_ok (segments_ h).
(** The key of a region is the address sixteen bytes into it. *)
Definition large_typed (l : LargeAllocator) : Prop :=
  ∀ p x, regions_ l !! p = Some x →
    region_ok (region_ x) ∧ p = region_data x + kPayloadOffset ∧ kPayloadOffset ≤ region_size x.
Definition stats_typed (s : StatisticsCollector) : Prop := ∀ c, in64 (get_counter c s).
(** A thread's slot may hold a cache of an allocator that is gone; only those of this one count. *)
Definition state_typed (cfg : AllocatorConfig) (w : AllocatorImpl) : Prop :=
  cfg_of w = cfg ∧ stats_typed (get_stats w) ∧ pools_typed (get_pools w) ∧
  (∀ tid t, tlsCaches w !! tid = Some t → ThreadCache.central_ t = self_ w → cache_typed t) ∧
  heap_typed (get_segments w) ∧ large_typed (get_large w) ∧
  (enableLeakTracking cfg = false → live_ (AllocatorImpl.debug_ w) = ∅).

Lemma free_list_typed l blocks : free_list l blocks ⊢ ⌜freelist_typed l⌝.
Proof using.
  iIntros "[%Hs Hc]". iDestruct (chain_head with "Hc") as %[Hh _]. iPureIntro. split; [done|].
  rewrite Hs. apply Z.mod_pos_bound. by rewrite W64_eq.
Qed.
Lemma shard_inv_typed stride s blocks : shard_inv stride s blocks ⊢ ⌜shard_typed s⌝.
Proof using.
  iIntros "(Hl & _ & Hb)". iDestruct (free_list_typed with "Hl") as %Hl.
  iDestruct "Hb" as "[%Hb|[%Hb _]]"; iPureIntro; (split; [done|]); [by left|by right].
Qed.
Lemma pools_inv_typed p A : pools_inv p A ⊢ ⌜pools_typed p⌝.
Proof using.
  iIntros "[%Hlen H]". iDestruct (big_sepL2_length with "H") as %HA. iSplit; [done|].
  iIntros (c s Hs). destruct (lookup_lt_is_Some_2 A c) as [blocks HAc]; [rewrite -HA; by eapply lookup_lt_Some|].
  iDestruct (big_sepL2_lookup with "H") as (stride _) "H"; [done..|]. by iApply shard_inv_typed.
Qed.
Lemma cache_inv_typed t : cache_inv t ⊢ ⌜cache_typed t⌝.
Proof using.
  iIntros "[%Hlen H]". iSplit; [done|]. iIntros (c cc Hcc).
  by iDestruct (big_sepL_lookup with "H") as "[$ _]".
Qed.
Lemma seg_inv_typed h U : seg_inv h U ⊢ ⌜heap_typed h⌝.
Proof using.
  iIntros "(%M & %B & [(%Hs & _ & _ & %Hb) _] & _ & H)". iDestruct (big_sepL2_length with "H") as %Hlen.
  iPureIntro. split; [rewrite Hlen; apply Hb|done].
Qed.
Lemma large_inv_typed l : large_inv l ⊢ ⌜large_typed l⌝.
Proof using.
  iIntros "H" (p x Hx). by iDestruct (big_sepM_lookup with "H") as "[$ _]".
Qed.
Lemma raw_inv_typed cfg w C H :
  cfg_of w = cfg → stats_match (get_stats w) H → (enableLeakTracking cfg = false → live_ (AllocatorImpl.debug_ w) = ∅) →
  raw_inv w C ⊢ ⌜state_typed cfg w⌝.
Proof using.
  intros Hc [Hst _] Hd. iIntros "([(%A & Hp) Ht] & Hm & [Hl _])".
  iDestruct (pools_inv_typed with "Hp") as %?. iDestruct (seg_inv_typed with "Hm") as %?.
  iDestruct (large_inv_typed with "Hl") as %?. repeat (iSplit; [done|]). iSplit; [|done].
  iIntros (tid t Htid Hself). iDestruct (big_sepM_lookup with "Ht") as "H"; [done|].
  rewrite Hself Z.eqb_refl. by iApply cache_inv_typed.
Qed.
End types.

(** C6: the state keeps its types.  At every moment of every interleaving of concurrent
    calls, the arrays of the pools, of the thread caches and of the bins have their
    declared lengths, no cache counts more blocks than it has slots, the bump cursors
    stay inside their runs, list heads, list sizes and counters are 64-bit values, the
    registered regions are page-aligned parts of the address space, the segments are
    different regions, and a large region is registered under its payload address. *)
Theorem state_well_typed `{HOS : !OS, HL : !OSLaws} cfg fuel self tls throws dbg m c :
  abortOnError cfg = false → W64 ≤ Z.of_nat fuel →
  (∀ tid t, tls !! tid = Some t → ThreadCache.central_ t ≠ self) →
  reachable cfg fuel (conf_init cfg self tls throws dbg m) c →
  state_typed cfg (impl c).
Proof.
  intros Hab Hf Htls Hreach.
  pose proof (reachable_inv cfg fuel Hab Hf _ _ Hreach (conf_inv_init cfg _ _ _ _ _ Htls)) as Hinv.
  apply (sat_pure _ (memory c)). eapply sat_mono; [|exact Hinv].
  iIntros "(%J & %H & _ & (%C & (%Hc & %Hd & %Hst & _) & Hraw) & _)". by iApply (raw_inv_typed with "Hraw").
Qed.

Section demo.
#[local] Instance types_os : OS := bump_os 9.
#[local] Instance types_laws : OSLaws := bump_laws 9.
Lemma state_well_typed_witness : state_typed debug (impl demo_two).
Proof.
  exact (state_well_typed debug all_turns 7 ∅ (λ _, false) (λ _, false) mem_init demo_two eq_refl all_turns_enough
    no_stale demo_reached).
Defined.
End demo.
