(* ===== verification/Liveness.v ===== *)
(** Liveness of concurrent calls: in every execution in which a running call keeps being
    given turns, it is answered - whatever the other threads do meanwhile, new calls
    included.  The turns need not be scheduled fairly in any other sense. *)

From stdpp Require Import gmap.
From iris.proofmode Require Import proofmode.
From S2P Require Import Prelude.
From S2P Require Import Memory.
From S2P Require Import Platform.
From S2P Require Import Prog.
From S2P Require Import Interleaving.
From S2P Require Import Config.
From S2P Require Import AllocatorImpl.
From S2P Require Import Client.
From S2P Require Import Usage.
From S2P Require Import Concurrent.
From S2P Require Import ThreadSafety.

(** Thread [tid] takes a turn: the next action of its call, or the delivery of its answer. *)
Definition turn `{!OS} (tid : Z) (c c' : conf) : Prop :=
  run_step c c' ∧ calls c' !! tid ≠ calls c !! tid.
(** An infinite execution: any steps, and pauses. *)
Definition execution `{!OS} (cfg : AllocatorConfig) (fuel : nat) (σ : nat → conf) : Prop :=
  ∀ i, σ (S i) = σ i ∨ conc_step cfg fuel (σ i) (σ (S i)).
(** From moment [n] on, as long as [tid] has a call running there is a later moment at
    which it takes a turn. *)
Definition scheduled `{!OS} (tid : Z) (σ : nat → conf) (n : nat) : Prop :=
  ∀ i, (n ≤ i)%nat → is_Some (calls (σ i) !! tid) → ∃ j, (i ≤ j)%nat ∧ turn tid (σ j) (σ (S j)).

Section turns.
Context `{HOS : !OS} (cfg : AllocatorConfig) (fuel : nat).
Implicit Types (c : conf) (σ : nat → conf).

Lemma rest_neq {S A} (p' p : prog S A) : rest_of p' p → p' ≠ p.
Proof using. intros Hr ->. induction (rest_wf p) as [p _ IH]. by apply (IH p). Qed.
(** What a step does to the call of [tid]: nothing, or it starts, acts, or ends. *)
Lemma step_call c c' tid t p :
  conc_step cfg fuel c c' → calls c !! tid = Some (t, p) →
  calls c' !! tid = Some (t, p) ∨
  (∃ p', rest_of p' p ∧ calls c' !! tid = Some (t, p') ∧ turn tid c c') ∨
  (∃ r, p = Ret r ∧ calls c' !! tid = None ∧ turn tid c c').
Proof using.
  intros Hst Ht. destruct Hst as [I P w m tid' o HP Hv|c c' Hrun].
  - left. cbn in *. rewrite lookup_insert_ne; [done|congruence].
  - assert (calls c' !! tid ≠ calls c !! tid → turn tid c c') as Hturn by by split.
    destruct Hrun as [I P w m tid' t' X f k x w' m' HP Hr|I P w m tid' t' r HP]; cbn in *;
      (destruct (decide (tid = tid')) as [<-|Hne]).
    + simplify_eq. right. left. exists (k x). assert (rest_of (k x) (Act f k)) as Hx by by exists x.
      split_and!; [done|by rewrite lookup_insert_eq|]. apply Hturn. rewrite lookup_insert_eq HP.
      intros [= E]. by apply (rest_neq _ _ Hx).
    + left. by rewrite lookup_insert_ne.
    + simplify_eq. right. right. exists r. split_and!; [done|by rewrite lookup_delete_eq|].
      apply Hturn. by rewrite lookup_delete_eq HP.
    + left. by rewrite lookup_delete_ne.
Qed.
(** A call is where it was until its thread takes a turn. *)
Lemma waits σ tid i n t p :
  execution cfg fuel σ → calls (σ i) !! tid = Some (t, p) →
  (∃ j, (i ≤ j < i + n)%nat ∧ calls (σ j) !! tid = Some (t, p) ∧ turn tid (σ j) (σ (S j))) ∨
  calls (σ (i + n)%nat) !! tid = Some (t, p).
Proof using.
  intros Hσ Hi. induction n as [|n [(j&Hj&H)|IH]]; [right; by rewrite Nat.add_0_r|left; exists j; split; [lia|done]|].
  rewrite Nat.add_succ_r. destruct (Hσ (i + n)%nat) as [->|Hst]; [by right|].
  destruct (step_call _ _ _ _ _ Hst IH) as [?|[(p'&_&_&?)|(r&_&_&?)]]; [by right|left..];
    exists (i + n)%nat; (split; [lia|done]).
Qed.
Lemma next_turn σ tid i n t p :
  execution cfg fuel σ → scheduled tid σ n → (n ≤ i)%nat → calls (σ i) !! tid = Some (t, p) →
  ∃ j, (i ≤ j)%nat ∧ calls (σ j) !! tid = Some (t, p) ∧ turn tid (σ j) (σ (S j)).
Proof using.
  intros Hσ Hs Hni Hi. destruct (Hs i Hni) as (j&Hij&Hj); [by exists (t, p)|].
  destruct (waits σ tid i (j - i) t p Hσ Hi) as [(j'&Hj'&H)|H]; [exists j'; split; [lia|done]|].
  replace (i + (j - i))%nat with j in H by lia. by exists j.
Qed.
(** So it is answered: by induction on what is left of the call. *)
Lemma answered_eventually σ tid n t p :
  execution cfg fuel σ → scheduled tid σ n →
  ∀ i, (n ≤ i)%nat → calls (σ i) !! tid = Some (t, p) →
  ∃ j r, (i ≤ j)%nat ∧ calls (σ j) !! tid = Some (t, Ret r) ∧ calls (σ (S j)) !! tid = None.
Proof using.
  intros Hσ Hs. induction (rest_wf p) as [p _ IH]. intros i Hni Hi.
  destruct (next_turn σ tid i n t p Hσ Hs Hni Hi) as (j&Hij&Hj&[Hrun Hne]).
  destruct (step_call _ _ _ _ _ (Run _ _ _ _ Hrun) Hj) as [E|[(p'&Hp'&Hj'&_)|(r&->&Hj'&_)]].
  - by rewrite E Hj in Hne.
  - destruct (IH p' Hp' (S j)) as (k&r&Hk&H); [lia|done|]. exists k, r. split; [lia|done].
  - by exists j, r.
Qed.
Lemma execution_reachable σ i : execution cfg fuel σ → reachable cfg fuel (σ 0%nat) (σ i).
Proof using.
  intros Hσ. induction i as [|i IH]; [apply rtc_refl|]. destruct (Hσ i) as [->|Hst]; [done|by eapply rtc_r].
Qed.
(** A running call can always take its turn. *)
Lemma own_turn `{HL : !OSLaws} c tid t : conf_inv cfg c → calls c !! tid = Some t → ∃ c', turn tid c c'.
Proof using.
  clear fuel. intros Hinv Ht. destruct t as [t [r|X f k]].
  - destruct c as [I P w m]. eexists. split; [by eapply Return|]. cbn in *. by rewrite lookup_delete_eq Ht.
  - destruct (action_inv cfg c tid t X f k Hinv Ht) as (x&w'&m'&Hr&_). destruct c as [I P w m].
    eexists. split; [by eapply Action|]. cbn in *. rewrite lookup_insert_eq Ht. intros [= E].
    apply (rest_neq (k x) (Act f k)); [by exists x|done].
Qed.
End turns.

(** C4: liveness of the calls.  In every infinite execution of concurrent clients - calls
    started at any time, actions of the threads interleaved in any order -, a thread
    whose call is running can always take its turn; and if it is given turns, however
    rarely, its call is answered, with an answer the specification allows on the block
    it took.  No other thread can keep it from its answer: there is no lock it waits for
    in vain, and its retry loops end. *)
Theorem calls_answered `{HOS : !OS, HL : !OSLaws} cfg fuel self tls throws dbg m σ tid n :
  abortOnError cfg = false → W64 ≤ Z.of_nat fuel →
  (∀ tid t, tls !! tid = Some t → ThreadCache.central_ t ≠ self) →
  σ 0%nat = conf_init cfg self tls throws dbg m → execution cfg fuel σ →
  is_Some (calls (σ n) !! tid) →
  (∃ c, turn tid (σ n) c) ∧
  (scheduled tid σ n → ∃ j t r M, (n ≤ j)%nat ∧ fst <$> calls (σ n) !! tid = Some t ∧
    calls (σ j) !! tid = Some (t, Ret r) ∧ calls (σ (S j)) !! tid = None ∧
    allowed cfg (c_held t) (c_op t) r M).
Proof.
  intros Hab Hf Htls H0 Hσ [[t p] Ht].
  assert (∀ i, conf_inv cfg (σ i)) as Hinv.
  { intros i. apply (reachable_inv cfg fuel Hab Hf (σ 0%nat)); [by apply execution_reachable|].
    rewrite H0. by apply conf_inv_init. }
  split; [by apply (own_turn cfg _ _ (t, p))|].
  intros Hs. destruct (answered_eventually cfg fuel σ tid n t p Hσ Hs n) as (j&r&Hj&Hr&Hnone); [lia|done|].
  destruct (answered cfg fuel Hf (σ j) tid t r (Hinv j) Hr) as (M&Hal&_). exists j, t, r, M. by rewrite Ht.
Qed.
(** One call of [liveAllocationCount], from start to answer. *)
Section demo.
#[local] Instance live_os : OS := bump_os 9.
#[local] Instance live_laws : OSLaws := bump_laws 9.
Definition asked : call := MkCall LiveCount ∅.
Definition asking (p : prog AllocatorImpl answer) : conf :=
  MkConf ∅ {[ 1 := (asked, p) ]} (impl demo_start) mem_init.
Definition one_call (i : nat) : conf :=
  match i with
  | 0%nat => demo_start
  | 1%nat => asking (exec all_turns 1 LiveCount)
  | 2%nat => asking (Ret (ANum 0))
  | _ => demo_start
  end.
Lemma one_call_1 : conc_step debug all_turns (one_call 0) (one_call 1).
Proof. apply (Invoke debug all_turns ∅ ∅ _ _ 1 LiveCount); done. Qed.
Lemma one_call_2 : run_step (one_call 1) (one_call 2).
Proof.
  unfold one_call, asking.
  pose proof (λ f k, Action ∅ {[ 1 := (asked, Act f k) ]} (impl demo_start) mem_init 1 asked Z f k 0 (impl demo_start)
    mem_init) as H.
  setoid_rewrite insert_singleton_eq in H. apply H; [apply lookup_singleton_eq|reflexivity].
Qed.
Lemma one_call_3 : run_step (one_call 2) (one_call 3).
Proof.
  unfold one_call, asking.
  pose proof (Return ∅ {[ 1 := (asked, Ret (ANum 0)) ]} (impl demo_start) mem_init 1 asked (ANum 0)) as H.
  rewrite delete_singleton_eq in H. apply H, lookup_singleton_eq.
Qed.
Lemma one_call_execution : execution debug all_turns one_call.
Proof.
  intros [|[|[|i]]]; [right; exact one_call_1|right; apply Run, one_call_2|right; apply Run, one_call_3|by left].
Qed.
Lemma one_call_scheduled : scheduled 1 one_call 1.
Proof.
  intros [|[|[|i]]] Hi Hs; [lia| | |by destruct Hs].
  - exists 1%nat. split; [lia|]. split; [exact one_call_2|]. intros [= E].
  - exists 2%nat. split; [lia|]. split; [exact one_call_3|]. done.
Qed.
Lemma calls_answered_witness : ∃ j t r, calls (one_call j) !! 1 = Some (t, Ret r).
Proof.
  destruct (calls_answered debug all_turns 7 ∅ (λ _, false) (λ _, false) mem_init one_call 1 1 eq_refl
    all_turns_enough no_stale eq_refl one_call_execution) as [_ Hans]; [by eexists|].
  destruct (Hans one_call_scheduled) as (j&t&r&M&_&_&Hr&_). exists j, t, r. exact Hr.
Defined.
End demo.
