(* ===== verification/SharedMappings.v ===== *)
(** The account of mappings under concurrency: whatever the interleaving, the pages
    mapped in the process are those of the regions the tiers list, of the regions that
    running calls have mapped and not yet listed - one per call at most -, and those that
    were mapped before.  When no call is running the destructor gives everything back. *)

From stdpp Require Import gmap.
From iris.proofmode Require Import proofmode.
From S2P Require Import Prelude.
From S2P Require Import Memory.
From S2P Require Import Platform.
From S2P Require Import SystemMemory.
From S2P Require Import Prog.
From S2P Require Import Interleaving.
From S2P Require Import Config.
From S2P Require Import AllocatorImpl.
From S2P Require Import Allocator.
From S2P Require Import Client.
From S2P Require Import Mappings.
From S2P Require Import Concurrent.
From S2P Require Import ThreadSafety.

Section account.
Context `{HOS : !OS, HL : !OSLaws} (cfg : AllocatorConfig) (fuel : nat).
Implicit Types (c : conf) (base : vmas) (own : gmap Z MappedRegion).

(** [own] gives the region a running call holds, if it holds one. *)
Definition pending own : list MappedRegion := (map_to_list own).*2.
Definition accounts_for own c : Prop :=
  (∀ tid, is_Some (own !! tid) → is_Some (calls c !! tid)) ∧
  ∀ tid t p, calls c !! tid = Some (t, p) → tracked impl_regions p (own !! tid).
Definition conf_ledger base c : Prop :=
  ∃ own, accounts_for own c ∧ ledger base (pending own ++ impl_regions (impl c)) (pages (memory c)).

Lemma pending_split own tid : pending own ≡ₚ option_list (own !! tid) ++ pending (delete tid own).
Proof using.
  unfold pending. destruct (own !! tid) as [x|] eqn:E; cbn; [|by rewrite delete_id].
  by rewrite -(map_to_list_delete _ _ _ E).
Qed.
Lemma pending_alter own tid o : pending (partial_alter (λ _, o) tid own) ≡ₚ option_list o ++ pending (delete tid own).
Proof using. by rewrite (pending_split _ tid) lookup_partial_alter_eq delete_partial_alter_eq. Qed.
Lemma pending_mid (qs l1 l2 l3 : list MappedRegion) : qs ≡ₚ l1 ++ l3 → qs ++ l2 ≡ₚ (l1 ++ l2) ++ l3.
Proof using.
  intros Hq. etrans; [apply Permutation_app_tail, Hq|]. rewrite -!app_assoc. apply Permutation_app_head, Permutation_app_comm.
Qed.
Lemma pending_size own c : accounts_for own c → (length (pending own) ≤ base.size (calls c))%nat.
Proof using.
  intros [Hown _]. unfold pending. rewrite length_fmap length_map_to_list -(size_dom own) -(size_dom (calls c)).
  apply subseteq_size. intros tid. rewrite !elem_of_dom. apply Hown.
Qed.

Lemma conf_ledger_step base c c' : conc_step cfg fuel c c' → conf_ledger base c → conf_ledger base c'.
Proof using HL.
  intros Hst (own&[Hdom Hown]&Hl).
  destruct Hst as [I P w m tid o HP Hv|c c' [I P w m tid t X f k x w' m' HP Hr|I P w m tid t r HP]]; cbn in *.
  - assert (own !! tid = None) as Ho by (apply eq_None_not_Some; intros [? H]%Hdom; congruence).
    exists own. split; [split|done]; cbn.
    + intros t [x Hx]. rewrite lookup_insert_is_Some'. right. apply Hdom. by exists x.
    + intros t cl p [[<- [= <- <-]]|[_ Hc]]%lookup_insert_Some; [rewrite Ho; apply accounted_exec|by eapply Hown].
  - destruct (Hown _ _ _ HP) as (after&Hf&Hk). exists (partial_alter (λ _, after x) tid own). split; [split|]; cbn.
    + intros t' Hs. rewrite lookup_insert_is_Some'. destruct (decide (tid = t')) as [<-|Hne]; [by left|right].
      rewrite lookup_partial_alter_ne // in Hs. by apply Hdom.
    + intros t' cl p [[<- [= <- <-]]|[Hne Hc]]%lookup_insert_Some; [rewrite lookup_partial_alter_eq; apply Hk|].
      rewrite lookup_partial_alter_ne //. by eapply Hown.
    + pose proof (acct_frame _ _ _ (pending (delete tid own)) (Hf w)) as Hfr.
      eapply ledger_perm; [|reflexivity|eapply (Hfr base m _ m' Hr); eapply ledger_perm; [|reflexivity|exact Hl]]; cbn [fst snd].
      * apply pending_mid, pending_alter.
      * symmetry. apply pending_mid, pending_split.
  - pose proof (Hown _ _ _ HP) as Ho. cbn in Ho. exists own. split; [split|done]; cbn.
    + intros t' Hs. apply lookup_delete_is_Some. split; [intros ->; rewrite Ho in Hs; by destruct Hs|by apply Hdom].
    + intros t' cl p [_ Hc]%lookup_delete_Some. by eapply Hown.
Qed.
Lemma conf_ledger_init self tls throws dbg m :
  apart (pages m) → conf_ledger (pages m) (conf_init cfg self tls throws dbg m).
Proof using.
  intros Ha. exists ∅. split; [split|].
  - intros tid []%lookup_empty_is_Some.
  - intros tid t p. by rewrite lookup_empty.
  - unfold pending. rewrite map_to_list_empty. by apply ledger_init.
Qed.
Lemma conf_ledger_reachable base c0 c : reachable cfg fuel c0 c → conf_ledger base c0 → conf_ledger base c.
Proof using HL. induction 1; eauto using conf_ledger_step. Qed.
End account.

(** C5: no mapping is lost, whatever the interleaving.  At every moment of an execution of
    concurrent clients - with any configuration, and even if calls fail - the mapped
    pages are those mapped before, those of the regions the tiers list, and those of
    [pending] regions, at most one for each running call; all are disjoint.  When no
    call is running, destroying the allocator cannot fail and leaves exactly the
    mappings there were before it was created. *)
Theorem concurrent_destroy `{HOS : !OS, HL : !OSLaws} cfg fuel self tls throws dbg m c :
  apart (pages m) → reachable cfg fuel (conf_init cfg self tls throws dbg m) c →
  (∃ pending, (length pending ≤ base.size (calls c))%nat ∧ apart (pages (memory c)) ∧
     pages (memory c) ≡ₚ (vma <$> pending ++ impl_regions (impl c)) ++ pages m) ∧
  (calls c = ∅ → ∃ m', Allocator_destroy (MkAllocator (Some (impl c))) (memory c) = Ok (leak_message (impl c)) m' ∧
     pages m' ≡ₚ pages m).
Proof.
  intros Ha Hr. destruct (conf_ledger_reachable cfg fuel (pages m) _ _ Hr) as (own&Hown&Hl); [by apply conf_ledger_init|].
  pose proof (pending_size own c Hown) as Hsz. split.
  - destruct Hl as (Hp&Hap&_). by exists (pending own).
  - intros Hno. rewrite Hno map_size_empty in Hsz. destruct (pending own); cbn in Hsz; [|lia].
    by apply run_destroy.
Qed.

(** ** An instance *)
Section demo.
#[local] Instance ledger_os : OS := bump_os 9.
#[local] Instance ledger_laws : OSLaws := bump_laws 9.
Lemma concurrent_destroy_witness :
  ∃ pending : list MappedRegion, (length pending ≤ base.size (calls demo_two))%nat ∧
    pages (memory demo_two) ≡ₚ (vma <$> pending ++ impl_regions (impl demo_two)) ++ [].
Proof.
  destruct (concurrent_destroy debug all_turns 7 ∅ (λ _, false) (λ _, false) mem_init demo_two I demo_reached)
    as [(ps&Hsz&_&Hp) _]. exact (ex_intro _ ps (conj Hsz Hp)).
Defined.
End demo.
