(* ===== verification/Components.v ===== *)
(** The contracts of the tiers, as triples with every frame, each with an instance
    on a concrete operating system. *)

From stdpp Require Import gmap.
From iris.proofmode Require Import proofmode.
From S2P Require Import Prelude.
From S2P Require Import HeapProp.
From S2P Require Import Memory.
From S2P Require Import Platform.
From S2P Require Import Logic.
From S2P Require Import BlockHeader.
From S2P Require Import SystemMemory.
From S2P Require Import SizeClassTable.
From S2P Require Import Prog.
From S2P Require Import PoolAllocator.
From S2P Require Import ThreadCache.
From S2P Require Import LargeAllocator.
From S2P Require Import SegmentHeap.
From S2P Require Import SegmentTags.
From S2P Require Import SegmentModel.
From S2P Require Import SegmentList.
From S2P Require Import SegmentBins.
From S2P Require Import SegmentBlocks.
From S2P Require Import SegmentProofs.
From S2P Require Import SegmentAlloc.
From S2P Require Import SegmentFree.
From S2P Require Import DebugLayer.

Section pools.
Context `{HOS : !OS, HL : !OSLaws}.
Implicit Types (p : PoolAllocator) (t : ThreadCache) (A : list (list Z)) (b c : Z).

(** [PoolAllocator::allocateBlock] hands out the most recently freed block of the
    class if there is one; otherwise a new block of the class's stride, aligned to
    sixteen; null only if the operating system refused a run. *)
Theorem pool_allocate_correct p A blocks c :
  0 ≤ c < kClassCount → A !! Z.to_nat c = Some blocks →
  hoare (pools_inv p A) (PoolAllocator.allocateBlock p c) (λ r,
    ⌜blocks ≠ [] → head blocks = Some r.1⌝ ∗ pool_block c r.1 ∗
    pools_inv r.2 (PoolAllocator.set_free A c (drop 1 blocks)))%I.
Proof.
  intros Hc HA. apply hoare_wp. intros R. iIntros "[Hp HR]". iApply PoolAllocator.wp_allocateBlock; [done|].
  iFrame "Hp". iIntros (b p' blocks' [? ?]) "Hp Hb". simplify_eq. iApply "HR". by iFrame.
Qed.

Lemma block_list_nodup stride bs :
  0 < stride → ([∗ list] b ∈ bs, ⌜b ≠ 0⌝ ∗ block_res stride b) ⊢ ⌜NoDup bs⌝.
Proof using.
  intros Hs. induction bs as [|b bs IH]; iIntros "H"; [iPureIntro; constructor|].
  iDestruct "H" as "[[_ [_ Hb]] Hbs]".
  iAssert ⌜b ∉ bs⌝%I as %Hb.
  { iIntros (Hin). apply list_elem_of_lookup in Hin as [i Hi].
    iDestruct (big_sepL_lookup with "Hbs") as "[_ [_ Hb']]"; [done|].
    by iDestruct (raw_disjoint_strict with "[$Hb $Hb']") as %[]. }
  rewrite IH. iDestruct "Hbs" as %?. iPureIntro. by constructor.
Qed.

(** C32: batches.  What [allocateBatch] takes, [freeBatch] gives back: at most [n]
    distinct blocks leave the pool, first the free ones in order, and after both
    calls every one of them is free again. *)
Theorem pool_batch_roundtrip p A blocks c n :
  0 ≤ c < kClassCount → A !! Z.to_nat c = Some blocks →
  hoare (pools_inv p A) (r ← allocateBatch p c n; p' ← freeBatch r.2 c r.1; mret (r.1, p')) (λ r,
    ⌜(length r.1 ≤ n)%nat ∧ take (length r.1) blocks = take (length blocks) r.1 ∧ NoDup r.1⌝ ∗
    pools_inv r.2 (PoolAllocator.set_free A c (rev r.1 ++ drop n blocks)))%I.
Proof.
  intros Hc HA. destruct (blockStride_spec c Hc) as (stride&sz&Hst&_).
  destruct (stride_ok _ _ Hc Hst) as [[Hs8 _] _].
  apply hoare_wp. intros R. iIntros "[Hp HR]". iApply wp_bind. iApply wp_allocateBatch; [done|done|]. iFrame "Hp".
  iIntros (out p' blocks' HA' [Hout _] Htake) "Hp Hbs". simplify_eq. iApply wp_bind.
  iDestruct (block_list_nodup with "Hbs") as %Hnd; [lia|].
  iApply wp_freeBatch; [done|done|]. iFrame "Hp". iSplitL "Hbs".
  { iApply (big_sepL_impl with "Hbs"). iIntros "!>" (k b _) "[_ $]". }
  iIntros (p'' blocks'' HA'') "Hp". iApply wp_ret. iApply "HR". cbn [fst snd]. iSplit; [done|].
  unfold PoolAllocator.set_free in *. rewrite list_lookup_insert_eq in HA''; [|by eapply lookup_lt_Some].
  simplify_eq. by rewrite list_insert_insert_eq.
Qed.

(** The thread cache is a stack in front of the pools.  The block a thread freed
    last is the block it gets next, without the pools being asked. *)
Theorem cache_lifo t p A c stride b :
  0 ≤ c < kClassCount → blockStride c = Some stride → b ≠ 0 →
  hoare (cache_inv t ∗ pools_inv p A ∗ block_res stride b)
    (r ← ThreadCache.freeBlock t c b p; r' ← ThreadCache.allocateBlock r.1 c r.2; mret (r, r')) (λ s,
    ⌜s.2.1.1 = b ∧ s.2.2 = s.1.2⌝ ∗ cache_inv s.2.1.2 ∗ (∃ A', pools_inv s.2.2 A') ∗ pool_block c b)%I.
Proof.
  intros Hc Hst Hb. apply hoare_wp. intros R. iIntros "[(Ht & Hp & Hb) HR]". iApply wp_bind.
  iApply wp_cache_freeBlock_hole; [done|done|done|]. iFrame "Ht Hp".
  iIntros (t' p' A' [[l Hl] _]) "Ht Hp". iDestruct ("Ht" with "Hb") as "Ht". cbn [fst snd].
  iApply wp_bind. iApply wp_cache_allocateBlock; [done|]. iFrame "Ht Hp".
  iIntros (b' t'' p'' A'' [Htop _]) "Ht Hp Hb". destruct (Htop l b Hl) as (->&_&->).
  iApply wp_ret. iApply "HR". cbn [fst snd]. iFrame. done.
Qed.

End pools.

Section segments.
Context `{HOS : !OS, HL : !OSLaws}.
Implicit Types (h : SegmentHeap) (U : gmap Z Z) (M : gmap Z blk) (B : list (list Z)).


(** C16: [SegmentHeap::deallocate] takes the block out of use, merges it with its free
    neighbours and leaves every other block as it was; the heap stays well-formed,
    also when the segment goes back to the operating system. *)
Theorem segment_deallocate_correct h U a cap :
  U !! a = Some cap → 16 ≤ cap →
  hoare (seg_inv h U ∗ raw (payloadOf a) cap) (SegmentHeap.deallocate h (payloadOf a)) (λ h',
    seg_inv h' (delete a U)).
Proof.
  intros Ha Hcap. apply hoare_wp. intros R. iIntros "[[H Hr] HR]". rewrite (raw_take _ 16 cap); [|lia].
  iDestruct "Hr" as "[Hr1 Hr2]". iApply (SegmentFree.wp_deallocate h U a cap (raw (payloadOf a) 16)); [done|done|].
  iFrame "H Hr1 Hr2". iIntros (h') "[[Hr H]|H]"; iApply "HR"; [by iApply "H"|done].
Qed.

(** The heap with its blocks [M] and its free lists [B] spelled out. *)
Definition heap_mem h M B : heapPropI := ⌜heap_state h M B⌝ ∗ blocks None M ∗ bins_res (bins_ h) B.


(** C31: [findFit] is first fit over the bins.  It answers the first block that is large
    enough in the first bin, from the request's own on, that has one; and null only
    if no free block of the heap is large enough. *)
Theorem findFit_first_fit h M B total :
  0 ≤ total →
  hoare (heap_mem h M B) (findFit h total) (λ r,
    ⌜(r = 0 ∧ ∀ a b, M !! a = Some b → bfree b = true → bsize b < total) ∨
     (r ≠ 0 ∧ first_fit B (free_sizes M) total (Z.to_nat (binIndex total)) r)⌝ ∗ heap_mem h M B)%I.
Proof.
  intros Ht. apply hoare_wp. intros R. iIntros "[(%Hst & HM & HB) HR]".
  iApply (wp_findFit (free_sizes M) (blocks None M)); [intros; by apply blocks_free_tag|apply Hst|done|].
  iFrame "HM HB". iIntros (r Hr) "HB HM". iApply "HR". iFrame. iSplit; [|done]. iPureIntro.
  destruct Hr as [[-> Hsm]|?]; [left|by right]. split; [done|]. intros a b Ha Hf.
  apply (Hsm a). by apply free_sizes_Some.
Qed.
End segments.

(** The bins partition the sizes: every size has a bin in range, and a larger size
    never has a smaller bin, so the search of [findFit] may start at the request's. *)
Theorem binIndex_monotone s t : 0 ≤ s ≤ t → 0 ≤ binIndex s ≤ binIndex t ∧ binIndex t < kBinCount.
Proof.
  intros Hst. pose proof (binIndex_range s). pose proof (binIndex_range t). pose proof (binIndex_mono s t Hst). lia.
Qed.
Lemma binIndex_monotone_witness : 0 ≤ binIndex 48 ≤ binIndex 5000 ∧ binIndex 5000 < kBinCount.
Proof. apply (binIndex_monotone 48 5000). lia. Defined.

Section large.
Context `{HOS : !OS, HL : !OSLaws}.
Implicit Types l : LargeAllocator.

(** A large allocation is a mapping of its own: freeing it gives the mapping back
    and leaves the registry as it was; it fails only if the operating system
    refuses. *)
Theorem large_roundtrip bytes l :
  0 ≤ bytes → bytes + 16 + os_page - 1 < W64 →
  phoare (large_inv l)
    (p ← LargeAllocator.allocate bytes;
     if p =? 0 then mret (false, 0) else
     cap ← LargeAllocator.payloadCapacity p; ok ← LargeAllocator.deallocate p; mret (ok, cap)) l
    (λ r l', ⌜l' = l ∧ (r = (false, 0) ∧ os_refused ∨ r.1 = true ∧ bytes ≤ r.2)⌝ ∗ large_inv l')%I.
Proof.
  intros Hb Hlt. apply phoare_wpp. intros R. iIntros "[Hl HR]". iApply wpp_bind.
  iApply wpp_large_allocate; [done|done|]. iFrame "Hl". iIntros (p l') "Hl [(-> & -> & %Href)|Hp]".
  { iApply wpp_ret. iApply "HR". iFrame. iPureIntro. split; [done|]. by left. }
  iDestruct "Hp" as (r (Hne&_&Hnone&->&_&_&Hsz)) "Hp". rewrite (proj2 (Z.eqb_neq p 0)) //.
  iApply wpp_bind. iApply (wpp_large_payloadCapacity _ p r); [apply lookup_insert_eq|]. iFrame "Hl". iIntros "Hl".
  iApply wpp_bind. iApply (wpp_large_deallocate _ p r); [apply lookup_insert_eq|]. iFrame "Hl Hp". iIntros "Hl".
  iApply wpp_ret. cbn [regions_]. rewrite delete_insert_id //. destruct l as [m]. iApply "HR". iFrame "Hl".
  iPureIntro. split; [done|]. right. split; [done|]. cbn. lia.
Qed.
End large.

Section headers.
Context `{HOS : !OS, HL : !OSLaws}.

(** C36: guards, written and checked.  What [applyGuards] writes, [verifyGuards] accepts;
    and it accepts nothing else: any other forty-eight bytes are rejected. *)
Theorem guards_roundtrip r n front rear u :
  r mod 16 = 0 → 0 ≤ n → in64 n →
  hoare (raw r (n + 64)) (u ← applyGuards r n; ok ← verifyGuards u n; mret (u, ok)) (λ x,
    ⌜x = ((r + 32)%Z, true)⌝ ∗ guards (r + 32) n front_guard rear_guard ∗ raw (r + 32) n)%I ∧
  hoare (guards u n front rear) (verifyGuards u n) (λ ok,
    ⌜ok = true ↔ front = front_guard ∧ rear = rear_guard⌝ ∗ guards u n front rear)%I.
Proof.
  intros Hr Hn Hin. split; apply hoare_wp; intros R; iIntros "[H HR]".
  - iApply wp_bind. iApply wp_applyGuards; [done|done|done|]. iFrame "H". iIntros (u' ->) "Hg _ Hu".
    iApply wp_bind. iApply wp_verifyGuards. iFrame "Hg". iIntros "Hg". iApply wp_ret. iApply "HR". iFrame.
    by rewrite bool_decide_eq_true_2.
  - iApply wp_verifyGuards. iFrame "H". iIntros "H". iApply "HR". iFrame. iPureIntro. by rewrite bool_decide_eq_true.
Qed.

(** Boundary tags do not disturb each other.  Changing a block's size keeps its
    flags, changing its free flag keeps its size and the other flags. *)
Theorem tags_independent b sz sz' free first last v :
  size_ok sz' →
  hoare (tag b sz free first last)
    (_ ← setSize b sz'; _ ← setFlag b kFreeFlag v;
     s ← SegmentHeap.size b; f ← isFree b; fi ← isFirst b; la ← isLast b; mret (s, f, fi, la))
    (λ x, ⌜x = (sz', v, first, last)⌝ ∗ tag b sz' v first last)%I.
Proof.
  intros Hsz. apply hoare_wp. intros R. iIntros "[H HR]".
  iApply wp_bind. iApply wp_setSize; [done|]. iFrame "H". iIntros "H".
  iApply wp_bind. iApply wp_setFree. iFrame "H". iIntros "H".
  iApply wp_bind. iApply wp_size. iFrame "H". iIntros "H".
  iApply wp_bind. iApply wp_isFree. iFrame "H". iIntros "H".
  iApply wp_bind. iApply wp_isFirst. iFrame "H". iIntros "H".
  iApply wp_bind. iApply wp_isLast. iFrame "H". iIntros "H".
  iApply wp_ret. iApply "HR". by iFrame.
Qed.
End headers.

(** ** Instances *)
Section demo.
#[local] Instance demo_os : OS := bump_os 9.
#[local] Instance demo_laws : OSLaws := bump_laws 9.

Lemma pool_allocate_correct_witness :
  ∃ r m', PoolAllocator.allocateBlock PoolAllocator_init 3 mem_init = Ok r m' ∧
    sat (pool_block 3 r.1) m'.
Proof.
  destruct (pool_allocate_correct PoolAllocator_init (replicate (Z.to_nat kClassCount) []) [] 3 ltac:(by vm_compute)
    eq_refl emp%I mem_init) as (r&m'&Hrun&Hsat).
  { apply sat_start. iSplit; [|done]. iApply pools_inv_init. }
  exists r, m'. split; [exact Hrun|]. eapply sat_mono; [|exact Hsat]. iIntros "[(_ & $ & _) _]".
Defined.
Lemma pool_batch_roundtrip_witness :
  ∃ r m', (r ← allocateBatch PoolAllocator_init 3 16; p' ← freeBatch r.2 3 r.1; mret (r.1, p')) mem_init = Ok r m' ∧
    NoDup r.1.
Proof.
  destruct (pool_batch_roundtrip PoolAllocator_init (replicate (Z.to_nat kClassCount) []) [] 3 16 ltac:(by vm_compute)
    eq_refl emp%I mem_init) as (r&m'&Hrun&Hsat).
  { apply sat_start. iSplit; [|done]. iApply pools_inv_init. }
  exists r, m'. split; [exact Hrun|]. eapply sat_mono in Hsat; [|iIntros "[H _]"; iExact "H"].
  apply sat_pure_l in Hsat as [(_&_&Hnd) _]. exact Hnd.
Defined.
Lemma cache_lifo_witness :
  blockStride 3 = Some 48 ∧
  hoare (cache_inv (ThreadCache_init 1) ∗ pools_inv PoolAllocator_init (replicate (Z.to_nat kClassCount) []) ∗
         block_res 48 65536)
    (r ← ThreadCache.freeBlock (ThreadCache_init 1) 3 65536 PoolAllocator_init;
     r' ← ThreadCache.allocateBlock r.1 3 r.2; mret (r, r')) (λ s,
    ⌜s.2.1.1 = 65536 ∧ s.2.2 = s.1.2⌝ ∗ cache_inv s.2.1.2 ∗ (∃ A', pools_inv s.2.2 A') ∗ pool_block 3 65536)%I.
Proof. split; [done|]. by apply (cache_lifo _ _ _ 3 48 65536). Defined.
(** An allocation followed by its release. *)
Lemma segment_deallocate_correct_witness :
  ∃ h m a h' m', SegmentHeap.deallocate h (payloadOf a) m = Ok h' m' ∧ sat (seg_inv h' ∅) m'.
Proof.
  destruct (sat_wp (seg_inv SegmentHeap_init ∅) (SegmentHeap.allocate SegmentHeap_init 5000) (λ r, ⌜r.1 = 0⌝ ∨
    ∃ a cap, ⌜16 ≤ cap⌝ ∗ seg_inv r.2 {[ a := cap ]} ∗ raw (payloadOf a) cap)%I mem_init) as (r&m&Hrun&Hsat).
  - iIntros "H". iApply SegmentAlloc.wp_allocate; [lia|by vm_compute|]. iFrame "H".
    iIntros (p h') "[[[% _] _]|(%a & %cap & (->&_&_&_&%) & H)]"; [by iLeft|iRight]. iExists a, cap. iFrame "H".
    destruct (total_of_bounds 5000) as (_&_&?&_); [lia|by vm_compute|]. unfold kBlockHeaderSize in *. iPureIntro. lia.
  - apply sat_start, seg_inv_init.
  - assert (r.1 ≠ 0) as Hne.
    { assert (match SegmentHeap.allocate SegmentHeap_init 5000 mem_init with Ok (p, _) _ => negb (p =? 0) | _ => false end = true)
        as Hok by (by vm_compute). rewrite Hrun in Hok. destruct r as [p h]. by apply Z.eqb_neq, negb_true_iff. }
    eapply (sat_mono _ (∃ a cap, ⌜16 ≤ cap⌝ ∗ seg_inv r.2 {[ a := cap ]} ∗ raw (payloadOf a) cap)%I) in Hsat;
      [|iIntros "[%Hz|$]"; destruct (Hne Hz)].
    apply sat_exist in Hsat as [a Hsat]. apply sat_exist in Hsat as [cap [Hcap Hsat]%sat_pure_l].
    destruct (segment_deallocate_correct r.2 {[ a := cap ]} a cap (lookup_singleton_eq _ _) Hcap emp%I m)
      as (h'&m'&Hrun'&Hsat').
    { eapply sat_mono; [|exact Hsat]. iIntros "[$ $]". }
    exists r.2, m, a, h', m'. split; [exact Hrun'|]. eapply sat_mono; [|exact Hsat'].
    rewrite delete_singleton_eq. iIntros "[$ _]".
Defined.
(** A free block of a fresh segment split in two. *)
Definition demo_blocks : gmap Z blk :=
  {[ 65536 := Blk 96 0 true true false 65536; 65632 := Blk 4194208 96 false false true 65536 ]}.
Lemma findFit_first_fit_witness :
  hoare (heap_mem SegmentHeap_init ∅ (replicate 18 [])) (findFit SegmentHeap_init 48) (λ r,
    ⌜(r = 0 ∧ ∀ a b, (∅ : gmap Z blk) !! a = Some b → bfree b = true → bsize b < 48) ∨
     (r ≠ 0 ∧ first_fit (replicate 18 []) (free_sizes ∅) 48 (Z.to_nat (binIndex 48)) r)⌝ ∗
    heap_mem SegmentHeap_init ∅ (replicate 18 []))%I.
Proof. apply (findFit_first_fit SegmentHeap_init ∅ (replicate 18 []) 48). lia. Defined.
Lemma large_roundtrip_witness :
  ∃ r l' m', run (p ← LargeAllocator.allocate 1000000;
     if p =? 0 then mret (false, 0) else
     cap ← LargeAllocator.payloadCapacity p; ok ← LargeAllocator.deallocate p; mret (ok, cap)) LargeAllocator_init mem_init
     = Ok (r, l') m' ∧ l' = LargeAllocator_init.
Proof.
  assert (1000000 + 16 + os_page - 1 < W64) as Hlt by (by vm_compute).
  pose proof (large_roundtrip 1000000 LargeAllocator_init ltac:(lia) Hlt emp%I mem_init) as Hrt.
  destruct Hrt as ([r l']&m'&Hrun&Hsat).
  { apply sat_start. iSplit; [|done]. iApply large_inv_init. }
  exists r, l', m'. split; [exact Hrun|]. eapply sat_mono in Hsat; [|iIntros "[H _]"; iExact "H"].
  apply sat_pure_l in Hsat as [[Hl _] _]. exact Hl.
Defined.
Lemma guards_roundtrip_witness :
  hoare (raw 65552 164) (u ← applyGuards 65552 100; ok ← verifyGuards u 100; mret (u, ok)) (λ x,
    ⌜x = (65584, true)⌝ ∗ guards 65584 100 front_guard rear_guard ∗ raw 65584 100)%I ∧
  hoare (guards 65584 100 rear_guard rear_guard) (verifyGuards 65584 100) (λ ok,
    ⌜ok = true ↔ rear_guard = front_guard ∧ rear_guard = rear_guard⌝ ∗ guards 65584 100 rear_guard rear_guard)%I.
Proof. by apply (guards_roundtrip 65552 100 rear_guard rear_guard 65584). Defined.
Lemma tags_independent_witness :
  hoare (tag 65536 96 false true false)
    (_ ← setSize 65536 48; _ ← setFlag 65536 kFreeFlag true;
     s ← SegmentHeap.size 65536; f ← isFree 65536; fi ← isFirst 65536; la ← isLast 65536; mret (s, f, fi, la))
    (λ x, ⌜x = (48, true, true, false)⌝ ∗ tag 65536 48 true true false)%I.
Proof. by apply (tags_independent 65536 96 48 false true false true). Defined.
End demo.
