(* ===== verification/Correctness.v ===== *)
(** The main theorems: executions of clients refine the specification, and the
    operations of the allocator meet their contracts on every branch, with every
    frame.  Each theorem comes with an instance on the operating system of
    [Platform]. *)

From stdpp Require Import gmap.
From iris.proofmode Require Import proofmode.
From Stdlib Require Import QArith.QArith.
From S2P Require Import Prelude.
From S2P Require Import HeapProp.
From S2P Require Import Memory.
From S2P Require Import Platform.
From S2P Require Import Logic.
From S2P Require Import BlockHeader.
From S2P Require Import Prog.
From S2P Require Import StatisticsCollector.
From S2P Require Import SegmentStats.
From S2P Require Import Config.
From S2P Require Import DebugLayer.
From S2P Require Import AllocatorImpl.
From S2P Require Import SmallTier.
From S2P Require Import RawAlloc.
From S2P Require Import AllocatorInv.
From S2P Require Import Allocate.
From S2P Require Import Deallocate.
From S2P Require Import Client.
From S2P Require Import Usage.

Open Scope Z_scope.

(** A process with one fresh allocator. *)
Definition fresh_impl (cfg : AllocatorConfig) : AllocatorImpl := AllocatorImpl_init cfg 1 ∅ (λ _, false) (λ _, false).
Lemma no_slots (self : Z) (tid : Z) (t : ThreadCache.ThreadCache) :
  (∅ : gmap Z ThreadCache.ThreadCache) !! tid = Some t → ThreadCache.central_ t ≠ self.
Proof. by rewrite lookup_empty. Qed.

(** ** Executions *)

(** C1: refinement, for whole executions.  Whatever the operating system answers,
    a client that keeps its obligations - sizes are machine words, it touches only
    its own blocks, it frees only its own blocks unless pointers are tracked - runs
    for any number of operations, from any threads, without undefined behaviour,
    abort or divergence, and every answer it gets is one the specification allows:
    new blocks are aligned and apart from all live ones, contents are what was last
    written, errors are exactly the documented ones. *)
Theorem client_refines `{HOS : !OS, HL : !OSLaws} c fuel n cfg self tls throws dbg m :
  abortOnError cfg = false → valid_client cfg c →
  (∀ tid t, tls !! tid = Some t → ThreadCache.central_ t ≠ self) →
  (enableLeakTracking cfg = true → ∀ u, dbg u = false) →
  ∃ tr w' m' σ,
    run (client_run c (S fuel) n []) (AllocatorImpl_init cfg self tls throws dbg) m = Ok (tr, w') m' ∧
    spec_trace cfg tr σ ∧ sat (client_inv cfg w' σ) m'.
Proof.
  intros Hab Hc Htls Hdbg.
  destruct (sat_wpp (client_inv cfg (AllocatorImpl_init cfg self tls throws dbg) spec_init)
    (client_run c (S fuel) n []) (AllocatorImpl_init cfg self tls throws dbg)
    (λ tr w', ∃ σ, ⌜spec_trace cfg tr σ⌝ ∗ client_inv cfg w' σ)%I m) as (tr&w'&m'&Hrun&Hsat).
  - iIntros "H". iApply (wpp_client_run c fuel n [] cfg _ spec_init); [done|done|apply trace_nil|].
    iFrame "H". iIntros (tr w' σ Htr) "H". iExists σ. by iFrame.
  - by apply sat_start, client_inv_init.
  - apply sat_exist in Hsat as [σ [Htr Hsat]%sat_pure_l]. by exists tr, w', m', σ.
Qed.
(** Allocate, grow from another thread, free: with tracking, so that every pointer
    may be passed. *)
Definition demo_client : strategy := λ tr,
  match tr with
  | [] => Some (1, Malloc 100)
  | [(_, APtr (inl u))] => Some (2, Realloc u 200)
  | [_; (_, APtr (inl v))] => Some (1, Free v)
  | _ => None
  end.
Lemma demo_valid `{HOS : !OS} : valid_client debug demo_client.
Proof.
  intros tr σ tid o _. unfold demo_client.
  destruct tr as [|[? [[u|]| | | |]] [|[? [[v|]| | | |]] [|]]]; intros [= <- <-].
  1: by vm_compute.
  1: by split; [right; right|vm_compute].
  all: by right; right.
Qed.
Lemma client_refines_witness :
  ∃ tr w' m' σ,
    @run _ _ (@client_run (bump_os 9) demo_client 1 3 []) (fresh_impl debug) mem_init = Ok (tr, w') m' ∧
    @spec_trace (bump_os 9) debug tr σ ∧ @sat (bump_os 9) (@client_inv (bump_os 9) (bump_laws 9) debug w' σ) m' .
Proof.
  apply (client_refines (HOS := bump_os 9) (HL := bump_laws 9) demo_client 0 3 debug 1 ∅ (λ _, false) (λ _, false)
           mem_init);
    [done|apply demo_valid|apply no_slots|done].
Defined.

(** C2: preservation.  From any state that implements the specification, every
    valid operation - allocate, aligned allocate, free, reallocate, size query,
    count, a byte written or read, a thread's exit - completes with an answer the
    specification allows and re-establishes the invariant, and memory outside is
    untouched. *)
Theorem client_step `{HOS : !OS, HL : !OSLaws} fuel tid o cfg w σ :
  abortOnError cfg = false → valid cfg σ o →
  phoare (client_inv cfg w σ) (exec (S fuel) tid o) w
    (λ r w', ∃ σ', ⌜spec_step cfg σ o r σ'⌝ ∗ client_inv cfg w' σ')%I.
Proof.
  intros Hab Hv. apply phoare_wpp. intros R. iIntros "[H HR]". iApply client_exec; [done|done|].
  iFrame "H". iIntros (r w' σ' Hs) "H". iApply "HR". iExists σ'. by iFrame.
Qed.
Lemma client_step_witness :
  let os := bump_os 9 in
  ∃ r w' m', run (exec 1 7 (Malloc 5000)) (fresh_impl debug) mem_init = Ok (r, w') m' ∧
    ∃ σ', spec_step debug spec_init (Malloc 5000) r σ'.
Proof.
  intros os.
  destruct (client_step (HOS := os) (HL := bump_laws 9) 0 7 (Malloc 5000) debug (fresh_impl debug) spec_init
    eq_refl ltac:(by vm_compute) emp%I mem_init) as ([r w']&m'&Hrun&Hsat).
  { apply sat_start. iSplit; [|done]. iApply (client_inv_init (HL := bump_laws 9)); [apply no_slots|done]. }
  exists r, w', m'. split; [exact Hrun|].
  eapply sat_mono in Hsat; [|iIntros "[H _]"; iExact "H"]. apply sat_exist in Hsat as [σ' [Hs _]%sat_pure_l].
  by exists σ'.
Defined.

(** C20: statistics are exact.  Whenever an implementation serves a client, the
    snapshot counts exactly the client's blocks and their bytes - no counter has
    wrapped, because the blocks are disjoint -, at least as many bytes are reserved
    as are requested, and both fragmentation ratios lie in [0, 1). *)
Theorem statistics_exact `{HOS : !OS, HL : !OSLaws} cfg w σ :
  phoare (client_inv cfg w σ) statistics w (λ s w',
    ⌜w' = w ∧ activeAllocations s = Z.of_nat (size (s_live σ)) ∧ currentUsage s = usage (s_live σ) ∧
     currentUsage s ≤ reservedBytes s ∧
     (0 <= internalFragmentation s < 1)%Q ∧ (0 <= externalFragmentation s < 1)%Q⌝ ∗
    client_inv cfg w σ)%I.
Proof.
  apply phoare_wpp. intros R. iIntros "[(%Hpure & %L & HI & Hcl) HR]".
  iAssert ⌜live_ok L ∧ stats_ok (get_stats w) L⌝%I as %[Hlive (Hact&Hreq&Hres)].
  { iDestruct "HI" as "(%C & (% & _ & % & _) & _)". done. }
  iAssert ⌜size L = size (s_live σ) ∧ map_sum a_size L = usage (s_live σ) ∧
    usage (s_live σ) ≤ map_sum a_reserved L < W64 ∧ Z.of_nat (size (s_live σ)) ≤ usage (s_live σ)⌝%I
    as %(Hsz&Hus&Hle&Hcnt).
  { iDestruct "HI" as "(%C & _ & _ & HL)". iApply (client_usage with "[$Hcl $HL]"). done. }
  iApply wpp_statistics. iFrame "HI". iIntros (l Hl) "HI".
  iApply ("HR" $! _ w). iSplit; [|iSplit; [done|iExists L; iFrame]].
  iPureIntro. unfold stats_snapshot. cbn [activeAllocations currentUsage reservedBytes internalFragmentation externalFragmentation].
  rewrite Hact Hreq Hres Hus Hsz. rewrite !wrap64_small; [|unfold in64; lia..].
  assert (usage (s_live σ) = 0 → map_sum a_reserved L = 0) as Hempty.
  { intros H0. assert (L = ∅) as -> by (apply map_size_empty_inv; lia). done. }
  split_and!; try done; try lia; try by apply fragmentation_range.
  all: apply internal_ratio_range; [lia|done].
Qed.
Lemma statistics_exact_witness :
  let os := bump_os 9 in
  ∃ s w' m', run statistics (fresh_impl release) mem_init = Ok (s, w') m' ∧
    activeAllocations s = 0 ∧ (0 <= externalFragmentation s < 1)%Q.
Proof.
  intros os. destruct (statistics_exact (HOS := os) (HL := bump_laws 9) release (fresh_impl release) spec_init
    emp%I mem_init) as ([s w']&m'&Hrun&Hsat).
  { apply sat_start. iSplit; [|done]. iApply (client_inv_init (HL := bump_laws 9)); [apply no_slots|done]. }
  exists s, w', m'. split; [exact Hrun|].
  eapply sat_mono in Hsat; [|iIntros "[H _]"; iExact "H"]. apply sat_pure_l in Hsat as [(_&Hact&_&_&_&Hext) _].
  exact (conj Hact Hext).
Defined.

(** ** The operations *)
Section operations.
Context `{HOS : !OS, HL : !OSLaws}.


(** C11: [alignedAllocate], on every branch.  An alignment that is not a power of two
    up to 2^30 is refused; otherwise the pointer is a multiple of the alignment and
    everything [allocate] promises holds of it. *)
Theorem alignedAllocate_correct fuel tid alignment size w L :
  in64 size → in64 alignment → abortOnError (cfg_of w) = false →
  phoare (impl_inv w L) (alignedAllocate (S fuel) tid alignment size) w (λ res w',
    (⌜¬ valid_alignment alignment ∧ res = inr InvalidAlignment ∧ failed w w' InvalidAlignment 0⌝ ∗ impl_inv w' L) ∨
    (⌜valid_alignment alignment⌝ ∗
     alloc_post w L (request size) alignment
       (if alignment <=? kDefaultAlignment then default_shim (cfg_of w) else Aligned) res w'))%I.
Proof. intros. apply phoare_wpp. intros R. by apply wpp_alignedAllocate. Qed.

(** C9: [deallocate] of a live pointer succeeds, whatever tier, shim or alignment the
    block has: the block's memory goes back to the allocator, the counters lose
    exactly its size and its reservation, the tables move it from live to freed,
    and a diagnostic is raised exactly when its guards are checked and changed. *)
Theorem deallocate_correct tid u a front rear w L :
  L !! u = Some a →
  abortOnError (cfg_of w) = false ∨ tampered (cfg_of w) a front rear = false →
  phoare (impl_inv w L ∗ raw u (a_size a) ∗ guard_res u a front rear) (deallocate tid u) w (λ r w',
    ⌜r = inl tt ∧ deallocated w w' u a front rear⌝ ∗ impl_inv w' (delete u L))%I.
Proof.
  intros Ha Hab. apply phoare_wpp. intros R. iIntros "[(HI & Hu & Hg) HR]".
  iApply (wpp_deallocate _ _ a front rear w L); [done|done|]. iFrame "HI Hu Hg". iIntros (w' Hd) "HI".
  iApply "HR". iSplit; [done|]. by iApply freed_inv_done.
Qed.

(** C15: heap corruption is reported exactly when it happened.  Freeing a guarded block
    raises [HeapCorruption] if and only if one of the forty-eight guard bytes no
    longer has the guard pattern; the block is freed either way. *)
Theorem corruption_reported tid u a front rear w L :
  L !! u = Some a → a_shim a = Guarded → enableGuardBytes (cfg_of w) = true → abortOnError (cfg_of w) = false →
  phoare (impl_inv w L ∗ raw u (a_size a) ∗ guards u (a_size a) front rear) (deallocate tid u) w (λ r w',
    ⌜r = inl tt ∧
     (front = front_guard ∧ rear = rear_guard → reports w' = reports w) ∧
     (¬ (front = front_guard ∧ rear = rear_guard) →
        reports w' = MkReport HeapCorruption u (errorHandler (cfg_of w)) :: reports w)⌝ ∗
    impl_inv w' (delete u L))%I.
Proof.
  intros Ha Hsh Hg Hab. apply phoare_wpp. intros R. iIntros "[(HI & Hu & Hgr) HR]".
  iApply (wpp_deallocate _ _ a front rear w L); [done|by left|]. unfold guard_res. rewrite Hsh.
  iFrame "HI Hu Hgr". iIntros (w' (_&_&_&_&Hr)) "HI".
  iApply "HR". iSplit; [|by iApply freed_inv_done]. iPureIntro. rewrite Hr. unfold warned, tampered.
  rewrite (bool_decide_eq_true_2 (a_shim a = Guarded)) // Hg. cbn [andb].
  split; [done|]. split; intros Hb.
  - by rewrite bool_decide_eq_true_2.
  - by rewrite bool_decide_eq_false_2.
Qed.

(** C13: with tracking, a pointer that is not live is refused without a look at memory:
    [DoubleFree] if it was freed and not handed out again, [InvalidPointer]
    otherwise; only the diagnostic is new. *)
Theorem deallocate_untracked_refused tid u w L :
  u ≠ 0 → enableLeakTracking (cfg_of w) = true → L !! u = None → abortOnError (cfg_of w) = false →
  phoare (impl_inv w L) (deallocate tid u) w (λ r w',
    ⌜r = inr (untracked_error w u) ∧ w' = add_report w (untracked_error w u) u⌝ ∗ impl_inv w' L)%I.
Proof.
  intros Hu Hlk HL' Hab. apply phoare_wpp. intros R. iIntros "[HI HR]".
  iApply (wpp_deallocate_untracked _ _ _ L); [done..|]. iFrame "HI". iIntros "HI".
  iApply "HR". by iSplit.
Qed.

(** C14: without tracking, the sixteen bytes before the pointer decide: a tag that is no
    tier or a state that is neither of the two is [InvalidPointer], a freed state is
    [DoubleFree]; nothing is freed. *)
Theorem deallocate_header_refused tid u tier state e w :
  0 < headerOf u → enableLeakTracking (cfg_of w) = false → abortOnError (cfg_of w) = false →
  header_error tier state = Some e →
  phoare ((headerOf u + 8)%Z ↦16 tier ∗ (headerOf u + 10)%Z ↦16 state) (deallocate tid u) w (λ r w',
    ⌜r = inr e ∧ w' = add_report w e u⌝ ∗ (headerOf u + 8)%Z ↦16 tier ∗ (headerOf u + 10)%Z ↦16 state)%I.
Proof.
  intros Hu Hlk Hab He. apply phoare_wpp. intros R. iIntros "[[Ht Hs] HR]".
  iApply (wpp_deallocate_header tid u tier state e w ∅ emp%I); [done..|]. iFrame "Ht Hs". iSplit; [done|].
  iIntros "(Ht & Hs & _)". iApply "HR". by iFrame.
Qed.

(** C10: [reallocate] of a live block to a non-zero size either fails as [allocate]
    does, with the old block and its contents untouched, or returns a new block
    with the longest common prefix copied, the old one freed. *)
Theorem reallocate_correct fuel tid u a bs front rear newSize w L :
  L !! u = Some a → Z.of_nat (length bs) = a_size a → in64 newSize → newSize ≠ 0 →
  abortOnError (cfg_of w) = false →
  phoare (impl_inv w L ∗ u ↦∗ bs ∗ guard_res u a front rear) (reallocate (S fuel) tid u newSize) w (λ r w',
    match r with
    | inr e => ⌜alloc_error e newSize ∧ failed w w' e 0⌝ ∗
               impl_inv w' L ∗ u ↦∗ bs ∗ guard_res u a front rear
    | inl u' => ∃ a' bs', ⌜L !! u' = None ∧ a_size a' = newSize ∧ u' mod 16 = 0 ∧ Z.of_nat (length bs') = newSize ∧
                  take (Z.to_nat (Z.min (a_size a) newSize)) bs' = take (Z.to_nat (Z.min (a_size a) newSize)) bs⌝ ∗
                impl_inv w' (delete u (<[u' := a']> L)) ∗ u' ↦∗ bs' ∗ guard_res u' a' front_guard rear_guard
    end)%I.
Proof.
  intros Ha Hlen Hin Hnz Hab. apply phoare_wpp. intros R. iIntros "[(HI & Hu & Hg) HR]".
  iApply (wpp_reallocate fuel tid u a bs front rear newSize w L); [done..|]. iFrame "HI Hu Hg". iSplit.
  - iIntros (e w' He) "HI Hu Hg". iApply "HR". by iFrame.
  - iIntros (u' a' bs' w1 w' (?&?&?&?&?&?&?&_)) "HI Hu Hg". iApply "HR". iExists a', bs'. by iFrame.
Qed.

(** [allocationSize] is the size that was asked for; it is zero for null and, with
    tracking, for every pointer that is not live. *)
Theorem allocationSize_correct u w L :
  is_Some (L !! u) ∨ u = 0 ∨ (enableLeakTracking (cfg_of w) = true ∧ L !! u = None) →
  phoare (impl_inv w L) (allocationSize u) w (λ n w',
    ⌜w' = w ∧ n = match L !! u with Some a => if u =? 0 then 0 else a_size a | None => 0 end⌝ ∗ impl_inv w L)%I.
Proof.
  intros Hu. apply phoare_wpp. intros R. iIntros "[HI HR]". destruct (Z.eqb_spec u 0) as [->|Hne].
  - iApply (wpp_allocationSize_unknown _ _ L); [by left|]. iFrame "HI". iIntros "HI". iApply "HR". iFrame.
    iPureIntro. by destruct (L !! 0).
  - destruct (L !! u) as [a|] eqn:Ha.
    + iApply wpp_allocationSize; [done|]. iFrame "HI". iIntros "HI". iApply "HR". by iFrame.
    + destruct Hu as [[? ?]|[?|[? _]]]; [done|done|].
      iApply (wpp_allocationSize_unknown _ _ L); [by right|]. iFrame "HI". iIntros "HI". iApply "HR". by iFrame.
Qed.

(** The leak report.  With tracking, the destructor prints a message exactly when
    allocations are live, with their number; without tracking it prints nothing. *)
Theorem leak_message_correct w L m :
  sat (impl_inv w L) m →
  leak_message w =
    if enableLeakTracking (cfg_of w) && (0 <? Z.of_nat (size L)) then Some (Z.of_nat (size L)) else None.
Proof.
  intros Hsat. assert (tracking_ok (cfg_of w) (AllocatorImpl.debug_ w) L) as Htr.
  { apply (sat_pure _ m). eapply sat_mono; [|done]. by iIntros "(%C & (_ & _ & _ & %) & _)". }
  unfold leak_message, tracking_ok in *. destruct (enableLeakTracking (cfg_of w)); [|done].
  destruct Htr as [-> _]. rewrite map_size_fmap. by destruct (0 <? _).
Qed.
End operations.

(** C34: with [abortOnError], the first wrong free ends the program. *)
Theorem wrong_free_aborts `{!OS} tid u w m :
  u ≠ 0 → abortOnError (cfg_of w) = true → enableLeakTracking (cfg_of w) = true →
  live_ (AllocatorImpl.debug_ w) !! u = None → run (deallocate tid u) w m = Aborted.
Proof.
  intros Hu Hab Hlk Hn. unfold deallocate. rewrite (proj2 (Z.eqb_neq u 0) Hu).
  cbn -[bool_decide]. cbv [mbind cmd_bind mret cmd_ret]. cbn -[bool_decide]. rewrite Hlk.
  cbn -[bool_decide]. cbv [mbind cmd_bind mret cmd_ret]. cbn -[bool_decide]. rewrite Hn.
  rewrite bool_decide_eq_false_2; [|by intros []]. cbn -[bool_decide].
  cbv [mbind cmd_bind mret cmd_ret]. cbn -[bool_decide]. by rewrite Hab.
Qed.

(** ** Instances *)
Section demo.
#[local] Instance demo_os : OS := bump_os 9.
#[local] Instance demo_laws : OSLaws := bump_laws 9.

(** After one allocation of a hundred bytes in a new process. *)
Definition demo_ok (cfg : AllocatorConfig) : bool :=
  match run (allocate 1 1 100) (fresh_impl cfg) mem_init with Ok (inl _, _) _ => true | _ => false end.
Lemma demo_block cfg :
  abortOnError cfg = false → demo_ok cfg = true →
  ∃ w m u a bs,
    sat (impl_inv w {[ u := a ]} ∗ u ↦∗ bs ∗ guard_res u a front_guard rear_guard) m ∧ cfg_of w = cfg ∧
    a_size a = 100 ∧ a_shim a = default_shim cfg ∧ Z.of_nat (length bs) = 100.
Proof.
  intros Hab Hok.
  destruct (sat_wpp (impl_inv (fresh_impl cfg) ∅) (allocate 1 1 100) (fresh_impl cfg)
    (alloc_post (fresh_impl cfg) ∅ (request 100) 16 (default_shim cfg)) mem_init) as (r&w&m&Hrun&Hsat).
  - iIntros "H". iApply wpp_allocate; [by vm_compute|done|]. iFrame "H". iIntros (r w) "H". done.
  - apply sat_start, impl_inv_init; [apply no_slots|done].
  - unfold demo_ok in Hok. rewrite Hrun in Hok. destruct r as [u|]; [|done]. unfold alloc_post in Hsat.
    apply sat_exist in Hsat as [a Hsat]. apply sat_exist in Hsat as [bs Hsat].
    apply sat_pure_l in Hsat as [(_&_&Hsz&Hsh&_&(Hc&_)&Hlen&_) Hsat]. by exists w, m, u, a, bs.
Qed.

Lemma alignedAllocate_correct_witness :
  ∃ r w' m', run (alignedAllocate 1 5 64 1000) (fresh_impl release) mem_init = Ok (r, w') m'.
Proof.
  destruct (alignedAllocate_correct 0 5 64 1000 (fresh_impl release) ∅ ltac:(by vm_compute) ltac:(by vm_compute)
    eq_refl emp%I mem_init) as ([r w']&m'&Hrun&Hsat).
  { apply sat_start. iSplit; [|done]. iApply impl_inv_init; [apply no_slots|done]. }
  exists r, w', m'. exact Hrun.
Defined.

Lemma deallocate_correct_witness :
  ∃ w m u w' m', run (deallocate 2 u) w m = Ok (inl tt, w') m' ∧ sat (impl_inv w' ∅) m'.
Proof.
  destruct (demo_block release eq_refl ltac:(by vm_compute)) as (w&m&u&a&bs&Hsat&Hc&Hsz&Hsh&Hlen).
  destruct (deallocate_correct 2 u a front_guard rear_guard w {[ u := a ]} ltac:(apply lookup_singleton_eq)
    ltac:(left; by rewrite Hc) emp%I m) as ([r w']&m'&Hrun&Hsat').
  { eapply sat_mono; [|exact Hsat]. iIntros "($ & Hu & $)". rewrite Hsz -Hlen. by iApply raw_intro. }
  exists w, m, u. eapply sat_mono in Hsat'; [|iIntros "[H _]"; iExact "H"].
  apply sat_pure_l in Hsat' as [[Hr _] Hsat']. cbn in Hr. subst r.
  exists w', m'. split; [exact Hrun|].
  by rewrite delete_singleton_eq in Hsat'.
Defined.

Lemma corruption_reported_witness :
  ∃ w m u w' m', run (deallocate 2 u) w m = Ok (inl tt, w') m' ∧ reports w' = reports w.
Proof.
  destruct (demo_block debug eq_refl ltac:(by vm_compute)) as (w&m&u&a&bs&Hsat&Hc&Hsz&Hsh&Hlen).
  destruct (corruption_reported 2 u a front_guard rear_guard w {[ u := a ]} ltac:(apply lookup_singleton_eq)
    Hsh ltac:(by rewrite Hc) ltac:(by rewrite Hc) emp%I m) as ([r w']&m'&Hrun&Hsat').
  { eapply sat_mono; [|exact Hsat]. unfold guard_res. rewrite Hsh. iIntros "($ & Hu & $)".
    rewrite Hsz -Hlen. by iApply raw_intro. }
  exists w, m, u. eapply sat_mono in Hsat'; [|iIntros "[H _]"; iExact "H"].
  apply sat_pure_l in Hsat' as [(Hr0&Hr&_) _]. cbn in Hr0. subst r.
  exists w', m'. split; [exact Hrun|by apply Hr].
Defined.

Lemma deallocate_untracked_refused_witness :
  ∃ w' m', run (deallocate 2 4096) (fresh_impl debug) mem_init = Ok (inr InvalidPointer, w') m'.
Proof.
  destruct (deallocate_untracked_refused 2 4096 (fresh_impl debug) ∅ ltac:(done) eq_refl ltac:(apply lookup_empty)
    eq_refl emp%I mem_init) as ([r w']&m'&Hrun&Hsat).
  { apply sat_start. iSplit; [|done]. iApply impl_inv_init; [apply no_slots|done]. }
  eapply sat_mono in Hsat; [|iIntros "[H _]"; iExact "H"]. apply sat_pure_l in Hsat as [[Hr _] _].
  cbn in Hr. subst r. exists w', m'. exact Hrun.
Defined.
Lemma deallocate_header_refused_witness :
  header_error 0 0 = Some InvalidPointer ∧
  phoare ((headerOf 4096 + 8)%Z ↦16 0 ∗ (headerOf 4096 + 10)%Z ↦16 0) (deallocate 2 4096) (fresh_impl release) (λ r w',
    ⌜r = inr InvalidPointer ∧ w' = add_report (fresh_impl release) InvalidPointer 4096⌝ ∗
    (headerOf 4096 + 8)%Z ↦16 0 ∗ (headerOf 4096 + 10)%Z ↦16 0)%I.
Proof. split; [done|]. by apply (deallocate_header_refused 2 4096 0 0 InvalidPointer (fresh_impl release)). Defined.

(** A small block as the release configuration hands it out. *)
Definition demo_small : alloc := MkAlloc 65552 (MkBase 100 Small 112 112) 100 Plain.

Lemma reallocate_correct_witness :
  ∃ w m u r w' m', run (reallocate 1 2 u 5000) w m = Ok (r, w') m'.
Proof.
  destruct (demo_block debug eq_refl ltac:(by vm_compute)) as (w&m&u&a&bs&Hsat&Hc&Hsz&Hsh&Hlen).
  destruct (reallocate_correct 0 2 u a bs front_guard rear_guard 5000 w {[ u := a ]} ltac:(apply lookup_singleton_eq)
    ltac:(by rewrite Hsz) ltac:(by vm_compute) ltac:(done) ltac:(by rewrite Hc) emp%I m) as ([r w']&m'&Hrun&_).
  { eapply sat_mono; [|exact Hsat]. iIntros "($ & $ & $)". }
  exists w, m, u, r, w', m'. exact Hrun.
Defined.
Lemma allocationSize_correct_witness :
  ∃ w m u w' m', u ≠ 0 ∧ run (allocationSize u) w m = Ok (100, w') m'.
Proof.
  destruct (demo_block release eq_refl ltac:(by vm_compute)) as (w&m&u&a&bs&Hsat&Hc&Hsz&Hsh&Hlen).
  assert (u ≠ 0) as Hu.
  { apply (sat_pure _ m). eapply sat_mono; [|exact Hsat]. iIntros "(_ & Hu & _)".
    iDestruct (bytes_at_range with "Hu") as %?; [lia|]. iPureIntro. lia. }
  destruct (allocationSize_correct u w {[ u := a ]} ltac:(left; rewrite lookup_singleton_eq; eauto) emp%I m)
    as ([n w']&m'&Hrun&Hsat').
  { eapply sat_mono; [|exact Hsat]. iIntros "($ & _)". }
  eapply sat_mono in Hsat'; [|iIntros "[H _]"; iExact "H"]. apply sat_pure_l in Hsat' as [[_ Hn] _].
  cbn in Hn. subst n. rewrite lookup_singleton_eq (proj2 (Z.eqb_neq u 0) Hu) Hsz in Hrun. by exists w, m, u, w', m'.
Defined.
Lemma leak_message_correct_witness : ∃ w, leak_message w = Some 1.
Proof.
  destruct (demo_block debug eq_refl ltac:(by vm_compute)) as (w&m&u&a&bs&Hsat&Hc&Hsz&Hsh&Hlen).
  exists w. rewrite (leak_message_correct w {[ u := a ]} m).
  - by rewrite Hc map_size_singleton.
  - eapply sat_mono; [|exact Hsat]. iIntros "($ & _)".
Defined.
Lemma wrong_free_aborts_witness :
  run (deallocate 1 4096) (fresh_impl (MkConfig false false true true true true false)) mem_init = Aborted.
Proof. by apply wrong_free_aborts. Defined.
End demo.
