(* ===== verification/Findings.v ===== *)
(** What the model shows about the code where it does not do what its documentation
    says.  Every statement is a closed run of the modelled program on the operating
    system of [Platform]. *)

From stdpp Require Import gmap.
From S2P Require Import Prelude.
From S2P Require Import Memory.
From S2P Require Import Platform.
From S2P Require Import Logic.
From S2P Require Import Prog.
From S2P Require Import Config.
From S2P Require Import DebugLayer.
From S2P Require Import AllocatorImpl.
From S2P Require Import Correctness.

Section findings.
#[local] Instance findings_os : OS := bump_os 9.

Definition outcome {A} (r : res (A * AllocatorImpl)) : option A :=
  match r with Ok (x, _) _ => Some x | _ => None end.
(** Run [p]; then free what it returned, twice. *)
Definition free_twice (p : prog AllocatorImpl (expected Z)) : prog AllocatorImpl (expected () * expected ()) :=
  r ← p;
  match (r : expected Z) with
  | inl u => a ← deallocate 1 u; b ← deallocate 1 u; mret (a, b)
  | inr e => mret (inr e, inr e)
  end.

(** docs/memory-layout.md: the list node of a free medium block lies past both headers
    and keeps the header's state for double-free detection.  It does not keep the
    shim header of an aligned allocation whose shim is the block's first 16 bytes. *)
Lemma aligned_double_free_unreported :
  outcome (run (_ ← allocate 1 1 8016; free_twice (alignedAllocate 1 1 32 8000))
    (fresh_impl release) mem_init) = Some (inl (), inr InvalidPointer).
Proof. vm_compute. reflexivity. Qed.

(** docs/debugging.md: every header carries a state, and freeing a freed block reports
    [DoubleFree].  A large block's header is unmapped with the block: without
    tracking the second free reads memory that is gone. *)
Lemma large_double_free_faults :
  run (free_twice (allocate 1 1 300000)) (fresh_impl release) mem_init = Fault.
Proof. vm_compute. reflexivity. Qed.

(** docs/debugging.md: any changed byte of the 32-byte zones is detected on free.  The
    sixteen bytes next to the block are the shim's header, which is not verified: one
    byte written in front of the block sends [deallocate] to a wild address. *)
Lemma underflow_by_one_faults :
  run (r ← allocate 1 1 100;
       match (r : expected Z) with
       | inl u => _ ← io (store_byte (u - 1) Byte.x01); deallocate 1 u
       | inr e => mret (inr e)
       end) (fresh_impl debug) mem_init = Fault.
Proof. vm_compute. reflexivity. Qed.

(** [DebugLayer::track] swallows the exception of its table: a block that could not be
    recorded can never be freed. *)
Lemma untracked_block_cannot_be_freed :
  outcome (run (free_twice (allocate 1 1 100))
    (AllocatorImpl_init debug 1 ∅ (λ _, false) (λ _, true)) mem_init) =
  Some (inr InvalidPointer, inr InvalidPointer).
Proof. vm_compute. reflexivity. Qed.

(** [enableDoubleFreeDetection] is never read: a configuration that turns it off still
    reports double frees. *)
Lemma double_free_detection_cannot_be_disabled :
  outcome (run (free_twice (allocate 1 1 100))
    (fresh_impl (MkConfig false false false false true false false)) mem_init) =
  Some (inl (), inr DoubleFree).
Proof. vm_compute. reflexivity. Qed.
(** [deallocate] gives the block back before it removes the pointer from the table of
    live blocks.  Another thread can be handed the block, and record it, in between; the
    removal then takes the record of the new owner away, whose own free is refused. *)
Definition run_some {A} (n : nat) (p : prog AllocatorImpl A) : prog AllocatorImpl (prog AllocatorImpl A) :=
  Nat.iter n (λ go p, match p with Ret _ => mret p | Act f k => x ← act f; go (k x) end) mret p.
Definition freed_between (n : nat) : prog AllocatorImpl (bool * (expected () * expected ())) :=
  r ← allocate 1 1 5000;
  match (r : expected Z) with
  | inr e => mret (false, (inr e, inr e))
  | inl u =>
      first ← run_some n (deallocate 1 u);
      r' ← allocate 1 2 5000;
      a ← (first : prog AllocatorImpl (expected ()));
      b ← deallocate 2 u;
      mret (match (r' : expected Z) with inl u' => u' =? u | inr _ => false end, (a, b))
  end.
Lemma freed_between_actions_refused :
  outcome (run (freed_between 13) (fresh_impl debug) mem_init) = Some (true, (inl (), inr DoubleFree)).
Proof. vm_compute. reflexivity. Qed.
End findings.
